(* ===== verification/_CoqProject ===== *)
-Q . S2P
Prelude.v
RustStd.v
Types.v
SecureFs.v
Policy.v
Nonce.v
RateLimit.v
Allowlist.v
Attestation.v
AuditEntry.v
AuditLog.v
AuditChain.v
Health.v
Json.v
Client.v
AdapterConfig.v
Registry.v
Config.v
Metrics.v
Privilege.v
Systemd.v
Socket.v
Server.v
Typing.v
Startup.v
Decision.v
Interleave.v
Concurrency.v
Daemon.v
UnixConnect.v
Pam.v
DemoAdapter.v
Login.v
Sha256.v
ErrorText.v
JsonText.v
TestBench.v
TestsPolicy.v
TestsSecurity.v
TestsAudit.v
TestsAdapters.v
TestsEnds.v
Tests.v
Main.v
