(* ===== verification/Prelude.v ===== *)
(** * OLA: Open Linux Authentication

    A model of the OLA daemon, its PAM module and its demonstration adapter
    (the Rust crates [ola-core], [pam-ola] and [ola-adapter-demo-fido2] under
    [src/crates]), with the theorems that make them correct.

    ** The program

    A login program calls the PAM module.  The module asks the daemon, over a
    Unix socket and one JSON line, to verify a user ([verify_once]).  The
    daemon checks the peer's uid against its allowlist and its request rate,
    picks the adapter that owns the method, draws a nonce, and challenges the
    adapter, another process behind another socket, with the nonce and a
    deadline.  The adapter's answer carries evidence: a confidence, a time
    stamp and an HMAC over them.  The daemon spends the nonce, checks the HMAC
    under the adapter's key, lets its policy judge the evidence, appends the
    decision to a hash-chained audit log, and only then answers.  Trust
    material (allowlist, policy, adapter configurations, keys) is read from
    hardened files at start; SIGHUP reloads the first two.

    ** Files

    In dependency order; the definitions keep the names of the source.

    - [Prelude]: Rust's [Result] with the [?] operator ([let?]), mutexes that
      can be poisoned, bytes and strings, the tactic [peel], the hint
      database [ola].
    - [RustStd]: what the sources use of Rust's standard library: machine
      integers and their saturating, wrapping and checked operations, [trim],
      UTF-8, [lines], decimal numbers, hexadecimal, [f32] by its bits.
    - [Types]: core/types: names, methods, requests, results, decisions.
    - [SecureFs]: security/fs.rs: the checks on every sensitive file.
    - [Policy]: core/policy: loading, ordering and evaluating the rules.
    - [Nonce]: security/nonce.rs, with the abstract table it refines.
    - [RateLimit]: security/rate_limit.rs.
    - [Allowlist]: security/allowlist.rs.
    - [Attestation]: security/attestation: keys and evidence hashes.
    - [AuditEntry], [AuditLog], [AuditChain]: infrastructure/audit: entries and
      their hashed payload; the logger, its recovery and the verifier; the
      theorems about the chain.
    - [Health], [Client], [AdapterConfig], [Registry]: adapters: the health
      state machine, the client of one adapter, configuration files, routing.
      [Json] holds the values of [serde_json] they exchange.
    - [Config], [Metrics]: config.rs and audit/metrics.rs.
    - [Privilege]: security/privilege.rs and seccomp.rs over a kernel given by
      its laws, with the credentials of each thread and the filters in force.
    - [Systemd]: ipc/systemd.rs: the notification socket, the messages
      and the watchdog.
    - [Socket]: ipc/socket_setup.rs.
    - [Server]: ipc/protocol.rs and, of ipc/unix_socket.rs, [handle_client],
      [handle_verify_once] and their helpers, call by call.
    - [Typing]: the types that the checks of the code establish: bounded
      texts, confidences, registries.
    - [Startup]: of the same file, [run_server] up to its loop, with the trace
      of what it does, and the reload.
    - [Decision]: the theorems about answers.
    - [Interleave]: the way from a line to its answer cut at its operations on
      the shared stores, a scheduler that interleaves any number of
      verifications, cleanups, reloads and log rotations, and the refinement
      of the uncut functions by every schedule.
    - [Concurrency]: the theorems about interleaved verifications.
    - [Daemon]: the accept loop with its tasks, permits, signals, drain and
      abort as a labelled step relation, and the theorems about whole runs.
    - [UnixConnect], [Pam]: crates/pam-ola.
    - [DemoAdapter]: crates/ola-adapter-demo-fido2.
    - [Login]: the PAM module, the daemon and the demonstration adapter put
      together over their two sockets.
    - [ErrorText]: the texts of the errors of the components that read files.
    - [Sha256], [JsonText], [TestBench]: SHA-256 and HMAC, JSON, and a disk,
      after their standards: what the unit tests run on.
    - [TestsPolicy], [TestsSecurity], [TestsAudit], [TestsAdapters],
      [TestsEnds], [Tests]: the unit tests inside the source files under their
      own names, and that the definitions above pass them.
    - [Main]: main.rs.

    ** State and effects

    Shared state is passed explicitly: [Shared] holds the nonce store, the
    audit log, the rate limiter and the counters, each behind its mutex.
    Errors are values of [result].  What comes from outside is an input of the
    definition that reads it: clocks (nanoseconds), random draws, sockets, the
    answers of the file system ([Fs]), directory listings, environment
    variables, the user database.  Where the code awaits, other requests run:
    the operations they make on the shared state meanwhile are inputs as well
    ([ve_nonce_ops], [ve_audit_ops], [le_rate_ops]), and every theorem holds
    for all of them.  That these
    inputs are what the other calls do is shown in [Interleave], where several
    calls really take turns on one nonce store and one audit log.  Whole runs
    are sequences of operations ([Nonce], [RateLimit], [AuditLog]), of turns
    ([Interleave]) or of steps ([Daemon]).

    Code that is not part of the repository is a class: [Crypto] (SHA-256,
    HMAC, constant-time comparison), [AuditSerde], [WireSerde], [ServerSerde],
    [DemoSerde] (serde_json at the types used), [Kernel] (system calls on
    credentials); the TOML parsers and [f32::from_str] are function
    parameters.  What the code relies on is stated as laws of these classes
    ([CryptoLaws], [AuditSerdeLaws], [ContractLaws], [DemoLaws], [KernelLaws],
    [KernelGrants]); for each a concrete instance is given that satisfies
    them, on which the theorems are exercised.  Cryptographic strength is
    never assumed: theorems about hashes conclude up to an explicit collision.

    ** What is shown

    - Answers ([Decision], [Daemon]): exactly when a verification is allowed;
      that every decision on the wire has its acknowledged audit entry and no
      decision is sent without one; that the nonce of a request never outlives
      it; that strangers are not answered and change nothing; and, over every
      run of a production daemon with any reloads, what an allow rests on,
      from the files on disk to the response.
    - Interleaving ([Interleave], [Concurrency]): each line of a schedule is
      answered as [handle_line] and [handle_verify_once] do on their own with
      the operations of the others as inputs, and a reload in two pieces is
      [reload_state]; under every schedule, reloads and rotations included,
      evidence over a nonce lets at most as many verifications through as the
      nonce was spent, an allow rests on one configuration, that of the start
      or of the last reload before its line, a line read after a reload that
      took its peer off the list gets nowhere while what was under way goes
      on, and the types of the stores and the answers are kept.  With disks
      that fail cleanly, finite confidences and rotations that put a new file
      in place, every answered verification has its entry in a log that
      verifies (the rotated files followed by the one in use), and a daemon
      restarted on the log continues it.
    - Stores ([Nonce], [RateLimit], [AuditChain]): the nonce store refines a
      finite map of challenges, a nonce is spent at most once per issue, by
      its uid and in time; a bound on what the rate limiter lets in, also
      when callers are held up on their way to its lock; the audit log that a
      run of clean appends with finite confidences leaves verifies, tampering
      is evident, a restart continues the chain.
    - Trust ([SecureFs], [Policy], [Attestation], [Allowlist],
      [AdapterConfig], [Registry], [Config], [Startup], [Privilege],
      [Socket], [Systemd]): what every loaded file satisfies, what the evaluator and the
      evidence hash accept, that start-up stands on trusted material, that a
      reload is all or nothing, that root is gone for good, that the trace of
      a start reports readiness only after all of it, and when the watchdog is
      fed.
    - The daemon as a whole ([Daemon]): at most 16 connections, an exact
      gauge, stores in order in every reachable state, a drain that can always
      be finished.
    - The other ends ([Client], [Pam], [DemoAdapter]): the module reports
      success if and only if the daemon granted this user; adapter and daemon
      agree on the protocol, and the demonstration adapter answers nothing
      but what it was asked under a key it could load.
    - The whole ([Login]): three ends in order suffice for a login, from the
      module's request to the entry in the log.

    - Agreement with the program ([Tests]): the definitions pass the unit
      tests inside the source files, some in all surroundings the tests allow
      for, the others at chosen ones; the hashed payload of an audit entry
      has, byte for byte, the SHA-256 digest the sources record for it.

    Some theorems state behaviour that is not intended: a failed sync forks
    the audit chain, a non-finite confidence makes the log unreadable, a
    rotated log does not verify alone, a full daemon defers its signals, the
    other threads of a root daemon keep their inheritable capabilities, and a
    watchdog of less than a second is fed too late.

    ** Bounds and fuel

    Recursion is structural on the input wherever the code walks a list.  The
    rest is fuelled: decimal printing by 20 digits, enough for every [u64]
    ([parse_display]); the shortest decimal of an [f32] by 100 steps of a
    search that at most 45 exponents can occupy; reading a JSON text by its
    length, since every level takes a byte; drawing a nonce by the 16
    attempts of the code itself; looking up a user by 7 buffers, which
    [uid_lookup_total] shows to be all there are.  Loops that only the
    environment ends (a connection, a wait for a socket, the
    compare-and-swap) consume a list of what they meet and are [None] while
    they still wait.

    ** What is not modelled

    The tokio runtime beyond the interleaving above; the framing of lines by
    [LinesCodec]; the contents of log messages and of wrapped library errors;
    the umask; reading an [f32] from text.  A line of a connection is one step
    of [Daemon], whose inputs are the operations of the other lines; that
    these are what concurrent lines do is shown in [Interleave] for the lines
    that verify, and so a line that is under way across a reload or a
    cancellation is a state of [Interleave], not of [Daemon].  The Python
    client, the packaging, and the tests that drive the daemon over sockets or
    as a process are left out. *)

From Stdlib Require Export Ascii.
From stdpp Require Export strings gmap fin_maps sets numbers list.

(** ** Fallible computations: Rust's [Result] *)

Inductive result (A E : Type) : Type :=
| Ok (a : A)
| Err (e : E).
Arguments Ok {A E} a.
Arguments Err {A E} e.

#[global] Instance result_eq_dec `{EqDecision A, EqDecision E} :
  EqDecision (result A E).
Proof. solve_decision. Defined.

Declare Scope ola_scope.
Delimit Scope ola_scope with ola.

(** The [?] operator: stop with the error, or bind the value. *)
Notation "'let?' x ':=' e 'in' k" :=
  (match e with Ok x => k | Err err => Err err end)
  (at level 10, x pattern, e at level 200, k at level 200,
   format "'[' 'let?'  x  ':='  e  'in'  ']' '/' k") : ola_scope.
Open Scope ola_scope.

Definition map_err {A E F} (f : E → F) (r : result A E) : result A F :=
  match r with Ok a => Ok a | Err e => Err (f e) end.

Definition result_ok {A E} (r : result A E) : option A :=
  match r with Ok a => Some a | Err _ => None end.

Definition ok_or {A E} (e : E) (o : option A) : result A E :=
  match o with Some a => Ok a | None => Err e end.

Lemma Ok_inj {A E} (a b : A) : Ok (E := E) a = Ok b → a = b.
Proof. by intros [= ->]. Qed.

(** A [std::sync::Mutex]: [lock] fails once a holder has panicked. *)
Record Mutex (A : Type) := mk_mutex { poisoned : bool; guarded : A }.
Arguments mk_mutex {A} _ _.
Arguments poisoned {A} _.
Arguments guarded {A} _.

Definition lock {A} (m : Mutex A) : option A :=
  if poisoned m then None else Some (guarded m).

(** Release the guard with the value the critical section left behind. *)
Definition unlock {A} (a : A) : Mutex A := mk_mutex false a.

(** ** Bytes and strings *)

Abbreviation byte := ascii (only parsing).

Definition bytes_of (s : string) : list byte := String.list_ascii_of_string s.
Definition str_of (bs : list byte) : string := String.string_of_list_ascii bs.

Lemma str_of_bytes_of s : str_of (bytes_of s) = s.
Proof. apply String.string_of_list_ascii_of_string. Qed.

Lemma bytes_of_str_of bs : bytes_of (str_of bs) = bs.
Proof. apply String.list_ascii_of_string_of_list_ascii. Qed.

Lemma bytes_of_app a b : bytes_of (a +:+ b) = bytes_of a ++ bytes_of b.
Proof. induction a as [|c a IH]; [done|]. simpl. by rewrite <-IH. Qed.

#[global] Instance bytes_of_inj : Inj (=) (=) bytes_of.
Proof. intros s1 s2 E. by rewrite <-(str_of_bytes_of s1), E, str_of_bytes_of. Qed.

(** The numeric value of a byte. *)
Definition bv (b : byte) : Z := Z.of_N (N_of_ascii b).

Lemma bv_range b : (0 ≤ bv b < 256)%Z.
Proof. unfold bv. pose proof (N_ascii_bounded b). lia. Qed.

Definition byte_of_Z (z : Z) : byte := ascii_of_N (Z.to_N (z mod 256)).

Lemma bv_byte_of_Z z : bv (byte_of_Z z) = (z mod 256)%Z.
Proof.
  unfold bv, byte_of_Z. pose proof (Z.mod_pos_bound z 256 ltac:(lia)).
  rewrite N_ascii_embedding by lia. lia.
Qed.

Lemma byte_of_Z_bv b : byte_of_Z (bv b) = b.
Proof.
  unfold byte_of_Z. rewrite Z.mod_small by apply bv_range.
  unfold bv. rewrite N2Z.id. apply ascii_N_embedding.
Qed.

#[global] Instance bv_inj : Inj (=) (=) bv.
Proof. intros a b E. by rewrite <-(byte_of_Z_bv a), E, byte_of_Z_bv. Qed.

(** ** Counting the entries of a table of tasks *)

Definition tally {A} (f : A → bool) (m : gmap nat A) : nat :=
  size (filter (λ e : nat * A, f e.2 = true) m).

Lemma tally_empty {A} (f : A → bool) : tally f ∅ = O.
Proof. unfold tally. by rewrite map_filter_empty, map_size_empty. Qed.

Lemma tally_insert {A} (f : A → bool) m i t :
  m !! i = None → tally f (<[i := t]> m) = ((if f t then 1 else 0) + tally f m)%nat.
Proof.
  intros Hi. unfold tally. destruct (f t) eqn:Hf.
  - rewrite map_filter_insert_True by done. rewrite map_size_insert_None; [done|].
    apply map_lookup_filter_None. by left.
  - rewrite map_filter_insert_False by (simpl; congruence). by rewrite delete_id.
Qed.

Lemma tally_delete {A} (f : A → bool) m i t :
  m !! i = Some t → tally f m = ((if f t then 1 else 0) + tally f (delete i m))%nat.
Proof.
  intros Hi. rewrite <-(insert_delete_id m i t) at 1 by done.
  rewrite tally_insert; [done|]. apply lookup_delete_eq.
Qed.

Lemma tally_update {A} (f : A → bool) m i t t' :
  m !! i = Some t →
  (tally f (<[i := t']> m) + (if f t then 1 else 0) = tally f m + (if f t' then 1 else 0))%nat.
Proof.
  intros Hi. rewrite (tally_delete f m i t Hi), (tally_delete f (<[i := t']> m) i t');
    [|apply lookup_insert_eq]. rewrite delete_insert_eq. lia.
Qed.

Lemma tally_mono {A} (f g : A → bool) (m : gmap nat A) :
  map_Forall (λ _ x, f x = true → g x = true) m → (tally f m ≤ tally g m)%nat.
Proof.
  intros H. unfold tally. apply map_subseteq_size, map_filter_subseteq_ext. intros i x Hx. simpl.
  by apply (H i).
Qed.

(** ** Proof automation *)

Create HintDb ola.
Create Rewrite HintDb ola.

(** [peel H as pat E]: [H] says that a sequence of fallible calls succeeded;
    name the value of the first of them by [pat], and what it was the value
    of by [E].  Errors that only relabel another error are seen through. *)
Tactic Notation "peel" hyp(H) "as" simple_intropattern(pat) ident(E) :=
  match type of H with
  | match ?e with Ok _ => _ | Err _ => _ end = Ok _ =>
      match e with
      | map_err _ ?r => destruct r as pat eqn:E
      | ok_or _ ?o => destruct o as pat eqn:E
      | _ => destruct e as pat eqn:E
      end;
      cbn [map_err ok_or] in H; [|discriminate H]
  end.
