(* ===== verification/RustStd.v ===== *)
(** * The parts of Rust's language and standard library the sources use

    Unsigned machine integers are [Z] with their range as a predicate and the
    checked, saturating and wrapping operations written out.  A [f32] is its
    32-bit pattern.  An [Instant] is a count of nanoseconds on the monotonic
    clock.  A [&str] or [String] is Stdlib's [string], read as UTF-8 bytes. *)

From S2P Require Import Prelude.
Open Scope Z_scope.

(** ** Machine integers *)

Definition u8_max : Z := 255.
Definition u32_max : Z := 4294967295.
Definition u64_max : Z := 18446744073709551615.

Definition is_u8 (z : Z) : Prop := 0 ≤ z ≤ u8_max.
Definition is_u32 (z : Z) : Prop := 0 ≤ z ≤ u32_max.
Definition is_u64 (z : Z) : Prop := 0 ≤ z ≤ u64_max.

Definition checked_mul_u64 (a b : Z) : option Z :=
  if bool_decide (a * b ≤ u64_max) then Some (a * b) else None.

Definition saturating_add_u32 (a b : Z) : Z := Z.min (a + b) u32_max.
Definition saturating_add_u64 (a b : Z) : Z := Z.min (a + b) u64_max.
Definition saturating_sub (a b : Z) : Z := Z.max 0 (a - b).
Definition wrapping_add_u32 (a b : Z) : Z := (a + b) mod 4294967296.
Definition wrapping_add_u64 (a b : Z) : Z := (a + b) mod 18446744073709551616.

Lemma wrapping_add_u64_range a b : is_u64 (wrapping_add_u64 a b).
Proof.
  unfold is_u64, u64_max, wrapping_add_u64.
  pose proof (Z.mod_pos_bound (a + b) 18446744073709551616). lia.
Qed.

(** ** Time *)

(** [Instant] and [Duration], in nanoseconds. *)
Definition secs (n : Z) : Z := n * 1000000000.
Definition millis (n : Z) : Z := n * 1000000.
Arguments secs : simpl never.
Arguments millis : simpl never.

(** [now.duration_since(t)] saturates at zero. *)
Definition duration_since (now t : Z) : Z := Z.max 0 (now - t).
Arguments duration_since : simpl never.

(** [SystemTime::now().duration_since(UNIX_EPOCH).unwrap_or_default()
    .as_millis() as u64] for a clock reading of [t] nanoseconds. *)
Definition unix_ms (t : Z) : Z := (Z.max 0 t / 1000000) mod 18446744073709551616.

Lemma unix_ms_u64 t : is_u64 (unix_ms t).
Proof.
  unfold is_u64, unix_ms, u64_max.
  pose proof (Z.mod_pos_bound (Z.max 0 t / 1000000) 18446744073709551616).
  lia.
Qed.

(** ** Little-endian byte strings *)

Fixpoint le_bytes (n : nat) (z : Z) : list byte :=
  match n with
  | O => []
  | S m => byte_of_Z z :: le_bytes m (z / 256)
  end.

Lemma length_le_bytes n z : length (le_bytes n z) = n.
Proof. revert z. induction n; intros; simpl; auto. Qed.

Lemma le_bytes_inj n z1 z2 :
  0 ≤ z1 < 256 ^ Z.of_nat n → 0 ≤ z2 < 256 ^ Z.of_nat n →
  le_bytes n z1 = le_bytes n z2 → z1 = z2.
Proof.
  revert z1 z2. induction n as [|n IH]; intros z1 z2 H1 H2 E.
  { simpl in *. lia. }
  rewrite Nat2Z.inj_succ, Z.pow_succ_r in H1, H2 by lia.
  simpl in E. injection E as E0 E.
  apply (f_equal bv) in E0. rewrite !bv_byte_of_Z in E0.
  assert (z1 / 256 = z2 / 256) as Ed.
  { apply IH; [| |done]; split;
      first [apply Z.div_pos; lia | apply Z.div_lt_upper_bound; lia]. }
  rewrite (Z.div_mod z1 256), (Z.div_mod z2 256) by lia. congruence.
Qed.

(** ** Characters *)

Definition in_range (lo hi : Z) (b : byte) : bool := (lo <=? bv b) && (bv b <=? hi).

Definition is_ascii_digit (b : byte) : bool := in_range 48 57 b.
Definition is_ascii_alphanumeric (b : byte) : bool :=
  in_range 48 57 b || in_range 65 90 b || in_range 97 122 b.
(** [u8::is_ascii_whitespace]: space, tab, line feed, form feed, return. *)
Definition is_ascii_whitespace (b : byte) : bool :=
  (bv b =? 32) || (bv b =? 9) || (bv b =? 10) || (bv b =? 12) || (bv b =? 13).

Definition nl : byte := "010".
Definition cr : byte := "013".

(** ** [str::trim]

    The characters with the Unicode property White_Space, by the length of
    their UTF-8 encoding. *)

Definition ws1 (a : byte) : bool := in_range 9 13 a || (bv a =? 32).
Definition ws2 (a b : byte) : bool :=
  (bv a =? 194) && ((bv b =? 133) || (bv b =? 160)).
Definition ws3 (a b c : byte) : bool :=
  ((bv a =? 225) && (bv b =? 154) && (bv c =? 128))
  || ((bv a =? 226) && (bv b =? 128) && (in_range 128 138 c || (bv c =? 168)
        || (bv c =? 169) || (bv c =? 175)))
  || ((bv a =? 226) && (bv b =? 129) && (bv c =? 159))
  || ((bv a =? 227) && (bv b =? 128) && (bv c =? 128)).

Fixpoint trim_start (bs : list byte) : list byte :=
  match bs with
  | a :: r1 =>
      if ws1 a then trim_start r1 else
      match r1 with
      | b :: r2 =>
          if ws2 a b then trim_start r2 else
          match r2 with
          | c :: r3 => if ws3 a b c then trim_start r3 else bs
          | [] => bs
          end
      | [] => bs
      end
  | [] => []
  end.

(** The same from the back: the argument is the reversed string. *)
Fixpoint trim_rev (bs : list byte) : list byte :=
  match bs with
  | a :: r1 =>
      if ws1 a then trim_rev r1 else
      match r1 with
      | b :: r2 =>
          if ws2 b a then trim_rev r2 else
          match r2 with
          | c :: r3 => if ws3 c b a then trim_rev r3 else bs
          | [] => bs
          end
      | [] => bs
      end
  | [] => []
  end.

Definition trim_bytes (bs : list byte) : list byte :=
  rev (trim_rev (rev (trim_start bs))).

Definition trim (s : string) : string := str_of (trim_bytes (bytes_of s)).

(** ** UTF-8 validity, as [str::from_utf8] decides it *)

Definition is_cont (b : byte) : bool := in_range 128 191 b.

Fixpoint utf8_valid (bs : list byte) : bool :=
  match bs with
  | [] => true
  | a :: r1 =>
      if bv a <? 128 then utf8_valid r1
      else match r1 with
      | [] => false
      | b :: r2 =>
          if in_range 194 223 a then is_cont b && utf8_valid r2
          else match r2 with
          | [] => false
          | c :: r3 =>
              if in_range 224 239 a then
                (if bv a =? 224 then in_range 160 191 b
                 else if bv a =? 237 then in_range 128 159 b
                 else is_cont b)
                && is_cont c && utf8_valid r3
              else match r3 with
              | [] => false
              | d :: r4 =>
                  in_range 240 244 a &&
                  (if bv a =? 240 then in_range 144 191 b
                   else if bv a =? 244 then in_range 128 143 b
                   else is_cont b)
                  && is_cont c && is_cont d && utf8_valid r4
              end
          end
      end
  end.

(** ** Splitting *)

(** [slice::split] at every byte equal to [c]: there is always a last piece. *)
Fixpoint split_on (c : byte) (bs : list byte) : list (list byte) :=
  match bs with
  | [] => [[]]
  | b :: r =>
      if bool_decide (b = c) then [] :: split_on c r
      else match split_on c r with
           | p :: ps => (b :: p) :: ps
           | [] => [[b]]
           end
  end.

(** The part before the first [c]: [s.split(c).next()]. *)
Fixpoint take_until (c : byte) (bs : list byte) : list byte :=
  match bs with
  | [] => []
  | b :: r => if bool_decide (b = c) then [] else b :: take_until c r
  end.

Definition strip_cr (p : list byte) : list byte :=
  match rev p with
  | b :: r => if bool_decide (b = cr) then rev r else p
  | [] => p
  end.

(** [str::lines]: a line feed ends a line and takes a preceding carriage
    return with it; a last line without a line feed counts when not empty. *)
Fixpoint lines_of_pieces (ps : list (list byte)) : list (list byte) :=
  match ps with
  | [] => []
  | [p] => if bool_decide (p = []) then [] else [p]
  | p :: ps => strip_cr p :: lines_of_pieces ps
  end.

Definition lines (s : string) : list string :=
  str_of <$> lines_of_pieces (split_on nl (bytes_of s)).

(** ** Decimal text *)

Definition dec_digit (d : Z) : byte := byte_of_Z (48 + d).

Fixpoint dec_digits (fuel : nat) (n : Z) (acc : list byte) : list byte :=
  match fuel with
  | O => acc
  | S f =>
      if n <? 10 then dec_digit (n mod 10) :: acc
      else dec_digits f (n / 10) (dec_digit (n mod 10) :: acc)
  end.

(** [Display] of an unsigned integer; twenty digits hold every [u64]. *)
Definition display_bytes (n : Z) : list byte := dec_digits 20 n [].
Definition display_uint (n : Z) : string := str_of (display_bytes n).

Fixpoint parse_digits (max : Z) (bs : list byte) (acc : Z) : option Z :=
  match bs with
  | [] => Some acc
  | b :: r =>
      if is_ascii_digit b then
        if max <? acc * 10 then None
        else if max <? acc * 10 + (bv b - 48) then None
        else parse_digits max r (acc * 10 + (bv b - 48))
      else None
  end.

(** [str::parse] at an unsigned type whose greatest value is [max]. *)
Definition parse_uint (max : Z) (s : string) : option Z :=
  match bytes_of s with
  | [] => None
  | b :: r =>
      if bv b =? 43 then
        match r with [] => None | _ => parse_digits max r 0 end
      else parse_digits max (b :: r) 0
  end.

Definition parse_u32 : string → option Z := parse_uint u32_max.
Definition parse_u64 : string → option Z := parse_uint u64_max.

(** ** Hexadecimal text *)

Definition hex_digit (d : Z) : byte :=
  if d <? 10 then byte_of_Z (48 + d) else byte_of_Z (87 + d).

(** The low [n] nibbles of [z], most significant first: [{:0nx}]. *)
Fixpoint hex_fixed (n : nat) (z : Z) : list byte :=
  match n with
  | O => []
  | S m => hex_fixed m (z / 16) ++ [hex_digit (z mod 16)]
  end.

(** ** [f32] as a bit pattern *)

Definition f32_mag (b : Z) : Z := Z.land b 2147483647.
Definition f32_sign (b : Z) : bool := Z.testbit b 31.
Definition f32_inf : Z := 2139095040.
Definition f32_zero : Z := 0.
Definition f32_one : Z := 1065353216.

Definition f32_is_nan (b : Z) : bool := f32_inf <? f32_mag b.
Definition f32_is_finite (b : Z) : bool := f32_mag b <? f32_inf.

(** IEEE order of two numbers: the magnitude bits order like integers, and
    both zeros have the key 0. *)
Definition f32_key (b : Z) : Z := if f32_sign b then - f32_mag b else f32_mag b.
Definition f32_le (a b : Z) : bool :=
  negb (f32_is_nan a) && negb (f32_is_nan b) && (f32_key a <=? f32_key b).
Definition f32_lt (a b : Z) : bool :=
  negb (f32_is_nan a) && negb (f32_is_nan b) && (f32_key a <? f32_key b).

(** [(0.0..=1.0).contains(&c)] *)
Definition f32_unit_range (c : Z) : bool := f32_le f32_zero c && f32_le c f32_one.

(** [{:?}] of a [f32]: the shortest decimal inside the rounding interval,
    nearest to the value, in positional form from 1e-4 up to 1e16 and in
    scientific form elsewhere. *)

Definition f32_exp_bits (b : Z) : Z := f32_mag b / 8388608.
Definition f32_man_bits (b : Z) : Z := f32_mag b mod 8388608.

(** The value, and the two ends of its rounding interval, in units of
    2^-152 / 10^60, with whether the ends belong to the interval. *)
Definition f32_interval (b : Z) : Z * Z * Z * bool :=
  let e := f32_exp_bits b in
  let m := if e =? 0 then f32_man_bits b else f32_man_bits b + 8388608 in
  let p := if e =? 0 then 1 else e in
  let unit := 2 ^ (p + 2) * 10 ^ 60 in
  let minus := if (1 <? e) && (f32_man_bits b =? 0) then unit / 4 else unit / 2 in
  (m * unit, m * unit - minus, m * unit + unit / 2, Z.even m).

(** Search from the coarsest power of ten for a multiple in the interval;
    the result is the digits as an integer and the power. *)
Fixpoint shortest_dec (fuel : nat) (v lo hi : Z) (incl : bool) (k : Z) : Z * Z :=
  let unit := 10 ^ (k + 60) * 2 ^ 152 in
  let inside d := if incl then (lo <=? d * unit) && (d * unit <=? hi)
                  else (lo <? d * unit) && (d * unit <? hi) in
  let d := v / unit in
  let near := if v - d * unit <? (d + 1) * unit - v then d else d + 1 in
  match fuel with
  | O => (d, k)
  | S f =>
      if (1 <=? near) && inside near then (near, k)
      else if (1 <=? d) && inside d then (d, k)
      else if inside (d + 1) then (d + 1, k)
      else shortest_dec f v lo hi incl (k - 1)
  end.

Definition zeros (n : Z) : list byte := replicate (Z.to_nat n) ("0"%char : byte).

Definition f32_dec_str (digits : list byte) (exp : Z) : list byte :=
  let n := Z.of_nat (length digits) in
  if exp <=? 0 then bytes_of "0." ++ zeros (- exp) ++ digits
  else if exp <? n
  then take (Z.to_nat exp) digits ++ bytes_of "." ++ drop (Z.to_nat exp) digits
  else digits ++ zeros (exp - n) ++ bytes_of ".0".

Definition f32_exp_str (digits : list byte) (exp : Z) : list byte :=
  take 1 digits ++ (if bool_decide (length digits ≤ 1)%nat then []
                    else bytes_of "." ++ drop 1 digits)
  ++ (if exp - 1 <? 0 then bytes_of "e-" ++ display_bytes (1 - exp)
      else bytes_of "e" ++ display_bytes (exp - 1)).

Definition f32_debug (b : Z) : string :=
  let sign := if f32_sign b then bytes_of "-" else [] in
  if f32_is_nan b then "NaN"
  else if negb (f32_is_finite b) then str_of (sign ++ bytes_of "inf")
  else if f32_mag b =? 0 then str_of (sign ++ bytes_of "0.0")
  else
    let '(v, lo, hi, incl) := f32_interval b in
    let '(d, k) := shortest_dec 100 v lo hi incl 39 in
    let digits := display_bytes d in
    let exp := Z.of_nat (length digits) + k in
    (* the [f32] constants 1e16 and 1e-4 *)
    if (1510874058 <=? f32_mag b) || (f32_mag b <? 953267991)
    then str_of (sign ++ f32_exp_str digits exp)
    else str_of (sign ++ f32_dec_str digits exp).

Example f32_debug_samples :
  f32_debug <$> [1065353216; 1056964608; 1063675494; 1036831949; 1069547520;
                 2139095039; 1; 2147483648; 2143289344; 4286578688; 1266679808;
                 8388608; 953267991; 925353388; 1510874058]
  = ["1.0"; "0.5"; "0.9"; "0.1"; "1.5"; "3.4028235e38"; "1e-45"; "-0.0"; "NaN";
     "-inf"; "16777216.0"; "1.1754944e-38"; "0.0001"; "1e-5"; "1e16"].
Proof. vm_compute. reflexivity. Qed.

(** ** Lemmas *)

Lemma bv_dec_digit d : 0 ≤ d < 10 → bv (dec_digit d) = 48 + d.
Proof. intros. unfold dec_digit. rewrite bv_byte_of_Z, Z.mod_small; lia. Qed.

Lemma dec_digit_is_digit d : 0 ≤ d < 10 → is_ascii_digit (dec_digit d) = true.
Proof.
  intros. unfold is_ascii_digit, in_range. rewrite bv_dec_digit by done. lia.
Qed.

Lemma dec_digits_all_digits fuel n acc :
  0 ≤ n → Forall (λ b, is_ascii_digit b = true) acc →
  Forall (λ b, is_ascii_digit b = true) (dec_digits fuel n acc).
Proof.
  revert n acc. induction fuel as [|f IH]; intros n acc Hn Hacc; simpl; [done|].
  assert (is_ascii_digit (dec_digit (n mod 10)) = true)
    by (apply dec_digit_is_digit, Z.mod_pos_bound; lia).
  destruct (n <? 10); [by constructor|].
  apply IH; [apply Z.div_pos; lia | by constructor].
Qed.

Lemma display_bytes_digits n :
  0 ≤ n → Forall (λ b, is_ascii_digit b = true) (display_bytes n).
Proof. intros. by apply dec_digits_all_digits. Qed.

Lemma parse_digits_dec_digits max fuel n acc :
  (0 < fuel)%nat → 0 ≤ n < 10 ^ Z.of_nat fuel → n ≤ max →
  parse_digits max (dec_digits fuel n acc) 0 = parse_digits max acc n.
Proof.
  revert n acc. induction fuel as [|f IH]; intros n acc Hf Hn Hmax; [lia|].
  rewrite Nat2Z.inj_succ, Z.pow_succ_r in Hn by lia.
  pose proof (Z.mod_pos_bound n 10 ltac:(lia)) as Hm.
  pose proof (Z.div_mod n 10 ltac:(lia)) as Hdm.
  simpl. destruct (Z.ltb_spec n 10) as [Hlt|Hge].
  - simpl. rewrite dec_digit_is_digit, bv_dec_digit by lia.
    rewrite Z.mod_small by lia.
    rewrite 2!(proj2 (Z.ltb_ge _ _)) by lia. f_equal. lia.
  - rewrite IH; [| destruct f; [simpl in Hn; lia | lia]
                 | split; [apply Z.div_pos; lia | apply Z.div_lt_upper_bound; lia]
                 | lia].
    simpl. rewrite dec_digit_is_digit, bv_dec_digit by lia.
    rewrite 2!(proj2 (Z.ltb_ge _ _)) by lia. f_equal. lia.
Qed.

Lemma dec_digits_nonempty fuel n acc :
  (0 < fuel)%nat → dec_digits fuel n acc ≠ [].
Proof.
  revert n acc. induction fuel as [|f IH]; intros n acc Hf; [lia|]. simpl.
  destruct (n <? 10); [done|]. destruct f; [done|]. apply IH. lia.
Qed.

(** Printing and parsing an unsigned integer is the identity. *)
Lemma parse_display max n :
  0 ≤ n ≤ max → max ≤ u64_max → parse_uint max (display_uint n) = Some n.
Proof.
  intros Hn Hmax. unfold parse_uint, display_uint. rewrite bytes_of_str_of.
  pose proof (display_bytes_digits n ltac:(lia)) as Hd.
  assert (10 ^ Z.of_nat 20 = 100000000000000000000) as Hpow by reflexivity.
  pose proof (parse_digits_dec_digits max 20 n [] ltac:(lia)) as Hp.
  rewrite Hpow in Hp. clear Hpow.
  pose proof (dec_digits_nonempty 20 n [] ltac:(lia)) as Hne.
  unfold display_bytes in *. unfold u64_max in Hmax.
  revert Hd Hp Hne. generalize (dec_digits 20 n []). intros [|b r] Hd Hp Hne; [done|].
  apply Forall_cons_1 in Hd as [Hb _].
  unfold is_ascii_digit, in_range in Hb.
  rewrite (proj2 (Z.eqb_neq (bv b) 43)) by lia.
  rewrite Hp by lia. reflexivity.
Qed.

Lemma display_bytes_inj n1 n2 :
  is_u64 n1 → is_u64 n2 → display_bytes n1 = display_bytes n2 → n1 = n2.
Proof.
  unfold is_u64. intros H1 H2 E.
  assert (Some n1 = Some n2) as [= ->]; [|done].
  rewrite <-(parse_display u64_max n1), <-(parse_display u64_max n2) by lia.
  unfold display_uint. by rewrite E.
Qed.

Lemma hex_digit_inj d1 d2 :
  0 ≤ d1 < 16 → 0 ≤ d2 < 16 → hex_digit d1 = hex_digit d2 → d1 = d2.
Proof.
  intros H1 H2 E. apply (f_equal bv) in E. unfold hex_digit in E.
  destruct (Z.ltb_spec d1 10), (Z.ltb_spec d2 10);
    rewrite !bv_byte_of_Z, !Z.mod_small in E by lia; lia.
Qed.

Lemma length_hex_fixed n z : length (hex_fixed n z) = n.
Proof. revert z. induction n; intros; simpl; [done|]. rewrite length_app, IHn. simpl. lia. Qed.

Lemma hex_fixed_inj n z1 z2 :
  0 ≤ z1 < 16 ^ Z.of_nat n → 0 ≤ z2 < 16 ^ Z.of_nat n →
  hex_fixed n z1 = hex_fixed n z2 → z1 = z2.
Proof.
  revert z1 z2. induction n as [|n IH]; intros z1 z2 H1 H2 E; [simpl in *; lia|].
  rewrite Nat2Z.inj_succ, Z.pow_succ_r in H1, H2 by lia.
  simpl in E. apply app_inj_tail in E as [E Ed].
  pose proof (Z.mod_pos_bound z1 16). pose proof (Z.mod_pos_bound z2 16).
  apply hex_digit_inj in Ed; [|lia..].
  assert (z1 / 16 = z2 / 16) as Eq.
  { apply IH; [| |done]; split;
      first [apply Z.div_pos; lia | apply Z.div_lt_upper_bound; lia]. }
  rewrite (Z.div_mod z1 16), (Z.div_mod z2 16) by lia. congruence.
Qed.

(** A byte below 128 that is no white space starts no white-space character
    and ends none. *)
Definition plain (b : byte) : bool := (bv b <? 128) && negb (ws1 b).

Lemma trim_start_head a bs : plain a = true → trim_start (a :: bs) = a :: bs.
Proof.
  unfold plain. intros Ha. destruct bs as [|b [|c r]]; simpl;
    (destruct (ws1 a) eqn:?; [lia|]); try done;
    (replace (ws2 a b) with false by (unfold ws2; symmetry; lia)); try done.
  by replace (ws3 a b c) with false by (unfold ws3; symmetry; lia).
Qed.

Lemma trim_rev_head a bs : plain a = true → trim_rev (a :: bs) = a :: bs.
Proof.
  unfold plain. intros Ha. destruct bs as [|b [|c r]]; simpl;
    (destruct (ws1 a) eqn:?; [lia|]); try done;
    (replace (ws2 b a) with false by (unfold ws2; symmetry; lia)); try done.
  by replace (ws3 c b a) with false by (unfold ws3, in_range; symmetry; lia).
Qed.

(** A text between two plain bytes has only its line end trimmed. *)
Lemma trim_line a mid z :
  plain a = true → plain z = true →
  trim (str_of (a :: mid ++ [z; nl])) = str_of (a :: mid ++ [z]).
Proof.
  intros Ha Hz. unfold trim, trim_bytes. rewrite bytes_of_str_of, trim_start_head by done.
  f_equal. rewrite app_comm_cons, rev_app_distr. change (rev [z; nl]) with [nl; z].
  change ([nl; z] ++ ?r) with (nl :: z :: r).
  change (trim_rev (nl :: ?r)) with (trim_rev r). rewrite trim_rev_head by done. simpl.
  rewrite rev_app_distr, rev_involutive. simpl. done.
Qed.

Lemma utf8_valid_snoc_nl n : ∀ bs,
  (length bs ≤ n)%nat → utf8_valid bs = true → utf8_valid (bs ++ [nl]) = true.
Proof.
  induction n as [|n IH]; intros bs Hl H; [by destruct bs; [|simpl in Hl; lia]|].
  destruct bs as [|a r1]; [done|]. simpl in *.
  destruct (bv a <? 128); [apply IH; [lia|done]|].
  destruct r1 as [|b r2]; [done|]. simpl in *.
  destruct (in_range 194 223 a).
  { apply andb_prop in H as [-> H]. apply IH; [lia|done]. }
  destruct r2 as [|c r3]; [done|]. simpl in *.
  destruct (in_range 224 239 a).
  { apply andb_prop in H as [-> H]. apply IH; [lia|done]. }
  destruct r3 as [|d r4]; [done|]. simpl in *.
  apply andb_prop in H as [-> H]. apply IH; [lia|done].
Qed.

Lemma trim_plain s : Forall (λ b, plain b = true) (bytes_of s) → trim s = s.
Proof.
  intros H. unfold trim, trim_bytes.
  assert (trim_start (bytes_of s) = bytes_of s) as ->.
  { destruct H; [done|]. by apply trim_start_head. }
  assert (trim_rev (rev (bytes_of s)) = rev (bytes_of s)) as ->.
  { apply Forall_rev in H. destruct H; [done|]. by apply trim_rev_head. }
  by rewrite rev_involutive, str_of_bytes_of.
Qed.

(** Splitting a byte string at a character. *)
Lemma take_until_none c bs : Forall (λ b, b ≠ c) bs → take_until c bs = bs.
Proof.
  induction 1 as [|b bs Hb _ IH]; [done|]. simpl. rewrite bool_decide_eq_false_2 by done.
  by rewrite IH.
Qed.

Lemma split_on_piece p bs :
  Forall (λ b, b ≠ nl) p → split_on nl (p ++ nl :: bs) = p :: split_on nl bs.
Proof.
  induction 1 as [|b p Hb _ IH]; simpl; [done|].
  rewrite bool_decide_eq_false_2 by done. by rewrite IH.
Qed.

Lemma split_on_nonempty c bs : split_on c bs ≠ [].
Proof.
  induction bs as [|b bs IH]; simpl; [done|]. case_bool_decide; [done|].
  by destruct (split_on c bs).
Qed.

Lemma take_until_app c a b :
  Forall (λ x, x ≠ c) a → take_until c (a ++ c :: b) = a.
Proof.
  induction 1 as [|x a Hx _ IH]; simpl; [by rewrite bool_decide_eq_true_2|].
  rewrite bool_decide_eq_false_2 by done. by rewrite IH.
Qed.

Lemma take_until_Forall c bs : Forall (λ x, x ≠ c) (take_until c bs).
Proof.
  induction bs as [|x bs IH]; simpl; [done|]. case_bool_decide; [done|]. by constructor.
Qed.

Lemma take_until_split c bs :
  take_until c bs = bs ∨ ∃ r, bs = take_until c bs ++ c :: r.
Proof.
  induction bs as [|x bs IH]; simpl; [by left|]. case_bool_decide as Hx.
  - subst x. right. by exists bs.
  - destruct IH as [->|[r Hr]]; [by left|]. right. exists r. by rewrite Hr at 1.
Qed.

(** The comparisons of [f32] values in the unit interval. *)
Lemma f32_unit_range_finite c : f32_unit_range c = true → f32_is_finite c = true.
Proof.
  unfold f32_unit_range, f32_le, f32_is_finite, f32_key. intros H.
  change (f32_key f32_one) with 1065353216 in H.
  assert (f32_mag f32_one = 1065353216) as E1 by reflexivity.
  assert (f32_mag f32_zero = 0) as E0 by reflexivity.
  assert (f32_sign f32_one = false) as S1 by reflexivity.
  assert (f32_sign f32_zero = false) as S0 by reflexivity.
  rewrite E0, E1, S0, S1 in H. unfold f32_is_nan, f32_inf in *.
  destruct (f32_sign c); lia.
Qed.

Lemma checked_mul_u64_Some a b c :
  checked_mul_u64 a b = Some c ↔ c = a * b ∧ a * b ≤ u64_max.
Proof. unfold checked_mul_u64. case_bool_decide; split; intuition congruence. Qed.

Lemma checked_mul_u64_None a b :
  checked_mul_u64 a b = None ↔ u64_max < a * b.
Proof. unfold checked_mul_u64. case_bool_decide; split; try done; lia. Qed.

#[export] Hint Rewrite checked_mul_u64_Some checked_mul_u64_None : ola.
#[export] Hint Resolve unix_ms_u64 f32_unit_range_finite : ola.
