(* ===== verification/Types.v ===== *)
(** * Core data: [crates/ola-core/src/core/types]

    Names of methods and adapters, the authentication methods, the challenge
    core sends to an adapter, the evidence the adapter returns, and the
    decision policy reaches.  Byte arrays are lists of bytes; their fixed
    lengths are the predicates [wf_request] and [wf_result]. *)

From S2P Require Import Prelude RustStd.
Open Scope Z_scope.

(** ** method.rs *)

Definition MAX_NAME_LEN : nat := 64.

Inductive NameError : Type :=
| NEmpty
| NWhitespace
| NReservedAny
| NTooLong
| NInvalidChars.

#[global] Instance NameError_eq_dec : EqDecision NameError.
Proof. solve_decision. Defined.

Definition describe (e : NameError) (label : string) : string :=
  match e with
  | NEmpty => label +:+ " must not be empty"
  | NWhitespace => label +:+ " must not contain leading or trailing whitespace"
  | NReservedAny => label +:+ " 'any' is reserved"
  | NTooLong => label +:+ " must be at most 64 bytes"
  | NInvalidChars => label +:+ " must use ASCII letters, digits, '_', '-', or '.'"
  end.

Definition name_char (b : byte) : bool :=
  is_ascii_alphanumeric b || (bv b =? 95) || (bv b =? 45) || (bv b =? 46).

Definition validate_name (value : string) (allow_any : bool) : result unit NameError :=
  if bool_decide (value = EmptyString) then Err NEmpty
  else if bool_decide (trim value ≠ value) then Err NWhitespace
  else if bool_decide (value = "any") && negb allow_any then Err NReservedAny
  else if bool_decide (MAX_NAME_LEN < String.length value)%nat then Err NTooLong
  else if negb (forallb name_char (bytes_of value)) then Err NInvalidChars
  else Ok tt.

Definition validate_method_name (method : string) (allow_any : bool)
  : result unit string :=
  map_err (λ e, describe e "method") (validate_name method allow_any).

Definition validate_adapter_name (name : string) : result unit string :=
  map_err (λ e, describe e "adapter name") (validate_name name false).

(** ** result.rs *)

Inductive AuthMethod : Type :=
| Libfprint
| Fido2
| Pin
| Other (value : string).

#[global] Instance AuthMethod_eq_dec : EqDecision AuthMethod.
Proof. solve_decision. Defined.

Definition as_str (m : AuthMethod) : string :=
  match m with
  | Libfprint => "libfprint"
  | Fido2 => "fido2"
  | Pin => "pin"
  | Other value => value
  end.

(** [Deserialize for AuthMethod], after [String::deserialize] gave [raw]. *)
Definition deserialize_auth_method (raw : string) : result AuthMethod string :=
  if bool_decide (raw = "libfprint") then Ok Libfprint
  else if bool_decide (raw = "fido2") then Ok Fido2
  else if bool_decide (raw = "pin") then Ok Pin
  else if bool_decide (raw = "any")
  then Err "'any' is only valid as a wildcard policy selector"
  else let? _ := validate_method_name raw false in Ok (Other raw).

Record VerificationResult := mk_result {
  res_version : Z;
  res_id : list byte;
  res_confidence : Z;
  res_method : AuthMethod;
  res_timestamp_ms : Z;
  res_uid : Z;
  res_nonce : list byte;
  res_evidence_hash : list byte
}.

(** ** request.rs *)

Record VerificationRequest := mk_request {
  req_version : Z;
  req_id : list byte;
  req_uid : Z;
  req_nonce : list byte;
  req_deadline_ms : Z
}.

(** ** decision.rs *)

Inductive DenyReason : Type :=
| ConfidenceTooLow (got required : Z)
| InvalidConfidence (got : Z)
| ResultTooOld (age_ms max_age_ms : Z)
| ResultAgeWindowOverflow
| ResultFromFuture (skew_ms : Z)
| UidMismatch (claimed result_uid : Z)
| NoMatchingRule.

#[global] Instance DenyReason_eq_dec : EqDecision DenyReason.
Proof. solve_decision. Defined.

Inductive PolicyDecision : Type :=
| Allow
| Deny (reason : DenyReason).

#[global] Instance PolicyDecision_eq_dec : EqDecision PolicyDecision.
Proof. solve_decision. Defined.

(** [{reason:?}]: the derived [Debug]. *)
Definition deny_reason_debug (r : DenyReason) : string :=
  match r with
  | ConfidenceTooLow got required =>
      "ConfidenceTooLow { got: " +:+ f32_debug got +:+ ", required: "
      +:+ f32_debug required +:+ " }"
  | InvalidConfidence got => "InvalidConfidence { got: " +:+ f32_debug got +:+ " }"
  | ResultTooOld age_ms max_age_ms =>
      "ResultTooOld { age_ms: " +:+ display_uint age_ms +:+ ", max_age_ms: "
      +:+ display_uint max_age_ms +:+ " }"
  | ResultAgeWindowOverflow => "ResultAgeWindowOverflow"
  | ResultFromFuture skew_ms =>
      "ResultFromFuture { skew_ms: " +:+ display_uint skew_ms +:+ " }"
  | UidMismatch claimed result_uid =>
      "UidMismatch { claimed: " +:+ display_uint claimed +:+ ", result_uid: "
      +:+ display_uint result_uid +:+ " }"
  | NoMatchingRule => "NoMatchingRule"
  end.

(** ** context.rs *)

Record AuthContext := mk_context {
  ctx_uid : Z;
  ctx_method : string;
  ctx_request : VerificationRequest;
  ctx_result : VerificationResult;
  ctx_decision : option PolicyDecision
}.

(** ** Well-formed values: what the Rust types enforce *)

Definition wf_request (r : VerificationRequest) : Prop :=
  is_u8 (req_version r) ∧ length (req_id r) = 16%nat ∧ is_u32 (req_uid r)
  ∧ length (req_nonce r) = 32%nat ∧ is_u64 (req_deadline_ms r).

Definition wf_result (r : VerificationResult) : Prop :=
  is_u8 (res_version r) ∧ length (res_id r) = 16%nat ∧ is_u32 (res_confidence r)
  ∧ is_u64 (res_timestamp_ms r) ∧ is_u32 (res_uid r)
  ∧ length (res_nonce r) = 32%nat ∧ length (res_evidence_hash r) = 32%nat.

(** A method the deserializer can produce. *)
Definition canonical (m : AuthMethod) : Prop :=
  match m with
  | Other v => (v ∉ ["libfprint"; "fido2"; "pin"; "any"])
               ∧ validate_name v false = Ok tt
  | _ => True
  end.

(** ** Lemmas *)

Lemma name_char_plain b : name_char b = true → plain b = true.
Proof.
  unfold name_char, plain, is_ascii_alphanumeric, ws1, in_range.
  pose proof (bv_range b). lia.
Qed.

Lemma name_chars_trim v : forallb name_char (bytes_of v) = true → trim v = v.
Proof.
  intros H. apply trim_plain. rewrite forallb_forall in H.
  apply Forall_forall. intros b Hb. apply name_char_plain, H. by apply list_elem_of_In.
Qed.

Lemma validate_name_spec v allow_any :
  validate_name v allow_any = Ok tt ↔
  v ≠ EmptyString ∧ (String.length v ≤ 64)%nat
  ∧ forallb name_char (bytes_of v) = true ∧ (v = "any" → allow_any = true).
Proof.
  unfold validate_name, MAX_NAME_LEN.
  destruct (forallb name_char (bytes_of v)) eqn:Hch.
  - rewrite (bool_decide_eq_false_2 (trim v ≠ v))
      by (by rewrite name_chars_trim by done; auto).
    repeat case_bool_decide; destruct allow_any; simpl; naive_solver lia.
  - repeat case_bool_decide; destruct allow_any; simpl; naive_solver.
Qed.

Lemma deserialize_as_str s m : deserialize_auth_method s = Ok m → as_str m = s.
Proof.
  unfold deserialize_auth_method. intros H.
  repeat case_bool_decide; simplify_eq/=; try done. by case_match; simplify_eq/=.
Qed.

Lemma deserialize_canonical s m : deserialize_auth_method s = Ok m → canonical m.
Proof.
  unfold deserialize_auth_method, validate_method_name. intros H.
  repeat case_bool_decide; simplify_eq/=; try done.
  destruct (validate_name s false) as [[]|] eqn:Ev; simplify_eq/=.
  split; [set_solver|done].
Qed.

Lemma canonical_deserialize m :
  canonical m → deserialize_auth_method (as_str m) = Ok m.
Proof.
  destruct m as [| | |v]; try done. intros [Hv Hval].
  unfold deserialize_auth_method, validate_method_name. simpl.
  rewrite !bool_decide_eq_false_2 by set_solver. by rewrite Hval.
Qed.

Lemma as_str_inj m1 m2 :
  canonical m1 → canonical m2 → as_str m1 = as_str m2 → m1 = m2.
Proof.
  intros H1%canonical_deserialize H2%canonical_deserialize E.
  rewrite E in H1. congruence.
Qed.

#[export] Hint Resolve deserialize_as_str deserialize_canonical : ola.

(** ** The properties of the type layer *)

(** The wire form of a method is unambiguous.  A string deserializes to
    a method exactly when it is the method's [as_str] form and the method is
    a built-in one or a custom one whose name is non-empty, at most 64 bytes
    of ASCII letters, digits, '_', '-' and '.', and no reserved or
    built-in word. *)
Theorem auth_method_roundtrip s m :
  deserialize_auth_method s = Ok m ↔
  as_str m = s ∧
  match m with
  | Other v => v ≠ EmptyString ∧ (String.length v ≤ 64)%nat
               ∧ forallb name_char (bytes_of v) = true
               ∧ (v ∉ ["libfprint"; "fido2"; "pin"; "any"])
  | _ => True
  end.
Proof.
  split.
  - intros H. split; [by apply deserialize_as_str|].
    apply deserialize_canonical in H. destruct m as [| | |v]; try done.
    destruct H as [Hv Hval]. apply validate_name_spec in Hval. tauto.
  - intros [<- Hm]. apply canonical_deserialize. destruct m as [| | |v]; try done.
    destruct Hm as (H1 & H2 & H3 & H4). split; [done|]. apply validate_name_spec.
    repeat split; try done. set_solver.
Qed.
