(* ===== verification/SecureFs.v ===== *)
(** * Hardened file loading: [crates/ola-core/src/security/fs.rs]

    The kernel's answers are inputs: opening a path yields an [OpenFile],
    which holds what [fstat] reports and the bytes that reading the
    descriptor returns (they may differ: the file can grow or shrink between
    the two calls).  The checks, their order and their errors are the code's. *)

From S2P Require Import Prelude RustStd.
Open Scope Z_scope.

(** ** Files and system calls *)

(** [std::io::ErrorKind], as far as the code distinguishes it. *)
Inductive IoKind : Type :=
| IoNotFound
| IoAlreadyExists
| IoConnectionRefused
| IoPermissionDenied
| IoOther.

#[global] Instance IoKind_eq_dec : EqDecision IoKind.
Proof. solve_decision. Defined.

Record FileStat := mk_stat { st_mode : Z; st_size : Z; st_uid : Z }.

Record OpenFile := mk_file {
  of_stat : option FileStat;      (* [fstat]; [None] when the call fails *)
  of_data : list byte;            (* what reading to the end returns *)
  of_read_ok : bool;              (* whether [read] succeeds *)
  of_fchmod_ok : bool             (* whether [fchmod] succeeds *)
}.

(** The file system as the daemon sees it. *)
Record Fs := mk_fs {
  fs_open_read : string → result OpenFile IoKind;     (* O_NOFOLLOW|O_CLOEXEC *)
  fs_open_append : string → result OpenFile IoKind;
  fs_create_append : string → Z → result OpenFile IoKind;
  (** the second [open_append_existing], after a lost creation race *)
  fs_reopen_append : string → result OpenFile IoKind
}.

Definition S_IFMT : Z := 61440.
Definition S_IFREG : Z := 32768.

(** ** Specifications of a sensitive file *)

Inductive SizePolicy : Type :=
| SizeMax (max : Z)
| SizeExact (n : Z).

Inductive ModePolicy : Type :=
| ModeExact (allowed : list Z)
| NotGroupWorldWritable.

Inductive OwnerPolicy : Type :=
| RootOrCurrent
| RootOrUid (uid : Z).

Record SecureFileSpec := mk_spec {
  spec_label : string;
  spec_size : SizePolicy;
  spec_mode : ModePolicy;
  spec_owner : OwnerPolicy
}.

Inductive FsError : Type :=
| OpenFailed (label path : string) (e : IoKind)
| FstatFailed
| NotRegular (label path : string)
| TooLarge (label path : string) (size max : Z)
| WrongSize (label path : string) (size expected : Z)
| WrongMode (label path : string) (allowed : list Z) (mode : Z)
| GroupWorldWritable (label path : string)
| BadOwner (label path : string) (uid : Z)
| ReadFailed (label path : string)
| Grew (label path : string)
| FchmodFailed (path : string).

(** ** The checks *)

Definition validate_owner (current_uid uid : Z) (path label : string)
    (owner : OwnerPolicy) : result unit FsError :=
  if uid =? 0 then Ok tt
  else
    let allowed := match owner with
                   | RootOrCurrent => uid =? current_uid
                   | RootOrUid extra_uid => uid =? extra_uid
                   end in
    if negb allowed then Err (BadOwner label path uid) else Ok tt.

Definition validate_open_file (current_uid : Z) (file : OpenFile) (path : string)
    (spec : SecureFileSpec) : result FileStat FsError :=
  let? stat := ok_or FstatFailed (of_stat file) in
  if negb (Z.land (st_mode stat) S_IFMT =? S_IFREG)
  then Err (NotRegular (spec_label spec) path)
  else
  let? _ := match spec_size spec with
            | SizeMax max =>
                if max <? st_size stat
                then Err (TooLarge (spec_label spec) path (st_size stat) max)
                else Ok tt
            | SizeExact expected =>
                if negb (st_size stat =? expected)
                then Err (WrongSize (spec_label spec) path (st_size stat) expected)
                else Ok tt
            end in
  let mode := Z.land (st_mode stat) 511 in
  let? _ := match spec_mode spec with
            | ModeExact allowed =>
                if bool_decide (mode ∈ allowed) then Ok tt
                else Err (WrongMode (spec_label spec) path allowed mode)
            | NotGroupWorldWritable =>
                if negb (Z.land mode 18 =? 0)
                then Err (GroupWorldWritable (spec_label spec) path)
                else Ok tt
            end in
  let? _ := validate_owner current_uid (st_uid stat) path (spec_label spec)
              (spec_owner spec) in
  Ok stat.

Definition open_secure_read (fs : Fs) (path : string) (spec : SecureFileSpec)
  : result OpenFile FsError :=
  map_err (OpenFailed (spec_label spec) path) (fs_open_read fs path).

(** [Read::read_to_string] on the bytes that are left: a read error and
    invalid UTF-8 both fail. *)
Definition read_to_string (file : OpenFile) (bs : list byte) : option string :=
  if of_read_ok file && utf8_valid bs then Some (str_of bs) else None.

Definition read_secure_to_string (fs : Fs) (current_uid : Z) (path : string)
    (spec : SecureFileSpec) : result string FsError :=
  let? file := open_secure_read fs path spec in
  let? _ := validate_open_file current_uid file path spec in
  match spec_size spec with
  | SizeMax max =>
      let bs := take (Z.to_nat (saturating_add_u64 max 1)) (of_data file) in
      let? contents := ok_or (ReadFailed (spec_label spec) path)
                         (read_to_string file bs) in
      if max <? Z.of_nat (String.length contents)
      then Err (Grew (spec_label spec) path)
      else Ok contents
  | _ => ok_or (ReadFailed (spec_label spec) path)
           (read_to_string file (of_data file))
  end.

Definition read_secure_exact (n : nat) (fs : Fs) (current_uid : Z) (path : string)
    (spec : SecureFileSpec) : result (list byte) FsError :=
  let spec := mk_spec (spec_label spec) (SizeExact (Z.of_nat n)) (spec_mode spec)
                (spec_owner spec) in
  let? file := open_secure_read fs path spec in
  let? _ := validate_open_file current_uid file path spec in
  if negb (of_read_ok file) || bool_decide (length (of_data file) < n)%nat
  then Err (ReadFailed (spec_label spec) path)
  else if bool_decide (length (of_data file) ≠ n) then Err (Grew (spec_label spec) path)
  else Ok (of_data file).

(** [open_secure_append]: the file with the mode [fchmod] left on it. *)
Definition set_mode (file : OpenFile) (stat : FileStat) (mode : Z) : OpenFile :=
  mk_file (Some (mk_stat (Z.lor (Z.land (st_mode stat) S_IFMT) mode)
                         (st_size stat) (st_uid stat)))
          (of_data file) (of_read_ok file) (of_fchmod_ok file).

(** The descriptor, and whether the file was there before. *)
Definition open_or_create_append (fs : Fs) (path : string) (mode : Z)
  : result (OpenFile * bool) FsError :=
  match fs_open_append fs path with
  | Ok file => Ok (file, true)
  | Err IoNotFound =>
      match fs_create_append fs path mode with
      | Ok file => Ok (file, false)
      | Err IoAlreadyExists =>
          match fs_reopen_append fs path with
          | Ok file => Ok (file, true)
          | Err e => Err (OpenFailed "append log" path e)
          end
      | Err e => Err (OpenFailed "append log" path e)
      end
  | Err e => Err (OpenFailed "append log" path e)
  end.

Definition open_secure_append (fs : Fs) (current_uid : Z) (path : string) (mode : Z)
    (owner : OwnerPolicy) : result OpenFile FsError :=
  let? opened := open_or_create_append fs path mode in
  let '(file, check_mode) := opened in
  let? stat := ok_or FstatFailed (of_stat file) in
  if negb (Z.land (st_mode stat) S_IFMT =? S_IFREG)
  then Err (NotRegular "append log" path)
  else
  let? _ := validate_owner current_uid (st_uid stat) path "append log" owner in
  let existing_mode := Z.land (st_mode stat) 511 in
  if check_mode && negb (bool_decide (existing_mode ∈ [384; mode]))
  then Err (WrongMode "append log" path [384; mode] existing_mode)
  else if negb (of_fchmod_ok file) then Err (FchmodFailed path)
  else Ok (set_mode file stat mode).

(** ** What a successful load guarantees *)

(** The owners a policy trusts. *)
Definition trusted_owner (current_uid : Z) (owner : OwnerPolicy) (uid : Z) : Prop :=
  uid = 0 ∨ match owner with
            | RootOrCurrent => uid = current_uid
            | RootOrUid u => uid = u
            end.

Definition size_ok (p : SizePolicy) (size : Z) : Prop :=
  match p with SizeMax max => size ≤ max | SizeExact n => size = n end.

Definition mode_ok (p : ModePolicy) (mode : Z) : Prop :=
  match p with
  | ModeExact allowed => mode ∈ allowed
  | NotGroupWorldWritable => Z.land mode 18 = 0
  end.

(** The descriptor satisfies its specification. *)
Definition trusted_file (current_uid : Z) (spec : SecureFileSpec) (stat : FileStat)
  : Prop :=
  Z.land (st_mode stat) S_IFMT = S_IFREG
  ∧ size_ok (spec_size spec) (st_size stat)
  ∧ mode_ok (spec_mode spec) (Z.land (st_mode stat) 511)
  ∧ trusted_owner current_uid (spec_owner spec) (st_uid stat).

Lemma validate_owner_spec current_uid uid path label owner :
  validate_owner current_uid uid path label owner = Ok tt
  ↔ trusted_owner current_uid owner uid.
Proof.
  unfold validate_owner, trusted_owner.
  destruct (Z.eqb_spec uid 0); [naive_solver|].
  destruct owner as [|u];
    [destruct (Z.eqb_spec uid current_uid)|destruct (Z.eqb_spec uid u)];
    naive_solver.
Qed.

Lemma validate_open_file_spec current_uid file path spec stat :
  validate_open_file current_uid file path spec = Ok stat
  ↔ of_stat file = Some stat ∧ trusted_file current_uid spec stat.
Proof.
  unfold validate_open_file, trusted_file, size_ok, mode_ok, ok_or.
  destruct (of_stat file) as [st|]; [|naive_solver].
  destruct (Z.eqb_spec (Z.land (st_mode st) S_IFMT) S_IFREG); simpl; [|naive_solver].
  assert (∀ l, (let? _ := validate_owner current_uid (st_uid st) path l
                            (spec_owner spec) in Ok st) = Ok stat
          ↔ st = stat ∧ trusted_owner current_uid (spec_owner spec) (st_uid st)) as Ho.
  { intros l. rewrite <-(validate_owner_spec _ _ path l).
    destruct (validate_owner _ _ _ _ _) as [[]|]; naive_solver. }
  destruct (spec_size spec) as [max|n];
    [destruct (Z.ltb_spec max (st_size st)) | destruct (Z.eqb_spec (st_size st) n)];
    simpl;
    try (split; [discriminate|intros ([= <-] & _ & ? & _); lia]);
    (destruct (spec_mode spec) as [allowed|];
      [case_bool_decide
      |destruct (Z.eqb_spec (Z.land (Z.land (st_mode st) 511) 18) 0)]);
    simpl; rewrite ?Ho; naive_solver.
Qed.

#[export] Hint Resolve -> validate_open_file_spec validate_owner_spec : ola.

Lemma open_secure_read_Ok fs path spec file :
  open_secure_read fs path spec = Ok file → fs_open_read fs path = Ok file.
Proof. unfold open_secure_read. destruct (fs_open_read fs path); by intros [= ->]. Qed.

Lemma read_to_string_Some file bs s :
  read_to_string file bs = Some s →
  of_read_ok file = true ∧ utf8_valid bs = true ∧ bytes_of s = bs.
Proof.
  unfold read_to_string. intros H.
  destruct (of_read_ok file), (utf8_valid bs); simplify_eq/=.
  by rewrite bytes_of_str_of.
Qed.

Lemma length_bytes_of s : length (bytes_of s) = String.length s.
Proof. induction s; simpl; [done|]. f_equal. apply IHs. Qed.

(** C31: a file loaded as text is a regular file whose size, mode and owner
    satisfy its specification, the text is valid UTF-8, and it is everything
    the descriptor held: a size limit never cuts a file short, it refuses it. *)
Theorem read_secure_to_string_sound fs current_uid path spec s :
  (∀ max, spec_size spec = SizeMax max → 0 ≤ max < u64_max) →
  read_secure_to_string fs current_uid path spec = Ok s →
  ∃ file stat,
    fs_open_read fs path = Ok file ∧ of_stat file = Some stat
    ∧ trusted_file current_uid spec stat
    ∧ utf8_valid (bytes_of s) = true ∧ bytes_of s = of_data file
    ∧ (∀ max, spec_size spec = SizeMax max → Z.of_nat (String.length s) ≤ max).
Proof.
  intros Hmax H. unfold read_secure_to_string, ok_or in H.
  destruct (open_secure_read fs path spec) as [file|] eqn:Hopen; [|done].
  apply open_secure_read_Ok in Hopen.
  destruct (validate_open_file current_uid file path spec) as [stat|] eqn:Hv; [|done].
  apply validate_open_file_spec in Hv as [Hstat Htrust].
  destruct (spec_size spec) as [max|n] eqn:Hsize;
    (destruct (read_to_string file _) as [s'|] eqn:Hread; [|done]);
    apply read_to_string_Some in Hread as (_ & Hutf & Hbytes).
  - destruct (Z.ltb_spec max (Z.of_nat (String.length s'))) as [|Hle]; [done|].
    injection H as <-. exists file, stat.
    specialize (Hmax max eq_refl).
    unfold saturating_add_u64 in *.
    assert (bytes_of s' = of_data file) as Hall.
    { rewrite Hbytes, take_ge; [done|].
      rewrite <-length_bytes_of, Hbytes, length_take in Hle. lia. }
    rewrite <-Hbytes in Hutf. naive_solver.
  - injection H as <-. exists file, stat. rewrite <-Hbytes in Hutf. naive_solver.
Qed.

(** A small file system with one policy file, for concrete runs. *)
Definition sample_fs (mode uid : Z) (data : list byte) : Fs :=
  let file := mk_file (Some (mk_stat (S_IFREG + mode) (Z.of_nat (length data)) uid))
                data true true in
  mk_fs (λ _, Ok file) (λ _, Ok file) (λ _ _, Err IoAlreadyExists) (λ _, Ok file).

Definition sample_spec : SecureFileSpec :=
  mk_spec "policy file" (SizeMax 1048576) (ModeExact [384; 416]) (RootOrUid 990).

Lemma read_secure_to_string_sound_witness :
  ∃ file stat,
    fs_open_read (sample_fs 384 990 (bytes_of "abc")) "/p" = Ok file
    ∧ of_stat file = Some stat ∧ trusted_file 1 sample_spec stat
    ∧ utf8_valid (bytes_of "abc") = true ∧ bytes_of "abc" = of_data file
    ∧ (∀ max, spec_size sample_spec = SizeMax max →
        Z.of_nat (String.length "abc") ≤ max).
Proof.
  apply read_secure_to_string_sound.
  - intros max [= <-]. unfold u64_max. lia.
  - vm_compute. reflexivity.
Defined.

Lemma open_or_create_append_Ok fs path mode f chk :
  open_or_create_append fs path mode = Ok (f, chk) →
  (fs_open_append fs path = Ok f ∨ fs_create_append fs path mode = Ok f
   ∨ fs_reopen_append fs path = Ok f)
  ∧ (fs_create_append fs path mode ≠ Ok f → chk = true).
Proof.
  unfold open_or_create_append. intros H. repeat case_match; naive_solver.
Qed.

(** The audit log is opened for appending only if it is a regular file of
    a trusted owner, a file that was already there had mode 0600 or the
    requested one, and afterwards its permission bits are the requested ones. *)
Theorem open_secure_append_sound fs current_uid path mode owner file :
  0 ≤ mode < 512 →
  open_secure_append fs current_uid path mode owner = Ok file →
  ∃ file0 stat0 stat,
    (fs_open_append fs path = Ok file0 ∨ fs_create_append fs path mode = Ok file0
     ∨ fs_reopen_append fs path = Ok file0)
    ∧ of_stat file0 = Some stat0 ∧ of_stat file = Some stat
    ∧ Z.land (st_mode stat0) S_IFMT = S_IFREG
    ∧ trusted_owner current_uid owner (st_uid stat0)
    ∧ (fs_create_append fs path mode ≠ Ok file0 →
       Z.land (st_mode stat0) 511 ∈ [384; mode])
    ∧ Z.land (st_mode stat) 511 = mode ∧ of_data file = of_data file0.
Proof.
  intros Hmode H. unfold open_secure_append in H.
  destruct (open_or_create_append fs path mode) as [[f chk]|] eqn:Hop; [|done].
  apply open_or_create_append_Ok in Hop as [Hfrom Hchk]. unfold ok_or in H.
  destruct (of_stat f) as [stat0|] eqn:Hstat; [|done].
  destruct (Z.eqb_spec (Z.land (st_mode stat0) S_IFMT) S_IFREG) as [Hreg|]; [|done].
  simpl in H.
  destruct (validate_owner current_uid (st_uid stat0) path "append log" owner)
    as [[]|] eqn:Hown; [|done].
  apply validate_owner_spec in Hown.
  destruct (chk && _) eqn:Hm; [done|].
  destruct (of_fchmod_ok f); [|done]. injection H as <-.
  exists f, stat0. eexists. do 4 (split; [done|]). split; [done|]. split; [|split].
  - intros ->%Hchk. simpl in Hm. apply negb_false_iff, bool_decide_eq_true in Hm. done.
  - simpl. rewrite Z.land_lor_distr_l, <-Z.land_assoc.
    change (Z.land S_IFMT 511) with 0. rewrite Z.land_0_r, Z.lor_0_l.
    change 511 with (Z.ones 9). rewrite Z.land_ones, Z.mod_small; lia.
  - done.
Qed.

Lemma open_secure_append_sound_witness :
  ∃ file0 stat0 stat,
    let fs := sample_fs 384 0 [] in
    let file := set_mode (mk_file (Some (mk_stat (S_IFREG + 384) 0 0)) [] true true)
                  (mk_stat (S_IFREG + 384) 0 0) 416 in
    (fs_open_append fs "/l" = Ok file0 ∨ fs_create_append fs "/l" 416 = Ok file0
     ∨ fs_reopen_append fs "/l" = Ok file0)
    ∧ of_stat file0 = Some stat0 ∧ of_stat file = Some stat
    ∧ Z.land (st_mode stat0) S_IFMT = S_IFREG
    ∧ trusted_owner 990 RootOrCurrent (st_uid stat0)
    ∧ (fs_create_append fs "/l" 416 ≠ Ok file0 →
       Z.land (st_mode stat0) 511 ∈ [384; 416])
    ∧ Z.land (st_mode stat) 511 = 416 ∧ of_data file = of_data file0.
Proof.
  apply (open_secure_append_sound (sample_fs 384 0 []) 990 "/l" 416 RootOrCurrent).
  - lia.
  - vm_compute. reflexivity.
Defined.
