(* ===== verification/Policy.v ===== *)
(** * Policy: [crates/ola-core/src/core/policy]

    [types.rs] (rules), [parser.rs] (loading a policy file) and
    [evaluator.rs] (the single decision point).  The [toml] crate is a
    parameter: it turns the text into raw rules, whose [method] fields then
    go through [deserialize_policy_method]. *)

From S2P Require Import Prelude RustStd Types SecureFs.
Open Scope Z_scope.

(** ** types.rs *)

Record PolicyRule := mk_rule {
  rule_method : option AuthMethod;
  rule_min_confidence : Z;
  rule_max_age_secs : Z;
  rule_require_uid_match : bool
}.

Record PolicyConfig := mk_policy { rules : list PolicyRule }.

(** A rule as the TOML reader delivers it. *)
Record RawRule := mk_raw_rule {
  raw_method : option string;
  raw_min_confidence : Z;
  raw_max_age_secs : Z;
  raw_require_uid_match : bool
}.

Definition deserialize_policy_method (raw : option string)
  : result (option AuthMethod) string :=
  match raw with
  | None => Ok None
  | Some value =>
      if bool_decide (value = "any") then Ok None
      else
        let? _ := validate_method_name value false in
        let? m := deserialize_auth_method value in
        Ok (Some m)
  end.

(** ** parser.rs *)

Inductive PolicyError : Type :=
| PolicyFile (e : FsError)
| PolicyToml
| PolicyMethod (msg : string)
| InvalidMinConfidence
| DuplicateMethod (m : AuthMethod)
| DuplicateWildcard.

Definition MAX_POLICY_BYTES : Z := 1024 * 1024.

Definition read_policy_file (fs : Fs) (current_uid : Z) (path : string)
    (owner : OwnerPolicy) : result string FsError :=
  read_secure_to_string fs current_uid path
    (mk_spec "policy file" (SizeMax MAX_POLICY_BYTES) (ModeExact [384; 416]) owner).

Definition deserialize_rule (r : RawRule) : result PolicyRule PolicyError :=
  let? m := map_err PolicyMethod (deserialize_policy_method (raw_method r)) in
  Ok (mk_rule m (raw_min_confidence r) (raw_max_age_secs r) (raw_require_uid_match r)).

Fixpoint deserialize_rules (rs : list RawRule) : result (list PolicyRule) PolicyError :=
  match rs with
  | [] => Ok []
  | r :: rs =>
      let? rule := deserialize_rule r in
      let? rest := deserialize_rules rs in
      Ok (rule :: rest)
  end.

(** The validation loop, with its two mutable variables [seen_methods] (a
    hash set) and [seen_wildcard]. *)
Fixpoint check_rules (rs : list PolicyRule) (seen_methods : list AuthMethod)
    (seen_wildcard : bool) : result unit PolicyError :=
  match rs with
  | [] => Ok tt
  | r :: rs =>
      if negb (f32_unit_range (rule_min_confidence r)) then Err InvalidMinConfidence
      else
        match rule_method r with
        | Some m =>
            if bool_decide (m ∈ seen_methods) then Err (DuplicateMethod m)
            else check_rules rs (m :: seen_methods) seen_wildcard
        | None =>
            if seen_wildcard then Err DuplicateWildcard
            else check_rules rs seen_methods true
        end
  end.

(** [slice::sort_by_key] at a boolean key: a stable sort, [false] first. *)
Fixpoint insert_by_key {A} (key : A → bool) (x : A) (l : list A) : list A :=
  match l with
  | [] => [x]
  | y :: l => if implb (key x) (key y) then x :: y :: l else y :: insert_by_key key x l
  end.

Definition sort_by_key {A} (key : A → bool) (l : list A) : list A :=
  foldr (insert_by_key key) [] l.

Definition is_wildcard (r : PolicyRule) : bool :=
  match rule_method r with None => true | Some _ => false end.

(** From the raw rules of the file on. *)
Definition load_rules (raw : list RawRule) : result PolicyConfig PolicyError :=
  let? rs := deserialize_rules raw in
  let? _ := check_rules rs [] false in
  Ok (mk_policy (sort_by_key is_wildcard rs)).

Section Toml.
(** [toml::from_str] up to the [method] fields. *)
Context (toml_policy : string → option (list RawRule)).

Definition load_with_owner (fs : Fs) (current_uid : Z) (path : string)
    (owner : OwnerPolicy) : result PolicyConfig PolicyError :=
  let? contents := map_err PolicyFile (read_policy_file fs current_uid path owner) in
  let? raw := ok_or PolicyToml (toml_policy contents) in
  load_rules raw.
End Toml.

(** ** evaluator.rs *)

Record PolicyEngine := mk_engine {
  pe_rules : list PolicyRule;
  pe_max_result_age_secs : Z
}.

Definition from_config_with_owner (toml_policy : string → option (list RawRule))
    (fs : Fs) (current_uid : Z) (path : string) (max_result_age_secs : Z)
    (owner : OwnerPolicy) : result PolicyEngine PolicyError :=
  let? config := load_with_owner toml_policy fs current_uid path owner in
  Ok (mk_engine (rules config) max_result_age_secs).

Definition rule_matches (rule : PolicyRule) (result : VerificationResult) : bool :=
  match rule_method rule with
  | None => true
  | Some m => bool_decide (m = res_method result)
  end.

(** [evaluate], at a reading [now] of the system clock. *)
Definition evaluate (engine : PolicyEngine) (now : Z) (context : AuthContext)
  : PolicyDecision :=
  let result := ctx_result context in
  let request := ctx_request context in
  match find (λ r, rule_matches r result) (pe_rules engine) with
  | None => Deny NoMatchingRule
  | Some rule =>
      let now_ms := unix_ms now in
      if now_ms <? res_timestamp_ms result
      then Deny (ResultFromFuture (res_timestamp_ms result - now_ms))
      else
      let age_ms := now_ms - res_timestamp_ms result in
      let max_age_secs := Z.min (rule_max_age_secs rule) (pe_max_result_age_secs engine) in
      match checked_mul_u64 max_age_secs 1000 with
      | None => Deny ResultAgeWindowOverflow
      | Some max_age_ms =>
          if max_age_ms <? age_ms then Deny (ResultTooOld age_ms max_age_ms)
          else if negb (f32_is_finite (res_confidence result))
                  || negb (f32_unit_range (res_confidence result))
          then Deny (InvalidConfidence (res_confidence result))
          else if f32_lt (res_confidence result) (rule_min_confidence rule)
          then Deny (ConfidenceTooLow (res_confidence result) (rule_min_confidence rule))
          else if rule_require_uid_match rule && negb (res_uid result =? req_uid request)
          then Deny (UidMismatch (req_uid request) (res_uid result))
          else Allow
      end
  end.

(** ** Specification *)

(** What a loaded policy promises the evaluator. *)
Record wf_policy (rs : list PolicyRule) : Prop := {
  wf_rule_methods : NoDup (rule_method <$> rs);
  wf_rule_conf : Forall (λ r, f32_unit_range (rule_min_confidence r) = true) rs;
  wf_rule_canonical :
    Forall (λ r, ∀ m, rule_method r = Some m → canonical m) rs;
  wf_wildcard_last :
    ∃ specific wild, rs = specific ++ wild
      ∧ Forall (λ r, is_wildcard r = false) specific
      ∧ Forall (λ r, is_wildcard r = true) wild
}.

(** The rule in force for a method, whatever the order of the file: the
    rule that names the method, or else the wildcard. *)
Definition in_force (rs : list PolicyRule) (m : AuthMethod) (r : PolicyRule) : Prop :=
  r ∈ rs
  ∧ (rule_method r = Some m
     ∨ rule_method r = None ∧ ∀ r', r' ∈ rs → rule_method r' ≠ Some m).

(** Evidence a rule accepts at time [now_ms] under the global age cap. *)
Definition acceptable (cap now_ms : Z) (r : PolicyRule) (c : AuthContext) : Prop :=
  let res := ctx_result c in
  res_timestamp_ms res ≤ now_ms
  ∧ Z.min (rule_max_age_secs r) cap * 1000 ≤ u64_max
  ∧ now_ms - res_timestamp_ms res ≤ Z.min (rule_max_age_secs r) cap * 1000
  ∧ f32_unit_range (res_confidence res) = true
  ∧ f32_lt (res_confidence res) (rule_min_confidence r) = false
  ∧ (rule_require_uid_match r = true → res_uid res = req_uid (ctx_request c)).

(** ** Lemmas: sorting *)

Lemma insert_by_key_false {A} (key : A → bool) x l :
  key x = false → insert_by_key key x l = x :: l.
Proof. intros E. destruct l; simpl; [done|]. by rewrite E. Qed.

Lemma insert_by_key_true {A} (key : A → bool) x (fs ts : list A) :
  key x = true → Forall (λ y, key y = false) fs → Forall (λ y, key y = true) ts →
  insert_by_key key x (fs ++ ts) = fs ++ x :: ts.
Proof.
  intros E Hf Ht. induction Hf as [|y fs Hy Hf IH]; simpl.
  - destruct Ht as [|y ts Hy Ht]; [done|]. simpl. by rewrite E, Hy.
  - rewrite E, Hy. simpl. by rewrite IH.
Qed.

(** The stable sort is the specific elements followed by the others, each
    group in its original order. *)
Lemma sort_by_key_filter {A} (key : A → bool) l :
  sort_by_key key l
  = List.filter (λ x, negb (key x)) l ++ List.filter key l.
Proof.
  induction l as [|x l IH]; [done|]. simpl. fold (sort_by_key key l). rewrite IH.
  destruct (key x) eqn:E; simpl; [|by apply insert_by_key_false].
  apply insert_by_key_true; [done| |];
    apply Forall_forall; intros y [_ Hy]%list_elem_of_In%filter_In; [by apply negb_true_iff|done].
Qed.

Lemma sort_by_key_Permutation {A} (key : A → bool) l : sort_by_key key l ≡ₚ l.
Proof.
  rewrite sort_by_key_filter. induction l as [|x l IH]; [done|]. simpl.
  destruct (key x); simpl; [|by rewrite IH].
  rewrite <-Permutation_middle. by rewrite IH.
Qed.

(** ** Lemmas: loading *)

Lemma check_rules_spec rs seen wild :
  check_rules rs seen wild = Ok tt ↔
  Forall (λ r, f32_unit_range (rule_min_confidence r) = true) rs
  ∧ NoDup (rule_method <$> rs)
  ∧ (∀ m, Some m ∈ rule_method <$> rs → m ∉ seen)
  ∧ (None ∈ rule_method <$> rs → wild = false).
Proof.
  revert seen wild. induction rs as [|r rs IH]; intros seen wild; simpl.
  { split; [|done]. intros _. repeat split; try constructor; set_solver. }
  rewrite NoDup_cons, Forall_cons.
  destruct (f32_unit_range (rule_min_confidence r)); simpl; [|naive_solver].
  destruct (rule_method r) as [m|] eqn:Em.
  - case_bool_decide as Hm; [set_solver|]. rewrite IH. set_solver.
  - destruct wild; [set_solver|]. rewrite IH. set_solver.
Qed.

Lemma deserialize_rules_Forall2 raw rs :
  deserialize_rules raw = Ok rs ↔ Forall2 (λ x r, deserialize_rule x = Ok r) raw rs.
Proof.
  revert rs. induction raw as [|x raw IH]; intros rs; simpl.
  { split; [by intros [= <-]|by inversion 1]. }
  split.
  - destruct (deserialize_rule x) eqn:Ex; [|done].
    destruct (deserialize_rules raw) eqn:Er; [|done]. intros [= <-].
    constructor; [done|by apply IH].
  - inversion 1 as [|?? ? rs' Hx Hr]; subst. rewrite Hx.
    apply IH in Hr. by rewrite Hr.
Qed.

Lemma deserialize_rule_canonical x r m :
  deserialize_rule x = Ok r → rule_method r = Some m → canonical m.
Proof.
  unfold deserialize_rule, deserialize_policy_method. intros H Hm.
  destruct (raw_method x) as [v|]; [|by simplify_eq/=].
  case_bool_decide; simplify_eq/=.
  destruct (validate_method_name v false); simplify_eq/=.
  destruct (deserialize_auth_method v) eqn:Ev; simplify_eq/=. eauto with ola.
Qed.

Lemma load_rules_Ok raw cfg :
  load_rules raw = Ok cfg ↔
  ∃ rs, deserialize_rules raw = Ok rs ∧ check_rules rs [] false = Ok tt
        ∧ rules cfg = sort_by_key is_wildcard rs.
Proof.
  unfold load_rules. destruct cfg as [l]. simpl. split.
  - intros H. destruct (deserialize_rules raw) as [rs|]; [|done]. exists rs.
    destruct (check_rules rs [] false) as [[]|]; [|done]. by simplify_eq.
  - intros (rs & -> & -> & ->). done.
Qed.

Lemma load_rules_wf raw cfg : load_rules raw = Ok cfg → wf_policy (rules cfg).
Proof.
  intros (rs & Hd & Hc & ->)%load_rules_Ok.
  apply check_rules_spec in Hc as (Hconf & Hnd & _).
  pose proof (sort_by_key_Permutation is_wildcard rs) as Hp.
  split.
  - by rewrite Hp.
  - by rewrite Hp.
  - rewrite Hp. apply deserialize_rules_Forall2 in Hd.
    induction Hd; constructor; eauto using deserialize_rule_canonical.
    apply IHHd; [by apply Forall_cons in Hconf as [_ ?]
                |by apply NoDup_cons in Hnd as [_ ?]
                |apply sort_by_key_Permutation].
  - rewrite sort_by_key_filter. eexists _, _. split; [done|].
    split; apply Forall_forall; intros y [_ Hy]%list_elem_of_In%filter_In; [by apply negb_true_iff|done].
Qed.

(** ** Lemmas: the rule in force *)

Lemma in_force_unique rs m r r' :
  NoDup (rule_method <$> rs) → in_force rs m r → in_force rs m r' → r = r'.
Proof.
  intros Hnd [Hr Hm] [Hr' Hm'].
  assert (rule_method r = rule_method r') as E.
  { destruct Hm as [Hm|[Hm Hn]], Hm' as [Hm'|[Hm' Hn']]; try congruence;
      exfalso; [by apply (Hn' r)|by apply (Hn r')]. }
  apply list_elem_of_lookup in Hr as [i Hi], Hr' as [j Hj].
  assert (i = j) as ->.
  { eapply NoDup_lookup; [done| |]; rewrite list_lookup_fmap;
      [rewrite Hi | rewrite Hj]; simpl; [done|by rewrite E]. }
  congruence.
Qed.

Lemma rule_matches_spec r res :
  rule_matches r res = true ↔
  rule_method r = Some (res_method res) ∨ rule_method r = None.
Proof.
  unfold rule_matches. destruct (rule_method r) as [m|]; [|naive_solver].
  rewrite bool_decide_eq_true. naive_solver.
Qed.

Lemma find_in_force rs res r :
  wf_policy rs → find (λ r, rule_matches r res) rs = Some r →
  in_force rs (res_method res) r.
Proof.
  intros [Hnd _ _ (sp & wl & -> & Hsp & Hwl)] Hf.
  pose proof (find_some _ _ Hf) as [Hin Hmt%rule_matches_spec].
  split; [by apply list_elem_of_In|].
  destruct Hmt as [|Hn]; [by left|right]. split; [done|].
  intros r' [Hr'|Hr']%elem_of_app Hm'.
  - (* a specific rule that names the method would have been found first *)
    clear Hnd. induction Hsp as [|s sp Hs Hsp IH]; [by apply not_elem_of_nil in Hr'|].
    simpl in Hf. destruct (rule_matches s res) eqn:Es.
    + injection Hf as ->. unfold is_wildcard in Hs. by rewrite Hn in Hs.
    + apply elem_of_cons in Hr' as [->|Hr'].
      * by rewrite (proj2 (rule_matches_spec s res)) in Es by (by left).
      * destruct Hin as [->|Hin]; [|by apply IH].
        unfold is_wildcard in Hs. by rewrite Hn in Hs.
  - rewrite Forall_forall in Hwl. apply Hwl in Hr'.
    unfold is_wildcard in Hr'. by rewrite Hm' in Hr'.
Qed.

Lemma find_None_in_force rs res r :
  find (λ r, rule_matches r res) rs = None → ¬ in_force rs (res_method res) r.
Proof.
  intros Hf [Hr Hm]. apply list_elem_of_In in Hr.
  pose proof (find_none _ _ Hf _ Hr) as Hn. simpl in Hn.
  rewrite (proj2 (rule_matches_spec r res)) in Hn; [done|].
  destruct Hm as [|[? _]]; auto.
Qed.

Lemma find_spec rs res r :
  wf_policy rs →
  find (λ r, rule_matches r res) rs = Some r ↔ in_force rs (res_method res) r.
Proof.
  intros Hwf. split; [by apply find_in_force|]. intros Hr.
  destruct (find _ rs) as [r'|] eqn:Hf.
  - f_equal. eapply in_force_unique; [apply Hwf|by apply find_in_force|done].
  - by apply find_None_in_force in Hr.
Qed.

Lemma evaluate_rule engine now c r :
  find (λ r, rule_matches r (ctx_result c)) (pe_rules engine) = Some r →
  evaluate engine now c = Allow
  ↔ acceptable (pe_max_result_age_secs engine) (unix_ms now) r c.
Proof.
  intros Hf. unfold evaluate, acceptable. rewrite Hf.
  destruct (Z.ltb_spec (unix_ms now) (res_timestamp_ms (ctx_result c)));
    [split; [done|lia]|].
  destruct (checked_mul_u64 _ 1000) as [w|] eqn:Hw.
  2:{ apply checked_mul_u64_None in Hw. split; [done|lia]. }
  apply checked_mul_u64_Some in Hw as [-> Hw].
  destruct (Z.ltb_spec (Z.min (rule_max_age_secs r) (pe_max_result_age_secs engine) * 1000)
              (unix_ms now - res_timestamp_ms (ctx_result c))); [split; [done|lia]|].
  destruct (f32_unit_range (res_confidence (ctx_result c))) eqn:Hc;
    [rewrite (f32_unit_range_finite _ Hc); simpl
    |rewrite orb_true_r; naive_solver].
  destruct (f32_lt _ _); [naive_solver|].
  destruct (rule_require_uid_match r); simpl; [|naive_solver lia].
  destruct (Z.eqb_spec (res_uid (ctx_result c)) (req_uid (ctx_request c)));
    simpl; naive_solver lia.
Qed.

Lemma in_force_perm rs rs' m r : rs ≡ₚ rs' → in_force rs m r → in_force rs' m r.
Proof.
  intros Hp [Hr Hm]. split; [by rewrite <-Hp|].
  destruct Hm as [?|[? Hn]]; [by left|right]. split; [done|].
  intros r' Hr'. apply Hn. by rewrite Hp.
Qed.

Lemma find_perm rs rs' res :
  wf_policy rs → wf_policy rs' → rs ≡ₚ rs' →
  find (λ r, rule_matches r res) rs = find (λ r, rule_matches r res) rs'.
Proof.
  intros Hwf Hwf' Hp. apply option_eq. intros r. rewrite !find_spec by done.
  split; by apply in_force_perm.
Qed.

Lemma load_rules_perm raw raw' cfg :
  raw ≡ₚ raw' → load_rules raw = Ok cfg →
  ∃ cfg', load_rules raw' = Ok cfg' ∧ rules cfg ≡ₚ rules cfg'.
Proof.
  intros Hp (rs & Hd & Hc & Hs)%load_rules_Ok.
  apply deserialize_rules_Forall2 in Hd.
  assert (∃ rs', deserialize_rules raw' = Ok rs' ∧ rs ≡ₚ rs') as (rs' & Hd' & Hp').
  { setoid_rewrite deserialize_rules_Forall2. clear Hc Hs cfg.
    revert rs Hd. induction Hp as [|x l l' Hl IH|x y l|l l' l'' _ IH1 _ IH2]; intros rs Hd.
    - inversion Hd; subst. eauto using Forall2.
    - inversion Hd as [|?? ? rs0 ? Hd0]; subst.
      destruct (IH _ Hd0) as (rs' & ? & ?). eauto using Forall2.
    - inversion Hd as [|?? ? rs0 ? Hd0]; subst. inversion Hd0; subst.
      eexists (_ :: _ :: _). split; [eauto using Forall2|]. constructor.
    - destruct (IH1 _ Hd) as (rs1 & H1 & Hp1), (IH2 _ H1) as (rs2 & H2 & Hp2).
      exists rs2. split; [done|by etrans]. }
  exists (mk_policy (sort_by_key is_wildcard rs')). split.
  - apply load_rules_Ok. exists rs'. split; [done|]. split; [|done].
    apply check_rules_spec in Hc as (Hconf & Hnd & _). apply check_rules_spec.
    split; [by rewrite <-Hp'|]. split; [by rewrite <-Hp'|]. set_solver.
  - simpl. rewrite Hs. by rewrite !sort_by_key_Permutation.
Qed.

(** ** The properties of the policy engine *)

(** A policy file for the concrete runs: a wildcard first, then [fido2]. *)
Definition sample_raw : list RawRule :=
  [ mk_raw_rule (Some "any") 1056964608 30 true;
    mk_raw_rule (Some "fido2") f32_one 10 true ].

Definition sample_policy : PolicyConfig :=
  mk_policy [ mk_rule (Some Fido2) f32_one 10 true; mk_rule None 1056964608 30 true ].

Definition sample_context (m : AuthMethod) (conf ts : Z) : AuthContext :=
  mk_context 1000 (as_str m)
    (mk_request 1 (replicate 16 "000"%char) 1000 (replicate 32 "001"%char) 5000)
    (mk_result 1 (replicate 16 "000"%char) conf m ts 1000 (replicate 32 "001"%char)
       (replicate 32 "002"%char)) None.

Lemma evaluate_Allow rs cap now c :
  wf_policy rs →
  evaluate (mk_engine rs cap) now c = Allow
  ↔ ∃ r, in_force rs (res_method (ctx_result c)) r ∧ acceptable cap (unix_ms now) r c.
Proof.
  intros Hwf. split.
  - intros H. destruct (find (λ r, rule_matches r (ctx_result c)) rs)
      as [r|] eqn:Hf; [|by unfold evaluate in H; simpl in H; rewrite Hf in H].
    exists r. split; [by apply find_spec|].
    by apply (evaluate_rule (mk_engine rs cap) now c r Hf).
  - intros (r & Hr & Ha). apply find_spec in Hr; [|done].
    by apply (evaluate_rule (mk_engine rs cap) now c r Hr).
Qed.

(** C16: evidence is allowed exactly when the rule in force for its method
    (the rule that names the method, or else the wildcard, wherever they stand
    in the file) accepts it: it is not from the future, not older than the
    rule's window clamped by the global cap, has a confidence in [0, 1] that
    is not below the rule's threshold, and carries the requested uid when the
    rule asks for it. *)
Theorem evaluate_allow_iff raw cfg cap now c :
  load_rules raw = Ok cfg →
  evaluate (mk_engine (rules cfg) cap) now c = Allow
  ↔ ∃ r, in_force (rules cfg) (res_method (ctx_result c)) r
         ∧ acceptable cap (unix_ms now) r c.
Proof. intros Hwf%load_rules_wf. by apply evaluate_Allow. Qed.

Lemma evaluate_allow_iff_witness :
  evaluate (mk_engine (rules sample_policy) 30) (millis 5000)
    (sample_context Fido2 f32_one 4000) = Allow
  ↔ ∃ r, in_force (rules sample_policy) Fido2 r
         ∧ acceptable 30 (unix_ms (millis 5000)) r (sample_context Fido2 f32_one 4000).
Proof.
  apply (evaluate_allow_iff sample_raw sample_policy 30 (millis 5000)
           (sample_context Fido2 f32_one 4000)).
  vm_compute. reflexivity.
Defined.

(** C32: the order of the rules in the file does not matter: a reordered file
    loads too, and decides every request the same way at every instant. *)
Theorem policy_order_irrelevant raw raw' cfg :
  raw ≡ₚ raw' → load_rules raw = Ok cfg →
  ∃ cfg', load_rules raw' = Ok cfg'
    ∧ ∀ cap now c, evaluate (mk_engine (rules cfg) cap) now c
                   = evaluate (mk_engine (rules cfg') cap) now c.
Proof.
  intros Hp Hl. destruct (load_rules_perm _ _ _ Hp Hl) as (cfg' & Hl' & Hp').
  exists cfg'. split; [done|]. intros cap now c. unfold evaluate. simpl.
  by rewrite (find_perm _ (rules cfg')) by eauto using load_rules_wf.
Qed.

Lemma policy_order_irrelevant_witness :
  ∃ cfg', load_rules (rev sample_raw) = Ok cfg'
    ∧ ∀ cap now c, evaluate (mk_engine (rules sample_policy) cap) now c
                   = evaluate (mk_engine (rules cfg') cap) now c.
Proof.
  apply (policy_order_irrelevant sample_raw).
  - apply Permutation_rev.
  - vm_compute. reflexivity.
Defined.

(** Loading succeeds exactly when every method name is valid, every
    threshold lies in [0, 1] (so it is no NaN), and no method and no wildcard
    has two rules; the loaded rules are those of the file, with the wildcard
    last. *)
Theorem load_rules_iff raw cfg :
  load_rules raw = Ok cfg ↔
  ∃ rs, Forall2 (λ x r, deserialize_rule x = Ok r) raw rs
    ∧ Forall (λ r, f32_unit_range (rule_min_confidence r) = true) rs
    ∧ NoDup (rule_method <$> rs)
    ∧ rules cfg = List.filter (λ r, negb (is_wildcard r)) rs
                  ++ List.filter is_wildcard rs.
Proof.
  rewrite load_rules_Ok. setoid_rewrite sort_by_key_filter.
  split.
  - intros (rs & Hd & Hc & Hs). exists rs.
    apply deserialize_rules_Forall2 in Hd. apply check_rules_spec in Hc. tauto.
  - intros (rs & Hd%deserialize_rules_Forall2 & Hconf & Hnd & Hs).
    exists rs. split; [done|]. split; [|done].
    apply check_rules_spec. repeat split; [done|done|set_solver].
Qed.

(** The policy fails closed: a request is refused with [NoMatchingRule]
    exactly when no rule of the loaded file names its method and there is no
    wildcard. *)
Theorem evaluate_fails_closed raw cfg cap now c :
  load_rules raw = Ok cfg →
  evaluate (mk_engine (rules cfg) cap) now c = Deny NoMatchingRule
  ↔ ¬ ∃ r, in_force (rules cfg) (res_method (ctx_result c)) r.
Proof.
  intros Hwf%load_rules_wf.
  destruct (find (λ r, rule_matches r (ctx_result c)) (rules cfg)) as [r|] eqn:Hf.
  - split.
    + unfold evaluate. simpl. rewrite Hf. intros H. repeat case_match; done.
    + intros Hn. destruct Hn. exists r. by apply find_spec.
  - split.
    + intros _ [r Hr]. by apply find_None_in_force in Hr.
    + intros _. unfold evaluate. simpl. by rewrite Hf.
Qed.

Lemma evaluate_fails_closed_witness :
  evaluate (mk_engine (rules (mk_policy [mk_rule (Some Fido2) f32_one 10 true])) 30)
    (millis 5000) (sample_context Pin f32_one 4000) = Deny NoMatchingRule
  ↔ ¬ ∃ r, in_force [mk_rule (Some Fido2) f32_one 10 true] Pin r.
Proof.
  apply (evaluate_fails_closed [mk_raw_rule (Some "fido2") f32_one 10 true]
           (mk_policy [mk_rule (Some Fido2) f32_one 10 true]) 30 (millis 5000)
           (sample_context Pin f32_one 4000)).
  vm_compute. reflexivity.
Defined.

(** With the global age cap the configuration accepts (at most
    u64::MAX / 1000 seconds), the age window never overflows. *)
Theorem evaluate_no_overflow engine now c :
  pe_max_result_age_secs engine ≤ u64_max / 1000 →
  evaluate engine now c ≠ Deny ResultAgeWindowOverflow.
Proof.
  intros Hcap. unfold evaluate.
  destruct (find _ _) as [r|]; [|done]. case_match; [done|].
  destruct (checked_mul_u64 _ 1000) as [w|] eqn:Hw; [repeat case_match; done|].
  apply checked_mul_u64_None in Hw. change (u64_max / 1000) with 18446744073709551 in Hcap.
  unfold u64_max in Hw. lia.
Qed.

Lemma evaluate_no_overflow_witness :
  evaluate (mk_engine (rules sample_policy) 18446744073709551) (millis 5000)
    (sample_context Pin f32_one 4000) ≠ Deny ResultAgeWindowOverflow.
Proof. apply evaluate_no_overflow. vm_compute. discriminate. Defined.
