(* ===== verification/Nonce.v ===== *)
(** * Single-use challenges: [crates/ola-core/src/security/nonce.rs]

    The store is two maps behind a mutex: the pending nonces with their issue
    time and uid, and the number of pending nonces of each uid.  Random bytes
    and clock readings are inputs of the operations. *)

From S2P Require Import Prelude RustStd.
Open Scope Z_scope.

Definition NONCE_TTL : Z := secs 30.
Definition MAX_PENDING_NONCES : nat := 1024.
Definition MAX_PENDING_NONCES_PER_UID : nat := 32.

Abbreviation nonce := (list byte) (only parsing).

Record NonceState := mk_nonce_state {
  pending : gmap nonce (Z * Z);          (* issue time, uid *)
  pending_per_uid : gmap Z nat
}.

Inductive NonceError : Type :=
| NonceNotFound
| NonceExpired
| NonceUidMismatch
| TableFull
| TooManyForUid
| StatePoisoned
| RandomUnavailable.

#[global] Instance NonceError_eq_dec : EqDecision NonceError.
Proof. solve_decision. Defined.

Definition decrement_uid_count (counts : gmap Z nat) (uid : Z) : gmap Z nat :=
  match counts !! uid with
  | Some count =>
      let counts := <[uid := (count - 1)%nat]> counts in
      if bool_decide (0 < count - 1)%nat then counts else delete uid counts
  | None => delete uid counts
  end.

(** [NonceStore::new] *)
Definition nonce_store_new : Mutex NonceState := unlock (mk_nonce_state ∅ ∅).

(** One draw of [getrandom::fill]: 32 bytes, or failure. *)
Abbreviation draws := (nat → option nonce) (only parsing).

(** The sixteen attempts; [i] is the number of draws made so far. *)
Fixpoint generate_loop (attempts i : nat) (rand : draws) (now uid : Z)
    (s : NonceState) : result nonce NonceError * NonceState :=
  match attempts with
  | O => (Err TableFull, s)
  | S attempts =>
      match rand i with
      | None => (Err RandomUnavailable, s)
      | Some n =>
          if bool_decide (is_Some (pending s !! n))
          then generate_loop attempts (S i) rand now uid s
          else
            (Ok n,
             mk_nonce_state (<[n := (now, uid)]> (pending s))
               (<[uid := S (default O (pending_per_uid s !! uid))]>
                  (pending_per_uid s)))
      end
  end.

Definition generate (m : Mutex NonceState) (uid : Z) (rand : draws) (now : Z)
  : result nonce NonceError * Mutex NonceState :=
  match lock m with
  | None => (Err StatePoisoned, m)
  | Some s =>
      if bool_decide (MAX_PENDING_NONCES ≤ size (pending s))%nat then (Err TableFull, m)
      else if bool_decide (MAX_PENDING_NONCES_PER_UID
                           ≤ default O (pending_per_uid s !! uid))%nat
      then (Err TooManyForUid, m)
      else let '(r, s) := generate_loop 16 0 rand now uid s in (r, unlock s)
  end.

Definition consume (m : Mutex NonceState) (n : nonce) (uid now : Z)
  : result unit NonceError * Mutex NonceState :=
  match lock m with
  | None => (Err StatePoisoned, m)
  | Some s =>
      match pending s !! n with
      | None => (Err NonceNotFound, m)
      | Some (issued_at, stored_uid) =>
          let m := unlock (mk_nonce_state (delete n (pending s))
                             (decrement_uid_count (pending_per_uid s) stored_uid)) in
          if NONCE_TTL <? duration_since now issued_at then (Err NonceExpired, m)
          else if negb (stored_uid =? uid) then (Err NonceUidMismatch, m)
          else (Ok tt, m)
      end
  end.

(** One tick of the cleanup task. *)
Definition is_expired (now : Z) (e : nonce * (Z * Z)) : bool :=
  NONCE_TTL <=? duration_since now (e.2).1.

Definition remove_pending (s : NonceState) (n : nonce) : NonceState :=
  match pending s !! n with
  | Some (_, uid) =>
      mk_nonce_state (delete n (pending s)) (decrement_uid_count (pending_per_uid s) uid)
  | None => s
  end.

Definition cleanup (m : Mutex NonceState) (now : Z) : Mutex NonceState :=
  match lock m with
  | None => m
  | Some s =>
      let expired := (List.filter (is_expired now) (map_to_list (pending s))).*1 in
      unlock (foldl remove_pending s expired)
  end.

(** ** Invariant: the counters are the numbers of pending nonces *)

Definition uid_count (p : gmap nonce (Z * Z)) (uid : Z) : nat :=
  size (filter (λ e : nonce * (Z * Z), (e.2).2 = uid) p).

Record nonce_inv (s : NonceState) : Prop := {
  inv_counts : ∀ uid, pending_per_uid s !! uid
    = if decide (uid_count (pending s) uid = O) then None
      else Some (uid_count (pending s) uid);
  inv_size : (size (pending s) ≤ MAX_PENDING_NONCES)%nat;
  inv_uid : ∀ uid, (uid_count (pending s) uid ≤ MAX_PENDING_NONCES_PER_UID)%nat
}.

Definition nonce_ok (m : Mutex NonceState) : Prop := nonce_inv (guarded m).

(** ** Lemmas: counting *)

Lemma uid_count_empty uid : uid_count ∅ uid = O.
Proof. unfold uid_count. by rewrite map_filter_empty, map_size_empty. Qed.

Lemma uid_count_insert p n t u uid :
  p !! n = None →
  uid_count (<[n := (t, u)]> p) uid
  = (if decide (u = uid) then S (uid_count p uid) else uid_count p uid).
Proof.
  intros Hn. unfold uid_count. case_decide as Hu.
  - rewrite map_filter_insert_True by done.
    rewrite map_size_insert_None; [done|].
    apply map_lookup_filter_None. by left.
  - rewrite map_filter_insert_False by done.
    by rewrite delete_id.
Qed.

Lemma uid_count_delete p n t u uid :
  p !! n = Some (t, u) →
  uid_count p uid
  = (if decide (u = uid) then S (uid_count (delete n p) uid)
     else uid_count (delete n p) uid).
Proof.
  intros Hn. rewrite <-(insert_id p n (t, u) Hn) at 1.
  rewrite <-insert_delete_eq. apply uid_count_insert, lookup_delete_eq.
Qed.

Lemma uid_count_le_size p uid : (uid_count p uid ≤ size p)%nat.
Proof. unfold uid_count. apply map_size_filter. Qed.

Lemma decrement_lookup counts uid c u :
  counts !! uid = Some (S c) →
  decrement_uid_count counts uid !! u
  = if decide (u = uid) then (if decide (c = O) then None else Some c)
    else counts !! u.
Proof.
  intros Hc. unfold decrement_uid_count. rewrite Hc.
  replace (S c - 1)%nat with c by lia.
  destruct (decide (u = uid)) as [->|Hne].
  - destruct (decide (c = O)) as [->|]; case_bool_decide; try lia; by simplify_map_eq.
  - case_bool_decide; by simplify_map_eq.
Qed.

Lemma nonce_inv_empty : nonce_inv (mk_nonce_state ∅ ∅).
Proof.
  split; intros; simpl; rewrite ?uid_count_empty, ?map_size_empty;
    unfold MAX_PENDING_NONCES, MAX_PENDING_NONCES_PER_UID; [done|lia|lia].
Qed.

Lemma inv_default s uid :
  nonce_inv s → default O (pending_per_uid s !! uid) = uid_count (pending s) uid.
Proof. intros Hi. rewrite (inv_counts _ Hi). case_decide; simpl; lia. Qed.

Lemma nonce_inv_insert s n t uid :
  nonce_inv s → pending s !! n = None →
  (size (pending s) < MAX_PENDING_NONCES)%nat →
  (uid_count (pending s) uid < MAX_PENDING_NONCES_PER_UID)%nat →
  nonce_inv (mk_nonce_state (<[n := (t, uid)]> (pending s))
    (<[uid := S (default O (pending_per_uid s !! uid))]> (pending_per_uid s))).
Proof.
  intros Hi Hn Hsz Hu. split; simpl.
  - intros u. rewrite uid_count_insert, (inv_default s uid Hi) by done.
    destruct (decide (uid = u)) as [->|].
    + rewrite lookup_insert_eq. by destruct (decide (S _ = O)).
    + rewrite lookup_insert_ne by done. apply (inv_counts _ Hi).
  - rewrite map_size_insert_None by done. lia.
  - intros u. rewrite uid_count_insert by done.
    pose proof (inv_uid _ Hi u). case_decide; [subst; lia|done].
Qed.

Lemma nonce_inv_delete s n t uid :
  nonce_inv s → pending s !! n = Some (t, uid) →
  nonce_inv (mk_nonce_state (delete n (pending s))
               (decrement_uid_count (pending_per_uid s) uid)).
Proof.
  intros Hi Hn. pose proof (λ u, uid_count_delete (pending s) n t uid u Hn) as Hc.
  split; simpl.
  - intros u. rewrite (decrement_lookup _ uid (uid_count (delete n (pending s)) uid)).
    + destruct (decide (u = uid)) as [->|]; [done|].
      rewrite (inv_counts _ Hi), (Hc u). by destruct (decide (uid = u)) as [->|].
    + rewrite (inv_counts _ Hi), (Hc uid). by destruct (decide (uid = uid)).
  - pose proof (inv_size _ Hi).
    rewrite map_size_delete_Some by eauto. lia.
  - intros u. pose proof (inv_uid _ Hi u) as Hu. rewrite (Hc u) in Hu.
    destruct (decide (uid = u)); lia.
Qed.

Lemma remove_pending_inv s n : nonce_inv s → nonce_inv (remove_pending s n).
Proof.
  intros Hi. unfold remove_pending. destruct (pending s !! n) as [[t u]|] eqn:Hn; [|done].
  by eapply nonce_inv_delete.
Qed.

Lemma remove_pending_lookup s n k :
  pending (remove_pending s n) !! k = if decide (k = n) then None else pending s !! k.
Proof.
  unfold remove_pending. destruct (pending s !! n) as [[t u]|] eqn:Hn; simpl;
    destruct (decide (k = n)) as [->|]; by simplify_map_eq.
Qed.

Lemma foldl_remove_pending l s :
  nonce_inv s →
  nonce_inv (foldl remove_pending s l)
  ∧ ∀ k, pending (foldl remove_pending s l) !! k
         = if decide (k ∈ l) then None else pending s !! k.
Proof.
  revert s. induction l as [|n l IH]; intros s Hi; simpl.
  { split; [done|]. intros k. by destruct (decide (k ∈ [])) as [?%not_elem_of_nil|]. }
  destruct (IH (remove_pending s n)) as [Hi' Hl]; [by apply remove_pending_inv|].
  split; [done|]. intros k. rewrite Hl, remove_pending_lookup.
  destruct (decide (k ∈ l)), (decide (k = n)), (decide (k ∈ n :: l)); set_solver.
Qed.

Lemma expired_spec now p k :
  k ∈ (List.filter (is_expired now) (map_to_list p)).*1
  ↔ ∃ e, p !! k = Some e ∧ is_expired now (k, e) = true.
Proof.
  rewrite list_elem_of_fmap. split.
  - intros ([k' e] & -> & Hin). apply list_elem_of_In, filter_In in Hin as [Hin He].
    exists e. split; [|done]. by apply elem_of_map_to_list, list_elem_of_In.
  - intros (e & Hk & He). exists (k, e). split; [done|].
    apply list_elem_of_In, filter_In. split; [|done].
    by apply list_elem_of_In, elem_of_map_to_list.
Qed.

Lemma generate_loop_spec attempts i rand now uid s r s' :
  generate_loop attempts i rand now uid s = (r, s') →
  match r with
  | Ok n => (∃ j, (i ≤ j < i + attempts)%nat ∧ rand j = Some n)
            ∧ pending s !! n = None
            ∧ s' = mk_nonce_state (<[n := (now, uid)]> (pending s))
                     (<[uid := S (default O (pending_per_uid s !! uid))]>
                        (pending_per_uid s))
  | Err e => s' = s ∧ (e = TableFull ∨ e = RandomUnavailable)
  end.
Proof.
  revert i. induction attempts as [|a IH]; intros i H; simpl in H; [by simplify_eq; auto|].
  destruct (rand i) as [n|] eqn:Hr; [|by simplify_eq; auto].
  case_bool_decide as Hn.
  - apply IH in H. destruct r; [|done].
    destruct H as ((j & ? & ?) & ? & ?). split; [|done]. exists j. split; [lia|done].
  - simplify_eq. split; [exists i; split; [lia|done]|].
    split; [by apply eq_None_not_Some|done].
Qed.

(** ** Abstract specification

    The promise of the store without its counters: a finite map of
    outstanding challenges. *)

Module NonceSpec.

(** The first of the draws from [i] on that is not outstanding. *)
Fixpoint draw (p : gmap nonce (Z * Z)) (uid : Z) (rand : draws) (now : Z)
    (attempts i : nat) : result nonce NonceError * gmap nonce (Z * Z) :=
  match attempts, rand i with
  | O, _ => (Err TableFull, p)
  | S _, None => (Err RandomUnavailable, p)
  | S a, Some n => if decide (p !! n = None) then (Ok n, <[n := (now, uid)]> p)
                   else draw p uid rand now a (S i)
  end.

Definition issue (p : gmap nonce (Z * Z)) (uid : Z) (rand : draws) (now : Z)
  : result nonce NonceError * gmap nonce (Z * Z) :=
  if decide (1024 ≤ size p)%nat then (Err TableFull, p)
  else if decide (32 ≤ uid_count p uid)%nat then (Err TooManyForUid, p)
  else draw p uid rand now 16 0.

Definition redeem (p : gmap nonce (Z * Z)) (n : nonce) (uid now : Z)
  : result unit NonceError * gmap nonce (Z * Z) :=
  match p !! n with
  | None => (Err NonceNotFound, p)
  | Some (t, u) =>
      (if decide (secs 30 < duration_since now t) then Err NonceExpired
       else if decide (u = uid) then Ok tt else Err NonceUidMismatch,
       delete n p)
  end.

Definition expire (p : gmap nonce (Z * Z)) (now : Z) : gmap nonce (Z * Z) :=
  filter (λ e : nonce * (Z * Z), duration_since now (e.2).1 < secs 30) p.

End NonceSpec.

(** ** Runs of the store *)

Inductive NonceOp : Type :=
| OpGenerate (uid : Z) (rand : draws) (now : Z)
| OpConsume (n : nonce) (uid now : Z)
| OpCleanup (now : Z).

Inductive NonceEvent : Type :=
| Issued (n : nonce) (uid now : Z)
| Consumed (n : nonce) (uid now : Z)
| Refused (e : NonceError)
| Swept.

#[global] Instance NonceEvent_eq_dec : EqDecision NonceEvent.
Proof. solve_decision. Defined.

Definition nonce_step (m : Mutex NonceState) (op : NonceOp)
  : NonceEvent * Mutex NonceState :=
  match op with
  | OpGenerate uid rand now =>
      let '(r, m) := generate m uid rand now in
      (match r with Ok n => Issued n uid now | Err e => Refused e end, m)
  | OpConsume n uid now =>
      let '(r, m) := consume m n uid now in
      (match r with Ok _ => Consumed n uid now | Err e => Refused e end, m)
  | OpCleanup now => (Swept, cleanup m now)
  end.

Definition spec_step (p : gmap nonce (Z * Z)) (op : NonceOp)
  : NonceEvent * gmap nonce (Z * Z) :=
  match op with
  | OpGenerate uid rand now =>
      let '(r, p) := NonceSpec.issue p uid rand now in
      (match r with Ok n => Issued n uid now | Err e => Refused e end, p)
  | OpConsume n uid now =>
      let '(r, p) := NonceSpec.redeem p n uid now in
      (match r with Ok _ => Consumed n uid now | Err e => Refused e end, p)
  | OpCleanup now => (Swept, NonceSpec.expire p now)
  end.

Fixpoint nonce_run (m : Mutex NonceState) (ops : list NonceOp)
  : list NonceEvent * Mutex NonceState :=
  match ops with
  | [] => ([], m)
  | op :: ops =>
      let '(ev, m) := nonce_step m op in
      let '(tr, m) := nonce_run m ops in
      (ev :: tr, m)
  end.

Fixpoint spec_run (p : gmap nonce (Z * Z)) (ops : list NonceOp)
  : list NonceEvent * gmap nonce (Z * Z) :=
  match ops with
  | [] => ([], p)
  | op :: ops =>
      let '(ev, p) := spec_step p op in
      let '(tr, p) := spec_run p ops in
      (ev :: tr, p)
  end.

(** How often a nonce was issued and spent. *)
Definition is_issue (n : nonce) (ev : NonceEvent) : bool :=
  match ev with Issued k _ _ => bool_decide (k = n) | _ => false end.
Definition is_spend (n : nonce) (ev : NonceEvent) : bool :=
  match ev with Consumed k _ _ => bool_decide (k = n) | _ => false end.
Definition issues (n : nonce) (tr : list NonceEvent) : nat :=
  length (List.filter (is_issue n) tr).
Definition spends (n : nonce) (tr : list NonceEvent) : nat :=
  length (List.filter (is_spend n) tr).

(** ** Lemmas: each operation refines its specification *)

(** A store whose lock is free and whose counters are right. *)
Definition sound (m : Mutex NonceState) : Prop := poisoned m = false ∧ nonce_ok m.

Lemma sound_new : sound nonce_store_new.
Proof. split; [done|apply nonce_inv_empty]. Qed.

Lemma lock_sound m : sound m → lock m = Some (guarded m).
Proof. intros [Hp _]. unfold lock. by rewrite Hp. Qed.

Lemma generate_loop_refines attempts i rand now uid s :
  let '(r, s') := generate_loop attempts i rand now uid s in
  NonceSpec.draw (pending s) uid rand now attempts i = (r, pending s').
Proof.
  revert i. induction attempts as [|a IH]; intros i; simpl; [done|].
  destruct (rand i) as [n|]; [|done].
  case_bool_decide as Hn; destruct (decide (pending s !! n = None)) as [E|E]; simpl;
    [by rewrite E in Hn; destruct Hn| apply IH | done | ].
  destruct Hn. by apply not_eq_None_Some.
Qed.

Lemma generate_refines m uid rand now r m' :
  sound m → generate m uid rand now = (r, m') →
  sound m' ∧ NonceSpec.issue (pending (guarded m)) uid rand now
             = (r, pending (guarded m')).
Proof.
  intros Hs Hg. pose proof Hs as [Hp Hi]. unfold generate in Hg.
  rewrite lock_sound in Hg by done. unfold NonceSpec.issue.
  rewrite (inv_default _ uid Hi) in Hg.
  unfold MAX_PENDING_NONCES, MAX_PENDING_NONCES_PER_UID in Hg.
  case_bool_decide as Hsz; [by simplify_eq; rewrite decide_True by done|].
  rewrite decide_False by done.
  case_bool_decide as Hu; [by simplify_eq; rewrite decide_True by done|].
  rewrite decide_False by done.
  destruct (generate_loop 16 0 rand now uid (guarded m)) as [r' s'] eqn:El.
  injection Hg as <- <-.
  pose proof (generate_loop_refines 16 0 rand now uid (guarded m)) as Hr.
  rewrite El in Hr. split; [|done]. split; [done|].
  apply generate_loop_spec in El. unfold nonce_ok. simpl.
  destruct r' as [n|e]; [|by destruct El as [-> _]].
  destruct El as (_ & Hn & ->).
  apply nonce_inv_insert; [done|done| |];
    unfold MAX_PENDING_NONCES, MAX_PENDING_NONCES_PER_UID; lia.
Qed.

Lemma consume_refines m n uid now r m' :
  sound m → consume m n uid now = (r, m') →
  sound m' ∧ NonceSpec.redeem (pending (guarded m)) n uid now
             = (r, pending (guarded m')).
Proof.
  intros Hs Hc. pose proof Hs as [Hp Hi]. unfold consume in Hc.
  rewrite lock_sound in Hc by done. unfold NonceSpec.redeem.
  destruct (pending (guarded m) !! n) as [[t u]|] eqn:Hn; [|by simplify_eq].
  pose proof (nonce_inv_delete _ _ _ _ Hi Hn) as Hi'. unfold NONCE_TTL in Hc.
  destruct (Z.ltb_spec (secs 30) (duration_since now t)).
  { simplify_eq. by rewrite decide_True by done. }
  rewrite decide_False by lia.
  destruct (Z.eqb_spec u uid); simpl in Hc; simplify_eq;
    [by rewrite decide_True by done|by rewrite decide_False by done].
Qed.

Lemma cleanup_refines m now :
  sound m → sound (cleanup m now)
  ∧ NonceSpec.expire (pending (guarded m)) now = pending (guarded (cleanup m now)).
Proof.
  intros Hs. pose proof Hs as [Hp Hi]. unfold cleanup. rewrite lock_sound by done.
  destruct (foldl_remove_pending
    ((List.filter (is_expired now) (map_to_list (pending (guarded m)))).*1) _ Hi)
    as [Hi' Hl].
  split; [by split|]. apply map_eq. intros k. simpl. rewrite Hl.
  unfold NonceSpec.expire. rewrite map_lookup_filter.
  destruct (pending (guarded m) !! k) as [[t u]|] eqn:Hk; simpl.
  - case_guard as Hg; case_decide as He; try done; simpl in Hg.
    + apply expired_spec in He as (e & He & Hx). unfold is_expired in Hx.
      rewrite Hk in He. injection He as <-. unfold NONCE_TTL in Hx. simpl in Hx. lia.
    + destruct He. apply expired_spec. exists (t, u). split; [done|].
      unfold is_expired, NONCE_TTL. simpl. lia.
  - by case_decide.
Qed.

Lemma step_refines m op ev m' :
  sound m → nonce_step m op = (ev, m') →
  sound m' ∧ spec_step (pending (guarded m)) op = (ev, pending (guarded m')).
Proof.
  intros Hs. destruct op as [uid rand now|n uid now|now]; simpl.
  - destruct (generate m uid rand now) as [r m1] eqn:Hg. intros [= <- <-].
    apply generate_refines in Hg as [? ->]; done.
  - destruct (consume m n uid now) as [r m1] eqn:Hc. intros [= <- <-].
    apply consume_refines in Hc as [? ->]; done.
  - intros [= <- <-]. destruct (cleanup_refines m now Hs) as [? ->]. done.
Qed.

Lemma run_refines m ops tr m' :
  sound m → nonce_run m ops = (tr, m') →
  sound m' ∧ spec_run (pending (guarded m)) ops = (tr, pending (guarded m')).
Proof.
  revert m tr. induction ops as [|op ops IH]; intros m tr Hs Hr; simpl in Hr.
  { by simplify_eq. }
  destruct (nonce_step m op) as [ev m1] eqn:Hst.
  destruct (nonce_run m1 ops) as [tr1 m2] eqn:Hr1. simplify_eq.
  apply step_refines in Hst as [Hs1 Hsp]; [|done].
  apply IH in Hr1 as [? Hsp1]; [|done]. split; [done|].
  simpl. by rewrite Hsp, Hsp1.
Qed.

(** ** Lemmas: the ledger of issued and spent nonces *)

Lemma issues_snoc n tr ev : issues n (tr ++ [ev]) = (issues n tr + if is_issue n ev then 1 else 0)%nat.
Proof. unfold issues. rewrite List.filter_app, length_app. simpl. by case_match. Qed.

Lemma spends_snoc n tr ev : spends n (tr ++ [ev]) = (spends n tr + if is_spend n ev then 1 else 0)%nat.
Proof. unfold spends. rewrite List.filter_app, length_app. simpl. by case_match. Qed.

(** A pending nonce is one that was issued and not yet spent. *)
Definition ledger (p : gmap nonce (Z * Z)) (tr : list NonceEvent) : Prop :=
  (∀ n, spends n tr + match p !! n with Some _ => 1 | None => 0 end ≤ issues n tr)%nat
  ∧ ∀ n t u, p !! n = Some (t, u) → Issued n u t ∈ tr.

Lemma ledger_other p tr ev :
  (∀ n, is_issue n ev = false) → (∀ n, is_spend n ev = false) →
  ledger p tr → ledger p (tr ++ [ev]).
Proof.
  intros Hi Hs [Hc Ho]. split.
  - intros n. specialize (Hc n). rewrite issues_snoc, spends_snoc, Hi, Hs.
    destruct (p !! n); lia.
  - intros n t u Hn. apply elem_of_app. left. by apply Ho.
Qed.

Lemma ledger_mono p p' tr :
  (∀ n e, p' !! n = Some e → p !! n = Some e) → ledger p tr → ledger p' tr.
Proof.
  intros Hsub [Hc Ho]. split.
  - intros n. specialize (Hc n). destruct (p' !! n) as [e|] eqn:He; [|lia].
    rewrite (Hsub _ _ He) in Hc. lia.
  - intros n t u Hn. by apply Ho, Hsub.
Qed.

Lemma ledger_insert p tr n uid now :
  p !! n = None → ledger p tr →
  ledger (<[n := (now, uid)]> p) (tr ++ [Issued n uid now]).
Proof.
  intros Hn [Hc Ho]. split.
  - intros k. specialize (Hc k). rewrite issues_snoc, spends_snoc. simpl.
    case_bool_decide as Hk; [subst k; rewrite lookup_insert_eq; rewrite Hn in Hc; lia|].
    rewrite lookup_insert_ne by done. destruct (p !! k); lia.
  - intros k t u. destruct (decide (n = k)) as [->|Hne].
    + rewrite lookup_insert_eq. intros [= <- <-]. set_solver.
    + rewrite lookup_insert_ne by done. intros Hk%Ho. set_solver.
Qed.

Lemma draw_spec p uid rand now attempts i r p' :
  NonceSpec.draw p uid rand now attempts i = (r, p') →
  match r with
  | Ok n => p !! n = None ∧ p' = <[n := (now, uid)]> p
  | Err _ => p' = p
  end.
Proof.
  revert i. induction attempts as [|a IH]; intros i H; simpl in H; [by simplify_eq|].
  destruct (rand i) as [n|]; [|by simplify_eq].
  destruct (decide (p !! n = None)); [by simplify_eq|by apply IH in H].
Qed.

(** One step keeps the ledger, and a spend is backed by an issue. *)
Lemma ledger_step p tr op ev p' :
  ledger p tr → spec_step p op = (ev, p') →
  ledger p' (tr ++ [ev])
  ∧ ∀ n u t, ev = Consumed n u t →
      (spends n tr < issues n tr)%nat
      ∧ ∃ t0, Issued n u t0 ∈ tr ∧ duration_since t t0 ≤ NONCE_TTL.
Proof.
  intros Hl Hst. destruct op as [uid rand now|n uid now|now]; simpl in Hst.
  - destruct (NonceSpec.issue p uid rand now) as [r p1] eqn:Hg.
    injection Hst as <- <-. unfold NonceSpec.issue in Hg.
    assert (match r with Ok n => p !! n = None ∧ p1 = <[n := (now, uid)]> p
            | Err _ => p1 = p end) as Hr.
    { repeat case_decide; [by simplify_eq|by simplify_eq|by apply draw_spec in Hg]. }
    destruct r as [n|e]; [destruct Hr as [Hn ->]|subst p1]; (split; [|by intros]).
    + by apply ledger_insert.
    + by apply ledger_other.
  - destruct (NonceSpec.redeem p n uid now) as [r p1] eqn:Hc.
    injection Hst as <- <-. unfold NonceSpec.redeem in Hc.
    destruct (p !! n) as [[t u]|] eqn:Hn; [|simplify_eq; split; [by apply ledger_other|done]].
    injection Hc as <- <-. destruct Hl as [Hcnt Hiss].
    assert (ledger (delete n p) tr) as Hdel.
    { apply (ledger_mono p); [|by split]. by intros k e [_ ?]%lookup_delete_Some. }
    case_decide as Ht; [split; [by apply ledger_other|done]|].
    case_decide as Hu; [|split; [by apply ledger_other|done]]. subst u. split.
    + destruct Hdel as [Hdc Hdi]. split.
      * intros k. specialize (Hdc k). specialize (Hcnt k).
        rewrite issues_snoc, spends_snoc. simpl. case_bool_decide as Hk.
        -- subst k. rewrite lookup_delete_eq. rewrite Hn in Hcnt. lia.
        -- destruct (delete n p !! k); lia.
      * intros k t' u' Hk. apply Hdi in Hk. set_solver.
    + intros k u t' [= <- <- <-]. specialize (Hcnt n). rewrite Hn in Hcnt.
      split; [lia|]. exists t. split; [by apply Hiss|].
      change (duration_since now t ≤ secs 30). lia.
  - injection Hst as <- <-. split; [|done]. apply ledger_other; [done|done|].
    apply (ledger_mono p); [|done]. intros k e. unfold NonceSpec.expire.
    by intros [? _]%map_lookup_filter_Some.
Qed.

Lemma ledger_run p tr0 ops tr p' :
  ledger p tr0 → spec_run p ops = (tr, p') →
  ∀ tr1 n u t tr2, tr = tr1 ++ Consumed n u t :: tr2 →
    (spends n (tr0 ++ tr1) < issues n (tr0 ++ tr1))%nat
    ∧ ∃ t0, Issued n u t0 ∈ tr0 ++ tr1 ∧ duration_since t t0 ≤ NONCE_TTL.
Proof.
  revert p tr0 tr. induction ops as [|op ops IH]; intros p tr0 tr Hl Hr tr1 n u t tr2 Htr;
    simpl in Hr; [by simplify_eq; destruct tr1|].
  destruct (spec_step p op) as [ev p1] eqn:Hst.
  destruct (spec_run p1 ops) as [tr' p2] eqn:Hr1. injection Hr as <- <-.
  destruct (ledger_step _ _ _ _ _ Hl Hst) as [Hl1 Hev].
  destruct tr1 as [|ev' tr1]; simplify_list_eq; [by apply Hev|].
  destruct (IH _ _ _ Hl1 Hr1 tr1 n u t tr2 eq_refl) as [H1 (t0 & H2 & H3)].
  rewrite <-app_assoc in *. simpl in *. eauto.
Qed.

Lemma ledger_end p tr0 ops tr p' :
  ledger p tr0 → spec_run p ops = (tr, p') → ledger p' (tr0 ++ tr).
Proof.
  revert p tr0 tr. induction ops as [|op ops IH]; intros p tr0 tr Hl Hr; simpl in Hr.
  { simplify_eq. by rewrite app_nil_r. }
  destruct (spec_step p op) as [ev p1] eqn:Hst.
  destruct (spec_run p1 ops) as [tr' p2] eqn:Hr1. injection Hr as <- <-.
  destruct (ledger_step _ _ _ _ _ Hl Hst) as [Hl1 _].
  pose proof (IH _ _ _ Hl1 Hr1) as H. by rewrite <-app_assoc in H.
Qed.

Lemma ledger_empty : ledger ∅ [].
Proof.
  split; [intros k; rewrite lookup_empty; simpl; lia|]. intros k t u Hk. by rewrite lookup_empty in Hk.
Qed.

(** A store that starts empty never sees a nonce spent more often than it
    was issued. *)
Lemma spends_le_issues ops n :
  (spends n (nonce_run nonce_store_new ops).1 ≤ issues n (nonce_run nonce_store_new ops).1)%nat.
Proof.
  destruct (nonce_run nonce_store_new ops) as [tr m] eqn:Hr.
  apply run_refines in Hr as [_ Hsp]; [|apply sound_new].
  destruct (ledger_end _ [] _ _ _ ledger_empty Hsp) as [Hc _]. specialize (Hc n). simpl in *. lia.
Qed.

Lemma nonce_run_app m ops1 ops2 :
  nonce_run m (ops1 ++ ops2)
  = ((nonce_run m ops1).1 ++ (nonce_run (nonce_run m ops1).2 ops2).1,
     (nonce_run (nonce_run m ops1).2 ops2).2).
Proof.
  revert m. induction ops1 as [|op ops1 IH]; intros m; simpl; [by destruct (nonce_run m ops2)|].
  destruct (nonce_step m op) as [ev m1]. rewrite (IH m1). by destruct (nonce_run m1 ops1).
Qed.

Lemma spends_app n tr1 tr2 : spends n (tr1 ++ tr2) = (spends n tr1 + spends n tr2)%nat.
Proof. unfold spends. by rewrite List.filter_app, length_app. Qed.

(** ** Lemmas: a challenge waits for its answer *)

(** An operation that leaves the nonce [n], issued at [t], alone. *)
Definition spares (n : nonce) (t : Z) (op : NonceOp) : Prop :=
  match op with
  | OpGenerate _ _ _ => True
  | OpConsume k _ _ => k ≠ n
  | OpCleanup now => duration_since now t < NONCE_TTL
  end.

Lemma spec_step_spares p op n t u :
  p !! n = Some (t, u) → spares n t op → (spec_step p op).2 !! n = Some (t, u).
Proof.
  intros Hn Hs. destruct op as [uid rand now|k uid now|now]; simpl in *.
  - destruct (NonceSpec.issue p uid rand now) as [r p'] eqn:E. simpl. unfold NonceSpec.issue in E.
    case_decide; [by simplify_eq|]. case_decide; [by simplify_eq|].
    apply draw_spec in E. destruct r as [k|e]; [|by subst p'].
    destruct E as [Hk ->]. rewrite lookup_insert_ne; [done|]. intros ->. congruence.
  - unfold NonceSpec.redeem. destruct (p !! k) as [[t' u']|]; simpl; [|done].
    by rewrite lookup_delete_ne.
  - unfold NonceSpec.expire. by apply map_lookup_filter_Some.
Qed.

Lemma nonce_run_spares n t u ops : ∀ m,
  sound m → pending (guarded m) !! n = Some (t, u) → Forall (spares n t) ops →
  pending (guarded (nonce_run m ops).2) !! n = Some (t, u).
Proof.
  induction ops as [|op ops IH]; intros m Hs Hn Hops; simpl; [done|].
  apply Forall_cons in Hops as [Hop Hops].
  destruct (nonce_step m op) as [ev m1] eqn:E. apply step_refines in E as [Hs1 E]; [|done].
  pose proof (spec_step_spares _ _ _ _ _ Hn Hop) as H1. rewrite E in H1. simpl in H1.
  specialize (IH m1 Hs1 H1 Hops). by destruct (nonce_run m1 ops).
Qed.

(** In time, by its uid: the challenge is redeemed. *)
Lemma consume_waiting m n t uid now :
  sound m → pending (guarded m) !! n = Some (t, uid) → duration_since now t ≤ NONCE_TTL →
  (consume m n uid now).1 = Ok tt.
Proof.
  intros Hs Hn Ht. destruct (consume m n uid now) as [r m'] eqn:E.
  apply consume_refines in E as [_ E]; [|done]. unfold NonceSpec.redeem in E. rewrite Hn in E.
  unfold NONCE_TTL in Ht. rewrite decide_False, decide_True in E by (done || lia). by simplify_eq.
Qed.

(** ** Lemmas: the table holds 32-byte nonces of [u32] uids *)

Definition store_typed (m : Mutex NonceState) : Prop :=
  map_Forall (λ n e, length n = 32%nat ∧ is_u32 e.2) (pending (guarded m)).

Lemma generate_typed m uid rand now :
  store_typed m → is_u32 uid → (∀ k n, rand k = Some n → length n = 32%nat) →
  store_typed (generate m uid rand now).2
  ∧ ∀ n, (generate m uid rand now).1 = Ok n → length n = 32%nat.
Proof.
  intros Hm Hu Hr. unfold generate, lock. destruct (poisoned m); [done|].
  do 2 (case_bool_decide; [done|]).
  destruct (generate_loop 16 0 rand now uid (guarded m)) as [r s] eqn:El.
  apply generate_loop_spec in El. simpl. destruct r as [n|e]; [|by destruct El as [-> _]].
  destruct El as ((j & _ & Hj) & _ & ->). apply Hr in Hj.
  split; [|by intros k [= <-]]. by apply map_Forall_insert_2.
Qed.

Lemma consume_typed m n uid now : store_typed m → store_typed (consume m n uid now).2.
Proof.
  intros Hm. unfold consume, lock. destruct (poisoned m); [done|].
  destruct (pending (guarded m) !! n) as [[t u]|]; [|done].
  assert (store_typed (unlock (mk_nonce_state (delete n (pending (guarded m)))
    (decrement_uid_count (pending_per_uid (guarded m)) u)))) as H by (by apply map_Forall_delete).
  destruct (_ <? _); [done|]. by destruct (negb _).
Qed.

Lemma cleanup_typed m now : store_typed m → store_typed (cleanup m now).
Proof.
  intros Hm. unfold cleanup, lock. destruct (poisoned m); [done|].
  assert (∀ l s, map_Forall (λ n e, length n = 32%nat ∧ is_u32 e.2) (pending s) →
    map_Forall (λ n e, length n = 32%nat ∧ is_u32 e.2) (pending (foldl remove_pending s l))) as H.
  { induction l as [|n l IH]; intros s Hs; simpl; [done|]. apply IH. intros k e.
    rewrite remove_pending_lookup. case_decide; [done|]. apply Hs. }
  by apply H.
Qed.

(** ** The properties of the nonce store *)

(** C9: every run of the store from [NonceStore::new], whatever the order of
    generate, consume and cleanup calls and whatever the random source and
    the clock return, answers like the abstract table of outstanding
    challenges, and in every state it reaches the per-uid counters are the
    numbers of pending nonces, at most 32 a uid and 1024 in all. *)
Theorem nonce_store_refines ops tr m :
  nonce_run nonce_store_new ops = (tr, m) →
  spec_run ∅ ops = (tr, pending (guarded m)) ∧ poisoned m = false ∧ nonce_inv (guarded m).
Proof.
  intros Hr. apply run_refines in Hr as [[? ?] Hsp]; [|apply sound_new]. done.
Qed.

Definition sample_nonce (b : byte) : nonce := replicate 32 b.

(** Issue a nonce, spend it, try to spend it again. *)
Definition sample_nonce_ops : list NonceOp :=
  [ OpGenerate 1000 (λ _, Some (sample_nonce "a")) (secs 5);
    OpConsume (sample_nonce "a") 1000 (secs 6);
    OpConsume (sample_nonce "a") 1000 (secs 7);
    OpCleanup (secs 50) ].

Definition sample_nonce_trace : list NonceEvent :=
  [ Issued (sample_nonce "a") 1000 (secs 5);
    Consumed (sample_nonce "a") 1000 (secs 6);
    Refused NonceNotFound;
    Swept ].

Lemma nonce_store_refines_witness :
  spec_run ∅ sample_nonce_ops
    = (sample_nonce_trace, pending (guarded (nonce_run nonce_store_new sample_nonce_ops).2))
  ∧ poisoned (nonce_run nonce_store_new sample_nonce_ops).2 = false
  ∧ nonce_inv (guarded (nonce_run nonce_store_new sample_nonce_ops).2).
Proof.
  apply nonce_store_refines. vm_compute. reflexivity.
Defined.

(** C10: a nonce is single-use.  In every run, at the moment a nonce is
    spent it has been issued more often than spent before, and it was issued
    to the uid that spends it, at most the time to live earlier; so replaying
    it, and spending a nonce that was never issued or was issued to another
    uid, fails. *)
Theorem nonce_single_use ops tr m tr1 n u t tr2 :
  nonce_run nonce_store_new ops = (tr, m) →
  tr = tr1 ++ Consumed n u t :: tr2 →
  (spends n tr1 < issues n tr1)%nat
  ∧ ∃ t0, Issued n u t0 ∈ tr1 ∧ duration_since t t0 ≤ NONCE_TTL.
Proof.
  intros Hr Htr. apply run_refines in Hr as [_ Hsp]; [|apply sound_new].
  apply (ledger_run ∅ [] ops tr (pending (guarded m))) with (tr2 := tr2); [apply ledger_empty|done|done].
Qed.

Lemma nonce_single_use_witness :
  (spends (sample_nonce "a") [Issued (sample_nonce "a") 1000 (secs 5)]
   < issues (sample_nonce "a") [Issued (sample_nonce "a") 1000 (secs 5)])%nat
  ∧ ∃ t0, Issued (sample_nonce "a") 1000 t0 ∈ [Issued (sample_nonce "a") 1000 (secs 5)]
          ∧ duration_since (secs 6) t0 ≤ NONCE_TTL.
Proof.
  apply (nonce_single_use sample_nonce_ops sample_nonce_trace
           (nonce_run nonce_store_new sample_nonce_ops).2
           [Issued (sample_nonce "a") 1000 (secs 5)] (sample_nonce "a") 1000 (secs 6)
           [Refused NonceNotFound; Swept]).
  - vm_compute. reflexivity.
  - reflexivity.
Defined.

(** Generating succeeds whenever there is room: with fewer than 1024
    nonces pending and fewer than 32 for the uid, if one of the first sixteen
    draws is fresh and no draw before it fails, a nonce is returned, it is
    the first fresh draw, and it is pending from then on. *)
Theorem generate_progress m uid rand now j n :
  sound m →
  (size (pending (guarded m)) < 1024)%nat →
  (uid_count (pending (guarded m)) uid < 32)%nat →
  (j < 16)%nat → rand j = Some n → pending (guarded m) !! n = None →
  (∀ i, (i < j)%nat → ∃ k, rand i = Some k ∧ is_Some (pending (guarded m) !! k)) →
  ∃ m', generate m uid rand now = (Ok n, m')
        ∧ pending (guarded m') = <[n := (now, uid)]> (pending (guarded m)).
Proof.
  intros Hs Hsz Hu Hj Hr Hn Hbefore.
  destruct (generate m uid rand now) as [r m'] eqn:Hg.
  apply generate_refines in Hg as [_ Hg]; [|done]. exists m'.
  unfold NonceSpec.issue in Hg. rewrite !decide_False in Hg by lia.
  assert (∀ attempts i, (i ≤ j < i + attempts)%nat →
    NonceSpec.draw (pending (guarded m)) uid rand now attempts i
    = (Ok n, <[n := (now, uid)]> (pending (guarded m)))) as Hd.
  { induction attempts as [|a IH]; intros i Hi; [lia|]. simpl.
    destruct (decide (i = j)) as [->|Hne]; [by rewrite Hr, decide_True|].
    destruct (Hbefore i) as (k & -> & Hk); [lia|].
    rewrite decide_False by (by apply not_eq_None_Some). apply IH. lia. }
  rewrite Hd in Hg by lia. by simplify_eq.
Qed.

Lemma generate_progress_witness :
  ∃ m', generate nonce_store_new 1000 (λ _, Some (sample_nonce "a")) (secs 5)
        = (Ok (sample_nonce "a"), m')
        ∧ pending (guarded m') = <[sample_nonce "a" := (secs 5, 1000)]> ∅.
Proof.
  apply (generate_progress nonce_store_new 1000 (λ _, Some (sample_nonce "a")) (secs 5)
           0 (sample_nonce "a")).
  - apply sound_new.
  - vm_compute. lia.
  - vm_compute. lia.
  - lia.
  - reflexivity.
  - reflexivity.
  - lia.
Defined.
