(* ===== verification/RateLimit.v ===== *)
(** * The connection budget of each uid: [crates/ola-core/src/security/rate_limit.rs]

    A map from uid to the start of its current window and the number of
    checks made in it, behind a mutex and with a hard cap on its size. *)

From S2P Require Import Prelude RustStd.
Open Scope Z_scope.

Definition MAX_TRACKED_UIDS : nat := 4096.
Definition RATE_WINDOW : Z := secs 1.
Definition STALE_AFTER : Z := secs 60.

Record RateEntry := mk_rate_entry { last_reset : Z; count : Z }.

Record RateLimiter := mk_rate_limiter {
  limits : Mutex (gmap Z RateEntry);
  max_tracked_uids : nat
}.

Definition with_max_tracked_uids (n : nat) : RateLimiter :=
  mk_rate_limiter (unlock ∅) n.

Definition rate_limiter_new : RateLimiter := with_max_tracked_uids MAX_TRACKED_UIDS.

(** [HashMap::retain] *)
Definition cleanup_stale_locked (l : gmap Z RateEntry) (now : Z) : gmap Z RateEntry :=
  filter (λ e : Z * RateEntry, duration_since now (last_reset e.2) < STALE_AFTER) l.

(** One tick of the cleanup task. *)
Definition cleanup_stale (m : Mutex (gmap Z RateEntry)) (now : Z) : Mutex (gmap Z RateEntry) :=
  match lock m with
  | None => m
  | Some l => unlock (cleanup_stale_locked l now)
  end.

(** The tail of [check], from [limits.entry(uid)] on. *)
Definition check_entry (l : gmap Z RateEntry) (uid max_per_sec now : Z)
  : bool * gmap Z RateEntry :=
  let entry := default (mk_rate_entry now 0) (l !! uid) in
  let entry := if RATE_WINDOW <? duration_since now (last_reset entry)
               then mk_rate_entry now 0 else entry in
  let entry := mk_rate_entry (last_reset entry) (saturating_add_u32 (count entry) 1) in
  (count entry <=? max_per_sec, <[uid := entry]> l).

(** [now] was read before the lock is taken: calls can come with readings that
    are out of order, and [timely] below says how far. *)
Definition check (rl : RateLimiter) (uid max_per_sec now : Z) : bool * RateLimiter :=
  match lock (limits rl) with
  | None => (false, rl)
  | Some l =>
      let full l := bool_decide (max_tracked_uids rl ≤ size l)%nat in
      let put l := mk_rate_limiter (unlock l) (max_tracked_uids rl) in
      if negb (bool_decide (is_Some (l !! uid))) && full l then
        let l := cleanup_stale_locked l now in
        if full l then (false, put l)
        else let '(ok, l) := check_entry l uid max_per_sec now in (ok, put l)
      else let '(ok, l) := check_entry l uid max_per_sec now in (ok, put l)
  end.

(** ** Runs *)

(** A call of [check] by a connection, or a tick of the cleanup task, each
    with the clock reading it makes. *)
Inductive RateOp : Type :=
| OpCheck (uid now : Z)
| OpSweep (now : Z).

Definition op_time (op : RateOp) : Z :=
  match op with OpCheck _ now => now | OpSweep now => now end.

Definition rate_step (max : Z) (rl : RateLimiter) (op : RateOp) : bool * RateLimiter :=
  match op with
  | OpCheck uid now => check rl uid max now
  | OpSweep now =>
      (false, mk_rate_limiter (cleanup_stale (limits rl) now) (max_tracked_uids rl))
  end.

(** Calls in the order in which they take the lock, each with the time at
    which it does.  Both functions read the clock before they lock, so a
    caller that is held up comes with an old reading. *)
Definition TimedOp : Type := (Z * RateOp)%type.

(** The times at which [who] was let in, latest first, and the final state. *)
Fixpoint rate_run (max who : Z) (rl : RateLimiter) (ops : list TimedOp) (acc : list Z)
  : list Z * RateLimiter :=
  match ops with
  | [] => (acc, rl)
  | (at_, op) :: ops =>
      let '(ok, rl) := rate_step max rl op in
      let acc := match op with
                 | OpCheck uid _ => if bool_decide (uid = who) && ok then at_ :: acc else acc
                 | OpSweep _ => acc
                 end in
      rate_run max who rl ops acc
  end.

(** Time does not go back, and nobody is held up between reading the clock and
    taking the lock for more than [delay]. *)
Fixpoint timely (delay clock : Z) (ops : list TimedOp) : Prop :=
  match ops with
  | [] => True
  | (at_, op) :: ops =>
      clock ≤ at_ ∧ at_ - delay ≤ op_time op ≤ at_ ∧ timely delay at_ ops
  end.

Definition count_in (lo hi : Z) (ts : list Z) : nat :=
  length (List.filter (λ t, (lo <=? t) && (t <=? hi)) ts).

Definition rl_ok (rl : RateLimiter) : Prop :=
  poisoned (limits rl) = false
  ∧ (size (guarded (limits rl)) ≤ max_tracked_uids rl)%nat.

(** ** Lemmas: one step, seen by one uid *)

Definition view (rl : RateLimiter) (who : Z) : option RateEntry :=
  guarded (limits rl) !! who.

Definition stale (now : Z) (e : RateEntry) : Prop :=
  STALE_AFTER ≤ duration_since now (last_reset e).

#[global] Instance stale_dec now e : Decision (stale now e).
Proof. unfold stale. apply _. Defined.

Lemma lookup_cleanup_stale_locked l now uid :
  cleanup_stale_locked l now !! uid
  = match l !! uid with
    | Some e => if decide (stale now e) then None else Some e
    | None => None
    end.
Proof.
  unfold cleanup_stale_locked, stale. rewrite map_lookup_filter.
  destruct (l !! uid) as [e|]; simpl; [|done].
  case_guard as H; simpl in H; case_decide; try done; lia.
Qed.

Lemma size_cleanup_stale_locked l now : (size (cleanup_stale_locked l now) ≤ size l)%nat.
Proof. apply map_size_filter. Qed.

Lemma check_entry_other l uid who max now :
  uid ≠ who → (check_entry l uid max now).2 !! who = l !! who.
Proof. intros. unfold check_entry. simpl. by rewrite lookup_insert_ne. Qed.

Lemma size_check_entry l uid max now n :
  (size l ≤ n)%nat → (is_Some (l !! uid) ∨ (size l < n)%nat) →
  (size (check_entry l uid max now).2 ≤ n)%nat.
Proof.
  intros Hl H. unfold check_entry. simpl. rewrite map_size_insert.
  destruct (l !! uid); simpl; [done|]. destruct H as [[]|]; [done|lia].
Qed.

(** [check] keeps the lock free and the table within its cap. *)
Lemma check_rl_ok rl uid max now :
  rl_ok rl → rl_ok (check rl uid max now).2
             ∧ max_tracked_uids (check rl uid max now).2 = max_tracked_uids rl.
Proof.
  intros [Hp Hsz]. unfold check, lock, rl_ok. rewrite Hp.
  pose proof (size_cleanup_stale_locked (guarded (limits rl)) now).
  pose proof (size_check_entry (guarded (limits rl)) uid max now (max_tracked_uids rl) Hsz).
  pose proof (size_check_entry (cleanup_stale_locked (guarded (limits rl)) now) uid max now
                (max_tracked_uids rl) ltac:(lia)).
  destruct (check_entry (guarded (limits rl)) uid max now) as [ok l1].
  destruct (check_entry (cleanup_stale_locked (guarded (limits rl)) now) uid max now)
    as [ok2 l2].
  repeat case_bool_decide; simpl in *; (split; [split|]; try done);
    solve [lia | auto with lia].
Qed.

(** The calls of other uids and the sweeps change a uid's entry only by
    dropping it once it is stale. *)
Lemma view_check_other rl uid who max now :
  rl_ok rl → uid ≠ who →
  view (check rl uid max now).2 who = view rl who
  ∨ view (check rl uid max now).2 who = None ∧ ∃ e, view rl who = Some e ∧ stale now e.
Proof.
  intros [Hp _] Hne. unfold check, lock, view. rewrite Hp.
  pose proof (check_entry_other (guarded (limits rl)) uid who max now Hne) as H1.
  pose proof (check_entry_other (cleanup_stale_locked (guarded (limits rl)) now)
                uid who max now Hne) as H2.
  pose proof (lookup_cleanup_stale_locked (guarded (limits rl)) now who) as H3.
  destruct (check_entry (guarded (limits rl)) uid max now) as [ok l1].
  destruct (check_entry (cleanup_stale_locked (guarded (limits rl)) now) uid max now)
    as [ok2 l2].
  simpl in *.
  assert (cleanup_stale_locked (guarded (limits rl)) now !! who = guarded (limits rl) !! who
    ∨ cleanup_stale_locked (guarded (limits rl)) now !! who = None
      ∧ ∃ e, guarded (limits rl) !! who = Some e ∧ stale now e) as H4.
  { rewrite H3. destruct (guarded (limits rl) !! who) as [e|]; [|by left].
    case_decide; [right; eauto|by left]. }
  repeat case_bool_decide; simpl; try rewrite H1; try rewrite H2; auto.
Qed.

Lemma view_sweep rl who now :
  rl_ok rl →
  guarded (cleanup_stale (limits rl) now) !! who = view rl who
  ∨ guarded (cleanup_stale (limits rl) now) !! who = None
    ∧ ∃ e, view rl who = Some e ∧ stale now e.
Proof.
  intros [Hp _]. unfold cleanup_stale, lock, view. rewrite Hp. simpl.
  rewrite lookup_cleanup_stale_locked. destruct (guarded (limits rl) !! who) as [e|]; [|by left].
  case_decide; [right; eauto|by left].
Qed.

(** The effect of a uid's own call on its entry: refused for want of a slot,
    a new window, or one more call in the current window. *)
Inductive own_call (now max : Z) : option RateEntry → option RateEntry → bool → Prop :=
| no_slot : own_call now max None None false
| first_window : own_call now max None (Some (mk_rate_entry now 1)) (1 <=? max)
| new_window e :
    RATE_WINDOW < duration_since now (last_reset e) →
    own_call now max (Some e) (Some (mk_rate_entry now 1)) (1 <=? max)
| same_window e :
    duration_since now (last_reset e) ≤ RATE_WINDOW →
    own_call now max (Some e)
      (Some (mk_rate_entry (last_reset e) (saturating_add_u32 (count e) 1)))
      (saturating_add_u32 (count e) 1 <=? max).

Lemma check_entry_own l uid max now :
  own_call now max (l !! uid) ((check_entry l uid max now).2 !! uid)
    (check_entry l uid max now).1.
Proof.
  unfold check_entry. simpl. rewrite lookup_insert_eq.
  assert (saturating_add_u32 0 1 = 1) as H01 by reflexivity.
  destruct (l !! uid) as [e|]; simpl.
  - destruct (Z.ltb_spec RATE_WINDOW (duration_since now (last_reset e))); simpl;
      rewrite ?H01; by constructor.
  - assert ((RATE_WINDOW <? duration_since now now) = false) as ->
      by (unfold RATE_WINDOW, secs, duration_since; lia).
    simpl. rewrite H01. constructor.
Qed.

Lemma view_check_self rl uid max now ok rl' :
  rl_ok rl → check rl uid max now = (ok, rl') →
  own_call now max (view rl uid) (view rl' uid) ok.
Proof.
  intros [Hp _] Hc. unfold check, lock, view in *. rewrite Hp in Hc.
  pose proof (check_entry_own (guarded (limits rl)) uid max now) as H1.
  pose proof (check_entry_own (cleanup_stale_locked (guarded (limits rl)) now) uid max now)
    as H2.
  pose proof (lookup_cleanup_stale_locked (guarded (limits rl)) now uid) as H3.
  destruct (check_entry (guarded (limits rl)) uid max now) as [ok1 l1].
  destruct (check_entry (cleanup_stale_locked (guarded (limits rl)) now) uid max now)
    as [ok2 l2].
  case_bool_decide as Hin; simpl in Hc; [by simplify_eq|].
  apply eq_None_not_Some in Hin. rewrite Hin in *. rewrite H3 in H2.
  repeat case_bool_decide; simplify_eq/=; [|done|done].
  rewrite H3. constructor.
Qed.

(** ** Lemmas: the windows of a uid *)

Lemma count_in_cons lo hi t ts :
  count_in lo hi (t :: ts)
  = (Nat.b2n (((lo <=? t) && (t <=? hi))%Z) + count_in lo hi ts)%nat.
Proof. unfold count_in. simpl. by destruct ((lo <=? t) && (t <=? hi)). Qed.

Lemma count_in_app lo hi ts us :
  count_in lo hi (ts ++ us) = (count_in lo hi ts + count_in lo hi us)%nat.
Proof. unfold count_in. by rewrite List.filter_app, length_app. Qed.

Lemma count_in_length lo hi ts : (count_in lo hi ts ≤ length ts)%nat.
Proof. apply List.filter_length_le. Qed.

Lemma count_in_none lo hi ts : (∀ t, t ∈ ts → ¬ lo ≤ t ≤ hi) → count_in lo hi ts = O.
Proof.
  induction ts as [|t ts IH]; intros H; [done|]. rewrite count_in_cons, IH by set_solver.
  specialize (H t ltac:(set_solver)). destruct (Z.leb_spec lo t), (Z.leb_spec t hi); simpl; lia.
Qed.

(** A window: its start, and the times at which a call was let in during it,
    latest first. *)
Definition Window : Type := (Z * list Z)%type.

Definition window_ok (max : nat) (delay : Z) (w : Window) : Prop :=
  (length w.2 ≤ max)%nat ∧ ∀ t, t ∈ w.2 → w.1 ≤ t ≤ w.1 + RATE_WINDOW + delay.

(** Each starts more than a window after the one before it. *)
Fixpoint spaced (ws : list Window) : Prop :=
  match ws with
  | [] => True
  | w :: ws => Forall (λ w', w'.1 + RATE_WINDOW < w.1) ws ∧ spaced ws
  end.

(** As many windows can let calls in during an interval as there is room for
    their starts. *)
Lemma windows_count max delay T ws : ∀ hi n,
  spaced ws → Forall (window_ok max delay) ws → 0 ≤ delay →
  (∀ w, w ∈ ws → w.1 ≤ T + RATE_WINDOW → w.1 ≤ hi) →
  hi - (T - RATE_WINDOW - delay) < Z.of_nat n * (RATE_WINDOW + 1) →
  (count_in T (T + RATE_WINDOW) (concat (snd <$> ws)) ≤ n * max)%nat.
Proof.
  induction ws as [|[r ts] ws IH]; intros hi n Hs Hok Hd Hhi Hn; [apply Nat.le_0_l|].
  destruct Hs as [Hgap Hs]. apply Forall_cons in Hok as [[Hlen Hts] Hok]. simpl in *.
  change (list_fmap _ _ snd ws) with (snd <$> ws). rewrite count_in_app.
  assert (count_in T (T + RATE_WINDOW) (concat (snd <$> ws)) ≤ n * max)%nat as Hskip.
  { apply (IH hi); try done. intros w Hw. apply Hhi. set_solver. }
  destruct (Z.lt_ge_cases (T + RATE_WINDOW) r) as [Hlate|Hin].
  { rewrite count_in_none; [done|]. intros t Ht. specialize (Hts t Ht). lia. }
  destruct (Z.lt_ge_cases r (T - RATE_WINDOW - delay)) as [Hearly|Hin'].
  { rewrite count_in_none; [done|]. intros t Ht. specialize (Hts t Ht). lia. }
  pose proof (Hhi (r, ts) ltac:(set_solver) Hin) as Hr. simpl in Hr.
  destruct n as [|n]; [lia|].
  pose proof (count_in_length T (T + RATE_WINDOW) ts).
  assert (count_in T (T + RATE_WINDOW) (concat (snd <$> ws)) ≤ n * max)%nat; [|lia].
  apply (IH (r - RATE_WINDOW - 1)); try done; [|lia].
  intros w Hw _. rewrite Forall_forall in Hgap. specialize (Hgap w Hw). lia.
Qed.

(** What the times at which calls were let in have to do with the entry: they
    lie in windows, of which the entry has the last. *)
Definition ledger (max : nat) (delay clock : Z) (e : option RateEntry) (acc : list Z) : Prop :=
  ∃ ws, acc = concat (snd <$> ws) ∧ Forall (window_ok max delay) ws ∧ spaced ws
    ∧ match e with
      | None => Forall (λ w, w.1 + RATE_WINDOW + delay < clock) ws
      | Some (mk_rate_entry r c) =>
          r ≤ clock ∧ ∃ ts rest, ws = (r, ts) :: rest ∧ Z.of_nat (length ts) ≤ c
      end.

Lemma ledger_later max delay clock clock' e acc :
  clock ≤ clock' → ledger max delay clock e acc → ledger max delay clock' e acc.
Proof.
  intros Hc (ws & Ha & Hok & Hs & He). exists ws. split_and!; try done.
  destruct e as [[r c]|]; [by destruct He; split; [lia|]|].
  eapply Forall_impl; [exact He|]. intros w ?. simpl in *. lia.
Qed.

(** All windows start no later than the last. *)
Lemma spaced_last w ws : spaced (w :: ws) → Forall (λ w', w'.1 ≤ w.1) (w :: ws).
Proof.
  intros [Hgap _]. constructor; [lia|]. eapply Forall_impl; [exact Hgap|].
  intros w'. unfold RATE_WINDOW, secs. simpl. lia.
Qed.

Section Ledger.
Context (delay : Z) (delay_small : 0 ≤ delay < STALE_AFTER - RATE_WINDOW).

(** Dropping a stale entry forgets nothing a new window could need. *)
Lemma ledger_stale max now clock e acc :
  now ≤ clock → ledger max delay clock (Some e) acc → stale now e →
  ledger max delay clock None acc.
Proof.
  intros Hnow (ws & Ha & Hok & Hs & He) Hst. exists ws. split_and!; try done.
  destruct e as [r c]. destruct He as (_ & ts & rest & -> & _).
  eapply Forall_impl; [by apply spaced_last|]. intros w Hw.
  unfold stale, duration_since, STALE_AFTER, RATE_WINDOW, secs in *. simpl in *. lia.
Qed.

(** A new window, behind the last one or after it was forgotten. *)
Lemma ledger_new_window max now clock e ok acc :
  clock - delay ≤ now ≤ clock → ledger (Z.to_nat max) delay clock e acc → 0 ≤ max →
  (e = None ∨ ∃ e0, e = Some e0 ∧ RATE_WINDOW < duration_since now (last_reset e0)) →
  ok = (1 <=? max) →
  ledger (Z.to_nat max) delay clock (Some (mk_rate_entry now 1))
    (if ok then clock :: acc else acc).
Proof.
  intros Hnow (ws & -> & Hok & Hs & He) Hm Hcase Hacc.
  set (ts := if ok then [clock] else [] : list Z).
  assert (ts = [] ∨ ts = [clock] ∧ 1 ≤ max) as Hts.
  { subst ts. destruct ok; [right|by left]. split; [done|lia]. }
  exists ((now, ts) :: ws). split; [by subst ts; destruct ok|].
  split; [|split].
  - constructor; [|done]. destruct Hts as [->|[-> Hle]].
    + split; simpl; [lia|]. intros t Ht. by apply not_elem_of_nil in Ht.
    + split; simpl; [lia|]. intros t Ht. apply list_elem_of_singleton in Ht as ->.
      unfold RATE_WINDOW, secs in *. lia.
  - split; [|done]. simpl. destruct Hcase as [->|([r c] & -> & Hw)].
    + eapply Forall_impl; [exact He|]. intros w ?. simpl in *. lia.
    + destruct He as (_ & ts' & rest & -> & _).
      eapply Forall_impl; [by apply spaced_last|]. intros w Hle.
      unfold duration_since, RATE_WINDOW, secs in *. simpl in *. lia.
  - split; [lia|]. exists ts, ws. split; [done|]. by destruct Hts as [->|[-> _]].
Qed.

(** A count within a budget that fits is not saturated. *)
Lemma count_within c max :
  saturating_add_u32 c 1 ≤ max → max < u32_max → saturating_add_u32 c 1 = c + 1.
Proof. unfold saturating_add_u32. lia. Qed.

Lemma count_grows c n : n ≤ c → n ≤ u32_max → n ≤ saturating_add_u32 c 1.
Proof. unfold saturating_add_u32. lia. Qed.

Lemma ledger_same_window max now clock r c acc :
  clock - delay ≤ now ≤ clock →
  ledger (Z.to_nat max) delay clock (Some (mk_rate_entry r c)) acc →
  0 ≤ max < u32_max → duration_since now r ≤ RATE_WINDOW →
  ledger (Z.to_nat max) delay clock (Some (mk_rate_entry r (saturating_add_u32 c 1)))
    (if saturating_add_u32 c 1 <=? max then clock :: acc else acc).
Proof.
  intros Hnow (ws & -> & Hok & Hs & Hr & ts & rest & -> & Hlen) Hm Hw.
  apply Forall_cons in Hok as [[Hmax Hts] Hok]. cbn [fst snd] in Hmax, Hts.
  destruct (Z.leb_spec (saturating_add_u32 c 1) max) as [Hle|_].
  - pose proof (count_within c max Hle ltac:(lia)) as Hc.
    exists ((r, clock :: ts) :: rest). split; [done|]. split; [|split; [exact Hs|]].
    + constructor; [|done]. split; cbn [fst snd length]; [lia|].
      unfold duration_since in Hw. intros t [->|Ht]%elem_of_cons; [lia|by auto].
    + split; [done|]. exists (clock :: ts), rest. split; [done|]. cbn [length]. lia.
  - exists ((r, ts) :: rest). split; [done|]. split; [by constructor|]. split; [exact Hs|].
    split; [done|]. exists ts, rest. split; [done|]. apply count_grows; [done|lia].
Qed.

Lemma ledger_own_call max now clock e e' ok acc :
  clock - delay ≤ now ≤ clock → ledger (Z.to_nat max) delay clock e acc → 0 ≤ max < u32_max →
  own_call now max e e' ok →
  ledger (Z.to_nat max) delay clock e' (if ok then clock :: acc else acc).
Proof.
  intros Hnow Hl Hm Ho. inversion Ho; subst.
  - done.
  - eapply ledger_new_window; eauto; lia.
  - eapply ledger_new_window; eauto; lia.
  - destruct e0 as [r c]. by eapply ledger_same_window.
Qed.

(** The steps that are not calls of [who] keep its ledger. *)
Lemma ledger_dropped max now clock rl rl' who acc :
  now ≤ clock → ledger max delay clock (view rl who) acc →
  view rl' who = view rl who ∨ view rl' who = None ∧ (∃ e, view rl who = Some e ∧ stale now e) →
  ledger max delay clock (view rl' who) acc.
Proof.
  intros Hnow Hl [->|[-> (e & He & Hs)]]; [done|]. rewrite He in Hl. by eapply ledger_stale.
Qed.

Lemma rate_step_ok max rl op :
  rl_ok rl → rl_ok (rate_step max rl op).2
             ∧ max_tracked_uids (rate_step max rl op).2 = max_tracked_uids rl.
Proof.
  intros Hok. destruct op as [uid now|now]; [by apply check_rl_ok|]. split; [|done].
  destruct Hok as [Hp Hsz]. unfold rl_ok, rate_step, cleanup_stale, lock. simpl. rewrite Hp.
  split; [done|]. simpl. pose proof (size_cleanup_stale_locked (guarded (limits rl)) now). lia.
Qed.

Lemma rate_run_ledger max who ops : 0 ≤ max < u32_max →
  ∀ clock rl acc, rl_ok rl → timely delay clock ops →
  ledger (Z.to_nat max) delay clock (view rl who) acc →
  ∃ clock', ledger (Z.to_nat max) delay clock' (view (rate_run max who rl ops acc).2 who)
              (rate_run max who rl ops acc).1.
Proof.
  intros Hm. induction ops as [|[at_ op] ops IH]; intros clock rl acc Hok Hmono Hl;
    [by exists clock|].
  destruct Hmono as (Hle & Hnow & Hmono). apply (ledger_later _ _ _ _ _ _ Hle) in Hl.
  pose proof (rate_step_ok max rl op Hok) as [Hok' _].
  simpl. destruct op as [uid now|now]; simpl in *.
  - pose proof (view_check_other rl uid who max now Hok) as Hother.
    destruct (check rl uid max now) as [ok rl'] eqn:Hc. simpl in *.
    apply (IH at_); [done|done|]. case_bool_decide as Hu; simpl.
    + subst uid. apply view_check_self in Hc; [|done]. by eapply ledger_own_call.
    + by apply (ledger_dropped _ now _ rl); [lia| |apply Hother].
  - apply (IH at_); [done|done|]. apply (ledger_dropped _ now _ rl); [lia|done|].
    by apply view_sweep.
Qed.
End Ledger.

Lemma rate_run_ok max who ops rl ts :
  rl_ok rl → rl_ok (rate_run max who rl ops ts).2
    ∧ max_tracked_uids (rate_run max who rl ops ts).2 = max_tracked_uids rl.
Proof.
  revert rl ts. induction ops as [|[at_ op] ops IH]; intros rl ts Hok; [done|].
  simpl. pose proof (rate_step_ok max rl op Hok) as [Hok' Hmx].
  destruct (rate_step max rl op) as [ok rl']. simpl in *.
  destruct (IH rl' (match op with
    | OpCheck uid _ => if bool_decide (uid = who) && ok then at_ :: ts else ts
    | OpSweep _ => ts end) Hok') as [? ?]. split; [done|congruence].
Qed.

Lemma check_entry_answer l uid max now :
  (check_entry l uid max now).1 =
    match l !! uid with
    | Some e =>
        if decide (RATE_WINDOW < duration_since now (last_reset e)) then 1 <=? max
        else saturating_add_u32 (count e) 1 <=? max
    | None => 1 <=? max
    end.
Proof.
  pose proof (check_entry_own l uid max now) as Ho.
  assert ((check_entry l uid max now).2 !! uid ≠ None) as Hne
    by (unfold check_entry; simpl; by rewrite lookup_insert_eq).
  destruct (check_entry l uid max now) as [ok l']. simpl in *.
  destruct (l !! uid) as [e|]; inversion Ho; subst; try case_decide; try done; try lia;
    congruence.
Qed.

(** ** The properties of the rate limiter *)

(** C28: whatever calls of whatever uids and whatever sweeps happen, in the
    order in which they take the lock.  Both read the clock before they lock;
    let nobody be held up in between for more than [k] seconds, with [k] at
    most 58.  Then the number of calls of one uid that are let in during any
    one-second interval is at most [k + 2] times the configured budget, so
    at most twice the budget (two adjacent windows) where readings and locks
    coincide and at most three times where nobody waits longer than a
    second; and the table never tracks more uids than its cap. *)
Theorem rate_limit_bound max who ops clock k T :
  0 ≤ max < u32_max → (k ≤ 58)%nat → timely (Z.of_nat k * RATE_WINDOW) clock ops →
  let '(accepted, rl) := rate_run max who rate_limiter_new ops [] in
  (count_in T (T + RATE_WINDOW) accepted ≤ (k + 2) * Z.to_nat max)%nat
  ∧ (size (guarded (limits rl)) ≤ MAX_TRACKED_UIDS)%nat.
Proof.
  intros Hm Hk Hmono. set (delay := Z.of_nat k * RATE_WINDOW) in *.
  assert (0 ≤ delay < STALE_AFTER - RATE_WINDOW) as Hd
    by (subst delay; unfold STALE_AFTER, RATE_WINDOW, secs; lia).
  assert (rl_ok rate_limiter_new) as Hok by (split; [done|apply Nat.le_0_l]).
  pose proof (rate_run_ok max who ops rate_limiter_new [] Hok) as [[_ Hsz] Hmx].
  destruct (rate_run_ledger delay Hd max who ops Hm clock rate_limiter_new [] Hok Hmono)
    as [c (ws & Ha & Hws & Hs & _)].
  { exists []. split; [done|]. split; [apply Forall_nil_2|]. split; [exact I|]. apply Forall_nil_2. }
  destruct (rate_run max who rate_limiter_new ops []) as [acc rl]. simpl in *. subst acc.
  split; [|by rewrite Hmx in Hsz].
  apply (windows_count _ delay T ws (T + RATE_WINDOW)); try done; [lia|].
  subst delay. unfold RATE_WINDOW, secs. lia.
Qed.

(** Calls around the end of the first window with a budget of two; one of them
    has an old reading. *)
Definition sample_rate_ops : list TimedOp :=
  [ (secs 10, OpCheck 1000 (secs 10)); (secs 11, OpCheck 1000 (secs 11));
    (secs 11, OpCheck 1000 (secs 11)); (secs 11, OpCheck 1001 (secs 11));
    (secs 11, OpSweep (secs 11)); (secs 11 + 5, OpCheck 1000 (secs 11 + 1));
    (secs 12, OpCheck 1000 (secs 12)); (secs 12, OpCheck 1000 (secs 12)) ].

Lemma rate_limit_bound_witness :
  (count_in (secs 11) (secs 11 + RATE_WINDOW)
     (rate_run 2 1000 rate_limiter_new sample_rate_ops []).1 ≤ (1 + 2) * Z.to_nat 2)%nat
  ∧ (size (guarded (limits (rate_run 2 1000 rate_limiter_new sample_rate_ops []).2))
     ≤ MAX_TRACKED_UIDS)%nat.
Proof.
  pose proof (rate_limit_bound 2 1000 sample_rate_ops 0 1 (secs 11)) as H.
  destruct (rate_run 2 1000 rate_limiter_new sample_rate_ops []) as [acc rl].
  apply H; [unfold u32_max; lia|lia|]. unfold sample_rate_ops, RATE_WINDOW, secs.
  simpl. repeat split; lia.
Defined.

(** Of the calls in [[11 s, 12 s]] the budget refuses two. *)
Example sample_rate_accepted :
  (rate_run 2 1000 rate_limiter_new sample_rate_ops []).1
  = [secs 12; secs 11 + 5; secs 11; secs 10].
Proof. vm_compute. reflexivity. Qed.

(** Callers that are held up can get past twice the budget: with a budget of
    two, five calls within a second. *)
Example delayed_calls_exceed_two_windows :
  let ms := 1000000 in
  let ops := [ (secs 10, OpCheck 1000 (secs 10));
               (secs 11 + 900 * ms, OpCheck 1000 (secs 11));
               (secs 11 + 910 * ms, OpCheck 1000 (secs 11 + ms));
               (secs 11 + 920 * ms, OpCheck 1000 (secs 11 + 900 * ms));
               (secs 12 + 2 * ms, OpCheck 1000 (secs 12 + 2 * ms));
               (secs 12 + 3 * ms, OpCheck 1000 (secs 12 + 3 * ms)) ] in
  count_in (secs 11 + 900 * ms) (secs 12 + 900 * ms)
    (rate_run 2 1000 rate_limiter_new ops []).1 = 5%nat.
Proof. vm_compute. reflexivity. Qed.

(** The limiter starves nobody within its budget: a uid is let in
    exactly when the calls counted in its current window, this one included,
    are within the budget, starting a new window when the last one is over;
    only a uid without a slot can be turned away for want of one, and then
    every slot belongs to a window younger than a minute. *)
Theorem rate_limit_progress rl uid max now :
  rl_ok rl →
  (check rl uid max now).1 =
    match view rl uid with
    | Some e =>
        if decide (RATE_WINDOW < duration_since now (last_reset e)) then 1 <=? max
        else saturating_add_u32 (count e) 1 <=? max
    | None =>
        bool_decide (size (cleanup_stale_locked (guarded (limits rl)) now)
                     < max_tracked_uids rl ∨ size (guarded (limits rl)) < max_tracked_uids rl)%nat
        && (1 <=? max)
    end.
Proof.
  intros [Hp _]. unfold check, view, lock. rewrite Hp.
  pose proof (check_entry_answer (guarded (limits rl)) uid max now) as H1.
  pose proof (check_entry_answer (cleanup_stale_locked (guarded (limits rl)) now) uid max now)
    as H2.
  rewrite lookup_cleanup_stale_locked in H2.
  destruct (check_entry (guarded (limits rl)) uid max now) as [ok1 l1].
  destruct (check_entry (cleanup_stale_locked (guarded (limits rl)) now) uid max now)
    as [ok2 l2].
  destruct (guarded (limits rl) !! uid) as [e|] eqn:Hv; simpl in *.
  - done.
  - repeat case_bool_decide; simpl; try done; try lia; tauto.
Qed.

Lemma rate_limit_progress_witness :
  (check (rate_run 2 1000 rate_limiter_new sample_rate_ops []).2 1000 2 (secs 14)).1 = true.
Proof.
  rewrite (rate_limit_progress (rate_run 2 1000 rate_limiter_new sample_rate_ops []).2
             1000 2 (secs 14)).
  - vm_compute. reflexivity.
  - split; [reflexivity|vm_compute; lia].
Defined.
