(* ===== verification/Allowlist.v ===== *)
(** * The uids that may talk to the daemon: [crates/ola-core/src/security/allowlist.rs]

    The set is mutated in place while the file is read, so an error in the
    middle of a strict load leaves the uids read so far in it; the loader is
    therefore modelled as a function to a result and the state it leaves. *)

From S2P Require Import Prelude RustStd SecureFs.
Open Scope Z_scope.

Definition MAX_ALLOWLIST_BYTES : Z := 1024 * 1024.

(** [Allowlist]: the set [allowed_uids]. *)
Record Allowlist := mk_allowlist { allowed_uids : gset Z }.

Definition allowlist_new : Allowlist := mk_allowlist ∅.

Inductive AllowlistError : Type :=
| AllowlistFile (e : FsError)
| InvalidUidOnLine (line : nat).

Definition allowlist_spec (owner : OwnerPolicy) : SecureFileSpec :=
  mk_spec "Allowlist file" (SizeMax MAX_ALLOWLIST_BYTES) (ModeExact [384; 416]) owner.

Definition comment_char : byte := "#".

(** [line.split('#').next().unwrap_or("").trim()] *)
Definition line_body (line : string) : string :=
  trim (str_of (take_until comment_char (bytes_of line))).

(** The loop over [content.lines().enumerate()], at index [i]. *)
Fixpoint load_lines (strict : bool) (i : nat) (ls : list string) (uids : gset Z)
  : result unit AllowlistError * gset Z :=
  match ls with
  | [] => (Ok tt, uids)
  | line :: ls =>
      let line := line_body line in
      if bool_decide (line = EmptyString) then load_lines strict (S i) ls uids
      else match parse_u32 line with
           | Some uid => load_lines strict (S i) ls ({[uid]} ∪ uids)
           | None =>
               if strict then (Err (InvalidUidOnLine (i + 1)), uids)
               else load_lines strict (S i) ls uids
           end
  end.

Definition load_from_file_with_options (fs : Fs) (current_uid : Z) (a : Allowlist)
    (path : string) (strict : bool) (owner : OwnerPolicy)
  : result unit AllowlistError * Allowlist :=
  match read_secure_to_string fs current_uid path (allowlist_spec owner) with
  | Err e => (Err (AllowlistFile e), a)
  | Ok content =>
      let '(r, uids) := load_lines strict 0 (lines content) ∅ in
      (r, mk_allowlist uids)
  end.

(** [is_allowed]; [getuid] is the daemon's own uid. *)
Definition is_allowed (getuid : Z) (a : Allowlist) (uid : Z) : bool :=
  if uid =? 0 then true
  else if uid =? getuid then true
  else bool_decide (uid ∈ allowed_uids a).

Lemma is_allowed_listed getuid a uid :
  is_allowed getuid a uid = true → uid = 0 ∨ uid = getuid ∨ uid ∈ allowed_uids a.
Proof.
  unfold is_allowed. intros H. destruct (Z.eqb_spec uid 0); [by left|].
  destruct (Z.eqb_spec uid getuid); [by auto|]. apply bool_decide_eq_true in H. auto.
Qed.

(** ** Specification *)

(** What one line of the file says. *)
Inductive Line : Type := Blank | Uid (uid : Z) | Malformed.

Definition classify (line : string) : Line :=
  if bool_decide (line_body line = EmptyString) then Blank
  else match parse_u32 (line_body line) with Some uid => Uid uid | None => Malformed end.

#[global] Instance Line_eq_dec : EqDecision Line.
Proof. solve_decision. Defined.

Definition listed (ls : list string) (uid : Z) : Prop := ∃ l, l ∈ ls ∧ classify l = Uid uid.

(** The index of the first malformed line. *)
Definition first_malformed (ls : list string) : option nat :=
  fst <$> list_find (λ l, classify l = Malformed) ls.

(** ** Lemmas *)

Lemma listed_cons l ls uid : listed (l :: ls) uid ↔ classify l = Uid uid ∨ listed ls uid.
Proof.
  unfold listed. setoid_rewrite elem_of_cons. split.
  - intros (k & [->|Hk] & Hc); eauto.
  - intros [Hc|(k & Hk & Hc)]; eauto.
Qed.

Lemma load_lines_unfold strict i l ls uids :
  load_lines strict i (l :: ls) uids =
  match classify l with
  | Blank => load_lines strict (S i) ls uids
  | Uid uid => load_lines strict (S i) ls ({[uid]} ∪ uids)
  | Malformed => if strict then (Err (InvalidUidOnLine (i + 1)), uids)
                 else load_lines strict (S i) ls uids
  end.
Proof.
  unfold classify. simpl. case_bool_decide; [done|]. by destruct (parse_u32 (line_body l)).
Qed.

#[local] Arguments load_lines : simpl never.

Lemma load_lines_lax i ls uids :
  (load_lines false i ls uids).1 = Ok tt
  ∧ ∀ uid, uid ∈ (load_lines false i ls uids).2 ↔ uid ∈ uids ∨ listed ls uid.
Proof.
  revert i uids. induction ls as [|l ls IH]; intros i uids.
  { split; [done|]. intros uid. change (load_lines false i [] uids).2 with uids.
    unfold listed. set_solver. }
  rewrite load_lines_unfold. setoid_rewrite listed_cons.
  destruct (classify l) as [|u|] eqn:Hc.
  - destruct (IH (S i) uids) as [H1 H2]. split; [done|]. intros uid. rewrite H2. naive_solver.
  - destruct (IH (S i) ({[u]} ∪ uids)) as [H1 H2]. split; [done|]. intros uid. rewrite H2.
    rewrite elem_of_union, elem_of_singleton. naive_solver.
  - destruct (IH (S i) uids) as [H1 H2]. split; [done|]. intros uid. rewrite H2. naive_solver.
Qed.

(** A strict load is a lax load of the lines before the first malformed one. *)
Lemma load_lines_strict i ls uids :
  load_lines true i ls uids =
  match first_malformed ls with
  | None => load_lines false i ls uids
  | Some k => (Err (InvalidUidOnLine (i + k + 1)), (load_lines false i (take k ls) uids).2)
  end.
Proof.
  unfold first_malformed. revert i uids. induction ls as [|l ls IH]; intros i uids; [done|].
  rewrite !load_lines_unfold. simpl. destruct (decide (classify l = Malformed)) as [Hm|Hm].
  - rewrite Hm. simpl. by rewrite Nat.add_0_r.
  - assert (∀ us, load_lines true (S i) ls us =
      match (prod_map S id <$> list_find (λ l, classify l = Malformed) ls) with
      | None => load_lines false (S i) ls us
      | Some (k, _) => (Err (InvalidUidOnLine (i + k + 1)),
                        (load_lines false (S i) (take (k - 1) ls) us).2)
      end) as Hrec.
    { intros us. rewrite IH. destruct (list_find _ ls) as [[k ?]|]; simpl; [|done].
      rewrite Nat.sub_0_r. repeat f_equal. lia. }
    destruct (classify l) as [|u|] eqn:Hc; [..|done]; rewrite Hrec;
      destruct (list_find _ ls) as [[k ?]|]; simpl; try done;
      rewrite load_lines_unfold, Hc, Nat.sub_0_r; done.
Qed.

(** A line that holds a decimal number, and nothing else, is that uid. *)
Lemma digit_not_comment b : is_ascii_digit b = true → b ≠ comment_char ∧ b ≠ nl ∧ b ≠ cr
  ∧ plain b = true.
Proof.
  unfold is_ascii_digit, in_range, plain, ws1, in_range. intros H.
  assert (bv comment_char = 35) by reflexivity. assert (bv nl = 10) by reflexivity.
  assert (bv cr = 13) by reflexivity.
  repeat split; [intros ->; lia..|]. lia.
Qed.

Lemma classify_display uid : is_u32 uid → classify (display_uint uid) = Uid uid.
Proof.
  intros Hu. unfold is_u32, u32_max in Hu.
  pose proof (display_bytes_digits uid ltac:(lia)) as Hd.
  assert (line_body (display_uint uid) = display_uint uid) as Hb.
  { unfold line_body, display_uint. rewrite bytes_of_str_of, take_until_none.
    - apply trim_plain. rewrite bytes_of_str_of. eapply Forall_impl; [exact Hd|].
      intros b Hb. by apply digit_not_comment in Hb as (_ & _ & _ & ?).
    - eapply Forall_impl; [exact Hd|]. intros b Hb. by apply digit_not_comment in Hb as [? _]. }
  assert (parse_u32 (display_uint uid) = Some uid) as Hp
    by (apply parse_display; unfold u32_max, u64_max; lia).
  unfold classify. rewrite Hb, Hp. rewrite bool_decide_eq_false_2; [done|].
  intros E. by rewrite E in Hp.
Qed.

(** The file with one uid on each line. *)
Definition render (uids : list Z) : string :=
  str_of (concat ((λ u, display_bytes u ++ [nl]) <$> uids)).

Lemma strip_cr_none p : Forall (λ b, b ≠ cr) p → strip_cr p = p.
Proof.
  intros H. unfold strip_cr. destruct (rev p) as [|b r] eqn:E; [done|].
  rewrite bool_decide_eq_false_2; [done|]. apply Forall_rev in H. rewrite E in H.
  by apply Forall_cons in H as [? _].
Qed.

Lemma lines_piece p bs :
  Forall (λ b, b ≠ nl ∧ b ≠ cr) p → lines (str_of (p ++ nl :: bs)) = str_of p :: lines (str_of bs).
Proof.
  intros H. unfold lines. rewrite !bytes_of_str_of, split_on_piece
    by (eapply Forall_impl; [exact H|]; by intros ? [? _]).
  pose proof (split_on_nonempty nl bs). destruct (split_on nl bs) as [|q qs]; [done|].
  simpl. rewrite strip_cr_none; [done|]. eapply Forall_impl; [exact H|]. by intros ? [_ ?].
Qed.

Lemma lines_render uids :
  Forall is_u32 uids → lines (render uids) = display_uint <$> uids.
Proof.
  induction 1 as [|u uids Hu _ IH]; [done|].
  unfold render. rewrite fmap_cons, concat_cons, <-app_assoc.
  change ([nl] ++ ?x) with (nl :: x). rewrite lines_piece.
  - rewrite fmap_cons. f_equal. apply IH.
  - unfold is_u32 in Hu. eapply Forall_impl; [apply display_bytes_digits; lia|].
    intros b Hb. apply digit_not_comment in Hb. tauto.
Qed.

(** ** The properties of the allowlist *)

(** Loading the allowlist.  When the file cannot be read under its
    hardened specification nothing changes and the error is returned.
    Otherwise the old entries are gone.  A lax load holds exactly the uids
    of the well-formed lines.  A strict load that succeeds saw no malformed
    line and holds the same set; one that fails names the first malformed
    line and holds the uids of the lines before it. *)
Theorem allowlist_load_spec fs me a path strict owner :
  let '(r, a') := load_from_file_with_options fs me a path strict owner in
  match read_secure_to_string fs me path (allowlist_spec owner) with
  | Err e => r = Err (AllowlistFile e) ∧ a' = a
  | Ok content =>
      match first_malformed (lines content) with
      | Some k =>
          if strict then r = Err (InvalidUidOnLine (k + 1))
            ∧ ∀ uid, uid ∈ allowed_uids a' ↔ listed (take k (lines content)) uid
          else r = Ok tt ∧ ∀ uid, uid ∈ allowed_uids a' ↔ listed (lines content) uid
      | None => r = Ok tt ∧ ∀ uid, uid ∈ allowed_uids a' ↔ listed (lines content) uid
      end
  end.
Proof.
  unfold load_from_file_with_options.
  destruct (read_secure_to_string fs me path (allowlist_spec owner)) as [content|e]; [|done].
  assert (∀ ls, (load_lines false 0 ls ∅).1 = Ok tt
    ∧ ∀ uid, uid ∈ (load_lines false 0 ls ∅).2 ↔ listed ls uid) as Hlax.
  { intros ls. destruct (load_lines_lax 0 ls ∅) as [H1 H2]. split; [done|].
    intros uid. rewrite H2. set_solver. }
  destruct strict.
  - rewrite load_lines_strict. destruct (first_malformed (lines content)) as [k|].
    + simpl. split; [done|]. apply Hlax.
    + pose proof (Hlax (lines content)) as [H1 H2]. by destruct (load_lines false 0 _ ∅).
  - pose proof (Hlax (lines content)) as [H1 H2].
    destruct (load_lines false 0 (lines content) ∅) as [r uids]. simpl in *.
    by destruct (first_malformed (lines content)).
Qed.

(** A file that lists uids one per line loads, in either mode, to
    exactly that set, whatever the allowlist held before; and then a caller
    passes if and only if it is root, the daemon's own user or listed. *)
Theorem allowlist_roundtrip fs me a path strict owner uids :
  Forall is_u32 uids →
  read_secure_to_string fs me path (allowlist_spec owner) = Ok (render uids) →
  let '(r, a') := load_from_file_with_options fs me a path strict owner in
  r = Ok tt ∧ allowed_uids a' = list_to_set uids
  ∧ ∀ uid, is_allowed me a' uid = true ↔ uid = 0 ∨ uid = me ∨ uid ∈ uids.
Proof.
  intros Hu Hread. unfold load_from_file_with_options. rewrite Hread, lines_render by done.
  assert (∀ b, load_lines b 0 (display_uint <$> uids) ∅
    = load_lines false 0 (display_uint <$> uids) ∅) as Hb.
  { intros []; [|done]. rewrite load_lines_strict. unfold first_malformed.
    destruct (list_find _ _) as [[k l]|] eqn:Hf; [|done]. simpl.
    apply list_find_Some in Hf as (Hl & Hm & _).
    apply list_lookup_fmap_Some in Hl as (u & -> & Hk).
    rewrite classify_display in Hm; [done|]. by eapply Forall_lookup_1. }
  rewrite Hb. destruct (load_lines_lax 0 (display_uint <$> uids) ∅) as [H1 H2].
  destruct (load_lines false 0 (display_uint <$> uids) ∅) as [r set]. simpl in *.
  assert (set = list_to_set uids) as ->.
  { apply leibniz_equiv. intros uid. rewrite H2, elem_of_list_to_set. unfold listed. split.
    - intros [|(l & Hl & Hc)]; [set_solver|]. apply list_elem_of_fmap in Hl as (u & -> & Hin).
      rewrite classify_display in Hc by (by eapply Forall_forall in Hu). by simplify_eq.
    - intros Hin. right. exists (display_uint uid). split; [by apply list_elem_of_fmap_2|].
      apply classify_display. by eapply Forall_forall in Hu. }
  split; [done|]. split; [done|]. intros uid. unfold is_allowed. simpl.
  destruct (Z.eqb_spec uid 0); [tauto|]. destruct (Z.eqb_spec uid me); [tauto|].
  rewrite bool_decide_eq_true, elem_of_list_to_set. tauto.
Qed.

Lemma allowlist_roundtrip_witness :
  let '(r, a') := load_from_file_with_options
                    (sample_fs 416 0 (bytes_of (render [1000; 4294967295]))) 990
                    (mk_allowlist {[1]}) "/etc/ola/allowlist" true (RootOrUid 990) in
  r = Ok tt ∧ allowed_uids a' = list_to_set [1000; 4294967295]
  ∧ ∀ uid, is_allowed 990 a' uid = true ↔ uid = 0 ∨ uid = 990 ∨ uid ∈ [1000; 4294967295].
Proof.
  apply (allowlist_roundtrip (sample_fs 416 0 (bytes_of (render [1000; 4294967295]))) 990
           (mk_allowlist {[1]}) "/etc/ola/allowlist" true (RootOrUid 990) [1000; 4294967295]).
  - repeat constructor; unfold u32_max; lia.
  - vm_compute. reflexivity.
Defined.

(** Comments, blank and malformed lines. *)
Example sample_allowlist_lines :
  classify <$> ["1000 # Alice"; " # only a comment"; "+7"; "99999999999"; "-1"]
  = [Uid 1000; Blank; Uid 7; Malformed; Malformed].
Proof. vm_compute. reflexivity. Qed.
