(* ===== verification/Attestation.v ===== *)
(** * Adapter attestation: [crates/ola-core/src/security/attestation/verifier.rs]

    HMAC-SHA256, SHA-256 and the constant-time comparison come from the
    crates [hmac], [sha2] and [subtle]; they are the class [Crypto], with
    their documented behaviour as [CryptoLaws]. *)

From S2P Require Import Prelude RustStd Types SecureFs.
Open Scope Z_scope.

(** ** The cryptographic primitives *)

Class Crypto := {
  sha256 : list byte → list byte;
  (** [mac.update] of each piece in turn and [finalize] is the MAC of their
      concatenation *)
  hmac_sha256 : list byte → list byte → list byte;
  (** [a.ct_eq(b).unwrap_u8()] *)
  ct_eq : list byte → list byte → Z
}.

(** Digests are 32 bytes; the comparison of equal slices is 1, of others 0. *)
Class CryptoLaws (C : Crypto) : Prop := {
  sha256_length : ∀ m, length (sha256 m) = 32%nat;
  hmac_length : ∀ k m, length (hmac_sha256 k m) = 32%nat;
  ct_eq_spec : ∀ a b, ct_eq a b = if bool_decide (a = b) then 1 else 0
}.

(** Two different inputs with the same digest. *)
Definition sha256_collision `{Crypto} : Prop := ∃ a b, a ≠ b ∧ sha256 a = sha256 b.
Definition hmac_collision `{Crypto} (k : list byte) : Prop :=
  ∃ a b, a ≠ b ∧ hmac_sha256 k a = hmac_sha256 k b.

(** ** The verifier *)

Inductive AttestationError : Type :=
| UnknownAdapter
| HashMismatch.

#[global] Instance AttestationError_eq_dec : EqDecision AttestationError.
Proof. solve_decision. Defined.

Record AttestationVerifier := mk_verifier { adapter_keys : gmap string (list byte) }.

Section Verify.
Context `{C : Crypto}.

Definition method_commitment (m : AuthMethod) : list byte := sha256 (bytes_of (as_str m)).

(** What the MAC commits to. *)
Definition mac_input (r : VerificationResult) : list byte :=
  res_nonce r ++ le_bytes 4 (res_uid r) ++ method_commitment (res_method r)
  ++ le_bytes 4 (res_confidence r) ++ le_bytes 8 (res_timestamp_ms r).

Definition verify (v : AttestationVerifier) (adapter_name : string)
    (result : VerificationResult) : Prelude.result unit AttestationError :=
  let? key := ok_or UnknownAdapter (adapter_keys v !! adapter_name) in
  let expected := hmac_sha256 key (mac_input result) in
  if negb (ct_eq expected (res_evidence_hash result) =? 1) then Err HashMismatch
  else Ok tt.
End Verify.

(** ** Loading the keys *)

Inductive KeyError : Type :=
| KeyDirUnreadable
| KeyDirEntry
| InvalidKeyFilename (path : string)
| KeyFile (e : FsError)
| MissingKeys (names : list string).

Definition key_spec (owner : OwnerPolicy) : SecureFileSpec :=
  mk_spec "adapter key" (SizeExact 32) (ModeExact [384]) owner.

Definition load_key_file_with_owner (fs : Fs) (current_uid : Z) (path : string)
    (owner : OwnerPolicy) : result (list byte) FsError :=
  read_secure_exact 32 fs current_uid path (key_spec owner).

(** One entry of [read_dir]: its file name and [path.is_file()]. *)
Record DirEntry := mk_entry { de_name : list byte; de_is_file : bool }.

Definition dot : byte := "."%char.

(** [Path::file_stem] and [Path::extension] of a file name: split at the last
    dot, unless the name starts with its only dot.  ([read_dir] never yields
    [..].) *)
Definition rsplit_dot (name : list byte) : list byte * option (list byte) :=
  let ext := rev (take_until dot (rev name)) in
  let n := (length name - length ext)%nat in
  if bool_decide (n ≤ 1)%nat then (name, None)
  else (take (n - 1) name, Some ext).

Definition file_stem (name : list byte) : list byte := (rsplit_dot name).1.
Definition extension (name : list byte) : option (list byte) := (rsplit_dot name).2.

(** [entry.path()]: the directory joined with the file name. *)
Definition entry_path (dir : string) (name : list byte) : string :=
  let d := bytes_of dir in
  let slash : byte := "/"%char in
  str_of (d ++ (if bool_decide (last d = Some slash ∨ d = []) then [] else [slash]) ++ name).

Fixpoint load_keys (fs : Fs) (current_uid : Z) (dir : string) (owner : OwnerPolicy)
    (entries : list (option DirEntry)) (keys : gmap string (list byte))
  : result (gmap string (list byte)) KeyError :=
  match entries with
  | [] => Ok keys
  | entry :: entries =>
      let? entry := ok_or KeyDirEntry entry in
      let path := entry_path dir (de_name entry) in
      if negb (de_is_file entry)
         || bool_decide (extension (de_name entry) ≠ Some (bytes_of "key"))
      then load_keys fs current_uid dir owner entries keys
      else
      let? name := ok_or (InvalidKeyFilename path)
                     (if utf8_valid (file_stem (de_name entry))
                      then Some (str_of (file_stem (de_name entry))) else None) in
      let? key := map_err KeyFile (load_key_file_with_owner fs current_uid path owner) in
      load_keys fs current_uid dir owner entries (<[name := key]> keys)
  end.

(** [is_dir] is [dir.exists() && dir.is_dir()]; [listing] what [read_dir]
    yields. *)
Definition load_from_dir_with_owner (fs : Fs) (current_uid : Z) (dir : string)
    (is_dir : bool) (listing : option (list (option DirEntry))) (owner : OwnerPolicy)
  : result AttestationVerifier KeyError :=
  if negb is_dir then Ok (mk_verifier ∅)
  else
  let? entries := ok_or KeyDirUnreadable listing in
  let? keys := load_keys fs current_uid dir owner entries ∅ in
  Ok (mk_verifier keys).

Definition require_keys_for_adapters (v : AttestationVerifier) (adapter_names : list string)
  : result unit KeyError :=
  let missing := List.filter (λ name, negb (bool_decide (is_Some (adapter_keys v !! name))))
                   adapter_names in
  if bool_decide (missing ≠ []) then Err (MissingKeys missing) else Ok tt.

(** ** Lemmas *)

Lemma app_inj_length {A} (a b c d : list A) :
  length a = length c → a ++ b = c ++ d → a = c ∧ b = d.
Proof. intros Hl E. by apply app_inj_1. Qed.

Section Commit.
Context {C : Crypto} {CL : CryptoLaws C}.

Lemma attest_verify_Ok v name r :
  verify v name r = Ok tt
  ↔ ∃ key, adapter_keys v !! name = Some key
           ∧ res_evidence_hash r = hmac_sha256 key (mac_input r).
Proof.
  unfold verify, ok_or. destruct (adapter_keys v !! name) as [key|]; [|naive_solver].
  rewrite ct_eq_spec. case_bool_decide; simpl; naive_solver.
Qed.

(** The MAC input determines the fields, up to the method's digest. *)
Lemma mac_input_inj r1 r2 :
  wf_result r1 → wf_result r2 → mac_input r1 = mac_input r2 →
  res_nonce r1 = res_nonce r2 ∧ res_uid r1 = res_uid r2
  ∧ method_commitment (res_method r1) = method_commitment (res_method r2)
  ∧ res_confidence r1 = res_confidence r2 ∧ res_timestamp_ms r1 = res_timestamp_ms r2.
Proof.
  unfold wf_result, is_u32, is_u64, u32_max, u64_max, mac_input.
  intros (_ & _ & Hc1 & Ht1 & Hu1 & Hn1 & _) (_ & _ & Hc2 & Ht2 & Hu2 & Hn2 & _) E.
  apply app_inj_length in E as [-> E]; [|congruence].
  apply app_inj_length in E as [Eu E]; [|by rewrite !length_le_bytes].
  apply app_inj_length in E as [Em E]; [|unfold method_commitment; by rewrite !sha256_length].
  apply app_inj_length in E as [Ec Et]; [|by rewrite !length_le_bytes].
  apply le_bytes_inj in Eu, Ec, Et; simpl; lia || done.
Qed.
End Commit.

Lemma rsplit_dot_Some name stem ext :
  rsplit_dot name = (stem, Some ext) ↔
  name = stem ++ dot :: ext ∧ stem ≠ [] ∧ Forall (λ x, x ≠ dot) ext.
Proof.
  unfold rsplit_dot. split.
  - case_bool_decide as Hn; [done|]. intros [= <- <-].
    destruct (take_until_split dot (rev name)) as [E|[r E]].
    { rewrite E, rev_involutive in Hn. lia. }
    assert (name = rev r ++ dot :: rev (take_until dot (rev name))) as En.
    { rewrite <-(rev_involutive name) at 1. rewrite E at 1. rewrite rev_app_distr. simpl.
      by rewrite <-app_assoc. }
    set (t := rev (take_until dot (rev name))) in *.
    assert (length name = S (length (rev r) + length t)) as El
      by (rewrite En at 1; rewrite length_app; simpl; lia).
    rewrite El in *. replace (S (length (rev r) + length t) - length t - 1)%nat
      with (length (rev r)) by lia.
    assert (take (length (rev r)) name = rev r) as Et
      by (rewrite En; by rewrite take_app_length).
    rewrite Et. split; [done|].
    split; [|apply Forall_rev, take_until_Forall].
    intros Er. rewrite Er in Hn. simpl in Hn. lia.
  - intros (-> & Hs & He). rewrite rev_app_distr. simpl. rewrite <-app_assoc. simpl.
    rewrite take_until_app by (by apply Forall_rev).
    rewrite rev_involutive, length_app. simpl.
    replace (length stem + S (length ext) - length ext)%nat with (S (length stem)) by lia.
    destruct stem as [|s stem]; [done|]. simpl.
    by rewrite take_app_length.
Qed.

Definition dot_key : list byte := bytes_of ".key".

Lemma extension_key name stem :
  extension name = Some (bytes_of "key") ∧ file_stem name = stem
  ↔ name = stem ++ dot_key ∧ stem ≠ [].
Proof.
  unfold extension, file_stem. destruct (rsplit_dot name) as [s e] eqn:E. simpl. split.
  - intros [-> <-]. apply rsplit_dot_Some in E as (-> & Hs & _). done.
  - intros [-> Hs].
    assert (rsplit_dot (stem ++ dot_key) = (stem, Some (bytes_of "key"))) as E'.
    { apply rsplit_dot_Some. repeat split; [done|]. repeat constructor; done. }
    rewrite E in E'. by simplify_eq.
Qed.

(** An entry that holds the key of an adapter. *)
Definition key_entry (name : string) (e : DirEntry) : Prop :=
  de_is_file e = true ∧ de_name e = bytes_of name ++ dot_key
  ∧ name ≠ EmptyString ∧ utf8_valid (bytes_of name) = true.

Lemma bytes_of_nil name : bytes_of name = [] ↔ name = EmptyString.
Proof. by destruct name. Qed.

#[global] Instance key_entry_dec name e : Decision (key_entry name e).
Proof. unfold key_entry. apply _. Defined.

(** An entry that is no key of [name] does not matter. *)
Lemma key_entries_skip name e entries (F : DirEntry → Prop) (G : Prop) :
  ¬ key_entry name e →
  (∃ e', Some e' ∈ Some e :: entries ∧ key_entry name e' ∧ F e')
    ∨ G ∧ (∀ e', Some e' ∈ Some e :: entries → ¬ key_entry name e')
  ↔ (∃ e', Some e' ∈ entries ∧ key_entry name e' ∧ F e')
    ∨ G ∧ (∀ e', Some e' ∈ entries → ¬ key_entry name e').
Proof.
  intros Hn. setoid_rewrite elem_of_cons. split.
  - intros [(e' & [[= ->]|Hin] & Hk & HF)|[HG Hno]]; [done|left; eauto|right; eauto].
  - intros [(e' & Hin & Hk & HF)|[HG Hno]]; [left; eauto|]. right. split; [done|].
    intros e' [[= ->]|Hin]; eauto.
Qed.

Lemma load_keys_spec fs me dir owner entries keys keys' :
  load_keys fs me dir owner entries keys = Ok keys' →
  ∀ name key,
    keys' !! name = Some key ↔
    (∃ e, Some e ∈ entries ∧ key_entry name e
          ∧ load_key_file_with_owner fs me (entry_path dir (de_name e)) owner = Ok key)
    ∨ keys !! name = Some key ∧ ∀ e, Some e ∈ entries → ¬ key_entry name e.
Proof.
  revert keys. induction entries as [|entry entries IH]; intros keys Hl name key; simpl in Hl.
  { simplify_eq. set_solver. }
  destruct entry as [e|]; simpl in Hl; [|done].
  destruct (de_is_file e) eqn:Hf; simpl in Hl; cycle 1.
  { rewrite key_entries_skip; [by apply IH|]. unfold key_entry. by rewrite Hf; intros [? _]. }
  case_bool_decide as Hx.
  { rewrite key_entries_skip; [by apply IH|]. intros (_ & Hn & Hne & _). apply Hx.
    apply (extension_key _ (bytes_of name)). by rewrite bytes_of_nil. }
  destruct (utf8_valid (file_stem (de_name e))) eqn:Hu; [|done].
  simpl in Hl. destruct (load_key_file_with_owner _ _ _ _) as [k|] eqn:Hk; [|done]. simpl in Hl.
  set (nm := str_of (file_stem (de_name e))) in *.
  destruct (proj1 (extension_key (de_name e) (file_stem (de_name e)))) as [Hnm Hne]; [done|].
  assert (key_entry nm e) as Hke.
  { unfold key_entry, nm. rewrite bytes_of_str_of. repeat split; try done.
    rewrite <-bytes_of_nil, bytes_of_str_of. done. }
  assert (∀ e', key_entry nm e' → de_name e' = de_name e) as Huniq.
  { intros e' (_ & E & _). destruct Hke as (_ & E' & _). congruence. }
  assert (∀ nm', key_entry nm' e → nm' = nm) as Huniq'.
  { intros nm' (_ & E & _). destruct Hke as (_ & E' & _). rewrite E in E'.
    by apply app_inv_tail, bytes_of_inj in E'. }
  destruct (decide (name = nm)) as [->|Hd]; cycle 1.
  { rewrite key_entries_skip by (by intros ?%Huniq'). rewrite (IH _ Hl).
    by rewrite lookup_insert_ne. }
  rewrite (IH _ Hl), lookup_insert_eq. setoid_rewrite elem_of_cons. split.
  - intros [(e' & ? & ? & ?)|[[= ->] ?]]; left; [eauto|]. exists e. auto.
  - intros [(e' & [[= ->]|?] & ? & Hk')|[_ Hno]]; [|left; eauto|destruct (Hno e); auto].
    rewrite Hk in Hk'. injection Hk' as ->.
    destruct (decide (Exists (key_entry nm) (omap id entries))) as [Hex|Hex].
    + apply Exists_exists in Hex as (e' & Hin & Hke'). left. exists e'.
      apply list_elem_of_omap in Hin as (o & Ho & Heq). simpl in Heq. subst o.
      by rewrite (Huniq e').
    + right. split; [done|]. intros e' Hin Hke'. apply Hex, Exists_exists. exists e'.
      split; [|done]. apply list_elem_of_omap. eauto.
Qed.

Lemma read_secure_exact_Ok n fs me path spec bs :
  read_secure_exact n fs me path spec = Ok bs →
  length bs = n ∧ ∃ file stat, fs_open_read fs path = Ok file ∧ of_stat file = Some stat
    ∧ of_data file = bs
    ∧ trusted_file me (mk_spec (spec_label spec) (SizeExact (Z.of_nat n)) (spec_mode spec)
                        (spec_owner spec)) stat.
Proof.
  unfold read_secure_exact. intros H.
  destruct (open_secure_read _ _ _) as [file|] eqn:Ho; [|done].
  destruct (validate_open_file _ _ _ _) as [stat|] eqn:Hv; [|done].
  apply open_secure_read_Ok in Ho. apply validate_open_file_spec in Hv as [Hs Ht].
  repeat case_match; simplify_eq.
  repeat match goal with H : bool_decide _ = false |- _ => apply bool_decide_eq_false in H end.
  split; [lia|]. eauto 10.
Qed.

(** ** The properties of attestation *)

Definition collides {A B} (f : A → B) (a b : A) : Prop := a ≠ b ∧ f a = f b.

(** C17: an accepted evidence hash binds the evidence.  A result is accepted
    exactly when its adapter has a key and the hash is the HMAC of the
    result's fields under that key; and two results of one adapter that are
    accepted with the same hash agree on nonce, uid, method, confidence and
    time stamp, unless the very inputs that differ collide under HMAC-SHA256
    or SHA-256. *)
Theorem attestation_binds {C : Crypto} {CL : CryptoLaws C} v name r1 r2 :
  wf_result r1 → wf_result r2 → canonical (res_method r1) → canonical (res_method r2) →
  verify v name r1 = Ok tt → verify v name r2 = Ok tt →
  res_evidence_hash r1 = res_evidence_hash r2 →
  ∃ key, adapter_keys v !! name = Some key
    ∧ res_evidence_hash r1 = hmac_sha256 key (mac_input r1)
    ∧ (res_nonce r1 = res_nonce r2 ∧ res_uid r1 = res_uid r2
         ∧ res_method r1 = res_method r2 ∧ res_confidence r1 = res_confidence r2
         ∧ res_timestamp_ms r1 = res_timestamp_ms r2
       ∨ collides (hmac_sha256 key) (mac_input r1) (mac_input r2)
       ∨ collides sha256 (bytes_of (as_str (res_method r1)))
           (bytes_of (as_str (res_method r2)))).
Proof.
  intros W1 W2 M1 M2 [key [Hk E1]]%attest_verify_Ok [key' [Hk' E2]]%attest_verify_Ok Heq.
  assert (key' = key) as -> by congruence. exists key. split; [done|]. split; [done|].
  destruct (decide (mac_input r1 = mac_input r2)) as [Em|Em].
  - apply mac_input_inj in Em as (? & ? & Ec & ? & ?); [|done..].
    destruct (decide (as_str (res_method r1) = as_str (res_method r2))) as [Es|Es].
    + left. apply as_str_inj in Es; auto.
    + right; right. split; [|done]. by intros ?%bytes_of_inj.
  - right; left. split; [done|congruence].
Qed.

(** Primitives of the right shape for concrete runs; they are no secure hash. *)
Definition pad32 (bs : list byte) : list byte := take 32 (bs ++ replicate 32 Ascii.zero).

Definition sample_crypto : Crypto := {|
  sha256 := pad32;
  hmac_sha256 := λ k m, pad32 (rev m ++ k);
  ct_eq := λ a b, if bool_decide (a = b) then 1 else 0
|}.

Lemma length_pad32 bs : length (pad32 bs) = 32%nat.
Proof. unfold pad32. rewrite length_take, length_app, length_replicate. lia. Qed.

Lemma sample_crypto_laws : CryptoLaws sample_crypto.
Proof. split; intros; simpl; auto using length_pad32. Qed.

Definition sample_key : list byte := replicate 32 "k"%char.
Definition sample_verifier : AttestationVerifier := mk_verifier {[ "fido2" := sample_key ]}.

Definition unsigned_result : VerificationResult :=
  mk_result 1 (replicate 16 "i"%char) f32_one Fido2 1234 1000 (replicate 32 "n"%char) [].

Definition sign (C : Crypto) (key : list byte) (r : VerificationResult) : VerificationResult :=
  mk_result (res_version r) (res_id r) (res_confidence r) (res_method r) (res_timestamp_ms r)
    (res_uid r) (res_nonce r) (hmac_sha256 key (mac_input r)).

Definition signed_result : VerificationResult := sign sample_crypto sample_key unsigned_result.

Lemma wf_signed_result : wf_result signed_result.
Proof. vm_compute. intuition discriminate. Qed.

Lemma attestation_binds_witness :
  ∃ key, adapter_keys sample_verifier !! "fido2" = Some key
    ∧ res_evidence_hash signed_result
      = @hmac_sha256 sample_crypto key (@mac_input sample_crypto signed_result)
    ∧ (res_nonce signed_result = res_nonce signed_result
         ∧ res_uid signed_result = res_uid signed_result
         ∧ res_method signed_result = res_method signed_result
         ∧ res_confidence signed_result = res_confidence signed_result
         ∧ res_timestamp_ms signed_result = res_timestamp_ms signed_result
       ∨ collides (@hmac_sha256 sample_crypto key) (@mac_input sample_crypto signed_result)
           (@mac_input sample_crypto signed_result)
       ∨ collides (@sha256 sample_crypto) (bytes_of (as_str (res_method signed_result)))
           (bytes_of (as_str (res_method signed_result)))).
Proof.
  apply (@attestation_binds sample_crypto sample_crypto_laws);
    [apply wf_signed_result|apply wf_signed_result|exact I|exact I|
     vm_compute; reflexivity|vm_compute; reflexivity|reflexivity].
Defined.

(** The key store after a load.  An adapter has a key exactly when the
    directory exists and lists a regular file [<name>.key] from which the
    hardened loader reads that key; every such key is 32 bytes from a file
    of mode 0600 with a trusted owner; and after a successful
    [require_keys_for_adapters] no listed adapter is unknown to [verify]. *)
Theorem attestation_keys_spec {C : Crypto} fs me dir is_dir listing owner v :
  load_from_dir_with_owner fs me dir is_dir listing owner = Ok v →
  (∀ name key,
    adapter_keys v !! name = Some key ↔
    is_dir = true ∧ ∃ entries e, listing = Some entries ∧ Some e ∈ entries
      ∧ key_entry name e
      ∧ load_key_file_with_owner fs me (entry_path dir (de_name e)) owner = Ok key)
  ∧ (∀ name key, adapter_keys v !! name = Some key →
      length key = 32%nat
      ∧ ∃ path file stat, fs_open_read fs path = Ok file ∧ of_stat file = Some stat
          ∧ of_data file = key ∧ Z.land (st_mode stat) 511 = 384
          ∧ trusted_owner me owner (st_uid stat))
  ∧ (∀ names name r, require_keys_for_adapters v names = Ok tt → name ∈ names →
      verify v name r ≠ Err UnknownAdapter).
Proof.
  intros Hl.
  assert (∀ name key,
    adapter_keys v !! name = Some key ↔
    is_dir = true ∧ ∃ entries e, listing = Some entries ∧ Some e ∈ entries
      ∧ key_entry name e
      ∧ load_key_file_with_owner fs me (entry_path dir (de_name e)) owner = Ok key) as Hspec.
  { unfold load_from_dir_with_owner in Hl. destruct is_dir; simpl in Hl.
    - destruct listing as [entries|]; simpl in Hl; [|done].
      destruct (load_keys _ _ _ _ _ _) as [keys|] eqn:Hk; [|done]. injection Hl as <-.
      intros name key. simpl. rewrite (load_keys_spec _ _ _ _ _ _ _ Hk). split.
      + intros [(e & ? & ? & ?)|[? _]]; [|by rewrite lookup_empty in *]. eauto 10.
      + intros [_ (es & e & [= <-] & ? & ? & ?)]. left. eauto.
    - injection Hl as <-. intros name key. simpl. rewrite lookup_empty. naive_solver. }
  split; [done|]. split.
  - intros name key Hk. apply Hspec in Hk as [_ (es & e & _ & _ & _ & Hk)].
    apply read_secure_exact_Ok in Hk as [? (file & stat & ? & ? & ? & (_ & _ & Hm & Ho))].
    split; [done|]. exists (entry_path dir (de_name e)), file, stat.
    repeat split; try done. simpl in Hm. by apply list_elem_of_singleton in Hm.
  - intros names name r Hreq Hin. unfold require_keys_for_adapters in Hreq.
    case_bool_decide as Hm; [done|]. unfold verify.
    destruct (adapter_keys v !! name) as [key|] eqn:Hkey; simpl; [by case_match|].
    exfalso. assert (name ∈ List.filter (λ n, negb (bool_decide (is_Some (adapter_keys v !! n))))
      names) as Hf.
    { apply list_elem_of_In, filter_In. split; [by apply list_elem_of_In|].
      by rewrite Hkey. }
    rewrite Hm in Hf. set_solver.
Qed.

Definition sample_listing : option (list (option DirEntry)) :=
  Some [Some (mk_entry (bytes_of "fido2.key") true); Some (mk_entry (bytes_of "README") true)].

Lemma attestation_keys_spec_witness :
  let fs := sample_fs 384 990 sample_key in
  (∀ name key,
    adapter_keys sample_verifier !! name = Some key ↔
    true = true ∧ ∃ entries e, sample_listing = Some entries ∧ Some e ∈ entries
      ∧ key_entry name e
      ∧ load_key_file_with_owner fs 990 (entry_path "/keys" (de_name e)) RootOrCurrent = Ok key)
  ∧ (∀ name key, adapter_keys sample_verifier !! name = Some key →
      length key = 32%nat
      ∧ ∃ path file stat, fs_open_read fs path = Ok file ∧ of_stat file = Some stat
          ∧ of_data file = key ∧ Z.land (st_mode stat) 511 = 384
          ∧ trusted_owner 990 RootOrCurrent (st_uid stat))
  ∧ (∀ names name r, require_keys_for_adapters sample_verifier names = Ok tt → name ∈ names →
      @verify sample_crypto sample_verifier name r ≠ Err UnknownAdapter).
Proof.
  apply (@attestation_keys_spec sample_crypto (sample_fs 384 990 sample_key) 990 "/keys" true
           sample_listing RootOrCurrent sample_verifier).
  vm_compute. reflexivity.
Defined.
