(* ===== verification/AuditEntry.v ===== *)
(** * Audit entries: [crates/ola-core/src/infrastructure/audit/entry.rs] and [hex.rs]

    The record of one decision, the canonical byte string its hash commits
    to, and the hexadecimal text of digests. *)

From S2P Require Import Prelude RustStd Types Attestation.
Open Scope Z_scope.

Definition ZERO_HASH : string :=
  "0000000000000000000000000000000000000000000000000000000000000000".

(** ** hex.rs *)

Definition encode_hex (bs : list byte) : string :=
  str_of (concat ((λ b, [hex_digit (Z.shiftr (bv b) 4); hex_digit (Z.land (bv b) 15)]) <$> bs)).

Definition hex_sha256 `{Crypto} (bs : list byte) : string := encode_hex (sha256 bs).

Definition is_lower_hex_hash (value : string) : bool :=
  bool_decide (String.length value = 64%nat)
  && forallb (λ b, in_range 48 57 b || in_range 97 102 b) (bytes_of value).

(** ** entry.rs *)

Record AuditEntry := mk_audit_entry {
  ae_ts_ms : Z;
  ae_request_id : option string;
  ae_caller_uid : Z;
  ae_uid : Z;
  ae_adapter_name : option string;
  ae_method : string;
  ae_decision : string;
  ae_deny_reason : option string;
  ae_confidence : Z;
  ae_evidence_hash : string;
  ae_nonce_prefix : string;
  ae_prev_hash : string;
  ae_entry_hash : string
}.

#[global] Instance AuditEntry_eq_dec : EqDecision AuditEntry.
Proof. solve_decision. Defined.

Definition set_prev_hash (e : AuditEntry) (h : string) : AuditEntry :=
  mk_audit_entry (ae_ts_ms e) (ae_request_id e) (ae_caller_uid e) (ae_uid e)
    (ae_adapter_name e) (ae_method e) (ae_decision e) (ae_deny_reason e) (ae_confidence e)
    (ae_evidence_hash e) (ae_nonce_prefix e) h (ae_entry_hash e).

Definition set_entry_hash (e : AuditEntry) (h : string) : AuditEntry :=
  mk_audit_entry (ae_ts_ms e) (ae_request_id e) (ae_caller_uid e) (ae_uid e)
    (ae_adapter_name e) (ae_method e) (ae_decision e) (ae_deny_reason e) (ae_confidence e)
    (ae_evidence_hash e) (ae_nonce_prefix e) (ae_prev_hash e) h.

Definition HASH_PAYLOAD_V1_PREFIX : list byte := bytes_of "OLA-AUDIT-HASH-V1" ++ [nl].

Definition colon : byte := ":"%char.

(** Appended to [out]. *)
Definition push_bytes (out : list byte) (name : string) (tag : byte) (value : list byte)
  : list byte :=
  out ++ bytes_of name ++ [colon; tag; colon] ++ display_bytes (Z.of_nat (length value))
  ++ [colon] ++ value ++ [nl].

Definition push_value (out : list byte) (name : string) (shown : list byte) : list byte :=
  push_bytes out name "v"%char shown.

Definition push_str (out : list byte) (name value : string) : list byte :=
  push_bytes out name "v"%char (bytes_of value).

Definition push_opt (out : list byte) (name : string) (value : option string) : list byte :=
  match value with
  | Some value => push_bytes out name "s"%char (bytes_of value)
  | None => push_bytes out name "n"%char []
  end.

Definition hash_payload_v1 (e : AuditEntry) : list byte :=
  let out := HASH_PAYLOAD_V1_PREFIX in
  let out := push_value out "ts_ms" (display_bytes (ae_ts_ms e)) in
  let out := push_opt out "request_id" (ae_request_id e) in
  let out := push_value out "caller_uid" (display_bytes (ae_caller_uid e)) in
  let out := push_value out "uid" (display_bytes (ae_uid e)) in
  let out := push_opt out "adapter_name" (ae_adapter_name e) in
  let out := push_str out "method" (ae_method e) in
  let out := push_str out "decision" (ae_decision e) in
  let out := push_opt out "deny_reason" (ae_deny_reason e) in
  let out := push_value out "confidence" (hex_fixed 8 (ae_confidence e)) in
  let out := push_str out "evidence_hash" (ae_evidence_hash e) in
  let out := push_str out "nonce_prefix" (ae_nonce_prefix e) in
  push_str out "prev_hash" (ae_prev_hash e).

Definition result_fields (r : VerificationResult) : Z * string * string :=
  (res_confidence r, encode_hex (res_evidence_hash r), encode_hex (take 8 (res_nonce r))).

(** [AuditEntry::deny], at a reading [now] of the system clock. *)
Definition deny (now caller_uid uid : Z) (method reason : string)
    (adapter_name request_id : option string) (result : option VerificationResult)
  : AuditEntry :=
  let '(confidence, evidence_hash, nonce_prefix) :=
    default (f32_zero, EmptyString, EmptyString) (result_fields <$> result) in
  mk_audit_entry (unix_ms now) request_id caller_uid uid adapter_name method "deny"
    (Some reason) confidence evidence_hash nonce_prefix EmptyString EmptyString.

Definition from_decision (now : Z) (context : AuthContext) (decision : PolicyDecision)
    (caller_uid : Z) (adapter_name request_id : option string) : AuditEntry :=
  let '(dec, deny_reason) :=
    match decision with
    | Allow => ("allow", None)
    | Deny reason => ("deny", Some (deny_reason_debug reason))
    end in
  let '(_, evidence_hash, nonce_prefix) := result_fields (ctx_result context) in
  mk_audit_entry (unix_ms now) request_id caller_uid (ctx_uid context) adapter_name
    (ctx_method context) dec deny_reason (res_confidence (ctx_result context))
    evidence_hash nonce_prefix EmptyString EmptyString.

(** ** Well-formed entries: what the Rust types enforce *)

(** A [String] is UTF-8, and its length fits [usize]. *)
Definition is_string (s : string) : Prop :=
  utf8_valid (bytes_of s) = true ∧ Z.of_nat (length (bytes_of s)) ≤ u64_max.

Definition is_opt_string (o : option string) : Prop := from_option is_string True o.

Record wf_entry (e : AuditEntry) : Prop := {
  wf_ts : is_u64 (ae_ts_ms e);
  wf_request_id : is_opt_string (ae_request_id e);
  wf_caller : is_u32 (ae_caller_uid e);
  wf_uid : is_u32 (ae_uid e);
  wf_adapter : is_opt_string (ae_adapter_name e);
  wf_method : is_string (ae_method e);
  wf_decision : is_string (ae_decision e);
  wf_reason : is_opt_string (ae_deny_reason e);
  wf_confidence : is_u32 (ae_confidence e);
  wf_evidence : is_string (ae_evidence_hash e);
  wf_prefix : is_string (ae_nonce_prefix e);
  wf_prev : is_string (ae_prev_hash e);
  wf_hash : is_string (ae_entry_hash e)
}.

(** ** Lemmas: hexadecimal text *)

Lemma shiftr_land b : Z.shiftr (bv b) 4 = bv b / 16 ∧ Z.land (bv b) 15 = bv b mod 16.
Proof.
  split; [by rewrite Z.shiftr_div_pow2|]. change 15 with (Z.ones 4).
  by rewrite Z.land_ones.
Qed.

Lemma nibbles b : 0 ≤ bv b / 16 < 16 ∧ 0 ≤ bv b mod 16 < 16.
Proof.
  pose proof (bv_range b). split; [split; [apply Z.div_pos|apply Z.div_lt_upper_bound]; lia|].
  apply Z.mod_pos_bound. lia.
Qed.

Lemma encode_hex_inj bs1 bs2 : encode_hex bs1 = encode_hex bs2 → bs1 = bs2.
Proof.
  unfold encode_hex. intros E%(f_equal bytes_of). rewrite !bytes_of_str_of in E.
  revert bs2 E. induction bs1 as [|b1 bs1 IH]; intros [|b2 bs2] E; try done.
  rewrite !fmap_cons, !concat_cons in E. injection E as E1 E2 E.
  destruct (shiftr_land b1) as [S1 L1], (shiftr_land b2) as [S2 L2].
  destruct (nibbles b1) as [D1 M1], (nibbles b2) as [D2 M2].
  rewrite S1, S2 in E1. rewrite L1, L2 in E2.
  apply hex_digit_inj in E1; [|done..]. apply hex_digit_inj in E2; [|done..].
  f_equal; [|by apply IH]. apply bv_inj.
  rewrite (Z.div_mod (bv b1) 16), (Z.div_mod (bv b2) 16) by lia. congruence.
Qed.

Lemma hex_digit_lower d :
  0 ≤ d < 16 → in_range 48 57 (hex_digit d) || in_range 97 102 (hex_digit d) = true.
Proof.
  intros Hd. unfold hex_digit, in_range.
  destruct (Z.ltb_spec d 10); rewrite !bv_byte_of_Z, !Z.mod_small by lia; lia.
Qed.

Lemma length_str_of bs : String.length (str_of bs) = length bs.
Proof. induction bs as [|b bs IH]; simpl; [done|]. by rewrite <-IH. Qed.

Lemma encode_hex_lower bs : length bs = 32%nat → is_lower_hex_hash (encode_hex bs) = true.
Proof.
  intros Hl. unfold is_lower_hex_hash, encode_hex. rewrite length_str_of, bytes_of_str_of.
  apply andb_true_intro. split.
  - apply bool_decide_eq_true_2.
    assert (length (concat ((λ b, [hex_digit (Z.shiftr (bv b) 4); hex_digit (Z.land (bv b) 15)])
      <$> bs)) = 2 * length bs)%nat as ->; [|lia].
    clear. induction bs as [|b bs IH]; [done|]. rewrite fmap_cons, concat_cons. simpl in *. lia.
  - clear. induction bs as [|b bs IH]; [done|]. rewrite fmap_cons, concat_cons.
    destruct (shiftr_land b) as [-> ->], (nibbles b). simpl in *. by rewrite !hex_digit_lower, IH.
Qed.

Lemma ZERO_HASH_lower : is_lower_hex_hash ZERO_HASH = true.
Proof. vm_compute. reflexivity. Qed.

(** ** Lemmas: the hash commits to every field *)

Lemma digits_colon_inj d1 d2 x1 x2 :
  Forall (λ b, is_ascii_digit b = true) d1 → Forall (λ b, is_ascii_digit b = true) d2 →
  d1 ++ colon :: x1 = d2 ++ colon :: x2 → d1 = d2 ∧ x1 = x2.
Proof.
  assert (∀ d, Forall (λ b, is_ascii_digit b = true) d → Forall (λ b, b ≠ colon) d) as Hc.
  { intros d Hd. eapply Forall_impl; [exact Hd|]. intros b Hb ->.
    by vm_compute in Hb. }
  intros H1%Hc H2%Hc E. pose proof (f_equal (take_until colon) E) as Et.
  rewrite !take_until_app in Et by done. subst d2. by apply app_inv_head in E as [= ->].
Qed.

(** A field can be read back from the front of what follows its name. *)
Lemma field_inj tag1 tag2 v1 v2 x1 x2 :
  Z.of_nat (length v1) ≤ u64_max → Z.of_nat (length v2) ≤ u64_max →
  [colon; tag1; colon] ++ display_bytes (Z.of_nat (length v1)) ++ [colon] ++ (v1 ++ [nl]) ++ x1
  = [colon; tag2; colon] ++ display_bytes (Z.of_nat (length v2)) ++ [colon] ++ (v2 ++ [nl]) ++ x2 →
  tag1 = tag2 ∧ v1 = v2 ∧ x1 = x2.
Proof.
  intros L1 L2 E. injection E as -> E. simpl in E.
  apply digits_colon_inj in E as [Ed E]; [|apply display_bytes_digits; lia..].
  apply display_bytes_inj in Ed; [|unfold is_u64; lia..]. apply Nat2Z.inj in Ed.
  apply app_inj_length in E as [E ->]; [|rewrite !length_app; simpl; lia].
  by apply app_inj_tail in E as [-> _].
Qed.

Definition field (f : string * byte * list byte) : list byte :=
  push_bytes [] f.1.1 f.1.2 f.2.

Definition opt_field (name : string) (o : option string) : string * byte * list byte :=
  match o with
  | Some s => (name, "s"%char, bytes_of s)
  | None => (name, "n"%char, [])
  end.

Definition val_field (name : string) (v : list byte) : string * byte * list byte :=
  (name, "v"%char, v).

Definition fields (e : AuditEntry) : list (string * byte * list byte) :=
  [ val_field "ts_ms" (display_bytes (ae_ts_ms e));
    opt_field "request_id" (ae_request_id e);
    val_field "caller_uid" (display_bytes (ae_caller_uid e));
    val_field "uid" (display_bytes (ae_uid e));
    opt_field "adapter_name" (ae_adapter_name e);
    val_field "method" (bytes_of (ae_method e));
    val_field "decision" (bytes_of (ae_decision e));
    opt_field "deny_reason" (ae_deny_reason e);
    val_field "confidence" (hex_fixed 8 (ae_confidence e));
    val_field "evidence_hash" (bytes_of (ae_evidence_hash e));
    val_field "nonce_prefix" (bytes_of (ae_nonce_prefix e));
    val_field "prev_hash" (bytes_of (ae_prev_hash e)) ].

Lemma push_bytes_field out name tag v : push_bytes out name tag v = out ++ field (name, tag, v).
Proof. done. Qed.

Lemma push_opt_field out name o : push_opt out name o = out ++ field (opt_field name o).
Proof. by destruct o. Qed.

Lemma hash_payload_fields e :
  hash_payload_v1 e = HASH_PAYLOAD_V1_PREFIX ++ concat (field <$> fields e).
Proof.
  unfold hash_payload_v1, push_str, push_value, fields, val_field. cbv zeta.
  rewrite !push_opt_field, !push_bytes_field.
  rewrite !fmap_cons, !concat_cons, fmap_nil, concat_nil, app_nil_r, <-!app_assoc.
  done.
Qed.

Lemma field_app n t v x :
  field (n, t, v) ++ x
  = bytes_of n ++ [colon; t; colon] ++ display_bytes (Z.of_nat (length v)) ++ [colon]
    ++ (v ++ [nl]) ++ x.
Proof.
  unfold field, push_bytes. cbn [fst snd]. rewrite app_nil_l. by repeat rewrite <-app_assoc.
Qed.

Lemma fields_inj fs1 fs2 :
  (λ f : string * byte * list byte, f.1.1) <$> fs1 = (λ f, f.1.1) <$> fs2 →
  Forall (λ f : string * byte * list byte, Z.of_nat (length f.2) ≤ u64_max) (fs1 ++ fs2) →
  concat (field <$> fs1) = concat (field <$> fs2) → fs1 = fs2.
Proof.
  revert fs2. induction fs1 as [|[[n1 t1] v1] fs1 IH]; intros [|[[n2 t2] v2] fs2] Hn Hl E;
    try done. injection Hn as -> Hn.
  apply Forall_app in Hl as [[L1 H1]%Forall_cons [L2 H2]%Forall_cons].
  rewrite !fmap_cons, !concat_cons, !field_app in E. apply app_inv_head in E.
  apply field_inj in E as (-> & -> & Ex); [|done..].
  f_equal. apply IH; [done|by apply Forall_app|done].
Qed.

Lemma length_display_bytes n : (length (display_bytes n) ≤ 20)%nat.
Proof.
  unfold display_bytes.
  assert (∀ f m acc, (length (dec_digits f m acc) ≤ f + length acc)%nat) as H.
  { induction f as [|f IH]; intros m acc; simpl; [done|]. case_match; simpl; [lia|].
    specialize (IH (m / 10) (dec_digit (m mod 10) :: acc)). simpl in IH. lia. }
  exact (H 20%nat n []).
Qed.

Lemma opt_field_inj name o1 o2 : opt_field name o1 = opt_field name o2 → o1 = o2.
Proof. destruct o1, o2; intros [=]; try done. f_equal. by apply bytes_of_inj. Qed.

Lemma fields_bounded e :
  wf_entry e →
  Forall (λ f : string * byte * list byte, Z.of_nat (length f.2) ≤ u64_max) (fields e).
Proof.
  intros W. destruct W. unfold is_opt_string, is_string in *.
  assert (∀ n, Z.of_nat (length (display_bytes n)) ≤ u64_max) as Hd.
  { intros n. pose proof (length_display_bytes n). unfold u64_max. lia. }
  assert (∀ name o, from_option is_string True o →
    Z.of_nat (length (opt_field name o).2) ≤ u64_max) as Ho.
  { intros name [s|] H; [by destruct H|]. done. }
  unfold fields, val_field.
  repeat (apply Forall_cons; split); try apply Forall_nil_2; cbn [snd];
    first [apply Hd | by apply Ho | tauto
          | rewrite length_hex_fixed; unfold u64_max; lia].
Qed.

(** Two entries with the same payload are the same, the entry hash aside. *)
Lemma hash_payload_inj e1 e2 :
  wf_entry e1 → wf_entry e2 → hash_payload_v1 e1 = hash_payload_v1 e2 →
  set_entry_hash e1 EmptyString = set_entry_hash e2 EmptyString.
Proof.
  intros W1 W2 E. rewrite !hash_payload_fields in E. apply app_inv_head in E.
  apply fields_inj in E; [| |by apply Forall_app; auto using fields_bounded].
  2: { assert (∀ name o, (opt_field name o).1.1 = name) as Ho by (by intros name []).
       unfold fields, val_field. rewrite !fmap_cons, !fmap_nil. cbn [fst]. by rewrite !Ho. }
  unfold fields in E. destruct W1, W2. unfold is_u64, is_u32, u64_max, u32_max in *.
  remember (hex_fixed 8 (ae_confidence e1)) as h1 eqn:Hh1.
  remember (hex_fixed 8 (ae_confidence e2)) as h2 eqn:Hh2.
  injection E as Ets Ereq Ecall Euid Ead Emeth Edec Ereas Econf Eev Enp Eprev.
  subst. unfold set_entry_hash.
  apply display_bytes_inj in Ets, Ecall, Euid; [|unfold is_u64, u64_max; lia..].
  apply opt_field_inj in Ereq, Ead, Ereas.
  apply bytes_of_inj in Emeth, Edec, Eev, Enp, Eprev.
  apply hex_fixed_inj in Econf; [|change (16 ^ Z.of_nat 8) with 4294967296; lia..].
  congruence.
Qed.

(** ** The properties of audit entries *)

(** C33: the hashed payload commits to every field of an entry but its own
    hash: two well-formed entries have the same payload exactly when they
    agree on time, request id (absent and empty differ), caller, target uid,
    adapter, method, decision, reason, confidence bits, evidence hash, nonce
    prefix and previous hash. *)
Theorem hash_payload_commits e1 e2 :
  wf_entry e1 → wf_entry e2 →
  hash_payload_v1 e1 = hash_payload_v1 e2
  ↔ set_entry_hash e1 EmptyString = set_entry_hash e2 EmptyString.
Proof.
  intros W1 W2. split; [by apply hash_payload_inj|].
  assert (∀ e, hash_payload_v1 (set_entry_hash e EmptyString) = hash_payload_v1 e) as Hp by done.
  intros E. by rewrite <-(Hp e1), E.
Qed.

(** The entry of the unit tests of entry.rs. *)
Definition sample_entry : AuditEntry :=
  mk_audit_entry 1 (Some "req-1") 1000 1000 (Some "fido2") "fido2" "allow" None f32_one
    "abc123" "0011223344556677" ZERO_HASH EmptyString.

Lemma wf_sample_entry : wf_entry sample_entry.
Proof. split; vm_compute; intuition discriminate. Qed.

Lemma hash_payload_commits_witness :
  hash_payload_v1 sample_entry = hash_payload_v1 (set_entry_hash sample_entry "changed")
  ↔ set_entry_hash sample_entry EmptyString
    = set_entry_hash (set_entry_hash sample_entry "changed") EmptyString.
Proof.
  apply hash_payload_commits; split; vm_compute; intuition discriminate.
Defined.
