(* ===== verification/AuditLog.v ===== *)
(** * The audit log: [crates/ola-core/src/infrastructure/audit/logger.rs] and [verifier.rs]

    The log is a file of JSON lines chained by hashes, behind a mutex.  The
    logger appends, recovers the chain at start and reopens after rotation;
    the verifier replays the chain.  [serde_json] at the type [AuditEntry] is
    the class [AuditSerde] with its documented behaviour as laws; what the
    kernel does with each write and sync is an input. *)

From S2P Require Import Prelude RustStd SecureFs Types Attestation AuditEntry.
Open Scope Z_scope.

(** ** serde_json at [AuditEntry] *)

Class AuditSerde := {
  entry_to_string : AuditEntry → option string;       (* serde_json::to_string *)
  entry_from_str : string → option AuditEntry         (* serde_json::from_str *)
}.

Definition no_nl (bs : list byte) : Prop := Forall (λ b, b ≠ nl) bs.
Definition blank (bs : list byte) : bool := forallb is_ascii_whitespace bs.

Class AuditSerdeLaws (S : AuditSerde) : Prop := {
  (** the compact form is one line of UTF-8, and not blank *)
  to_string_line : ∀ e s, wf_entry e → entry_to_string e = Some s →
    no_nl (bytes_of s) ∧ utf8_valid (bytes_of s) = true ∧ blank (bytes_of s) = false;
  (** the derived implementations are inverse; a skipped field (an empty
      hash) or a non-finite float is not covered *)
  serde_roundtrip : ∀ e, wf_entry e → f32_is_finite (ae_confidence e) = true →
    ae_prev_hash e ≠ EmptyString → ae_entry_hash e ≠ EmptyString →
    ∃ s, entry_to_string e = Some s ∧ entry_from_str s = Some e;
  (** infinities and NaN are written as [null], which no [f32] reads *)
  serde_nonfinite : ∀ e, wf_entry e → f32_is_finite (ae_confidence e) = false →
    ∃ s, entry_to_string e = Some s ∧ entry_from_str s = None;
  (** what is read are values of the Rust types *)
  from_str_wf : ∀ s e, Z.of_nat (length (bytes_of s)) ≤ u64_max →
    entry_from_str s = Some e → wf_entry e;
  (** white space is no JSON value *)
  from_str_blank : ∀ s, blank (bytes_of s) = true → entry_from_str s = None
}.

(** ** The logger *)

Definition AUDIT_RECOVERY_WINDOW_BYTES : Z := 1024 * 1024.

Record AuditState := mk_audit_state { au_file : list byte; au_prev_hash : string }.

Record AuditLogger := mk_logger {
  lg_path : string;
  lg_owner : OwnerPolicy;
  lg_state : Mutex AuditState
}.

Inductive AuditError : Type :=
| AuditPoisoned
| AuditTaskFailed
| AuditSerialization
| AuditWriteFailed
| AuditSyncFailed
| AuditDirFailed
| AuditOpenFailed (e : FsError)
| AuditReadFailed
| AuditNoCompleteEntry
| AuditNonUtf8
| AuditMalformedFinal
| AuditBadFinalPrev
| AuditBadFinalHash
| AuditFinalMismatch.

(** What happens to one append: whether the blocking task runs, after how
    many bytes the write fails ([None]: it does not), whether the sync does. *)
Record LogIo := mk_log_io {
  io_task : bool;
  io_write : option nat;
  io_sync : bool
}.

Section Log.
Context `{C : Crypto} `{S : AuditSerde}.

(** The entry as [log] completes it. *)
Definition seal (entry : AuditEntry) (prev_hash : string) : AuditEntry :=
  let entry := set_prev_hash entry prev_hash in
  let entry := set_entry_hash entry EmptyString in
  set_entry_hash entry (hex_sha256 (hash_payload_v1 entry)).

Definition log (m : Mutex AuditState) (entry : AuditEntry) (io : LogIo)
  : result unit AuditError * Mutex AuditState :=
  if negb (io_task io) then (Err AuditTaskFailed, m)
  else match lock m with
  | None => (Err AuditPoisoned, m)
  | Some st =>
      let entry := seal entry (au_prev_hash st) in
      match entry_to_string entry with
      | None => (Err AuditSerialization, m)
      | Some json =>
          let line := bytes_of json ++ [nl] in
          match io_write io with
          | Some n =>
              (Err AuditWriteFailed,
               unlock (mk_audit_state (au_file st ++ take n line) (au_prev_hash st)))
          | None =>
              let file := au_file st ++ line in
              if negb (io_sync io)
              then (Err AuditSyncFailed, unlock (mk_audit_state file (au_prev_hash st)))
              else (Ok tt, unlock (mk_audit_state file (ae_entry_hash entry)))
          end
      end
  end.

Definition recover_entry_hash (line : string) : result string AuditError :=
  let? entry := ok_or AuditMalformedFinal (entry_from_str line) in
  if negb (is_lower_hex_hash (ae_prev_hash entry)) then Err AuditBadFinalPrev
  else if negb (is_lower_hex_hash (ae_entry_hash entry)) then Err AuditBadFinalHash
  else
  let recovered := ae_entry_hash entry in
  let expected := hex_sha256 (hash_payload_v1 (set_entry_hash entry EmptyString)) in
  if bool_decide (recovered ≠ expected) then Err AuditFinalMismatch
  else Ok recovered.

Definition last_complete_line (tail : list byte) : option (list byte) :=
  if bool_decide (tail ≠ [] ∧ last tail ≠ Some nl) then None
  else find (λ line, negb (blank line)) (rev (split_on nl tail)).

(** [tail.iter().position(|b| *b == b'\n')], and the rest after it. *)
Fixpoint after_newline (tail : list byte) : list byte :=
  match tail with
  | [] => []
  | b :: tail => if bool_decide (b = nl) then tail else after_newline tail
  end.

(** [readable]: cloning, [fstat], seeking and reading succeed. *)
Definition last_entry_hash (data : list byte) (readable : bool)
  : result string AuditError :=
  if negb readable then Err AuditReadFailed
  else
  let len := Z.of_nat (length data) in
  if len =? 0 then Ok ZERO_HASH
  else
  let start := saturating_sub len AUDIT_RECOVERY_WINDOW_BYTES in
  let tail := drop (Z.to_nat start) data in
  let truncated := negb (start =? 0) in
  let tail := if negb truncated then tail else after_newline tail in
  match last_complete_line tail with
  | None =>
      if negb truncated && blank tail then Ok ZERO_HASH else Err AuditNoCompleteEntry
  | Some line =>
      if utf8_valid line then recover_entry_hash (str_of line) else Err AuditNonUtf8
  end.

(** [AuditLogger::open]; [dir_ok] is false when the parent directory was
    missing and could not be created. *)
Definition open (fs : Fs) (current_uid : Z) (dir_ok : bool) (path : string)
    (owner : OwnerPolicy) : result AuditLogger AuditError :=
  if negb dir_ok then Err AuditDirFailed
  else
  let? file := map_err AuditOpenFailed (open_secure_append fs current_uid path 416 owner) in
  let? prev_hash := last_entry_hash (of_data file) (of_read_ok file) in
  Ok (mk_logger path owner (unlock (mk_audit_state (of_data file) prev_hash))).

Definition reopen (fs : Fs) (current_uid : Z) (l : AuditLogger)
  : result unit AuditError * AuditLogger :=
  match lock (lg_state l) with
  | None => (Err AuditPoisoned, l)
  | Some st =>
      match open_secure_append fs current_uid (lg_path l) 416 (lg_owner l) with
      | Err e => (Err (AuditOpenFailed e), l)
      | Ok file =>
          (Ok tt, mk_logger (lg_path l) (lg_owner l)
                    (unlock (mk_audit_state (of_data file) (au_prev_hash st))))
      end
  end.

(** ** The verifier *)

Record AuditVerifyReport := mk_report { rep_entries : Z; rep_last_hash : string }.

Inductive VerifyError : Type :=
| VerifyOpen (e : IoKind)
| VerifyFstat
| VerifyNotRegular
| VerifyRead
| VerifyIncomplete (line : Z)
| VerifyNotUtf8 (line : Z)
| VerifyMalformed (line : Z)
| VerifyBadPrev (line : Z)
| VerifyBadHash (line : Z)
| VerifyPrevMismatch (line : Z)
| VerifyHashMismatch (line : Z).

(** The body of the loop for one complete line; the new [prev_hash]. *)
Definition verify_line (prev_hash : string) (line_no : Z) (buf : list byte)
  : result string VerifyError :=
  if negb (utf8_valid buf) then Err (VerifyNotUtf8 line_no)
  else
  let? entry := ok_or (VerifyMalformed line_no) (entry_from_str (str_of buf)) in
  if negb (is_lower_hex_hash (ae_prev_hash entry)) then Err (VerifyBadPrev line_no)
  else if negb (is_lower_hex_hash (ae_entry_hash entry)) then Err (VerifyBadHash line_no)
  else if bool_decide (ae_prev_hash entry ≠ prev_hash) then Err (VerifyPrevMismatch line_no)
  else
  let entry_hash := ae_entry_hash entry in
  let expected := hex_sha256 (hash_payload_v1 (set_entry_hash entry EmptyString)) in
  if bool_decide (entry_hash ≠ expected) then Err (VerifyHashMismatch line_no)
  else Ok entry_hash.

(** [read_until] returns the pieces between newlines in turn; the last one
    has no newline, and is empty exactly at a clean end of file.  When reading
    fails, it fails after the bytes that are there. *)
Fixpoint verify_pieces (readable : bool) (pieces : list (list byte)) (prev_hash : string)
    (entries line_no : Z) : result AuditVerifyReport VerifyError :=
  match pieces with
  | [] => Ok (mk_report entries prev_hash)
  | [p] =>
      if negb readable then Err VerifyRead
      else if bool_decide (p = []) then Ok (mk_report entries prev_hash)
      else Err (VerifyIncomplete (line_no + 1))
  | p :: pieces =>
      let? prev_hash := verify_line prev_hash (line_no + 1) p in
      verify_pieces readable pieces prev_hash (entries + 1) (line_no + 1)
  end.

Definition verify_reader (data : list byte) (readable : bool)
  : result AuditVerifyReport VerifyError :=
  verify_pieces readable (split_on nl data) ZERO_HASH 0 0.

Definition open_audit_log (fs : Fs) (path : string) : result OpenFile VerifyError :=
  let? file := map_err VerifyOpen (fs_open_read fs path) in
  let? stat := ok_or VerifyFstat (of_stat file) in
  if negb (Z.land (st_mode stat) S_IFMT =? S_IFREG) then Err VerifyNotRegular
  else Ok file.

Definition verify_audit_log (fs : Fs) (path : string) : result AuditVerifyReport VerifyError :=
  let? file := open_audit_log fs path in
  verify_reader (of_data file) (of_read_ok file).
End Log.

(** ** Specification: a chain of entries *)

Section Chain.
Context `{C : Crypto}.

(** The hash an entry should carry. *)
Definition entry_digest (e : AuditEntry) : string := hex_sha256 (hash_payload_v1 e).

(** [chain h es h']: from the hash [h], the entries link up to [h']. *)
Inductive chain : string → list AuditEntry → string → Prop :=
| chain_nil h : chain h [] h
| chain_cons h e es h' :
    ae_prev_hash e = h → ae_entry_hash e = entry_digest e →
    chain (ae_entry_hash e) es h' → chain h (e :: es) h'.

Lemma chain_snoc h es h1 e :
  chain h es h1 → ae_prev_hash e = h1 → ae_entry_hash e = entry_digest e →
  chain h (es ++ [e]) (ae_entry_hash e).
Proof.
  induction 1 as [h|h e' es h1 Hp He Hc IH]; intros H1 H2; simpl.
  - by repeat constructor.
  - constructor; auto.
Qed.

Lemma seal_prev entry h : ae_prev_hash (seal entry h) = h.
Proof. done. Qed.

Lemma seal_digest entry h : ae_entry_hash (seal entry h) = entry_digest (seal entry h).
Proof. done. Qed.
End Chain.

(** A file of complete lines. *)
Definition unlines (ls : list (list byte)) : list byte := concat ((λ l, l ++ [nl]) <$> ls).

(** The entries a file of lines holds. *)
Definition entries_of `{S : AuditSerde} (ls : list (list byte)) (es : list AuditEntry) : Prop :=
  Forall2 (λ l e, utf8_valid l = true ∧ entry_from_str (str_of l) = Some e) ls es.

(** ** Lemmas: lines *)

Lemma exists_last_or_nil {A} (l : list A) : l = [] ∨ ∃ l' x, l = l' ++ [x].
Proof.
  destruct l as [|a l] using rev_ind; [by left|right; eauto].
Qed.

Lemma split_on_unlines ls rest :
  Forall no_nl ls → split_on nl (unlines ls ++ rest) = ls ++ split_on nl rest.
Proof.
  induction 1 as [|l ls Hl _ IH]; [done|]. unfold unlines.
  rewrite fmap_cons, concat_cons, <-!app_assoc. change ([nl] ++ ?x) with (nl :: x).
  rewrite split_on_piece by done. simpl. f_equal. apply IH.
Qed.

Lemma unlines_snoc ls l : unlines (ls ++ [l]) = unlines ls ++ l ++ [nl].
Proof.
  unfold unlines. rewrite fmap_app, concat_app. f_equal. simpl. by rewrite app_nil_r.
Qed.

Lemma split_on_join bs :
  ∃ ls p, split_on nl bs = ls ++ [p] ∧ bs = unlines ls ++ p ∧ Forall no_nl ls ∧ no_nl p.
Proof.
  induction bs as [|b bs (ls & p & Hs & Hj & Hn & Hp)].
  { exists [], []. split; [done|]. split; [done|]. split; constructor. }
  simpl. case_bool_decide as Hb.
  - subst b. exists ([] :: ls), p. rewrite Hs. split; [done|]. split; [by rewrite Hj|].
    split; [|done]. constructor; [constructor|done].
  - rewrite Hs. destruct ls as [|l ls]; simpl.
    + exists [], (b :: p). split; [done|]. split; [by rewrite Hj|]. split; [done|].
      by constructor.
    + apply Forall_cons in Hn as [Hl Hn]. exists ((b :: l) :: ls), p. split; [done|].
      split; [by rewrite Hj|]. split; [|done]. constructor; [by constructor|done].
Qed.

(** ** Lemmas: the verifier replays the chain *)

Section Verifier.
Context {C : Crypto} {CL : CryptoLaws C} {S : AuditSerde} {SL : AuditSerdeLaws S}.

Lemma entry_digest_lower e : is_lower_hex_hash (entry_digest e) = true.
Proof. apply encode_hex_lower, sha256_length. Qed.

Lemma lower_hash_string h : is_lower_hex_hash h = true → h ≠ EmptyString.
Proof. by intros H ->. Qed.

Lemma verify_line_spec h ln buf h' :
  is_lower_hex_hash h = true →
  verify_line h ln buf = Ok h' ↔
  utf8_valid buf = true
  ∧ ∃ e, entry_from_str (str_of buf) = Some e ∧ ae_prev_hash e = h
         ∧ ae_entry_hash e = h' ∧ h' = entry_digest e.
Proof.
  intros Hh. unfold verify_line, ok_or.
  destruct (utf8_valid buf); simpl; [|naive_solver].
  destruct (entry_from_str (str_of buf)) as [e|]; [|naive_solver].
  change (hex_sha256 (hash_payload_v1 (set_entry_hash e EmptyString))) with (entry_digest e).
  split.
  - intros H. destruct (is_lower_hex_hash (ae_prev_hash e)); simpl in H; [|done].
    destruct (is_lower_hex_hash (ae_entry_hash e)); simpl in H; [|done].
    repeat case_bool_decide; simplify_eq/=. split; [done|]. exists e. split; [done|].
    done.
  - intros [_ (e' & [= <-] & <- & <- & Hd)]. rewrite Hh. simpl. rewrite Hd, entry_digest_lower.
    simpl. by rewrite !bool_decide_eq_false_2 by (by intros []).
Qed.

Lemma verify_pieces_spec ls : ∀ h n ln rep,
  is_lower_hex_hash h = true →
  verify_pieces true (ls ++ [[]]) h n ln = Ok rep ↔
  ∃ es, entries_of ls es ∧ chain h es (rep_last_hash rep)
        ∧ rep_entries rep = n + Z.of_nat (length ls).
Proof.
  induction ls as [|l ls IH]; intros h n ln rep Hh; simpl.
  { split.
    - intros [= <-]. exists []. split; [constructor|]. split; [constructor|]. simpl. lia.
    - intros (es & He & Hc & Hn). inversion He; subst. inversion Hc; subst.
      destruct rep as [en lh]; simpl in *. repeat f_equal; lia. }
  destruct (ls ++ [[]]) as [|p ps] eqn:Happ; [by destruct ls|].
  destruct (verify_line h (ln + 1) l) as [h1|err] eqn:Hl.
  - apply verify_line_spec in Hl as [Hu (e & Hf & Hp & He & Hd)]; [|done].
    assert (is_lower_hex_hash h1 = true) as Hh1 by (rewrite Hd; apply entry_digest_lower).
    rewrite IH by done. split.
    + intros (es & Hes & Hc & Hn). exists (e :: es).
      split; [by constructor|]. split; [|simpl; lia].
      constructor; [done|congruence|]. by rewrite He.
    + intros (es & Hes & Hc & Hn). inversion Hes as [|? e' ? es' [_ Hf'] Hes']; subst.
      rewrite Hf in Hf'. simplify_eq. inversion Hc; subst. exists es'. split; [done|].
      split; [done|]. simpl in Hn. lia.
  - split; [done|]. intros (es & Hes & Hc & Hn).
    inversion Hes as [|? e ? es' [Hu Hf] Hes']; subst. inversion Hc; subst.
    assert (verify_line (ae_prev_hash e) (ln + 1) l = Ok (ae_entry_hash e)) as Hok; [|congruence].
    apply verify_line_spec; [done|]. split; [done|]. by exists e.
Qed.

(** The verifier accepts exactly the files of complete lines that hold a
    chain from the zero hash. *)
Lemma verify_reader_spec data rep :
  verify_reader data true = Ok rep ↔
  ∃ ls es, data = unlines ls ∧ Forall no_nl ls ∧ entries_of ls es
    ∧ chain ZERO_HASH es (rep_last_hash rep) ∧ rep_entries rep = Z.of_nat (length ls).
Proof.
  unfold verify_reader.
  destruct (split_on_join data) as (ls & p & Hs & Hj & Hn & Hp). rewrite Hs. split.
  - intros Hv. destruct (decide (p = [])) as [->|Hne].
    + apply verify_pieces_spec in Hv as (es & ? & ? & ?); [|apply ZERO_HASH_lower].
      exists ls, es. rewrite app_nil_r in Hj. repeat split; first [done|lia].
    + exfalso. clear -Hv Hne. revert Hv. generalize ZERO_HASH 0 0.
      induction ls as [|l ls IH]; intros h n ln; simpl.
      * by rewrite bool_decide_eq_false_2.
      * destruct (ls ++ [p]) as [|q qs] eqn:E; [by destruct ls|].
        destruct (verify_line h (ln + 1) l) as [h'|]; [|done]. intros Hv.
        by apply (IH h' (n + 1) (ln + 1)).
  - intros (ls' & es & -> & Hn' & He & Hc & Hlen).
    assert (ls = ls' ∧ p = []) as [-> ->].
    { pose proof (split_on_unlines ls' [] Hn') as E. rewrite app_nil_r in E.
      rewrite E in Hs. simpl in Hs. by apply app_inj_tail in Hs as [-> ->]. }
    apply verify_pieces_spec; [apply ZERO_HASH_lower|]. exists es.
    repeat split; first [done|lia].
Qed.

(** ** Lemmas: the logger extends the chain *)

Lemma ascii_utf8 bs : Forall (λ b, bv b < 128) bs → utf8_valid bs = true.
Proof.
  induction 1 as [|b bs Hb _ IH]; [done|]. simpl. by rewrite (proj2 (Z.ltb_lt _ _)).
Qed.

Lemma lower_hash_wf h : is_lower_hex_hash h = true → is_string h.
Proof.
  unfold is_lower_hex_hash. intros [Hl Hc]%andb_prop. apply bool_decide_eq_true in Hl. split.
  - apply ascii_utf8, Forall_forall. intros b Hb. rewrite forallb_forall in Hc.
    specialize (Hc b (proj1 (list_elem_of_In _ _) Hb)). unfold in_range in Hc. lia.
  - rewrite length_bytes_of, Hl. unfold u64_max. lia.
Qed.

Lemma wf_seal e h : wf_entry e → is_lower_hex_hash h = true → wf_entry (seal e h).
Proof.
  intros [] Hh. split; try done; [by apply lower_hash_wf|].
  apply lower_hash_wf. apply (entry_digest_lower (seal e h)).
Qed.

Lemma chain_lower h es h' :
  is_lower_hex_hash h = true → chain h es h' → is_lower_hex_hash h' = true.
Proof.
  intros Hh Hc. induction Hc as [|h e es h' Hp He Hc IH]; [done|]. apply IH.
  rewrite He. apply entry_digest_lower.
Qed.

(** The file of the log holds the entries [es], chained up to the hash the
    logger carries. *)
Record log_inv (m : Mutex AuditState) (es : list AuditEntry) : Prop := {
  li_lock : poisoned m = false;
  li_lines : ∃ ls, au_file (guarded m) = unlines ls ∧ Forall no_nl ls ∧ entries_of ls es;
  li_chain : chain ZERO_HASH es (au_prev_hash (guarded m))
}.

Lemma log_inv_prev m es : log_inv m es → is_lower_hex_hash (au_prev_hash (guarded m)) = true.
Proof. intros [_ _ Hc]. eapply chain_lower; [apply ZERO_HASH_lower|done]. Qed.

Lemma log_inv_verifies m es :
  log_inv m es →
  verify_reader (au_file (guarded m)) true
  = Ok (mk_report (Z.of_nat (length es)) (au_prev_hash (guarded m))).
Proof.
  intros [_ (ls & Hf & Hn & He) Hc]. apply verify_reader_spec. exists ls, es.
  repeat split; try done. simpl. by rewrite (Forall2_length _ _ _ He).
Qed.

(** A run of [log] that gets as far as the write. *)
Lemma log_written m es e io :
  log_inv m es → wf_entry e → io_task io = true → io_write io = None →
  ∃ s, entry_to_string (seal e (au_prev_hash (guarded m))) = Some s
    ∧ no_nl (bytes_of s) ∧ utf8_valid (bytes_of s) = true ∧ blank (bytes_of s) = false
    ∧ entry_from_str s
      = (if f32_is_finite (ae_confidence e)
         then Some (seal e (au_prev_hash (guarded m))) else None)
    ∧ let file := au_file (guarded m) ++ bytes_of s ++ [nl] in
      log m e io =
        if io_sync io
        then (Ok tt, unlock (mk_audit_state file
                (ae_entry_hash (seal e (au_prev_hash (guarded m))))))
        else (Err AuditSyncFailed, unlock (mk_audit_state file (au_prev_hash (guarded m)))).
Proof.
  intros Hi Hw Ht Hwr. pose proof (log_inv_prev _ _ Hi) as Hlow. destruct Hi as [Hp _ _].
  pose proof (wf_seal _ _ Hw Hlow) as Hws.
  unfold log, lock. rewrite Ht, Hp, Hwr. simpl. set (e' := seal e (au_prev_hash (guarded m))) in *.
  assert (∃ s, entry_to_string e' = Some s ∧ entry_from_str s
    = if f32_is_finite (ae_confidence e) then Some e' else None) as (s & Hs & Hr).
  { destruct (f32_is_finite (ae_confidence e)) eqn:Hfin.
    - apply serde_roundtrip; [done|done| |]; apply lower_hash_string; [done|].
      apply (entry_digest_lower e').
    - by apply serde_nonfinite. }
  exists s. destruct (to_string_line e' s Hws Hs) as (? & ? & ?).
  repeat (split; [done|]). rewrite Hs. by destruct (io_sync io).
Qed.

Lemma log_inv_append m es s e' :
  log_inv m es → no_nl (bytes_of s) → utf8_valid (bytes_of s) = true →
  entry_from_str s = Some e' → ae_prev_hash e' = au_prev_hash (guarded m) →
  ae_entry_hash e' = entry_digest e' →
  log_inv (unlock (mk_audit_state (au_file (guarded m) ++ bytes_of s ++ [nl])
             (ae_entry_hash e'))) (es ++ [e']).
Proof.
  intros [Hp (ls & Hf & Hn & He) Hc] Hnl Hu Hs Hprev Hd. split; [done| |].
  - exists (ls ++ [bytes_of s]). rewrite unlines_snoc, <-Hf. split; [done|].
    split; [apply Forall_app; auto|]. apply Forall2_app; [done|]. constructor; [|constructor].
    by rewrite str_of_bytes_of.
  - by eapply chain_snoc.
Qed.

Lemma log_Ok m es e io m' :
  log_inv m es → wf_entry e → f32_is_finite (ae_confidence e) = true →
  log m e io = (Ok tt, m') →
  log_inv m' (es ++ [seal e (au_prev_hash (guarded m))]).
Proof.
  intros Hi Hw Hfin Hl.
  assert (io_task io = true ∧ io_write io = None) as [Ht Hwr].
  { unfold log in Hl. destruct (io_task io); simpl in Hl; [|done].
    repeat case_match; simplify_eq; done. }
  destruct (log_written m es e io Hi Hw Ht Hwr) as (s & _ & Hnl & Hu & _ & Hs & Hlog).
  rewrite Hfin in Hs. rewrite Hl in Hlog. destruct (io_sync io); [|done]. injection Hlog as ->.
  by apply (log_inv_append m es s (seal e (au_prev_hash (guarded m)))).
Qed.

(** An append that fails before its first byte leaves no trace. *)
Definition clean (io : LogIo) : bool :=
  negb (io_task io)
  || match io_write io with Some n => bool_decide (n = O) | None => io_sync io end.

Lemma log_clean_Err m es e io err m' :
  log_inv m es → wf_entry e → clean io = true → log m e io = (Err err, m') → log_inv m' es.
Proof.
  intros Hi Hw Hcl Hl. unfold clean in Hcl.
  destruct (io_task io) eqn:Ht; simpl in Hcl; [|unfold log in Hl; rewrite Ht in Hl; by simplify_eq/=].
  destruct (io_write io) as [n|] eqn:Hwr.
  - apply bool_decide_eq_true in Hcl as ->. unfold log in Hl. rewrite Ht, Hwr in Hl.
    simpl in Hl. destruct Hi as [Hp (ls & ? & ? & ?) ?]. unfold lock in Hl. rewrite Hp in Hl.
    destruct (entry_to_string _); simplify_eq; [|by split; eauto].
    split; [done| |done]. exists ls. simpl. by rewrite app_nil_r.
  - destruct (log_written m es e io Hi Hw Ht Hwr) as (s & _ & _ & _ & _ & _ & Hlog).
    rewrite Hl, Hcl in Hlog. done.
Qed.

(** Sequences of appends, each with its outcome. *)
Fixpoint log_run (m : Mutex AuditState) (ops : list (AuditEntry * LogIo))
  : list (result unit AuditError) * Mutex AuditState :=
  match ops with
  | [] => ([], m)
  | (e, io) :: ops =>
      let '(r, m) := log m e io in
      let '(rs, m) := log_run m ops in
      (r :: rs, m)
  end.

(** The entries whose [log] call returned [Ok]. *)
Fixpoint acknowledged (ops : list (AuditEntry * LogIo)) (rs : list (result unit AuditError))
  : list AuditEntry :=
  match ops, rs with
  | (e, _) :: ops, Ok _ :: rs => e :: acknowledged ops rs
  | _ :: ops, Err _ :: rs => acknowledged ops rs
  | _, _ => []
  end.

(** An entry without its place in the chain. *)
Definition content (e : AuditEntry) : AuditEntry :=
  set_entry_hash (set_prev_hash e EmptyString) EmptyString.

Lemma log_run_inv ops : ∀ m es rs m',
  Forall (λ op, wf_entry op.1 ∧ f32_is_finite (ae_confidence op.1) = true ∧ clean op.2 = true) ops →
  log_inv m es → log_run m ops = (rs, m') →
  ∃ es', log_inv m' (es ++ es') ∧ content <$> es' = content <$> acknowledged ops rs.
Proof.
  induction ops as [|[e io] ops IH]; intros m es rs m' Hops Hi Hr; simpl in Hr.
  { simplify_eq. exists []. by rewrite app_nil_r. }
  apply Forall_cons in Hops as [(Hw & Hfin & Hcl) Hops]. simpl in *.
  destruct (log m e io) as [r m1] eqn:Hl. destruct (log_run m1 ops) as [rs1 m2] eqn:Hr1.
  injection Hr as <- <-. destruct r as [[]|err].
  - apply log_Ok with (es := es) in Hl; [|done..].
    destruct (IH _ _ _ _ Hops Hl Hr1) as (es' & Hi' & Hc).
    exists (seal e (au_prev_hash (guarded m)) :: es'). split.
    + by rewrite <-app_assoc in Hi'.
    + rewrite !fmap_cons. by f_equal.
  - apply log_clean_Err with (es := es) in Hl; [|done..].
    destruct (IH _ _ _ _ Hops Hl Hr1) as (es' & Hi' & Hc). by exists es'.
Qed.

(** ** The log under appends and reloads *)

(** What tasks do to the log: append an entry, or, at a reload, go over to
    the file that opening the path again yields ([None]: it failed). *)
Inductive AuditOp : Type :=
| OpAppend (entry : AuditEntry) (io : LogIo)
| OpReopen (opened : option (list byte)).

Definition reopened (m : Mutex AuditState) (opened : option (list byte)) : Mutex AuditState :=
  match lock m, opened with
  | Some st, Some data => unlock (mk_audit_state data (au_prev_hash st))
  | _, _ => m
  end.

Definition audit_step (m : Mutex AuditState) (op : AuditOp) : Mutex AuditState :=
  match op with
  | OpAppend e io => (log m e io).2
  | OpReopen opened => reopened m opened
  end.

Definition audit_run (m : Mutex AuditState) (ops : list AuditOp) : Mutex AuditState :=
  foldl audit_step m ops.

Lemma audit_run_app m ops1 ops2 : audit_run m (ops1 ++ ops2) = audit_run (audit_run m ops1) ops2.
Proof. apply foldl_app. Qed.

(** What [reopen] does to the state of the logger. *)
Lemma reopen_state fs me l :
  lg_state (reopen fs me l).2
  = reopened (lg_state l)
      (of_data <$> result_ok (open_secure_append fs me (lg_path l) 416 (lg_owner l))).
Proof.
  unfold reopen, reopened. destruct (lock (lg_state l)); [|done].
  by destruct (open_secure_append _ _ _ _ _).
Qed.

(** An append that leaves no torn line, of an entry the log can read back. *)
Definition readable_append (op : AuditOp) : Prop :=
  match op with
  | OpAppend e io => wf_entry e ∧ f32_is_finite (ae_confidence e) = true ∧ clean io = true
  | OpReopen _ => False
  end.

Lemma audit_run_inv ops : ∀ m es,
  Forall readable_append ops → log_inv m es →
  ∃ es', log_inv (audit_run m ops) (es ++ es').
Proof.
  induction ops as [|[e io|o] ops IH]; intros m es Hops Hi; simpl.
  - exists []. by rewrite app_nil_r.
  - apply Forall_cons in Hops as [(Hw & Hfin & Hcl) Hops].
    destruct (log m e io) as [[[]|err] m1] eqn:Hl.
    + apply log_Ok with (es := es) in Hl; [|done..]. destruct (IH _ _ Hops Hl) as [es' H].
      eexists. by rewrite <-app_assoc in H.
    + apply log_clean_Err with (es := es) in Hl; [|done..]. by apply IH.
  - by apply Forall_cons in Hops as [[] _].
Qed.

(** ** Rotation *)

(** The log as if the files rotated away, [archive], still stood before the
    file in use. *)
Definition with_archive (archive : list byte) (m : Mutex AuditState) : Mutex AuditState :=
  mk_mutex (poisoned m)
    (mk_audit_state (archive ++ au_file (guarded m)) (au_prev_hash (guarded m))).

(** Appends do not see it. *)
Lemma log_with_archive archive m e io :
  log (with_archive archive m) e io
  = ((log m e io).1, with_archive archive (log m e io).2).
Proof.
  unfold log, with_archive, unlock. destruct (io_task io); simpl; [|done].
  destruct m as [[] [file prev]]; [done|]. unfold lock. simpl.
  destruct (entry_to_string _); [|done].
  destruct (io_write io); [|destruct (io_sync io)]; simpl; by rewrite <-app_assoc.
Qed.

(** What a reload moves to the archive: the file in use, when the path leads
    to a new, empty file. *)
Definition rotated (m : Mutex AuditState) (opened : option (list byte)) : list byte :=
  match lock m, opened with
  | Some st, Some [] => au_file st
  | _, _ => []
  end.

(** The path leads to the file in use, or to a new one. *)
Definition rotation (m : Mutex AuditState) (opened : option (list byte)) : bool :=
  match opened with
  | Some data => bool_decide (data = [] ∨ data = au_file (guarded m))
  | None => true
  end.

Lemma reopened_with_archive archive m opened :
  rotation m opened = true →
  with_archive (archive ++ rotated m opened) (reopened m opened) = with_archive archive m.
Proof.
  intros Hr. unfold rotated, reopened, lock, with_archive. destruct m as [[] [file prev]]; simpl.
  { by rewrite app_nil_r. }
  destruct opened as [data|]; simpl; [|by rewrite app_nil_r].
  apply bool_decide_eq_true in Hr as [->| ->]; simpl; [by rewrite app_nil_r|].
  destruct file; by rewrite ?app_nil_r.
Qed.

(** ** Lemmas: recovery at start *)

Definition ends_nl (bs : list byte) : Prop := bs = [] ∨ last bs = Some nl.

Lemma ends_nl_unlines ls : ends_nl (unlines ls).
Proof.
  destruct (exists_last_or_nil ls) as [->|(l & x & ->)]; [by left|]. right.
  rewrite unlines_snoc. by rewrite app_assoc, last_snoc.
Qed.

Lemma ends_nl_drop n bs : ends_nl bs → ends_nl (drop n bs).
Proof.
  intros [->|Hl]; [left; by rewrite drop_nil|].
  rewrite <-(take_drop n bs), last_app in Hl.
  destruct (last (drop n bs)) as [b|] eqn:E; [right; congruence|].
  left. by apply last_None.
Qed.

Lemma after_newline_app a b :
  a ≠ [] → ends_nl a → ∃ x, after_newline (a ++ b) = x ++ b ∧ ends_nl x.
Proof.
  induction a as [|c a IH]; intros Hne He; [done|]. simpl. case_bool_decide as Hc.
  - exists a. split; [done|]. destruct He as [|He]; [done|]. destruct a; [by left|by right].
  - destruct He as [|He]; [done|]. destruct a as [|d a]; [simpl in He; congruence|].
    apply IH; [done|by right].
Qed.

Lemma ends_nl_split bs : ends_nl bs → ∃ ls, bs = unlines ls ∧ Forall no_nl ls.
Proof.
  intros He. destruct (split_on_join bs) as (ls & p & _ & Hj & Hn & Hp).
  exists ls. split; [|done]. destruct (decide (p = [])) as [->|Hne]; [by rewrite app_nil_r in Hj|].
  exfalso. destruct He as [->|He]; [by destruct (unlines ls), p|].
  rewrite Hj, last_app in He. destruct (last p) as [b|] eqn:Hl.
  - injection He as ->. apply last_Some_elem_of in Hl. unfold no_nl in Hp.
    rewrite Forall_forall in Hp. by apply (Hp nl).
  - by apply last_None in Hl.
Qed.

Lemma last_complete_line_app x l :
  ends_nl x → no_nl l → blank l = false → last_complete_line (x ++ l ++ [nl]) = Some l.
Proof.
  intros Hx Hl Hb. unfold last_complete_line.
  rewrite bool_decide_eq_false_2 by (rewrite app_assoc, last_snoc; naive_solver).
  destruct (ends_nl_split x Hx) as (ls & -> & Hn).
  rewrite <-unlines_snoc. pose proof (split_on_unlines (ls ++ [l]) []) as Hs.
  rewrite app_nil_r in Hs. rewrite Hs by (apply Forall_app; auto).
  rewrite !rev_app_distr. simpl. by rewrite Hb.
Qed.

(** The line the recovery looks at is the last one, if that is short enough. *)
Lemma last_entry_hash_line ls l :
  no_nl l → blank l = false → utf8_valid l = true →
  Z.of_nat (length l) + 2 ≤ AUDIT_RECOVERY_WINDOW_BYTES →
  last_entry_hash (unlines (ls ++ [l])) true = recover_entry_hash (str_of l).
Proof.
  intros Hn Hb Hu Hw. unfold last_entry_hash. simpl. rewrite unlines_snoc.
  set (len := Z.of_nat (length (unlines ls ++ l ++ [nl]))).
  assert (len = Z.of_nat (length (unlines ls)) + Z.of_nat (length l) + 1) as Hlen
    by (unfold len; rewrite !length_app; simpl; lia).
  destruct (Z.eqb_spec len 0); [lia|]. unfold saturating_sub.
  destruct (Z.eqb_spec (Z.max 0 (len - AUDIT_RECOVERY_WINDOW_BYTES)) 0) as [Hz|Hz]; simpl.
  - rewrite Hz. change (Z.to_nat 0) with O. rewrite drop_0.
    rewrite last_complete_line_app by auto using ends_nl_unlines.
    by rewrite Hu.
  - set (start := Z.to_nat _) in *. assert (start < length (unlines ls))%nat as Hst by lia.
    rewrite drop_app_le by lia.
    destruct (after_newline_app (drop start (unlines ls)) (l ++ [nl])) as (x & -> & Hx).
    + intros E%(f_equal length). rewrite length_drop in E. simpl in E. lia.
    + apply ends_nl_drop, ends_nl_unlines.
    + rewrite last_complete_line_app by done. by rewrite Hu.
Qed.

Lemma recover_entry_hash_Ok line e :
  entry_from_str line = Some e → is_lower_hex_hash (ae_prev_hash e) = true →
  ae_entry_hash e = entry_digest e → recover_entry_hash line = Ok (ae_entry_hash e).
Proof.
  intros Hf Hp Hd. unfold recover_entry_hash, ok_or. rewrite Hf, Hp. simpl.
  rewrite Hd at 1. rewrite entry_digest_lower. simpl.
  change (hex_sha256 (hash_payload_v1 (set_entry_hash e EmptyString))) with (entry_digest e).
  rewrite Hd. by rewrite bool_decide_eq_false_2 by (by intros []).
Qed.

Lemma chain_snoc_inv h es e h' :
  chain h (es ++ [e]) h' →
  chain h es (ae_prev_hash e) ∧ ae_entry_hash e = entry_digest e ∧ h' = ae_entry_hash e.
Proof.
  revert h. induction es as [|e0 es IH]; intros h Hc; simpl in Hc; inversion Hc; subst.
  - match goal with H : chain _ [] _ |- _ => inversion H; subst end. by repeat constructor.
  - match goal with H : chain _ (es ++ [e]) _ |- _ => apply IH in H as (? & ? & ?) end.
    repeat split; try done. by constructor.
Qed.
End Verifier.
