(* ===== verification/AuditChain.v ===== *)
(** * What the audit log promises

    The theorems about the logger, the verifier and the recovery at start of
    [AuditLog], and a concrete serializer with which they are run. *)

From S2P Require Import Prelude RustStd SecureFs Types Attestation AuditEntry AuditLog.
Open Scope Z_scope.

(** ** A serializer for concrete runs

    An entry is written as [{] and the binary digits of a code for it.  It
    stands in for [serde_json] in the examples only. *)

Definition entry_code (e : AuditEntry) : list positive :=
  [ encode (ae_ts_ms e); encode (ae_request_id e); encode (ae_caller_uid e);
    encode (ae_uid e); encode (ae_adapter_name e); encode (ae_method e);
    encode (ae_decision e); encode (ae_deny_reason e); encode (ae_confidence e);
    encode (ae_evidence_hash e); encode (ae_nonce_prefix e); encode (ae_prev_hash e);
    encode (ae_entry_hash e) ].

Definition code_entry (ps : list positive) : option AuditEntry :=
  match ps with
  | [a; b; c; d; e; f; g; h; i; j; k; l; m] =>
      a ← decode a; b ← decode b; c ← decode c; d ← decode d; e ← decode e;
      f ← decode f; g ← decode g; h ← decode h; i ← decode i; j ← decode j;
      k ← decode k; l ← decode l; m ← decode m;
      Some (mk_audit_entry a b c d e f g h i j k l m)
  | _ => None
  end.

#[global] Instance AuditEntry_countable : Countable AuditEntry.
Proof.
  refine (inj_countable entry_code code_entry _).
  abstract (intros e; unfold code_entry, entry_code, mbind, option_bind;
    repeat (rewrite decode_encode; cbv beta iota); by destruct e).
Defined.

#[global] Instance is_string_dec s : Decision (is_string s).
Proof. unfold is_string. apply _. Defined.

#[global] Instance is_opt_string_dec o : Decision (is_opt_string o).
Proof. destruct o; simpl; apply _. Defined.

Definition wf_entry_conj (e : AuditEntry) : Prop :=
  is_u64 (ae_ts_ms e) ∧ is_opt_string (ae_request_id e) ∧ is_u32 (ae_caller_uid e)
  ∧ is_u32 (ae_uid e) ∧ is_opt_string (ae_adapter_name e) ∧ is_string (ae_method e)
  ∧ is_string (ae_decision e) ∧ is_opt_string (ae_deny_reason e) ∧ is_u32 (ae_confidence e)
  ∧ is_string (ae_evidence_hash e) ∧ is_string (ae_nonce_prefix e) ∧ is_string (ae_prev_hash e)
  ∧ is_string (ae_entry_hash e).

#[global] Instance wf_entry_conj_dec e : Decision (wf_entry_conj e).
Proof. unfold wf_entry_conj, is_u64, is_u32. apply _. Defined.

Lemma wf_entry_conj_iff e : wf_entry_conj e ↔ wf_entry e.
Proof.
  unfold wf_entry_conj. split; [|intros []; tauto].
  intros (? & ? & ? & ? & ? & ? & ? & ? & ? & ? & ? & ? & ?). by split.
Qed.

Definition bit0 : byte := "0"%char.
Definition bit1 : byte := "1"%char.

Fixpoint bits_of_pos (p : positive) : list byte :=
  match p with
  | xH => []
  | xO p => bit0 :: bits_of_pos p
  | xI p => bit1 :: bits_of_pos p
  end.

Fixpoint pos_of_bits (bs : list byte) : positive :=
  match bs with
  | [] => xH
  | b :: bs => if bool_decide (b = bit1) then xI (pos_of_bits bs) else xO (pos_of_bits bs)
  end.

Lemma pos_of_bits_of_pos p : pos_of_bits (bits_of_pos p) = p.
Proof. induction p as [p IH|p IH|]; simpl; by rewrite ?IH. Qed.

Lemma bits_of_pos_ascii p : Forall (λ b, b = bit0 ∨ b = bit1) (bits_of_pos p).
Proof. induction p; simpl; constructor; auto. Qed.

Definition brace : byte := "{"%char.

Definition sample_to_string (e : AuditEntry) : option string :=
  Some (str_of (if f32_is_finite (ae_confidence e)
                then brace :: bits_of_pos (encode e) else bytes_of "{null}")).

Definition sample_from_str (s : string) : option AuditEntry :=
  match bytes_of s with
  | b :: bs =>
      if bool_decide (b = brace ∧ bytes_of s ≠ bytes_of "{null}") then
        match decode (pos_of_bits bs) with
        | Some e => if decide (wf_entry_conj e) then Some e else None
        | None => None
        end
      else None
  | [] => None
  end.

Definition sample_serde : AuditSerde :=
  {| entry_to_string := sample_to_string; entry_from_str := sample_from_str |}.

Lemma sample_serde_laws : AuditSerdeLaws sample_serde.
Proof.
  split; simpl.
  - intros e s _ [= <-]. rewrite bytes_of_str_of.
    destruct (f32_is_finite (ae_confidence e)); [|by vm_compute; repeat constructor].
    pose proof (bits_of_pos_ascii (encode e)) as Hb. split; [|split; [|done]].
    + constructor; [done|]. eapply Forall_impl; [exact Hb|]. by intros b [->| ->].
    + apply ascii_utf8. constructor; [done|]. eapply Forall_impl; [exact Hb|].
      by intros b [->| ->].
  - intros e Hw Hf _ _. unfold sample_to_string. rewrite Hf. eexists. split; [done|].
    unfold sample_from_str. rewrite bytes_of_str_of.
    rewrite bool_decide_eq_true_2.
    + rewrite pos_of_bits_of_pos, decode_encode. rewrite decide_True; [done|].
      by apply wf_entry_conj_iff.
    + split; [done|]. intros [= E]. pose proof (bits_of_pos_ascii (encode e)) as Hb.
      rewrite E in Hb. apply Forall_cons in Hb as [[?|?] _]; done.
  - intros e _ Hf. unfold sample_to_string. rewrite Hf. eexists. split; [done|].
    vm_compute. reflexivity.
  - intros s e _ H. unfold sample_from_str in H. repeat case_match; simplify_eq.
    by apply wf_entry_conj_iff.
  - intros s H. unfold sample_from_str. destruct (bytes_of s) as [|b bs]; [done|].
    rewrite bool_decide_eq_false_2; [done|]. intros [-> _]. by vm_compute in H.
Qed.

(** ** The properties of the audit log *)

(** The logger of a daemon that starts on an empty log. *)
Definition fresh_log : Mutex AuditState := unlock (mk_audit_state [] ZERO_HASH).

(** C12: what was acknowledged is in the log, and the log verifies.  After
    any sequence of appends to a fresh log in which every entry is well formed
    with a finite confidence and each append either succeeds or fails before
    its first byte, the verifier accepts the file;
    it counts exactly the acknowledged entries, its last hash is the one the
    logger carries on, and the entries it reads back are the acknowledged
    ones in order. *)
Theorem audit_log_verifies {C : Crypto} {CL : CryptoLaws C} {S : AuditSerde}
    {SL : AuditSerdeLaws S} ops rs m :
  Forall (λ op, wf_entry op.1 ∧ f32_is_finite (ae_confidence op.1) = true
                ∧ clean op.2 = true) ops →
  log_run fresh_log ops = (rs, m) →
  ∃ ls es,
    au_file (guarded m) = unlines ls ∧ entries_of ls es
    ∧ content <$> es = content <$> acknowledged ops rs
    ∧ verify_reader (au_file (guarded m)) true
      = Ok (mk_report (Z.of_nat (length (acknowledged ops rs))) (au_prev_hash (guarded m))).
Proof.
  intros Hops Hr.
  assert (log_inv fresh_log []) as Hi.
  { split; [done| |constructor]. exists []. repeat constructor. }
  destruct (log_run_inv ops fresh_log [] rs m Hops Hi Hr) as (es & Hi' & Hc). simpl in Hi'.
  pose proof (log_inv_verifies _ _ Hi') as Hv. destruct Hi' as [_ (ls & Hf & _ & He) _].
  exists ls, es. repeat split; try done. rewrite Hv. do 2 f_equal.
  by rewrite <-(length_fmap content es), Hc, length_fmap.
Qed.

Definition io_fine : LogIo := mk_log_io true None true.

Definition sample_ops : list (AuditEntry * LogIo) :=
  [(sample_entry, io_fine); (sample_entry, mk_log_io true (Some O) true);
   (sample_entry, io_fine)].

Definition sample_run := @log_run sample_crypto sample_serde fresh_log sample_ops.

Lemma audit_log_verifies_witness :
  ∃ ls es,
    au_file (guarded sample_run.2) = unlines ls ∧ @entries_of sample_serde ls es
    ∧ content <$> es = content <$> acknowledged sample_ops sample_run.1
    ∧ @verify_reader sample_crypto sample_serde (au_file (guarded sample_run.2)) true
      = Ok (mk_report (Z.of_nat (length (acknowledged sample_ops sample_run.1)))
              (au_prev_hash (guarded sample_run.2))).
Proof.
  apply (@audit_log_verifies sample_crypto sample_crypto_laws sample_serde sample_serde_laws).
  - repeat (apply Forall_cons; split; [|try apply Forall_nil_2]);
      (split; [apply wf_sample_entry|split; vm_compute; reflexivity]).
  - apply surjective_pairing.
Defined.

(** A restart continues the chain: from a log that verifies, if its last
    line fits the recovery window, the hash of the last entry is recovered
    (the zero hash for an empty log). *)
Lemma recovered_hash {C : Crypto} {CL : CryptoLaws C} {S : AuditSerde}
    {SL : AuditSerdeLaws S} data rep :
  verify_reader data true = Ok rep →
  (∀ ls l, data = unlines ls ++ l ++ [nl] → no_nl l →
     Z.of_nat (length l) + 2 ≤ AUDIT_RECOVERY_WINDOW_BYTES) →
  last_entry_hash data true = Ok (rep_last_hash rep).
Proof.
  intros Hv Hw. apply verify_reader_spec in Hv as (ls & es & -> & Hn & He & Hc & _).
  destruct (exists_last_or_nil ls) as [->|(ls0 & l & ->)].
  { inversion He; subst. inversion Hc; subst. by simpl. }
  apply Forall_app in Hn as [Hn [Hl _]%Forall_cons].
  apply Forall2_app_inv_l in He as (es0 & es1 & He & Hle & ->).
  inversion Hle as [|? e ? ? [Hu Hf] Hnil]; subst. inversion Hnil; subst.
  apply chain_snoc_inv in Hc as (Hc & Hd & ->).
  rewrite last_entry_hash_line; [|done| |done|].
  - apply recover_entry_hash_Ok; [done| |done]. eapply chain_lower; [|done].
    apply ZERO_HASH_lower.
  - destruct (blank l) eqn:Hb; [|done]. rewrite from_str_blank in Hf; [done|].
    by rewrite bytes_of_str_of.
  - apply (Hw ls0); [|done]. apply unlines_snoc.
Qed.

Lemma unlines_last_line ls l ls' l' :
  Forall no_nl ls → no_nl l → no_nl l' → unlines ls ++ l ++ [nl] = unlines ls' ++ l' ++ [nl] →
  l = l'.
Proof.
  intros Hls Hl Hl' E. destruct (ends_nl_split (unlines ls')) as (ks & Hk & Hks);
    [apply ends_nl_unlines|]. rewrite Hk in E. rewrite <-!unlines_snoc in E.
  assert (split_on nl (unlines (ls ++ [l]) ++ []) = split_on nl (unlines (ks ++ [l']) ++ [])) as E'
    by (by rewrite E).
  rewrite !split_on_unlines in E' by (apply Forall_app; auto).
  apply app_inj_tail in E' as [E' _]. by apply app_inj_tail in E' as [_ ->].
Qed.

#[global] Instance no_nl_dec l : Decision (no_nl l).
Proof. unfold no_nl. apply _. Defined.

Definition sample_line : list byte :=
  removelast (au_file (guarded (@log sample_crypto sample_serde fresh_log sample_entry io_fine).2)).

Lemma sample_line_window ls l :
  sample_line ++ [nl] = unlines ls ++ l ++ [nl] → no_nl l →
  Z.of_nat (length l) + 2 ≤ AUDIT_RECOVERY_WINDOW_BYTES.
Proof.
  intros E Hl. change (sample_line ++ [nl]) with (unlines [] ++ sample_line ++ [nl]) in E.
  apply unlines_last_line in E; [|constructor| |done].
  - subst l. apply Z.leb_le. vm_compute. reflexivity.
  - apply (bool_decide_unpack _). vm_compute. exact I.
Qed.

(** ** Tampering *)

Lemma chain_functional {C : Crypto} {CL : CryptoLaws C} h es1 : ∀ es2 h',
  length es1 = length es2 → chain h es1 h' → chain h es2 h' →
  Forall wf_entry es1 → Forall wf_entry es2 →
  es1 = es2
  ∨ ∃ i e1 e2, es1 !! i = Some e1 ∧ es2 !! i = Some e2
      ∧ collides sha256 (hash_payload_v1 e1) (hash_payload_v1 e2).
Proof.
  induction es1 as [|e1 es1 IH] using rev_ind; intros es2 h' Hlen H1 H2 W1 W2.
  { left. by destruct es2. }
  destruct (exists_last_or_nil es2) as [->|(es2' & e2 & ->)];
    [rewrite length_app in Hlen; simpl in Hlen; lia|].
  rewrite !length_app in Hlen. simpl in Hlen.
  apply chain_snoc_inv in H1 as (H1 & D1 & ->). apply chain_snoc_inv in H2 as (H2 & D2 & E).
  apply Forall_app in W1 as [W1 [We1 _]%Forall_cons], W2 as [W2 [We2 _]%Forall_cons].
  assert (sha256 (hash_payload_v1 e1) = sha256 (hash_payload_v1 e2)) as Es.
  { apply encode_hex_inj. change (entry_digest e1 = entry_digest e2). congruence. }
  destruct (decide (hash_payload_v1 e1 = hash_payload_v1 e2)) as [Ep|Ep]; cycle 1.
  { right. exists (length es1), e1, e2. split; [by apply list_lookup_middle|].
    split; [|done]. replace (length es1) with (length es2') by lia. by apply list_lookup_middle. }
  apply hash_payload_inj in Ep; [|done..].
  assert (e1 = e2) as ->.
  { destruct e1, e2. unfold set_entry_hash in Ep. simpl in *. injection Ep. intros. by subst. }
  destruct (IH es2' (ae_prev_hash e2)) as [->|(i & x & y & Hx & Hy & Hcol)];
    [lia|done|done|done|done|by left|].
  right. exists i, x, y. split; [|split]; [by apply lookup_app_l_Some..|done].
Qed.

(** C13: tampering shows.  If two log files both verify with the same report
    (the same number of entries and the same last hash), they hold the same
    entries, field by field, unless two entries at the same place are a
    collision of SHA-256. *)
Theorem audit_tamper_evident {C : Crypto} {CL : CryptoLaws C} {S : AuditSerde}
    {SL : AuditSerdeLaws S} data1 data2 rep :
  Z.of_nat (length data1) ≤ u64_max → Z.of_nat (length data2) ≤ u64_max →
  verify_reader data1 true = Ok rep → verify_reader data2 true = Ok rep →
  ∃ ls1 es1 ls2 es2,
    data1 = unlines ls1 ∧ entries_of ls1 es1 ∧ data2 = unlines ls2 ∧ entries_of ls2 es2
    ∧ (es1 = es2
       ∨ ∃ i e1 e2, es1 !! i = Some e1 ∧ es2 !! i = Some e2
           ∧ collides sha256 (hash_payload_v1 e1) (hash_payload_v1 e2)).
Proof.
  intros L1 L2 (ls1 & es1 & -> & _ & He1 & Hc1 & Hn1)%verify_reader_spec
    (ls2 & es2 & -> & _ & He2 & Hc2 & Hn2)%verify_reader_spec.
  exists ls1, es1, ls2, es2. repeat (split; [done|]).
  assert (∀ ls es, Z.of_nat (length (unlines ls)) ≤ u64_max → entries_of ls es →
    Forall wf_entry es) as Hwf.
  { intros ls es Hl He. induction He as [|l e ls es [_ Hf] He IH]; [done|].
    unfold unlines in *. rewrite fmap_cons, concat_cons, !length_app in Hl.
    constructor; [|apply IH; lia]. eapply from_str_wf; [|done]. rewrite bytes_of_str_of. lia. }
  eapply chain_functional; [|done|done|by apply (Hwf ls1)|by apply (Hwf ls2)].
  rewrite <-(Forall2_length _ _ _ He1), <-(Forall2_length _ _ _ He2). lia.
Qed.

Lemma audit_tamper_evident_witness :
  ∃ ls1 es1 ls2 es2,
    sample_line ++ [nl] = unlines ls1 ∧ @entries_of sample_serde ls1 es1
    ∧ sample_line ++ [nl] = unlines ls2 ∧ @entries_of sample_serde ls2 es2
    ∧ (es1 = es2
       ∨ ∃ i e1 e2, es1 !! i = Some e1 ∧ es2 !! i = Some e2
           ∧ collides (@sha256 sample_crypto) (hash_payload_v1 e1) (hash_payload_v1 e2)).
Proof.
  apply (@audit_tamper_evident sample_crypto sample_crypto_laws sample_serde sample_serde_laws
           (sample_line ++ [nl]) (sample_line ++ [nl])
           (mk_report 1 (@entry_digest sample_crypto (set_prev_hash sample_entry ZERO_HASH))));
    vm_compute; first [reflexivity | intros H; discriminate H].
Defined.

(** ** What the log does not survive *)

(** Verification of a good log with one more line. *)
Lemma verify_extended {C : Crypto} {CL : CryptoLaws C} {SD : AuditSerde}
    {SL : AuditSerdeLaws SD} ls l : ∀ h n ln es h',
  is_lower_hex_hash h = true → entries_of ls es → chain h es h' →
  verify_pieces true (ls ++ [l; []]) h n ln
  = let? h2 := verify_line h' (ln + Z.of_nat (length ls) + 1) l in
    Ok (mk_report (n + Z.of_nat (length ls) + 1) h2).
Proof.
  induction ls as [|l0 ls IH]; intros h n ln es h' Hh He Hc; simpl.
  - inversion He; subst. inversion Hc; subst. rewrite !Z.add_0_r. done.
  - inversion He as [|? e ? es' [Hu Hf] He']; subst.
    inversion Hc as [|? ? ? ? Hp Hd Hc']; subst.
    assert (verify_line (ae_prev_hash e) (ln + 1) l0 = Ok (ae_entry_hash e)) as ->.
    { apply verify_line_spec; [done|]. split; [done|]. by exists e. }
    destruct (ls ++ [l; []]) as [|p ps] eqn:Happ; [by destruct ls|].
    rewrite (IH (ae_entry_hash e) (n + 1) (ln + 1) es' h'); [|by rewrite Hd, entry_digest_lower|done..].
    replace (ln + Z.of_nat (S (length ls)) + 1) with (ln + 1 + Z.of_nat (length ls) + 1) by lia.
    by replace (n + Z.of_nat (S (length ls)) + 1) with (n + 1 + Z.of_nat (length ls) + 1) by lia.
Qed.

Lemma verify_appended {C : Crypto} {CL : CryptoLaws C} {SD : AuditSerde}
    {SL : AuditSerdeLaws SD} m es l :
  log_inv m es → no_nl l →
  verify_reader (au_file (guarded m) ++ l ++ [nl]) true
  = let? h2 := verify_line (au_prev_hash (guarded m)) (Z.of_nat (length es) + 1) l in
    Ok (mk_report (Z.of_nat (length es) + 1) h2).
Proof.
  intros [_ (ls & -> & Hn & He) Hc] Hl. unfold verify_reader. rewrite <-unlines_snoc.
  pose proof (split_on_unlines (ls ++ [l]) []) as Hs. rewrite app_nil_r in Hs.
  rewrite Hs by (apply Forall_app; auto). rewrite <-app_assoc. simpl.
  rewrite (verify_extended ls l ZERO_HASH 0 0 es (au_prev_hash (guarded m)));
    [|apply ZERO_HASH_lower|done|done].
  by rewrite (Forall2_length _ _ _ He).
Qed.

(** C38: one failed sync breaks the chain for good.  When the write of an
    entry reaches the file but its sync fails, the caller is told of the
    failure, yet the line stays in the file while the carried hash is not
    advanced; the next append succeeds with the old hash, and the verifier
    rejects the file at that entry. *)
Theorem audit_fork_after_failed_sync {C : Crypto} {CL : CryptoLaws C} {SD : AuditSerde}
    {SL : AuditSerdeLaws SD} m es e1 e2 :
  log_inv m es → wf_entry e1 → wf_entry e2 →
  f32_is_finite (ae_confidence e1) = true → f32_is_finite (ae_confidence e2) = true →
  entry_digest (seal e1 (au_prev_hash (guarded m))) ≠ au_prev_hash (guarded m) →
  let '(r1, m1) := log m e1 (mk_log_io true None false) in
  let '(r2, m2) := log m1 e2 (mk_log_io true None true) in
  r1 = Err AuditSyncFailed ∧ r2 = Ok tt
  ∧ verify_reader (au_file (guarded m2)) true
    = Err (VerifyPrevMismatch (Z.of_nat (length es) + 2)).
Proof.
  intros Hi W1 W2 F1 F2 Hne.
  destruct (log_written m es e1 (mk_log_io true None false) Hi W1 eq_refl eq_refl)
    as (s1 & _ & N1 & U1 & _ & R1 & ->). rewrite F1 in R1. simpl.
  set (h := au_prev_hash (guarded m)) in *.
  assert (log_inv (unlock (mk_audit_state (au_file (guarded m) ++ bytes_of s1 ++ [nl])
    (ae_entry_hash (seal e1 h)))) (es ++ [seal e1 h])) as Hi1 by (by apply log_inv_append).
  destruct (log_written m es e2 (mk_log_io true None true) Hi W2 eq_refl eq_refl)
    as (s2 & T2 & N2 & U2 & _ & R2 & _). fold h in T2, R2. rewrite F2 in R2.
  unfold log. simpl. rewrite T2. simpl. split; [done|]. split; [done|].
  change (au_file (guarded m) ++ bytes_of s1 ++ [nl]) with
    (au_file (guarded (unlock (mk_audit_state (au_file (guarded m) ++ bytes_of s1 ++ [nl])
      (ae_entry_hash (seal e1 h)))))).
  rewrite (verify_appended _ _ _ Hi1 N2). unfold verify_line. rewrite U2, str_of_bytes_of, R2.
  simpl. rewrite length_app. simpl.
  pose proof (log_inv_prev _ _ Hi) as Hlow. fold h in Hlow. rewrite Hlow. simpl.
  assert (is_lower_hex_hash (ae_entry_hash (seal e2 h)) = true) as Hl2
    by apply (entry_digest_lower (seal e2 h)).
  simpl in Hl2. rewrite Hl2. simpl. rewrite bool_decide_eq_true_2; [do 2 f_equal; lia|].
  intros E. by apply Hne.
Qed.

Lemma log_inv_fresh {C : Crypto} {SD : AuditSerde} : log_inv fresh_log [].
Proof. split; [done| |constructor]. exists []. repeat constructor. Qed.

Lemma audit_fork_after_failed_sync_witness :
  let '(r1, m1) :=
    @log sample_crypto sample_serde fresh_log sample_entry (mk_log_io true None false) in
  let '(r2, m2) :=
    @log sample_crypto sample_serde m1 sample_entry (mk_log_io true None true) in
  r1 = Err AuditSyncFailed ∧ r2 = Ok tt
  ∧ @verify_reader sample_crypto sample_serde (au_file (guarded m2)) true
    = Err (VerifyPrevMismatch 2).
Proof.
  apply (@audit_fork_after_failed_sync sample_crypto sample_crypto_laws sample_serde
           sample_serde_laws fresh_log [] sample_entry sample_entry).
  - apply log_inv_fresh.
  - apply wf_sample_entry.
  - apply wf_sample_entry.
  - reflexivity.
  - reflexivity.
  - vm_compute. discriminate.
Defined.

(** C39: an entry with a non-finite confidence poisons the log.  The append
    is acknowledged, but its line holds [null] for the confidence: the
    verifier rejects it as malformed, and so does the recovery at the next
    start, which therefore fails, as long as the file is within the recovery
    window. *)
Theorem audit_nonfinite_confidence {C : Crypto} {CL : CryptoLaws C} {SD : AuditSerde}
    {SL : AuditSerdeLaws SD} m es e :
  log_inv m es → wf_entry e → f32_is_finite (ae_confidence e) = false →
  let '(r, m') := log m e (mk_log_io true None true) in
  r = Ok tt
  ∧ verify_reader (au_file (guarded m')) true
    = Err (VerifyMalformed (Z.of_nat (length es) + 1))
  ∧ (Z.of_nat (length (au_file (guarded m'))) ≤ AUDIT_RECOVERY_WINDOW_BYTES - 1 →
     last_entry_hash (au_file (guarded m')) true = Err AuditMalformedFinal).
Proof.
  intros Hi W F.
  destruct (log_written m es e (mk_log_io true None true) Hi W eq_refl eq_refl)
    as (s & _ & N & U & B & R & ->). rewrite F in R. simpl. split; [done|]. split.
  - rewrite (verify_appended _ _ _ Hi N). unfold verify_line.
    by rewrite U, str_of_bytes_of, R.
  - destruct Hi as [_ (ls & -> & _) _]. intros Hw.
    rewrite !length_app in Hw. simpl in Hw.
    rewrite <-unlines_snoc, last_entry_hash_line by (done || lia).
    unfold recover_entry_hash. by rewrite str_of_bytes_of, R.
Qed.

Definition infinite_entry : AuditEntry :=
  mk_audit_entry 1 (Some "req-2") 1000 1000 (Some "fido2") "fido2" "deny"
    (Some "InvalidConfidence { got: inf }") f32_inf EmptyString EmptyString EmptyString
    EmptyString.

Lemma audit_nonfinite_confidence_witness :
  let '(r, m') :=
    @log sample_crypto sample_serde fresh_log infinite_entry (mk_log_io true None true) in
  r = Ok tt
  ∧ @verify_reader sample_crypto sample_serde (au_file (guarded m')) true
    = Err (VerifyMalformed 1)
  ∧ (Z.of_nat (length (au_file (guarded m'))) ≤ AUDIT_RECOVERY_WINDOW_BYTES - 1 →
     @last_entry_hash sample_crypto sample_serde (au_file (guarded m')) true
     = Err AuditMalformedFinal).
Proof.
  apply (@audit_nonfinite_confidence sample_crypto sample_crypto_laws sample_serde
           sample_serde_laws fresh_log [] infinite_entry).
  - apply log_inv_fresh.
  - split; vm_compute; intuition discriminate.
  - reflexivity.
Defined.

(** Rotation keeps the chain across files but not within the new one.
    After [reopen] on a fresh file the next entry carries the old file's
    last hash, so the verifier, which starts from the zero hash, rejects the
    rotated file at its first line; the two files concatenated verify. *)
Theorem audit_rotation_breaks_single_file {C : Crypto} {CL : CryptoLaws C} {SD : AuditSerde}
    {SL : AuditSerdeLaws SD} fs me l es file e :
  log_inv (lg_state l) es → au_prev_hash (guarded (lg_state l)) ≠ ZERO_HASH →
  open_secure_append fs me (lg_path l) 416 (lg_owner l) = Ok file → of_data file = [] →
  wf_entry e → f32_is_finite (ae_confidence e) = true →
  let '(r1, l') := reopen fs me l in
  let '(r2, m) := log (lg_state l') e (mk_log_io true None true) in
  r1 = Ok tt ∧ r2 = Ok tt
  ∧ verify_reader (au_file (guarded m)) true = Err (VerifyPrevMismatch 1)
  ∧ verify_reader (au_file (guarded (lg_state l)) ++ au_file (guarded m)) true
    = Ok (mk_report (Z.of_nat (length es) + 1) (au_prev_hash (guarded m))).
Proof.
  intros Hi Hne Ho Hd W F. unfold reopen, lock. pose proof Hi as [Hp _ _]. rewrite Hp, Ho. simpl.
  set (h := au_prev_hash (guarded (lg_state l))) in *.
  destruct (log_written (lg_state l) es e (mk_log_io true None true) Hi W eq_refl eq_refl)
    as (s & T & N & U & _ & R & _). fold h in T, R. rewrite F in R.
  unfold log. simpl. rewrite T. simpl. rewrite Hd. simpl. split; [done|]. split; [done|].
  assert (is_lower_hex_hash h = true) as Hlow by apply (log_inv_prev _ _ Hi).
  assert (is_lower_hex_hash (ae_entry_hash (seal e h)) = true) as Hl2
    by apply (entry_digest_lower (seal e h)).
  split.
  - change (bytes_of s ++ [nl]) with (au_file (guarded fresh_log) ++ bytes_of s ++ [nl]).
    rewrite (verify_appended _ _ _ log_inv_fresh N). unfold verify_line.
    rewrite U, str_of_bytes_of, R. simpl. rewrite Hlow. simpl in Hl2. rewrite Hl2. simpl.
    by rewrite bool_decide_eq_true_2.
  - pose proof (log_inv_append (lg_state l) es s (seal e h) Hi N U R eq_refl eq_refl) as Hi'.
    apply log_inv_verifies in Hi'. rewrite length_app in Hi'. simpl in Hi'. rewrite Hi'.
    do 2 f_equal. lia.
Qed.

Lemma audit_rotation_breaks_single_file_witness :
  let l := mk_logger "/l" RootOrCurrent
             (@log sample_crypto sample_serde fresh_log sample_entry io_fine).2 in
  let '(r1, l') := reopen (sample_fs 416 0 []) 990 l in
  let '(r2, m) := @log sample_crypto sample_serde (lg_state l') sample_entry
                    (mk_log_io true None true) in
  r1 = Ok tt ∧ r2 = Ok tt
  ∧ @verify_reader sample_crypto sample_serde (au_file (guarded m)) true
    = Err (VerifyPrevMismatch 1)
  ∧ @verify_reader sample_crypto sample_serde
      (au_file (guarded (lg_state l)) ++ au_file (guarded m)) true
    = Ok (mk_report (Z.of_nat (length [@seal sample_crypto sample_entry ZERO_HASH]) + 1)
            (au_prev_hash (guarded m))).
Proof.
  apply (@audit_rotation_breaks_single_file sample_crypto sample_crypto_laws sample_serde
           sample_serde_laws (sample_fs 416 0 []) 990
           (mk_logger "/l" RootOrCurrent
             (@log sample_crypto sample_serde fresh_log sample_entry io_fine).2)
           [@seal sample_crypto sample_entry ZERO_HASH]
           (set_mode (mk_file (Some (mk_stat (S_IFREG + 416) 0 0)) [] true true)
                  (mk_stat (S_IFREG + 416) 0 0) 416) sample_entry).
  - eapply (@log_Ok sample_crypto sample_crypto_laws sample_serde sample_serde_laws
              fresh_log [] sample_entry io_fine);
      [apply log_inv_fresh|apply wf_sample_entry|reflexivity|apply surjective_pairing].
  - vm_compute. discriminate.
  - vm_compute. reflexivity.
  - reflexivity.
  - apply wf_sample_entry.
  - reflexivity.
Defined.
