(* ===== verification/Health.v ===== *)
(** * Adapter health: [crates/ola-core/src/adapters/health.rs]

    A state machine per adapter, driven by the outcome of periodic pings. *)

From S2P Require Import Prelude RustStd.
Open Scope Z_scope.

Inductive HealthStatus : Type := Up | Degraded | Down.

#[global] Instance HealthStatus_eq_dec : EqDecision HealthStatus.
Proof. solve_decision. Defined.

Record AdapterHealth := mk_health {
  status : HealthStatus;
  consecutive_failures : Z;
  last_checked : Z;
  last_success : option Z
}.

Abbreviation HealthMap := (Mutex (gmap string AdapterHealth)) (only parsing).

Definition new_health (st : HealthStatus) (now : Z) : AdapterHealth :=
  mk_health st 0 now (if bool_decide (st = Up) then Some now else None).

(** The failure counter is a [u32]; the release build wraps. *)
Definition record_probe (h : AdapterHealth) (is_up : bool) (now : Z) : AdapterHealth :=
  if is_up then mk_health Up 0 now (Some now)
  else
    let failures := wrapping_add_u32 (consecutive_failures h) 1 in
    let st := if bool_decide (is_Some (last_success h)) && (failures <? 3)
              then Degraded else Down in
    mk_health st failures now (last_success h).

(** [spawn]: every configured adapter starts out [Down]. *)
Definition initial_health (names : list string) (now : Z) : HealthMap :=
  unlock (list_to_map ((λ n, (n, new_health Down now)) <$> names)).

(** What the monitor meets at one client of a round: whether the client has a
    permit to spare, the answer to the ping, and the time after it. *)
Record Probe := mk_probe { pr_name : string; pr_idle : bool; pr_up : bool; pr_now : Z }.

Definition probe_client (m : HealthMap) (p : Probe) : HealthMap :=
  if negb (pr_idle p) then m
  else match lock m with
       | None => m
       | Some map =>
           let h := match map !! pr_name p with
                    | Some health => record_probe health (pr_up p) (pr_now p)
                    | None => record_probe (new_health Down (pr_now p)) (pr_up p) (pr_now p)
                    end in
           unlock (<[pr_name p := h]> map)
       end.

(** Any number of rounds of the monitor's loop, one client after the other. *)
Definition monitor (m : HealthMap) (ps : list Probe) : HealthMap := foldl probe_client m ps.

(** ** Specification: the status as a function of the answers *)

(** The answers of one adapter, latest first. *)
Fixpoint failures_since (answers : list bool) : nat :=
  match answers with
  | false :: answers => S (failures_since answers)
  | _ => O
  end.

Definition expected_status (answers : list bool) : HealthStatus :=
  if bool_decide (true ∈ answers) then
    match failures_since answers with
    | O => Up
    | 1%nat | 2%nat => Degraded
    | _ => Down
    end
  else Down.

(** The probes of an adapter that were made, latest first. *)
Definition answers_of (name : string) (ps : list Probe) : list bool :=
  rev (pr_up <$> List.filter (λ p, pr_idle p && bool_decide (pr_name p = name)) ps).

(** ** Lemmas *)

Record health_inv (h : AdapterHealth) (answers : list bool) : Prop := {
  hi_status : status h = expected_status answers;
  hi_failures : consecutive_failures h = Z.of_nat (failures_since answers);
  hi_success : is_Some (last_success h) ↔ true ∈ answers
}.

Lemma failures_since_length answers : (failures_since answers ≤ length answers)%nat.
Proof. induction answers as [|[] answers IH]; simpl; lia. Qed.

Lemma new_health_inv now : health_inv (new_health Down now) [].
Proof.
  split; [done|done|]. simpl. split; [by intros []|]. by intros ?%not_elem_of_nil.
Qed.

Lemma record_probe_inv h answers up now :
  Z.of_nat (length answers) < u32_max → health_inv h answers →
  health_inv (record_probe h up now) (up :: answers).
Proof.
  intros Hlen [Hst Hf Hs]. pose proof (failures_since_length answers). unfold u32_max in Hlen.
  destruct up; simpl.
  - split; simpl; [|done|].
    + unfold expected_status. by rewrite bool_decide_eq_true_2 by set_solver.
    + split; [set_solver|eauto].
  - assert (wrapping_add_u32 (consecutive_failures h) 1
      = Z.of_nat (S (failures_since answers))) as Hw.
    { unfold wrapping_add_u32. rewrite Hf, Z.mod_small; lia. }
    assert (true ∈ false :: answers ↔ true ∈ answers) as Hin by set_solver.
    split; simpl; [|by rewrite Hw|by rewrite Hin].
    rewrite Hw. unfold expected_status. rewrite (bool_decide_ext _ _ Hin). simpl.
    rewrite (bool_decide_ext _ _ Hs). case_bool_decide; simpl; [|done].
    destruct (failures_since answers) as [|[|n]]; simpl; [done|done|].
    destruct (Z.ltb_spec (Z.of_nat (S (S (S n)))) 3); [lia|done].
Qed.

Lemma answers_of_cons name p ps :
  answers_of name (p :: ps)
  = answers_of name ps ++ (if pr_idle p && bool_decide (pr_name p = name) then [pr_up p] else []).
Proof.
  unfold answers_of. simpl. destruct (pr_idle p && _); simpl; [done|]. by rewrite app_nil_r.
Qed.

Lemma monitor_inv name ps : ∀ m answers h,
  poisoned m = false → guarded m !! name = Some h → health_inv h answers →
  Z.of_nat (length (answers_of name ps ++ answers)) ≤ u32_max →
  poisoned (monitor m ps) = false
  ∧ ∃ h', guarded (monitor m ps) !! name = Some h'
          ∧ health_inv h' (answers_of name ps ++ answers).
Proof.
  induction ps as [|p ps IH]; intros m answers h Hp Hl Hi Hlen; [eauto|].
  rewrite answers_of_cons, <-app_assoc in *. simpl.
  assert (probe_client m p = m ∧ pr_idle p = false
    ∨ pr_idle p = true ∧ ∃ x, probe_client m p = unlock (<[pr_name p := x]> (guarded m))
        ∧ (pr_name p = name → x = record_probe h (pr_up p) (pr_now p))) as Hpc.
  { unfold probe_client, lock. destruct (pr_idle p); simpl; [|by left]. rewrite Hp. right.
    split; [done|]. eexists. split; [done|]. intros ->. by rewrite Hl. }
  destruct Hpc as [[-> Hid]|[Hid (x & -> & Hx)]]; rewrite Hid in *; simpl in *; [by eapply IH|].
  case_bool_decide as Hn; simpl in *.
  - apply (IH _ (pr_up p :: answers) x); [done| | |done].
    + simpl. rewrite Hn. apply lookup_insert_eq.
    + rewrite Hx by done. apply record_probe_inv; [|done].
      rewrite length_app in Hlen. simpl in Hlen. lia.
  - apply (IH _ answers h); [done| |done|done]. simpl. by rewrite lookup_insert_ne.
Qed.

(** ** The property of the health monitor *)

(** Routing health is decided by the last answers.  After any rounds of
    the monitor (busy adapters are skipped), an adapter is [Up] exactly when
    its last ping was answered, [Degraded] when it was answered before and
    then missed one or two pings, and [Down] otherwise: never answered, or
    three or more misses.  (As long as fewer than 2^32 pings were sent.) *)
Theorem health_status_spec names now ps name :
  name ∈ names → Z.of_nat (length (answers_of name ps)) ≤ u32_max →
  ∃ h, guarded (monitor (initial_health names now) ps) !! name = Some h
       ∧ status h = expected_status (answers_of name ps).
Proof.
  intros Hin Hlen.
  assert (guarded (initial_health names now) !! name = Some (new_health Down now)) as Hl.
  { unfold initial_health. simpl.
    assert (∀ x, (list_to_map ((λ n, (n, new_health Down now)) <$> names) : gmap string _)
      !! name = Some x → x = new_health Down now) as Hv.
    { intros x Hx%elem_of_list_to_map_2. apply list_elem_of_fmap in Hx as (n & E & _).
      by simplify_eq. }
    destruct ((list_to_map ((λ n, (n, new_health Down now)) <$> names) : gmap string _)
      !! name) as [x|] eqn:E; [by rewrite (Hv x)|].
    apply not_elem_of_list_to_map_2 in E. destruct E. rewrite <-list_fmap_compose.
    apply list_elem_of_fmap. by exists name. }
  destruct (monitor_inv name ps (initial_health names now) [] _ eq_refl Hl (new_health_inv now))
    as [_ (h & Hh & [Hs _ _])]; rewrite app_nil_r in *; [done|]. by exists h.
Qed.

Definition sample_probes : list Probe :=
  [ mk_probe "fido2" true true 1; mk_probe "fido2" true false 2; mk_probe "pin" true true 3;
    mk_probe "fido2" false true 4; mk_probe "fido2" true false 5 ].

Lemma health_status_spec_witness :
  ∃ h, guarded (monitor (initial_health ["pin"; "fido2"] 0) sample_probes) !! "fido2" = Some h
       ∧ status h = Degraded.
Proof.
  apply (health_status_spec ["pin"; "fido2"] 0 sample_probes "fido2").
  - set_solver.
  - vm_compute. discriminate.
Defined.
