(* ===== verification/Json.v ===== *)
(** * JSON values: [serde_json::Value] as the sources use it

    The type and the lookups are those of the crate's documentation; text is
    parsed and printed by the crate, which the components take as parameters. *)

From S2P Require Import Prelude RustStd.
Open Scope Z_scope.

(** [serde_json::Number] *)
Inductive Number : Type :=
| PosInt (n : Z)               (* u64 *)
| NegInt (n : Z)               (* negative i64 *)
| Float (bits : Z).            (* finite f64 *)

Inductive Value : Type :=
| Null
| VBool (b : bool)
| VNumber (n : Number)
| VString (s : string)
| VArray (vs : list Value)
| VObject (fields : list (string * Value)).

(** [value.get(key)] *)
Definition get_field (v : Value) (key : string) : option Value :=
  match v with
  | VObject fields =>
      match list_find (λ f, f.1 = key) fields with Some (_, (_, x)) => Some x | None => None end
  | _ => None
  end.

(** [value[key]]: [Null] when there is no such field. *)
Definition get (v : Value) (key : string) : Value := default Null (get_field v key).

Definition as_str (v : Value) : option string :=
  match v with VString s => Some s | _ => None end.

Definition as_u64 (v : Value) : option Z :=
  match v with VNumber (PosInt n) => Some n | _ => None end.

(** [value == n] for an unsigned [n], and [value == b]. *)
Definition eq_uint (v : Value) (n : Z) : bool := bool_decide (as_u64 v = Some n).
Definition eq_bool (v : Value) (b : bool) : bool :=
  match v with VBool c => bool_decide (c = b) | _ => false end.
Definition eq_str (v : Value) (s : string) : bool := bool_decide (as_str v = Some s).
