(* ===== verification/Client.v ===== *)
(** * Talking to an adapter: [crates/ola-core/src/adapters/client.rs]

    Every await is an input: what the socket, the timers and the peer do.
    The lines handed to the socket are part of the result, so that what an
    adapter can see is a property of the run. *)

From S2P Require Import Prelude RustStd Types SecureFs Json.
Open Scope Z_scope.

Definition PROTOCOL_VERSION : Z := 1.

Record AdapterClient := mk_client {
  cl_name : string;
  cl_socket_path : string;
  cl_expected_uid : Z;
  cl_timeout : Z                         (* nanoseconds *)
}.

#[global] Instance AdapterClient_eq_dec : EqDecision AdapterClient.
Proof. solve_decision. Defined.

Inductive AdapterError : Type :=
| Timeout
| Connect (e : IoKind)
| PeerUidMismatch (expected got : Z)
| Disconnected
| VersionMismatch (version : Z)
| IdMismatch
| Serde
| Codec
| Nix
| MethodNotFound (method : string)
| AdapterDown (name : string)
| AdapterBusy (name : string).

#[global] Instance AdapterError_eq_dec : EqDecision AdapterError.
Proof. solve_decision. Defined.

(** [serde_json] at the request and result types. *)
Class WireSerde := {
  request_to_string : VerificationRequest → option string;
  result_from_str : string → option VerificationResult;
  value_from_str : string → option Value;
  value_to_string : Value → string
}.

(** A timed await: it elapses, or it completes with a value. *)
Inductive Timed (A : Type) : Type := Elapsed | Done (a : A).
Arguments Elapsed {A}.
Arguments Done {A} a.

(** What one exchange with the adapter's socket meets.  [framed.send] and
    [framed.next] fail with a codec error ([None] inside), which includes a
    line over [MAX_RESPONSE_BYTES]; the stream may end. *)
Record Exchange := mk_exchange {
  ex_connect : Timed (option IoKind);                (* [None]: connected *)
  ex_peer_uid : option Z;                            (* SO_PEERCRED *)
  ex_send : Timed bool;
  ex_next : Timed (option (option string))
}.

Definition await {A} (t : Timed A) : result A AdapterError :=
  match t with Elapsed => Err Timeout | Done a => Ok a end.

Section Client.
Context `{W : WireSerde}.

(** The connection up to the credential check. *)
Definition connect_checked (c : AdapterClient) (ex : Exchange) : result unit AdapterError :=
  let? conn := await (ex_connect ex) in
  let? _ := match conn with Some e => Err (Connect e) | None => Ok tt end in
  let? uid := ok_or Nix (ex_peer_uid ex) in
  if negb (uid =? cl_expected_uid c)
  then Err (PeerUidMismatch (cl_expected_uid c) uid)
  else Ok tt.

(** From the answer on. *)
Definition check_response (request : VerificationRequest) (ex : Exchange)
  : result VerificationResult AdapterError :=
  let? next := await (ex_next ex) in
  let? line := ok_or Disconnected next in
  let? line := ok_or Codec line in
  let? result := ok_or Serde (result_from_str line) in
  if negb (res_version result =? PROTOCOL_VERSION)
  then Err (VersionMismatch (res_version result))
  else if bool_decide (res_id result ≠ req_id request) then Err IdMismatch
  else Ok result.

(** [verify], with the lines given to the socket. *)
Definition verify (c : AdapterClient) (request : VerificationRequest) (ex : Exchange)
  : result VerificationResult AdapterError * list string :=
  match connect_checked c ex with
  | Err e => (Err e, [])
  | Ok _ =>
      match request_to_string request with
      | None => (Err Serde, [])
      | Some req_json =>
          match await (ex_send ex) with
          | Err e => (Err e, [req_json])
          | Ok false => (Err Codec, [req_json])
          | Ok true => (check_response request ex, [req_json])
          end
      end
  end.

Definition ping_message : string :=
  value_to_string (VObject [("version", VNumber (PosInt PROTOCOL_VERSION));
                            ("method", VString "ping")]).

(** [ping_once]; its awaits are under one timer, see [ping]. *)
Definition ping_once (c : AdapterClient) (ex : Exchange) : result bool AdapterError :=
  let? conn := await (ex_connect ex) in
  let? _ := match conn with Some e => Err (Connect e) | None => Ok tt end in
  let? uid := ok_or Nix (ex_peer_uid ex) in
  if negb (uid =? cl_expected_uid c) then Ok false
  else
  let? sent := await (ex_send ex) in
  if negb sent then Err Codec
  else
  let? next := await (ex_next ex) in
  let? line := ok_or Disconnected next in
  let? line := ok_or Codec line in
  let? response := ok_or Serde (value_from_str line) in
  Ok (eq_uint (get response "version") PROTOCOL_VERSION
      && eq_bool (get response "ok") true).

(** An await that the timer of [ping] interrupts is [Elapsed] in [ex]. *)
Definition ping (c : AdapterClient) (ex : Exchange) : bool :=
  match ping_once c ex with Ok b => b | Err _ => false end.

(** ** Lemmas *)

Lemma connect_checked_Ok c ex :
  connect_checked c ex = Ok tt ↔
  ex_connect ex = Done None ∧ ex_peer_uid ex = Some (cl_expected_uid c).
Proof.
  unfold connect_checked, await, ok_or.
  destruct (ex_connect ex) as [|[e|]]; [naive_solver..|].
  destruct (ex_peer_uid ex) as [uid|]; [|naive_solver].
  destruct (Z.eqb_spec uid (cl_expected_uid c)); simpl; naive_solver.
Qed.

Lemma check_response_Ok request ex r :
  check_response request ex = Ok r ↔
  (∃ line, ex_next ex = Done (Some (Some line)) ∧ result_from_str line = Some r)
  ∧ res_version r = PROTOCOL_VERSION ∧ res_id r = req_id request.
Proof.
  unfold check_response, await, ok_or.
  destruct (ex_next ex) as [|[[line|]|]];
    try (split; [done|by intros ((l & [=] & _) & _)]).
  assert (∀ l, Done (Some (Some line)) = Done (Some (Some l)) → l = line) as Hl
    by (by intros l [=]).
  destruct (result_from_str line) as [r'|] eqn:Hr;
    [|split; [done|intros ((l & ->%Hl & ?) & _); congruence]].
  destruct (Z.eqb_spec (res_version r') PROTOCOL_VERSION) as [Hver|Hver]; simpl;
    [|split; [done|intros ((l & ->%Hl & ?) & ? & _); congruence]].
  case_bool_decide as Hid;
    [split; [done|intros ((l & ->%Hl & ?) & _ & ?); congruence]|].
  split.
  - intros [= <-]. split; [eauto|]. done.
  - intros ((l & ->%Hl & Hr') & _). congruence.
Qed.

Lemma client_verify_Ok c request ex r sent :
  verify c request ex = (Ok r, sent) ↔
  ex_connect ex = Done None ∧ ex_peer_uid ex = Some (cl_expected_uid c)
  ∧ (∃ json, request_to_string request = Some json ∧ sent = [json])
  ∧ ex_send ex = Done true ∧ check_response request ex = Ok r.
Proof.
  unfold verify. destruct (connect_checked c ex) as [[]|] eqn:Hc.
  - apply connect_checked_Ok in Hc as [-> ->].
    destruct (request_to_string request) as [json|];
      [|split; [done|by intros (_ & _ & (j & [=] & _) & _)]].
    destruct (ex_send ex) as [|[]]; simpl;
      try (split; [done|by intros (_ & _ & _ & [=] & _)]).
    split.
    + intros [= Hr <-]. eauto 10.
    + by intros (_ & _ & (j & [= <-] & ->) & _ & ->).
  - split; [done|]. intros (H1 & H2 & _).
    assert (connect_checked c ex = Ok tt) by (by apply connect_checked_Ok). congruence.
Qed.
End Client.

(** ** The property of the adapter client *)

(** C27: the adapter client only talks to, and only believes, the right peer.
    Nothing is ever sent before the peer's kernel-supplied uid is known to be
    the configured one, and then at most the one request.  A result is
    returned exactly when that check, the send and the receive succeed and
    the answer parses, has protocol version 1 and carries the id of this
    request. *)
Theorem adapter_verify_sound {W : WireSerde} c request ex :
  let '(r, sent) := verify c request ex in
  (∀ line, line ∈ sent → ex_peer_uid ex = Some (cl_expected_uid c)
                         ∧ request_to_string request = Some line ∧ length sent = 1%nat)
  ∧ ∀ res, r = Ok res ↔
      ex_connect ex = Done None ∧ ex_peer_uid ex = Some (cl_expected_uid c)
      ∧ request_to_string request ≠ None ∧ ex_send ex = Done true
      ∧ (∃ line, ex_next ex = Done (Some (Some line)) ∧ result_from_str line = Some res)
      ∧ res_version res = 1 ∧ res_id res = req_id request.
Proof.
  destruct (verify c request ex) as [r sent] eqn:Hv. split.
  - intros line Hl. unfold verify in Hv. destruct (connect_checked c ex) as [[]|] eqn:Hc;
      [|by simplify_eq; apply not_elem_of_nil in Hl].
    apply connect_checked_Ok in Hc as [_ Hu].
    destruct (request_to_string request) as [json|];
      [|by simplify_eq; apply not_elem_of_nil in Hl].
    assert (sent = [json]) as -> by (repeat case_match; by simplify_eq).
    apply list_elem_of_singleton in Hl as ->. done.
  - intros res. split.
    + intros ->. apply client_verify_Ok in Hv as (? & ? & (json & Hj & _) & ? & Hr).
      apply check_response_Ok in Hr as (? & ? & ?). by rewrite Hj.
    + intros (H1 & H2 & H3 & H4 & H5 & H6 & H7).
      destruct (request_to_string request) as [json|] eqn:Hj; [|done].
      assert (verify c request ex = (Ok res, [json])) as Hv'.
      { apply client_verify_Ok. repeat (split; [by eauto|]). by apply check_response_Ok. }
      congruence.
Qed.
