(* ===== verification/AdapterConfig.v ===== *)
(** * Adapter configuration files: [crates/ola-core/src/adapters/config_loader.rs]

    A directory of TOML files, each naming an adapter, its socket, its uid,
    its methods and its time-out.  TOML itself is a parameter. *)

From S2P Require Import Prelude RustStd Types SecureFs Attestation.
Open Scope Z_scope.

Definition MAX_ADAPTER_CONFIG_BYTES : Z := 64 * 1024.

(** [AdapterConfig] of registry.rs *)
Record AdapterConfig := mk_config {
  ac_name : string;
  ac_socket_path : string;
  ac_expected_uid : Z;
  ac_methods : list string;
  ac_timeout_ms : Z
}.

(** The [reason]s given to [handle_violation]. *)
Inductive Violation : Type :=
| EntryUnreadable
| ConfigFile (e : FsError)
| ParseFailed
| BadAdapterName (e : string)
| EmptySocketPath
| NoMethods
| BadMethodName (e : string)
| DuplicateMethod (method : string)
| BadTimeout.

Inductive ConfigError : Type :=
| NoConfigDir (dir : string)
| ConfigDirUnreadable (dir : string)
| BadConfig (path : string) (v : Violation)
| NoConfigs (dir : string).

(** The loop over [cfg.methods] with the set of methods seen so far. *)
Fixpoint validate_methods (methods : list string) (seen : gset string)
  : result unit Violation :=
  match methods with
  | [] => Ok tt
  | method :: methods =>
      let? _ := map_err BadMethodName (validate_method_name method false) in
      if bool_decide (method ∈ seen) then Err (DuplicateMethod method)
      else validate_methods methods ({[method]} ∪ seen)
  end.

Definition validate_adapter_config (cfg : AdapterConfig) : result unit Violation :=
  let? _ := map_err BadAdapterName (validate_adapter_name (ac_name cfg)) in
  if bool_decide (ac_socket_path cfg = EmptyString) then Err EmptySocketPath
  else if bool_decide (ac_methods cfg = []) then Err NoMethods
  else
  let? _ := validate_methods (ac_methods cfg) ∅ in
  if negb ((100 <=? ac_timeout_ms cfg) && (ac_timeout_ms cfg <=? 30000)) then Err BadTimeout
  else Ok tt.

Definition config_spec (owner : OwnerPolicy) : SecureFileSpec :=
  mk_spec "adapter config" (SizeMax MAX_ADAPTER_CONFIG_BYTES) NotGroupWorldWritable owner.

Section Loader.
(** [toml::from_str::<AdapterConfig>] *)
Context (toml_adapter : string → option AdapterConfig).
Context (fs : Fs) (current_uid : Z) (dir : string) (owner : OwnerPolicy).

(** [handle_violation]: stop when strict, skip the file otherwise. *)
Definition handle_violation (strict : bool) (path : string) (v : Violation)
  : result unit ConfigError :=
  if strict then Err (BadConfig path v) else Ok tt.

(** One pass through the body of the loop, up to its [continue] or [push]:
    nothing, a configuration, or a violation at a path. *)
Definition load_entry (entry : option DirEntry)
  : result (option AdapterConfig) (string * Violation) :=
  match entry with
  | None => Err (dir, EntryUnreadable)
  | Some entry =>
      let path := entry_path dir (de_name entry) in
      if bool_decide (extension (de_name entry) ≠ Some (bytes_of "toml")) then Ok None
      else
      let? contents := map_err (λ e, (path, ConfigFile e))
                         (read_secure_to_string fs current_uid path (config_spec owner)) in
      let? cfg := ok_or (path, ParseFailed) (toml_adapter contents) in
      let? _ := map_err (pair path) (validate_adapter_config cfg) in
      Ok (Some cfg)
  end.

Fixpoint load_entries (strict : bool) (entries : list (option DirEntry))
    (configs : list AdapterConfig) : result (list AdapterConfig) ConfigError :=
  match entries with
  | [] => Ok configs
  | entry :: entries =>
      match load_entry entry with
      | Ok None => load_entries strict entries configs
      | Ok (Some cfg) => load_entries strict entries (configs ++ [cfg])
      | Err (path, v) =>
          let? _ := handle_violation strict path v in
          load_entries strict entries configs
      end
  end.

Definition load_adapter_configs (is_dir : bool) (listing : option (list (option DirEntry)))
    (strict : bool) : result (list AdapterConfig) ConfigError :=
  if negb is_dir then (if strict then Err (NoConfigDir dir) else Ok [])
  else
  let? entries := ok_or (ConfigDirUnreadable dir) listing in
  let? configs := load_entries strict entries [] in
  if strict && bool_decide (configs = []) then Err (NoConfigs dir) else Ok configs.

(** ** Specification *)

(** What validation promises the registry. *)
Definition wf_config (cfg : AdapterConfig) : Prop :=
  validate_name (ac_name cfg) false = Ok tt
  ∧ ac_socket_path cfg ≠ EmptyString
  ∧ ac_methods cfg ≠ [] ∧ NoDup (ac_methods cfg)
  ∧ Forall (λ m, validate_name m false = Ok tt) (ac_methods cfg)
  ∧ 100 ≤ ac_timeout_ms cfg ≤ 30000.

(** The configurations of the well-formed files, in directory order. *)
Definition good_configs (entries : list (option DirEntry)) : list AdapterConfig :=
  omap (λ e, match load_entry e with Ok c => c | Err _ => None end) entries.

(** ** Lemmas *)

Lemma map_err_Ok {A E F} (f : E → F) (r : result A E) a : map_err f r = Ok a ↔ r = Ok a.
Proof. destruct r; simpl; naive_solver. Qed.

Lemma validate_methods_Ok methods seen :
  validate_methods methods seen = Ok tt ↔
  NoDup methods ∧ Forall (λ m, validate_name m false = Ok tt) methods
  ∧ Forall (λ m, m ∉ seen) methods.
Proof.
  revert seen. induction methods as [|m methods IH]; intros seen; simpl.
  { split; [|done]. intros _. split; [constructor|]. split; constructor. }
  rewrite NoDup_cons, !Forall_cons. unfold validate_method_name.
  destruct (validate_name m false) as [[]|e] eqn:Hv; simpl; [|split; [done|]; by intros (_ & [? _] & _)].
  case_bool_decide as Hin; [split; [done|]; by intros (_ & _ & ? & _)|].
  rewrite IH. setoid_rewrite not_elem_of_union. setoid_rewrite not_elem_of_singleton.
  rewrite !Forall_forall. split.
  - intros (Hn & Hval & Hnew). repeat split; try done.
    + intros Hm. by destruct (Hnew m Hm).
    + intros x Hx. by destruct (Hnew x Hx).
  - intros ([Hm Hn] & [_ Hval] & [_ Hs]). repeat split; try done; [|by apply Hs].
    intros ->. by apply Hm.
Qed.

Lemma validate_adapter_config_Ok cfg : validate_adapter_config cfg = Ok tt ↔ wf_config cfg.
Proof.
  unfold validate_adapter_config, validate_adapter_name, wf_config.
  destruct (validate_name (ac_name cfg) false) as [[]|e]; simpl; [|split; [done|by intros [? _]]].
  case_bool_decide as Hp; [split; [done|]; by intros (_ & ? & _)|].
  case_bool_decide as Hm; [split; [done|]; by intros (_ & _ & ? & _)|].
  pose proof (validate_methods_Ok (ac_methods cfg) ∅) as Hv.
  assert (Forall (λ m, m ∉ (∅ : gset string)) (ac_methods cfg)) as He
    by (apply Forall_forall; set_solver).
  destruct (validate_methods (ac_methods cfg) ∅) as [[]|v].
  - destruct (proj1 Hv eq_refl) as (? & ? & _).
    destruct (Z.leb_spec 100 (ac_timeout_ms cfg)), (Z.leb_spec (ac_timeout_ms cfg) 30000); simpl;
      (split; [done || (intros _; repeat split; done || lia)|
               done || (intros (_ & _ & _ & _ & _ & ?); lia)]).
  - split; [done|]. intros (_ & _ & _ & ? & ? & _). by apply Hv.
Qed.

Lemma load_entry_wf e cfg : load_entry e = Ok (Some cfg) → wf_config cfg.
Proof.
  unfold load_entry. intros H. destruct e as [e|]; [|done]. case_bool_decide; [done|].
  destruct (read_secure_to_string _ _ _ _); simpl in H; [|done].
  destruct (toml_adapter _) as [c|]; simpl in H; [|done].
  destruct (validate_adapter_config c) as [[]|] eqn:Hv; simpl in H; [|done].
  simplify_eq. by apply validate_adapter_config_Ok.
Qed.

Lemma good_configs_cons e entries :
  good_configs (e :: entries)
  = match load_entry e with Ok (Some c) => [c] | _ => [] end ++ good_configs entries.
Proof.
  unfold good_configs. simpl. destruct (load_entry e) as [[c|]|]; simpl; done.
Qed.

Lemma load_entries_spec strict entries : ∀ configs cs,
  load_entries strict entries configs = Ok cs ↔
  cs = configs ++ good_configs entries
  ∧ (strict = true → Forall (λ e, ∃ c, load_entry e = Ok c) entries).
Proof.
  induction entries as [|e entries IH]; intros configs cs; cbn [load_entries].
  { unfold good_configs. simpl. rewrite app_nil_r. split; [|by intros [-> _]].
    intros [= <-]. split; [done|]. constructor. }
  rewrite good_configs_cons, Forall_cons.
  destruct (load_entry e) as [[c|]|[path v]]; simpl.
  - rewrite IH, <-app_assoc. simpl. split; intros [-> H]; (split; [done|]); intros Hs;
      specialize (H Hs); [|tauto]. split; [eauto|done].
  - rewrite IH. split; intros [-> H]; (split; [done|]); intros Hs; specialize (H Hs); [|tauto].
    split; [eauto|done].
  - destruct strict; simpl.
    + split; [done|]. intros [_ H]. destruct (H eq_refl) as [[c [=]] _].
    + rewrite IH. split; intros [-> H]; by split.
Qed.

Lemma good_configs_wf entries : Forall wf_config (good_configs entries).
Proof.
  apply Forall_forall. intros c Hc. apply list_elem_of_omap in Hc as (e & _ & He).
  destruct (load_entry e) as [o|] eqn:El; [|done]. subst o. by eapply load_entry_wf.
Qed.

Lemma loaded_configs_wf is_dir listing strict cs :
  load_adapter_configs is_dir listing strict = Ok cs → Forall wf_config cs.
Proof.
  unfold load_adapter_configs. intros H.
  destruct is_dir; simpl in H; [|destruct strict; simplify_eq; constructor].
  peel H as [entries|] El. peel H as [cs'|] Ec.
  apply load_entries_spec in Ec as [-> _]. simpl in H.
  destruct (strict && _); simplify_eq. apply good_configs_wf.
Qed.
End Loader.

(** ** The property of the configuration loader *)

(** Which adapter configurations are loaded.  The result of a load is
    exactly the configurations of the readable, well-formed TOML files, in
    directory order.  In strict mode it succeeds only if the directory is
    there, no entry or TOML file was bad and at least one configuration was
    found; in lax mode it fails only if the directory cannot be listed.
    Every loaded configuration has a valid adapter name, a socket path, at
    least one method, no method twice or named [any], and a time-out of 100
    to 30000 ms. *)
Theorem adapter_configs_spec toml fs me dir owner is_dir listing strict cs :
  load_adapter_configs toml fs me dir owner is_dir listing strict = Ok cs ↔
  (if is_dir then
     ∃ entries, listing = Some entries
       ∧ cs = good_configs toml fs me dir owner entries
       ∧ Forall wf_config cs
       ∧ (strict = true → cs ≠ []
          ∧ Forall (λ e, ∃ c, load_entry toml fs me dir owner e = Ok c) entries)
   else strict = false ∧ cs = []).
Proof.
  unfold load_adapter_configs. destruct is_dir; simpl; cycle 1.
  { destruct strict; split; [done|by intros [? _]|by intros [= <-]|by intros [_ ->]]. }
  destruct listing as [entries|]; simpl; [|split; [done|by intros (? & ? & _)]].
  pose proof (good_configs_wf toml fs me dir owner entries) as Hwf.
  destruct (load_entries toml fs me dir owner strict entries []) as [cs'|err] eqn:Hl; simpl.
  - apply load_entries_spec in Hl as [-> Hs]. simpl.
    destruct strict; simpl.
    + case_bool_decide as Hne; split.
      * done.
      * intros (es & [= <-] & -> & _ & H). by destruct (H eq_refl).
      * intros [= <-]. exists entries. split_and!; auto.
      * by intros (es & [= <-] & -> & _).
    + split; [intros [= <-]; exists entries; split_and!; auto; done|by intros (es & [= <-] & -> & _)].
  - split; [done|]. intros (es & [= <-] & -> & _ & H).
    assert (load_entries toml fs me dir owner strict entries []
      = Ok (good_configs toml fs me dir owner entries)) as Hok; [|congruence].
    apply load_entries_spec. split; [done|]. intros Hs. by destruct (H Hs).
Qed.
