(* ===== verification/Registry.v ===== *)
(** * The adapter registry: [crates/ola-core/src/adapters/registry.rs]

    Methods are mapped to the clients of the adapters that own them; a
    request is resolved to a client once, and dispatched only if the health
    monitor does not call the adapter down and its one permit is free. *)

From stdpp Require Import sorting.
From S2P Require Import Prelude RustStd Types SecureFs Attestation Health Client AdapterConfig.
Open Scope Z_scope.

Record AdapterRegistry := mk_registry {
  rg_clients : gmap string AdapterClient;
  rg_adapter_names : list string
}.

Inductive RegistryError : Type :=
| RegistryConfig (e : ConfigError)
| DuplicateAdapterName (name : string)
| DuplicateAdapterMethod (method existing new : string).

(** [Vec<String>::sort]: by bytes. *)
Definition sort_strings (l : list string) : list string := merge_sort String.le l.

Definition client_of (config : AdapterConfig) : AdapterClient :=
  mk_client (ac_name config) (ac_socket_path config) (ac_expected_uid config)
    (millis (ac_timeout_ms config)).

(** The inner loop over [config.methods]. *)
Fixpoint add_methods (shared : AdapterClient) (methods : list string)
    (clients : gmap string AdapterClient) : result (gmap string AdapterClient) RegistryError :=
  match methods with
  | [] => Ok clients
  | method :: methods =>
      match clients !! method with
      | Some existing => Err (DuplicateAdapterMethod method (cl_name existing) (cl_name shared))
      | None => add_methods shared methods (<[method := shared]> clients)
      end
  end.

Fixpoint add_configs (configs : list AdapterConfig) (names : gset string)
    (clients : gmap string AdapterClient)
  : result (gset string * gmap string AdapterClient) RegistryError :=
  match configs with
  | [] => Ok (names, clients)
  | config :: configs =>
      if bool_decide (ac_name config ∈ names) then Err (DuplicateAdapterName (ac_name config))
      else
      let? clients := add_methods (client_of config) (ac_methods config) clients in
      add_configs configs ({[ac_name config]} ∪ names) clients
  end.

(** From the loaded configurations on. *)
Definition build_registry (configs : list AdapterConfig)
  : result AdapterRegistry RegistryError :=
  let? built := add_configs configs ∅ ∅ in
  let '(names, clients) := built in
  Ok (mk_registry clients (sort_strings (elements names))).

Definition load_from_dir_with_owner (toml : string → option AdapterConfig) (fs : Fs)
    (current_uid : Z) (dir : string) (is_dir : bool)
    (listing : option (list (option DirEntry))) (strict : bool) (owner : OwnerPolicy)
  : result AdapterRegistry RegistryError :=
  let? configs := map_err RegistryConfig
                    (load_adapter_configs toml fs current_uid dir owner is_dir listing strict) in
  build_registry configs.

Record ResolvedAdapter := mk_resolved {
  ra_adapter_name : string;
  ra_method : string;
  ra_timeout_ms : Z;
  ra_client : AdapterClient
}.

Definition adapter_down (health : Mutex (gmap string AdapterHealth)) (name : string) : bool :=
  match lock health with
  | Some health =>
      match health !! name with
      | Some entry => bool_decide (status entry = Down)
      | None => true
      end
  | None => true
  end.

(** The source takes the lock of the health map once for each method; here all
    of them read one map, so two methods of one adapter see the same status. *)
Definition available_methods (reg : AdapterRegistry) (health : Mutex (gmap string AdapterHealth))
  : list string :=
  sort_strings
    (List.filter (λ method, match rg_clients reg !! method with
                            | Some client => negb (adapter_down health (cl_name client))
                            | None => false
                            end)
       (elements (dom (rg_clients reg)))).

Definition resolve_client (reg : AdapterRegistry) (health : Mutex (gmap string AdapterHealth))
    (method : string) : result (string * AdapterClient) AdapterError :=
  if bool_decide (method = "any") then
    ok_or (MethodNotFound method)
      (match available_methods reg health with
       | name :: _ => pair name <$> rg_clients reg !! name
       | [] => None
       end)
  else ok_or (MethodNotFound method) (pair method <$> rg_clients reg !! method).

(** [client.timeout.as_millis() as u64] *)
Definition resolve (reg : AdapterRegistry) (health : Mutex (gmap string AdapterHealth))
    (method : string) : result ResolvedAdapter AdapterError :=
  let? found := resolve_client reg health method in
  let '(resolved_method, client) := found in
  Ok (mk_resolved (cl_name client) resolved_method
        ((cl_timeout client / 1000000) mod 18446744073709551616) client).

(** [dispatch_resolved]; [permit] is the outcome of waiting for the
    adapter's permit: the wait elapses, the semaphore is closed ([false]) or
    a permit is acquired. *)
Definition dispatch_resolved `{WireSerde} (health : Mutex (gmap string AdapterHealth))
    (resolved : ResolvedAdapter) (request : VerificationRequest) (permit : Timed bool)
    (ex : Exchange) : result VerificationResult AdapterError * list string :=
  let client := ra_client resolved in
  if adapter_down health (cl_name client) then (Err (AdapterDown (cl_name client)), [])
  else match permit with
       | Elapsed => (Err (AdapterBusy (cl_name client)), [])
       | Done false => (Err (AdapterDown (cl_name client)), [])
       | Done true => verify client request ex
       end.

(** ** Specification *)

(** The adapter that owns a method. *)
Definition owns (configs : list AdapterConfig) (method : string) (c : AdapterConfig) : Prop :=
  c ∈ configs ∧ method ∈ ac_methods c.

(** ** Lemmas *)

Lemma sort_strings_spec l :
  StronglySorted String.le (sort_strings l) ∧ sort_strings l ≡ₚ l.
Proof.
  split; [apply StronglySorted_merge_sort; apply _|apply merge_sort_Permutation].
Qed.

Lemma add_methods_Ok shared methods : ∀ clients clients',
  add_methods shared methods clients = Ok clients' ↔
  NoDup methods ∧ Forall (λ m, clients !! m = None) methods
  ∧ clients' = list_to_map ((λ m, (m, shared)) <$> methods) ∪ clients.
Proof.
  induction methods as [|m methods IH]; intros clients clients'; simpl.
  { rewrite (left_id_L ∅ (∪)). split; [|by intros (_ & _ & ->)].
    intros [= <-]. split_and!; [constructor|constructor|done]. }
  rewrite NoDup_cons, Forall_cons. destruct (clients !! m) as [c|] eqn:Hm.
  { split; [done|]. by intros (_ & [? _] & _). }
  rewrite IH, !Forall_forall. split.
  - intros (Hn & Hf & ->). split_and!; try done.
    + intros Hin. specialize (Hf m Hin). by rewrite lookup_insert_eq in Hf.
    + intros x Hx. specialize (Hf x Hx). destruct (decide (x = m)) as [->|]; [done|].
      by rewrite lookup_insert_ne in Hf.
    + rewrite <-insert_union_r; [by rewrite insert_union_l|].
      apply not_elem_of_list_to_map_1. rewrite <-list_fmap_compose. simpl.
      intros Hin. apply list_elem_of_fmap in Hin as (y & -> & Hin).
      specialize (Hf y Hin). by rewrite lookup_insert_eq in Hf.
  - intros ([Hnin Hn] & [_ Hf] & ->). split_and!; try done.
    + intros x Hx. rewrite lookup_insert_ne; [by apply Hf|]. by intros ->.
    + rewrite <-insert_union_r; [by rewrite insert_union_l|].
      apply not_elem_of_list_to_map_1. rewrite <-list_fmap_compose. simpl.
      intros Hin. apply list_elem_of_fmap in Hin as (y & -> & Hin). done.
Qed.

Lemma lookup_add_methods shared methods (clients : gmap string AdapterClient) m cl :
  Forall (λ m, clients !! m = None) methods →
  (list_to_map ((λ m, (m, shared)) <$> methods) ∪ clients) !! m = Some cl ↔
  clients !! m = Some cl ∨ m ∈ methods ∧ cl = shared.
Proof.
  intros Hf.
  assert (∀ x, (list_to_map ((λ m, (m, shared)) <$> methods) : gmap string AdapterClient)
    !! m = Some x ↔ m ∈ methods ∧ x = shared) as Hl.
  { intros x. split.
    - intros Hx%elem_of_list_to_map_2. apply list_elem_of_fmap in Hx as (y & E & ?).
      by simplify_eq.
    - intros [Hin ->]. destruct (list_to_map _ !! m) as [y|] eqn:E.
      + apply elem_of_list_to_map_2 in E. apply list_elem_of_fmap in E as (z & E & ?).
        by simplify_eq.
      + apply not_elem_of_list_to_map_2 in E. destruct E. rewrite <-list_fmap_compose.
        apply list_elem_of_fmap. by exists m. }
  rewrite lookup_union_Some_raw, Hl. split.
  - intros [?|[_ ?]]; auto.
  - intros [Hc|?]; [|auto]. right. split; [|done]. apply eq_None_not_Some. intros [x Hx].
    apply Hl in Hx as [Hin _]. rewrite Forall_forall in Hf. rewrite (Hf m Hin) in Hc. done.
Qed.

Lemma add_configs_lookup configs : ∀ names clients names' clients',
  add_configs configs names clients = Ok (names', clients') →
  (∀ n, n ∈ names' ↔ n ∈ names ∨ n ∈ ac_name <$> configs)
  ∧ (∀ m cl, clients' !! m = Some cl ↔
       clients !! m = Some cl ∨ ∃ c, owns configs m c ∧ cl = client_of c).
Proof.
  unfold owns. induction configs as [|c configs IH]; intros names clients names' clients' H;
    simpl in H.
  { simplify_eq. split; [set_solver|]. set_solver. }
  case_bool_decide as Hn; [done|].
  destruct (add_methods _ _ _) as [clients1|] eqn:Ha; [|done].
  apply add_methods_Ok in Ha as (_ & Hf & ->).
  apply IH in H as [Hnames Hcl]. split.
  - intros n. rewrite Hnames. set_solver.
  - intros m cl. rewrite Hcl, lookup_add_methods by done. split.
    + intros [[?|[? ->]]|(c' & [? ?] & ->)]; [by left|right..].
      * exists c. split; [|done]. set_solver.
      * exists c'. split; [|done]. set_solver.
    + intros [?|(c' & [Hin ?] & ->)]; [by left; left|].
      apply elem_of_cons in Hin as [->|Hin]; [by left; right|]. right. by exists c'.
Qed.

Lemma add_configs_Ok configs : ∀ names clients,
  (∃ r, add_configs configs names clients = Ok r) ↔
  NoDup (ac_name <$> configs) ∧ Forall (λ c, ac_name c ∉ names) configs
  ∧ NoDup (concat (ac_methods <$> configs))
  ∧ Forall (λ m, clients !! m = None) (concat (ac_methods <$> configs)).
Proof.
  induction configs as [|c configs IH]; intros names clients.
  { simpl. split; [|by eauto]. intros _. split_and!; constructor. }
  rewrite !fmap_cons, NoDup_cons, Forall_cons, concat_cons, NoDup_app, Forall_app.
  cbn [add_configs]. case_bool_decide as Hn.
  { split; [by intros [? ?]|]. by intros (_ & [? _] & _). }
  destruct (add_methods (client_of c) (ac_methods c) clients) as [clients1|e] eqn:Ha; cycle 1.
  { split; [by intros [? ?]|]. intros (_ & _ & (Hnd & _) & [Hf _]). exfalso.
    pose proof (proj2 (add_methods_Ok (client_of c) (ac_methods c) clients _)
      (conj Hnd (conj Hf eq_refl))) as E. congruence. }
  apply add_methods_Ok in Ha as (Hnd & Hf & ->). rewrite IH.
  assert (∀ m, (list_to_map ((λ m, (m, client_of c)) <$> ac_methods c) ∪ clients) !! m = None
    ↔ clients !! m = None ∧ m ∉ ac_methods c) as Hnone.
  { intros m. rewrite !eq_None_not_Some. unfold is_Some.
    setoid_rewrite lookup_add_methods; [|done]. naive_solver. }
  rewrite !Forall_forall in *. setoid_rewrite Hnone. split.
  - intros (H1 & H2 & H3 & H4). split_and!; try done.
    + intros Hin. apply list_elem_of_fmap in Hin as (c' & E & Hin). destruct (H2 c' Hin).
      set_solver.
    + intros c' Hin. specialize (H2 c' Hin). set_solver.
    + intros m Hm Hin. by destruct (H4 m Hin).
    + intros m Hin. by destruct (H4 m Hin).
  - intros ([Hnew H1] & [_ H2] & (_ & Hdis & H3) & [_ H4]). split_and!; try done.
    + intros c' Hin. rewrite not_elem_of_union, not_elem_of_singleton.
      split; [|by apply H2]. intros E. apply Hnew. rewrite <-E. by apply list_elem_of_fmap_2.
    + intros m Hin. split; [by apply H4|]. intros Hm. by apply (Hdis m).
Qed.

(** ** The properties of the registry *)

(** Building the registry.  It succeeds exactly when no adapter name and
    no method occurs twice; then the adapter names are those of the
    configurations, sorted, and a method is routed to a client exactly when
    that is the client of the one configuration that lists the method. *)
Theorem registry_build_spec configs :
  ((∃ reg, build_registry configs = Ok reg) ↔
     NoDup (ac_name <$> configs) ∧ NoDup (concat (ac_methods <$> configs)))
  ∧ ∀ reg, build_registry configs = Ok reg →
      StronglySorted String.le (rg_adapter_names reg)
      ∧ rg_adapter_names reg ≡ₚ (ac_name <$> configs)
      ∧ ∀ m cl, rg_clients reg !! m = Some cl ↔ ∃ c, owns configs m c ∧ cl = client_of c.
Proof.
  pose proof (add_configs_Ok configs ∅ ∅) as Hok. unfold build_registry.
  assert (NoDup (ac_name <$> configs) ∧ Forall (λ c, ac_name c ∉ (∅ : gset string)) configs
    ∧ NoDup (concat (ac_methods <$> configs))
    ∧ Forall (λ m, (∅ : gmap string AdapterClient) !! m = None)
        (concat (ac_methods <$> configs))
    ↔ NoDup (ac_name <$> configs) ∧ NoDup (concat (ac_methods <$> configs))) as Hiff.
  { rewrite !Forall_forall. split; [tauto|]. intros [? ?].
    split_and!; [done|set_solver|done|]. intros. apply lookup_empty. }
  rewrite Hiff in Hok. clear Hiff.
  destruct (add_configs configs ∅ ∅) as [[names clients]|e] eqn:Ha.
  - split; [rewrite <-Hok; split; eauto|]. intros reg [= <-]. simpl.
    apply add_configs_lookup in Ha as [Hn Hc]. destruct (sort_strings_spec (elements names)) as [? Hp].
    split; [done|]. split.
    + rewrite Hp. apply NoDup_Permutation; [apply NoDup_elements|apply Hok; eauto|].
      intros x. rewrite elem_of_elements, Hn. set_solver.
    + intros m cl. rewrite Hc, lookup_empty. naive_solver.
  - split; [|done]. rewrite <-Hok. split; by intros [].
Qed.

Lemma available_methods_spec reg health :
  StronglySorted String.le (available_methods reg health)
  ∧ NoDup (available_methods reg health)
  ∧ ∀ m, m ∈ available_methods reg health ↔
      ∃ cl, rg_clients reg !! m = Some cl ∧ adapter_down health (cl_name cl) = false.
Proof.
  unfold available_methods.
  set (f := λ method, match rg_clients reg !! method with
                      | Some client => negb (adapter_down health (cl_name client))
                      | None => false end).
  destruct (sort_strings_spec (List.filter f (elements (dom (rg_clients reg))))) as [Hs Hp].
  split; [done|]. split.
  - rewrite Hp. apply NoDup_ListNoDup, List.NoDup_filter, NoDup_ListNoDup, NoDup_elements.
  - intros m. rewrite Hp, list_elem_of_In, filter_In, <-list_elem_of_In, elem_of_elements,
      elem_of_dom. unfold f. split.
    + intros [[cl Hcl] Hf]. rewrite Hcl in Hf. exists cl. split; [done|].
      by apply negb_true_iff.
    + intros (cl & Hcl & Hd). rewrite Hcl, Hd. eauto.
Qed.

Lemma build_registry_lookup configs reg m cl :
  build_registry configs = Ok reg →
  rg_clients reg !! m = Some cl ↔ ∃ c, owns configs m c ∧ cl = client_of c.
Proof.
  unfold build_registry. intros H.
  destruct (add_configs configs ∅ ∅) as [[names clients]|e] eqn:Ha; [|done]. simplify_eq/=.
  apply add_configs_lookup in Ha as [_ ->]. rewrite lookup_empty. naive_solver.
Qed.

Lemma resolve_timeout c :
  100 ≤ ac_timeout_ms c ≤ 30000 →
  (cl_timeout (client_of c) / 1000000) mod 18446744073709551616 = ac_timeout_ms c.
Proof.
  intros H. simpl. unfold millis. rewrite Z.div_mul, Z.mod_small; lia.
Qed.

(** C34: resolving a method.  For a registry built from validated
    configurations, a named method resolves to the adapter that owns it and
    to that method, whatever the adapter's health; [any] resolves to the
    alphabetically first method whose adapter is not down, never to the word
    [any] itself; the time-out is the adapter's configured one; and it fails
    only if nobody owns the method, respectively every adapter is down. *)
Theorem resolve_spec configs reg health method :
  Forall wf_config configs → build_registry configs = Ok reg →
  match resolve reg health method with
  | Ok r =>
      ∃ c, owns configs (ra_method r) c ∧ ra_client r = client_of c
        ∧ ra_adapter_name r = ac_name c ∧ ra_timeout_ms r = ac_timeout_ms c
        ∧ 100 ≤ ra_timeout_ms r ≤ 30000 ∧ ra_method r ≠ "any"
        ∧ (method ≠ "any" → ra_method r = method)
        ∧ (method = "any" →
             adapter_down health (ac_name c) = false
             ∧ ∀ m c', owns configs m c' → adapter_down health (ac_name c') = false →
                 String.le (ra_method r) m)
  | Err e =>
      e = MethodNotFound method
      ∧ (method ≠ "any" → ∀ c, ¬ owns configs method c)
      ∧ (method = "any" → ∀ m c, owns configs m c → adapter_down health (ac_name c) = true)
  end.
Proof.
  intros Hwf Hb. pose proof (λ m cl, build_registry_lookup configs reg m cl Hb) as Hl.
  rewrite Forall_forall in Hwf.
  assert (∀ m c, owns configs m c → m ≠ "any" ∧ 100 ≤ ac_timeout_ms c ≤ 30000) as Hown.
  { intros m c [Hc Hm]. destruct (Hwf c Hc) as (_ & _ & _ & _ & Hv & Ht). split; [|done].
    rewrite Forall_forall in Hv. specialize (Hv m Hm). apply validate_name_spec in Hv.
    intros ->. destruct Hv as (_ & _ & _ & Ha). by specialize (Ha eq_refl). }
  unfold resolve, resolve_client.
  destruct (available_methods_spec reg health) as (Hs & _ & Ha).
  case_bool_decide as Hany.
  - destruct (available_methods reg health) as [|m ms]; simpl.
    + split; [done|]. split; [done|]. intros _ m c Ho.
      destruct (adapter_down health (ac_name c)) eqn:Hd; [done|].
      exfalso. apply (not_elem_of_nil m). apply Ha. exists (client_of c). split; [|done].
      apply Hl. eauto.
    + destruct (proj1 (Ha m)) as (cl & Hcl & Hd); [by left|]. rewrite Hcl. simpl.
      apply Hl in Hcl as (c & Ho & ->). destruct (Hown m c Ho) as [? ?].
      rewrite resolve_timeout by done.
      exists c. split_and!; try done; [lia|lia|]. intros _. split; [done|].
      intros m' c' Ho' Hd'. assert (m' ∈ m :: ms) as Hin.
      { apply Ha. exists (client_of c'). split; [|done]. apply Hl. eauto. }
      apply StronglySorted_cons in Hs as [Hs _]. rewrite Forall_forall in Hs.
      apply elem_of_cons in Hin as [->|Hin]; [done|by apply Hs].
  - destruct (rg_clients reg !! method) as [cl|] eqn:Hcl; simpl.
    + apply Hl in Hcl as (c & Ho & ->). destruct (Hown method c Ho) as [? ?].
      rewrite resolve_timeout by done. exists c. split_and!; try done; lia.
    + split; [done|]. split; [|done]. intros _ c Ho.
      assert (rg_clients reg !! method = Some (client_of c)) as E by (apply Hl; eauto).
      congruence.
Qed.

Definition sample_configs : list AdapterConfig :=
  [ mk_config "key" "/run/ola/key.sock" 991 ["fido2"; "webauthn"] 5000;
    mk_config "finger" "/run/ola/finger.sock" 992 ["libfprint"] 3000 ].

Definition sample_registry : AdapterRegistry :=
  match build_registry sample_configs with Ok reg => reg | Err _ => mk_registry ∅ [] end.

(** Only the finger print reader is up. *)
Definition sample_health : Mutex (gmap string AdapterHealth) :=
  monitor (initial_health ["key"; "finger"] 0) [mk_probe "finger" true true 1].

Lemma resolve_spec_witness :
  match resolve sample_registry sample_health "any" with
  | Ok r =>
      ∃ c, owns sample_configs (ra_method r) c ∧ ra_client r = client_of c
        ∧ ra_adapter_name r = ac_name c ∧ ra_timeout_ms r = ac_timeout_ms c
        ∧ 100 ≤ ra_timeout_ms r ≤ 30000 ∧ ra_method r ≠ "any"
        ∧ ("any" ≠ "any" → ra_method r = "any")
        ∧ ("any" = "any" →
             adapter_down sample_health (ac_name c) = false
             ∧ ∀ m c', owns sample_configs m c' →
                 adapter_down sample_health (ac_name c') = false →
                 String.le (ra_method r) m)
  | Err e =>
      e = MethodNotFound "any"
      ∧ ("any" ≠ "any" → ∀ c, ¬ owns sample_configs "any" c)
      ∧ ("any" = "any" →
         ∀ m c, owns sample_configs m c → adapter_down sample_health (ac_name c) = true)
  end.
Proof.
  apply (resolve_spec sample_configs sample_registry sample_health "any").
  - repeat (apply Forall_cons; split; [apply validate_adapter_config_Ok; vm_compute; reflexivity|]).
    apply Forall_nil_2.
  - vm_compute. reflexivity.
Defined.

Example sample_resolved :
  ra_method <$> result_ok (resolve sample_registry sample_health "any") = Some "libfprint".
Proof. vm_compute. reflexivity. Qed.

(** Dispatch protects the challenge.  A request leaves the daemon only
    if the adapter is not down, its permit was acquired in time and the peer
    behind the socket has the configured uid; a result comes back only if
    the exchange with that client succeeded. *)
Theorem dispatch_gated {W : WireSerde} health resolved request permit ex :
  let '(r, sent) := dispatch_resolved health resolved request permit ex in
  (sent ≠ [] → adapter_down health (cl_name (ra_client resolved)) = false ∧ permit = Done true
               ∧ ex_peer_uid ex = Some (cl_expected_uid (ra_client resolved)))
  ∧ ∀ res, r = Ok res ↔
      adapter_down health (cl_name (ra_client resolved)) = false ∧ permit = Done true
      ∧ (verify (ra_client resolved) request ex).1 = Ok res.
Proof.
  unfold dispatch_resolved.
  destruct (adapter_down health _); [split; [done|]; intros res; split; [done|by intros [? _]]|].
  destruct permit as [|[]];
    try (split; [done|]; intros res; split; [done|by intros (_ & ? & _)]).
  destruct (verify (ra_client resolved) request ex) as [r sent] eqn:Hv. simpl. split.
  - intros Hs. split; [done|]. split; [done|]. unfold verify in Hv.
    destruct (connect_checked _ ex) as [[]|] eqn:Hc; [|by simplify_eq].
    by apply connect_checked_Ok in Hc as [_ ?].
  - intros res. split; [auto|]. by intros (_ & _ & ?).
Qed.
