(* ===== verification/Config.v ===== *)
(** * Configuration from the environment: [crates/ola-core/src/config.rs]

    The environment is a function from variable names to what
    [std::env::var] returns. *)

From S2P Require Import Prelude RustStd.
Open Scope Z_scope.

(** [Result<String, VarError>] *)
Inductive EnvVar : Type :=
| EnvSet (value : string)
| NotPresent
| NotUnicode.

Abbreviation Environment := (string → EnvVar) (only parsing).

Definition DEFAULT_SOCKET_PATH : string := "/run/ola/ola.sock".
Definition DEFAULT_ALLOWLIST_PATH : string := "/etc/ola/allowlist".
Definition DEFAULT_DRAIN_SECS : Z := 3.
Definition DEFAULT_CLIENT_IDLE_TIMEOUT_SECS : Z := 20.
Definition DEFAULT_ADAPTERS_DIR : string := "/etc/ola/adapters.d".
Definition DEFAULT_POLICY_PATH : string := "/etc/ola/policy.toml".
Definition DEFAULT_AUDIT_LOG_PATH : string := "/var/log/ola/audit.log".
Definition DEFAULT_ADAPTER_KEYS_DIR : string := "/etc/ola/adapter-keys".
Definition DEFAULT_MAX_RESULT_AGE_SECS : Z := 30.
Definition MAX_RESULT_AGE_SECS_UPPER_BOUND : Z := u64_max / 1000.

Record Config := mk_cfg {
  socket_path : string;
  run_mode : string;
  drain_secs : Z;
  client_idle_timeout_secs : Z;
  allowlist_path : string;
  adapters_dir : string;
  policy_path : string;
  audit_log_path : string;
  adapter_keys_dir : string;
  max_result_age_secs : Z;
  require_attestation : bool
}.

Inductive EnvError : Type :=
| InvalidRunMode
| NotUnsigned (name : string)
| NotUtf8 (name : string)
| NotPositive (name : string)
| MaxAgeTooLarge.

(** [env::var(name).unwrap_or_else(|_| default)] *)
Definition var_or (env : Environment) (name default : string) : string :=
  match env name with EnvSet v => v | _ => default end.

Definition parse_env_u64 (env : Environment) (name : string) (default : Z)
  : result Z EnvError :=
  match env name with
  | EnvSet value => ok_or (NotUnsigned name) (parse_u64 value)
  | NotPresent => Ok default
  | NotUnicode => Err (NotUtf8 name)
  end.

Definition parse_env_nonzero_u64 (env : Environment) (name : string) (default : Z)
  : result Z EnvError :=
  let? value := parse_env_u64 env name default in
  if value =? 0 then Err (NotPositive name) else Ok value.

Definition parse_env_u64_with_fallback (env : Environment) (primary fallback : string)
    (default : Z) : result Z EnvError :=
  match env primary with
  | EnvSet value => ok_or (NotUnsigned primary) (parse_u64 value)
  | NotPresent => parse_env_u64 env fallback default
  | NotUnicode => Err (NotUtf8 primary)
  end.

(** [str::to_lowercase] on ASCII; no other character has a lower-case form
    among the letters of [false], the only text it is compared with. *)
Definition lower_byte (b : byte) : byte :=
  if in_range 65 90 b then byte_of_Z (bv b + 32) else b.
Definition to_lowercase (s : string) : string := str_of (lower_byte <$> bytes_of s).

Definition from_env (env : Environment) : result Config EnvError :=
  let run_mode := var_or env "OLA_RUNMODE" "prod" in
  if negb (bool_decide (run_mode ∈ ["prod"; "dev"])) then Err InvalidRunMode
  else
  let socket_path := var_or env "OLA_SOCKET_PATH" DEFAULT_SOCKET_PATH in
  let? drain_secs := parse_env_u64_with_fallback env "OLA_DRAIN_SECS" "OLA_SHUTDOWN_TIMEOUT"
                       DEFAULT_DRAIN_SECS in
  let? client_idle_timeout_secs := parse_env_nonzero_u64 env "OLA_CLIENT_IDLE_TIMEOUT_SECS"
                                     DEFAULT_CLIENT_IDLE_TIMEOUT_SECS in
  let allowlist_path := var_or env "OLA_ALLOWLIST_PATH" DEFAULT_ALLOWLIST_PATH in
  let adapters_dir := var_or env "OLA_ADAPTERS_DIR" DEFAULT_ADAPTERS_DIR in
  let policy_path := var_or env "OLA_POLICY_PATH" DEFAULT_POLICY_PATH in
  let audit_log_path := var_or env "OLA_AUDIT_LOG_PATH" DEFAULT_AUDIT_LOG_PATH in
  let adapter_keys_dir := var_or env "OLA_ADAPTER_KEYS_DIR" DEFAULT_ADAPTER_KEYS_DIR in
  let? max_result_age_secs := parse_env_u64 env "OLA_MAX_RESULT_AGE_SECS"
                                DEFAULT_MAX_RESULT_AGE_SECS in
  if MAX_RESULT_AGE_SECS_UPPER_BOUND <? max_result_age_secs then Err MaxAgeTooLarge
  else
  let require_attestation :=
    match env "OLA_REQUIRE_ATTESTATION" with
    | EnvSet v => bool_decide (to_lowercase v ≠ "false") && bool_decide (v ≠ "0")
    | _ => true
    end in
  Ok (mk_cfg socket_path run_mode drain_secs client_idle_timeout_secs allowlist_path
        adapters_dir policy_path audit_log_path adapter_keys_dir max_result_age_secs
        require_attestation).

Definition is_prod_mode (c : Config) : bool := bool_decide (run_mode c = "prod").

(** ** Lemmas *)

Lemma parse_digits_bound max bs : ∀ acc n,
  0 ≤ acc ≤ max → parse_digits max bs acc = Some n → 0 ≤ n ≤ max.
Proof.
  induction bs as [|b bs IH]; intros acc n Ha H; simpl in H; [by simplify_eq|].
  destruct (is_ascii_digit b) eqn:Hd; [|done]. unfold is_ascii_digit, in_range in Hd.
  destruct (Z.ltb_spec max (acc * 10)); [done|].
  destruct (Z.ltb_spec max (acc * 10 + (bv b - 48))); [done|].
  apply IH in H; [done|lia].
Qed.

Lemma parse_uint_bound max s n : 0 ≤ max → parse_uint max s = Some n → 0 ≤ n ≤ max.
Proof.
  unfold parse_uint. intros Hm H. destruct (bytes_of s) as [|b r]; [done|].
  destruct (bv b =? 43); [destruct r; [done|]|]; eapply parse_digits_bound; [|done| |done]; lia.
Qed.

Lemma parse_env_u64_bound env name d n :
  is_u64 d → parse_env_u64 env name d = Ok n → is_u64 n.
Proof.
  unfold parse_env_u64, is_u64. intros Hd H.
  destruct (env name) as [v| |]; simplify_eq; [|done].
  destruct (parse_u64 v) as [z|] eqn:Hp; simpl in H; simplify_eq.
  apply parse_uint_bound in Hp; [done|]. unfold u64_max. lia.
Qed.

(** ** The property of the configuration *)

(** Every configuration the daemon accepts is usable and errs on the
    safe side: the mode is [prod] or [dev], and [prod] when unset; numbers
    are [u64]s, the idle time-out is not zero, the age cap in milliseconds
    does not overflow a [u64]; and attestation is off only if the variable
    is set to [0] or, in any case, to [false]. *)
Theorem config_safe env c :
  from_env env = Ok c →
  (run_mode c = "prod" ∨ run_mode c = "dev")
  ∧ (env "OLA_RUNMODE" = NotPresent → is_prod_mode c = true)
  ∧ is_u64 (drain_secs c) ∧ is_u64 (client_idle_timeout_secs c)
  ∧ client_idle_timeout_secs c ≠ 0
  ∧ is_u64 (max_result_age_secs c) ∧ max_result_age_secs c * 1000 ≤ u64_max
  ∧ (require_attestation c = false →
     ∃ v, env "OLA_REQUIRE_ATTESTATION" = EnvSet v ∧ (v = "0" ∨ to_lowercase v = "false")).
Proof.
  unfold from_env. intros H. case_bool_decide as Hm; simpl in H; [|done].
  destruct (parse_env_u64_with_fallback env _ _ _) as [drain|] eqn:Hd; [|done].
  destruct (parse_env_nonzero_u64 env _ _) as [idle|] eqn:Hi; [|done].
  destruct (parse_env_u64 env "OLA_MAX_RESULT_AGE_SECS" _) as [age|] eqn:Hage; [|done].
  destruct (Z.ltb_spec MAX_RESULT_AGE_SECS_UPPER_BOUND age) as [|Hb]; [done|].
  injection H as <-. simpl.
  assert (is_u64 drain) as Hdrain.
  { unfold parse_env_u64_with_fallback in Hd. destruct (env "OLA_DRAIN_SECS") as [v| |] eqn:Ev;
      [|by apply parse_env_u64_bound in Hd|done].
    apply (parse_env_u64_bound env "OLA_DRAIN_SECS" DEFAULT_DRAIN_SECS); [done|].
    unfold parse_env_u64. by rewrite Ev. }
  unfold parse_env_nonzero_u64 in Hi.
  destruct (parse_env_u64 env "OLA_CLIENT_IDLE_TIMEOUT_SECS" _) as [i|] eqn:Hi'; [|done].
  destruct (Z.eqb_spec i 0) as [|Hnz]; [done|]. injection Hi as ->.
  apply parse_env_u64_bound in Hi'; [|done]. apply parse_env_u64_bound in Hage; [|done].
  split_and!; try done.
  - set_solver.
  - unfold is_prod_mode, var_or. simpl. by intros ->.
  - unfold MAX_RESULT_AGE_SECS_UPPER_BOUND, u64_max in *. 
    pose proof (Z.mul_div_le 18446744073709551615 1000 ltac:(lia)). lia.
  - intros Hreq. destruct (env "OLA_REQUIRE_ATTESTATION") as [v| |]; [|done..].
    exists v. split; [done|]. repeat case_bool_decide; simpl in Hreq; auto; done.
Qed.

Definition sample_env (name : string) : EnvVar :=
  if bool_decide (name = "OLA_RUNMODE") then EnvSet "dev"
  else if bool_decide (name = "OLA_REQUIRE_ATTESTATION") then EnvSet "False"
  else if bool_decide (name = "OLA_MAX_RESULT_AGE_SECS") then EnvSet "60"
  else NotPresent.

Definition sample_config : Config :=
  mk_cfg DEFAULT_SOCKET_PATH "dev" 3 20 DEFAULT_ALLOWLIST_PATH DEFAULT_ADAPTERS_DIR
    DEFAULT_POLICY_PATH DEFAULT_AUDIT_LOG_PATH DEFAULT_ADAPTER_KEYS_DIR 60 false.

Lemma config_safe_witness :
  (run_mode sample_config = "prod" ∨ run_mode sample_config = "dev")
  ∧ (sample_env "OLA_RUNMODE" = NotPresent → is_prod_mode sample_config = true)
  ∧ is_u64 (drain_secs sample_config) ∧ is_u64 (client_idle_timeout_secs sample_config)
  ∧ client_idle_timeout_secs sample_config ≠ 0
  ∧ is_u64 (max_result_age_secs sample_config)
  ∧ max_result_age_secs sample_config * 1000 ≤ u64_max
  ∧ (require_attestation sample_config = false →
     ∃ v, sample_env "OLA_REQUIRE_ATTESTATION" = EnvSet v
          ∧ (v = "0" ∨ to_lowercase v = "false")).
Proof. apply (config_safe sample_env). vm_compute. reflexivity. Defined.
