(* ===== verification/Metrics.v ===== *)
(** * Counters: [crates/ola-core/src/infrastructure/audit/metrics.rs]

    Four process-wide atomic [u64]s.  [fetch_add] wraps; the decrement is a
    compare-and-swap loop that other threads and spurious failures disturb. *)

From S2P Require Import Prelude RustStd.
Open Scope Z_scope.

Record Metrics := mk_metrics {
  TOTAL_REQUESTS : Z;
  REQUEST_FAILURES : Z;
  ACTIVE_CONNECTIONS : Z;
  IDLE_CONNECTION_CLOSES : Z
}.

Definition metrics_zero : Metrics := mk_metrics 0 0 0 0.

Definition inc_requests (m : Metrics) : Metrics :=
  mk_metrics (wrapping_add_u64 (TOTAL_REQUESTS m) 1) (REQUEST_FAILURES m)
    (ACTIVE_CONNECTIONS m) (IDLE_CONNECTION_CLOSES m).

Definition inc_failures (m : Metrics) : Metrics :=
  mk_metrics (TOTAL_REQUESTS m) (wrapping_add_u64 (REQUEST_FAILURES m) 1)
    (ACTIVE_CONNECTIONS m) (IDLE_CONNECTION_CLOSES m).

Definition inc_active_connections (m : Metrics) : Metrics :=
  mk_metrics (TOTAL_REQUESTS m) (REQUEST_FAILURES m)
    (wrapping_add_u64 (ACTIVE_CONNECTIONS m) 1) (IDLE_CONNECTION_CLOSES m).

Definition inc_idle_closes (m : Metrics) : Metrics :=
  mk_metrics (TOTAL_REQUESTS m) (REQUEST_FAILURES m)
    (ACTIVE_CONNECTIONS m) (wrapping_add_u64 (IDLE_CONNECTION_CLOSES m) 1).

(** What one [compare_exchange_weak] meets: the value other threads have put
    there, and whether the exchange fails although the value matches. *)
Record CasAttempt := mk_cas { cas_seen : Z; cas_spurious : bool }.

(** The loop of [dec_active_connections]: the value it leaves in memory, or
    [None] while it is still retrying.  A return without an exchange leaves
    the zero it last read. *)
Fixpoint dec_loop (current : Z) (attempts : list CasAttempt) : option Z :=
  if current =? 0 then Some 0
  else match attempts with
       | [] => None
       | a :: attempts =>
           if (cas_seen a =? current) && negb (cas_spurious a) then Some (current - 1)
           else dec_loop (cas_seen a) attempts
       end.

(** The call as one atomic step: no other thread comes between its load and
    its exchange. *)
Definition dec_active_connections (m : Metrics) : Metrics :=
  let active := ACTIVE_CONNECTIONS m in
  mk_metrics (TOTAL_REQUESTS m) (REQUEST_FAILURES m)
    (default active (dec_loop active [mk_cas active false])) (IDLE_CONNECTION_CLOSES m).

Lemma dec_active_value m :
  0 ≤ ACTIVE_CONNECTIONS m →
  ACTIVE_CONNECTIONS (dec_active_connections m) = saturating_sub (ACTIVE_CONNECTIONS m) 1.
Proof.
  intros H. unfold dec_active_connections, saturating_sub. simpl.
  destruct (Z.eqb_spec (ACTIVE_CONNECTIONS m) 0); simpl; [lia|]. rewrite Z.eqb_refl. simpl. lia.
Qed.

(** The connection gauge never underflows, and the decrement terminates.
    When the loop returns, it has either taken one from a positive value that
    an exchange of its own found in memory, or read zero and changed nothing;
    and, whatever happened before, it returns at the latest when two attempts
    in a row find the same value and the second does not fail spuriously. *)
Theorem dec_active_connections_safe current attempts :
  0 ≤ current → Forall (λ a, 0 ≤ cas_seen a) attempts →
  (∀ v, dec_loop current attempts = Some v →
     0 ≤ v ∧ (v = 0 ∨ ∃ a, a ∈ attempts ∧ cas_spurious a = false ∧ v = cas_seen a - 1))
  ∧ (∀ x s, is_Some (dec_loop current (attempts ++ [mk_cas x s; mk_cas x false]))).
Proof.
  revert current. induction attempts as [|a attempts IH]; intros current Hc Hf.
  { split.
    - intros v. simpl. destruct (Z.eqb_spec current 0); [|done]. intros [= <-]. auto with lia.
    - intros x s. simpl. destruct (Z.eqb_spec current 0); [by eauto|].
      destruct ((x =? current) && negb s); [by eauto|].
      destruct (Z.eqb_spec x 0); [by eauto|]. rewrite Z.eqb_refl. by eauto. }
  apply Forall_cons in Hf as [Ha Hf]. destruct (IH (cas_seen a) Ha Hf) as [IH1 IH2].
  split.
  - intros v. simpl. destruct (Z.eqb_spec current 0); [intros [= <-]; auto with lia|].
    destruct (Z.eqb_spec (cas_seen a) current), (cas_spurious a) eqn:Hs; simpl;
      try (intros H; apply IH1 in H as [? [?|(b & ? & ? & ?)]]; (split; [done|]); [by left|];
           right; exists b; split; [by right|done]).
    intros [= <-]. split; [lia|]. right. exists a. split; [by left|]. split; [done|lia].
  - intros x s. simpl. destruct (Z.eqb_spec current 0); [by eauto|].
    destruct ((cas_seen a =? current) && negb (cas_spurious a)); [by eauto|apply IH2].
Qed.

Lemma dec_active_connections_safe_witness :
  (∀ v, dec_loop 3 [mk_cas 4 false; mk_cas 4 true] = Some v →
     0 ≤ v ∧ (v = 0 ∨ ∃ a, a ∈ [mk_cas 4 false; mk_cas 4 true] ∧ cas_spurious a = false
                           ∧ v = cas_seen a - 1))
  ∧ (∀ x s, is_Some (dec_loop 3 ([mk_cas 4 false; mk_cas 4 true]
                                 ++ [mk_cas x s; mk_cas x false]))).
Proof.
  apply (dec_active_connections_safe 3 [mk_cas 4 false; mk_cas 4 true]).
  - lia.
  - repeat (apply Forall_cons; split; [simpl; lia|]). apply Forall_nil_2.
Defined.
