(* ===== verification/Privilege.v ===== *)
(** * Dropping root: [crates/ola-core/src/security/privilege.rs] and [seccomp.rs]

    The kernel is a parameter: system calls are functions from processes to
    processes that may fail, and what they do to the credentials of the
    threads is stated as the manual pages document it (setgroups(2), setgid(2),
    setuid(2), nptl(7), capabilities(7), prctl(2), seccomp(2)).  The process
    has several threads when it drops its privileges, because the runtime of
    [#[tokio::main]] has started its workers by then: the id calls of the C
    library and the filter, which [apply_filter_all_threads] installs, reach
    all of them, [caps::clear] and [prctl] only the one that calls. *)

From S2P Require Import Prelude RustStd Config.
Open Scope Z_scope.

(** ** Credentials *)

Inductive CapSet : Type := Permitted | Effective | Inheritable.

#[global] Instance CapSet_eq_dec : EqDecision CapSet.
Proof. solve_decision. Defined.

(** The credentials of a thread.  The filters in force, the latest first, as
    the calls each admits: a service manager may have installed some before
    the program started ([SystemCallFilter] of dist/systemd/ola.service). *)
Record Creds := mk_creds {
  c_ruid : Z; c_euid : Z; c_suid : Z;
  c_rgid : Z; c_egid : Z; c_sgid : Z;
  c_groups : list Z;
  c_caps : CapSet → gset string;
  c_keep_caps : bool;                  (* SECBIT_KEEP_CAPS, SECBIT_NO_SETUID_FIXUP *)
  c_no_new_privs : bool;
  c_seccomp : list (list string)
}.

Definition with_groups (c : Creds) (gs : list Z) : Creds :=
  mk_creds (c_ruid c) (c_euid c) (c_suid c) (c_rgid c) (c_egid c) (c_sgid c) gs (c_caps c)
    (c_keep_caps c) (c_no_new_privs c) (c_seccomp c).
Definition with_gid (c : Creds) (g : Z) : Creds :=
  mk_creds (c_ruid c) (c_euid c) (c_suid c) g g g (c_groups c) (c_caps c)
    (c_keep_caps c) (c_no_new_privs c) (c_seccomp c).
Definition with_uid (c : Creds) (u : Z) (caps : CapSet → gset string) : Creds :=
  mk_creds u u u (c_rgid c) (c_egid c) (c_sgid c) (c_groups c) caps
    (c_keep_caps c) (c_no_new_privs c) (c_seccomp c).
Definition with_caps (c : Creds) (caps : CapSet → gset string) : Creds :=
  mk_creds (c_ruid c) (c_euid c) (c_suid c) (c_rgid c) (c_egid c) (c_sgid c) (c_groups c) caps
    (c_keep_caps c) (c_no_new_privs c) (c_seccomp c).
Definition with_nnp (c : Creds) : Creds :=
  mk_creds (c_ruid c) (c_euid c) (c_suid c) (c_rgid c) (c_egid c) (c_sgid c) (c_groups c)
    (c_caps c) (c_keep_caps c) true (c_seccomp c).
Definition with_filters (c : Creds) (nnp : bool) (filters : list (list string)) : Creds :=
  mk_creds (c_ruid c) (c_euid c) (c_suid c) (c_rgid c) (c_egid c) (c_sgid c) (c_groups c)
    (c_caps c) (c_keep_caps c) nnp filters.
Definition with_filter (c : Creds) (allowed : list string) : Creds :=
  with_filters c (c_no_new_privs c) (allowed :: c_seccomp c).

(** SECCOMP_FILTER_FLAG_TSYNC: a thread takes over the filters of the caller,
    and its NO_NEW_PRIVS if the caller has it. *)
Definition synced_with (caller c : Creds) : Creds :=
  with_filters c (c_no_new_privs c || c_no_new_privs caller) (c_seccomp caller).

(** A call runs when every filter in force admits it. *)
Definition admitted (c : Creds) (call : string) : Prop := Forall (λ l, call ∈ l) (c_seccomp c).

#[global] Instance admitted_dec c call : Decision (admitted c call).
Proof. unfold admitted. apply _. Defined.

(** ** The kernel *)

(** [sys_seccomp] is [apply_filter_all_threads]; [sys_call] stands for every
    system call that has no field of its own. *)
Class Kernel (Proc : Type) := {
  creds : Proc → Creds;                (* of the calling thread *)
  siblings : Proc → list Creds;        (* of the other threads *)
  sys_setgroups : list Z → Proc → option Proc;
  sys_setgid : Z → Proc → option Proc;
  sys_setuid : Z → Proc → option Proc;
  sys_clear_caps : CapSet → Proc → option Proc;
  sys_no_new_privs : Proc → option Proc;
  sys_seccomp : list string → Proc → option Proc;
  sys_call : string → list Z → Proc → option Proc
}.

(** What setuid(2) leaves of the capabilities of a privileged thread: nobody
    touches the inheritable ones, and who leaves uid 0 gives up the others. *)
Definition setuid_effect (u : Z) (c c' : Creds) : Prop :=
  ∃ caps, c' = with_uid c u caps ∧ caps Inheritable = c_caps c Inheritable
    ∧ (c_euid c = 0 → u ≠ 0 → c_keep_caps c = false →
       caps Permitted = ∅ ∧ caps Effective = ∅).

Definition can (cap : string) (c : Creds) : Prop := cap ∈ c_caps c Effective.

#[global] Instance can_dec cap c : Decision (can cap c).
Proof. unfold can. apply _. Defined.

(** What a call that succeeds has done, and the calls filters refuse (with an
    error or by ending the process; no filter pretends success). *)
Class KernelLaws {Proc} (K : Kernel Proc) : Prop := {
  setgroups_ok gs p p' :
    sys_setgroups gs p = Some p' →
    creds p' = with_groups (creds p) gs
    ∧ siblings p' = (λ c, with_groups c gs) <$> siblings p;
  (** a privileged caller changes the real, effective and saved id *)
  setgid_ok g p p' :
    sys_setgid g p = Some p' → Forall (can "CAP_SETGID") (creds p :: siblings p) →
    creds p' = with_gid (creds p) g ∧ siblings p' = (λ c, with_gid c g) <$> siblings p;
  setuid_ok u p p' :
    sys_setuid u p = Some p' → Forall (can "CAP_SETUID") (creds p :: siblings p) →
    setuid_effect u (creds p) (creds p')
    ∧ Forall2 (setuid_effect u) (siblings p) (siblings p');
  (** the set is empty afterwards and no other set has grown *)
  clear_caps_ok s p p' :
    sys_clear_caps s p = Some p' →
    (∃ caps, creds p' = with_caps (creds p) caps
       ∧ caps s = ∅ ∧ ∀ s', caps s' ⊆ c_caps (creds p) s')
    ∧ siblings p' = siblings p;
  no_new_privs_ok p p' :
    sys_no_new_privs p = Some p' →
    creds p' = with_nnp (creds p) ∧ siblings p' = siblings p;
  seccomp_ok l p p' :
    sys_seccomp l p = Some p' →
    creds p' = with_filter (creds p) l
    ∧ siblings p' = synced_with (creds p') <$> siblings p;
  (** a call that some filter does not admit fails *)
  filtered_setuid u p : ¬ admitted (creds p) "setuid" → sys_setuid u p = None;
  filtered_setgid g p : ¬ admitted (creds p) "setgid" → sys_setgid g p = None;
  filtered_setgroups gs p : ¬ admitted (creds p) "setgroups" → sys_setgroups gs p = None;
  filtered_capset s p : ¬ admitted (creds p) "capset" → sys_clear_caps s p = None;
  filtered_call call args p : ¬ admitted (creds p) call → sys_call call args p = None
}.

(** When the calls are granted: a process whose filters admit the call, with
    the capability that the manual page asks for. *)
Class KernelGrants {Proc} (K : Kernel Proc) : Prop := {
  setgroups_granted gs p :
    admitted (creds p) "setgroups" → Forall (can "CAP_SETGID") (creds p :: siblings p) →
    is_Some (sys_setgroups gs p);
  setgid_granted g p :
    admitted (creds p) "setgid" → Forall (can "CAP_SETGID") (creds p :: siblings p) →
    is_Some (sys_setgid g p);
  setuid_granted u p :
    admitted (creds p) "setuid" → Forall (can "CAP_SETUID") (creds p :: siblings p) →
    is_Some (sys_setuid u p);
  (** EPERM: not privileged, and neither the real nor the saved id *)
  setuid_refused u p :
    ¬ can "CAP_SETUID" (creds p) → u ≠ c_ruid (creds p) → u ≠ c_suid (creds p) →
    sys_setuid u p = None;
  (** the effective set must stay within the permitted set *)
  clear_caps_granted s p :
    admitted (creds p) "capset" → c_caps (creds p) Effective = ∅ → is_Some (sys_clear_caps s p);
  no_new_privs_granted p : admitted (creds p) "prctl" → is_Some (sys_no_new_privs p);
  (** unprivileged filters need NO_NEW_PRIVS, and the other threads no filter
      that the caller does not have *)
  seccomp_granted l p :
    admitted (creds p) "seccomp" → c_no_new_privs (creds p) = true →
    Forall (λ c, c_seccomp c `suffix_of` c_seccomp (creds p)) (siblings p) →
    is_Some (sys_seccomp l p)
}.

(** ** seccomp.rs *)

(** The system calls [apply_seccomp] admits; every other one returns EPERM. *)
Definition seccomp_allowed : list string := [
  "read"; "write"; "readv"; "writev"; "close"; "fcntl"; "fchmod"; "openat"; "fstat";
  "newfstatat"; "statx";
  "socket"; "connect"; "accept4"; "getsockopt"; "recvfrom"; "recvmsg"; "sendmsg"; "sendto";
  "socketpair";
  "epoll_wait"; "epoll_ctl"; "epoll_create1"; "eventfd2"; "pipe2";
  "futex"; "clone"; "clone3"; "rseq"; "sched_yield"; "gettid"; "getuid"; "geteuid";
  "prctl";
  "rt_sigaction"; "rt_sigprocmask"; "sigaltstack";
  "clock_gettime"; "nanosleep";
  "mmap"; "munmap"; "mprotect"; "brk"; "madvise";
  "getrandom";
  "fdatasync";
  "rt_sigreturn"; "exit"; "exit_group"
].

(** ** privilege.rs *)

Definition DEFAULT_SERVICE_USER : string := "ola".

Definition service_user_name (env : Environment) : string :=
  var_or env "OLA_USER" DEFAULT_SERVICE_USER.

(** An entry of the user database, [uzers::User]. *)
Record User := mk_user { us_uid : Z; us_primary_group_id : Z }.

Inductive DropError : Type :=
| DropUserNotFound (name : string)
| DropGroups
| DropGid
| DropUid
| DropReversible                        (* setuid(0) succeeded *)
| DropCaps (s : CapSet)
| DropNoNewPrivs
| DropSeccomp.

Section Drop.
Context {Proc : Type} `{K : Kernel Proc}.

Definition apply_seccomp (arch_supported : bool) (p : Proc) : option Proc :=
  if arch_supported then sys_seccomp seccomp_allowed p else None.

(** The steps for a process that was started as root. *)
Definition drop_root (service_user : string) (user : option User) (p : Proc)
  : result Proc DropError :=
  let? user := ok_or (DropUserNotFound service_user) user in
  let? p := ok_or DropGroups (sys_setgroups [] p) in
  let? p := ok_or DropGid (sys_setgid (us_primary_group_id user) p) in
  let? p := ok_or DropUid (sys_setuid (us_uid user) p) in
  match sys_setuid 0 p with
  | Some _ => Err DropReversible
  | None =>
      let? p := ok_or (DropCaps Permitted) (sys_clear_caps Permitted p) in
      let? p := ok_or (DropCaps Effective) (sys_clear_caps Effective p) in
      let? p := ok_or (DropCaps Inheritable) (sys_clear_caps Inheritable p) in
      Ok p
  end.

(** [get_user] is [uzers::get_user_by_name]; [arch_supported] whether the
    filter compiles for this architecture. *)
Definition drop_privileges_completely (env : Environment) (get_user : string → option User)
    (arch_supported : bool) (p : Proc) : result Proc DropError :=
  let? p := (if c_euid (creds p) =? 0
             then drop_root (service_user_name env) (get_user (service_user_name env)) p
             else Ok p) in
  let? p := ok_or DropNoNewPrivs (sys_no_new_privs p) in
  ok_or DropSeccomp (apply_seccomp arch_supported p).

End Drop.

(** ** Lemmas *)

(** A root thread that may change its ids. *)
Definition privileged (c : Creds) : Prop :=
  c_euid c = 0 ∧ can "CAP_SETGID" c ∧ can "CAP_SETUID" c.

(** Every thread is one, where the daemon is root at all. *)
Definition root_is_privileged {Proc} {K : Kernel Proc} (p : Proc) : Prop :=
  c_euid (creds p) = 0 → Forall privileged (creds p :: siblings p).

(** The ids are those of the service user. *)
Record demoted (u g : Z) (c : Creds) : Prop := {
  dm_uids : c_ruid c = u ∧ c_euid c = u ∧ c_suid c = u;
  dm_gids : c_rgid c = g ∧ c_egid c = g ∧ c_sgid c = g;
  dm_groups : c_groups c = []
}.

(** All traces of root are gone. *)
Record unprivileged (u g : Z) (c : Creds) : Prop := {
  up_demoted : demoted u g c;
  up_caps s : c_caps c s = ∅
}.

(** The calls that change ids, groups or capabilities, start another program
    or enter other name spaces. *)
Definition privilege_calls : list string := [
  "setuid"; "setgid"; "setgroups"; "setreuid"; "setregid"; "setresuid"; "setresgid";
  "setfsuid"; "setfsgid"; "capset"; "execve"; "execveat"; "ptrace"; "setns"; "unshare";
  "mount"; "chroot"; "pivot_root"; "seccomp"; "bpf"
].

(** The filter of [apply_seccomp] admits none of them. *)
Lemma filter_refuses c call :
  seccomp_allowed ∈ c_seccomp c → call ∈ privilege_calls → ¬ admitted c call.
Proof.
  intros Hin Hc Ha. unfold admitted in Ha. rewrite Forall_forall in Ha. specialize (Ha _ Hin).
  assert (Forall (λ call, call ∉ seccomp_allowed) privilege_calls) as Hn
    by (by apply (bool_decide_unpack _)).
  rewrite Forall_forall in Hn. by apply (Hn _ Hc).
Qed.

Lemma Forall_Forall2_impl {A B} (P : A → Prop) (R Q : A → B → Prop) l k :
  Forall P l → Forall2 R l k → (∀ x y, P x → R x y → Q x y) → Forall2 Q l k.
Proof.
  intros HP HR HQ. induction HR as [|x y l k Hxy _ IH]; constructor;
    apply Forall_cons in HP as [? ?]; auto.
Qed.

Section Laws.
Context {Proc : Type} {K : Kernel Proc} {KL : KernelLaws K}.

(** The three [clear]s, whatever they meet. *)
Lemma clear_all_caps p p1 p2 p3 :
  sys_clear_caps Permitted p = Some p1 → sys_clear_caps Effective p1 = Some p2 →
  sys_clear_caps Inheritable p2 = Some p3 →
  (∃ caps, creds p3 = with_caps (creds p) caps ∧ ∀ s, caps s = ∅) ∧ siblings p3 = siblings p.
Proof.
  intros H1 H2 H3.
  apply clear_caps_ok in H1 as [(k1 & E1 & N1 & S1) Hs1].
  apply clear_caps_ok in H2 as [(k2 & E2 & N2 & S2) Hs2].
  apply clear_caps_ok in H3 as [(k3 & E3 & N3 & S3) Hs3].
  split; [|by rewrite Hs3, Hs2, Hs1].
  rewrite E1 in *. rewrite E2 in *. simpl in *. exists k3. split; [done|].
  intros [ | | ].
  - specialize (S2 Permitted). specialize (S3 Permitted). set_solver.
  - specialize (S3 Effective). set_solver.
  - done.
Qed.

(** What the root-only steps make of a thread that is not the caller. *)
Definition sibling_demoted (u g : Z) (c c' : Creds) : Prop :=
  demoted u g c' ∧ c_seccomp c' = c_seccomp c ∧ c_caps c' Inheritable = c_caps c Inheritable
  ∧ (u ≠ 0 → c_keep_caps c = false → c_caps c' Permitted = ∅ ∧ c_caps c' Effective = ∅).

(** The three id changes of a privileged process. *)
Lemma id_changes g u p pa pb pc :
  sys_setgroups [] p = Some pa → sys_setgid g pa = Some pb → sys_setuid u pb = Some pc →
  Forall privileged (creds p :: siblings p) →
  setuid_effect u (with_gid (with_groups (creds p) []) g) (creds pc)
  ∧ Forall2 (sibling_demoted u g) (siblings p) (siblings pc).
Proof.
  intros Ha Hb Hc HF. apply setgroups_ok in Ha as [Ea Sa].
  apply setgid_ok in Hb as [Eb Sb].
  2:{ rewrite Ea, Sa. apply Forall_cons in HF as [(_ & ? & _) HF]. constructor; [done|].
      apply Forall_fmap. eapply Forall_impl; [exact HF|]. by intros c (_ & ? & _). }
  apply setuid_ok in Hc as [Ec Sc].
  2:{ rewrite Eb, Ea, Sb, Sa. apply Forall_cons in HF as [(_ & _ & ?) HF]. constructor; [done|].
      apply Forall_fmap, Forall_fmap. eapply Forall_impl; [exact HF|]. by intros c (_ & _ & ?). }
  rewrite Eb, Ea in Ec. split; [done|]. rewrite Sb, Sa in Sc.
  rewrite !Forall2_fmap_l in Sc. apply Forall_cons in HF as [_ HF].
  eapply Forall_Forall2_impl; [exact HF|exact Sc|].
  intros c c' (He & _) (caps & -> & Hi & Hn). split; [by constructor|]. simpl in *. auto.
Qed.

Lemma drop_root_sound name user p p' :
  drop_root name user p = Ok p' → Forall privileged (creds p :: siblings p) →
  ∃ u p1 p2 p3, user = Some u
    ∧ sys_setgroups [] p = Some p1 ∧ sys_setgid (us_primary_group_id u) p1 = Some p2
    ∧ sys_setuid (us_uid u) p2 = Some p3 ∧ sys_setuid 0 p3 = None
    ∧ unprivileged (us_uid u) (us_primary_group_id u) (creds p')
    ∧ c_seccomp (creds p') = c_seccomp (creds p)
    ∧ Forall2 (sibling_demoted (us_uid u) (us_primary_group_id u)) (siblings p) (siblings p').
Proof.
  intros H HF. unfold drop_root in H. peel H as [u|] Huser.
  peel H as [pa|] Ha. peel H as [pb|] Hb. peel H as [pc|] Hc.
  destruct (id_changes _ _ _ _ _ _ Ha Hb Hc HF) as [(caps & Ec & _) Sc].
  destruct (sys_setuid 0 pc) as [|] eqn:H0; [done|].
  peel H as [p1|] H1. peel H as [p2|] H2. peel H as [p3|] H3.
  injection H as <-. destruct (clear_all_caps _ _ _ _ H1 H2 H3) as [(k & E3 & Hk) S3].
  exists u, pa, pb, pc. rewrite E3, Ec, S3. by split_and!.
Qed.

(** The drop as its two parts: the root-only steps, then the sandbox. *)
Lemma drop_privileges_inv env get_user arch p p' :
  drop_privileges_completely env get_user arch p = Ok p' →
  ∃ pa, creds p' = with_filter (with_nnp (creds pa)) seccomp_allowed
    ∧ siblings p' = synced_with (creds p') <$> siblings pa
    ∧ if c_euid (creds p) =? 0
      then drop_root (service_user_name env) (get_user (service_user_name env)) p = Ok pa
      else pa = p.
Proof.
  intros H. unfold drop_privileges_completely, apply_seccomp in H.
  peel H as [pa|] Ha. peel H as [pb|] Hb. apply no_new_privs_ok in Hb as [Eb Sb].
  destruct arch; [|done].
  destruct (sys_seccomp seccomp_allowed pb) as [pc|] eqn:Hc; simpl in H; [|done].
  injection H as <-. exists pa. apply seccomp_ok in Hc as [Ec Sc].
  rewrite Sc, Sb, Ec, Eb. split; [done|]. split; [done|].
  by destruct (c_euid (creds p) =? 0); simplify_eq.
Qed.

(** NO_NEW_PRIVS and the filter are on, above the filters there were. *)
Definition confined (before c : Creds) : Prop :=
  c_no_new_privs c = true ∧ c_seccomp c = seccomp_allowed :: c_seccomp before.

(** What every thread of the daemon runs as afterwards. *)
Lemma drop_confined env get_user arch p p' :
  drop_privileges_completely env get_user arch p = Ok p' → root_is_privileged p →
  Forall (confined (creds p)) (creds p' :: siblings p')
  ∧ (c_euid (creds p) = 0 → ∃ u, get_user (service_user_name env) = Some u
       ∧ unprivileged (us_uid u) (us_primary_group_id u) (creds p')).
Proof.
  intros H Hp. apply drop_privileges_inv in H as (pa & Ec & -> & Ha).
  assert (confined (creds p) (creds p')) as Hc.
  { rewrite Ec. split; [done|]. simpl. f_equal.
    destruct (Z.eqb_spec (c_euid (creds p)) 0) as [E|]; [|by subst].
    by apply drop_root_sound in Ha as (? & ? & ? & ? & _ & _ & _ & _ & _ & _ & -> & _); auto. }
  split.
  - constructor; [done|]. apply Forall_fmap, Forall_true. intros c. destruct Hc as [Hn Hs].
    split; [simpl; by rewrite Hn, orb_true_r|done].
  - intros E. rewrite E in Ha.
    apply drop_root_sound in Ha as (u & ? & ? & ? & Hu & _ & _ & _ & _ & [[] ?] & _); auto.
    exists u. split; [done|]. rewrite Ec. by constructor.
Qed.

Lemma confined_refuses before c call :
  confined before c → call ∈ privilege_calls → ¬ admitted c call.
Proof. intros [_ Hs]. apply filter_refuses. rewrite Hs. left. Qed.
End Laws.

(** ** The properties of the privilege drop *)


(** The calls that the drop itself makes. *)
Definition drop_calls : list string :=
  ["setgroups"; "setgid"; "setuid"; "capset"; "prctl"; "seccomp"].

Lemma clears_granted {Proc} {K : Kernel Proc} {KL : KernelLaws K} {KG : KernelGrants K} p :
  admitted (creds p) "capset" → c_caps (creds p) Effective = ∅ →
  ∃ p1 p2 p3 caps, sys_clear_caps Permitted p = Some p1 ∧ sys_clear_caps Effective p1 = Some p2
    ∧ sys_clear_caps Inheritable p2 = Some p3 ∧ creds p3 = with_caps (creds p) caps
    ∧ siblings p3 = siblings p.
Proof.
  intros Ha He.
  destruct (clear_caps_granted Permitted p) as [p1 H1]; [done..|].
  pose proof H1 as [(k1 & E1 & _ & S1) _]%clear_caps_ok.
  destruct (clear_caps_granted Effective p1) as [p2 H2];
    [by unfold admitted; rewrite E1|rewrite E1; specialize (S1 Effective); simpl; set_solver|].
  pose proof H2 as [(k2 & E2 & K2 & _) _]%clear_caps_ok.
  destruct (clear_caps_granted Inheritable p2) as [p3 H3];
    [by unfold admitted; rewrite E2, E1|by rewrite E2|].
  destruct (clear_all_caps _ _ _ _ H1 H2 H3) as [(k & E3 & _) S3]. eauto 10.
Qed.

Lemma ids_granted {Proc} {K : Kernel Proc} {KL : KernelLaws K} {KG : KernelGrants K} p g u :
  Forall privileged (creds p :: siblings p) →
  admitted (creds p) "setgroups" → admitted (creds p) "setgid" → admitted (creds p) "setuid" →
  ∃ pa pb pc, sys_setgroups [] p = Some pa ∧ sys_setgid g pa = Some pb
    ∧ sys_setuid u pb = Some pc.
Proof.
  intros HF A1 A2 A3. unfold admitted in *.
  assert (∀ l, Forall privileged l → Forall (can "CAP_SETGID") l ∧ Forall (can "CAP_SETUID") l)
    as Hcan.
  { intros l Hl. split; (eapply Forall_impl; [exact Hl|]); by intros c (_ & ? & ?). }
  destruct (setgroups_granted [] p) as [pa Ha]; [done|by apply Hcan|].
  pose proof Ha as [Ea Sa]%setgroups_ok.
  assert (Forall privileged (creds pa :: siblings pa)) as HFa.
  { rewrite Ea, Sa. apply Forall_cons in HF as [? HF]. constructor; [done|].
    by apply Forall_fmap. }
  destruct (setgid_granted g pa) as [pb Hb]; [by unfold admitted; rewrite Ea|by apply Hcan|].
  pose proof Hb as [Eb Sb]%setgid_ok; [|by apply Hcan].
  assert (Forall privileged (creds pb :: siblings pb)) as HFb.
  { rewrite Eb, Sb. apply Forall_cons in HFa as [? HFa]. constructor; [done|].
    by apply Forall_fmap. }
  destruct (setuid_granted u pb) as [pc Hc]; [by unfold admitted; rewrite Eb, Ea|by apply Hcan|].
  eauto 10.
Qed.

(** The drop can be done, and only its order makes that so: a root
    process with its capabilities, whose filters admit the calls it needs,
    reaches the end of all nine steps whenever the service user exists and
    is not root. *)
Theorem privilege_drop_progress {Proc} {K : Kernel Proc} {KL : KernelLaws K}
    {KG : KernelGrants K} env get_user p u :
  Forall privileged (creds p :: siblings p) → Forall (admitted (creds p)) drop_calls →
  Forall (λ c, c_seccomp c `suffix_of` c_seccomp (creds p)) (siblings p) →
  c_keep_caps (creds p) = false →
  get_user (service_user_name env) = Some u → us_uid u ≠ 0 →
  ∃ p', drop_privileges_completely env get_user true p = Ok p'.
Proof.
  intros HF Had Hsuf Hk Huser Hnz. pose proof HF as [(He & _) _]%Forall_cons.
  unfold drop_calls in Had. rewrite !Forall_cons in Had.
  destruct Had as (A1 & A2 & A3 & A4 & A5 & A6 & _). unfold admitted in *.
  unfold drop_privileges_completely, drop_root, apply_seccomp, ok_or. rewrite He, Huser. simpl.
  destruct (ids_granted p (us_primary_group_id u) (us_uid u) HF A1 A2 A3)
    as (pa & pb & pc & Ha & Hb & Hc). rewrite Ha, Hb, Hc.
  destruct (id_changes _ _ _ _ _ _ Ha Hb Hc HF) as [(caps & Ec & _ & Hn) Sc].
  destruct (Hn He Hnz Hk) as [Hcp Hce].
  rewrite (setuid_refused 0 pc); [|by unfold can; rewrite Ec; simpl; rewrite Hce; set_solver
                                  |by rewrite Ec; simpl; lia|by rewrite Ec; simpl; lia].
  destruct (clears_granted pc) as (p1 & p2 & p3 & k & H1 & H2 & H3 & E3 & S3);
    [by unfold admitted; rewrite Ec|by rewrite Ec; simpl|].
  rewrite H1, H2, H3.
  destruct (no_new_privs_granted p3) as [p4 H4]; [by unfold admitted; rewrite E3, Ec|].
  rewrite H4. apply no_new_privs_ok in H4 as [E4 S4].
  destruct (seccomp_granted seccomp_allowed p4) as [p5 H5];
    [by unfold admitted; rewrite E4, E3, Ec|by rewrite E4| |rewrite H5; by eauto].
  rewrite S4, S3, E4, E3, Ec. simpl. clear -Hsuf Sc.
  induction Sc as [|c c' l k (_ & Es & _) _ IH]; constructor;
    apply Forall_cons in Hsuf as [? ?]; [by rewrite Es|auto].
Qed.

(** ** A kernel of credentials only, on which the properties are exercised *)

Section Sample.
(** The caller and one worker thread. *)
Record Threads := mk_threads { th_caller : Creds; th_others : list Creds }.

Definition map_threads (f : Creds → Creds) (t : Threads) : Threads :=
  mk_threads (f (th_caller t)) (f <$> th_others t).
Definition map_caller (f : Creds → Creds) (t : Threads) : Threads :=
  mk_threads (f (th_caller t)) (th_others t).

Definition admits (t : Threads) (call : string) : bool :=
  bool_decide (admitted (th_caller t) call).

Definition all_can (cap : string) (t : Threads) : bool :=
  bool_decide (Forall (can cap) (th_caller t :: th_others t)).

Definition only_euid (u : Z) (c : Creds) : Creds :=
  mk_creds (c_ruid c) u (c_suid c) (c_rgid c) (c_egid c) (c_sgid c) (c_groups c) (c_caps c)
    (c_keep_caps c) (c_no_new_privs c) (c_seccomp c).

Definition caps_after_setuid (u : Z) (c : Creds) : CapSet → gset string :=
  if (u =? 0) || c_keep_caps c then c_caps c
  else λ s, match s with Inheritable => c_caps c Inheritable | _ => ∅ end.

Definition set_uid (u : Z) (c : Creds) : Creds := with_uid c u (caps_after_setuid u c).

Definition sample_setuid (u : Z) (t : Threads) : option Threads :=
  let c := th_caller t in
  if negb (admits t "setuid") then None
  else if all_can "CAP_SETUID" t then Some (map_threads (set_uid u) t)
  else if bool_decide (can "CAP_SETUID" c) then None
  else if (u =? c_ruid c) || (u =? c_suid c) then Some (map_threads (only_euid u) t) else None.

Definition clear_in (caps : CapSet → gset string) (s : CapSet) : CapSet → gset string :=
  λ s', if bool_decide (s = s' ∨ (s = Permitted ∧ s' = Effective)) then ∅ else caps s'.

Definition sync_threads (t : Threads) : Threads :=
  mk_threads (th_caller t) (synced_with (th_caller t) <$> th_others t).

Definition sample_kernel : Kernel Threads := {|
  creds := th_caller;
  siblings := th_others;
  sys_setgroups gs t :=
    if admits t "setgroups" && all_can "CAP_SETGID" t
    then Some (map_threads (λ c, with_groups c gs) t) else None;
  sys_setgid g t :=
    if admits t "setgid" && all_can "CAP_SETGID" t
    then Some (map_threads (λ c, with_gid c g) t) else None;
  sys_setuid := sample_setuid;
  sys_clear_caps s t :=
    if admits t "capset"
    then Some (map_caller (λ c, with_caps c (clear_in (c_caps c) s)) t) else None;
  sys_no_new_privs t := if admits t "prctl" then Some (map_caller with_nnp t) else None;
  sys_seccomp l t :=
    if admits t "seccomp" && c_no_new_privs (th_caller t)
    then Some (sync_threads (map_caller (λ c, with_filter c l) t)) else None;
  sys_call call _ t := if admits t call then Some t else None
|}.

Lemma sample_kernel_laws : KernelLaws sample_kernel.
Proof.
  assert (∀ t call, ¬ admitted (th_caller t) call → admits t call = false) as Hf.
  { intros t call N. unfold admits. by apply bool_decide_eq_false_2. }
  split; simpl.
  - intros gs p p' H. by case_match; simplify_eq.
  - intros g p p' H _. by case_match; simplify_eq.
  - intros u p p' H Hc. unfold sample_setuid, all_can in H.
    rewrite (bool_decide_eq_true_2 _ Hc) in H. case_match; simplify_eq. simpl.
    assert (∀ c, setuid_effect u c (set_uid u c)) as He.
    { intros c. exists (caps_after_setuid u c). split; [done|]. unfold caps_after_setuid.
      split; [by case_match|]. intros _ Hnz Hk. by rewrite (proj2 (Z.eqb_neq _ _) Hnz), Hk. }
    split; [done|]. apply Forall2_fmap_r, Forall_Forall2_diag, Forall_true. done.
  - intros s p p' H. case_match; simplify_eq. split; [|done]. eexists. split; [done|].
    unfold clear_in. split; [rewrite bool_decide_eq_true_2; auto|].
    intros s'. case_bool_decide; set_solver.
  - intros p p' H. by case_match; simplify_eq.
  - intros l p p' H. by case_match; simplify_eq.
  - intros u p N. unfold sample_setuid. by rewrite (Hf _ _ N).
  - intros u p N. by rewrite (Hf _ _ N).
  - intros u p N. by rewrite (Hf _ _ N).
  - intros s p N. by rewrite (Hf _ _ N).
  - intros call _ p N. by rewrite (Hf _ _ N).
Qed.

Lemma sample_kernel_grants : KernelGrants sample_kernel.
Proof.
  assert (∀ t call, admitted (th_caller t) call → admits t call = true) as Ha.
  { intros t call E. unfold admits. by apply bool_decide_eq_true_2. }
  split; simpl; unfold all_can.
  - intros gs p E Hc. rewrite Ha, (bool_decide_eq_true_2 _ Hc) by done. eauto.
  - intros g p E Hc. rewrite Ha, (bool_decide_eq_true_2 _ Hc) by done. eauto.
  - intros u p E Hc. unfold sample_setuid, all_can.
    rewrite Ha, (bool_decide_eq_true_2 _ Hc) by done. simpl. eauto.
  - intros u p Hc Hr Hs. unfold sample_setuid, all_can.
    rewrite (bool_decide_eq_false_2 (Forall _ _)) by (by rewrite Forall_cons; intros [? _]).
    rewrite (bool_decide_eq_false_2 _ Hc), (proj2 (Z.eqb_neq _ _) Hr),
      (proj2 (Z.eqb_neq _ _) Hs). by destruct (admits p "setuid").
  - intros s p E _. rewrite Ha by done. eauto.
  - intros p E. rewrite Ha by done. eauto.
  - intros l p E Hn _. rewrite Ha, Hn by done. eauto.
Qed.

(** A root daemon with one worker thread, started under a filter. *)
Definition manager_filter : list string := drop_calls ++ seccomp_allowed.

Definition root_creds : Creds :=
  mk_creds 0 0 0 0 0 0 [27; 999] (λ _, {[ "CAP_SETGID"; "CAP_SETUID"; "CAP_CHOWN" ]})
    false false [manager_filter].
Definition root_process : Threads := mk_threads root_creds [root_creds].
Definition sample_users (name : string) : option User :=
  if bool_decide (name = "ola") then Some (mk_user 990 991) else None.
Definition empty_env : string → EnvVar := λ _, NotPresent.

(** What the sequence of the source leaves on the sample kernel. *)
Definition dropped : Threads :=
  match drop_privileges_completely (K := sample_kernel) empty_env sample_users true
          root_process with
  | Ok t => t
  | Err _ => root_process
  end.

Lemma root_privileged : Forall privileged (th_caller root_process :: th_others root_process).
Proof. repeat constructor; by apply (bool_decide_unpack _). Qed.


(** The worker thread keeps its inheritable capabilities. *)
Example sibling_keeps_inheritable :
  c_caps (th_caller dropped) Inheritable = ∅
  ∧ (λ c, c_caps c Inheritable) <$> th_others dropped = [c_caps root_creds Inheritable].
Proof. split; vm_compute; reflexivity. Qed.

Lemma privilege_drop_progress_witness :
  ∃ p', drop_privileges_completely (K := sample_kernel) empty_env sample_users true root_process
        = Ok p'.
Proof.
  apply (privilege_drop_progress (KL := sample_kernel_laws) (KG := sample_kernel_grants)
           empty_env sample_users root_process (mk_user 990 991)).
  - exact root_privileged.
  - by apply (bool_decide_unpack _).
  - repeat constructor. by exists [].
  - reflexivity.
  - vm_compute. reflexivity.
  - simpl. lia.
Defined.
End Sample.
