(* ===== verification/Systemd.v ===== *)
(** * Notifying systemd: [crates/ola-core/src/infrastructure/ipc/systemd.rs]

    Readiness and watchdog datagrams.  The definitions return the datagrams
    that were handed over; what [sendto] and waiting for the socket answer is
    input. *)

From S2P Require Import Prelude RustStd Config.
Open Scope Z_scope.

(** ** Addresses of datagram sockets: [notify_addr] *)

(** A [sockaddr_un] of the family AF_UNIX: the bytes of [sun_path]. *)
Definition SUN_PATH_LEN : nat := 108.
Definition FAMILY_LEN : Z := 2.

Inductive AddrError : Type := AddrEmpty | AddrAbstractLength | AddrTooLong.

(** [iter_mut().zip(bytes)]: the first bytes are overwritten. *)
Definition copy_into (sun_path bytes : list byte) : list byte :=
  take (length sun_path) bytes ++ drop (length bytes) sun_path.

Definition at_sign : byte := "@"%char.

Definition notify_addr (socket_path : string) : result (list byte * Z) AddrError :=
  let zeroed := replicate SUN_PATH_LEN Ascii.zero in
  match bytes_of socket_path with
  | [] => Err AddrEmpty
  | c :: name =>
      if bool_decide (c = at_sign) then
        if bool_decide (name = [] ∨ (length zeroed < length name + 1)%nat)
        then Err AddrAbstractLength
        else Ok (Ascii.zero :: copy_into (drop 1 zeroed) name,
                 FAMILY_LEN + 1 + Z.of_nat (length name))
      else
      let bytes := c :: name in
      if bool_decide (length zeroed < length bytes + 1)%nat then Err AddrTooLong
      else Ok (copy_into zeroed bytes, FAMILY_LEN + Z.of_nat (length bytes) + 1)
  end.

(** The period of the watchdog pings in nanoseconds; [None] when the
    watchdog is off. *)
Definition watchdog_interval (env : Environment) : option Z :=
  match env "WATCHDOG_USEC" with
  | EnvSet raw =>
      match parse_u64 raw with
      | Some usec =>
          if usec =? 0 then None
          else match env "NOTIFY_SOCKET" with
               | EnvSet _ => Some (Z.max (usec / 3 * 1000) (secs 1))
               | _ => None
               end
      | None => None
      end
  | _ => None
  end.

(** ** Sending *)

(** What one [sendto] answers. *)
Inductive SendTo : Type := SendDone | SendWouldBlock | SendFailed.

Record Datagram := mk_datagram { dg_addr : list byte * Z; dg_message : string }.

Inductive NotifyError : Type :=
| NeAddr (e : AddrError)
| NeWouldBlock
| NeSend.

Definition send_notify (socket_path message : string) (io : SendTo)
  : result Datagram NotifyError :=
  let? addr := map_err NeAddr (notify_addr socket_path) in
  match io with
  | SendDone => Ok (mk_datagram addr message)
  | SendWouldBlock => Err NeWouldBlock
  | SendFailed => Err NeSend
  end.

(** [notify]; a failure is logged and dropped.  [unbound] is whether a
    socket could be created. *)
Definition notify_with_socket (socket_path message : string) (io : SendTo) : list Datagram :=
  match send_notify socket_path message io with Ok d => [d] | Err _ => [] end.

Definition notify (env : Environment) (unbound : bool) (message : string) (io : SendTo)
  : list Datagram :=
  match env "NOTIFY_SOCKET" with
  | EnvSet socket_path => if unbound then notify_with_socket socket_path message io else []
  | _ => []
  end.

Definition notify_ready (env : Environment) (unbound : bool) (io : SendTo) : list Datagram :=
  notify env unbound "READY=1" io.

(** One pass of the asynchronous loop: the answer of [sendto], and whether
    waiting for the socket to become writable succeeds. *)
Record SendAttempt := mk_attempt { sa_send : SendTo; sa_writable : bool }.

(** [None] while it still waits. *)
Fixpoint notify_with_socket_async (socket_path message : string)
    (attempts : list SendAttempt) : option (list Datagram) :=
  match attempts with
  | [] => None
  | a :: attempts =>
      match send_notify socket_path message (sa_send a) with
      | Ok d => Some [d]
      | Err NeWouldBlock =>
          if sa_writable a then notify_with_socket_async socket_path message attempts
          else Some []
      | Err _ => Some []
      end
  end.

(** A tick of the timer: when [ticker.tick()] returned, and the passes of the
    notification that follows it. *)
Record Tick := mk_tick { tk_time : Z; tk_attempts : list SendAttempt }.

(** The loop of the watchdog task: one notification for each tick of the
    timer, the next one not before the last is over.  A datagram is noted
    with the time of its tick. *)
Fixpoint watchdog_loop (socket_path : string) (ticks : list Tick) : list (Z * Datagram) :=
  match ticks with
  | [] => []
  | tick :: ticks =>
      match notify_with_socket_async socket_path "WATCHDOG=1" (tk_attempts tick) with
      | Some sent => ((λ d, (tk_time tick, d)) <$> sent) ++ watchdog_loop socket_path ticks
      | None => []
      end
  end.

(** The task, if it is spawned: its period and its address. *)
Definition watchdog_spawned (env : Environment) (unbound : bool) : option (Z * string) :=
  match watchdog_interval env, env "NOTIFY_SOCKET" with
  | Some interval, EnvSet socket_path => if unbound then Some (interval, socket_path) else None
  | _, _ => None
  end.

(** What the task sends.  [timer] is [tokio::time::interval]: the ticks that a
    ticker of that period has made so far. *)
Definition spawn_watchdog (env : Environment) (unbound : bool) (timer : Z → list Tick)
  : list (Z * Datagram) :=
  match watchdog_spawned env unbound with
  | Some (interval, socket_path) => watchdog_loop socket_path (timer interval)
  | None => []
  end.

(** What the timer documents: a ticker made at [start] ticks first at once,
    and its k-th tick is never before [k] periods have passed. *)
Definition interval_law (start : Z) (timer : Z → list Tick) : Prop :=
  ∀ period k t, timer period !! k = Some t → start + Z.of_nat k * period ≤ tk_time t.

(** And, on a machine that is not too busy, at most [slack] later. *)
Definition punctual (start slack period : Z) (ticks : list Tick) : Prop :=
  ∀ k t, ticks !! k = Some t →
    start + Z.of_nat k * period ≤ tk_time t ≤ start + Z.of_nat k * period + slack.

(** ** Lemmas: addresses *)

Lemma copy_into_fits sun_path bytes :
  (length bytes ≤ length sun_path)%nat →
  copy_into sun_path bytes = bytes ++ drop (length bytes) sun_path.
Proof. intros H. unfold copy_into. by rewrite take_ge. Qed.

Lemma drop_zeroed n m : drop n (replicate m Ascii.zero) = replicate (m - n) Ascii.zero.
Proof. apply drop_replicate. Qed.

(** The bytes of a [sockaddr_un] that the length it comes with covers. *)
Definition addr_bytes (a : list byte * Z) : list byte := take (Z.to_nat (a.2 - FAMILY_LEN)) a.1.

(** ** Lemmas: sending *)

Lemma send_notify_Ok path message io d :
  send_notify path message io = Ok d ↔
  io = SendDone ∧ ∃ addr, notify_addr path = Ok addr ∧ d = mk_datagram addr message.
Proof.
  unfold send_notify. destruct (notify_addr path) as [addr|e]; simpl;
    [|split; [done|by intros (_ & ? & [=] & _)]].
  destruct io; split; try done; try by intros [? _].
  - intros [= <-]. eauto.
  - by intros (_ & a & [= <-] & ->).
Qed.

(** A notification is at most one datagram, of this message. *)
Lemma notify_async_sent path message attempts sent :
  notify_with_socket_async path message attempts = Some sent →
  sent = [] ∨ ∃ addr, notify_addr path = Ok addr ∧ sent = [mk_datagram addr message].
Proof.
  induction attempts as [|a attempts IH]; simpl; [done|].
  destruct (send_notify path message (sa_send a)) as [d|[]] eqn:Hs;
    [|by intros [= <-]; left| |by intros [= <-]; left].
  - intros [= <-]. apply send_notify_Ok in Hs as (_ & addr & ? & ->). eauto.
  - destruct (sa_writable a); [done|]. intros [= <-]. by left.
Qed.

(** The socket blocks for a while, becomes writable each time, and takes the
    datagram. *)
Definition goes_out (attempts : list SendAttempt) : Prop :=
  ∃ n rest, attempts = replicate n (mk_attempt SendWouldBlock true)
                       ++ mk_attempt SendDone true :: rest.

Lemma goes_out_sent path message addr attempts :
  notify_addr path = Ok addr → goes_out attempts →
  notify_with_socket_async path message attempts = Some [mk_datagram addr message].
Proof.
  intros Ha (n & rest & ->). induction n as [|n IH]; simpl; unfold send_notify; by rewrite Ha.
Qed.

Lemma watchdog_loop_sent path ticks k t d :
  watchdog_loop path ticks !! k = Some (t, d) →
  notify_addr path = Ok (dg_addr d) ∧ dg_message d = "WATCHDOG=1"
  ∧ ∃ j tick, (k ≤ j)%nat ∧ ticks !! j = Some tick ∧ t = tk_time tick.
Proof.
  revert k. induction ticks as [|tick ticks IH]; intros k H; simpl in H; [done|].
  destruct (notify_with_socket_async path "WATCHDOG=1" _) as [sent|] eqn:Hs; [|done].
  apply notify_async_sent in Hs as [->|(addr & Ha & ->)]; simpl in H.
  - destruct (IH k H) as (? & ? & j & tick' & ? & ? & ?). split; [done|]. split; [done|].
    exists (S j), tick'. split; [lia|done].
  - destruct k as [|k]; simpl in H.
    + injection H as <- <-. split; [done|]. split; [done|]. by exists 0%nat, tick.
    + destruct (IH k H) as (? & ? & j & tick' & ? & ? & ?). split; [done|]. split; [done|].
      exists (S j), tick'. split; [lia|done].
Qed.

Lemma watchdog_loop_goes_out path addr ticks :
  notify_addr path = Ok addr → Forall (λ t, goes_out (tk_attempts t)) ticks →
  watchdog_loop path ticks = (λ t, (tk_time t, mk_datagram addr "WATCHDOG=1")) <$> ticks.
Proof.
  intros Ha. induction 1 as [|tick ticks Hg _ IH]; simpl; [done|].
  by rewrite (goes_out_sent _ _ _ _ Ha Hg), IH.
Qed.

Lemma watchdog_interval_Some env interval :
  watchdog_interval env = Some interval →
  ∃ raw usec path, env "WATCHDOG_USEC" = EnvSet raw ∧ parse_u64 raw = Some usec
    ∧ env "NOTIFY_SOCKET" = EnvSet path ∧ interval = Z.max (usec / 3 * 1000) (secs 1).
Proof.
  unfold watchdog_interval. intros H.
  destruct (env "WATCHDOG_USEC") as [raw| |] eqn:Hu; try done.
  destruct (parse_u64 raw) as [usec|] eqn:Hp; [|done]. destruct (usec =? 0); [done|].
  destruct (env "NOTIFY_SOCKET") as [path| |] eqn:Hn; try done. injection H as <-.
  by exists raw, usec, path.
Qed.

(** ** The properties *)

(** The address handed to [sendto] never overruns [sun_path], and spells the configured
    path: a path name is terminated by a NUL, an [@] introduces an abstract
    name, which is not terminated. *)
Theorem notify_addr_spec path sun len :
  notify_addr path = Ok (sun, len) →
  length sun = SUN_PATH_LEN ∧ FAMILY_LEN < len ≤ FAMILY_LEN + Z.of_nat SUN_PATH_LEN
  ∧ (addr_bytes (sun, len) = bytes_of path ++ [Ascii.zero]
     ∨ ∃ name, bytes_of path = at_sign :: name ∧ name ≠ []
         ∧ addr_bytes (sun, len) = Ascii.zero :: name).
Proof.
  unfold notify_addr, addr_bytes, FAMILY_LEN, SUN_PATH_LEN. intros H.
  destruct (bytes_of path) as [|c name] eqn:Hb; [done|].
  case_bool_decide as Hc; simpl fst; simpl snd.
  - case_bool_decide as Hn; [done|]. rewrite length_replicate in Hn.
    assert (name ≠ [] ∧ (length name + 1 ≤ 108)%nat) as [Hne Hlt].
    { split; [by intros ->; apply Hn; left|]. destruct (decide (108 < length name + 1)%nat); [|lia].
      exfalso. apply Hn. by right. }
    rewrite drop_zeroed in H. change (108 - 1)%nat with 107%nat in H.
    rewrite copy_into_fits in H by (rewrite length_replicate; lia).
    rewrite drop_zeroed in H. apply Ok_inj, pair_equal_spec in H as [<- <-]. split; [simpl; rewrite length_app, length_replicate; lia|].
    split; [lia|]. right. exists name. split; [by subst c|]. split; [done|].
    replace (Z.to_nat (2 + 1 + Z.of_nat (length name) - 2)) with (S (length name)) by lia.
    simpl. f_equal. by rewrite take_app_length.
  - case_bool_decide as Hn; [done|]. rewrite length_replicate in Hn.
    rewrite copy_into_fits in H by (rewrite length_replicate; lia).
    rewrite drop_zeroed in H. apply Ok_inj, pair_equal_spec in H as [<- <-].
    split; [rewrite length_app, length_replicate; simpl in *; lia|].
    split; [simpl in *; lia|]. left.
    replace (Z.to_nat (2 + Z.of_nat (length (c :: name)) + 1 - 2))
      with (length (c :: name) + 1)%nat by lia.
    rewrite take_app_add. f_equal.
    destruct (108 - length (c :: name))%nat eqn:E; [simpl in *; lia|done].
Qed.

Lemma notify_addr_spec_witness :
  ∃ sun, notify_addr "@ola" = Ok (sun, 6) ∧ length sun = SUN_PATH_LEN.
Proof.
  destruct (notify_addr "@ola") as [[sun len]|e] eqn:H; [|discriminate H].
  destruct (notify_addr_spec "@ola" sun len H) as (Hl & _).
  exists sun. split; [|exact Hl]. vm_compute in H. injection H as _ <-. reflexivity.
Defined.


(** Three punctual ticks of a daemon that systemd gives 30 seconds; the socket
    blocks once before the second. *)
Definition watchdog_env (name : string) : EnvVar :=
  if bool_decide (name = "WATCHDOG_USEC") then EnvSet "30000000"
  else if bool_decide (name = "NOTIFY_SOCKET") then EnvSet "/run/systemd/notify"
  else NotPresent.

Definition sample_timer (period : Z) : list Tick :=
  [ mk_tick 0 [mk_attempt SendDone true];
    mk_tick period [mk_attempt SendWouldBlock true; mk_attempt SendDone true];
    mk_tick (2 * period) [mk_attempt SendDone true] ].

Lemma sample_timer_punctual period : punctual 0 0 period (sample_timer period).
Proof.
  intros k t H. unfold sample_timer in H.
  destruct k as [|[|[|k]]]; simpl in H; simplify_eq; cbn [tk_time]; lia.
Qed.

Lemma sample_timer_goes_out period :
  Forall (λ t, goes_out (tk_attempts t)) (sample_timer period).
Proof.
  repeat constructor; [by exists 0%nat, []|by exists 1%nat, []|by exists 0%nat, []].
Qed.

