(* ===== verification/Socket.v ===== *)
(** * The listening socket: [crates/ola-core/src/infrastructure/ipc/socket_setup.rs]

    What the calls on the file system answer is input; the definitions return
    what they did to the file system next to their result. *)

From S2P Require Import Prelude RustStd SecureFs Config Privilege.
Open Scope Z_scope.

(** ** The path of the socket *)

Inductive FileType : Type :=
| FtSymlink
| FtSocket
| FtDir
| FtRegular
| FtOther.

#[global] Instance FileType_eq_dec : EqDecision FileType.
Proof. solve_decision. Defined.

Inductive SocketError : Type :=
| SeStat (e : IoKind)
| SeSymlink
| SeNotSocket
| SeInUse
| SeNotAccessible
| SeRemove
| SeParentCreate
| SeParentSymlink
| SeParentNotDir
| SeUserNotFound (name : string)
| SeParentOpen
| SeFchmod
| SeFchown
| SeSetPermissions
| SeBind
| SeListener
| SeDrop (e : DropError).

(** [lstat] is [fs::symlink_metadata(path)], [connect] the attempt to reach a
    listener, [unlink] whether [fs::remove_file] succeeds.  The second
    component says whether the path was removed. *)
Definition remove_stale_socket_with (lstat : result FileType IoKind)
    (connect : result unit IoKind) (unlink : bool) : result unit SocketError * bool :=
  let remove := if unlink then (Ok tt, true) else (Err SeRemove, false) in
  match lstat with
  | Err IoNotFound => (Ok tt, false)
  | Err e => (Err (SeStat e), false)
  | Ok file_type =>
      if bool_decide (file_type = FtSymlink) then (Err SeSymlink, false)
      else if negb (bool_decide (file_type = FtSocket)) then (Err SeNotSocket, false)
      else match connect with
           | Ok _ => (Err SeInUse, false)
           | Err IoConnectionRefused => remove
           | Err IoPermissionDenied => (Err SeNotAccessible, false)
           | Err _ => remove
           end
  end.

(** ** The directory of the socket *)

(** What preparing the parent meets. *)
Record ParentIo := mk_parent_io {
  pi_exists : bool;                      (* [parent.exists()] *)
  pi_create : bool;                      (* [create_dir_all] *)
  pi_lstat : result FileType IoKind;     (* [symlink_metadata(parent)] *)
  pi_open : bool;                        (* O_DIRECTORY|O_NOFOLLOW|O_CLOEXEC *)
  pi_fchmod : bool;
  pi_fchown : bool;
  pi_chmod : bool                        (* [fs::set_permissions] *)
}.

(** What it did, in order. *)
Inductive ParentAction : Type :=
| PCreate
| PFchmod (mode : Z)                     (* on the pinned descriptor *)
| PFchown (uid gid : Z)                  (* on the pinned descriptor *)
| PChmod (mode : Z).                     (* on the path *)

Definition set_socket_parent_owner (io : ParentIo) (gid : Z)
  : result unit SocketError * list ParentAction :=
  if negb (pi_open io) then (Err SeParentOpen, [])
  else if negb (pi_fchmod io) then (Err SeFchmod, [])
  else if negb (pi_fchown io) then (Err SeFchown, [PFchmod 488])
  else (Ok tt, [PFchmod 488; PFchown 0 gid]).

(** The part after the directory is there, for a daemon that must check it. *)
Definition secure_parent (env : Environment) (get_user : string → option User) (root : bool)
    (io : ParentIo) : result unit SocketError * list ParentAction :=
  match pi_lstat io with
  | Err e => (Err (SeStat e), [])
  | Ok file_type =>
      if bool_decide (file_type = FtSymlink) then (Err SeParentSymlink, [])
      else if negb (bool_decide (file_type = FtDir)) then (Err SeParentNotDir, [])
      else if root then
        match get_user (service_user_name env) with
        | None => (Err (SeUserNotFound (service_user_name env)), [])
        | Some user => set_socket_parent_owner io (us_primary_group_id user)
        end
      else if pi_chmod io then (Ok tt, [PChmod 488]) else (Err SeSetPermissions, [])
  end.

Definition prepare_socket_parent (env : Environment) (get_user : string → option User)
    (config : Config) (root : bool) (io : ParentIo)
  : result unit SocketError * list ParentAction :=
  if negb (pi_exists io) && negb (pi_create io) then (Err SeParentCreate, [])
  else
  let created := if pi_exists io then [] else [PCreate] in
  if negb (is_prod_mode config || root) then (Ok tt, created)
  else
  let '(r, actions) := secure_parent env get_user root io in
  (r, created ++ actions).

(** ** The listener *)

Record ListenIo := mk_listen_io {
  li_activated : bool;                   (* a socket was passed by systemd *)
  li_from_std : bool;                    (* [set_nonblocking], [from_std] *)
  li_parent : option ParentIo;           (* [None]: the path has no parent *)
  li_lstat : result FileType IoKind;
  li_connect : result unit IoKind;
  li_unlink : bool;
  li_bind : bool;
  li_fchmod : bool;
  li_fchown : bool
}.

(** The listener that [setup_listener] returns: an inherited one, or one it
    bound, with the mode and the owner it set on the descriptor. *)
Inductive Listener : Type :=
| Activated
| Bound (mode : Z) (owner : option (Z * Z)).

Section Setup.
Context {Proc : Type} `{K : Kernel Proc}.

Definition bind_listener (env : Environment) (get_user : string → option User)
    (config : Config) (root : bool) (io : ListenIo) : result Listener SocketError :=
  let? _ := match li_parent io with
            | Some parent => (prepare_socket_parent env get_user config root parent).1
            | None => Ok tt
            end in
  let? _ := (remove_stale_socket_with (li_lstat io) (li_connect io) (li_unlink io)).1 in
  if negb (li_bind io) then Err SeBind
  else if negb (li_fchmod io) then Err SeFchmod
  else if root then
    let? user := ok_or (SeUserNotFound (service_user_name env))
                   (get_user (service_user_name env)) in
    if li_fchown io then Ok (Bound 432 (Some (us_uid user, us_primary_group_id user)))
    else Err SeFchown
  else Ok (Bound 432 None).

Definition setup_listener (env : Environment) (get_user : string → option User)
    (arch_supported : bool) (config : Config) (io : ListenIo) (p : Proc)
  : result (Listener * Proc) SocketError :=
  let? listener := (if li_activated io
                    then if li_from_std io then Ok Activated else Err SeListener
                    else bind_listener env get_user config (c_euid (creds p) =? 0) io) in
  let? p := map_err SeDrop (drop_privileges_completely env get_user arch_supported p) in
  Ok (listener, p).
End Setup.

(** ** Lemmas *)

Lemma bind_listener_Ok env get_user config root io l :
  bind_listener env get_user config root io = Ok l →
  (∀ pio, li_parent io = Some pio →
     (prepare_socket_parent env get_user config root pio).1 = Ok tt)
  ∧ (remove_stale_socket_with (li_lstat io) (li_connect io) (li_unlink io)).1 = Ok tt
  ∧ li_fchmod io = true
  ∧ if root then ∃ u, get_user (service_user_name env) = Some u
      ∧ l = Bound 432 (Some (us_uid u, us_primary_group_id u)) ∧ li_fchown io = true
    else l = Bound 432 None.
Proof.
  unfold bind_listener, ok_or. intros H.
  destruct (match li_parent io with Some _ => _ | None => _ end) as [[]|] eqn:Hp; [|done].
  destruct (remove_stale_socket_with _ _ _).1 as [[]|] eqn:Hr; [|done].
  destruct (li_bind io), (li_fchmod io); simpl in H; try done.
  split; [intros pio E; by rewrite E in Hp|]. split; [done|]. split; [done|].
  destruct root; [|by simplify_eq].
  destruct (get_user _) as [u|]; [|done]. destruct (li_fchown io); simplify_eq. eauto.
Qed.

(** ** The properties of the socket set-up *)

(** Clearing the path of the socket is safe.  A path is removed only if
    it is a socket, not a symbolic link or any other file, and nobody
    answered on it, and not when access was denied.  When clearing succeeds
    the path was free or has been removed; when it fails nothing changed. *)
Theorem stale_socket_safe lstat connect unlink r removed :
  remove_stale_socket_with lstat connect unlink = (r, removed) →
  (removed = true ↔ lstat = Ok FtSocket ∧ unlink = true
     ∧ ∃ e, connect = Err e ∧ e ≠ IoPermissionDenied)
  ∧ (r = Ok tt ↔ lstat = Err IoNotFound ∨ removed = true).
Proof.
  unfold remove_stale_socket_with. intros H.
  destruct lstat as [ft|e]; [|destruct e; simplify_eq; naive_solver].
  destruct ft; simpl in H; [simplify_eq; naive_solver| |simplify_eq; naive_solver..].
  destruct connect as [[]|e]; [simplify_eq; naive_solver|].
  destruct e, unlink; simplify_eq; split; split; naive_solver.
Qed.

Lemma stale_socket_safe_witness :
  (true = true ↔ Ok (E := IoKind) FtSocket = Ok FtSocket ∧ true = true
     ∧ ∃ e, Err (A := unit) IoConnectionRefused = Err e ∧ e ≠ IoPermissionDenied)
  ∧ (Ok (E := SocketError) tt = Ok tt
     ↔ Ok (E := IoKind) FtSocket = Err IoNotFound ∨ true = true).
Proof.
  apply (stale_socket_safe (Ok FtSocket) (Err IoConnectionRefused) true).
  vm_compute. reflexivity.
Defined.

(** The daemon serves only behind a dropped, filtered process.  When the
    listener is returned the privileges are gone.  A listener that was bound
    rather than inherited has mode 0660 and, for a root daemon, the service
    user as its owner; a daemon that is root or in production has then put
    mode 0750 on a parent that is a real directory, and root also made
    root its owner and the service group its group. *)
Theorem setup_listener_spec {Proc} {K : Kernel Proc} {KL : KernelLaws K}
    env get_user arch config io p l p' :
  setup_listener env get_user arch config io p = Ok (l, p') →
  root_is_privileged p →
  Forall (confined (creds p)) (creds p' :: siblings p')
  ∧ (c_euid (creds p) = 0 → ∃ u, get_user (service_user_name env) = Some u
       ∧ unprivileged (us_uid u) (us_primary_group_id u) (creds p'))
  ∧ (li_activated io = true → l = Activated)
  ∧ (li_activated io = false →
     (∃ owner, l = Bound 432 owner
        ∧ (c_euid (creds p) = 0 → ∃ u, get_user (service_user_name env) = Some u
             ∧ owner = Some (us_uid u, us_primary_group_id u)))
     ∧ ∀ pio, li_parent io = Some pio →
         is_prod_mode config = true ∨ c_euid (creds p) = 0 →
         pi_lstat pio = Ok FtDir
         ∧ ∃ created, (prepare_socket_parent env get_user config (c_euid (creds p) =? 0) pio).2
             = created ++ (if c_euid (creds p) =? 0
                           then from_option (λ u, [PFchmod 488; PFchown 0 (us_primary_group_id u)])
                                  [] (get_user (service_user_name env))
                           else [PChmod 488])).
Proof.
  unfold setup_listener, map_err. intros H Hpriv.
  destruct (if li_activated io then _ else _) as [l0|] eqn:Hl; [|done].
  destruct (drop_privileges_completely env get_user arch p) as [p0|] eqn:Hd; [|done].
  injection H as <- <-.
  destruct (drop_confined _ _ _ _ _ Hd Hpriv) as [Hf Hu]. do 2 (split; [done|]).
  destruct (li_activated io); [split; [|done]; by destruct (li_from_std io); simplify_eq|].
  split; [done|]. intros _. apply bind_listener_Ok in Hl as (Hp & _ & _ & Hb). split.
  { destruct (Z.eqb_spec (c_euid (creds p)) 0).
    - destruct Hb as (u & ? & -> & _). eauto.
    - subst l0. eexists. split; [done|]. naive_solver. }
  intros pio Hpio Hsec. specialize (Hp pio Hpio).
  unfold prepare_socket_parent, secure_parent, set_socket_parent_owner in *.
  destruct (negb (pi_exists pio) && negb (pi_create pio)); [done|].
  assert (is_prod_mode config || (c_euid (creds p) =? 0) = true) as Hor.
  { destruct Hsec as [->| ->]; [done|]. by rewrite Z.eqb_refl, orb_true_r. }
  rewrite Hor in *. simpl in *.
  destruct (pi_lstat pio) as [[]|]; simpl in *; try done. split; [done|].
  destruct (c_euid (creds p) =? 0).
  - destruct (get_user _) as [u|]; [|done].
    destruct (pi_open pio), (pi_fchmod pio), (pi_fchown pio); simpl in *; eauto; done.
  - destruct (pi_chmod pio); simpl in *; eauto; done.
Qed.

Definition sample_config : Config :=
  mk_cfg DEFAULT_SOCKET_PATH "prod" 3 20 DEFAULT_ALLOWLIST_PATH DEFAULT_ADAPTERS_DIR
    DEFAULT_POLICY_PATH DEFAULT_AUDIT_LOG_PATH DEFAULT_ADAPTER_KEYS_DIR 30 true.
Definition sample_parent_io : ParentIo := mk_parent_io true true (Ok FtDir) true true true true.
Definition sample_listen_io : ListenIo :=
  mk_listen_io false true (Some sample_parent_io) (Ok FtSocket) (Err IoConnectionRefused)
    true true true true.

Lemma setup_listener_spec_witness :
  Forall (confined root_creds) (th_caller dropped :: th_others dropped)
  ∧ setup_listener (K := sample_kernel) empty_env sample_users true sample_config
      sample_listen_io root_process = Ok (Bound 432 (Some (990, 991)), dropped).
Proof.
  assert (setup_listener (K := sample_kernel) empty_env sample_users true sample_config
            sample_listen_io root_process = Ok (Bound 432 (Some (990, 991)), dropped)) as H.
  { vm_compute. reflexivity. }
  destruct (setup_listener_spec (KL := sample_kernel_laws) empty_env sample_users true
              sample_config sample_listen_io root_process _ _ H) as (Hf & _).
  - intros _. exact root_privileged.
  - split; [exact Hf|exact H].
Defined.
