(* ===== verification/Server.v ===== *)
(** * The request path: [crates/ola-core/src/infrastructure/ipc/unix_socket.rs] and [protocol.rs]

    [handle_verify_once] and [handle_client] are translated call by call.
    The state that requests share (nonces, audit log, rate limiter, counters)
    is passed along; the readings of clocks, of the random source, of the
    adapter's socket and of the disk are inputs.  Where the code awaits, other
    requests and the cleanup tasks may run: the operations they make on the
    shared state are inputs too ([Interleave] derives them from the other
    calls). *)

From S2P Require Import Prelude RustStd Types SecureFs Policy Nonce RateLimit Allowlist.
From S2P Require Import Attestation AuditEntry AuditLog Health Json Client AdapterConfig Registry Config Metrics.
Open Scope Z_scope.

(** ** protocol.rs *)

Record Request := mk_rq {
  rq_version : Z;
  rq_id : option string;
  rq_method : string;
  rq_params : option Value
}.

Record Response := mk_rs {
  rs_version : Z;
  rs_id : option string;
  rs_result : option Value;
  rs_error : option string
}.

Definition response_ok (id : option string) (result : Value) : Response :=
  mk_rs PROTOCOL_VERSION id (Some result) None.

Definition response_error (id : option string) (msg : string) : Response :=
  mk_rs PROTOCOL_VERSION id None (Some msg).

Definition response_deny (id : option string) (reason : string) : Response :=
  response_ok id (VObject [("decision", VString "deny"); ("deny_reason", VString reason)]).

Definition response_allow (id : option string) (method : string) : Response :=
  response_ok id (VObject [("decision", VString "allow"); ("method", VString method)]).

(** [serde_json] at the request and response types; the error of the parser
    is its text. *)
Class ServerSerde := {
  request_from_str : string → result Request string;
  response_to_string : Response → option string
}.

(** ** State *)

Definition MAX_CONNECTIONS : Z := 16.
Definition RATE_LIMIT_PER_UID : Z := 100.

Record ReloadableState := mk_reloadable {
  rl_allowlist : Allowlist;
  rl_policy_engine : PolicyEngine
}.

(** The parts of [ServerState] that never change; [sv_getuid] is the daemon's
    own uid. *)
Record Server := mk_server {
  sv_registry : AdapterRegistry;
  sv_attester : AttestationVerifier;
  sv_config : Config;
  sv_owner_policy : OwnerPolicy;
  sv_getuid : Z
}.

(** What all connections share and change. *)
Record Shared := mk_shared {
  sh_nonces : Mutex NonceState;
  sh_audit : Mutex AuditState;
  sh_rate : RateLimiter;
  sh_metrics : Metrics
}.

Definition with_nonces (sh : Shared) (m : Mutex NonceState) : Shared :=
  mk_shared m (sh_audit sh) (sh_rate sh) (sh_metrics sh).
Definition with_audit (sh : Shared) (m : Mutex AuditState) : Shared :=
  mk_shared (sh_nonces sh) m (sh_rate sh) (sh_metrics sh).
Definition with_rate (sh : Shared) (r : RateLimiter) : Shared :=
  mk_shared (sh_nonces sh) (sh_audit sh) r (sh_metrics sh).
Definition with_metrics (sh : Shared) (f : Metrics → Metrics) : Shared :=
  mk_shared (sh_nonces sh) (sh_audit sh) (sh_rate sh) (f (sh_metrics sh)).

(** Everything one [handle_verify_once] reads from outside, in order. *)
Record VerifyEnv := mk_venv {
  ve_health : Mutex (gmap string AdapterHealth);     (* at [resolve] *)
  ve_rand : nat → option (list byte);                (* [generate] *)
  ve_generate_now : Z;
  ve_uuid : list byte;
  ve_request_now : Z;                                (* system clock *)
  ve_dispatch_health : Mutex (gmap string AdapterHealth);
  ve_permit : Timed bool;
  ve_exchange : Exchange;
  ve_nonce_ops : list NonceOp;                       (* of others, meanwhile *)
  ve_deadline_now : Z;                               (* system clock *)
  ve_consume_now : Z;
  ve_policy_now : Z;                                 (* system clock *)
  ve_entry_now : Z;                                  (* system clock *)
  ve_audit_ops : list AuditOp;                       (* of others, before ours *)
  ve_log_io : LogIo
}.

(** ** Error texts *)

Definition nonce_reason (error : NonceError) : string :=
  match error with
  | NonceNotFound => "nonce_not_found"
  | NonceExpired => "nonce_expired"
  | NonceUidMismatch => "nonce_uid_mismatch"
  | TableFull => "nonce_table_full"
  | TooManyForUid => "nonce_uid_limit"
  | StatePoisoned => "nonce_store_unavailable"
  | RandomUnavailable => "nonce_random_unavailable"
  end.

Definition attestation_reason (error : AttestationError) : string :=
  match error with
  | UnknownAdapter => "attestation_unknown_adapter"
  | HashMismatch => "attestation_hash_mismatch"
  end.

(** [Display] of [AdapterError]; [inner] is the text of a wrapped error of
    another crate. *)
Definition adapter_error_display (inner : AdapterError → string) (e : AdapterError) : string :=
  match e with
  | Timeout => "adapter socket not found or timed out"
  | Connect _ => "connect failed: " +:+ inner e
  | PeerUidMismatch expected got =>
      "uid mismatch: expected " +:+ display_uint expected +:+ ", got " +:+ display_uint got
  | Disconnected => "adapter disconnected"
  | VersionMismatch v => "protocol version mismatch: " +:+ display_uint v
  | IdMismatch => "response id does not match request id"
  | Serde => "serialization error: " +:+ inner e
  | Codec => "codec error: " +:+ inner e
  | Nix => "nix error: " +:+ inner e
  | MethodNotFound m => "method not found: " +:+ m
  | AdapterDown n => "adapter down: " +:+ n
  | AdapterBusy n => "adapter busy: " +:+ n
  end.

(** ** Parameters of a request *)

Definition request_uid (caller_uid : Z) (params : option Value) : result Z string :=
  if negb (caller_uid =? 0) then Ok caller_uid
  else
  match params ≫= λ p, get_field p "uid" with
  | None => Err "root caller must supply params.uid"
  | Some value =>
      match as_u64 value with
      | None => Err "uid must be an unsigned integer"
      | Some uid => if u32_max <? uid then Err "uid out of range" else Ok uid
      end
  end.

Definition request_method (params : option Value) : result string string :=
  match params with
  | None => Ok "any"
  | Some (VObject fields) =>
      match get_field (VObject fields) "method" with
      | None => Ok "any"
      | Some value =>
          match Json.as_str value with
          | None => Err "params.method must be a string"
          | Some method =>
              let? _ := map_err (λ _, "params.method is invalid")
                          (validate_method_name method true) in
              Ok method
          end
      end
  | Some _ => Err "params must be an object"
  end.

(** ** One verification *)

Section Verify.
Context `{C : Crypto} `{SD : AuditSerde} `{W : WireSerde}.
Context (inner : AdapterError → string).

Definition write_audit_or_error (sh : Shared) (entry : AuditEntry)
    (response_id : option string) (env : VerifyEnv) : result unit Response * Shared :=
  let audit := audit_run (sh_audit sh) (ve_audit_ops env) in
  let '(r, audit) := log audit entry (ve_log_io env) in
  let sh := with_audit sh audit in
  match r with
  | Err _ => (Err (response_error response_id "audit failed"), with_metrics sh inc_failures)
  | Ok _ => (Ok tt, sh)
  end.

Definition audit_deny (sh : Shared) (entry : AuditEntry) (response_id : option string)
    (client_reason : string) (env : VerifyEnv) : Response * Shared :=
  let '(r, sh) := write_audit_or_error sh entry response_id env in
  match r with
  | Ok _ => (response_deny response_id client_reason, sh)
  | Err response => (response, sh)
  end.

(** [consume(..).ok()]: spend the nonce, whatever the outcome. *)
Definition spend (sh : Shared) (nonce : list byte) (uid : Z) (env : VerifyEnv) : Shared :=
  with_nonces sh (consume (sh_nonces sh) nonce uid (ve_consume_now env)).2.

(** From the spending of the nonce on: attestation, method, policy, audit. *)
Definition decide_result (sv : Server) (reloadable : ReloadableState) (sh : Shared)
    (caller_uid uid : Z) (req_id : option string) (resolved : ResolvedAdapter)
    (request : VerificationRequest) (result : VerificationResult) (env : VerifyEnv)
  : Response * Shared :=
  let adapter_name := ra_adapter_name resolved in
  let resolved_method := ra_method resolved in
  let refuse sh reason client_reason :=
    audit_deny sh
      (deny (ve_entry_now env) caller_uid uid resolved_method reason (Some adapter_name)
         req_id (Some result)) req_id client_reason env in
  let '(spent, nonces) := consume (sh_nonces sh) (req_nonce request) uid (ve_consume_now env) in
  let sh := with_nonces sh nonces in
  match spent with
  | Err e => refuse sh (nonce_reason e) "nonce replay detected"
  | Ok _ =>
      match (if require_attestation (sv_config sv)
             then Attestation.verify (sv_attester sv) adapter_name result else Ok tt) with
      | Err e => refuse sh (attestation_reason e) "invalid evidence hash"
      | Ok _ =>
          if negb (bool_decide (Types.as_str (res_method result) = resolved_method))
          then refuse sh "method_mismatch" "method mismatch"
          else
          let context := mk_context uid resolved_method request result None in
          let decision := evaluate (rl_policy_engine reloadable) (ve_policy_now env) context in
          let context := mk_context uid resolved_method request result (Some decision) in
          let '(logged, sh) :=
            write_audit_or_error sh
              (from_decision (ve_entry_now env) context decision caller_uid (Some adapter_name)
                 req_id) req_id env in
          match logged with
          | Err response => (response, sh)
          | Ok _ =>
              match decision with
              | Allow => (response_allow req_id (Types.as_str (res_method result)), sh)
              | Deny reason => (response_deny req_id (deny_reason_debug reason), sh)
              end
          end
      end
  end.

(** From the request on: dispatch, the adapter's answer, the deadline. *)
Definition challenge_adapter (sv : Server) (reloadable : ReloadableState) (sh : Shared)
    (caller_uid uid : Z) (req_id : option string) (resolved : ResolvedAdapter)
    (nonce : list byte) (env : VerifyEnv) : Response * Shared :=
  let adapter_name := ra_adapter_name resolved in
  let resolved_method := ra_method resolved in
  let request :=
    mk_request PROTOCOL_VERSION (ve_uuid env) uid nonce
      (saturating_add_u64 (unix_ms (ve_request_now env)) (ra_timeout_ms resolved)) in
  let '(answer, _) :=
    dispatch_resolved (ve_dispatch_health env) resolved request (ve_permit env)
      (ve_exchange env) in
  let sh := with_nonces sh (nonce_run (sh_nonces sh) (ve_nonce_ops env)).2 in
  match answer with
  | Err e =>
      let sh := spend sh nonce uid env in
      let reason := adapter_error_display inner e in
      audit_deny sh
        (deny (ve_entry_now env) caller_uid uid resolved_method reason (Some adapter_name)
           req_id None) req_id reason env
  | Ok result =>
      if bool_decide (res_nonce result ≠ nonce) then
        let sh := spend sh nonce uid env in
        audit_deny sh
          (deny (ve_entry_now env) caller_uid uid resolved_method "nonce_mismatch"
             (Some adapter_name) req_id (Some result)) req_id "nonce mismatch detected" env
      else if req_deadline_ms request <? unix_ms (ve_deadline_now env) then
        let sh := spend sh nonce uid env in
        audit_deny sh
          (deny (ve_entry_now env) caller_uid uid resolved_method "request_deadline_expired"
             (Some adapter_name) req_id (Some result)) req_id "request deadline expired" env
      else decide_result sv reloadable sh caller_uid uid req_id resolved request result env
  end.

Definition handle_verify_once (sv : Server) (reloadable : ReloadableState) (sh : Shared)
    (caller_uid uid : Z) (method : string) (req_id : option string) (env : VerifyEnv)
  : Response * Shared :=
  match resolve (sv_registry sv) (ve_health env) method with
  | Err e =>
      let reason := adapter_error_display inner e in
      audit_deny sh
        (deny (ve_entry_now env) caller_uid uid method reason None req_id None)
        req_id reason env
  | Ok resolved =>
      let '(generated, nonces) :=
        generate (sh_nonces sh) uid (ve_rand env) (ve_generate_now env) in
      let sh := with_nonces sh nonces in
      match generated with
      | Err e =>
          let reason := nonce_reason e in
          audit_deny sh
            (deny (ve_entry_now env) caller_uid uid (ra_method resolved) reason
               (Some (ra_adapter_name resolved)) req_id None) req_id reason env
      | Ok nonce =>
          challenge_adapter sv reloadable sh caller_uid uid req_id resolved nonce env
      end
  end.
End Verify.

(** ** One connection *)

Definition CARGO_PKG_VERSION : string := "0.2.0".

(** What one request line meets: the configuration loaded for it, the other
    connections' calls of the rate limiter before its own and the time of its
    own, the health map for listing methods, whether the answer can be
    sent, and the readings of a verification. *)
Record LineEnv := mk_lenv {
  le_reloadable : ReloadableState;
  le_rate_ops : list RateOp;
  le_rate_now : Z;
  le_health : Mutex (gmap string AdapterHealth);
  le_send_ok : bool;
  le_verify : VerifyEnv
}.

Inductive ClientEvent : Type :=
| EvIdle                                   (* the idle timer elapses *)
| EvEnd                                    (* end of stream *)
| EvLineError                              (* [LinesCodec] fails *)
| EvLine (line : string) (le : LineEnv).

Inductive ClientError : Type :=
| CePeerCred
| CeLine
| CeSerialize
| CeSend.

(** What becomes of a line: the connection closes silently, or an answer is
    sent and the connection closes or goes on. *)
Inductive LineOutcome : Type :=
| CloseSilently
| ReplyAndClose (r : Response)
| Reply (r : Response).

Section Client.
Context `{C : Crypto} `{SD : AuditSerde} `{W : WireSerde} `{SS : ServerSerde}.
Context (inner : AdapterError → string).

Definition methods_value (methods : list string) : Value := VArray (VString <$> methods).

(** The [match] on the method of a well-formed request. *)
Definition handle_request (sv : Server) (peer : Z) (req : Request) (le : LineEnv) (sh : Shared)
  : LineOutcome * Shared :=
  let fail sh := with_metrics sh inc_failures in
  if bool_decide (rq_method req = "ping") then
    (Reply (response_ok (rq_id req)
       (VObject [("ok", VBool true); ("version", VString CARGO_PKG_VERSION)])), sh)
  else if bool_decide (rq_method req = "status") then
    (Reply (response_ok (rq_id req)
       (VObject [("status", VString "running"); ("version", VString CARGO_PKG_VERSION);
                 ("methods", methods_value (available_methods (sv_registry sv) (le_health le)))])),
     sh)
  else if bool_decide (rq_method req = "list_methods") then
    (Reply (response_ok (rq_id req)
       (methods_value (available_methods (sv_registry sv) (le_health le)))), sh)
  else if bool_decide (rq_method req = "verify_once") then
    match request_uid peer (rq_params req) with
    | Err msg => (ReplyAndClose (response_error (rq_id req) msg), fail sh)
    | Ok uid =>
        match request_method (rq_params req) with
        | Err msg => (ReplyAndClose (response_error (rq_id req) msg), fail sh)
        | Ok method =>
            let '(resp, sh) :=
              handle_verify_once inner sv (le_reloadable le) sh peer uid method (rq_id req)
                (le_verify le) in
            (Reply resp, sh)
        end
    end
  else (Reply (response_error (rq_id req) "Unknown method"), fail sh).

(** One line, from the check of the allowlist to the answer. *)
Definition handle_line (sv : Server) (peer : Z) (line : string) (le : LineEnv) (sh : Shared)
  : LineOutcome * Shared :=
  let fail sh := with_metrics sh inc_failures in
  if negb (is_allowed (sv_getuid sv) (rl_allowlist (le_reloadable le)) peer)
  then (CloseSilently, fail sh)
  else
  let rate := foldl (λ r op, (rate_step RATE_LIMIT_PER_UID r op).2) (sh_rate sh)
                (le_rate_ops le) in
  let '(admitted, rate) := check rate peer RATE_LIMIT_PER_UID (le_rate_now le) in
  let sh := with_rate sh rate in
  if negb admitted
  then (ReplyAndClose (response_error None "Rate limit exceeded"), fail sh)
  else
  match request_from_str line with
  | Err e => (Reply (response_error None ("Invalid JSON: " +:+ e)), fail sh)
  | Ok req =>
      if negb (rq_version req =? PROTOCOL_VERSION)
      then (Reply (response_error (rq_id req)
              ("Unsupported protocol version " +:+ display_uint (rq_version req))), fail sh)
      else handle_request sv peer req le sh
  end.

(** [framed.send(serde_json::to_string(&resp)?).await?] *)
Definition send (resp : Response) (ok : bool) : result unit ClientError :=
  let? _ := ok_or CeSerialize (response_to_string resp) in
  if ok then Ok tt else Err CeSend.

(** The loop: its result, the responses given to the socket, the state.
    Without further events it is still waiting. *)
Fixpoint client_loop (sv : Server) (peer : Z) (events : list ClientEvent) (sh : Shared)
  : option (result unit ClientError) * list Response * Shared :=
  match events with
  | [] => (None, [], sh)
  | EvEnd :: _ => (Some (Ok tt), [], sh)
  | EvIdle :: _ => (Some (Ok tt), [], with_metrics sh inc_idle_closes)
  | EvLineError :: _ => (Some (Err CeLine), [], with_metrics sh inc_requests)
  | EvLine line le :: events =>
      let sh := with_metrics sh inc_requests in
      let '(outcome, sh) := handle_line sv peer line le sh in
      match outcome with
      | CloseSilently => (Some (Ok tt), [], sh)
      | ReplyAndClose resp => (Some (send resp (le_send_ok le)), [resp], sh)
      | Reply resp =>
          match send resp (le_send_ok le) with
          | Err e => (Some (Err e), [resp], sh)
          | Ok _ =>
              let '(r, sent, sh) := client_loop sv peer events sh in
              (r, resp :: sent, sh)
          end
      end
  end.

(** [creds] is what [SO_PEERCRED] returns; [accepted] the configuration that
    is loaded when the connection is accepted. *)
Definition handle_client (sv : Server) (creds : option Z) (accepted : ReloadableState)
    (events : list ClientEvent) (sh : Shared)
  : option (result unit ClientError) * list Response * Shared :=
  match creds with
  | None => (Some (Err CePeerCred), [], sh)
  | Some peer =>
      if negb (is_allowed (sv_getuid sv) (rl_allowlist accepted) peer)
      then (Some (Ok tt), [], with_metrics sh inc_failures)
      else client_loop sv peer events sh
  end.
End Client.
