(* ===== verification/Typing.v ===== *)
(** * The texts and records the daemon builds are values of the Rust types

    A Rust [String] is UTF-8 and its length fits [usize]; the model's
    [string] is any byte string.  These lemmas bound every text the request
    path puts into an audit entry, down to the printed decimals of an [f32],
    so that the theorems about the log need not assume it. *)

From S2P Require Import Prelude RustStd Types SecureFs Policy Nonce RateLimit Allowlist.
From S2P Require Import Attestation AuditEntry AuditLog Health Json Client AdapterConfig Registry Config Metrics Server.
Open Scope Z_scope.

(** ** ASCII of bounded length *)

Definition ascii_bytes (k : Z) (bs : list byte) : Prop :=
  Forall (λ b, bv b < 128) bs ∧ Z.of_nat (length bs) ≤ k.

Definition text (k : Z) (s : string) : Prop := ascii_bytes k (bytes_of s).

Lemma ascii_weaken j k bs : ascii_bytes j bs → j ≤ k → ascii_bytes k bs.
Proof. intros [? ?] ?. split; [done|lia]. Qed.

Lemma text_weaken j k s : text j s → j ≤ k → text k s.
Proof. apply ascii_weaken. Qed.

Lemma ascii_app j k a b :
  ascii_bytes j a → ascii_bytes k b → ascii_bytes (j + k) (a ++ b).
Proof. intros [? ?] [? ?]. split; [by apply Forall_app|]. rewrite length_app. lia. Qed.

Lemma ascii_take k n bs : ascii_bytes k bs → ascii_bytes k (take n bs).
Proof. intros [? ?]. split; [by apply Forall_take|]. rewrite length_take. lia. Qed.

Lemma ascii_drop k n bs : ascii_bytes k bs → ascii_bytes k (drop n bs).
Proof. intros [? ?]. split; [by apply Forall_drop|]. rewrite length_drop. lia. Qed.

Lemma ascii_str_of k bs : ascii_bytes k bs → text k (str_of bs).
Proof. unfold text. by rewrite bytes_of_str_of. Qed.

Lemma text_app j k a b : text j a → text k b → text (j + k) (a +:+ b).
Proof. unfold text. rewrite bytes_of_app. apply ascii_app. Qed.

Lemma text_string k s : text k s → k ≤ u64_max → is_string s.
Proof. intros [Ha Hl] Hk. split; [by apply ascii_utf8|lia]. Qed.

(** A literal is checked by computation. *)
Definition literal (bs : list byte) : bool := forallb (λ b, bv b <? 128) bs.

Lemma literal_ascii bs : literal bs = true → ascii_bytes (Z.of_nat (length bs)) bs.
Proof.
  unfold literal. rewrite forallb_forall. intros H. split; [|done]. apply Forall_forall.
  intros b Hb. apply Z.ltb_lt, H. by apply list_elem_of_In.
Qed.

Lemma literal_text s : literal (bytes_of s) = true → text (Z.of_nat (length (bytes_of s))) s.
Proof. apply literal_ascii. Qed.

Ltac literal_text :=
  lazymatch goal with
  | |- text ?k ?s =>
      eapply ascii_weaken; [apply (literal_text s); vm_compute; reflexivity|vm_compute; congruence]
  | |- ascii_bytes ?k ?s =>
      eapply ascii_weaken; [apply (literal_ascii s); vm_compute; reflexivity|vm_compute; congruence]
  end.

(** UTF-8 text after ASCII text. *)
Lemma utf8_after_ascii a b :
  Forall (λ c, bv c < 128) a → utf8_valid b = true → utf8_valid (a ++ b) = true.
Proof.
  induction 1 as [|c a Hc _ IH]; intros Hb; [done|]. simpl. rewrite (proj2 (Z.ltb_lt _ _)) by done.
  by apply IH.
Qed.

Lemma string_after_text k a b :
  text k a → utf8_valid (bytes_of b) = true → k + Z.of_nat (length (bytes_of b)) ≤ u64_max →
  is_string (a +:+ b).
Proof.
  intros [Ha Hl] Hb Hk. unfold is_string. rewrite bytes_of_app, length_app.
  split; [by apply utf8_after_ascii|lia].
Qed.

(** ** Numbers in text *)

Lemma digit_ascii n : bv (dec_digit (n mod 10)) < 128.
Proof.
  pose proof (Z.mod_pos_bound n 10 ltac:(lia)). rewrite bv_dec_digit by lia. lia.
Qed.

Lemma dec_digits_ascii fuel : ∀ n acc k,
  ascii_bytes k acc → ascii_bytes (Z.of_nat fuel + k) (dec_digits fuel n acc).
Proof.
  induction fuel as [|f IH]; intros n acc k Hacc; [done|]. cbn [dec_digits].
  assert (ascii_bytes (1 + k) (dec_digit (n mod 10) :: acc)) as H.
  { destruct Hacc. split; [|cbn [length]; lia]. constructor; [apply digit_ascii|done]. }
  destruct (n <? 10); [eapply ascii_weaken; [exact H|lia]|].
  eapply ascii_weaken; [by apply IH|lia].
Qed.

Lemma display_bytes_ascii n : ascii_bytes 20 (display_bytes n).
Proof. apply (dec_digits_ascii 20 n [] 0). by split. Qed.

Lemma display_uint_text n : text 20 (display_uint n).
Proof. apply ascii_str_of, display_bytes_ascii. Qed.

Lemma zeros_ascii k n : n ≤ k → 0 ≤ k → ascii_bytes k (zeros n).
Proof.
  intros. unfold zeros. split; [|rewrite length_replicate; lia].
  apply Forall_replicate. by vm_compute.
Qed.

(** The search for the shortest decimal moves down from its first exponent
    by at most its fuel. *)
Lemma shortest_dec_exp fuel : ∀ v lo hi incl k d e,
  shortest_dec fuel v lo hi incl k = (d, e) → k - Z.of_nat fuel ≤ e ≤ k.
Proof.
  induction fuel as [|f IH]; intros v lo hi incl k d e H; cbn [shortest_dec] in H.
  { injection H as _ <-. lia. }
  repeat match type of H with
  | (if ?b then _ else _) = _ => destruct b; [injection H as _ <-; lia|]
  end.
  apply IH in H. lia.
Qed.

Lemma f32_debug_text b : text 200 (f32_debug b).
Proof.
  unfold f32_debug.
  assert (ascii_bytes 1 (if f32_sign b then bytes_of "-" else [])) as Hs
    by (destruct (f32_sign b); literal_text).
  destruct (f32_is_nan b); [literal_text|].
  destruct (negb (f32_is_finite b)).
  { apply ascii_str_of, (ascii_app 1 199); [done|]. literal_text. }
  destruct (f32_mag b =? 0).
  { apply ascii_str_of, (ascii_app 1 199); [done|]. literal_text. }
  destruct (f32_interval b) as [[[v lo] hi] incl].
  destruct (shortest_dec 100 v lo hi incl 39) as [d k] eqn:Hd. apply shortest_dec_exp in Hd.
  pose proof (display_bytes_ascii d) as Hb. pose proof Hb as [_ Hl].
  change (Z.of_nat 100) with 100 in Hd.
  destruct (_ || _); apply ascii_str_of, (ascii_app 1 199); try done.
  - unfold f32_exp_str. apply (ascii_app 20 179); [by apply ascii_take|].
    apply (ascii_app 21 158).
    + case_bool_decide; [by split|]. apply (ascii_app 1 20); [literal_text|by apply ascii_drop].
    + destruct (_ <? 0); (apply (ascii_app 2 156); [literal_text|]);
        (eapply ascii_weaken; [apply display_bytes_ascii|lia]).
  - unfold f32_dec_str. destruct (Z.leb_spec (Z.of_nat (length (display_bytes d)) + k) 0).
    + apply (ascii_app 2 197); [literal_text|].
      apply (ascii_app 177 20); [|done]. apply zeros_ascii; lia.
    + destruct (_ <? _).
      * apply (ascii_app 20 179); [by apply ascii_take|].
        apply (ascii_app 1 178); [literal_text|].
        eapply ascii_weaken; [by apply ascii_drop|lia].
      * apply (ascii_app 20 179); [done|]. apply (ascii_app 177 2); [|literal_text].
        apply zeros_ascii; lia.
Qed.

(** ** The texts of the request path *)

Ltac text_solve :=
  eapply text_weaken;
  [ repeat lazymatch goal with
    | |- text _ (_ +:+ _) => apply text_app
    | |- text _ (f32_debug _) => apply f32_debug_text
    | |- text _ (display_uint _) => apply display_uint_text
    | |- text _ _ => apply literal_text; vm_compute; reflexivity
    end
  | vm_compute; congruence ].

Lemma deny_reason_debug_text r : text 500 (deny_reason_debug r).
Proof. destruct r; simpl; text_solve. Qed.

Lemma name_text v allow_any : validate_name v allow_any = Ok tt → text 64 v.
Proof.
  intros (_ & Hl & Hc & _)%validate_name_spec. split.
  - apply Forall_forall. intros b Hb. rewrite forallb_forall in Hc.
    specialize (Hc b (proj1 (list_elem_of_In _ _) Hb)). apply name_char_plain in Hc.
    unfold plain in Hc. lia.
  - rewrite length_bytes_of. lia.
Qed.

Lemma nonce_reason_text e : text 30 (nonce_reason e).
Proof. destruct e; simpl; literal_text. Qed.

Lemma attestation_reason_text e : text 30 (attestation_reason e).
Proof. destruct e; simpl; literal_text. Qed.

(** Hexadecimal text. *)
Lemma encode_hex_text bs : text (2 * Z.of_nat (length bs)) (encode_hex bs).
Proof.
  unfold encode_hex. apply ascii_str_of. induction bs as [|b bs IH]; [by split|].
  rewrite fmap_cons, concat_cons. eapply ascii_weaken; [apply (ascii_app 2), IH|simpl; lia].
  destruct (shiftr_land b) as [-> ->], (nibbles b) as [Hd Hm]. split; [|done].
  repeat constructor;
    [pose proof (hex_digit_lower _ Hd) as H|pose proof (hex_digit_lower _ Hm) as H];
    unfold in_range in H; lia.
Qed.

(** What the request path assumes of the texts it is given: the names of
    methods and adapters were validated, and the text of a wrapped error of
    another crate is UTF-8 of less than four gigabytes. *)
Definition inner_typed (inner : AdapterError → string) : Prop :=
  ∀ e, utf8_valid (bytes_of (inner e)) = true
       ∧ Z.of_nat (length (bytes_of (inner e))) ≤ u32_max.

Definition named_in (e : AdapterError) : option string :=
  match e with
  | MethodNotFound n | AdapterDown n | AdapterBusy n => Some n
  | _ => None
  end.

Lemma adapter_error_string inner e :
  inner_typed inner → from_option (text 64) True (named_in e) →
  is_string (adapter_error_display inner e).
Proof.
  intros Hi Hn. destruct (Hi e) as [Hu Hl].
  assert (∀ k a, text k a → k ≤ 100 → is_string (a +:+ inner e)) as Hwrap.
  { intros k a Ha Hk. eapply string_after_text; [done|done|]. unfold u32_max, u64_max in *. lia. }
  assert (∀ k a n, text k a → k ≤ 100 → text 64 n → is_string (a +:+ n)) as Hname.
  { intros k a n Ha Hk Ht. eapply text_string; [by apply text_app|]. unfold u64_max. lia. }
  destruct e; simpl in *;
    first [ eapply Hwrap; [apply literal_text; vm_compute; reflexivity|vm_compute; congruence]
          | eapply Hname; [apply literal_text; vm_compute; reflexivity|vm_compute; congruence|done]
          | apply (text_string 200); [text_solve|vm_compute; congruence] ].
Qed.

(** ** Entries *)

Lemma result_fields_wf r :
  wf_result r →
  let '(confidence, evidence, prefix) := result_fields r in
  is_u32 confidence ∧ is_string evidence ∧ is_string prefix.
Proof.
  intros (_ & _ & Hc & _ & _ & Hn & He). simpl. split; [done|].
  split; (eapply text_string; [apply encode_hex_text|]); rewrite ?length_take, ?Hn, ?He;
    vm_compute; congruence.
Qed.

Lemma deny_wf now caller uid method reason adapter id res :
  is_u32 caller → is_u32 uid → is_string method → is_string reason → is_opt_string adapter →
  is_opt_string id → from_option wf_result True res →
  wf_entry (deny now caller uid method reason adapter id res).
Proof.
  intros Hc Hu Hm Hr Ha Hid Hres. unfold deny.
  assert (let '(confidence, evidence, prefix) :=
    default (f32_zero, EmptyString, EmptyString) (result_fields <$> res) in
    is_u32 confidence ∧ is_string evidence ∧ is_string prefix) as Hf.
  { destruct res as [r|]; [by apply result_fields_wf|]. simpl. by vm_compute. }
  destruct (default _ _) as [[confidence evidence] prefix]. destruct Hf as (? & ? & ?).
  split; simpl; try done. apply unix_ms_u64.
Qed.

Lemma from_decision_wf now context decision caller adapter id :
  is_u32 caller → is_u32 (ctx_uid context) → is_string (ctx_method context) →
  is_opt_string adapter → is_opt_string id → wf_result (ctx_result context) →
  wf_entry (from_decision now context decision caller adapter id).
Proof.
  intros Hc Hu Hm Ha Hid Hres. pose proof (result_fields_wf _ Hres) as Hf.
  unfold from_decision. simpl in Hf. destruct Hf as (? & ? & ?).
  destruct decision as [|reason]; split; simpl; try done; try apply unix_ms_u64.
  apply (text_string 500); [apply deny_reason_debug_text|by vm_compute].
Qed.

(** ** Requests *)

(** Every client of the registry and its methods have validated names. *)
Definition registry_typed (reg : AdapterRegistry) : Prop :=
  map_Forall (λ m cl, text 64 m ∧ text 64 (cl_name cl)) (rg_clients reg).

Definition resolved_typed (r : ResolvedAdapter) : Prop :=
  text 64 (ra_adapter_name r) ∧ text 64 (ra_method r) ∧ text 64 (cl_name (ra_client r))
  ∧ is_u64 (ra_timeout_ms r).

Lemma resolve_typed reg health method r :
  registry_typed reg → resolve reg health method = Ok r → resolved_typed r.
Proof.
  intros Hreg. unfold resolve. intros H. peel H as [[m cl]|] E. injection H as <-.
  assert (rg_clients reg !! m = Some cl) as Hcl.
  { unfold resolve_client in E. case_bool_decide; cycle 1.
    { destruct (rg_clients reg !! method) eqn:Hm; simplify_eq/=. done. }
    destruct (available_methods reg health) as [|name ?]; [done|].
    destruct (rg_clients reg !! name) eqn:Hm; simplify_eq/=. done. }
  destruct (Hreg _ _ Hcl) as [? ?]. split_and!; try done.
  unfold is_u64, u64_max. simpl.
  pose proof (Z.mod_pos_bound (cl_timeout cl / 1000000) 18446744073709551616 ltac:(lia)). lia.
Qed.

Lemma resolve_Err reg health method e :
  resolve reg health method = Err e → e = MethodNotFound method.
Proof.
  unfold resolve, resolve_client. case_bool_decide; simpl.
  - destruct (available_methods reg health) as [|name ?]; simpl; [congruence|].
    destruct (rg_clients reg !! name); simpl; congruence.
  - destruct (rg_clients reg !! method); simpl; congruence.
Qed.

Lemma built_registry_typed configs reg :
  Forall wf_config configs → build_registry configs = Ok reg → registry_typed reg.
Proof.
  intros Hwf Hb m cl Hm. apply (build_registry_lookup configs reg m cl Hb) in Hm
    as (c & [Hin Hmeth] & ->). rewrite Forall_forall in Hwf.
  destruct (Hwf c Hin) as (Hname & _ & _ & _ & Hms & _). rewrite Forall_forall in Hms.
  split; eapply name_text; [by apply Hms|done].
Qed.
