(* ===== verification/Startup.v ===== *)
(** * Start-up and reload: the rest of [crates/ola-core/src/infrastructure/ipc/unix_socket.rs]

    [run_server] up to its accept loop, [ReloadableState] and [reload_state].
    The file system, the user database and the kernel are inputs; the TOML
    parsers are parameters. *)

From S2P Require Import Prelude RustStd Types SecureFs Policy Nonce RateLimit Allowlist.
From S2P Require Import Attestation AuditEntry AuditLog Health Json Client AdapterConfig Registry Config Metrics.
From S2P Require Import AuditChain Privilege Systemd Socket Server.
Open Scope Z_scope.

(** The signals the daemon listens to. *)
Inductive Signal : Type := SigInt | SigTerm | SigHup.

#[global] Instance Signal_eq_dec : EqDecision Signal.
Proof. solve_decision. Defined.

Inductive StartError : Type :=
| StAttestationDisabled
| StUserNotFound (name : string)
| StRegistry (e : RegistryError)
| StAllowlist (e : AllowlistError)
| StPolicy (e : PolicyError)
| StKeys (e : KeyError)
| StAudit (e : AuditError)
| StListener (e : SocketError)
| StSignal (s : Signal).

Definition validate_attestation_mode (config : Config) : result unit StartError :=
  if is_prod_mode config && negb (require_attestation config)
  then Err StAttestationDisabled else Ok tt.

(** [root] is [geteuid().is_root()]. *)
Definition secure_owner_policy (env : Environment) (get_user : string → option User)
    (root : bool) (config : Config) : result OwnerPolicy StartError :=
  if root || is_prod_mode config then
    let service_user := service_user_name env in
    match get_user service_user with
    | None =>
        if is_prod_mode config || root then Err (StUserNotFound service_user)
        else Ok RootOrCurrent
    | Some user => Ok (RootOrUid (us_uid user))
    end
  else Ok RootOrCurrent.

(** What start-up reads from outside. *)
Record StartEnv := mk_start_env {
  se_env : string → EnvVar;
  se_get_user : string → option User;
  se_fs : Fs;
  se_adapters : bool * option (list (option DirEntry));   (* adapters_dir *)
  se_keys : bool * option (list (option DirEntry));       (* adapter_keys_dir *)
  se_audit_dir : bool;
  se_listen : ListenIo;
  se_arch : bool;
  se_notify : bool * SendTo;              (* [notify_ready]: its socket, its [sendto] *)
  se_watchdog_socket : bool;              (* the socket of [spawn_watchdog] *)
  se_signals : Signal → bool              (* the handler can be installed *)
}.

Section Startup.
Context (toml_policy : string → option (list RawRule)).
Context (toml_adapter : string → option AdapterConfig).
Context {Proc : Type} `{K : Kernel Proc} `{C : Crypto} `{SD : AuditSerde}.

(** [ReloadableState::load]; in development mode the outcome of loading the
    allowlist is dropped, what it left in the set is not. *)
Definition load (fs : Fs) (me : Z) (config : Config) (owner : OwnerPolicy)
  : result ReloadableState StartError :=
  let '(r, allowlist) :=
    load_from_file_with_options fs me allowlist_new (allowlist_path config)
      (is_prod_mode config) owner in
  let? _ := (if is_prod_mode config then map_err StAllowlist r else Ok tt) in
  let? policy_engine :=
    map_err StPolicy (from_config_with_owner toml_policy fs me (policy_path config)
                        (max_result_age_secs config) owner) in
  Ok (mk_reloadable allowlist policy_engine).

(** [ReloadableState::reload] *)
Definition reload (fs : Fs) (me : Z) (config : Config) (owner : OwnerPolicy)
  : result ReloadableState StartError :=
  let '(r, allowlist) :=
    load_from_file_with_options fs me allowlist_new (allowlist_path config)
      (is_prod_mode config) owner in
  let? _ := map_err StAllowlist r in
  let? policy_engine :=
    map_err StPolicy (from_config_with_owner toml_policy fs me (policy_path config)
                        (max_result_age_secs config) owner) in
  Ok (mk_reloadable allowlist policy_engine).

(** The daemon when it starts to accept. *)
Record Running := mk_running {
  rn_server : Server;
  rn_reloadable : ReloadableState;
  rn_shared : Shared;
  rn_listener : Listener;
  rn_proc : Proc
}.

(** What start-up does, step by step: an event for every step that succeeded. *)
Inductive StartEvent : Type :=
| EvRegistry (registry : AdapterRegistry)
| EvReloadable (reloadable : ReloadableState)
| EvKeys (attester : AttestationVerifier)
| EvAuditOpen (logger : AuditLogger)
| EvListening (listener : Listener) (p : Proc)   (* and the process that has it *)
| EvNotified (d : Datagram)
| EvWatchdog (interval : Z)
| EvSignalHandler (s : Signal).

(** A start that has got somewhere: its events so far, and its outcome. *)
Definition Traced (A : Type) : Type := (list StartEvent * result A StartError)%type.

Definition tret {A} (a : A) : Traced A := ([], Ok a).
Definition tbind {A B} (m : Traced A) (f : A → Traced B) : Traced B :=
  match m with
  | (events, Ok a) => let '(events', r) := f a in (events ++ events', r)
  | (events, Err e) => (events, Err e)
  end.

(** A fallible step, and one whose success is an event. *)
Definition attempt {A} (r : result A StartError) : Traced A := ([], r).
Definition perform {A} (ev : A → StartEvent) (r : result A StartError) : Traced A :=
  match r with Ok a => ([ev a], Ok a) | Err e => ([], Err e) end.
Definition emit (events : list StartEvent) : Traced unit := (events, Ok tt).

Local Notation "'let!' x ':=' m 'in' k" := (tbind m (λ x, k))
  (at level 10, x name, m at level 200, k at level 200,
   format "'[' 'let!'  x  ':='  m  'in'  ']' '/' k").

Definition install_handler (se : StartEnv) (sig : Signal) : Traced unit :=
  perform (λ _, EvSignalHandler sig)
    (if se_signals se sig then Ok tt else Err (StSignal sig)).

(** [run_server] up to its loop. *)
Definition run_server_start (config : Config) (se : StartEnv) (p : Proc) : Traced Running :=
  let me := c_ruid (creds p) in
  let fs := se_fs se in
  let! _ := attempt (validate_attestation_mode config) in
  let! owner := attempt (secure_owner_policy (se_env se) (se_get_user se)
                           (c_euid (creds p) =? 0) config) in
  let! registry := perform EvRegistry (map_err StRegistry
      (Registry.load_from_dir_with_owner toml_adapter fs me (adapters_dir config)
         (se_adapters se).1 (se_adapters se).2 (is_prod_mode config) owner)) in
  let! reloadable := perform EvReloadable (load fs me config owner) in
  let! attester := perform EvKeys (map_err StKeys
      (Attestation.load_from_dir_with_owner fs me (adapter_keys_dir config)
         (se_keys se).1 (se_keys se).2 owner)) in
  let! _ := attempt (if require_attestation config
             then map_err StKeys (require_keys_for_adapters attester (rg_adapter_names registry))
             else Ok tt) in
  let! logger := perform EvAuditOpen (map_err StAudit
      (AuditLog.open fs me (se_audit_dir se) (audit_log_path config) owner)) in
  let! ready := perform (λ lp, EvListening lp.1 lp.2) (map_err StListener
      (setup_listener (se_env se) (se_get_user se) (se_arch se) config (se_listen se) p)) in
  let! _ := emit (EvNotified <$> notify_ready (se_env se) (se_notify se).1 (se_notify se).2) in
  let! _ := emit (match watchdog_spawned (se_env se) (se_watchdog_socket se) with
                  | Some (interval, _) => [EvWatchdog interval]
                  | None => []
                  end) in
  let! _ := install_handler se SigInt in
  let! _ := install_handler se SigTerm in
  let! _ := install_handler se SigHup in
  tret (mk_running (mk_server registry attester config owner (c_ruid (creds ready.2)))
          reloadable
          (mk_shared nonce_store_new (lg_state logger) rate_limiter_new metrics_zero)
          ready.1 ready.2).

(** What it did, and the daemon it leaves. *)
Definition start_trace (config : Config) (se : StartEnv) (p : Proc) : list StartEvent :=
  (run_server_start config se p).1.
Definition start_server (config : Config) (se : StartEnv) (p : Proc)
  : result Running StartError := (run_server_start config se p).2.

(** [reload_state]: the new trust material and the state that follows. *)
Definition logger_of (sv : Server) (sh : Shared) : AuditLogger :=
  mk_logger (audit_log_path (sv_config sv)) (sv_owner_policy sv) (sh_audit sh).

Definition reload_state (fs : Fs) (sv : Server) (rl : ReloadableState) (sh : Shared)
  : ReloadableState * Shared :=
  let rl := match reload fs (sv_getuid sv) (sv_config sv) (sv_owner_policy sv) with
            | Ok new_state => new_state
            | Err _ => rl
            end in
  let '(r, logger) := AuditLog.reopen fs (sv_getuid sv) (logger_of sv sh) in
  let sh := with_audit sh (lg_state logger) in
  match r with
  | Ok _ => (rl, sh)
  | Err _ => (rl, with_metrics sh inc_failures)
  end.
End Startup.

(** ** Specification *)

(** The allowlist is what its file, read under the hardened specification,
    lists; in strict mode the file has no malformed line. *)
Definition trusted_allowlist (fs : Fs) (me : Z) (config : Config) (owner : OwnerPolicy)
    (a : Allowlist) : Prop :=
  ∃ content,
    read_secure_to_string fs me (allowlist_path config) (allowlist_spec owner) = Ok content
    ∧ (is_prod_mode config = true → first_malformed (lines content) = None)
    ∧ ∀ uid, uid ∈ allowed_uids a ↔ listed (lines content) uid.

(** The policy is what its file, read likewise, states. *)
Definition trusted_policy (toml_policy : string → option (list RawRule)) (fs : Fs) (me : Z)
    (config : Config) (owner : OwnerPolicy) (e : PolicyEngine) : Prop :=
  wf_policy (pe_rules e) ∧ pe_max_result_age_secs e = max_result_age_secs config
  ∧ ∃ content raw cfg,
      read_policy_file fs me (policy_path config) owner = Ok content
      ∧ toml_policy content = Some raw ∧ load_rules raw = Ok cfg ∧ pe_rules e = rules cfg.

(** ** Lemmas *)

Lemma load_allowlist_Ok fs me a path strict owner a' :
  load_from_file_with_options fs me a path strict owner = (Ok tt, a') →
  ∃ content, read_secure_to_string fs me path (allowlist_spec owner) = Ok content
    ∧ (strict = true → first_malformed (lines content) = None)
    ∧ ∀ uid, uid ∈ allowed_uids a' ↔ listed (lines content) uid.
Proof.
  unfold load_from_file_with_options. intros H.
  destruct (read_secure_to_string fs me path (allowlist_spec owner)) as [content|]; [|done].
  exists content. split; [done|].
  assert (∀ uid, uid ∈ (load_lines false 0 (lines content) ∅).2 ↔ listed (lines content) uid)
    as Hlax.
  { intros uid. destruct (load_lines_lax 0 (lines content) ∅) as [_ ->]. set_solver. }
  destruct strict.
  - rewrite load_lines_strict in H. destruct (first_malformed (lines content)); [done|].
    split; [done|]. destruct (load_lines false 0 _ ∅). by simplify_eq.
  - split; [done|]. destruct (load_lines false 0 _ ∅). by simplify_eq.
Qed.

Lemma from_config_Ok toml fs me config owner e :
  from_config_with_owner toml fs me (policy_path config) (max_result_age_secs config) owner
    = Ok e → trusted_policy toml fs me config owner e.
Proof.
  unfold from_config_with_owner. intros H. peel H as [cfg|] Hl. simplify_eq.
  unfold load_with_owner in Hl. peel Hl as [content|] Hr. peel Hl as [raw|] Ht.
  split; [by eapply load_rules_wf|]. split; [done|]. eauto 10.
Qed.

Lemma reload_Ok toml fs me config owner rl :
  reload toml fs me config owner = Ok rl →
  trusted_allowlist fs me config owner (rl_allowlist rl)
  ∧ trusted_policy toml fs me config owner (rl_policy_engine rl).
Proof.
  unfold reload. intros H.
  destruct (load_from_file_with_options _ _ _ _ _ _) as [[[]|] a] eqn:Ha; simpl in H; [|done].
  destruct (from_config_with_owner _ _ _ _ _ _) as [e|] eqn:He; simpl in H; [|done].
  injection H as <-. split; [by eapply load_allowlist_Ok|by apply from_config_Ok].
Qed.

Lemma load_Ok toml fs me config owner rl :
  load toml fs me config owner = Ok rl →
  (is_prod_mode config = true → trusted_allowlist fs me config owner (rl_allowlist rl))
  ∧ trusted_policy toml fs me config owner (rl_policy_engine rl).
Proof.
  unfold load. intros H.
  destruct (load_from_file_with_options _ _ _ _ _ _) as [r a] eqn:Ha.
  destruct (if is_prod_mode config then _ else _) as [[]|] eqn:Hr; simpl in H; [|done].
  destruct (from_config_with_owner _ _ _ _ _ _) as [e|] eqn:He; simpl in H; [|done].
  injection H as <-. split; [|by apply from_config_Ok]. intros Hp. rewrite Hp in *.
  destruct r as [[]|]; [|done]. unfold trusted_allowlist. rewrite Hp.
  by eapply load_allowlist_Ok.
Qed.

Lemma registry_client_name configs reg m cl :
  build_registry configs = Ok reg → rg_clients reg !! m = Some cl →
  cl_name cl ∈ rg_adapter_names reg.
Proof.
  unfold build_registry. intros H Hm.
  destruct (add_configs configs ∅ ∅) as [[names clients]|e] eqn:Ha; [|done]. simplify_eq/=.
  apply add_configs_lookup in Ha as [Hn Hc]. apply Hc in Hm as [Hm|(c & [Hin _] & ->)].
  { by rewrite lookup_empty in Hm. }
  destruct (sort_strings_spec (elements names)) as [_ ->]. rewrite elem_of_elements, Hn. right.
  apply list_elem_of_fmap. eauto.
Qed.

Lemma require_keys_Ok v names name :
  require_keys_for_adapters v names = Ok tt → name ∈ names → is_Some (adapter_keys v !! name).
Proof.
  unfold require_keys_for_adapters. intros H Hin. case_bool_decide as Hm; [done|].
  destruct (decide (is_Some (adapter_keys v !! name))) as [|Hno]; [done|]. exfalso.
  apply (not_elem_of_nil name). rewrite <-Hm. apply list_elem_of_In, filter_In.
  split; [by apply list_elem_of_In|]. by rewrite bool_decide_eq_false_2.
Qed.

Lemma loaded_key_length fs me dir is_dir listing owner v name key :
  Attestation.load_from_dir_with_owner fs me dir is_dir listing owner = Ok v →
  adapter_keys v !! name = Some key → length key = 32%nat.
Proof.
  unfold Attestation.load_from_dir_with_owner, ok_or. intros H Hk.
  destruct is_dir; simpl in H; [|by simplify_eq].
  destruct listing as [entries|]; simpl in H; [|done].
  destruct (load_keys _ _ _ _ _ _) as [keys|] eqn:Hl; [|done]. simplify_eq/=.
  eapply load_keys_spec in Hl. apply Hl in Hk as [(e & _ & _ & Hf)|[Hk _]];
    [|by rewrite lookup_empty in Hk].
  by apply read_secure_exact_Ok in Hf as [? _].
Qed.

Lemma secure_owner_policy_Ok env get_user root config owner :
  secure_owner_policy env get_user root config = Ok owner →
  if root || is_prod_mode config
  then ∃ u, get_user (service_user_name env) = Some u ∧ owner = RootOrUid (us_uid u)
  else owner = RootOrCurrent.
Proof.
  unfold secure_owner_policy. destruct root, (is_prod_mode config); simpl;
    destruct (get_user (service_user_name env)); intros; simplify_eq; eauto.
Qed.

(** The events of the loading and of the listener. *)
Definition before_ready {Proc} (ev : StartEvent (Proc := Proc)) : Prop :=
  match ev with
  | EvNotified _ | EvWatchdog _ | EvSignalHandler _ => False
  | _ => True
  end.

Lemma tbind_Ok {Proc A B} ev (a : A) (f : A → Traced (Proc := Proc) B) tr r :
  tbind (ev, Ok a) f = (tr, r) → ∃ tr', f a = (tr', r) ∧ tr = ev ++ tr'.
Proof. simpl. destruct (f a) as [ev' r']. intros [= <- <-]. eauto. Qed.

(** [tstep H as pat E]: [H] runs a traced start whose next step is fallible;
    name the value of that step by [pat] and what it was the value of by
    [E], and close the case in which it fails. *)
Tactic Notation "tstep" hyp(H) "as" simple_intropattern(pat) ident(E) :=
  match type of H with
  | tbind (_ ?x) _ = _ =>
      match x with
      | map_err _ ?y => destruct y as [pat|] eqn:E
      | _ => destruct x as [pat|] eqn:E
      end;
      cbn [attempt perform map_err] in H;
      [ let tr := fresh "tr" in apply tbind_Ok in H as (tr & H & ->)
      | injection H as <- <-; left; split; [by eexists|by repeat constructor] ]
  end.

(** The calls of start-up up to the listener, all of which succeeded. *)
Section Prepared.
Context (toml_policy : string → option (list RawRule)).
Context (toml_adapter : string → option AdapterConfig).
Context {Proc : Type} {K : Kernel Proc} {C : Crypto} {SD : AuditSerde}.

Record prepared (config : Config) (se : StartEnv) (p : Proc) (owner : OwnerPolicy)
    (registry : AdapterRegistry) (reloadable : ReloadableState) (attester : AttestationVerifier)
    (logger : AuditLogger) (listener : Listener) (p' : Proc) : Prop := {
  pr_mode : validate_attestation_mode config = Ok tt;
  pr_owner :
    secure_owner_policy (se_env se) (se_get_user se) (c_euid (creds p) =? 0) config = Ok owner;
  pr_registry :
    Registry.load_from_dir_with_owner toml_adapter (se_fs se) (c_ruid (creds p))
      (adapters_dir config) (se_adapters se).1 (se_adapters se).2 (is_prod_mode config) owner
    = Ok registry;
  pr_load : load toml_policy (se_fs se) (c_ruid (creds p)) config owner = Ok reloadable;
  pr_keys :
    Attestation.load_from_dir_with_owner (se_fs se) (c_ruid (creds p))
      (adapter_keys_dir config) (se_keys se).1 (se_keys se).2 owner = Ok attester;
  pr_required :
    require_attestation config = true →
    require_keys_for_adapters attester (rg_adapter_names registry) = Ok tt;
  pr_log :
    AuditLog.open (se_fs se) (c_ruid (creds p)) (se_audit_dir se) (audit_log_path config) owner
    = Ok logger;
  pr_listener :
    setup_listener (se_env se) (se_get_user se) (se_arch se) config (se_listen se) p
    = Ok (listener, p')
}.

(** The rest of start-up: the notification, the watchdog, the handlers. *)
Definition ready_events (se : StartEnv) : list (StartEvent (Proc := Proc)) :=
  EvNotified <$> notify_ready (se_env se) (se_notify se).1 (se_notify se).2.

Definition late_events (se : StartEnv) : list (StartEvent (Proc := Proc)) :=
  match watchdog_spawned (se_env se) (se_watchdog_socket se) with
  | Some (interval, _) => [EvWatchdog interval]
  | None => []
  end
  ++ (if se_signals se SigInt
      then EvSignalHandler SigInt
           :: if se_signals se SigTerm
              then EvSignalHandler SigTerm
                   :: if se_signals se SigHup then [EvSignalHandler SigHup] else []
              else []
      else []).

Lemma handlers_cases se (rn : Running (Proc := Proc)) tr r :
  tbind (Proc := Proc) (install_handler se SigInt) (λ _, tbind (install_handler se SigTerm) (λ _,
    tbind (install_handler se SigHup) (λ _, tret rn))) = (tr, r) →
  tr = (if se_signals se SigInt
      then EvSignalHandler SigInt
           :: if se_signals se SigTerm
              then EvSignalHandler SigTerm
                   :: if se_signals se SigHup then [EvSignalHandler SigHup] else []
              else []
      else [])
  ∧ ((∃ sig, se_signals se sig = false ∧ r = Err (StSignal sig)) ∨ r = Ok rn).
Proof.
  unfold install_handler, perform. intros H.
  destruct (se_signals se SigInt) eqn:E1; simpl in H; [|injection H as <- <-; eauto].
  destruct (se_signals se SigTerm) eqn:E2; simpl in H; [|injection H as <- <-; eauto].
  destruct (se_signals se SigHup) eqn:E3; simpl in H; injection H as <- <-; eauto.
Qed.

(** A start either fails before it notifies anybody, or it has made all the
    calls of [prepared]; then only a handler can fail. *)
Lemma run_server_start_cases config se (p : Proc) tr r :
  run_server_start toml_policy toml_adapter config se p = (tr, r) →
  (∃ e, r = Err e) ∧ Forall before_ready tr
  ∨ ∃ owner registry reloadable attester logger listener p',
      prepared config se p owner registry reloadable attester logger listener p'
      ∧ tr = [EvRegistry registry; EvReloadable reloadable; EvKeys attester;
              EvAuditOpen logger; EvListening listener p'] ++ ready_events se ++ late_events se
      ∧ ((∃ sig, se_signals se sig = false ∧ r = Err (StSignal sig))
         ∨ r = Ok (mk_running (mk_server registry attester config owner (c_ruid (creds p')))
                     reloadable
                     (mk_shared nonce_store_new (lg_state logger) rate_limiter_new metrics_zero)
                     listener p')).
Proof.
  unfold run_server_start. cbv zeta. intros H.
  tstep H as [] H1. tstep H as owner H2. tstep H as registry H3. tstep H as reloadable H4.
  tstep H as attester H5. tstep H as [] H6. tstep H as logger H7. tstep H as [l p'] H8.
  cbn [tbind emit] in H.
  destruct (tbind (install_handler se SigInt) _) as [tl r'] eqn:Hh. cbn in H.
  apply handlers_cases in Hh as [-> Hr]. injection H as <- <-. right.
  exists owner, registry, reloadable, attester, logger, l, p'.
  split; [constructor; try done|split; [done|exact Hr]].
  intros E. rewrite E in H6. by destruct (require_keys_for_adapters _ _) as [[]|].
Qed.

Lemma start_server_inv config se (p : Proc) rn :
  start_server toml_policy toml_adapter config se p = Ok rn →
  ∃ owner registry reloadable attester logger listener p',
    prepared config se p owner registry reloadable attester logger listener p'
    ∧ rn = mk_running (mk_server registry attester config owner (c_ruid (creds p'))) reloadable
             (mk_shared nonce_store_new (lg_state logger) rate_limiter_new metrics_zero)
             listener p'.
Proof.
  unfold start_server. intros H.
  destruct (run_server_start _ _ _ _ _) as [tr r] eqn:E. simpl in H. subst r.
  apply run_server_start_cases in E
    as [[[? H] _] | (ow & rg & rl & at' & lg & l & p' & Hp & _ & [(? & _ & H) | H])]; try done.
  injection H as ->. eauto 10.
Qed.
End Prepared.

Lemma setup_listener_drops {Proc} {K : Kernel Proc} env get_user arch config io (p : Proc) l p' :
  setup_listener env get_user arch config io p = Ok (l, p') →
  drop_privileges_completely env get_user arch p = Ok p'.
Proof.
  unfold setup_listener, map_err. intros H. case_match; [|done].
  by destruct (drop_privileges_completely _ _ _ _); simplify_eq.
Qed.

Lemma open_recovered {C : Crypto} {SD : AuditSerde} fs me dir_ok path owner lg :
  AuditLog.open fs me dir_ok path owner = Ok lg →
  poisoned (lg_state lg) = false
  ∧ last_entry_hash (au_file (guarded (lg_state lg))) true
    = Ok (au_prev_hash (guarded (lg_state lg))).
Proof.
  unfold AuditLog.open. intros H. destruct dir_ok; simpl in H; [|done].
  destruct (open_secure_append _ _ _ _ _) as [file|]; simpl in H; [|done].
  destruct (of_read_ok file); [|done].
  destruct (last_entry_hash (of_data file) true) as [h|] eqn:E; simplify_eq. done.
Qed.

(** The keys of the adapters of a production daemon. *)
Lemma production_key toml_policy toml_adapter {Proc} {K : Kernel Proc} {C : Crypto}
    {SD : AuditSerde} config se (p : Proc) rn :
  start_server toml_policy toml_adapter config se p = Ok rn → is_prod_mode config = true →
  sv_config (rn_server rn) = config ∧ require_attestation config = true
  ∧ ∀ name key, adapter_keys (sv_attester (rn_server rn)) !! name = Some key →
      length key = 32%nat.
Proof.
  intros Hst Hprod. apply start_server_inv in Hst as
    (owner & reg & rl & at' & lg & l & p' & [H1 _ _ _ H5 _ _ _] & ->). simpl.
  split; [done|]. split; [|intros name key; by eapply loaded_key_length].
  unfold validate_attestation_mode in H1. rewrite Hprod in H1.
  by destruct (require_attestation config).
Qed.

(** What a production daemon starts under. *)
Lemma started_config toml_policy toml_adapter {Proc} {K : Kernel Proc} {C : Crypto}
    {SD : AuditSerde} config se (p : Proc) rn :
  start_server toml_policy toml_adapter config se p = Ok rn → is_prod_mode config = true →
  let owner := sv_owner_policy (rn_server rn) in
  sv_config (rn_server rn) = config
  ∧ ∃ me, trusted_allowlist (se_fs se) me config owner (rl_allowlist (rn_reloadable rn))
      ∧ trusted_policy toml_policy (se_fs se) me config owner
          (rl_policy_engine (rn_reloadable rn)).
Proof.
  intros Hst Hprod. apply start_server_inv in Hst as
    (owner & reg & rl & at' & lg & l & p' & [_ _ _ H4 _ _ _ _] & ->). simpl.
  apply load_Ok in H4 as [Hal Hpol]. split; [done|]. exists (c_ruid (creds p)). auto.
Qed.

Lemma reload_state_config toml fs sv rl sh rl' sh' :
  reload_state toml fs sv rl sh = (rl', sh') →
  rl' = rl
  ∨ trusted_allowlist fs (sv_getuid sv) (sv_config sv) (sv_owner_policy sv) (rl_allowlist rl')
    ∧ trusted_policy toml fs (sv_getuid sv) (sv_config sv) (sv_owner_policy sv)
        (rl_policy_engine rl').
Proof.
  unfold reload_state. intros H. destruct (AuditLog.reopen _ _ _) as [ro lg].
  destruct (reload _ _ _ _ _) as [new|] eqn:Hr; destruct ro; simplify_eq; auto;
    right; by apply reload_Ok.
Qed.

Lemma reload_state_stores toml fs sv rl sh rl' sh' :
  reload_state toml fs sv rl sh = (rl', sh') →
  sh_nonces sh' = sh_nonces sh ∧ sh_rate sh' = sh_rate sh
  ∧ ACTIVE_CONNECTIONS (sh_metrics sh') = ACTIVE_CONNECTIONS (sh_metrics sh).
Proof.
  unfold reload_state. intros H. destruct (AuditLog.reopen _ _ _) as [[] lg]; by simplify_eq.
Qed.

(** What may follow the notification. *)
Definition after_ready {Proc} (ev : StartEvent (Proc := Proc)) : Prop :=
  match ev with EvWatchdog _ | EvSignalHandler _ => True | _ => False end.

Lemma late_events_kind {Proc} se : Forall (after_ready (Proc := Proc)) (late_events se).
Proof.
  unfold late_events. apply Forall_app.
  split; [destruct (watchdog_spawned _ _) as [[]|]; by repeat constructor|].
  destruct (se_signals se SigInt), (se_signals se SigTerm), (se_signals se SigHup);
    by repeat constructor.
Qed.

Lemma ready_events_shape {Proc} se :
  ready_events (Proc := Proc) se = []
  ∨ ∃ d path, ready_events (Proc := Proc) se = [EvNotified d] ∧ dg_message d = "READY=1"
      ∧ se_env se "NOTIFY_SOCKET" = EnvSet path ∧ notify_addr path = Ok (dg_addr d).
Proof.
  unfold ready_events, notify_ready, notify, notify_with_socket.
  destruct (se_env se "NOTIFY_SOCKET") as [path| |]; [|by left..].
  destruct (se_notify se).1; [|by left].
  destruct (send_notify path "READY=1" (se_notify se).2) as [d|] eqn:Hs; [|by left].
  apply send_notify_Ok in Hs as (_ & addr & Ha & ->). right. eexists _, path. by split_and!.
Qed.

(** Where a trace can be cut at a notification. *)
Lemma ready_split {Proc} se (prefix before after : list (StartEvent (Proc := Proc))) d :
  Forall before_ready prefix →
  prefix ++ ready_events se ++ late_events se = before ++ EvNotified d :: after →
  before = prefix ∧ after = late_events se ∧ ready_events (Proc := Proc) se = [EvNotified d].
Proof.
  assert (∀ l l', late_events (Proc := Proc) se ≠ l ++ EvNotified d :: l') as Hlate.
  { intros l l' E. pose proof (late_events_kind (Proc := Proc) se) as Hk. rewrite E in Hk.
    apply Forall_app in Hk as [_ Hk]. by apply Forall_cons in Hk as [[] _]. }
  intros Hp. revert before. induction Hp as [|a prefix Ha Hp IH]; intros before H; simpl in H.
  - destruct (ready_events_shape (Proc := Proc) se) as [E|(d0 & _ & E & _)]; rewrite E in H |- *;
      [by apply Hlate in H|].
    destruct before as [|b before]; [by injection H as -> ->|].
    injection H as _ H. by apply Hlate in H.
  - destruct before as [|b before]; [by injection H as -> _|]. injection H as -> H.
    by destruct (IH before H) as (-> & -> & ->).
Qed.

(** ** The properties of start-up and reload *)


(** C20: systemd hears "READY=1" only from a daemon that stands, which the
    trace of the start shows.  What precedes a readiness datagram is, in this
    order: the adapters, the allowlist and the policy, and the keys were
    loaded, the audit log was opened, and the listener was set up; the
    process that set it up cannot gain privileges any more and every thread
    of it runs under the system call filter, above the filters there were
    (for a daemon started as root: if its threads had the capabilities to
    change their ids).
    The datagram goes to the address NOTIFY_SOCKET spells.  What follows it is
    the watchdog task and the signal handlers, no second datagram, and the
    start ends with the daemon or with a handler that was not installed.  A
    start that ends with the daemon has sent it if NOTIFY_SOCKET spells an
    address and the socket took the datagram. *)
Theorem ready_after_setup toml_policy toml_adapter {Proc} {K : Kernel Proc} {KL : KernelLaws K}
    {C : Crypto} {SD : AuditSerde} config se (p : Proc) :
  (∀ before d after,
     start_trace toml_policy toml_adapter config se p = before ++ EvNotified d :: after →
     dg_message d = "READY=1"
     ∧ (∃ path, se_env se "NOTIFY_SOCKET" = EnvSet path ∧ notify_addr path = Ok (dg_addr d))
     ∧ (∃ registry reloadable attester logger listener p',
          before = [EvRegistry registry; EvReloadable reloadable; EvKeys attester;
                    EvAuditOpen logger; EvListening listener p']
          ∧ setup_listener (se_env se) (se_get_user se) (se_arch se) config (se_listen se) p
            = Ok (listener, p')
          ∧ (root_is_privileged p →
             Forall (confined (creds p)) (creds p' :: siblings p')
             ∧ (c_euid (creds p) = 0 → ∀ s, c_caps (creds p') s = ∅)))
     ∧ Forall after_ready after
     ∧ match start_server toml_policy toml_adapter config se p with
       | Ok rn => EvListening (rn_listener rn) (rn_proc rn) ∈ before
       | Err e => ∃ sig, e = StSignal sig
       end)
  ∧ (∀ rn path addr, start_server toml_policy toml_adapter config se p = Ok rn →
       se_env se "NOTIFY_SOCKET" = EnvSet path → notify_addr path = Ok addr →
       se_notify se = (true, SendDone) →
       EvNotified (mk_datagram addr "READY=1") ∈ start_trace toml_policy toml_adapter config se p).
Proof.
  unfold start_trace, start_server.
  destruct (run_server_start _ _ _ _ _) as [tr r] eqn:E. cbn [fst snd].
  apply run_server_start_cases in E
    as [[[e ->] Hb] | (ow & rg & rl & at' & lg & l & p' & Hpr & -> & Hr)].
  { split; [|done]. intros before d after ->. apply Forall_app in Hb as [_ Hb].
    by apply Forall_cons in Hb as [[] _]. }
  split.
  - intros before d after Htr.
    apply ready_split in Htr as (-> & -> & Hd); [|by repeat constructor].
    destruct (ready_events_shape (Proc := Proc) se) as [E|(d' & path & E & Hm & Hn & Ha)];
      rewrite Hd in E; [done|]. injection E as <-. split; [done|]. split; [by exists path|].
    split; [|split; [apply late_events_kind|]].
    + exists rg, rl, at', lg, l, p'. split; [done|]. split; [apply Hpr|].
      intros Hp. pose proof (pr_listener _ _ _ _ _ _ _ _ _ _ _ _ Hpr) as H8.
      apply setup_listener_drops, drop_confined in H8 as [Hall Hu]; [|done]. split; [done|].
      intros E0 s. by destruct (Hu E0) as (u & _ & [_ ?]).
    + destruct Hr as [(sig & _ & ->) | ->]; [by eexists|]. simpl. set_solver.
  - intros rn path addr -> Hn Ha Hio. apply elem_of_app. right. apply elem_of_app. left.
    unfold ready_events, notify_ready, notify, notify_with_socket, send_notify.
    rewrite Hio, Hn, Ha. simpl. left.
Qed.

(** C21: a reload is all or nothing.  Either the allowlist and the policy are
    both replaced by what hardened files state (in production, an allowlist
    without malformed lines), or both stay; the audit chain goes on from its
    current hash, also into a rotated file, and into the old one when the
    new one cannot be opened; nonces and rate limits are untouched. *)
Theorem reload_atomic toml_policy fs sv rl sh rl' sh' :
  reload_state toml_policy fs sv rl sh = (rl', sh') →
  (rl' = rl
   ∨ trusted_allowlist fs (sv_getuid sv) (sv_config sv) (sv_owner_policy sv) (rl_allowlist rl')
     ∧ trusted_policy toml_policy fs (sv_getuid sv) (sv_config sv) (sv_owner_policy sv)
         (rl_policy_engine rl'))
  ∧ (∀ new, reload toml_policy fs (sv_getuid sv) (sv_config sv) (sv_owner_policy sv) = Ok new →
       rl' = new)
  ∧ sh_nonces sh' = sh_nonces sh ∧ sh_rate sh' = sh_rate sh
  ∧ poisoned (sh_audit sh') = poisoned (sh_audit sh)
  ∧ au_prev_hash (guarded (sh_audit sh')) = au_prev_hash (guarded (sh_audit sh))
  ∧ (au_file (guarded (sh_audit sh')) = au_file (guarded (sh_audit sh))
     ∨ ∃ file, open_secure_append fs (sv_getuid sv) (audit_log_path (sv_config sv)) 416
                 (sv_owner_policy sv) = Ok file
               ∧ au_file (guarded (sh_audit sh')) = of_data file).
Proof.
  intros H. split; [by eapply reload_state_config|].
  destruct (reload_state_stores _ _ _ _ _ _ _ H) as (Hn & Hr & _).
  unfold reload_state, AuditLog.reopen, logger_of, lock in H. simpl in H. split.
  - intros new E. rewrite E in H. repeat case_match; by simplify_eq.
  - split; [done|]. split; [done|]. destruct (sh_audit sh) as [[] st]; simpl in *.
    { simplify_eq/=. by auto. }
    destruct (open_secure_append _ _ _ _ _) as [file|] eqn:Ho; simplify_eq/=; split_and!; eauto.
Qed.

(** ** A concrete start as root *)

Definition start_file (mode : Z) (data : list byte) : OpenFile :=
  mk_file (Some (mk_stat (S_IFREG + mode) (Z.of_nat (length data)) 0)) data true true.

Definition start_files (path : string) : result OpenFile IoKind :=
  if bool_decide (path = DEFAULT_ALLOWLIST_PATH)
  then Ok (start_file 416 (bytes_of "1000 # alice"))
  else if bool_decide (path = DEFAULT_POLICY_PATH) then Ok (start_file 384 (bytes_of "policy"))
  else if bool_decide (path = "/etc/ola/adapters.d/key.toml")
  then Ok (start_file 420 (bytes_of "adapter"))
  else if bool_decide (path = "/etc/ola/adapter-keys/key.key") then Ok (start_file 384 sample_key)
  else Err IoNotFound.

Definition start_fs : Fs :=
  mk_fs start_files (λ _, Err IoNotFound) (λ _ mode, Ok (start_file mode []))
    (λ _, Err IoNotFound).

Definition start_env : StartEnv :=
  mk_start_env empty_env sample_users start_fs
    (true, Some [Some (mk_entry (bytes_of "key.toml") true)])
    (true, Some [Some (mk_entry (bytes_of "key.key") true)])
    true sample_listen_io true (true, SendDone) true (λ _, true).

Definition start_policy (_ : string) : option (list RawRule) := Some sample_raw.
Definition start_adapter (_ : string) : option AdapterConfig := head sample_configs.

Definition started : result (Running (Proc := Threads)) StartError :=
  @start_server start_policy start_adapter Threads sample_kernel sample_crypto sample_serde
    sample_config start_env root_process.


Definition ready_datagram : Datagram :=
  mk_datagram
    (match notify_addr "/run/systemd/notify" with Ok a => a | Err _ => ([], 0) end) "READY=1".

Definition notify_env (name : string) : EnvVar :=
  if bool_decide (name = "NOTIFY_SOCKET") then EnvSet "/run/systemd/notify" else empty_env name.

Definition ready_env : StartEnv :=
  mk_start_env notify_env sample_users start_fs (se_adapters start_env) (se_keys start_env)
    true sample_listen_io true (true, SendDone) true (λ _, true).

Lemma ready_after_setup_witness :
  ∃ before after,
    @start_trace start_policy start_adapter Threads sample_kernel sample_crypto sample_serde
      sample_config ready_env root_process = before ++ EvNotified ready_datagram :: after
    ∧ length before = 5%nat
    ∧ after = [EvSignalHandler SigInt; EvSignalHandler SigTerm; EvSignalHandler SigHup]
    ∧ dg_message ready_datagram = "READY=1".
Proof.
  destruct (@ready_after_setup start_policy start_adapter Threads sample_kernel
              sample_kernel_laws sample_crypto sample_serde sample_config ready_env root_process)
    as [H _].
  set (tr := start_trace _ _ _ _ _) in *.
  assert (tr = take 5 tr ++ EvNotified ready_datagram :: drop 6 tr) as E
    by (vm_compute; reflexivity).
  exists (take 5 tr), (drop 6 tr). destruct (H _ _ _ E) as (Hm & _).
  split; [exact E|]. split; [vm_compute; reflexivity|]. split; [vm_compute; reflexivity|exact Hm].
Defined.

(** The reload finds the policy but no allowlist: the daemon keeps its uids
    and its rules. *)
Definition broken_fs : Fs :=
  mk_fs (λ path, if bool_decide (path = DEFAULT_ALLOWLIST_PATH) then Err IoNotFound
                 else start_files path)
    (λ _, Err IoNotFound) (λ _ mode, Ok (start_file mode [])) (λ _, Err IoNotFound).

Lemma reload_atomic_witness :
  ∃ rn sh', started = Ok rn
    ∧ reload_state start_policy broken_fs (rn_server rn) (rn_reloadable rn) (rn_shared rn)
      = (rn_reloadable rn, sh')
    ∧ sh_nonces sh' = sh_nonces (rn_shared rn).
Proof.
  assert (match started with
          | Ok rn =>
              (reload_state start_policy broken_fs (rn_server rn) (rn_reloadable rn)
                 (rn_shared rn)).1 = rn_reloadable rn
          | Err _ => False
          end) as Ha by (vm_compute; reflexivity).
  destruct started as [rn|] eqn:H; [|destruct Ha].
  destruct (reload_state start_policy broken_fs (rn_server rn) (rn_reloadable rn) (rn_shared rn))
    as [rl' sh'] eqn:E.
  destruct (reload_atomic start_policy broken_fs _ _ _ _ _ E)
    as (_ & _ & Hn & _).
  exists rn, sh'. split; [reflexivity|]. split; [|exact Hn]. rewrite E. f_equal. exact Ha.
Defined.
