(* ===== verification/Decision.v ===== *)
(** * What an answer of the daemon means

    The theorems about [handle_verify_once] and [handle_client] of [Server]:
    which answers are given, what was checked before them, and what is left
    behind. *)

From S2P Require Import Prelude RustStd Types SecureFs Policy Nonce RateLimit Allowlist.
From S2P Require Import Attestation AuditEntry AuditLog AuditChain Health Json Client AdapterConfig Registry Config Metrics Server.
Open Scope Z_scope.

(** The decision a response carries, if any. *)
Definition decision_of (r : Response) : option string :=
  rs_result r ≫= λ v, get_field v "decision" ≫= Json.as_str.

Section Path.
Context {C : Crypto} {SD : AuditSerde} {W : WireSerde}.
Context (inner : AdapterError → string).

(** The audit log after the other tasks' appends, before ours. *)
Definition audit_before (sh : Shared) (env : VerifyEnv) : Mutex AuditState :=
  audit_run (sh_audit sh) (ve_audit_ops env).

(** What [log] does with the entry of this request. *)
Definition logged (sh : Shared) (env : VerifyEnv) (entry : AuditEntry)
  : result unit AuditError * Mutex AuditState :=
  log (audit_before sh env) entry (ve_log_io env).

Lemma write_audit_spec sh entry id env :
  write_audit_or_error sh entry id env
  = match (logged sh env entry).1 with
    | Ok _ => (Ok tt, with_audit sh (logged sh env entry).2)
    | Err _ => (Err (response_error id "audit failed"),
                with_metrics (with_audit sh (logged sh env entry).2) inc_failures)
    end.
Proof.
  unfold write_audit_or_error, logged, audit_before.
  by destruct (log _ entry (ve_log_io env)) as [[]].
Qed.

(** A response is backed by the log: its decision is the decision of an entry
    of this request that was logged, or logging failed and there is none. *)
Definition audited (sh : Shared) (caller uid : Z) (id : option string) (env : VerifyEnv)
    (out : Response * Shared) : Prop :=
  ∃ entry, ae_caller_uid entry = caller ∧ ae_uid entry = uid ∧ ae_request_id entry = id
    ∧ sh_audit out.2 = (logged sh env entry).2
    ∧ match (logged sh env entry).1 with
      | Ok _ => decision_of out.1 = Some (ae_decision entry) ∧ rs_error out.1 = None
      | Err _ => out.1 = response_error id "audit failed"
      end.

Lemma audited_deny sh0 sh caller uid method reason ad id res client_reason env :
  sh_audit sh = sh_audit sh0 →
  audited sh0 caller uid id env
    (audit_deny sh (deny (ve_entry_now env) caller uid method reason ad id res) id
       client_reason env).
Proof.
  intros Ha. set (entry := deny _ _ _ _ _ _ _ _). exists entry.
  assert (ae_caller_uid entry = caller ∧ ae_uid entry = uid ∧ ae_request_id entry = id
    ∧ ae_decision entry = "deny") as (? & ? & ? & Hd).
  { unfold entry, deny. by destruct (default _ (result_fields <$> res)) as [[? ?] ?]. }
  split_and!; try done.
  - unfold audit_deny. rewrite write_audit_spec. unfold logged, audit_before. rewrite Ha.
    by destruct (log _ entry _) as [[]].
  - unfold audit_deny. rewrite write_audit_spec. unfold logged, audit_before. rewrite Ha.
    destruct (log _ entry _) as [[]]; simpl; [|done]. by rewrite Hd.
Qed.

Lemma audit_deny_not_allow sh entry id reason env :
  decision_of (audit_deny sh entry id reason env).1 ≠ Some "allow".
Proof.
  unfold audit_deny. rewrite write_audit_spec. by destruct (logged sh env entry) as [[]].
Qed.

Lemma audit_deny_nonces sh entry id reason env :
  sh_nonces (audit_deny sh entry id reason env).2 = sh_nonces sh.
Proof.
  unfold audit_deny. rewrite write_audit_spec. by destruct (logged sh env entry) as [[]].
Qed.

(** ** The nonce of the request *)

Lemma consume_gone m n uid now :
  sound m → sound (consume m n uid now).2
            ∧ pending (guarded (consume m n uid now).2) !! n = None.
Proof.
  intros Hs. destruct (consume m n uid now) as [r m'] eqn:Hc.
  apply consume_refines in Hc as [Hs' Hr]; [|done]. split; [done|]. simpl.
  unfold NonceSpec.redeem in Hr. destruct (pending (guarded m) !! n) as [[t u]|] eqn:E.
  - injection Hr as _ Hp. rewrite <-Hp. apply lookup_delete_eq.
  - injection Hr as _ Hp. by rewrite <-Hp.
Qed.

Lemma nonce_run_sound m ops : sound m → sound (nonce_run m ops).2.
Proof.
  intros Hs. destruct (nonce_run m ops) as [tr m'] eqn:Hr.
  by apply run_refines in Hr as [? _].
Qed.

(** ** What has to hold for an allow *)

(** The request sent to the adapter. *)
Definition challenge (uid : Z) (nonce : list byte) (resolved : ResolvedAdapter) (env : VerifyEnv)
  : VerificationRequest :=
  mk_request PROTOCOL_VERSION (ve_uuid env) uid nonce
    (saturating_add_u64 (unix_ms (ve_request_now env)) (ra_timeout_ms resolved)).

(** The context policy judges. *)
Definition judged (uid : Z) (nonce : list byte) (resolved : ResolvedAdapter)
    (result : VerificationResult) (decision : option PolicyDecision) (env : VerifyEnv)
  : AuthContext :=
  mk_context uid (ra_method resolved) (challenge uid nonce resolved env) result decision.

(** The nonce store when the nonce is spent. *)
Definition nonces_at_spending (sh : Shared) (uid : Z) (env : VerifyEnv) : Mutex NonceState :=
  (nonce_run (generate (sh_nonces sh) uid (ve_rand env) (ve_generate_now env)).2
     (ve_nonce_ops env)).2.

Record grant (sv : Server) (rl : ReloadableState) (sh : Shared) (caller uid : Z)
    (method : string) (id : option string) (env : VerifyEnv)
    (resolved : ResolvedAdapter) (nonce : list byte) (result : VerificationResult)
  : Prop := {
  g_resolved : resolve (sv_registry sv) (ve_health env) method = Ok resolved;
  g_nonce : (generate (sh_nonces sh) uid (ve_rand env) (ve_generate_now env)).1 = Ok nonce;
  g_answer :
    (dispatch_resolved (ve_dispatch_health env) resolved (challenge uid nonce resolved env)
       (ve_permit env) (ve_exchange env)).1 = Ok result;
  g_echo : res_nonce result = nonce;
  g_in_time : unix_ms (ve_deadline_now env) ≤ req_deadline_ms (challenge uid nonce resolved env);
  g_spent :
    (consume (nonces_at_spending sh uid env) nonce uid (ve_consume_now env)).1 = Ok tt;
  g_attested :
    require_attestation (sv_config sv) = true →
    Attestation.verify (sv_attester sv) (ra_adapter_name resolved) result = Ok tt;
  g_method : Types.as_str (res_method result) = ra_method resolved;
  g_policy :
    evaluate (rl_policy_engine rl) (ve_policy_now env)
      (judged uid nonce resolved result None env) = Allow;
  g_logged :
    (logged sh env
       (from_decision (ve_entry_now env) (judged uid nonce resolved result (Some Allow) env)
          Allow caller (Some (ra_adapter_name resolved)) id)).1 = Ok tt
}.

Lemma logged_with_nonces sh m env entry :
  logged (with_nonces sh m) env entry = logged sh env entry.
Proof. done. Qed.

(** The last stage answers with an allow exactly when its checks pass. *)
Lemma decide_result_allow sv rl sh caller uid id resolved request result env :
  decision_of (decide_result sv rl sh caller uid id resolved request result env).1
    = Some "allow" ↔
  (consume (sh_nonces sh) (req_nonce request) uid (ve_consume_now env)).1 = Ok tt
  ∧ (require_attestation (sv_config sv) = true →
     Attestation.verify (sv_attester sv) (ra_adapter_name resolved) result = Ok tt)
  ∧ Types.as_str (res_method result) = ra_method resolved
  ∧ evaluate (rl_policy_engine rl) (ve_policy_now env)
      (mk_context uid (ra_method resolved) request result None) = Allow
  ∧ (logged sh env
       (from_decision (ve_entry_now env)
          (mk_context uid (ra_method resolved) request result (Some Allow))
          Allow caller (Some (ra_adapter_name resolved)) id)).1 = Ok tt.
Proof.
  unfold decide_result.
  destruct (consume (sh_nonces sh) (req_nonce request) uid (ve_consume_now env))
    as [[[]|e] nonces]; cycle 1; simpl.
  { split; [by intros ?%audit_deny_not_allow|by intros [? _]]. }
  assert ((if require_attestation (sv_config sv)
           then Attestation.verify (sv_attester sv) (ra_adapter_name resolved) result
           else Ok tt) = Ok tt ↔
    (require_attestation (sv_config sv) = true →
     Attestation.verify (sv_attester sv) (ra_adapter_name resolved) result = Ok tt)) as Hatt
    by (destruct (require_attestation (sv_config sv)); split; auto; done).
  rewrite <-Hatt. clear Hatt.
  destruct (if require_attestation (sv_config sv)
            then Attestation.verify (sv_attester sv) (ra_adapter_name resolved) result
            else Ok tt) as [[]|e]; cycle 1; simpl.
  { split; [by intros ?%audit_deny_not_allow|by intros (_ & ? & _)]. }
  case_bool_decide as Hm; cycle 1; simpl.
  { split; [by intros ?%audit_deny_not_allow|by intros (_ & _ & ? & _)]. }
  rewrite write_audit_spec, logged_with_nonces.
  destruct (evaluate _ _ _) as [|reason] eqn:Hev; cycle 1.
  { split; [|by intros (_ & _ & _ & ? & _)].
    by destruct (logged sh env _) as [[] ?]; simpl. }
  destruct (logged sh env _) as [[[]|err] ?]; simpl; [|by split; [|intros (_ & _ & _ & _ & ?)]].
  split; [done|]. intros _. unfold decision_of. simpl. done.
Qed.

Lemma challenge_adapter_allow sv rl sh caller uid id resolved nonce env :
  decision_of (challenge_adapter inner sv rl sh caller uid id resolved nonce env).1
    = Some "allow" ↔
  ∃ result,
    (dispatch_resolved (ve_dispatch_health env) resolved (challenge uid nonce resolved env)
       (ve_permit env) (ve_exchange env)).1 = Ok result
    ∧ res_nonce result = nonce
    ∧ unix_ms (ve_deadline_now env) ≤ req_deadline_ms (challenge uid nonce resolved env)
    ∧ decision_of (decide_result sv rl
         (with_nonces sh (nonce_run (sh_nonces sh) (ve_nonce_ops env)).2) caller uid id resolved
         (challenge uid nonce resolved env) result env).1 = Some "allow".
Proof.
  unfold challenge_adapter. fold (challenge uid nonce resolved env).
  destruct (dispatch_resolved _ resolved (challenge uid nonce resolved env) _ _)
    as [[result|e] sent]; cycle 1; simpl.
  { split; [by intros ?%audit_deny_not_allow|by intros (r & ? & _)]. }
  case_bool_decide as Hn.
  { split; [by intros ?%audit_deny_not_allow|]. by intros (r & [= <-] & ? & _). }
  destruct (Z.ltb_spec (saturating_add_u64 (unix_ms (ve_request_now env))
              (ra_timeout_ms resolved)) (unix_ms (ve_deadline_now env))) as [Hd|Hd].
  { split; [by intros ?%audit_deny_not_allow|]. intros (r & [= <-] & _ & ? & _). simpl in *. lia. }
  split; [intros H; exists result; by split_and!|by intros (r & [= <-] & _ & _ & ?)].
Qed.

Lemma handle_verify_once_allow sv rl sh caller uid method id env :
  decision_of (handle_verify_once inner sv rl sh caller uid method id env).1 = Some "allow" ↔
  ∃ resolved nonce result, grant sv rl sh caller uid method id env resolved nonce result.
Proof.
  unfold handle_verify_once. destruct (resolve _ _ _) as [resolved|e] eqn:Hr; cycle 1.
  { split; [by intros ?%audit_deny_not_allow|].
    intros (? & ? & ? & []). congruence. }
  destruct (generate _ _ _ _) as [[nonce|e] nonces] eqn:Hg; cycle 1.
  { split; [by intros ?%audit_deny_not_allow|].
    intros (? & ? & ? & [_ H _ _ _ _ _ _ _ _]). by rewrite Hg in H. }
  rewrite challenge_adapter_allow. split.
  - intros (result & Ha & He & Ht & Hd). apply decide_result_allow in Hd as (H1 & H2 & H3 & H4 & H5).
    exists resolved, nonce, result. split; try done; [by rewrite Hg|].
    unfold nonces_at_spending. by rewrite Hg.
  - intros (resolved' & nonce' & result & [G1 G2 G3 G4 G5 G6 G7 G8 G9 G10]).
    rewrite Hr in G1. injection G1 as <-. rewrite Hg in G2. injection G2 as <-.
    exists result. split_and!; try done. apply decide_result_allow.
    unfold nonces_at_spending in G6. rewrite Hg in G6. done.
Qed.

(** With a grant the answer is the allow of the resolved method; the nonce is
    spent and the entry is in the log. *)
Lemma grant_run sv rl sh caller uid method id env resolved nonce result :
  grant sv rl sh caller uid method id env resolved nonce result →
  handle_verify_once inner sv rl sh caller uid method id env
  = (response_allow id (ra_method resolved),
     with_audit
       (with_nonces sh (consume (nonces_at_spending sh uid env) nonce uid (ve_consume_now env)).2)
       (logged sh env
          (from_decision (ve_entry_now env) (judged uid nonce resolved result (Some Allow) env)
             Allow caller (Some (ra_adapter_name resolved)) id)).2).
Proof.
  intros [G1 G2 G3 G4 G5 G6 G7 G8 G9 G10]. unfold handle_verify_once. rewrite G1.
  unfold nonces_at_spending in *.
  destruct (generate _ _ _ _) as [g nonces]. simpl in *. subst g.
  unfold challenge_adapter. fold (challenge uid nonce resolved env).
  destruct (dispatch_resolved _ _ (challenge uid nonce resolved env) _ _) as [a sent].
  simpl in G3. subst a. rewrite bool_decide_eq_false_2 by (by rewrite G4; intros []).
  rewrite (proj2 (Z.ltb_ge _ _)) by done. unfold decide_result. simpl in *.
  destruct (consume _ _ _ _) as [c nonces']. simpl in *. subst c.
  assert ((if require_attestation (sv_config sv)
           then Attestation.verify (sv_attester sv) (ra_adapter_name resolved) result
           else Ok tt) = Ok tt) as ->
    by (destruct (require_attestation (sv_config sv)); auto).
  rewrite bool_decide_eq_true_2 by done. simpl. unfold judged in G9, G10. rewrite G9.
  rewrite write_audit_spec, !logged_with_nonces, G10. simpl. by rewrite G8.
Qed.

Lemma grant_response sv rl sh caller uid method id env resolved nonce result :
  grant sv rl sh caller uid method id env resolved nonce result →
  (handle_verify_once inner sv rl sh caller uid method id env).1
  = response_allow id (ra_method resolved).
Proof. intros G. by rewrite (grant_run _ _ _ _ _ _ _ _ _ _ _ G). Qed.

(** ** Every path writes exactly one entry before it answers *)

Lemma audited_decide sv rl sh0 sh caller uid id resolved request result env :
  sh_audit sh = sh_audit sh0 →
  audited sh0 caller uid id env
    (decide_result sv rl sh caller uid id resolved request result env).
Proof.
  intros Ha. unfold decide_result.
  destruct (consume _ _ _ _) as [[[]|e] nonces]; [|by apply audited_deny].
  destruct (if require_attestation _ then _ else _) as [[]|e]; [|by apply audited_deny].
  case_bool_decide; simpl; [|by apply audited_deny].
  set (decision := evaluate _ _ _).
  rewrite write_audit_spec, logged_with_nonces.
  set (entry := from_decision _ _ _ _ _ _). exists entry.
  assert (ae_decision entry = match decision with Allow => "allow" | Deny _ => "deny" end) as Hd.
  { unfold entry, from_decision. by destruct decision. }
  assert (ae_caller_uid entry = caller ∧ ae_uid entry = uid ∧ ae_request_id entry = id)
    as (? & ? & ?) by (unfold entry, from_decision; by destruct decision).
  assert (logged sh env entry = logged sh0 env entry) as Hl
    by (unfold logged, audit_before; by rewrite Ha).
  rewrite Hl. split_and!; try done.
  - destruct (logged sh0 env entry) as [[] ?]; simpl; [by destruct decision|done].
  - destruct (logged sh0 env entry) as [[] ?]; simpl; [|done]. rewrite Hd. by destruct decision.
Qed.

Lemma audited_verify sv rl sh caller uid method id env :
  audited sh caller uid id env (handle_verify_once inner sv rl sh caller uid method id env).
Proof.
  unfold handle_verify_once. destruct (resolve _ _ _) as [resolved|e]; [|by apply audited_deny].
  destruct (generate _ _ _ _) as [[nonce|e] nonces]; [|by apply audited_deny].
  unfold challenge_adapter. destruct (dispatch_resolved _ _ _ _ _) as [[result|e] sent];
    [|by apply audited_deny].
  case_bool_decide; [by apply audited_deny|].
  case_match; [by apply audited_deny|]. by apply audited_decide.
Qed.

(** ** Every path spends the nonce it drew *)

Definition nonce_gone (nonce : list byte) (out : Response * Shared) : Prop :=
  sound (sh_nonces out.2) ∧ pending (guarded (sh_nonces out.2)) !! nonce = None.

Lemma audit_deny_gone sh nonce entry id reason env :
  sound (sh_nonces sh) → pending (guarded (sh_nonces sh)) !! nonce = None →
  nonce_gone nonce (audit_deny sh entry id reason env).
Proof. intros H1 H2. unfold nonce_gone. by rewrite audit_deny_nonces. Qed.

Lemma decide_result_gone sv rl sh caller uid id resolved request result env :
  sound (sh_nonces sh) →
  nonce_gone (req_nonce request)
    (decide_result sv rl sh caller uid id resolved request result env).
Proof.
  intros Hs. destruct (consume_gone (sh_nonces sh) (req_nonce request) uid (ve_consume_now env) Hs)
    as [H1 H2].
  unfold decide_result. destruct (consume _ _ _ _) as [[[]|e] nonces]; simpl in *;
    [|by apply audit_deny_gone].
  destruct (if require_attestation _ then _ else _) as [[]|e]; [|by apply audit_deny_gone].
  case_bool_decide; simpl; [|by apply audit_deny_gone].
  rewrite write_audit_spec. unfold nonce_gone.
  destruct (logged _ _ _) as [[] ?]; simpl; [|done]. by destruct (evaluate _ _ _).
Qed.

Lemma challenge_adapter_gone sv rl sh caller uid id resolved nonce env :
  sound (sh_nonces sh) →
  nonce_gone nonce (challenge_adapter inner sv rl sh caller uid id resolved nonce env).
Proof.
  intros Hs. pose proof (nonce_run_sound (sh_nonces sh) (ve_nonce_ops env) Hs) as Hr.
  destruct (consume_gone _ nonce uid (ve_consume_now env) Hr) as [H1 H2].
  unfold challenge_adapter. destruct (dispatch_resolved _ _ _ _ _) as [[result|e] sent];
    [|by apply audit_deny_gone].
  case_bool_decide; [by apply audit_deny_gone|].
  case_match; [by apply audit_deny_gone|].
  by apply (decide_result_gone sv rl _ caller uid id resolved
              (challenge uid nonce resolved env) result env).
Qed.

Lemma handle_verify_once_sound sv rl sh caller uid method id env :
  sound (sh_nonces sh) →
  sound (sh_nonces (handle_verify_once inner sv rl sh caller uid method id env).2).
Proof.
  intros Hs. unfold handle_verify_once.
  destruct (resolve _ _ _) as [resolved|e]; [|by rewrite audit_deny_nonces].
  destruct (generate _ _ _ _) as [[nonce|e] nonces] eqn:Hg;
    apply generate_refines in Hg as [Hs' _]; try done; [|by rewrite audit_deny_nonces].
  by apply challenge_adapter_gone.
Qed.

(** ** The properties of a verification *)

(** C7: exactly when [verify_once] answers "allow".  It does so if and only
    if the method resolved to an adapter; a fresh nonce was drawn for the
    target uid; that adapter was reachable, not down, and answered this very
    request; the answer echoes the nonce and came before the deadline; the
    nonce was then spent for that uid, within its life time; the evidence
    hash verifies under the adapter's key (when attestation is required);
    the answer's method is the resolved one; policy allows; and the "allow"
    entry was written and synced.  Whatever other requests do meanwhile.  The
    response then is the allow of the resolved method under the request's
    id. *)
Theorem verify_allow_iff sv rl sh caller uid method id env :
  (decision_of (handle_verify_once inner sv rl sh caller uid method id env).1 = Some "allow" ↔
   ∃ resolved nonce result, grant sv rl sh caller uid method id env resolved nonce result)
  ∧ ∀ resolved nonce result,
      grant sv rl sh caller uid method id env resolved nonce result →
      (handle_verify_once inner sv rl sh caller uid method id env).1
      = response_allow id (ra_method resolved).
Proof.
  split; [apply handle_verify_once_allow|]. intros resolved nonce result.
  apply grant_response.
Qed.

(** C8: no durable audit entry, no decision.  On every path exactly one
    entry of this request (its caller, target uid and request id) is given
    to the log; the response carries a decision, and it is that entry's
    decision, if and only if the log acknowledged the entry, and otherwise
    is the error "audit failed" with no result; and the audit log is left as
    that one append left it. *)
Theorem verify_decision_audited sv rl sh caller uid method id env :
  let '(resp, sh') := handle_verify_once inner sv rl sh caller uid method id env in
  ∃ entry, ae_caller_uid entry = caller ∧ ae_uid entry = uid ∧ ae_request_id entry = id
    ∧ sh_audit sh' = (logged sh env entry).2
    ∧ match (logged sh env entry).1 with
      | Ok _ => decision_of resp = Some (ae_decision entry) ∧ rs_error resp = None
      | Err _ => resp = response_error id "audit failed"
      end.
Proof.
  pose proof (audited_verify sv rl sh caller uid method id env) as H. unfold audited in H.
  by destruct (handle_verify_once _ _ _ _ _ _ _ _ _) as [resp sh'].
Qed.

(** C11: no verification leaves its challenge behind.  On every path, the
    error paths included, the nonce drawn for the request is not pending
    when the request is over, and the nonce store's invariant is kept. *)
Theorem verify_spends_nonce sv rl sh caller uid method id env :
  sound (sh_nonces sh) →
  let '(resp, sh') := handle_verify_once inner sv rl sh caller uid method id env in
  sound (sh_nonces sh')
  ∧ ∀ resolved nonce,
      resolve (sv_registry sv) (ve_health env) method = Ok resolved →
      (generate (sh_nonces sh) uid (ve_rand env) (ve_generate_now env)).1 = Ok nonce →
      pending (guarded (sh_nonces sh')) !! nonce = None.
Proof.
  intros Hs. pose proof (handle_verify_once_sound sv rl sh caller uid method id env Hs) as H1.
  destruct (handle_verify_once _ _ _ _ _ _ _ _ _) as [resp sh'] eqn:Hv. split; [done|].
  intros resolved nonce Hr Hg. unfold handle_verify_once in Hv. rewrite Hr in Hv.
  destruct (generate _ _ _ _) as [g nonces] eqn:Hgen. simpl in Hg. subst g.
  apply generate_refines in Hgen as [Hs' _]; [|done].
  destruct (challenge_adapter_gone sv rl (with_nonces sh nonces) caller uid id resolved nonce env
    Hs') as [_ H2]. by rewrite Hv in H2.
Qed.
End Path.

(** ** Connections *)

Section Connection.
Context {C : Crypto} {SD : AuditSerde} {W : WireSerde} {SS : ServerSerde}.
Context (inner : AdapterError → string).

Lemma handle_request_allow sv peer req le sh out sh' resp :
  handle_request inner sv peer req le sh = (out, sh') →
  (out = Reply resp ∨ out = ReplyAndClose resp) → decision_of resp = Some "allow" →
  rq_method req = "verify_once"
  ∧ ∃ uid method, request_uid peer (rq_params req) = Ok uid
      ∧ request_method (rq_params req) = Ok method
      ∧ resp = (handle_verify_once inner sv (le_reloadable le) sh peer uid method (rq_id req)
                  (le_verify le)).1.
Proof.
  unfold handle_request. intros H Hout Hd.
  repeat case_bool_decide; try (simplify_eq; by destruct Hout; simplify_eq).
  destruct (request_uid peer (rq_params req)) as [uid|msg];
    [|simplify_eq; by destruct Hout; simplify_eq].
  destruct (request_method (rq_params req)) as [method|msg];
    [|simplify_eq; by destruct Hout; simplify_eq].
  destruct (handle_verify_once _ _ _ _ _ _ _ _ _) as [resp' sh1] eqn:Hv. simplify_eq.
  split; [done|]. exists uid, method. split_and!; [done|done|].
  rewrite Hv. by destruct Hout; simplify_eq.
Qed.

(** The verification behind an allow that a line was answered with, when
    [sh] is the state the line found. *)
Definition backed (sv : Server) (peer : Z) (line : string) (le : LineEnv) (sh : Shared)
    (resp : Response) : Prop :=
  is_allowed (sv_getuid sv) (rl_allowlist (le_reloadable le)) peer = true
  ∧ (∃ rate, (check rate peer RATE_LIMIT_PER_UID (le_rate_now le)).1 = true)
  ∧ ∃ req uid method resolved nonce result,
      request_from_str line = Ok req ∧ rq_version req = 1 ∧ rq_method req = "verify_once"
      ∧ request_uid peer (rq_params req) = Ok uid
      ∧ request_method (rq_params req) = Ok method
      ∧ resp = response_allow (rq_id req) (ra_method resolved)
      ∧ grant sv (le_reloadable le) sh peer uid method (rq_id req) (le_verify le)
          resolved nonce result.

(** A grant reads the nonces and the audit log of the shared state only. *)
Lemma grant_ext sv rl sh sh1 caller uid method id env resolved nonce result :
  sh_nonces sh1 = sh_nonces sh → sh_audit sh1 = sh_audit sh →
  grant sv rl sh1 caller uid method id env resolved nonce result →
  grant sv rl sh caller uid method id env resolved nonce result.
Proof.
  intros Hn Ha [G1 G2 G3 G4 G5 G6 G7 G8 G9 G10].
  unfold nonces_at_spending, logged, audit_before in *. rewrite Hn in G2, G6. rewrite Ha in G10.
  by constructor.
Qed.

Lemma backed_ext sv peer line le sh sh1 resp :
  sh_nonces sh1 = sh_nonces sh → sh_audit sh1 = sh_audit sh →
  backed sv peer line le sh1 resp → backed sv peer line le sh resp.
Proof.
  intros Hn Ha (H1 & H2 & req & uid & method & resolved & nonce & result & H).
  split; [done|]. split; [done|]. exists req, uid, method, resolved, nonce, result.
  destruct H as (? & ? & ? & ? & ? & ? & Hg). split_and!; try done. by eapply grant_ext.
Qed.

Lemma handle_line_allow sv peer line le sh out sh' resp :
  handle_line inner sv peer line le sh = (out, sh') →
  (out = Reply resp ∨ out = ReplyAndClose resp) → decision_of resp = Some "allow" →
  backed sv peer line le sh resp.
Proof.
  unfold handle_line. intros H Hout Hd.
  destruct (is_allowed _ _ peer) eqn:Hal; simpl in H;
    [|simplify_eq; by destruct Hout; simplify_eq].
  destruct (check _ peer RATE_LIMIT_PER_UID (le_rate_now le)) as [[] rate] eqn:Hc; simpl in H;
    [|simplify_eq; by destruct Hout; simplify_eq].
  destruct (request_from_str line) as [req|e] eqn:Hreq;
    [|simplify_eq; by destruct Hout; simplify_eq].
  destruct (Z.eqb_spec (rq_version req) PROTOCOL_VERSION) as [Hver|]; simpl in H;
    [|simplify_eq; by destruct Hout; simplify_eq].
  pose proof H as Hr.
  eapply handle_request_allow in Hr as (Hm & uid & method & Hu & Hmeth & Hresp); [|done|done].
  split; [done|]. split; [eexists; by rewrite Hc|].
  rewrite Hresp in Hd. pose proof Hd as Hd'.
  apply handle_verify_once_allow in Hd' as (resolved & nonce & result & Hg).
  exists req, uid, method, resolved, nonce, result.
  split_and!; try done; [rewrite Hresp; by eapply grant_response|].
  by apply (grant_ext _ _ _ (with_rate sh rate)).
Qed.

(** An allow comes from a line; [before] are the events the connection has
    seen, and [sh0] is the state they left. *)
Lemma client_loop_allow sv peer events : ∀ sh r sent sh' resp,
  client_loop inner sv peer events sh = (r, sent, sh') →
  resp ∈ sent → decision_of resp = Some "allow" →
  ∃ before line le after sent0 sh0,
    events = before ++ EvLine line le :: after
    ∧ client_loop inner sv peer before sh = (None, sent0, sh0)
    ∧ backed sv peer line le sh0 resp.
Proof.
  induction events as [|ev events IH]; intros sh r sent sh' resp H Hin Hd; simpl in H;
    [simplify_eq; by apply not_elem_of_nil in Hin|].
  destruct ev as [| | |line le]; try (simplify_eq; by apply not_elem_of_nil in Hin).
  destruct (handle_line _ _ _ _ _ _) as [out sh1] eqn:Hl.
  assert (∀ x, (out = Reply x ∨ out = ReplyAndClose x) → x = resp →
    ∃ before line0 le0 after sent0 sh0,
      EvLine line le :: events = before ++ EvLine line0 le0 :: after
      ∧ client_loop inner sv peer before sh = (None, sent0, sh0)
      ∧ backed sv peer line0 le0 sh0 resp) as Hhere.
  { intros x Hx ->. exists [], line, le, events, [], sh. split; [done|]. split; [done|].
    apply (backed_ext _ _ _ _ _ (with_metrics sh inc_requests)); [done..|].
    by eapply handle_line_allow. }
  destruct out as [|x|x].
  - simplify_eq. by apply not_elem_of_nil in Hin.
  - simplify_eq. apply list_elem_of_singleton in Hin. eapply Hhere; eauto.
  - destruct (send x (le_send_ok le)) as [[]|e] eqn:Hs.
    + destruct (client_loop _ _ _ events sh1) as [[r2 sent2] sh2] eqn:Hrec. simplify_eq.
      apply elem_of_cons in Hin as [->|Hin]; [eapply Hhere; eauto|].
      destruct (IH _ _ _ _ _ Hrec Hin Hd) as (before & line' & le' & after & s0 & sh0 & -> & Hb & ?).
      exists (EvLine line le :: before), line', le', after, (x :: s0), sh0.
      split; [done|]. split; [|done]. simpl. by rewrite Hl, Hs, Hb.
    + simplify_eq. apply list_elem_of_singleton in Hin. eapply Hhere; eauto.
Qed.

Lemma handle_client_allow sv creds accepted events sh r sent sh' resp :
  handle_client inner sv creds accepted events sh = (r, sent, sh') →
  resp ∈ sent → decision_of resp = Some "allow" →
  ∃ peer before line le after sent0 sh0, creds = Some peer
    ∧ is_allowed (sv_getuid sv) (rl_allowlist accepted) peer = true
    ∧ events = before ++ EvLine line le :: after
    ∧ handle_client inner sv creds accepted before sh = (None, sent0, sh0)
    ∧ backed sv peer line le sh0 resp.
Proof.
  unfold handle_client. intros H Hin Hd.
  destruct creds as [peer|]; [|simplify_eq; by apply not_elem_of_nil in Hin].
  destruct (is_allowed _ _ peer) eqn:Hal; simpl in H;
    [|simplify_eq; by apply not_elem_of_nil in Hin].
  destruct (client_loop_allow _ _ _ _ _ _ _ _ H Hin Hd)
    as (before & line & le & after & s0 & sh0 & ? & ? & ?).
  by exists peer, before, line, le, after, s0, sh0.
Qed.

Lemma dispatch_peer health resolved request permit ex res :
  (dispatch_resolved health resolved request permit ex).1 = Ok res →
  ex_peer_uid ex = Some (cl_expected_uid (ra_client resolved)).
Proof.
  unfold dispatch_resolved. intros H. destruct (adapter_down _ _); [done|].
  destruct permit as [|[]]; [done| |done].
  destruct (Client.verify (ra_client resolved) request ex) as [v sent] eqn:Hv.
  simpl in H. subst v. by apply Client.client_verify_Ok in Hv as (_ & ? & _).
Qed.

Lemma request_uid_peer peer params uid :
  request_uid peer params = Ok uid → (peer ≠ 0 → uid = peer) ∧ (is_u32 peer → 0 ≤ uid → is_u32 uid).
Proof.
  unfold request_uid. destruct (Z.eqb_spec peer 0); simpl; intros H.
  - split; [done|]. intros _ Hu. repeat case_match; simplify_eq. unfold is_u32.
    destruct (Z.ltb_spec u32_max uid); [done|]. lia.
  - by simplify_eq.
Qed.

Lemma request_method_valid params m :
  request_method params = Ok m → validate_name m true = Ok tt.
Proof.
  assert (validate_name "any" true = Ok tt) as Hany by (vm_compute; reflexivity).
  unfold request_method. intros H. destruct params as [p|]; [|by simplify_eq].
  destruct p as [| | | | |fields]; try done.
  destruct (get_field (VObject fields) "method") as [v|]; [|by simplify_eq].
  destruct v as [| | |s| |]; try done. simpl in H. unfold validate_method_name in H.
  by destruct (validate_name s true) as [[]|] eqn:Hv; simplify_eq/=.
Qed.

(** ** The properties of a connection *)

(** End to end, what an "allow" on the wire means.  Suppose attestation
    is required and every policy in force while the connection lasts was
    loaded from a file.  If the daemon ever gives a connection the answer
    "allow", then the kernel vouched for the peer's uid; that uid was on the
    allowlist both at accept and for this request, and within its budget;
    unless the peer is root, the authenticated user is the peer itself; the
    adapter behind the resolved method ran under its configured uid; its
    evidence hash is the HMAC, under that adapter's key, of the very fields
    policy judged, the single-use nonce drawn for this request among them;
    the rule in force for the evidence's method accepts its age, confidence
    and, where it asks so, uid; and the "allow" entry was acknowledged by the
    audit log. *)
Theorem allow_end_to_end {CL : CryptoLaws C} sv creds accepted events sh r sent sh' resp :
  handle_client inner sv creds accepted events sh = (r, sent, sh') →
  resp ∈ sent → decision_of resp = Some "allow" →
  require_attestation (sv_config sv) = true →
  (∀ line le, EvLine line le ∈ events → ∃ raw cfg, load_rules raw = Ok cfg
     ∧ pe_rules (rl_policy_engine (le_reloadable le)) = rules cfg) →
  ∃ peer before line le after sent1 sh1 uid resolved nonce result key rule entry,
    let env := le_verify le in
    let engine := rl_policy_engine (le_reloadable le) in
    creds = Some peer ∧ events = before ++ EvLine line le :: after
    ∧ handle_client inner sv creds accepted before sh = (None, sent1, sh1)
    ∧ is_allowed (sv_getuid sv) (rl_allowlist accepted) peer = true
    ∧ is_allowed (sv_getuid sv) (rl_allowlist (le_reloadable le)) peer = true
    ∧ (∃ rate, (check rate peer RATE_LIMIT_PER_UID (le_rate_now le)).1 = true)
    ∧ (peer ≠ 0 → uid = peer)
    ∧ resp = response_allow (rs_id resp) (ra_method resolved)
    ∧ ex_peer_uid (ve_exchange env) = Some (cl_expected_uid (ra_client resolved))
    ∧ adapter_keys (sv_attester sv) !! ra_adapter_name resolved = Some key
    ∧ res_evidence_hash result = hmac_sha256 key (mac_input result)
    ∧ res_nonce result = nonce
    ∧ (generate (sh_nonces sh1) uid (ve_rand env) (ve_generate_now env)).1 = Ok nonce
    ∧ (consume (nonces_at_spending sh1 uid env) nonce uid (ve_consume_now env)).1 = Ok tt
    ∧ Types.as_str (res_method result) = ra_method resolved
    ∧ in_force (pe_rules engine) (res_method result) rule
    ∧ acceptable (pe_max_result_age_secs engine) (unix_ms (ve_policy_now env)) rule
        (judged uid nonce resolved result None env)
    ∧ ae_decision entry = "allow" ∧ ae_uid entry = uid ∧ ae_caller_uid entry = peer
    ∧ (logged sh1 env entry).1 = Ok tt.
Proof.
  intros Hc Hin Hd Hreq Hpol.
  destruct (handle_client_allow _ _ _ _ _ _ _ _ _ Hc Hin Hd)
    as (peer & before & line & le & after & s1 & sh1 & -> & Hacc & Hev & Hbef & Hal & Hrate & req
        & uid & method & resolved & nonce & result & _ & _ & _ & Hu & _ & Hresp & Hg).
  destruct Hg as [G1 G2 G3 G4 G5 G6 G7 G8 G9 G10].
  destruct (proj1 (Attestation.attest_verify_Ok _ _ _) (G7 Hreq)) as (key & Hkey & Hhash).
  destruct (Hpol line le) as (raw & cfg & Hload & Hrules); [set_solver|].
  destruct (rl_policy_engine (le_reloadable le)) as [rs cap] eqn:Heng. simpl in Hrules. subst rs.
  apply evaluate_Allow in G9 as (rule & Hforce & Hacc'); [|by eapply load_rules_wf].
  pose proof (dispatch_peer (ve_dispatch_health (le_verify le)) resolved
    (challenge uid nonce resolved (le_verify le)) (ve_permit (le_verify le))
    (ve_exchange (le_verify le)) result G3) as Hpeer.
  exists peer, before, line, le, after, s1, sh1, uid, resolved, nonce, result, key, rule,
    (from_decision (ve_entry_now (le_verify le))
       (judged uid nonce resolved result (Some Allow) (le_verify le)) Allow peer
       (Some (ra_adapter_name resolved)) (rq_id req)).
  rewrite Heng. simpl. apply request_uid_peer in Hu as [Hu _].
  split_and!; try done. by rewrite Hresp.
Qed.

(** C23: an uninvited peer learns nothing and changes nothing.  When the
    kernel does not vouch for the peer, or its uid is not allowed, the
    connection is closed without reading a byte: no response, no nonce, no
    audit entry, no slot of the rate limiter; only the failure counter of a
    refused uid goes up.  The same holds when a reload takes the uid off the
    allowlist between the accept and the first request. *)
Theorem unauthorized_peer_silent sv creds accepted events sh :
  (∀ peer, creds = Some peer →
     is_allowed (sv_getuid sv) (rl_allowlist accepted) peer = false
     ∨ ∃ line le rest, events = EvLine line le :: rest
         ∧ is_allowed (sv_getuid sv) (rl_allowlist (le_reloadable le)) peer = false) →
  let '(r, sent, sh') := handle_client inner sv creds accepted events sh in
  r ≠ None ∧ sent = [] ∧ sh_nonces sh' = sh_nonces sh ∧ sh_audit sh' = sh_audit sh
  ∧ sh_rate sh' = sh_rate sh.
Proof.
  intros H. unfold handle_client. destruct creds as [peer|]; [|done].
  destruct (is_allowed (sv_getuid sv) (rl_allowlist accepted) peer) eqn:Ha; simpl; [|done].
  destruct (H peer eq_refl) as [?|(line & le & rest & -> & Hn)]; [congruence|].
  simpl. unfold handle_line. by rewrite Hn.
Qed.

(** Whom a request is about.  A caller that is not root can only ask
    about itself, whatever it sends; root must name a [u32] uid, and anything
    else is an error; the method is [any] unless a valid name is given. *)
Theorem request_params_spec caller params :
  (caller ≠ 0 → request_uid caller params = Ok caller)
  ∧ (∀ uid, request_uid 0 params = Ok uid ↔
       (∃ p v, params = Some p ∧ get_field p "uid" = Some v ∧ as_u64 v = Some uid)
       ∧ uid ≤ u32_max)
  ∧ (∀ m, request_method params = Ok m →
       validate_name m true = Ok tt
       ∧ (m = "any" ∨ ∃ p, params = Some p ∧ get_field p "method" = Some (VString m))).
Proof.
  split_and!.
  - intros Hc. unfold request_uid. by rewrite (proj2 (Z.eqb_neq _ _)).
  - intros uid. unfold request_uid. simpl. destruct params as [p|]; simpl;
      [|split; [done|by intros [(? & ? & [=] & _) _]]].
    destruct (get_field p "uid") as [v|] eqn:Hf; cycle 1.
    { split; [done|]. intros [(p' & v & [= <-] & ? & _) _]. congruence. }
    destruct (as_u64 v) as [n|] eqn:Hn; cycle 1.
    { split; [done|]. intros [(p' & v' & [= <-] & ? & ?) _]. congruence. }
    destruct (Z.ltb_spec u32_max n).
    + split; [done|]. intros [(p' & v' & [= <-] & ? & ?) ?]. simplify_eq. lia.
    + split; [intros [= <-]; split; [by exists p, v|done]|].
      intros [(p' & v' & [= <-] & ? & ?) ?]. congruence.
  - intros m H. pose proof (request_method_valid _ _ H) as Hval. split; [done|].
    unfold request_method in H.
    destruct params as [p|]; [|simplify_eq; auto]. destruct p as [| | | | |fields]; try done.
    destruct (get_field (VObject fields) "method") as [v|] eqn:Hf; [|simplify_eq; auto].
    destruct v as [| | |s| |]; try done. simpl in H. peel H as [[]|] Hv. simplify_eq.
    right. by exists (VObject fields).
Qed.
End Connection.

(** ** A concrete daemon *)

Definition demo_wire : WireSerde := {|
  request_to_string := λ r, Some (str_of (req_nonce r));
  result_from_str := λ _, Some signed_result;
  value_from_str := λ _, None;
  value_to_string := λ _, EmptyString
|}.

Definition demo_serde : ServerSerde := {|
  request_from_str := λ _, Ok (mk_rq 1 (Some "r1") "verify_once"
                                 (Some (VObject [("method", VString "fido2")])));
  response_to_string := λ _, Some "response"
|}.

Definition demo_config : Config :=
  mk_cfg DEFAULT_SOCKET_PATH "prod" 3 20 DEFAULT_ALLOWLIST_PATH DEFAULT_ADAPTERS_DIR
    DEFAULT_POLICY_PATH DEFAULT_AUDIT_LOG_PATH DEFAULT_ADAPTER_KEYS_DIR 60 true.

Definition demo_server : Server :=
  mk_server sample_registry (mk_verifier {[ "key" := sample_key ]}) demo_config
    (RootOrUid 990) 990.

Definition demo_reloadable : ReloadableState :=
  mk_reloadable (mk_allowlist {[ 1000 ]}) (mk_engine (rules sample_policy) 60).

Definition demo_health : Mutex (gmap string AdapterHealth) :=
  monitor (initial_health ["key"; "finger"] 0) [mk_probe "key" true true 1].

Definition demo_env : VerifyEnv :=
  mk_venv demo_health (λ _, Some (res_nonce signed_result)) (secs 5) (res_id signed_result)
    (secs 1) demo_health (Done true)
    (mk_exchange (Done None) (Some 991) (Done true) (Done (Some (Some "answer"))))
    [OpCleanup (secs 6)] (secs 2) (secs 7) (secs 2) (secs 2) [OpAppend sample_entry io_fine] io_fine.

Definition demo_line_env : LineEnv :=
  mk_lenv demo_reloadable [OpCheck 1001 (secs 4)] (secs 5) demo_health true demo_env.

Definition demo_shared : Shared :=
  mk_shared nonce_store_new fresh_log rate_limiter_new metrics_zero.

Definition demo_events : list ClientEvent := [EvLine "request" demo_line_env; EvEnd].

Definition demo_run (creds : option Z) :=
  @handle_client sample_crypto sample_serde demo_wire demo_serde (λ _, "inner") demo_server creds
    demo_reloadable demo_events demo_shared.

Definition demo_allow : Response := response_allow (Some "r1") "fido2".

Example demo_run_allows : (demo_run (Some 1000)).1 = (Some (Ok tt), [demo_allow]).
Proof. vm_compute. reflexivity. Qed.

(** The same request of a peer that is not on the allowlist. *)
Example demo_run_stranger : (demo_run (Some 1001)).1 = (Some (Ok tt), []).
Proof. vm_compute. reflexivity. Qed.

Lemma allow_end_to_end_witness :
  ∃ peer before line le after sent1 sh1 uid resolved nonce result key rule entry,
    let env := le_verify le in
    let engine := rl_policy_engine (le_reloadable le) in
    Some 1000 = Some peer ∧ demo_events = before ++ EvLine line le :: after
    ∧ @handle_client sample_crypto sample_serde demo_wire demo_serde (λ _, "inner") demo_server
        (Some 1000) demo_reloadable before demo_shared = (None, sent1, sh1)
    ∧ is_allowed (sv_getuid demo_server) (rl_allowlist demo_reloadable) peer = true
    ∧ is_allowed (sv_getuid demo_server) (rl_allowlist (le_reloadable le)) peer = true
    ∧ (∃ rate, (check rate peer RATE_LIMIT_PER_UID (le_rate_now le)).1 = true)
    ∧ (peer ≠ 0 → uid = peer)
    ∧ demo_allow = response_allow (rs_id demo_allow) (ra_method resolved)
    ∧ ex_peer_uid (ve_exchange env) = Some (cl_expected_uid (ra_client resolved))
    ∧ adapter_keys (sv_attester demo_server) !! ra_adapter_name resolved = Some key
    ∧ res_evidence_hash result
      = @hmac_sha256 sample_crypto key (@mac_input sample_crypto result)
    ∧ res_nonce result = nonce
    ∧ (generate (sh_nonces sh1) uid (ve_rand env) (ve_generate_now env)).1 = Ok nonce
    ∧ (consume (nonces_at_spending sh1 uid env) nonce uid (ve_consume_now env)).1 = Ok tt
    ∧ Types.as_str (res_method result) = ra_method resolved
    ∧ in_force (pe_rules engine) (res_method result) rule
    ∧ acceptable (pe_max_result_age_secs engine) (unix_ms (ve_policy_now env)) rule
        (judged uid nonce resolved result None env)
    ∧ ae_decision entry = "allow" ∧ ae_uid entry = uid ∧ ae_caller_uid entry = peer
    ∧ (@logged sample_crypto sample_serde sh1 env entry).1 = Ok tt.
Proof.
  apply (@allow_end_to_end sample_crypto sample_serde demo_wire demo_serde (λ _, "inner")
           sample_crypto_laws demo_server (Some 1000) demo_reloadable demo_events demo_shared
           (demo_run (Some 1000)).1.1 (demo_run (Some 1000)).1.2 (demo_run (Some 1000)).2
           demo_allow).
  - vm_compute. reflexivity.
  - vm_compute. left.
  - reflexivity.
  - reflexivity.
  - intros line le Hin. exists sample_raw, sample_policy. split; [vm_compute; reflexivity|].
    unfold demo_events in Hin. set_unfold in Hin. destruct Hin as [E|[E|[]]]; [|discriminate E].
    injection E as _ ->. reflexivity.
Defined.

Lemma unauthorized_peer_silent_witness :
  let '(r, sent, sh') := demo_run (Some 1001) in
  r ≠ None ∧ sent = [] ∧ sh_nonces sh' = sh_nonces demo_shared
  ∧ sh_audit sh' = sh_audit demo_shared ∧ sh_rate sh' = sh_rate demo_shared.
Proof.
  apply (@unauthorized_peer_silent sample_crypto sample_serde demo_wire demo_serde
           (λ _, "inner") demo_server (Some 1001) demo_reloadable demo_events demo_shared).
  intros peer [= <-]. left. vm_compute. reflexivity.
Defined.

Lemma verify_spends_nonce_witness :
  let '(resp, sh') :=
    @handle_verify_once sample_crypto sample_serde demo_wire (λ _, "inner") demo_server
      demo_reloadable demo_shared 1000 1000 "fido2" (Some "r1") demo_env in
  sound (sh_nonces sh')
  ∧ ∀ resolved nonce,
      resolve (sv_registry demo_server) (ve_health demo_env) "fido2" = Ok resolved →
      (generate (sh_nonces demo_shared) 1000 (ve_rand demo_env) (ve_generate_now demo_env)).1
        = Ok nonce →
      pending (guarded (sh_nonces sh')) !! nonce = None.
Proof.
  apply (@verify_spends_nonce sample_crypto sample_serde demo_wire (λ _, "inner")).
  apply sound_new.
Defined.
