(* ===== verification/Interleave.v ===== *)
(** * Verifications that run at the same time

    A verification of
    [crates/ola-core/src/infrastructure/ipc/unix_socket.rs], from the line
    that asks for it to its answer, cut where it touches what all connections
    share.  Every connection is a task of its own: between the reading of the
    line, the drawing of the nonce, its spending and the append to the audit
    log any number of other verifications, the cleanup tasks and reloads may
    run.  [tick] is one such uninterrupted piece, [run] an interleaving of any
    number of them.

    [Server] has the same code as one function whose inputs name what the
    others do meanwhile.  [interleaving_refines] shows that the two agree:
    each verification of an interleaving is an evaluation of
    [handle_verify_once] at the operations the other tasks made. *)

From S2P Require Import Prelude RustStd Types SecureFs Policy Nonce RateLimit Allowlist.
From S2P Require Import Attestation AuditEntry AuditLog AuditChain Health Json Client AdapterConfig Registry Config Metrics.
From S2P Require Import Privilege Socket Server Startup Decision.
Open Scope Z_scope.

(** ** State *)

(** The arguments of one call of [handle_verify_once]. *)
Record Call := mk_call {
  ca_reloadable : ReloadableState;
  ca_caller : Z;
  ca_uid : Z;
  ca_method : string;
  ca_id : option string
}.

(** Where a call stands. *)
Inductive Pc : Type :=
| PcStart
| PcWaiting (resolved : ResolvedAdapter) (request : VerificationRequest)
    (* in [dispatch_resolved] *)
| PcLogging (entry : AuditEntry) (answer : option Response)
    (* in [log]; the answer, unless nobody waits for it any more *)
| PcOver (entry : AuditEntry) (acknowledged : bool) (answer : option Response).

(** A call with the nonce it drew. *)
Record VTask := mk_vtask { vt_call : Call; vt_nonce : option nonce; vt_pc : Pc }.

(** [w_reloadable] is what [reloadable.load_full()] returns. *)
Record World := mk_world {
  w_reloadable : ReloadableState;
  w_shared : Shared;
  w_tasks : gmap nat VTask
}.

(** What the piece up to the dispatch reads, and the piece after it. *)
Record BeginIn := mk_begin {
  bi_health : Mutex (gmap string AdapterHealth);
  bi_rand : draws;
  bi_generate_now : Z;
  bi_uuid : list byte;
  bi_request_now : Z;                                (* system clock *)
  bi_entry_now : Z                                   (* system clock *)
}.

Record AnswerIn := mk_answer {
  ai_health : Mutex (gmap string AdapterHealth);
  ai_permit : Timed bool;
  ai_exchange : Exchange;
  ai_deadline_now : Z;                               (* system clock *)
  ai_consume_now : Z;
  ai_policy_now : Z;                                 (* system clock *)
  ai_entry_now : Z                                   (* system clock *)
}.

Inductive Tick : Type :=
| TkLine (i : nat) (peer : Z) (line : string) (now : Z)
| TkBegin (i : nat) (b : BeginIn)
| TkAnswer (i : nat) (a : AnswerIn)
| TkAppend (i : nat) (io : LogIo)
| TkCancel (i : nat)
| TkClean (now : Z)
| TkSweep (now : Z)
| TkReload (fs : Fs)
| TkReopen (fs : Fs).

(** ** The pieces *)

Section Pieces.
Context `{C : Crypto} `{SD : AuditSerde} `{W : WireSerde} `{SS : ServerSerde}.
Context (inner : AdapterError → string).
Context (toml_policy : string → option (list RawRule)).
Context (sv : Server).

(** From a line to the call of [handle_verify_once] it leads to, if any: the
    allowlist and, later, the policy are those of one loaded state. *)
Definition line_call (rl : ReloadableState) (peer : Z) (line : string) (now : Z) (sh : Shared)
  : option Call * Shared :=
  let fail sh := with_metrics sh inc_failures in
  let sh := with_metrics sh inc_requests in
  if negb (is_allowed (sv_getuid sv) (rl_allowlist rl) peer) then (None, fail sh)
  else
  let '(admitted, rate) := check (sh_rate sh) peer RATE_LIMIT_PER_UID now in
  let sh := with_rate sh rate in
  if negb admitted then (None, fail sh)
  else
  match request_from_str line with
  | Err _ => (None, fail sh)
  | Ok req =>
      if negb (rq_version req =? PROTOCOL_VERSION) then (None, fail sh)
      else if bool_decide (rq_method req ∈ ["ping"; "status"; "list_methods"]) then (None, sh)
      else if bool_decide (rq_method req = "verify_once") then
        match request_uid peer (rq_params req), request_method (rq_params req) with
        | Ok uid, Ok method => (Some (mk_call rl peer uid method (rq_id req)), sh)
        | _, _ => (None, fail sh)
        end
      else (None, fail sh)
  end.

(** Up to the dispatch: resolve the method, draw the nonce. *)
Definition begin_call (c : Call) (b : BeginIn) (nonces : Mutex NonceState)
  : VTask * Mutex NonceState :=
  let refuse method reason adapter :=
    mk_vtask c None
      (PcLogging
         (deny (bi_entry_now b) (ca_caller c) (ca_uid c) method reason adapter (ca_id c) None)
         (Some (response_deny (ca_id c) reason))) in
  match resolve (sv_registry sv) (bi_health b) (ca_method c) with
  | Err e => (refuse (ca_method c) (adapter_error_display inner e) None, nonces)
  | Ok resolved =>
      let '(generated, nonces) :=
        generate nonces (ca_uid c) (bi_rand b) (bi_generate_now b) in
      match generated with
      | Err e =>
          (refuse (ra_method resolved) (nonce_reason e) (Some (ra_adapter_name resolved)), nonces)
      | Ok nonce =>
          (mk_vtask c (Some nonce)
             (PcWaiting resolved
                (mk_request PROTOCOL_VERSION (bi_uuid b) (ca_uid c) nonce
                   (saturating_add_u64 (unix_ms (bi_request_now b)) (ra_timeout_ms resolved)))),
           nonces)
      end
  end.

(** The entry and the answer, once the nonce was given up; [spent] is what
    [consume] said. *)
Definition judge (c : Call) (resolved : ResolvedAdapter) (request : VerificationRequest)
    (answer : result VerificationResult AdapterError) (spent : result unit NonceError)
    (a : AnswerIn) : AuditEntry * Response :=
  let refuse reason client_reason result :=
    (deny (ai_entry_now a) (ca_caller c) (ca_uid c) (ra_method resolved) reason
       (Some (ra_adapter_name resolved)) (ca_id c) result,
     response_deny (ca_id c) client_reason) in
  match answer with
  | Err e => let reason := adapter_error_display inner e in refuse reason reason None
  | Ok result =>
      if bool_decide (res_nonce result ≠ req_nonce request)
      then refuse "nonce_mismatch" "nonce mismatch detected" (Some result)
      else if req_deadline_ms request <? unix_ms (ai_deadline_now a)
      then refuse "request_deadline_expired" "request deadline expired" (Some result)
      else
      match spent with
      | Err e => refuse (nonce_reason e) "nonce replay detected" (Some result)
      | Ok _ =>
          match (if require_attestation (sv_config sv)
                 then Attestation.verify (sv_attester sv) (ra_adapter_name resolved) result
                 else Ok tt) with
          | Err e => refuse (attestation_reason e) "invalid evidence hash" (Some result)
          | Ok _ =>
              if negb (bool_decide (Types.as_str (res_method result) = ra_method resolved))
              then refuse "method_mismatch" "method mismatch" (Some result)
              else
              let context := mk_context (ca_uid c) (ra_method resolved) request result None in
              let decision :=
                evaluate (rl_policy_engine (ca_reloadable c)) (ai_policy_now a) context in
              let context :=
                mk_context (ca_uid c) (ra_method resolved) request result (Some decision) in
              (from_decision (ai_entry_now a) context decision (ca_caller c)
                 (Some (ra_adapter_name resolved)) (ca_id c),
               match decision with
               | Allow => response_allow (ca_id c) (Types.as_str (res_method result))
               | Deny reason => response_deny (ca_id c) (deny_reason_debug reason)
               end)
          end
      end
  end.

(** From the adapter's answer to the append: every branch calls [consume]
    once. *)
Definition resume_call (c : Call) (resolved : ResolvedAdapter) (request : VerificationRequest)
    (a : AnswerIn) (nonces : Mutex NonceState) : AuditEntry * Response * Mutex NonceState :=
  let '(answer, _) :=
    dispatch_resolved (ai_health a) resolved request (ai_permit a) (ai_exchange a) in
  let '(spent, nonces) :=
    consume nonces (req_nonce request) (ca_uid c) (ai_consume_now a) in
  (judge c resolved request answer spent a, nonces).

(** The append and the return. *)
Definition finish_call (c : Call) (entry : AuditEntry) (answer : option Response) (io : LogIo)
    (sh : Shared) : Pc * Shared :=
  let '(r, audit) := log (sh_audit sh) entry io in
  let sh := with_audit sh audit in
  match r with
  | Ok _ => (PcOver entry true answer, sh)
  | Err _ =>
      (PcOver entry false ((λ _, response_error (ca_id c) "audit failed") <$> answer),
       with_metrics sh inc_failures)
  end.

(** [reload_state], store by store. *)
Definition reload_config (fs : Fs) (rl : ReloadableState) : ReloadableState :=
  match reload toml_policy fs (sv_getuid sv) (sv_config sv) (sv_owner_policy sv) with
  | Ok new_state => new_state
  | Err _ => rl
  end.

Definition reload_log (fs : Fs) (sh : Shared) : Shared :=
  let '(r, logger) := AuditLog.reopen fs (sv_getuid sv) (logger_of sv sh) in
  let sh := with_audit sh (lg_state logger) in
  match r with Ok _ => sh | Err _ => with_metrics sh inc_failures end.

(** One piece of one task; [None] when the task is not there or stands
    elsewhere.  A line that leads to no verification starts no task here.
    Cancelling drops a task at an await; an append that is under way is a
    blocking task of its own and goes on without it. *)
Definition tick (w : World) (t : Tick) : option World :=
  let rl := w_reloadable w in
  let sh := w_shared w in
  let set i task := <[i := task]> (w_tasks w) in
  match t with
  | TkLine i peer line now =>
      match w_tasks w !! i with
      | None =>
          let '(call, sh) := line_call rl peer line now sh in
          Some (mk_world rl sh (match call with
                                | Some c => set i (mk_vtask c None PcStart)
                                | None => w_tasks w
                                end))
      | Some _ => None
      end
  | TkBegin i b =>
      match w_tasks w !! i with
      | Some (mk_vtask c _ PcStart) =>
          let '(task, nonces) := begin_call c b (sh_nonces sh) in
          Some (mk_world rl (with_nonces sh nonces) (set i task))
      | _ => None
      end
  | TkAnswer i a =>
      match w_tasks w !! i with
      | Some (mk_vtask c drawn (PcWaiting resolved request)) =>
          let '(entry, answer, nonces) := resume_call c resolved request a (sh_nonces sh) in
          Some (mk_world rl (with_nonces sh nonces)
                  (set i (mk_vtask c drawn (PcLogging entry (Some answer)))))
      | _ => None
      end
  | TkAppend i io =>
      match w_tasks w !! i with
      | Some (mk_vtask c drawn (PcLogging entry answer)) =>
          let '(pc, sh) := finish_call c entry answer io sh in
          Some (mk_world rl sh (set i (mk_vtask c drawn pc)))
      | _ => None
      end
  | TkCancel i =>
      match w_tasks w !! i with
      | Some (mk_vtask _ _ PcStart) | Some (mk_vtask _ _ (PcWaiting _ _)) =>
          Some (mk_world rl sh (delete i (w_tasks w)))
      | Some (mk_vtask c drawn (PcLogging entry _)) =>
          Some (mk_world rl sh (set i (mk_vtask c drawn (PcLogging entry None))))
      | _ => None
      end
  | TkClean now =>
      Some (mk_world rl (with_nonces sh (cleanup (sh_nonces sh) now)) (w_tasks w))
  | TkSweep now =>
      Some (mk_world rl
              (with_rate sh (rate_step RATE_LIMIT_PER_UID (sh_rate sh) (OpSweep now)).2) (w_tasks w))
  | TkReload fs => Some (mk_world (reload_config fs rl) sh (w_tasks w))
  | TkReopen fs => Some (mk_world rl (reload_log fs sh) (w_tasks w))
  end.

Fixpoint run (w : World) (ts : list Tick) : option World :=
  match ts with
  | [] => Some w
  | t :: ts => tick w t ≫= λ w, run w ts
  end.

(** ** What a run does to the stores *)

(** The operation of a piece on the nonce store, and on the log. *)
Definition tick_nonce_ops (w : World) (t : Tick) : list NonceOp :=
  match t with
  | TkBegin i b =>
      match w_tasks w !! i with
      | Some (mk_vtask c _ PcStart) =>
          match resolve (sv_registry sv) (bi_health b) (ca_method c) with
          | Ok _ => [OpGenerate (ca_uid c) (bi_rand b) (bi_generate_now b)]
          | Err _ => []
          end
      | _ => []
      end
  | TkAnswer i a =>
      match w_tasks w !! i with
      | Some (mk_vtask c _ (PcWaiting _ request)) =>
          [OpConsume (req_nonce request) (ca_uid c) (ai_consume_now a)]
      | _ => []
      end
  | TkClean now => [OpCleanup now]
  | _ => []
  end.

Definition reopen_op (fs : Fs) : AuditOp :=
  OpReopen (of_data <$> result_ok (open_secure_append fs (sv_getuid sv)
                                     (audit_log_path (sv_config sv)) 416 (sv_owner_policy sv))).

Definition tick_audit_ops (w : World) (t : Tick) : list AuditOp :=
  match t with
  | TkAppend i io =>
      match w_tasks w !! i with
      | Some (mk_vtask _ _ (PcLogging entry _)) => [OpAppend entry io]
      | _ => []
      end
  | TkReopen fs => [reopen_op fs]
  | _ => []
  end.

Fixpoint run_nonce_ops (w : World) (ts : list Tick) : list NonceOp :=
  match ts with
  | [] => []
  | t :: ts => tick_nonce_ops w t ++ from_option (λ w, run_nonce_ops w ts) [] (tick w t)
  end.

Fixpoint run_audit_ops (w : World) (ts : list Tick) : list AuditOp :=
  match ts with
  | [] => []
  | t :: ts => tick_audit_ops w t ++ from_option (λ w, run_audit_ops w ts) [] (tick w t)
  end.
End Pieces.

(** ** Lemmas: the sequential function, piece by piece *)

Definition env_begin (env : VerifyEnv) : BeginIn :=
  mk_begin (ve_health env) (ve_rand env) (ve_generate_now env) (ve_uuid env)
    (ve_request_now env) (ve_entry_now env).

Definition env_answer (env : VerifyEnv) : AnswerIn :=
  mk_answer (ve_dispatch_health env) (ve_permit env) (ve_exchange env) (ve_deadline_now env)
    (ve_consume_now env) (ve_policy_now env) (ve_entry_now env).

Section Sequential.
Context {C : Crypto} {SD : AuditSerde} {W : WireSerde}.
Context (inner : AdapterError → string).
Context (sv : Server).

(** How a verification ends that hands [entry] to the log. *)
Definition closing (sh : Shared) (id : option string) (entry : AuditEntry) (answer : Response)
    (env : VerifyEnv) : Response * Shared :=
  let sh' := with_audit sh (logged sh env entry).2 in
  match (logged sh env entry).1 with
  | Ok _ => (answer, sh')
  | Err _ => (response_error id "audit failed", with_metrics sh' inc_failures)
  end.

Lemma audit_deny_closing sh entry id reason env :
  audit_deny sh entry id reason env = closing sh id entry (response_deny id reason) env.
Proof.
  unfold audit_deny, closing. rewrite write_audit_spec. by destruct (logged sh env entry) as [[]].
Qed.

Definition sequential (c : Call) (sh : Shared) (env : VerifyEnv) : Response * Shared :=
  handle_verify_once inner sv (ca_reloadable c) sh (ca_caller c) (ca_uid c) (ca_method c)
    (ca_id c) env.

(** A call that ends before the dispatch. *)
Lemma sequential_refused c sh env drawn entry answer nonces :
  begin_call inner sv c (env_begin env) (sh_nonces sh)
    = (mk_vtask c drawn (PcLogging entry (Some answer)), nonces) →
  drawn = None
  ∧ sequential c sh env = closing (with_nonces sh nonces) (ca_id c) entry answer env.
Proof.
  unfold begin_call, sequential, handle_verify_once. simpl.
  destruct (resolve _ _ _) as [resolved|e]; cycle 1.
  { intros [= <- <- <- <-]. split; [done|]. rewrite audit_deny_closing. by destruct sh. }
  destruct (generate _ _ _ _) as [[nonce|e] nonces']; [done|].
  intros [= <- <- <- <-]. split; [done|]. by rewrite audit_deny_closing.
Qed.

(** A call that waits for its adapter. *)
Lemma sequential_answered c sh env drawn resolved request entry answer nonces1 nonces2 :
  begin_call inner sv c (env_begin env) (sh_nonces sh)
    = (mk_vtask c drawn (PcWaiting resolved request), nonces1) →
  resume_call inner sv c resolved request (env_answer env)
    (nonce_run nonces1 (ve_nonce_ops env)).2 = (entry, answer, nonces2) →
  drawn = Some (req_nonce request)
  ∧ sequential c sh env = closing (with_nonces sh nonces2) (ca_id c) entry answer env.
Proof.
  unfold begin_call, sequential, handle_verify_once. simpl.
  destruct (resolve _ _ _) as [res|e]; [|done].
  destruct (generate _ _ _ _) as [[nonce|e] nonces']; [|done].
  intros [= <- <- <- <-]. unfold resume_call, challenge_adapter, spend. simpl.
  destruct (dispatch_resolved _ _ _ _ _) as [ans sent].
  destruct (consume _ nonce (ca_uid c) (ve_consume_now env)) as [spent m] eqn:Hc.
  intros [= Hj ->]. split; [done|]. unfold judge in Hj. simpl in Hj.
  destruct ans as [result|e]; [|injection Hj as <- <-; by rewrite audit_deny_closing].
  case_bool_decide; [injection Hj as <- <-; by rewrite audit_deny_closing|].
  destruct (_ <? _); [injection Hj as <- <-; by rewrite audit_deny_closing|].
  unfold decide_result. simpl. rewrite Hc.
  destruct spent as [[]|e]; [|injection Hj as <- <-; by rewrite audit_deny_closing].
  destruct (if require_attestation _ then _ else _) as [[]|e];
    [|injection Hj as <- <-; by rewrite audit_deny_closing].
  destruct (negb _); [injection Hj as <- <-; by rewrite audit_deny_closing|].
  injection Hj as <- <-. rewrite write_audit_spec. unfold closing.
  change (with_nonces (with_nonces ?s ?a) ?b) with (with_nonces s b).
  destruct (evaluate _ _ _); by destruct (logged _ env _) as [[[]|]].
Qed.
End Sequential.

(** ** Lemmas: runs *)

Section Runs.
Context {C : Crypto} {SD : AuditSerde} {W : WireSerde} {SS : ServerSerde}.
Context (inner : AdapterError → string).
Context (toml_policy : string → option (list RawRule)).
Context (sv : Server).

#[local] Abbreviation do_tick := (tick inner toml_policy sv).
#[local] Abbreviation do_run := (run inner toml_policy sv).
#[local] Abbreviation nonce_ops_of := (run_nonce_ops inner toml_policy sv).
#[local] Abbreviation audit_ops_of := (run_audit_ops inner toml_policy sv).

Lemma run_app w ts1 ts2 : do_run w (ts1 ++ ts2) = do_run w ts1 ≫= λ w, do_run w ts2.
Proof.
  revert w. induction ts1 as [|t ts1 IH]; intros w; simpl; [done|].
  by destruct (do_tick w t); simpl.
Qed.

Lemma run_ops_app w ts1 ts2 w1 :
  do_run w ts1 = Some w1 →
  nonce_ops_of w (ts1 ++ ts2) = nonce_ops_of w ts1 ++ nonce_ops_of w1 ts2
  ∧ audit_ops_of w (ts1 ++ ts2) = audit_ops_of w ts1 ++ audit_ops_of w1 ts2.
Proof.
  revert w. induction ts1 as [|t ts1 IH]; intros w H; simpl in *; [by simplify_eq|].
  destruct (do_tick w t) as [w'|]; [|done]. simpl in *. destruct (IH _ H) as [-> ->].
  by rewrite !app_assoc.
Qed.

(** What a line does to the stores. *)
Lemma line_call_stores rl peer line now sh call sh' :
  line_call sv rl peer line now sh = (call, sh') →
  sh_nonces sh' = sh_nonces sh ∧ sh_audit sh' = sh_audit sh.
Proof.
  unfold line_call. destruct (negb _); [by intros [= <- <-]|].
  destruct (check _ _ _ _) as [[] rate]; simpl; [|by intros [= <- <-]].
  destruct (request_from_str line) as [req|]; [|by intros [= <- <-]].
  destruct (negb _); [by intros [= <- <-]|]. case_bool_decide; [by intros [= <- <-]|].
  case_bool_decide; [|by intros [= <- <-]].
  destruct (request_uid _ _); [destruct (request_method _)|]; by intros [= <- <-].
Qed.

Lemma reload_log_stores fs sh :
  sh_audit (reload_log sv fs sh) = audit_run (sh_audit sh) [reopen_op sv fs]
  ∧ sh_nonces (reload_log sv fs sh) = sh_nonces sh ∧ sh_rate (reload_log sv fs sh) = sh_rate sh.
Proof.
  unfold reload_log, reopen_op. pose proof (reopen_state fs (sv_getuid sv) (logger_of sv sh)) as E.
  destruct (reopen _ _ _) as [[] lg]; simpl in *; by rewrite E.
Qed.

(** Each piece makes the operations listed for it, and no others. *)
Lemma tick_stores w t w' :
  do_tick w t = Some w' →
  sh_nonces (w_shared w')
    = (nonce_run (sh_nonces (w_shared w)) (tick_nonce_ops sv w t)).2
  ∧ sh_audit (w_shared w') = audit_run (sh_audit (w_shared w)) (tick_audit_ops sv w t).
Proof.
  destruct t as [i peer line now|i b|i a|i io|i|now|now|fs|fs]; simpl.
  - destruct (w_tasks w !! i); [done|]. destruct (line_call _ _ _ _ _ _) as [call sh] eqn:Hl.
    intros [= <-]. simpl. by apply line_call_stores in Hl as [-> ->].
  - destruct (w_tasks w !! i) as [[c drawn []]|]; try done. unfold begin_call.
    destruct (resolve _ _ _); [|by intros [= <-]]. simpl.
    by destruct (generate _ _ _ _) as [[] ?]; intros [= <-].
  - destruct (w_tasks w !! i) as [[c drawn []]|]; try done. unfold resume_call.
    destruct (dispatch_resolved _ _ _ _ _). simpl.
    destruct (consume _ _ _ _) as [? ?]. destruct (judge _ _ _ _ _ _ _ _). by intros [= <-].
  - destruct (w_tasks w !! i) as [[c drawn []]|]; try done. unfold finish_call. simpl.
    by destruct (log _ _ _) as [[] ?]; intros [= <-].
  - by destruct (w_tasks w !! i) as [[c drawn []]|]; intros; simplify_eq.
  - by intros [= <-].
  - by intros [= <-].
  - by intros [= <-].
  - intros [= <-]. by destruct (reload_log_stores fs (w_shared w)) as (H1 & H2 & _).
Qed.

Lemma run_stores w ts w' :
  do_run w ts = Some w' →
  sh_nonces (w_shared w') = (nonce_run (sh_nonces (w_shared w)) (nonce_ops_of w ts)).2
  ∧ sh_audit (w_shared w') = audit_run (sh_audit (w_shared w)) (audit_ops_of w ts).
Proof.
  revert w. induction ts as [|t ts IH]; intros w H; simpl in *; [by simplify_eq|].
  destruct (do_tick w t) as [w1|] eqn:Ht; [|done]. simpl in *.
  destruct (IH _ H) as [-> ->]. apply tick_stores in Ht as [-> ->].
  by rewrite nonce_run_app, audit_run_app.
Qed.

(** ** Lemmas: the story of a task *)

(** The run passes through [w1], where the call of the task is begun with
    [b], and goes on with [mid] to [w]. *)
Record begun (w0 : World) (ts : list Tick) (w : World) (i : nat) (c : Call) (b : BeginIn)
    (task : VTask) (before mid : list Tick) (w1 w2 : World) : Prop := {
  bg_ticks : ts = before ++ TkBegin i b :: mid;
  bg_before : do_run w0 before = Some w1;
  bg_task : begin_call inner sv c b (sh_nonces (w_shared w1))
            = (task, sh_nonces (w_shared w2));
  bg_ops : tick_audit_ops sv w1 (TkBegin i b) = []
           ∧ ∀ n, vt_nonce task = Some n → tick_nonce_ops sv w1 (TkBegin i b)
               = [OpGenerate (ca_uid c) (bi_rand b) (bi_generate_now b)];
  bg_tick : do_tick w1 (TkBegin i b) = Some w2;
  bg_mid : do_run w2 mid = Some w
}.

Lemma begun_snoc w0 ts w i c b task before mid w1 w2 t w' :
  begun w0 ts w i c b task before mid w1 w2 → do_tick w t = Some w' →
  begun w0 (ts ++ [t]) w' i c b task before (mid ++ [t]) w1 w2.
Proof.
  intros [-> H1 H2 H3 H4 H5] Ht. split; try done.
  - by rewrite <-app_assoc.
  - rewrite run_app, H5. simpl. by rewrite Ht.
Qed.

(** The call then resumes with [a], after [mid], and goes on with [mid2]. *)
Record resumed (i : nat) (c : Call) (resolved : ResolvedAdapter)
    (request : VerificationRequest) (w2 : World) (mid : list Tick) (a : AnswerIn)
    (entry : AuditEntry) (answer : Response) (mid1 mid2 : list Tick) (w3 w4 : World) : Prop := {
  rs_ticks : mid = mid1 ++ TkAnswer i a :: mid2;
  rs_mid : do_run w2 mid1 = Some w3;
  rs_resume : resume_call inner sv c resolved request a (sh_nonces (w_shared w3))
              = (entry, answer, sh_nonces (w_shared w4));
  rs_ops : tick_audit_ops sv w3 (TkAnswer i a) = []
           ∧ tick_nonce_ops sv w3 (TkAnswer i a)
             = [OpConsume (req_nonce request) (ca_uid c) (ai_consume_now a)];
  rs_tick : do_tick w3 (TkAnswer i a) = Some w4
}.

(** How a task came to stand at the append of [entry]. *)
Definition came_to_log (w0 : World) (ts : list Tick) (w : World) (i : nat) (c : Call)
    (drawn : option nonce) (entry : AuditEntry) (answer : Response) : Prop :=
  ∃ b task before mid w1 w2, begun w0 ts w i c b task before mid w1 w2
    ∧ (task = mk_vtask c drawn (PcLogging entry (Some answer))
       ∨ ∃ resolved request a mid1 mid2 w3 w4,
           task = mk_vtask c drawn (PcWaiting resolved request)
           ∧ resumed i c resolved request w2 mid a entry answer mid1 mid2 w3 w4).

Definition story (w0 : World) (ts : list Tick) (w : World) (i : nat) (t : VTask) : Prop :=
  match vt_pc t with
  | PcStart => vt_nonce t = None
  | PcWaiting _ _ =>
      ∃ b before mid w1 w2, begun w0 ts w i (vt_call t) b t before mid w1 w2
  | PcLogging entry answer =>
      ∃ answer', answer ∈ [None; Some answer']
        ∧ came_to_log w0 ts w i (vt_call t) (vt_nonce t) entry answer'
  | PcOver entry ack answer =>
      ∃ ts1 io after w3 w4 answer1 answer', ts = ts1 ++ TkAppend i io :: after
        ∧ do_run w0 ts1 = Some w3 ∧ do_tick w3 (TkAppend i io) = Some w4 ∧ do_run w4 after = Some w
        ∧ answer1 ∈ [None; Some answer']
        ∧ came_to_log w0 ts1 w3 i (vt_call t) (vt_nonce t) entry answer'
        ∧ tick_audit_ops sv w3 (TkAppend i io) = [OpAppend entry io]
        ∧ finish_call (vt_call t) entry answer1 io (w_shared w3)
          = (PcOver entry ack answer, w_shared w4)
  end.

Lemma came_to_log_snoc w0 ts w i c drawn entry answer t w' :
  came_to_log w0 ts w i c drawn entry answer → do_tick w t = Some w' →
  came_to_log w0 (ts ++ [t]) w' i c drawn entry answer.
Proof.
  intros (b & task & before & mid & w1 & w2 & Hb & Hcase) Ht.
  exists b, task, before, (mid ++ [t]), w1, w2. split; [by eapply begun_snoc|].
  destruct Hcase as [->|(resolved & request & a & mid1 & mid2 & w3 & w4 & -> & [-> H1 H2 H3 H4])];
    [by left|right].
  exists resolved, request, a, mid1, (mid2 ++ [t]), w3, w4. split; [done|]. split; try done.
  by rewrite <-app_assoc.
Qed.

(** The story goes on while others run. *)
Lemma story_snoc w0 ts w i t tk w' :
  story w0 ts w i t → do_tick w tk = Some w' → story w0 (ts ++ [tk]) w' i t.
Proof.
  intros H Ht. unfold story in *. destruct (vt_pc t) as [|res req|entry ans|entry ack ans]; [done| | |].
  - destruct H as (b & before & mid & w1 & w2 & H). exists b, before, (mid ++ [tk]), w1, w2.
    by eapply begun_snoc.
  - destruct H as (ans' & ? & H). exists ans'. split; [done|]. by eapply came_to_log_snoc.
  - destruct H as (ts1 & io & after & w3 & w4 & a1 & a' & -> & H1 & H2 & H3 & H4 & H5 & H6 & H7).
    exists ts1, io, (after ++ [tk]), w3, w4, a1, a'. rewrite <-app_assoc. split_and!; try done.
    rewrite run_app, H3. simpl. by rewrite Ht.
Qed.

Lemma stories_set w0 ts w tk w' i t :
  map_Forall (story w0 ts w) (w_tasks w) → do_tick w tk = Some w' →
  w_tasks w' = <[i := t]> (w_tasks w) → story w0 (ts ++ [tk]) w' i t →
  map_Forall (story w0 (ts ++ [tk]) w') (w_tasks w').
Proof.
  intros Hall Ht -> Hi j t' Hj. destruct (decide (i = j)) as [<-|Hne].
  - rewrite lookup_insert_eq in Hj. by injection Hj as <-.
  - rewrite lookup_insert_ne in Hj by done. eapply story_snoc; [by apply Hall|done].
Qed.

Lemma begin_call_pc c b nonces task nonces' :
  begin_call inner sv c b nonces = (task, nonces') →
  vt_call task = c
  ∧ ((∃ entry answer, task = mk_vtask c None (PcLogging entry (Some answer)))
     ∨ ∃ resolved request, task = mk_vtask c (Some (req_nonce request)) (PcWaiting resolved request)
         ∧ resolve (sv_registry sv) (bi_health b) (ca_method c) = Ok resolved).
Proof.
  unfold begin_call. destruct (resolve _ _ _) as [r|]; cycle 1.
  { intros [= <- <-]. split; [done|]. left. by eexists _, _. }
  destruct (generate _ _ _ _) as [[] ?]; intros [= <- <-]; (split; [done|]).
  - right. by eexists r, (mk_request _ _ _ _ _).
  - left. by eexists _, _.
Qed.

Lemma story_begin w0 ts w i b c drawn w' task nonces :
  do_run w0 ts = Some w → w_tasks w !! i = Some (mk_vtask c drawn PcStart) →
  begin_call inner sv c b (sh_nonces (w_shared w)) = (task, nonces) →
  do_tick w (TkBegin i b) = Some w' → sh_nonces (w_shared w') = nonces →
  story w0 (ts ++ [TkBegin i b]) w' i task.
Proof.
  intros Hr Hi Hb Ht Hn. destruct (begin_call_pc _ _ _ _ _ Hb) as [Hc Hcase].
  assert (begun w0 (ts ++ [TkBegin i b]) w' i c b task ts [] w w') as Hbg.
  { split; try done; [by rewrite Hn|]. split; [done|]. intros n Hdr. simpl. rewrite Hi.
    destruct Hcase as [(? & ? & ->)|(? & ? & -> & ->)]; done. }
  unfold story. destruct Hcase as [(entry & answer & ->)|(resolved & request & -> & _)]; simpl.
  - exists answer. split; [set_solver|]. repeat eexists; [apply Hbg..|by left].
  - by repeat eexists; apply Hbg.
Qed.

Lemma story_answer w0 ts w i a c drawn resolved request w' entry answer nonces :
  story w0 ts w i (mk_vtask c drawn (PcWaiting resolved request)) →
  w_tasks w !! i = Some (mk_vtask c drawn (PcWaiting resolved request)) →
  resume_call inner sv c resolved request a (sh_nonces (w_shared w)) = (entry, answer, nonces) →
  do_tick w (TkAnswer i a) = Some w' → sh_nonces (w_shared w') = nonces →
  story w0 (ts ++ [TkAnswer i a]) w' i (mk_vtask c drawn (PcLogging entry (Some answer))).
Proof.
  intros (b & before & mid & w1 & w2 & Hbg) Hi Hre Ht Hn. simpl in Hbg.
  exists answer. split; [set_solver|].
  exists b, (mk_vtask c drawn (PcWaiting resolved request)), before,
    (mid ++ [TkAnswer i a]), w1, w2. split; [by eapply begun_snoc|]. right.
  exists resolved, request, a, mid, [], w, w'. split; [done|]. split; try done.
  - by destruct Hbg.
  - rewrite Hn. exact Hre.
  - simpl. by rewrite Hi.
Qed.

Lemma story_append w0 ts w i io c drawn entry answer w' pc :
  do_run w0 ts = Some w → story w0 ts w i (mk_vtask c drawn (PcLogging entry answer)) →
  w_tasks w !! i = Some (mk_vtask c drawn (PcLogging entry answer)) →
  finish_call c entry answer io (w_shared w) = (pc, w_shared w') →
  do_tick w (TkAppend i io) = Some w' →
  story w0 (ts ++ [TkAppend i io]) w' i (mk_vtask c drawn pc).
Proof.
  intros Hr (answer' & Hin & Hcame) Hi Hf Ht. simpl in Hcame.
  assert (∃ ack ans, pc = PcOver entry ack ans) as (ack & ans & ->).
  { unfold finish_call in Hf. destruct (log _ _ _) as [[] ?]; simplify_eq; eauto. }
  exists ts, io, [], w, w', answer, answer'. split_and!; try done. simpl. by rewrite Hi.
Qed.

Lemma run_story w0 ts w :
  w_tasks w0 = ∅ → do_run w0 ts = Some w → map_Forall (story w0 ts w) (w_tasks w).
Proof.
  intros H0. revert w. induction ts as [|tk ts IH] using rev_ind; intros w Hr.
  { simpl in Hr. simplify_eq. rewrite H0. apply map_Forall_empty. }
  rewrite run_app in Hr. destruct (do_run w0 ts) as [w1|] eqn:Hr1; [|done]. simpl in Hr.
  destruct (do_tick w1 tk) as [w'|] eqn:Ht; [|done]. simpl in Hr. injection Hr as <-.
  specialize (IH w1 eq_refl). pose proof Ht as Ht'.
  assert (w_tasks w' = w_tasks w1 → map_Forall (story w0 (ts ++ [tk]) w') (w_tasks w')) as Hsame.
  { intros -> j t' Hj. eapply story_snoc; [by apply IH|done]. }
  destruct tk as [i peer line now|i b|i a|i io|i|now|now|fs|fs]; simpl in Ht.
  - destruct (w_tasks w1 !! i) eqn:Hi; [done|].
    destruct (line_call _ _ _ _ _ _) as [[c|] sh]; injection Ht as <-; [|by apply Hsame].
    by eapply stories_set.
  - destruct (w_tasks w1 !! i) as [[c drawn []]|] eqn:Hi; try done.
    destruct (begin_call inner sv c b _) as [task nonces] eqn:Hb. injection Ht as Hw'.
    eapply stories_set; [done|done|by rewrite <-Hw'|]. eapply story_begin; eauto.
    by rewrite <-Hw'.
  - destruct (w_tasks w1 !! i) as [[c drawn [|resolved request| |]]|] eqn:Hi; try done.
    destruct (resume_call inner sv c resolved request a _) as [[entry answer] nonces] eqn:Hre.
    injection Ht as Hw'. eapply stories_set; [done|done|by rewrite <-Hw'|].
    eapply story_answer; eauto. by rewrite <-Hw'.
  - destruct (w_tasks w1 !! i) as [[c drawn [| |entry answer|]]|] eqn:Hi; try done.
    destruct (finish_call c entry answer io _) as [pc sh] eqn:Hf. injection Ht as Hw'.
    eapply stories_set; [done|done|by rewrite <-Hw'|]. eapply story_append; eauto.
    by rewrite Hf, <-Hw'.
  - destruct (w_tasks w1 !! i) as [[c drawn pc]|] eqn:Hi; [|done].
    assert (w_tasks w' = delete i (w_tasks w1) →
      map_Forall (story w0 (ts ++ [TkCancel i]) w') (w_tasks w')) as Hdel.
    { intros -> j t' [_ Hj]%lookup_delete_Some. eapply story_snoc; [by apply IH|done]. }
    destruct pc as [| |entry answer|]; [apply Hdel; by simplify_eq..| |done].
    injection Ht as <-. eapply stories_set; [done|done|done|].
    destruct (IH i _ Hi) as (answer' & _ & Hcame). exists answer'. split; [set_solver|].
    by eapply came_to_log_snoc.
  - apply Hsame. by simplify_eq.
  - apply Hsame. by simplify_eq.
  - apply Hsame. by simplify_eq.
  - apply Hsame. by simplify_eq.
Qed.

(** ** Lemmas: from the story to the sequential function *)

(** What an evaluation of [handle_verify_once] is given: the readings of the
    pieces, and the operations of the others. *)
Definition env_of (b : BeginIn) (a : AnswerIn) (ops : list NonceOp)
    (audit_ops : list AuditOp) (io : LogIo) : VerifyEnv :=
  mk_venv (bi_health b) (bi_rand b) (bi_generate_now b) (bi_uuid b) (bi_request_now b)
    (ai_health a) (ai_permit a) (ai_exchange a) ops (ai_deadline_now a) (ai_consume_now a)
    (ai_policy_now a) (ai_entry_now a) audit_ops io.

(** For a call that never came to its answer. *)
Definition no_answer (b : BeginIn) : AnswerIn :=
  mk_answer (bi_health b) Elapsed (mk_exchange Elapsed None Elapsed Elapsed) 0 0 0
    (bi_entry_now b).

(** The log as the append finds it. *)
Lemma closing_finish sh sh3 c entry answer ack resp pc_sh env io :
  sh_audit sh3 = audit_before sh env → ve_log_io env = io →
  finish_call c entry (Some answer) io sh3 = (PcOver entry ack (Some resp), pc_sh) →
  (closing sh (ca_id c) entry answer env).1 = resp
  ∧ sh_audit (closing sh (ca_id c) entry answer env).2 = sh_audit pc_sh.
Proof.
  intros Ha Hio. unfold finish_call, closing, logged. rewrite Ha, Hio.
  by destruct (log _ _ _) as [[[]|] ?]; intros [= <- <- <-].
Qed.

Lemma begin_waiting_entry_now c b b' nonces drawn resolved request nonces' :
  begin_call inner sv c b nonces = (mk_vtask c drawn (PcWaiting resolved request), nonces') →
  b' = mk_begin (bi_health b) (bi_rand b) (bi_generate_now b) (bi_uuid b) (bi_request_now b)
         (bi_entry_now b') →
  begin_call inner sv c b' nonces = (mk_vtask c drawn (PcWaiting resolved request), nonces')
  ∧ drawn = Some (req_nonce request)
  ∧ (generate nonces (ca_uid c) (bi_rand b) (bi_generate_now b)).1 = Ok (req_nonce request).
Proof.
  intros H ->. revert H. unfold begin_call. simpl. destruct (resolve _ _ _); [|done].
  by destruct (generate _ _ _ _) as [[] ?]; intros [= <- <- <- <-].
Qed.

(** The evaluation that explains a task that stands at its append; [mid] are
    the ticks since it began. *)
Lemma came_to_log_sequential w0 ts w i c drawn entry answer io :
  came_to_log w0 ts w i c drawn entry answer →
  ∃ before mid w1 env sh', ts = before ++ mid
    ∧ do_run w0 before = Some w1 ∧ do_run w1 mid = Some w
    ∧ ve_audit_ops env = audit_ops_of w1 mid ∧ ve_log_io env = io
    ∧ sh_audit sh' = sh_audit (w_shared w1)
    ∧ sequential inner sv c (w_shared w1) env = closing sh' (ca_id c) entry answer env
    ∧ ∀ n, drawn = Some n →
        (generate (sh_nonces (w_shared w1)) (ca_uid c) (ve_rand env) (ve_generate_now env)).1
          = Ok n
        ∧ ∃ rest, nonce_ops_of w1 mid
            = OpGenerate (ca_uid c) (ve_rand env) (ve_generate_now env) :: ve_nonce_ops env
              ++ OpConsume n (ca_uid c) (ve_consume_now env) :: rest.
Proof.
  intros (b & task & before & mid & w1 & w2 & [-> H1 H2 [H3 H3'] H4 H5] & Hcase).
  assert (do_run w1 (TkBegin i b :: mid) = Some w) as Hmid.
  { change (do_tick w1 (TkBegin i b) ≫= (λ w, do_run w mid) = Some w). by rewrite H4. }
  set (appends := audit_ops_of w1 (TkBegin i b :: mid)).
  destruct Hcase as [->|(resolved & request & a & mid1 & mid2 & w3 & w4 & -> & Hre)].
  - exists before, (TkBegin i b :: mid), w1, (env_of b (no_answer b) [] appends io),
      (with_nonces (w_shared w1) (sh_nonces (w_shared w2))).
    destruct (sequential_refused inner sv c (w_shared w1)
      (env_of b (no_answer b) [] appends io) drawn entry answer (sh_nonces (w_shared w2)))
      as [-> Hs]; [by destruct b|].
    by split_and!.
  - destruct Hre as [-> R1 R2 [R3 R4] R5].
    set (env := env_of b a (nonce_ops_of w2 mid1) appends io).
    destruct (begin_waiting_entry_now c b (env_begin env) _ _ _ _ _ H2 eq_refl)
      as (Hbeg & -> & Hgen).
    destruct (run_stores _ _ _ R1) as [Hn _].
    destruct (sequential_answered inner sv c (w_shared w1) env _ resolved request entry answer
      (sh_nonces (w_shared w2)) (sh_nonces (w_shared w4)) Hbeg) as [_ Hs].
    { simpl. rewrite <-Hn. by destruct a. }
    exists before, (TkBegin i b :: mid1 ++ TkAnswer i a :: mid2), w1, env,
      (with_nonces (w_shared w1) (sh_nonces (w_shared w4))).
    split_and!; try done. intros n [= <-]. split; [done|].
    exists (nonce_ops_of w4 mid2). change (nonce_ops_of w1 (TkBegin i b :: ?l)) with
      (tick_nonce_ops sv w1 (TkBegin i b)
       ++ from_option (λ w, nonce_ops_of w l) [] (do_tick w1 (TkBegin i b))).
    rewrite (H3' _ eq_refl), H4. simpl. f_equal.
    destruct (run_ops_app _ _ (TkAnswer i a :: mid2) _ R1) as [-> _]. f_equal.
    change (nonce_ops_of w3 (TkAnswer i a :: mid2)) with
      (tick_nonce_ops sv w3 (TkAnswer i a)
       ++ from_option (λ w, nonce_ops_of w mid2) [] (do_tick w3 (TkAnswer i a))).
    by rewrite R4, R5.
Qed.

(** A task that answered [resp], over the entry [entry], in terms of the
    sequential function: where in the run it began and ended, and the
    evaluation that gives the same answer. *)
Definition explained (w0 : World) (ts : list Tick) (w : World) (t : VTask) (entry : AuditEntry)
    (resp : Response) : Prop :=
  let c := vt_call t in
  ∃ before mid after w1 w2 env sh',
    ts = before ++ mid ++ after
    ∧ do_run w0 before = Some w1 ∧ do_run w1 mid = Some w2 ∧ do_run w2 after = Some w
    ∧ handle_verify_once inner sv (ca_reloadable c) (w_shared w1) (ca_caller c) (ca_uid c)
        (ca_method c) (ca_id c) env = (resp, sh')
    ∧ sh_audit sh' = sh_audit (w_shared w2)
    ∧ audit_ops_of w1 mid = ve_audit_ops env ++ [OpAppend entry (ve_log_io env)]
    ∧ ∀ n, vt_nonce t = Some n →
        (generate (sh_nonces (w_shared w1)) (ca_uid c) (ve_rand env) (ve_generate_now env)).1
          = Ok n
        ∧ ∃ rest, nonce_ops_of w1 mid
            = OpGenerate (ca_uid c) (ve_rand env) (ve_generate_now env) :: ve_nonce_ops env
              ++ OpConsume n (ca_uid c) (ve_consume_now env) :: rest.

Lemma run_explained w0 ts w i t entry ack resp :
  w_tasks w0 = ∅ → do_run w0 ts = Some w →
  w_tasks w !! i = Some t → vt_pc t = PcOver entry ack (Some resp) →
  explained w0 ts w t entry resp.
Proof.
  intros H0 Hr Hi Hpc. unfold explained. pose proof (run_story _ _ _ H0 Hr i t Hi) as Hst.
  unfold story in Hst. rewrite Hpc in Hst.
  destruct Hst as (ts1 & io & after & w3 & w4 & answer1 & answer & -> & R1 & R2 & R3 & Hin & Hcame
    & Hap & Hfin).
  assert (answer1 = Some answer) as ->.
  { unfold finish_call in Hfin. destruct answer1; [set_solver|].
    by destruct (log _ _ _) as [[] ?]. }
  destruct (came_to_log_sequential _ _ _ _ _ _ _ _ io Hcame)
    as (before & mid & w1 & env & sh' & -> & B1 & B2 & Hops & Hio & Haud & Hseq & Hnonce).
  destruct (closing_finish sh' (w_shared w3) (vt_call t) entry answer ack resp (w_shared w4) env io)
    as [Hresp Haudit]; [|done|done|].
  { unfold audit_before. rewrite Haud, Hops. by apply run_stores in B2 as [_ ?]. }
  destruct (closing sh' (ca_id (vt_call t)) entry answer env) as [resp' sh2] eqn:Hcl.
  simpl in Hresp, Haudit. subst resp'.
  destruct (run_ops_app _ _ [TkAppend i io] _ B2) as [Hn Ha].
  exists before, (mid ++ [TkAppend i io]), after, w1, w4, env, sh2.
  split_and!; try done.
  - by rewrite <-!app_assoc.
  - rewrite run_app, B2. change (do_tick w3 (TkAppend i io) ≫= (λ w, do_run w []) = Some w4).
    by rewrite R2.
  - rewrite Ha, Hops, Hio. f_equal.
    change (tick_audit_ops sv w3 (TkAppend i io)
      ++ from_option (λ w, audit_ops_of w []) [] (do_tick w3 (TkAppend i io)) = [OpAppend entry io]).
    rewrite Hap, R2. done.
  - intros n Hd. destruct (Hnonce n Hd) as [? (rest & Hrest)]. split; [done|].
    exists (rest ++ nonce_ops_of w3 [TkAppend i io]). rewrite Hn, Hrest.
    by rewrite <-app_comm_cons, <-app_assoc.
Qed.

(** The line that led to a call. *)
Definition read_from (w0 : World) (ts : list Tick) (i : nat) (c : Call) : Prop :=
  ∃ before peer line now after w1 sh, ts = before ++ TkLine i peer line now :: after
    ∧ do_run w0 before = Some w1
    ∧ line_call sv (w_reloadable w1) peer line now (w_shared w1) = (Some c, sh).

Lemma read_from_snoc w0 ts i c t : read_from w0 ts i c → read_from w0 (ts ++ [t]) i c.
Proof.
  intros (before & peer & line & now & after & w1 & sh & -> & H). eexists before, _, _, _, _, w1, sh.
  by rewrite <-app_assoc.
Qed.

(** A piece keeps the calls of the tasks; only a line brings a new one. *)
Lemma tick_calls w t w' j u :
  do_tick w t = Some w' → w_tasks w' !! j = Some u →
  (∃ u', w_tasks w !! j = Some u' ∧ vt_call u' = vt_call u)
  ∨ ∃ peer line now sh, t = TkLine j peer line now
      ∧ line_call sv (w_reloadable w) peer line now (w_shared w) = (Some (vt_call u), sh).
Proof.
  intros Ht Hj.
  assert (∀ i x y, w_tasks w !! i = Some x → vt_call y = vt_call x →
    w_tasks w' = <[i := y]> (w_tasks w) →
    ∃ u', w_tasks w !! j = Some u' ∧ vt_call u' = vt_call u) as Hset.
  { intros i x y Hx Hc E. rewrite E in Hj. destruct (decide (i = j)) as [->|].
    - rewrite lookup_insert_eq in Hj. injection Hj as <-. by eauto.
    - rewrite lookup_insert_ne in Hj by done. by eauto. }
  destruct t as [i peer line now|i b|i a|i io|i|now|now|fs|fs]; simpl in Ht;
    try (injection Ht as <-; by eauto).
  - destruct (w_tasks w !! i) eqn:Hi; [done|].
    destruct (line_call _ _ _ _ _ _) as [[c|] sh] eqn:Hl; injection Ht as <-; [|by eauto].
    simpl in Hj. destruct (decide (i = j)) as [->|].
    + rewrite lookup_insert_eq in Hj. injection Hj as <-. right. by eexists _, _, _, _.
    + rewrite lookup_insert_ne in Hj by done. by eauto.
  - destruct (w_tasks w !! i) as [[c drawn []]|] eqn:Hi; try done.
    destruct (begin_call _ _ _ _ _) as [task nonces] eqn:Hb. injection Ht as <-.
    apply begin_call_pc in Hb as [Hc _]. left. by eapply (Hset i); [exact Hi| |reflexivity].
  - destruct (w_tasks w !! i) as [[c drawn []]|] eqn:Hi; try done.
    destruct (resume_call _ _ _ _ _ _ _) as [[? ?] ?]. injection Ht as <-.
    left. by eapply (Hset i); [exact Hi| |reflexivity].
  - destruct (w_tasks w !! i) as [[c drawn []]|] eqn:Hi; try done.
    destruct (finish_call _ _ _ _ _) as [? ?]. injection Ht as <-.
    left. by eapply (Hset i); [exact Hi| |reflexivity].
  - left. destruct (w_tasks w !! i) as [[c drawn []]|] eqn:Hi; try done; injection Ht as <-;
      [simpl in Hj; apply lookup_delete_Some in Hj as [_ Hj]; by eauto..
      |by eapply (Hset i); [exact Hi| |reflexivity]].
Qed.

Lemma run_read_from w0 ts w i t :
  w_tasks w0 = ∅ → do_run w0 ts = Some w → w_tasks w !! i = Some t → read_from w0 ts i (vt_call t).
Proof.
  intros H0. revert w t. induction ts as [|tk ts IH] using rev_ind; intros w u Hr Hj.
  { simpl in Hr. simplify_eq. by rewrite H0 in Hj. }
  rewrite run_app in Hr. destruct (do_run w0 ts) as [w1|] eqn:Hr1; [|done]. simpl in Hr.
  destruct (do_tick w1 tk) as [w'|] eqn:Ht; [|done]. simpl in Hr. injection Hr as <-.
  destruct (tick_calls _ _ _ _ _ Ht Hj) as [(u' & Hu & <-)|(peer & line & now & sh & -> & Hl)].
  - apply read_from_snoc. by eapply IH.
  - by eexists ts, peer, line, now, [], w1, sh.
Qed.

(** The reading of a line, its call and the rest of it are [handle_line]. *)
Lemma line_call_handles peer line now sh le :
  le_rate_ops le = [] → le_rate_now le = now →
  match line_call sv (le_reloadable le) peer line now sh with
  | (Some c, sh') =>
      handle_line inner sv peer line le (with_metrics sh inc_requests)
      = (Reply (sequential inner sv c sh' (le_verify le)).1,
         (sequential inner sv c sh' (le_verify le)).2)
  | (None, sh') =>
      (handle_line inner sv peer line le (with_metrics sh inc_requests)).2 = sh'
      ∧ ∀ resp, (handle_line inner sv peer line le (with_metrics sh inc_requests)).1 = Reply resp →
          decision_of resp = None
  end.
Proof.
  intros Hops <-. unfold line_call, handle_line. rewrite Hops.
  destruct (negb (is_allowed _ _ _)); [done|]. simpl.
  destruct (check _ _ _ _) as [[] rate]; simpl; [|done].
  destruct (request_from_str line) as [req|e]; simpl; [|by split; [|intros resp [= <-]]].
  destruct (rq_version req =? PROTOCOL_VERSION); simpl; [|by split; [|intros resp [= <-]]].
  unfold handle_request.
  destruct (decide (rq_method req = "ping")) as [->|].
  { split; [done|by intros resp [= <-]]. }
  rewrite (bool_decide_eq_false_2 (rq_method req = "ping")) by done.
  destruct (decide (rq_method req = "status")) as [->|].
  { split; [done|by intros resp [= <-]]. }
  rewrite (bool_decide_eq_false_2 (rq_method req = "status")) by done.
  destruct (decide (rq_method req = "list_methods")) as [->|].
  { split; [done|by intros resp [= <-]]. }
  rewrite (bool_decide_eq_false_2 (rq_method req = "list_methods")) by done.
  rewrite (bool_decide_eq_false_2 (_ ∈ _)) by set_solver.
  case_bool_decide; [|by split; [|intros resp [= <-]]].
  destruct (request_uid peer (rq_params req)) as [uid|]; [|done].
  destruct (request_method (rq_params req)) as [method|]; [|done].
  unfold sequential. simpl. by destruct (handle_verify_once _ _ _ _ _ _ _ _ _).
Qed.

(** The two pieces of a reload are [reload_state]. *)
Lemma reload_pieces fs w :
  do_run w [TkReload fs; TkReopen fs]
  = let '(rl, sh) := reload_state toml_policy fs sv (w_reloadable w) (w_shared w) in
    Some (mk_world rl sh (w_tasks w)).
Proof.
  simpl. unfold reload_state, reload_config, reload_log.
  by destruct (AuditLog.reopen _ _ _) as [[] ?].
Qed.

(** C3: the code as it runs is the code as it reads.  Take any interleaving
    of any number of verifications, from the line that asks for them to their
    answer, with cancellations, the cleanup tasks and the two pieces of
    reloads.  Whatever a verification answered is what one evaluation of
    [handle_verify_once], from the state in which it began, answers when the
    others' operations in between are those the interleaving made: the
    appends and reopenings of the log before its own append, and the nonce
    operations between the drawing and the spending of its nonce.  That
    evaluation leaves the audit log as the interleaving has it after the
    append.  Its arguments are those of the line that was read, under the
    configuration then loaded: with its first part the evaluation makes up
    [handle_line]; and the two pieces of a reload make up [reload_state]. *)
Theorem interleaving_refines w0 ts w i t entry ack resp :
  w_tasks w0 = ∅ → do_run w0 ts = Some w →
  w_tasks w !! i = Some t → vt_pc t = PcOver entry ack (Some resp) →
  let c := vt_call t in
  (∃ before mid after w1 w2 env sh',
    ts = before ++ mid ++ after
    ∧ do_run w0 before = Some w1 ∧ do_run w1 mid = Some w2 ∧ do_run w2 after = Some w
    ∧ handle_verify_once inner sv (ca_reloadable c) (w_shared w1) (ca_caller c) (ca_uid c)
        (ca_method c) (ca_id c) env = (resp, sh')
    ∧ sh_audit sh' = sh_audit (w_shared w2)
    ∧ audit_ops_of w1 mid = ve_audit_ops env ++ [OpAppend entry (ve_log_io env)]
    ∧ ∀ n, vt_nonce t = Some n →
        (generate (sh_nonces (w_shared w1)) (ca_uid c) (ve_rand env) (ve_generate_now env)).1
          = Ok n
        ∧ ∃ rest, nonce_ops_of w1 mid
            = OpGenerate (ca_uid c) (ve_rand env) (ve_generate_now env) :: ve_nonce_ops env
              ++ OpConsume n (ca_uid c) (ve_consume_now env) :: rest)
  ∧ (∃ before peer line now after w1 sh, ts = before ++ TkLine i peer line now :: after
      ∧ do_run w0 before = Some w1
      ∧ line_call sv (w_reloadable w1) peer line now (w_shared w1) = (Some c, sh)
      ∧ ∀ le, le_reloadable le = w_reloadable w1 → le_rate_ops le = [] → le_rate_now le = now →
          handle_line inner sv peer line le (with_metrics (w_shared w1) inc_requests)
          = let '(r, sh') := handle_verify_once inner sv (ca_reloadable c) sh (ca_caller c)
                               (ca_uid c) (ca_method c) (ca_id c) (le_verify le) in
            (Reply r, sh'))
  ∧ ∀ fs, do_run w [TkReload fs; TkReopen fs]
          = let '(rl, sh) := reload_state toml_policy fs sv (w_reloadable w) (w_shared w) in
            Some (mk_world rl sh (w_tasks w)).
Proof.
  intros H0 Hr Hi Hpc c. split; [exact (run_explained _ _ _ _ _ _ _ _ H0 Hr Hi Hpc)|].
  split; [|intros fs; apply reload_pieces].
  destruct (run_read_from _ _ _ _ _ H0 Hr Hi)
    as (before & peer & line & now & after & w1 & sh & Hts & Hr1 & Hl).
  exists before, peer, line, now, after, w1, sh. split_and!; try done. intros le Hrl Hops Hnow.
  pose proof (line_call_handles peer line now (w_shared w1) le Hops Hnow) as Hh.
  rewrite Hrl, Hl in Hh. rewrite Hh. unfold sequential. fold c.
  by destruct (handle_verify_once _ _ _ _ _ _ _ _ _).
Qed.
End Runs.

(** ** A concrete interleaving *)

(** Three lines of one user, each asking for a verification under its own
    text as the id.  The second is answered out of turn, over a nonce that is
    not its own; the third is cancelled while it waits; the log is rotated
    between the two appends. *)
Definition trio_serde : ServerSerde := {|
  request_from_str := λ line,
    if decide (line ∈ ["a"; "b"; "c"; "x"])
    then Ok (mk_rq 1 (Some line) "verify_once" (Some (VObject [("method", VString "fido2")])))
    else Err "no request";
  response_to_string := λ _, Some "response"
|}.

Definition trio_call (id : string) : Call :=
  mk_call demo_reloadable 1000 1000 "fido2" (Some id).

Definition trio_begin (n : nonce) : BeginIn :=
  mk_begin demo_health (λ _, Some n) (secs 5) (res_id signed_result) (secs 1) (secs 1).

Definition trio_answer : AnswerIn :=
  mk_answer demo_health (Done true)
    (mk_exchange (Done None) (Some 991) (Done true) (Done (Some (Some "answer"))))
    (secs 2) (secs 7) (secs 2) (secs 2).

Definition trio_ticks : list Tick :=
  [ TkLine 0 1000 "a" (secs 4); TkReload start_fs; TkLine 1 1000 "b" (secs 4);
    TkBegin 1 (trio_begin (sample_nonce "b")); TkBegin 0 (trio_begin (res_nonce signed_result));
    TkLine 7 1001 "x" (secs 4); TkLine 2 1000 "c" (secs 4); TkSweep (secs 5);
    TkBegin 2 (trio_begin (sample_nonce "c"));
    TkAnswer 1 trio_answer; TkClean (secs 6); TkAnswer 0 trio_answer; TkCancel 2;
    TkAppend 1 io_fine; TkReopen start_fs; TkAppend 0 io_fine ].

Definition trio_start : World := mk_world demo_reloadable demo_shared ∅.

Definition trio_run (ts : list Tick) : option World :=
  @run sample_crypto sample_serde demo_wire trio_serde (λ _, "inner") start_policy demo_server
    trio_start ts.

Definition trio_end : World := default trio_start (trio_run trio_ticks).

Definition trio_task (i : nat) : VTask :=
  default (mk_vtask (trio_call "a") None PcStart) (w_tasks trio_end !! i).

Definition trio_entry (i : nat) : AuditEntry :=
  match vt_pc (trio_task i) with PcOver entry _ _ => entry | _ => sample_entry end.

Lemma trio_runs : trio_run trio_ticks = Some trio_end.
Proof. vm_compute. reflexivity. Qed.

Example trio_answers :
  (λ i, match vt_pc (trio_task i) with PcOver _ _ r => r | _ => None end) <$> [0; 1; 2; 7]%nat
  = [Some (response_allow (Some "a") "fido2");
     Some (response_deny (Some "b") "nonce mismatch detected"); None; None].
Proof. vm_compute. reflexivity. Qed.

Lemma interleaving_refines_witness :
  let c := vt_call (trio_task 0) in
  (∃ before mid after w1 w2 env sh',
    trio_ticks = before ++ mid ++ after
    ∧ trio_run before = Some w1
    ∧ @run sample_crypto sample_serde demo_wire trio_serde (λ _, "inner") start_policy demo_server
        w1 mid = Some w2
    ∧ @run sample_crypto sample_serde demo_wire trio_serde (λ _, "inner") start_policy demo_server
        w2 after = Some trio_end
    ∧ @handle_verify_once sample_crypto sample_serde demo_wire (λ _, "inner") demo_server
        (ca_reloadable c) (w_shared w1) (ca_caller c) (ca_uid c) (ca_method c) (ca_id c) env
      = (response_allow (Some "a") "fido2", sh')
    ∧ sh_audit sh' = sh_audit (w_shared w2))
  ∧ ∃ before peer line now after w1 sh, trio_ticks = before ++ TkLine 0 peer line now :: after
      ∧ trio_run before = Some w1
      ∧ @line_call trio_serde demo_server (w_reloadable w1) peer line now (w_shared w1)
        = (Some c, sh).
Proof.
  destruct (@interleaving_refines sample_crypto sample_serde demo_wire trio_serde (λ _, "inner")
              start_policy demo_server trio_start trio_ticks trio_end 0 (trio_task 0)
              (trio_entry 0) true (response_allow (Some "a") "fido2"))
    as ((before & mid & after & w1 & w2 & env & sh' & H1 & H2 & H3 & H4 & H5 & H6 & _)
        & (b & peer & line & now & rest & w3 & sh & L1 & L2 & L3 & _) & _).
  - reflexivity.
  - exact trio_runs.
  - vm_compute. reflexivity.
  - vm_compute. reflexivity.
  - split; [exists before, mid, after, w1, w2, env, sh'|exists b, peer, line, now, rest, w3, sh];
      repeat (split; [assumption|]); assumption.
Defined.
