(* ===== verification/Concurrency.v ===== *)
(** * What holds of every interleaving of verifications

    Invariants of the runs of [Interleave]: the machine types are kept, the
    evidence over a nonce backs at most as many allows as that nonce was
    spent, the audit log holds exactly the decisions that were made, and
    what a reload revokes stays revoked. *)

From S2P Require Import Prelude RustStd Types SecureFs Policy Nonce RateLimit Allowlist.
From S2P Require Import Attestation AuditEntry AuditLog AuditChain Health Json Client AdapterConfig Registry Config Metrics.
From S2P Require Import Privilege Socket Server Typing Startup Decision Interleave.
Open Scope Z_scope.

(** ** Invariants of tasks *)

Section Invariants.
Context {C : Crypto} {SD : AuditSerde} {W : WireSerde} {SS : ServerSerde}.
Context (inner : AdapterError → string).
Context (toml_policy : string → option (list RawRule)).
Context (sv : Server).

#[local] Abbreviation do_tick := (tick inner toml_policy sv).
#[local] Abbreviation do_run := (run inner toml_policy sv).

(** A property of tasks that every piece keeps, at the inputs of [t]. *)
Record kept (P : VTask → Prop) (w : World) (t : Tick) : Prop := {
  kept_line : ∀ i peer line now c sh, t = TkLine i peer line now →
    line_call sv (w_reloadable w) peer line now (w_shared w) = (Some c, sh) →
    P (mk_vtask c None PcStart);
  kept_begin : ∀ i b c drawn, t = TkBegin i b → P (mk_vtask c drawn PcStart) →
    P (begin_call inner sv c b (sh_nonces (w_shared w))).1;
  kept_answer : ∀ i a c drawn resolved request entry answer nonces, t = TkAnswer i a →
    P (mk_vtask c drawn (PcWaiting resolved request)) →
    resume_call inner sv c resolved request a (sh_nonces (w_shared w))
      = (entry, answer, nonces) →
    P (mk_vtask c drawn (PcLogging entry (Some answer)));
  kept_append : ∀ i io c drawn entry answer pc sh, t = TkAppend i io →
    P (mk_vtask c drawn (PcLogging entry answer)) →
    finish_call c entry answer io (w_shared w) = (pc, sh) → P (mk_vtask c drawn pc);
  kept_cancel : ∀ c drawn entry answer,
    P (mk_vtask c drawn (PcLogging entry answer)) → P (mk_vtask c drawn (PcLogging entry None))
}.

Lemma tick_kept P w t w' :
  kept P w t → do_tick w t = Some w' → map_Forall (λ _, P) (w_tasks w) →
  map_Forall (λ _, P) (w_tasks w').
Proof.
  intros [K1 K2 K3 K4 K5] Ht Hall.
  assert (∀ i x, w_tasks w' = <[i := x]> (w_tasks w) → P x →
    map_Forall (λ _, P) (w_tasks w')) as Hset.
  { intros i x -> Hx. by apply map_Forall_insert_2. }
  destruct t as [i peer line now|i b|i a|i io|i|now|now|fs|fs]; simpl in Ht;
    try by injection Ht as <-.
  - destruct (w_tasks w !! i); [done|].
    destruct (line_call _ _ _ _ _ _) as [[c|] sh] eqn:Hl; injection Ht as <-; [|done].
    eapply Hset; [done|by eapply K1].
  - destruct (w_tasks w !! i) as [[c drawn []]|] eqn:Hi; try done.
    pose proof (K2 i b c drawn eq_refl (Hall i _ Hi)) as Hb.
    destruct (begin_call _ _ _ _ _) as [task nonces]. injection Ht as <-. by eapply Hset.
  - destruct (w_tasks w !! i) as [[c drawn []]|] eqn:Hi; try done.
    destruct (resume_call _ _ _ _ _ _ _) as [[entry answer] nonces] eqn:Hre. injection Ht as <-.
    eapply Hset; [done|]. eapply K3; [done|by apply (Hall i)|done].
  - destruct (w_tasks w !! i) as [[c drawn []]|] eqn:Hi; try done.
    destruct (finish_call _ _ _ _ _) as [pc sh] eqn:Hf. injection Ht as <-.
    eapply Hset; [done|]. eapply K4; [done|by apply (Hall i)|done].
  - destruct (w_tasks w !! i) as [[c drawn []]|] eqn:Hi; try done; injection Ht as <-;
      [by apply map_Forall_delete..|].
    eapply Hset; [done|]. eapply K5. by apply (Hall i).
Qed.

(** Properties of worlds that hold along a run, at inputs that satisfy [Q]. *)
Lemma run_invariant (I : World → Prop) (Q : Tick → Prop) ts : ∀ w w',
  (∀ w t w', I w → Q t → do_tick w t = Some w' → I w') →
  I w → Forall Q ts → do_run w ts = Some w' → I w'.
Proof.
  induction ts as [|t ts IH]; intros w w' Hst Hi Hq Hr; simpl in Hr; [by simplify_eq|].
  apply Forall_cons in Hq as [Ht Hq]. destruct (do_tick w t) as [w1|] eqn:Htk; [|done].
  apply (IH w1); eauto.
Qed.

(** ** Entries and answers belong to their call *)

Definition records (c : Call) (entry : AuditEntry) : Prop :=
  ae_caller_uid entry = ca_caller c ∧ ae_uid entry = ca_uid c ∧ ae_request_id entry = ca_id c.

Definition task_ok (t : VTask) : Prop :=
  let c := vt_call t in
  match vt_pc t with
  | PcStart => vt_nonce t = None
  | PcWaiting _ request => vt_nonce t = Some (req_nonce request)
  | PcLogging entry answer =>
      records c entry ∧ (ae_decision entry = "allow" → is_Some (vt_nonce t))
      ∧ ∀ r, answer = Some r → decision_of r = Some (ae_decision entry) ∧ rs_error r = None
  | PcOver entry ack answer =>
      records c entry ∧ (ae_decision entry = "allow" → is_Some (vt_nonce t))
      ∧ ∀ r, answer = Some r →
          if ack then decision_of r = Some (ae_decision entry) ∧ rs_error r = None
          else r = response_error (ca_id c) "audit failed"
  end.

Lemma deny_fields now caller uid method reason adapter id res :
  let e := deny now caller uid method reason adapter id res in
  ae_caller_uid e = caller ∧ ae_uid e = uid ∧ ae_request_id e = id ∧ ae_decision e = "deny".
Proof. unfold deny. by destruct (default _ _) as [[? ?] ?]. Qed.

Lemma judge_ok c resolved request answer spent a entry resp :
  judge inner sv c resolved request answer spent a = (entry, resp) →
  records c entry ∧ decision_of resp = Some (ae_decision entry) ∧ rs_error resp = None
  ∧ (ae_decision entry = "allow" → spent = Ok tt).
Proof.
  assert (∀ method reason reason' adapter res entry resp,
    (deny (ai_entry_now a) (ca_caller c) (ca_uid c) method reason adapter (ca_id c) res,
     response_deny (ca_id c) reason') = (entry, resp) →
    records c entry ∧ decision_of resp = Some (ae_decision entry) ∧ rs_error resp = None
    ∧ (ae_decision entry = "allow" → spent = Ok tt)) as Hdeny.
  { intros method reason reason' adapter res e r [= <- <-].
    destruct (deny_fields (ai_entry_now a) (ca_caller c) (ca_uid c) method reason adapter
      (ca_id c) res) as (E1 & E2 & E3 & E4).
    split; [done|]. rewrite E4. by split_and!. }
  unfold judge. destruct answer as [result|e]; [|apply Hdeny].
  case_bool_decide; [apply Hdeny|]. destruct (_ <? _); [apply Hdeny|].
  destruct spent as [[]|e]; [|apply Hdeny].
  destruct (if require_attestation _ then _ else _); [|apply Hdeny].
  destruct (negb _); [apply Hdeny|]. intros [= <- <-]. by destruct (evaluate _ _ _).
Qed.

Lemma task_ok_kept w t : kept task_ok w t.
Proof.
  split; [done| | | |].
  - intros i b c drawn _ Hok. unfold begin_call.
    assert (∀ method reason adapter, task_ok (mk_vtask c None
      (PcLogging (deny (bi_entry_now b) (ca_caller c) (ca_uid c) method reason adapter (ca_id c)
         None) (Some (response_deny (ca_id c) reason))))) as Hdeny
      by (intros; split_and!; [done..|by intros r [= <-]]).
    destruct (resolve _ _ _); [|apply Hdeny].
    destruct (generate _ _ _ _) as [[] ?]; [done|apply Hdeny].
  - intros i a c drawn resolved request entry answer nonces _ Hdrawn. unfold resume_call.
    destruct (dispatch_resolved _ _ _ _ _) as [ans ?], (consume _ _ _ _) as [spent ?].
    intros [= Hj _]. apply judge_ok in Hj as (? & ? & ? & _). split; [done|].
    split; [|by intros r [= <-]]. intros _. rewrite (Hdrawn : drawn = _). eauto.
  - intros i io c drawn entry answer pc sh _ (Hrec & Hn & Hans). unfold finish_call.
    destruct (log _ _ _) as [[] ?]; intros [= <- _]; (split_and!; [done..|]); simpl; [done|].
    intros r Hr. by destruct answer; simplify_eq/=.
  - intros c drawn entry answer (? & ? & _). by split_and!.
Qed.

Lemma run_task_ok w0 ts w :
  w_tasks w0 = ∅ → do_run w0 ts = Some w → map_Forall (λ _, task_ok) (w_tasks w).
Proof.
  intros H0. apply (run_invariant (λ w, map_Forall (λ _, task_ok) (w_tasks w)) (λ _, True)).
  - intros w1 t w' Hw _ Ht. eapply tick_kept; [apply task_ok_kept|done|done].
  - rewrite H0. apply map_Forall_empty.
  - by apply Forall_true.
Qed.
End Invariants.

(** ** No replay between tasks *)

(** The verification handed an allow over its nonce [n] to the log. *)
Definition granted (n : nonce) (t : VTask) : bool :=
  bool_decide (vt_nonce t = Some n)
  && match vt_pc t with
     | PcLogging entry _ | PcOver entry _ _ => bool_decide (ae_decision entry = "allow")
     | _ => false
     end.

(** What the adapter of task [i] answered, whatever the daemon made of it. *)
Fixpoint last_answer (ts : list Tick) (i : nat) : option AnswerIn :=
  match ts with
  | [] => None
  | TkAnswer j a :: ts =>
      match last_answer ts i with
      | Some a' => Some a'
      | None => if decide (j = i) then Some a else None
      end
  | _ :: ts => last_answer ts i
  end.

Definition evidence {W : WireSerde} (a : AnswerIn) : option VerificationResult :=
  match ex_next (ai_exchange a) with
  | Done (Some (Some line)) => result_from_str line
  | _ => None
  end.

(** The nonce in the evidence that task [i] got. *)
Definition evidence_nonce {W : WireSerde} (ts : list Tick) (i : nat) : option nonce :=
  last_answer ts i ≫= λ a, res_nonce <$> evidence a.

(** The verification answered an allow. *)
Definition allowed (t : VTask) : bool :=
  match vt_pc t with
  | PcOver _ _ (Some resp) => bool_decide (decision_of resp = Some "allow")
  | _ => false
  end.

(** The verifications of a run that answered an allow on evidence over [n]. *)
Definition allowed_on {W : WireSerde} (n : nonce) (ts : list Tick) (tasks : gmap nat VTask)
  : gmap nat VTask :=
  filter (λ it, evidence_nonce ts it.1 = Some n ∧ allowed it.2 = true) tasks.

Section NoReplay.
Context {C : Crypto} {SD : AuditSerde} {W : WireSerde} {SS : ServerSerde}.
Context (inner : AdapterError → string).
Context (toml_policy : string → option (list RawRule)).
Context (sv : Server).

#[local] Abbreviation do_tick := (tick inner toml_policy sv).
#[local] Abbreviation do_run := (run inner toml_policy sv).

(** The entry that an allow leaves. *)
Lemma allowed_entry t :
  task_ok t → allowed t = true → ∃ entry ack r, vt_pc t = PcOver entry ack r
    ∧ ae_decision entry = "allow".
Proof.
  unfold task_ok, allowed. intros Hok Ha.
  destruct (vt_pc t) as [| | |entry ack [resp|]]; try done. destruct Hok as (_ & _ & Hans).
  apply bool_decide_eq_true in Ha. specialize (Hans resp eq_refl).
  destruct ack; [|by subst resp]. destruct Hans as [Hd _]. eexists entry, true, _.
  split; [done|congruence].
Qed.

Lemma last_answer_snoc ts t i :
  last_answer (ts ++ [t]) i
  = match t with
    | TkAnswer j a => if decide (j = i) then Some a else last_answer ts i
    | _ => last_answer ts i
    end.
Proof.
  induction ts as [|[] ts IH]; simpl; [by destruct t|done|done| |done..].
  rewrite IH. destruct t; try done. by case_decide.
Qed.

(** The judge lets nothing pass that does not echo the nonce. *)
Lemma judge_allow_echo c resolved request answer spent a entry resp :
  judge inner sv c resolved request answer spent a = (entry, resp) → ae_decision entry = "allow" →
  ∃ result, answer = Ok result ∧ res_nonce result = req_nonce request.
Proof.
  assert (∀ method reason reason' adapter res entry resp,
    (deny (ai_entry_now a) (ca_caller c) (ca_uid c) method reason adapter (ca_id c) res,
     response_deny (ca_id c) reason') = (entry, resp) → ae_decision entry ≠ "allow") as Hdeny.
  { intros method reason reason' adapter res e r [= <- _].
    destruct (deny_fields (ai_entry_now a) (ca_caller c) (ca_uid c) method reason adapter
      (ca_id c) res) as (_ & _ & _ & ->). done. }
  unfold judge. intros H Hd. destruct answer as [result|e]; [|by apply Hdeny in H].
  exists result. split; [done|]. case_bool_decide as Hn; [by apply Hdeny in H|].
  by destruct (decide (res_nonce result = req_nonce request)).
Qed.

(** An answer that the client accepts is the evidence that came in. *)
Lemma dispatch_evidence health resolved request permit ex result sent a :
  dispatch_resolved health resolved request permit ex = (Ok result, sent) → ai_exchange a = ex →
  evidence a = Some result.
Proof.
  unfold dispatch_resolved, evidence. intros H ->. destruct (adapter_down _ _); [done|].
  destruct permit as [|[]]; [done| |done].
  destruct (Client.verify (ra_client resolved) request ex) as [r sent'] eqn:Hv.
  injection H as -> _. apply Client.client_verify_Ok in Hv as (_ & _ & _ & _ & Hr).
  apply check_response_Ok in Hr as ((line & -> & Hl) & _). done.
Qed.

(** An allow that reached the log rests on evidence over the task's nonce. *)
Definition echoes (ts : list Tick) (i : nat) (t : VTask) : Prop :=
  match vt_pc t with
  | PcLogging entry _ | PcOver entry _ _ =>
      ae_decision entry = "allow" → evidence_nonce ts i = vt_nonce t
  | _ => True
  end.

Lemma begin_call_echoes ts i c b nonces :
  echoes ts i (begin_call inner sv c b nonces).1.
Proof.
  unfold begin_call. destruct (resolve _ _ _) as [r|]; [|done].
  by destruct (generate _ _ _ _) as [[] ?].
Qed.

Lemma answer_echoes ts i a c resolved request nonces entry answer nonces' :
  resume_call inner sv c resolved request a nonces = (entry, answer, nonces') →
  echoes (ts ++ [TkAnswer i a]) i
    (mk_vtask c (Some (req_nonce request)) (PcLogging entry (Some answer))).
Proof.
  unfold resume_call. destruct (dispatch_resolved _ _ _ _ _) as [ans ?] eqn:Hdis.
  destruct (consume _ _ _ _) as [spent m]. intros [= Hj _] Hd.
  destruct (judge_allow_echo _ _ _ _ _ _ _ _ Hj Hd) as (result & -> & Hn).
  unfold evidence_nonce. rewrite last_answer_snoc, decide_True by done. simpl.
  rewrite (dispatch_evidence _ _ _ _ _ _ _ a Hdis eq_refl). simpl. by rewrite Hn.
Qed.

Lemma tick_echoes w0 ts w t w' :
  w_tasks w0 = ∅ → do_run w0 ts = Some w → do_tick w t = Some w' →
  map_Forall (echoes ts) (w_tasks w) → map_Forall (echoes (ts ++ [t])) (w_tasks w').
Proof.
  intros H0 Hr Ht Hall.
  pose proof (run_task_ok _ _ _ _ _ _ H0 Hr) as Hok.
  assert (∀ j x, (∀ a, t ≠ TkAnswer j a) → echoes ts j x → echoes (ts ++ [t]) j x) as Hkeep.
  { intros j x Hne. unfold echoes, evidence_nonce. rewrite last_answer_snoc.
    destruct t as [| |i a| | | | | |]; try done. case_decide as Hi; [subst i|done].
    by destruct (Hne a). }
  assert (∀ i y, (∀ j a, t = TkAnswer j a → j = i) → w_tasks w' = <[i := y]> (w_tasks w) →
    echoes (ts ++ [t]) i y → map_Forall (echoes (ts ++ [t])) (w_tasks w')) as Hset.
  { intros i y Hti E Hy j x Hj. rewrite E in Hj. destruct (decide (i = j)) as [->|Hne].
    - rewrite lookup_insert_eq in Hj. by injection Hj as <-.
    - rewrite lookup_insert_ne in Hj by done. apply Hkeep; [|by apply Hall].
      intros a ->. by specialize (Hti j a eq_refl). }
  assert ((∀ j a, t ≠ TkAnswer j a) → w_tasks w' = w_tasks w →
    map_Forall (echoes (ts ++ [t])) (w_tasks w')) as Hsame.
  { intros Hne -> j x Hj. by apply Hkeep, Hall. }
  destruct t as [i peer line now|i b|i a|i io|i|now|now|fs|fs]; simpl in Ht;
    try (injection Ht as <-; by apply Hsame).
  - destruct (w_tasks w !! i); [done|].
    destruct (line_call _ _ _ _ _ _) as [[c|] sh]; injection Ht as <-; [|by apply Hsame].
    by eapply (Hset i).
  - destruct (w_tasks w !! i) as [[c drawn []]|] eqn:Hi; try done.
    pose proof (begin_call_echoes (ts ++ [TkBegin i b]) i c b (sh_nonces (w_shared w))) as Hb.
    destruct (begin_call _ _ _ _ _) as [task nonces]. injection Ht as <-. by eapply (Hset i).
  - destruct (w_tasks w !! i) as [[c drawn [|resolved request| |]]|] eqn:Hi; try done.
    pose proof (Hok i _ Hi : drawn = Some (req_nonce request)) as Hdrawn.
    destruct (resume_call _ _ _ _ _ _ _) as [[entry answer] nonces] eqn:Hre.
    injection Ht as <-. eapply (Hset i); [by intros j a' [= <- _]|done|].
    rewrite Hdrawn. by eapply answer_echoes.
  - destruct (w_tasks w !! i) as [[c drawn []]|] eqn:Hi; try done.
    destruct (finish_call _ _ _ _ _) as [pc sh] eqn:Hf. injection Ht as <-.
    eapply (Hset i); [done|done|]. apply Hkeep; [done|]. pose proof (Hall i _ Hi) as He.
    unfold finish_call in Hf. by destruct (log _ _ _) as [[] ?]; simplify_eq.
  - destruct (w_tasks w !! i) as [[c drawn []]|] eqn:Hi; try done; injection Ht as <-;
      [intros j x Hj; simpl in Hj; apply lookup_delete_Some in Hj as [_ Hj]; by apply Hkeep, Hall..|].
    eapply (Hset i); [done|done|]. apply Hkeep; [done|]. exact (Hall i _ Hi).
Qed.

Lemma run_echoes w0 ts w :
  w_tasks w0 = ∅ → do_run w0 ts = Some w → map_Forall (echoes ts) (w_tasks w).
Proof.
  intros H0. revert w. induction ts as [|tk ts IH] using rev_ind; intros w Hr.
  { simpl in Hr. simplify_eq. rewrite H0. apply map_Forall_empty. }
  rewrite run_app in Hr. destruct (do_run w0 ts) as [w1|] eqn:Hr1; [|done]. simpl in Hr.
  destruct (do_tick w1 tk) as [w'|] eqn:Ht; [|done]. simpl in Hr. injection Hr as <-.
  by eapply tick_echoes; [| |exact Ht|apply IH].
Qed.

(** A task becomes granted only in the piece that spends its nonce. *)
Lemma tick_granted n w t w' :
  map_Forall (λ _, task_ok) (w_tasks w) → do_tick w t = Some w' →
  (tally (granted n) (w_tasks w')
   ≤ tally (granted n) (w_tasks w)
     + spends n (nonce_run (sh_nonces (w_shared w)) (tick_nonce_ops sv w t)).1)%nat.
Proof.
  intros Hok Ht.
  assert (∀ i x y k, w_tasks w !! i = Some x → w_tasks w' = <[i := y]> (w_tasks w) →
    ((if granted n y then 1 else 0) ≤ (if granted n x then 1 else 0) + k)%nat →
    (tally (granted n) (w_tasks w') ≤ tally (granted n) (w_tasks w) + k)%nat) as Hset.
  { intros i x y k Hi -> Hk. pose proof (tally_update (granted n) _ _ _ y Hi). lia. }
  destruct t as [i peer line now|i b|i a|i io|i|now|now|fs|fs]; simpl in Ht;
    try (injection Ht as <-; simpl; lia).
  - destruct (w_tasks w !! i) eqn:Hi; [done|].
    destruct (line_call _ _ _ _ _ _) as [[c|] sh]; injection Ht as <-; simpl; [|lia].
    rewrite tally_insert by done. replace (granted n (mk_vtask c None PcStart)) with false by done.
    simpl. lia.
  - destruct (w_tasks w !! i) as [[c drawn []]|] eqn:Hi; try done.
    destruct (begin_call _ _ _ _ _) as [task nonces] eqn:Hb. injection Ht as <-.
    apply begin_call_pc in Hb as [_ [(entry & answer & ->)|(r & q & -> & _)]];
      (eapply Hset; [done|done|]); unfold granted; simpl; [lia|].
    rewrite andb_false_r. lia.
  - destruct (w_tasks w !! i) as [[c drawn [|resolved request| |]]|] eqn:Hi; try done.
    pose proof (Hok i _ Hi : drawn = Some (req_nonce request)) as Hdrawn.
    destruct (resume_call _ _ _ _ _ _ _) as [[entry answer] nonces] eqn:Hre.
    injection Ht as <-. eapply Hset; [done|done|]. simpl. rewrite Hi. simpl.
    unfold resume_call in Hre. destruct (dispatch_resolved _ _ _ _ _) as [ans ?].
    destruct (consume _ _ _ _) as [spent m]. injection Hre as Hj _.
    apply judge_ok in Hj as (_ & _ & _ & Hal). unfold granted. simpl. subst drawn.
    destruct (decide (req_nonce request = n)) as [->|Hne]; cycle 1.
    { rewrite bool_decide_eq_false_2 by congruence. simpl. lia. }
    rewrite (bool_decide_eq_true_2 (Some n = Some n)) by done. simpl.
    case_bool_decide as Hd; [|lia]. rewrite (Hal Hd).
    unfold spends. simpl. rewrite bool_decide_eq_true_2 by done. simpl. lia.
  - destruct (w_tasks w !! i) as [[c drawn []]|] eqn:Hi; try done.
    destruct (finish_call _ _ _ _ _) as [pc sh] eqn:Hf. injection Ht as <-.
    eapply Hset; [done|done|]. unfold finish_call in Hf.
    destruct (log _ _ _) as [[] ?]; simplify_eq; unfold granted; simpl; lia.
  - destruct (w_tasks w !! i) as [[c drawn []]|] eqn:Hi; try done; injection Ht as <-;
      [pose proof (tally_delete (granted n) _ _ _ Hi); simpl; lia..|].
    eapply Hset; [done|done|]. unfold granted. simpl. lia.
Qed.

Lemma run_granted n w0 ts w :
  w_tasks w0 = ∅ → do_run w0 ts = Some w →
  (tally (granted n) (w_tasks w)
   ≤ spends n (nonce_run (sh_nonces (w_shared w0)) (run_nonce_ops inner toml_policy sv w0 ts)).1)%nat.
Proof.
  intros H0. revert w. induction ts as [|tk ts IH] using rev_ind; intros w Hr.
  { simpl in Hr. simplify_eq. rewrite H0, tally_empty. lia. }
  rewrite run_app in Hr. destruct (do_run w0 ts) as [w1|] eqn:Hr1; [|done]. simpl in Hr.
  destruct (do_tick w1 tk) as [w'|] eqn:Ht; [|done]. simpl in Hr. injection Hr as <-.
  specialize (IH w1 eq_refl).
  pose proof (tick_granted n _ _ _ (run_task_ok _ _ _ _ _ _ H0 Hr1) Ht) as Hstep.
  destruct (run_ops_app inner toml_policy sv _ _ [tk] _ Hr1) as [-> _]. rewrite nonce_run_app. simpl.
  rewrite Ht, spends_app. simpl. rewrite app_nil_r.
  destruct (run_stores _ _ _ _ _ _ Hr1) as [<- _]. lia.
Qed.

(** C4: no replay, whatever runs at the same time.  Take the evidence that the
    adapters handed in, whoever they are and whatever they sent, and a nonce
    [n].  However verifications, cancellations, reloads and the cleanup of
    the nonce store interleave, the verifications that answered "allow" on
    evidence over [n] are at most as many as the times [n] was successfully
    spent in the history of the shared store, and those are at most as many
    as the times the store issued it: evidence over a nonce that was issued
    once lets at most one verification through, however often it is handed
    in, and evidence over a nonce that was never issued, or never spent in
    time for its user, none. *)
Theorem interleaved_no_replay w0 ts w n :
  w_tasks w0 = ∅ → sh_nonces (w_shared w0) = nonce_store_new → do_run w0 ts = Some w →
  let history := (nonce_run nonce_store_new (run_nonce_ops inner toml_policy sv w0 ts)).1 in
  (size (allowed_on n ts (w_tasks w)) ≤ spends n history ≤ issues n history)%nat.
Proof.
  intros H0 Hn Hr history. pose proof (run_granted n _ _ _ H0 Hr) as Hg. rewrite Hn in Hg.
  split; [|apply spends_le_issues]. etrans; [|exact Hg]. unfold tally, allowed_on.
  apply map_subseteq_size, map_filter_subseteq_ext. intros i t Hi [He Ha]. simpl in *.
  destruct (allowed_entry t (run_task_ok _ _ _ _ _ _ H0 Hr i t Hi) Ha)
    as (entry & ack & r & Hpc & Hd).
  pose proof (run_echoes _ _ _ H0 Hr i t Hi) as Hec. unfold echoes in Hec. unfold granted.
  rewrite Hpc in *. rewrite (Hec Hd) in He. rewrite He. by rewrite !bool_decide_eq_true_2.
Qed.
End NoReplay.

(** ** Types are kept *)

(** Values of the Rust types, at each input of a piece. *)
Definition call_typed (c : Call) : Prop :=
  is_u32 (ca_caller c) ∧ is_u32 (ca_uid c) ∧ text 64 (ca_method c) ∧ is_opt_string (ca_id c).

Definition tick_typed (t : Tick) : Prop :=
  match t with
  | TkLine _ peer _ _ => is_u32 peer
  | TkBegin _ b =>
      length (bi_uuid b) = 16%nat ∧ ∀ k n, bi_rand b k = Some n → length n = 32%nat
  | _ => True
  end.

Definition task_typed (t : VTask) : Prop :=
  call_typed (vt_call t)
  ∧ match vt_pc t with
    | PcStart => True
    | PcWaiting resolved request => resolved_typed resolved ∧ wf_request request
    | PcLogging entry _ | PcOver entry _ _ => wf_entry entry
    end.

Record world_typed (w : World) : Prop := {
  wt_tasks : map_Forall (λ _, task_typed) (w_tasks w);
  wt_nonces : store_typed (sh_nonces (w_shared w));
  wt_failures : is_u64 (REQUEST_FAILURES (sh_metrics (w_shared w)))
}.

(** A request as [serde_json] reads it. *)
Definition wire_request (req : Request) : Prop :=
  is_opt_string (rq_id req)
  ∧ ∀ p v uid, rq_params req = Some p → get_field p "uid" = Some v → as_u64 v = Some uid → 0 ≤ uid.

(** The call that a line leads to. *)
Lemma line_call_Some {SS : ServerSerde} sv rl peer line now sh c sh' :
  line_call sv rl peer line now sh = (Some c, sh') →
  is_allowed (sv_getuid sv) (rl_allowlist rl) peer = true
  ∧ ca_reloadable c = rl ∧ ca_caller c = peer
  ∧ ∃ req, request_from_str line = Ok req ∧ ca_id c = rq_id req
      ∧ request_uid peer (rq_params req) = Ok (ca_uid c)
      ∧ request_method (rq_params req) = Ok (ca_method c).
Proof.
  unfold line_call. destruct (is_allowed _ _ _); [|done]. simpl.
  destruct (check _ _ _ _) as [[] rate]; simpl; [|done].
  destruct (request_from_str line) as [req|]; [|done]. destruct (negb _); [done|].
  case_bool_decide; [done|]. case_bool_decide; [|done].
  destruct (request_uid _ _) eqn:Hu; [|done]. destruct (request_method _) eqn:Hm; [|done].
  intros [= <- <-]. split_and!; try done. by exists req.
Qed.

(** It is well typed. *)
Lemma line_call_typed {SS : ServerSerde} sv rl peer line now sh c sh' :
  (∀ s req, request_from_str s = Ok req → wire_request req) → is_u32 peer →
  line_call sv rl peer line now sh = (Some c, sh') → call_typed c.
Proof.
  intros Hreq Hp H. apply line_call_Some in H as (_ & _ & Hc & req & Hr & Hid & Hu & Hm).
  destruct (Hreq _ _ Hr) as [Hopt Hpos]. unfold call_typed. rewrite Hc, Hid. split_and!; try done.
  - apply request_uid_peer in Hu as Hu'. destruct Hu' as [_ Hmax]. apply Hmax; [done|].
    unfold request_uid in Hu. destruct (Z.eqb_spec peer 0); simpl in Hu.
    + destruct (rq_params req) as [p|] eqn:Hps; simpl in Hu; [|done].
      destruct (get_field p "uid") as [v|] eqn:Hf; [|done].
      destruct (as_u64 v) as [u|] eqn:Hv; [|done]. destruct (_ <? _); [done|].
      injection Hu as <-. by eapply Hpos.
    + injection Hu as <-. by destruct Hp.
  - eapply name_text. by eapply request_method_valid.
Qed.

Section Typed.
Context {C : Crypto} {SD : AuditSerde} {W : WireSerde} {SS : ServerSerde}.
Context (inner : AdapterError → string).
Context (toml_policy : string → option (list RawRule)).
Context (sv : Server).
(** What [serde_json] reads at [VerificationResult] is one, and so at
    [Request]: its numbers are not negative where [as_u64] finds them. *)
Context (result_typed : ∀ s r, result_from_str s = Some r → wf_result r).
Context (request_typed : ∀ s req, request_from_str s = Ok req → wire_request req).
Context (inner_ok : inner_typed inner).
Context (registry_ok : registry_typed (sv_registry sv)).

#[local] Abbreviation do_tick := (tick inner toml_policy sv).
#[local] Abbreviation do_run := (run inner toml_policy sv).

Lemma text64_string s : text 64 s → is_string s.
Proof. intros H. eapply text_string; [done|by vm_compute]. Qed.

(** The client's own errors name no adapter. *)
Lemma client_verify_unnamed cl request ex e sent :
  Client.verify cl request ex = (Err e, sent) → named_in e = None.
Proof.
  unfold Client.verify. destruct (connect_checked cl ex) as [[]|e'] eqn:Hc.
  - destruct (request_to_string request); [|by intros [= <- _]].
    destruct (ex_send ex) as [|[]]; simpl; [by intros [= <- _]| |by intros [= <- _]].
    unfold check_response, await, ok_or. intros [= H _].
    destruct (ex_next ex) as [|[[line|]|]]; try by injection H as <-.
    destruct (result_from_str line) as [r|]; [|by injection H as <-].
    destruct (negb _); [by injection H as <-|]. case_bool_decide; [by injection H as <-|done].
  - intros [= -> _]. unfold connect_checked, await, ok_or in Hc.
    destruct (ex_connect ex) as [|[?|]]; try by injection Hc as <-.
    destruct (ex_peer_uid ex); [|by injection Hc as <-].
    destruct (negb _); [by injection Hc as <-|done].
Qed.

Lemma dispatch_typed health resolved request permit ex :
  resolved_typed resolved →
  match (dispatch_resolved health resolved request permit ex).1 with
  | Ok r => wf_result r
  | Err e => from_option (text 64) True (named_in e)
  end.
Proof.
  intros (_ & _ & Hn & _). unfold dispatch_resolved. destruct (adapter_down _ _); [done|].
  destruct permit as [|[]]; [done| |done].
  destruct (Client.verify (ra_client resolved) request ex) as [r sent] eqn:Hv. simpl.
  destruct r as [r|e].
  - apply Client.client_verify_Ok in Hv as (_ & _ & _ & _ & Hr).
    apply check_response_Ok in Hr as ((line & _ & Hl) & _). eauto.
  - by apply client_verify_unnamed in Hv as ->.
Qed.

Lemma judge_typed c resolved request answer spent a :
  call_typed c → resolved_typed resolved →
  match answer with
  | Ok r => wf_result r
  | Err e => from_option (text 64) True (named_in e)
  end →
  wf_entry (judge inner sv c resolved request answer spent a).1.
Proof.
  intros (Hc & Hu & _ & Hid) (Ha & Hm & _ & _) Hans. apply text64_string in Ha, Hm.
  assert (∀ reason res, is_string reason → from_option wf_result True res →
    wf_entry (deny (ai_entry_now a) (ca_caller c) (ca_uid c) (ra_method resolved) reason
      (Some (ra_adapter_name resolved)) (ca_id c) res)) as Hdeny.
  { intros reason res Hr Hres. by apply deny_wf. }
  assert (∀ k s, text k s → k ≤ 500 → is_string s) as Htext.
  { intros k s Hs Hk. eapply text_string; [done|]. unfold u64_max. lia. }
  unfold judge. destruct answer as [result|e]; cycle 1.
  { apply Hdeny; [|done]. by apply adapter_error_string. }
  case_bool_decide; [apply Hdeny; [by vm_compute|done]|].
  destruct (_ <? _); [apply Hdeny; [by vm_compute|done]|].
  destruct spent as [[]|e]; [|apply Hdeny; [|done]; by eapply Htext; [apply nonce_reason_text|]].
  destruct (if require_attestation _ then _ else _);
    [|apply Hdeny; [|done]; by eapply Htext; [apply attestation_reason_text|]].
  destruct (negb _); [apply Hdeny; [by vm_compute|done]|].
  by apply from_decision_wf.
Qed.

Lemma begin_typed c b nonces :
  call_typed c → length (bi_uuid b) = 16%nat →
  (∀ k n, bi_rand b k = Some n → length n = 32%nat) → store_typed nonces →
  task_typed (begin_call inner sv c b nonces).1 ∧ store_typed (begin_call inner sv c b nonces).2.
Proof.
  intros Hcall Huuid Hrand Hst. pose proof Hcall as (Hc & Hu & Hm & Hid).
  assert (∀ method reason adapter, is_string method → is_string reason → is_opt_string adapter →
    task_typed (mk_vtask c None (PcLogging (deny (bi_entry_now b) (ca_caller c) (ca_uid c) method
      reason adapter (ca_id c) None) (Some (response_deny (ca_id c) reason))))) as Hdeny.
  { intros method reason adapter ? ? ?. split; [done|]. by apply deny_wf. }
  unfold begin_call. destruct (resolve _ _ _) as [resolved|e] eqn:Hr; cycle 1.
  { split; [|done]. apply Hdeny; [by apply text64_string| |done].
    apply resolve_Err in Hr as ->. by apply adapter_error_string. }
  apply resolve_typed in Hr; [|done]. destruct Hr as (Ha & Hrm & Hn & Ht).
  destruct (generate_typed nonces (ca_uid c) (bi_rand b) (bi_generate_now b) Hst Hu Hrand)
    as [Hst' Hlen].
  destruct (generate _ _ _ _) as [[nonce|e] nonces']; (split; [|done]).
  - split; [done|]. split; [done|]. split_and!; try done; [by apply Hlen|].
    pose proof (unix_ms_u64 (bi_request_now b)). simpl.
    unfold saturating_add_u64, is_u64, u64_max in *. lia.
  - apply Hdeny; [by apply text64_string| |by apply text64_string].
    eapply text_string; [apply nonce_reason_text|by vm_compute].
Qed.

Lemma tick_tasks_typed w t w' :
  world_typed w → tick_typed t → do_tick w t = Some w' → map_Forall (λ _, task_typed) (w_tasks w').
Proof.
  intros [Hts Hst Hf] Htt Ht. eapply tick_kept; [|done|done]. split.
  - intros i peer line now c sh -> Hl. split; [|done]. by eapply line_call_typed.
  - intros i b c drawn -> [Hcall _]. destruct Htt. by apply begin_typed.
  - intros i a c drawn resolved request entry answer nonces -> [Hcall [Hres _]]. simpl in Hcall.
    unfold resume_call.
    pose proof (dispatch_typed (ai_health a) resolved request (ai_permit a) (ai_exchange a) Hres)
      as Hd. destruct (dispatch_resolved _ _ _ _ _) as [ans ?], (consume _ _ _ _) as [spent ?].
    intros [= Hj _]. split; [done|]. simpl.
    pose proof (judge_typed c resolved request ans spent a Hcall Hres Hd) as H.
    by rewrite Hj in H.
  - intros i io c drawn entry answer pc sh -> [Hcall He]. unfold finish_call.
    by destruct (log _ _ _) as [[] ?]; intros [= <- _].
  - intros c drawn entry answer H. exact H.
Qed.

Lemma tick_store_typed w t w' :
  world_typed w → tick_typed t → do_tick w t = Some w' → store_typed (sh_nonces (w_shared w')).
Proof.
  intros [Hts Hst Hf] Htt Ht. apply tick_stores in Ht as [-> _].
  destruct t as [i peer line now|i b|i a|i io|i|now|now|fs|fs]; simpl; try done.
  - destruct (w_tasks w !! i) as [[c drawn []]|] eqn:Hi; try done. destruct Htt as [_ Hrand].
    destruct (Hts i _ Hi) as [(_ & Hu & _) _]. destruct (resolve _ _ _); [|done]. simpl.
    destruct (generate_typed _ _ _ (bi_generate_now b) Hst Hu Hrand) as [H _].
    by destruct (generate _ _ _ _).
  - destruct (w_tasks w !! i) as [[c drawn []]|]; try done. simpl.
    pose proof (consume_typed _ (req_nonce request) (ca_uid c) (ai_consume_now a) Hst).
    by destruct (consume _ _ _ _).
  - by apply cleanup_typed.
Qed.

Lemma line_failures_typed rl peer line now sh call sh' :
  line_call sv rl peer line now sh = (call, sh') → is_u64 (REQUEST_FAILURES (sh_metrics sh)) →
  is_u64 (REQUEST_FAILURES (sh_metrics sh')).
Proof.
  intros H Hf. unfold line_call in H.
  destruct (negb _); [injection H as _ <-; apply wrapping_add_u64_range|].
  destruct (check _ _ _ _) as [admitted rate].
  destruct (negb _); [injection H as _ <-; apply wrapping_add_u64_range|].
  destruct (request_from_str line) as [req|]; [|injection H as _ <-; apply wrapping_add_u64_range].
  destruct (negb _); [injection H as _ <-; apply wrapping_add_u64_range|].
  case_bool_decide; [by injection H as _ <-|].
  case_bool_decide; [|injection H as _ <-; apply wrapping_add_u64_range].
  destruct (request_uid _ _); [destruct (request_method _)|];
    injection H as _ <-; [done|apply wrapping_add_u64_range..].
Qed.

Lemma tick_failures_typed w t w' :
  world_typed w → do_tick w t = Some w' → is_u64 (REQUEST_FAILURES (sh_metrics (w_shared w'))).
Proof.
  intros [_ _ Hf] Ht.
  destruct t as [i peer line now|i b|i a|i io|i|now|now|fs|fs]; simpl in Ht;
    try by injection Ht as <-.
  - destruct (w_tasks w !! i); [done|]. destruct (line_call _ _ _ _ _ _) as [call sh] eqn:Hl.
    injection Ht as <-. by eapply line_failures_typed.
  - destruct (w_tasks w !! i) as [[c drawn []]|]; try done.
    destruct (begin_call _ _ _ _ _). by injection Ht as <-.
  - destruct (w_tasks w !! i) as [[c drawn []]|]; try done.
    destruct (resume_call _ _ _ _ _ _ _) as [[? ?] ?]. by injection Ht as <-.
  - destruct (w_tasks w !! i) as [[c drawn []]|]; try done. unfold finish_call in Ht.
    destruct (log _ _ _) as [[] ?]; injection Ht as <-; [done|]. apply wrapping_add_u64_range.
  - destruct (w_tasks w !! i) as [[c drawn []]|]; try done; by injection Ht as <-.
  - injection Ht as <-. simpl. unfold reload_log.
    destruct (reopen _ _ _) as [[] ?]; [done|]. apply wrapping_add_u64_range.
Qed.

Lemma tick_keeps_types w t w' :
  world_typed w → tick_typed t → do_tick w t = Some w' → world_typed w'.
Proof.
  split; eauto using tick_tasks_typed, tick_store_typed, tick_failures_typed.
Qed.

(** C15: the machine types are kept.  From well-typed inputs (32-bit uids, a
    validated method name, 16-byte ids, 32-byte draws, adapter answers of the
    wire type, wrapped errors that are texts) every interleaving keeps every
    challenge that is out, every audit entry that is built, every pending
    nonce and the failure counter in the ranges of their Rust types: the
    deadline and the timestamps fit [u64], the arrays have their lengths, and
    every text of an entry, the printed reasons with their decimals included,
    is UTF-8 whose length fits [usize]. *)
Theorem types_preserved w0 ts w :
  world_typed w0 → Forall tick_typed ts → do_run w0 ts = Some w → world_typed w.
Proof.
  apply (run_invariant inner toml_policy sv world_typed tick_typed). intros w1 t w' Hw Ht.
  by apply tick_keeps_types.
Qed.
End Typed.

(** ** The audit log is the decisions that were made *)

(** The entry of a verification whose append was acknowledged. *)
Definition acked (t : VTask) : option AuditEntry :=
  match vt_pc t with PcOver entry true _ => Some entry | _ => None end.

Definition acked_entries (tasks : gmap nat VTask) : list AuditEntry :=
  omap (λ e, acked e.2) (map_to_list tasks).

Lemma acked_lookup m i x :
  m !! i = Some x → acked_entries m ≡ₚ option_list (acked x) ++ acked_entries (delete i m).
Proof.
  intros Hi. unfold acked_entries. rewrite <-(map_to_list_delete m i x Hi). simpl.
  by destruct (acked x).
Qed.

Lemma acked_set m i x y :
  m !! i = Some x → acked x = None →
  acked_entries (<[i := y]> m) ≡ₚ option_list (acked y) ++ acked_entries m.
Proof.
  intros Hi Hx. rewrite (acked_lookup (<[i := y]> m) i y) by apply lookup_insert_eq.
  rewrite delete_insert_eq, (acked_lookup m i x Hi), Hx. done.
Qed.

Section AuditComplete.
Context {C : Crypto} {CL : CryptoLaws C} {SD : AuditSerde} {SL : AuditSerdeLaws SD}.
Context {W : WireSerde} {SS : ServerSerde}.
Context (inner : AdapterError → string).
Context (toml_policy : string → option (list RawRule)).
Context (sv : Server).

#[local] Abbreviation do_tick := (tick inner toml_policy sv).
#[local] Abbreviation do_run := (run inner toml_policy sv).

(** What reopenings of the log left behind. *)
Definition tick_archive (w : World) (t : Tick) : list byte :=
  match tick_audit_ops sv w t with
  | [OpReopen opened] => rotated (sh_audit (w_shared w)) opened
  | _ => []
  end.

Fixpoint run_archive (w : World) (ts : list Tick) : list byte :=
  match ts with
  | [] => []
  | t :: ts => tick_archive w t ++ from_option (λ w, run_archive w ts) [] (do_tick w t)
  end.

(** Each append is of a finite confidence and fails before its first byte or
    not at all, and each reopening finds the file in use or a new one. *)
Definition disk_ok (m : Mutex AuditState) (op : AuditOp) : bool :=
  match op with
  | OpAppend e io => f32_is_finite (ae_confidence e) && clean io
  | OpReopen opened => rotation m opened
  end.

Fixpoint disks_ok (w : World) (ts : list Tick) : bool :=
  match ts with
  | [] => true
  | t :: ts =>
      forallb (disk_ok (sh_audit (w_shared w))) (tick_audit_ops sv w t)
      && from_option (λ w, disks_ok w ts) true (do_tick w t)
  end.

(** The files, those in the archive first, hold [es0] and then the entries of
    the acknowledged tasks. *)
Definition logs_tasks (es0 : list AuditEntry) (archive : list byte) (w : World) : Prop :=
  ∃ es, log_inv (with_archive archive (sh_audit (w_shared w))) (es0 ++ es)
    ∧ content <$> es ≡ₚ content <$> acked_entries (w_tasks w).

Lemma append_logs_tasks es0 archive w i io c drawn entry answer pc sh :
  logs_tasks es0 archive w → wf_entry entry → f32_is_finite (ae_confidence entry) = true →
  clean io = true → w_tasks w !! i = Some (mk_vtask c drawn (PcLogging entry answer)) →
  finish_call c entry answer io (w_shared w) = (pc, sh) →
  logs_tasks es0 archive (mk_world (w_reloadable w) sh (<[i := mk_vtask c drawn pc]> (w_tasks w))).
Proof.
  intros (es & Hi & Hp) Hw Hfin Hcl Hl Hf. unfold finish_call in Hf.
  pose proof (log_with_archive archive (sh_audit (w_shared w)) entry io) as Har.
  destruct (log (sh_audit (w_shared w)) entry io) as [[[]|e] m]; simpl in *; injection Hf as <- <-.
  - apply log_Ok with (es := es0 ++ es) in Har; [|done..]. rewrite <-app_assoc in Har.
    eexists. split; [exact Har|]. simpl. rewrite acked_set by done. simpl.
    rewrite fmap_app. simpl. rewrite Hp. by rewrite Permutation_app_comm.
  - apply log_clean_Err with (es := es0 ++ es) in Har; [|done..].
    exists es. split; [exact Har|]. simpl. by rewrite acked_set.
Qed.

Lemma tick_logs_tasks es0 archive w t w' :
  logs_tasks es0 archive w → map_Forall (λ _, task_typed) (w_tasks w) →
  forallb (disk_ok (sh_audit (w_shared w))) (tick_audit_ops sv w t) = true →
  do_tick w t = Some w' → logs_tasks es0 (archive ++ tick_archive w t) w'.
Proof.
  intros Hlt Hty Hgood Ht. pose proof Hlt as (es & Hi & Hp).
  assert (tick_archive w t = [] → ∀ m, sh_audit (w_shared w') = sh_audit (w_shared w) →
    w_tasks w' = m → acked_entries m ≡ₚ acked_entries (w_tasks w) →
    logs_tasks es0 (archive ++ tick_archive w t) w') as Hsame.
  { intros -> m E <- Hm. exists es. by rewrite app_nil_r, E, Hm. }
  pose proof (tick_stores _ _ _ _ _ _ Ht) as [_ Haud].
  destruct t as [i peer line now|i b|i a|i io|i|now|now|fs|fs]; simpl in Ht, Haud;
    try (by injection Ht as <-; eapply Hsame).
  - destruct (w_tasks w !! i) eqn:Hl; [done|].
    destruct (line_call _ _ _ _ _ _) as [[c|] sh]; injection Ht as <-; (eapply Hsame; [done..|]); [|done].
    unfold acked_entries. simpl. by rewrite map_to_list_insert.
  - destruct (w_tasks w !! i) as [[c drawn []]|] eqn:Hl; try done.
    destruct (begin_call _ _ _ _ _) as [task nonces] eqn:Hb. injection Ht as <-.
    eapply Hsame; [done..|]. simpl. rewrite acked_set by done.
    by apply begin_call_pc in Hb as [_ [(? & ? & ->)|(? & ? & -> & _)]].
  - destruct (w_tasks w !! i) as [[c drawn []]|] eqn:Hl; try done.
    destruct (resume_call _ _ _ _ _ _ _) as [[entry answer] nonces]. injection Ht as <-.
    eapply Hsame; [done..|]. simpl. by rewrite acked_set.
  - destruct (w_tasks w !! i) as [[c drawn [| |entry answer|]]|] eqn:Hl; try done.
    unfold tick_archive. simpl in *. rewrite Hl in *. simpl in Hgood. rewrite andb_true_r in Hgood.
    apply andb_prop in Hgood as [Hfin Hcl].
    destruct (finish_call _ _ _ _ _) as [pc sh] eqn:Hf. injection Ht as <-. rewrite app_nil_r.
    eapply append_logs_tasks; try done. by destruct (Hty i _ Hl).
  - destruct (w_tasks w !! i) as [[c drawn []]|] eqn:Hl; try done; injection Ht as <-;
      (eapply Hsame; [done..|]; simpl); [by rewrite (acked_lookup _ _ _ Hl)..|by rewrite acked_set].
  - injection Ht as <-. simpl in Hgood. rewrite andb_true_r in Hgood. exists es. rewrite Haud. unfold tick_archive.
    simpl. rewrite reopened_with_archive by exact Hgood. by split.
Qed.
End AuditComplete.

Section Complete.
Context {C : Crypto} {CL : CryptoLaws C} {SD : AuditSerde} {SL : AuditSerdeLaws SD}.
Context {W : WireSerde} {SS : ServerSerde}.
Context (inner : AdapterError → string).
Context (toml_policy : string → option (list RawRule)).
Context (sv : Server).
Context (result_typed : ∀ s r, result_from_str s = Some r → wf_result r).
Context (request_typed : ∀ s req, request_from_str s = Ok req → wire_request req).
Context (inner_ok : inner_typed inner).
Context (registry_ok : registry_typed (sv_registry sv)).

#[local] Abbreviation do_run := (run inner toml_policy sv).
#[local] Abbreviation archive_of := (run_archive inner toml_policy sv).

Lemma run_logs_tasks es0 ts : ∀ archive w w',
  logs_tasks es0 archive w → world_typed w → Forall tick_typed ts →
  disks_ok inner toml_policy sv w ts = true → do_run w ts = Some w' →
  logs_tasks es0 (archive ++ archive_of w ts) w'.
Proof.
  induction ts as [|t ts IH]; intros archive w w' Hl Hw Hty Hg Hr; simpl in *.
  { simplify_eq. by rewrite app_nil_r. }
  apply Forall_cons in Hty as [Ht Hts].
  destruct (tick inner toml_policy sv w t) as [w1|] eqn:Htk; [|done]. simpl in *.
  apply andb_prop in Hg as [Hg1 Hg2]. rewrite app_assoc. eapply IH; try done; cycle 1.
  - by eapply tick_keeps_types.
  - eapply tick_logs_tasks; try done. by destruct Hw.
Qed.

Lemma run_logged_typed w0 ts w es0 :
  w_tasks w0 = ∅ → world_typed w0 → log_inv (sh_audit (w_shared w0)) es0 →
  Forall tick_typed ts → do_run w0 ts = Some w → disks_ok inner toml_policy sv w0 ts = true →
  let audit := guarded (sh_audit (w_shared w)) in
  logs_tasks es0 (archive_of w0 ts) w
  ∧ verify_reader (archive_of w0 ts ++ au_file audit) true
    = Ok (mk_report (Z.of_nat (length es0 + length (acked_entries (w_tasks w))))
            (au_prev_hash audit)).
Proof.
  intros H0 Hty Hlog Htt Hr Hio audit.
  assert (logs_tasks es0 (archive_of w0 ts) w) as Hlt.
  { apply (run_logs_tasks es0 ts [] w0); try done. exists []. rewrite app_nil_r, H0. split.
    - unfold with_archive. simpl. by destruct (sh_audit (w_shared w0)) as [? []].
    - unfold acked_entries. by rewrite map_to_list_empty. }
  split; [done|]. destruct Hlt as (es & Hi & Hp). pose proof (log_inv_verifies _ _ Hi) as Hv.
  simpl in Hv. unfold audit. rewrite Hv, length_app. apply Permutation_length in Hp.
  rewrite !length_fmap in Hp. by rewrite Hp.
Qed.

(** C5: the audit log is exactly the decisions that were made, whatever runs
    at the same time.  Start, with no verification under way, from a log that
    verifies and let verifications, reloads and rotations of the log
    interleave in any way, with inputs of the Rust types, disks that
    fail before the first byte of an append or not at all, adapters that
    claim a finite confidence, and reloads that find the log where it was or
    a new file in its place.  Then the verifier accepts the files that were
    rotated away followed by the one in use, and after the old entries they
    hold exactly one entry for each verification whose append was
    acknowledged, no entry twice, none lost and none of anything else; each
    entry names the caller, the user and the request of its verification; and
    a verification answered a decision, always that of its entry, if its
    append was acknowledged, and "audit failed" otherwise. *)
Theorem interleaved_audit_complete w0 ts w es0 :
  w_tasks w0 = ∅ → world_typed w0 → log_inv (sh_audit (w_shared w0)) es0 →
  Forall tick_typed ts → do_run w0 ts = Some w → disks_ok inner toml_policy sv w0 ts = true →
  let audit := guarded (sh_audit (w_shared w)) in
  let files := archive_of w0 ts ++ au_file audit in
  (∃ ls es, files = unlines ls ∧ entries_of ls (es0 ++ es)
     ∧ content <$> es ≡ₚ content <$> acked_entries (w_tasks w)
     ∧ verify_reader files true
       = Ok (mk_report (Z.of_nat (length es0 + length (acked_entries (w_tasks w))))
               (au_prev_hash audit)))
  ∧ ∀ i t entry ack resp,
      w_tasks w !! i = Some t → vt_pc t = PcOver entry ack (Some resp) →
      records (vt_call t) entry
      ∧ if ack then decision_of resp = Some (ae_decision entry) ∧ rs_error resp = None
        else resp = response_error (ca_id (vt_call t)) "audit failed".
Proof.
  intros H0 Hty Hlog Htt Hr Hio audit files. split.
  - destruct (run_logged_typed w0 ts w es0) as [(es & [_ (ls & Hf & _ & He) _] & Hp) Hv]; try done.
    by exists ls, es.
  - intros i t entry ack resp Hi Hpc.
    pose proof (run_task_ok _ _ _ _ _ _ H0 Hr i t Hi) as Hok. unfold task_ok in Hok.
    rewrite Hpc in Hok. destruct Hok as (Hrec & _ & Hans). split; [done|]. by apply Hans.
Qed.
End Complete.

(** ** After a restart *)

Section Restart.
Context {C : Crypto} {CL : CryptoLaws C} {SD : AuditSerde} {SL : AuditSerdeLaws SD}.

(** A log that verifies, reopened, satisfies the invariant of the logger. *)
Lemma reopened_log_inv data rep :
  verify_reader data true = Ok rep →
  ∃ es, log_inv (unlock (mk_audit_state data (rep_last_hash rep))) es
    ∧ rep_entries rep = Z.of_nat (length es).
Proof.
  intros Hv. apply verify_reader_spec in Hv as (ls & es & Hd & Hn & He & Hc & Hr).
  exists es. split; [|by rewrite Hr, (Forall2_length _ _ _ He)]. split; [done| |done].
  by exists ls.
Qed.

Lemma started_registry_typed toml_policy toml_adapter {Proc} {K : Kernel Proc} config se
    (p : Proc) rn :
  start_server toml_policy toml_adapter config se p = Ok rn →
  registry_typed (sv_registry (rn_server rn)).
Proof.
  intros H. apply start_server_inv in H as
    (owner & reg & rl & at' & lg & l & p' & [_ _ H3 _ _ _ _ _] & ->). simpl.
  unfold Registry.load_from_dir_with_owner in H3. peel H3 as [configs|] Hl.
  eapply built_registry_typed; [|done]. by eapply loaded_configs_wf.
Qed.

(** The world a daemon starts in. *)
Definition started_world {Proc} (rn : Running (Proc := Proc)) : World :=
  mk_world (rn_reloadable rn) (rn_shared rn) ∅.

(** C14: the log outlives the daemon.  Let the daemon start on a log that the
    verifier accepts and whose last line fits the recovery window, and let
    verifications, reloads and rotations interleave in any way, with inputs of
    the Rust types, disks
    that fail before the first byte of an append or not at all, adapters that
    claim a finite confidence, and reloads that find the log where it was or
    a new file in its place.  The verifier accepts the log again, the
    files that were rotated away before the one in use: it counts the old
    entries and one for each verification whose append was acknowledged, and
    ends in the hash from which the next restart goes on. *)
Theorem restarted_log_verifies toml_policy toml_adapter {Proc} {K : Kernel Proc} {W : WireSerde}
    {SS : ServerSerde} inner config se (p : Proc) rn rep ts w :
  (∀ s r, result_from_str s = Some r → wf_result r) →
  (∀ s req, request_from_str s = Ok req → wire_request req) → inner_typed inner →
  start_server toml_policy toml_adapter config se p = Ok rn →
  let data := au_file (guarded (sh_audit (rn_shared rn))) in
  verify_reader data true = Ok rep →
  (∀ ls l, data = unlines ls ++ l ++ [nl] → no_nl l →
     Z.of_nat (length l) + 2 ≤ AUDIT_RECOVERY_WINDOW_BYTES) →
  Forall tick_typed ts →
  run inner toml_policy (rn_server rn) (started_world rn) ts = Some w →
  disks_ok inner toml_policy (rn_server rn) (started_world rn) ts = true →
  let audit := guarded (sh_audit (w_shared w)) in
  verify_reader (run_archive inner toml_policy (rn_server rn) (started_world rn) ts
                 ++ au_file audit) true
  = Ok (mk_report (rep_entries rep + Z.of_nat (length (acked_entries (w_tasks w))))
          (au_prev_hash audit)).
Proof.
  intros Hres Hreq Hin Hst data Hv Hw Hts Hr Hio audit.
  pose proof (started_registry_typed _ _ _ _ _ _ Hst) as Hreg.
  pose proof (recovered_hash data rep Hv Hw) as Hrec.
  pose proof Hst as Hinv. apply start_server_inv in Hinv as
    (owner & reg & rl & at' & lg & l & p' & [_ _ _ _ _ _ H7 _] & ->).
  simpl in *. apply open_recovered in H7 as [Hp Hlast].
  destruct (lg_state lg) as [b [file prev]]. simpl in *. subst b. unfold data in *.
  rewrite Hrec in Hlast. injection Hlast as <-.
  destruct (reopened_log_inv file rep Hv) as (es & Hlog & Hlen).
  eapply run_logged_typed in Hr as [_ Hrep]; try done.
  unfold audit. rewrite Hrep, Hlen. do 2 f_equal. lia.
Qed.
End Restart.

(** ** What an allow rests on, whatever runs at the same time *)

Section Allow.
Context {C : Crypto} {CL : CryptoLaws C} {SD : AuditSerde} {W : WireSerde} {SS : ServerSerde}.
Context (inner : AdapterError → string).
Context (toml_policy : string → option (list RawRule)).

(** The spending of a call, seen in the history of the shared store. *)
Lemma explained_spent sv w0 ts w t entry resp n :
  explained inner toml_policy sv w0 ts w t entry resp → vt_nonce t = Some n →
  decision_of resp = Some "allow" →
  ∃ w1 env resolved result,
    grant sv (ca_reloadable (vt_call t)) (w_shared w1) (ca_caller (vt_call t))
      (ca_uid (vt_call t)) (ca_method (vt_call t)) (ca_id (vt_call t)) env resolved n result
    ∧ Consumed n (ca_uid (vt_call t)) (ve_consume_now env)
      ∈ (nonce_run (sh_nonces (w_shared w0)) (run_nonce_ops inner toml_policy sv w0 ts)).1.
Proof.
  intros (before & mid & after & w1 & w2 & env & sh' & -> & R1 & R2 & R3 & Hv & _ & _ & Hn) Hd Ha.
  destruct (Hn n Hd) as [Hgen (rest & Hops)].
  pose proof (handle_verify_once_allow inner sv (ca_reloadable (vt_call t)) (w_shared w1)
    (ca_caller (vt_call t)) (ca_uid (vt_call t)) (ca_method (vt_call t)) (ca_id (vt_call t)) env)
    as [Hg _]. rewrite Hv in Hg. destruct (Hg Ha) as (resolved & n' & result & G).
  assert (n' = n) as -> by (destruct G as [_ G2 _ _ _ _ _ _ _ _]; congruence).
  exists w1, env, resolved, result. split; [done|].
  destruct (run_ops_app inner toml_policy sv _ _ (mid ++ after) _ R1) as [-> _].
  destruct (run_ops_app inner toml_policy sv _ _ after _ R2) as [-> _].
  destruct (run_stores _ _ _ _ _ _ R1) as [Hs _].
  rewrite nonce_run_app. simpl. apply elem_of_app. right. rewrite <-Hs, nonce_run_app. simpl.
  apply elem_of_app. left. rewrite Hops. simpl.
  destruct G as [_ _ _ _ _ Hspent _ _ _ _]. unfold nonces_at_spending in Hspent.
  destruct (generate _ _ _ _) as [g m1]. simpl in Hspent.
  pose proof (nonce_run_app m1 (ve_nonce_ops env)
    (OpConsume n (ca_uid (vt_call t)) (ve_consume_now env) :: rest)) as E.
  destruct (nonce_run m1 (ve_nonce_ops env ++ _)) as [tr m2]. injection E as -> _. simpl.
  right. apply elem_of_app. right. destruct (consume _ _ _ _) as [[[]|] m3]; simpl in *; [|done].
  destruct (nonce_run m3 rest). left.
Qed.

(** No reload among [ts] succeeded. *)
Definition reloads_fail (sv : Server) (ts : list Tick) : Prop :=
  ∀ fs rl, TkReload fs ∈ ts →
    reload toml_policy fs (sv_getuid sv) (sv_config sv) (sv_owner_policy sv) ≠ Ok rl.

(** [fs] is what the last load before the end of [ts] found: a reload of the
    run that succeeded and after which none did, or the start. *)
Definition last_loaded (sv : Server) (start : Fs) (ts : list Tick) (fs : Fs) : Prop :=
  (fs = start ∧ reloads_fail sv ts)
  ∨ ∃ before after, ts = before ++ TkReload fs :: after ∧ reloads_fail sv after
      ∧ ∃ rl, reload toml_policy fs (sv_getuid sv) (sv_config sv) (sv_owner_policy sv) = Ok rl.

Lemma tick_reloadable sv w t w' :
  tick inner toml_policy sv w t = Some w' →
  w_reloadable w' = w_reloadable w ∧ reloads_fail sv [t]
  ∨ ∃ fs, t = TkReload fs
      ∧ reload toml_policy fs (sv_getuid sv) (sv_config sv) (sv_owner_policy sv)
        = Ok (w_reloadable w').
Proof.
  assert ((∀ fs, t ≠ TkReload fs) → reloads_fail sv [t]) as Hf.
  { intros Hne fs rl Hin. apply list_elem_of_singleton in Hin. by destruct (Hne fs). }
  unfold tick. intros Ht.
  destruct t; try (left; split; [repeat case_match; by simplify_eq|by apply Hf]).
  injection Ht as <-. simpl. unfold reload_config.
  destruct (reload _ _ _ _ _) eqn:E; [right; by eexists|left]. split; [done|].
  intros fs' rl Hin. apply list_elem_of_singleton in Hin. injection Hin as ->. congruence.
Qed.

(** The configuration in force is that of the last load. *)
Lemma run_reloadable sv w0 ts w :
  run inner toml_policy sv w0 ts = Some w →
  w_reloadable w = w_reloadable w0 ∧ reloads_fail sv ts
  ∨ ∃ before fs after, ts = before ++ TkReload fs :: after ∧ reloads_fail sv after
      ∧ reload toml_policy fs (sv_getuid sv) (sv_config sv) (sv_owner_policy sv)
        = Ok (w_reloadable w).
Proof.
  revert w. induction ts as [|t ts IH] using rev_ind; intros w Hr.
  { simpl in Hr. simplify_eq. left. split; [done|]. intros fs rl Hin. set_solver. }
  rewrite run_app in Hr. destruct (run _ _ _ w0 ts) as [w1|] eqn:Hr1; [|done]. simpl in Hr.
  destruct (tick _ _ _ w1 t) as [w'|] eqn:Ht; [|done]. simpl in Hr. injection Hr as <-.
  assert (∀ l, reloads_fail sv l → reloads_fail sv [t] → reloads_fail sv (l ++ [t])) as Happ.
  { intros l H1 H2 fs rl [?|?]%elem_of_app; eauto. }
  apply tick_reloadable in Ht as [[-> Hf] | (fs & -> & E)].
  - destruct (IH _ eq_refl) as [[? ?]|(b & fs & a & -> & ? & ?)]; [left; by auto|right].
    exists b, fs, (a ++ [t]). rewrite <-app_assoc. by auto.
  - right. exists ts, fs, []. split; [done|]. split; [|done]. intros ? ? Hin. set_solver.
Qed.

(** What a line of a production daemon was judged under. *)
Lemma read_from_trusted toml_adapter {Proc} {K : Kernel Proc} config se (p : Proc) rn ts i c :
  start_server toml_policy toml_adapter config se p = Ok rn → is_prod_mode config = true →
  read_from inner toml_policy (rn_server rn) (started_world rn) ts i c →
  ∃ before line now after fs me content,
    ts = before ++ TkLine i (ca_caller c) line now :: after
    ∧ last_loaded (rn_server rn) (se_fs se) before fs
    ∧ read_secure_to_string fs me (allowlist_path config)
        (allowlist_spec (sv_owner_policy (rn_server rn))) = Ok content
    ∧ (ca_caller c = 0 ∨ ca_caller c = sv_getuid (rn_server rn)
       ∨ listed (lines content) (ca_caller c))
    ∧ (ca_caller c ≠ 0 → ca_uid c = ca_caller c)
    ∧ trusted_policy toml_policy fs me config (sv_owner_policy (rn_server rn))
        (rl_policy_engine (ca_reloadable c)).
Proof.
  intros Hst Hprod (before & peer & line & now & after & w1 & sh & -> & Hr & Hl).
  apply line_call_Some in Hl as (Hal & Hrl & Hc & req & _ & _ & Hu & _).
  destruct (started_config _ _ _ _ _ _ Hst Hprod) as (Hcfg & me & Ha & Hp).
  apply request_uid_peer in Hu as [Hu _]. apply is_allowed_listed in Hal.
  assert (∃ fs me, last_loaded (rn_server rn) (se_fs se) before fs
    ∧ trusted_allowlist fs me config (sv_owner_policy (rn_server rn)) (rl_allowlist (ca_reloadable c))
    ∧ trusted_policy toml_policy fs me config (sv_owner_policy (rn_server rn))
        (rl_policy_engine (ca_reloadable c)))
    as (fs & me' & Hfs & (content & Hread & _ & Hlist) & Hpol).
  { rewrite Hrl. apply run_reloadable in Hr as [[-> Hf]|(b & fs & a & -> & Hf & E)].
    - exists (se_fs se), me. split; [by left|done].
    - pose proof E as E'. apply reload_Ok in E'. rewrite Hcfg in E'.
      exists fs, (sv_getuid (rn_server rn)). split; [right; by eauto 10|done]. }
  exists before, line, now, after, fs, me', content. rewrite <-Hrl, Hlist in Hal.
  rewrite Hc. by split_and!.
Qed.

(** C2: what an allow of a production daemon rests on, whatever runs at the
    same time.  In any interleaving of lines, verifications, cancellations,
    cleanups, reloads and rotations after a production start, let one of the
    verifications answer "allow".  Its line was read in this run; let [fs] be
    the file system as the last reload that succeeded before that line, or
    start-up if none did, found it.
    The peer is root, the daemon's own user, or listed in the allowlist of
    [fs], and unless it is root it is the user that is authenticated.  The
    entry says so, names its caller, its user and its request, and was
    acknowledged by the log; the verification holds a nonce of its own, which
    its evidence echoes and which was spent for its user in the history of
    the shared store; the evidence hash is the HMAC of the judged fields
    under the 32-byte key of the adapter its method resolved to; and a rule
    of the policy file of [fs] that is in force for the evidence's method
    accepts it. *)
Theorem interleaved_allow toml_adapter {Proc} {K : Kernel Proc}
    config se (p : Proc) rn ts w i t entry ack resp :
  start_server toml_policy toml_adapter config se p = Ok rn →
  is_prod_mode config = true →
  let sv := rn_server rn in
  let w0 := started_world rn in
  run inner toml_policy sv w0 ts = Some w →
  w_tasks w !! i = Some t → vt_pc t = PcOver entry ack (Some resp) →
  decision_of resp = Some "allow" →
  let c := vt_call t in
  let engine := rl_policy_engine (ca_reloadable c) in
  ack = true ∧ ae_decision entry = "allow" ∧ records c entry
  ∧ entry ∈ acked_entries (w_tasks w)
  ∧ (∃ before line now after fs me content,
       ts = before ++ TkLine i (ca_caller c) line now :: after
       ∧ last_loaded sv (se_fs se) before fs
       ∧ read_secure_to_string fs me (allowlist_path config) (allowlist_spec (sv_owner_policy sv))
         = Ok content
       ∧ (ca_caller c = 0 ∨ ca_caller c = sv_getuid sv ∨ listed (lines content) (ca_caller c))
       ∧ (ca_caller c ≠ 0 → ca_uid c = ca_caller c)
       ∧ trusted_policy toml_policy fs me config (sv_owner_policy sv) engine)
  ∧ ∃ n key env resolved result rule,
      vt_nonce t = Some n ∧ res_nonce result = n
      ∧ Consumed n (ca_uid c) (ve_consume_now env)
        ∈ (nonce_run nonce_store_new (run_nonce_ops inner toml_policy sv w0 ts)).1
      ∧ resolve (sv_registry sv) (ve_health env) (ca_method c) = Ok resolved
      ∧ adapter_keys (sv_attester sv) !! ra_adapter_name resolved = Some key
      ∧ length key = 32%nat
      ∧ res_evidence_hash result = hmac_sha256 key (mac_input result)
      ∧ Types.as_str (res_method result) = ra_method resolved
      ∧ in_force (pe_rules engine) (res_method result) rule
      ∧ acceptable (max_result_age_secs config) (unix_ms (ve_policy_now env)) rule
          (judged (ca_uid c) n resolved result None env).
Proof.
  intros Hst Hprod sv w0 Hr Hi Hpc Hd c engine.
  pose proof (run_task_ok _ _ _ _ _ _ (eq_refl : w_tasks w0 = ∅) Hr i t Hi) as Hok.
  unfold task_ok in Hok. rewrite Hpc in Hok. destruct Hok as (Hrec & Hsome & Hans).
  specialize (Hans resp eq_refl). destruct ack; [|by subst resp].
  destruct Hans as [Hdec _]. assert (ae_decision entry = "allow") as Hal by congruence.
  split; [done|]. split; [done|]. split; [done|]. split.
  { unfold acked_entries. apply list_elem_of_omap. exists (i, t). unfold acked. simpl. rewrite Hpc.
    split; [by apply elem_of_map_to_list|done]. }
  pose proof (run_read_from _ _ _ _ _ _ _ _ (eq_refl : w_tasks w0 = ∅) Hr Hi) as Hread.
  pose proof (read_from_trusted _ _ _ _ _ _ _ _ Hst Hprod Hread) as Htrust. split; [done|].
  destruct Htrust as (? & ? & ? & ? & fs & me & content & _ & _ & _ & _ & _ & Hwf & Hcap & _).
  destruct (Hsome Hal) as [n Hn].
  pose proof (run_explained _ _ _ _ _ _ _ _ _ _ _ (eq_refl : w_tasks w0 = ∅) Hr Hi Hpc) as Hex.
  destruct (explained_spent _ _ _ _ _ _ _ _ Hex Hn Hd) as (w1 & env & resolved & result & G & Hcons).
  destruct (production_key _ _ _ _ _ _ Hst Hprod) as (Hcfg & Hatt & Hkeys).
  destruct G as [G1 G2 G3 G4 G5 G6 G7 G8 G9 G10].
  destruct (proj1 (Attestation.attest_verify_Ok _ _ _) (G7 ltac:(unfold sv; by rewrite Hcfg)))
    as (key & Hkey & Hhash).
  assert (sh_nonces (w_shared w0) = nonce_store_new) as Hnew.
  { apply start_server_inv in Hst as
      (? & ? & ? & ? & ? & ? & ? & _ & E). unfold w0. by rewrite E. }
  rewrite Hnew in Hcons. fold c engine in G9, Hwf, Hcap.
  destruct engine as [rs cap] eqn:He. simpl in Hwf, Hcap. subst cap.
  apply evaluate_Allow in G9 as (rule & Hforce & Hacc); [|done].
  exists n, key, env, resolved, result, rule. split_and!; try done. by eapply Hkeys.
Qed.
End Allow.

(** ** Revocation *)

Section Revocation.
Context {C : Crypto} {SD : AuditSerde} {W : WireSerde} {SS : ServerSerde}.
Context (inner : AdapterError → string).
Context (toml_policy : string → option (list RawRule)).
Context (sv : Server).

#[local] Abbreviation do_tick := (tick inner toml_policy sv).
#[local] Abbreviation do_run := (run inner toml_policy sv).

(** The allowlist of a configuration does not admit [peer]. *)
Definition refuses (peer : Z) (rl : ReloadableState) : Prop :=
  is_allowed (sv_getuid sv) (rl_allowlist rl) peer = false.

(** Nor does that of any reload among [ts] that succeeds. *)
Definition stays_refused (peer : Z) (ts : list Tick) : Prop :=
  ∀ fs rl, TkReload fs ∈ ts →
    reload toml_policy fs (sv_getuid sv) (sv_config sv) (sv_owner_policy sv) = Ok rl →
    refuses peer rl.

(** Every verification of [peer] was there in [w1], with the same call. *)
Definition only_in_flight (peer : Z) (w1 w : World) : Prop :=
  ∀ i t, w_tasks w !! i = Some t → ca_caller (vt_call t) = peer →
    ∃ t1, w_tasks w1 !! i = Some t1 ∧ vt_call t1 = vt_call t.

Lemma revoked_line peer rl line now sh :
  refuses peer rl →
  line_call sv rl peer line now sh
  = (None, with_metrics (with_metrics sh inc_requests) inc_failures).
Proof. unfold refuses, line_call. by intros ->. Qed.

Lemma tick_revoked peer w1 w t w' :
  refuses peer (w_reloadable w) ∧ only_in_flight peer w1 w → stays_refused peer [t] →
  do_tick w t = Some w' →
  refuses peer (w_reloadable w') ∧ only_in_flight peer w1 w'.
Proof.
  intros [Href Hin] Hst Ht. split.
  - apply tick_reloadable in Ht as [[-> _]|(fs & -> & E)]; [done|].
    eapply Hst; [by apply list_elem_of_singleton|exact E].
  - intros j u Hj Hp.
    destruct (tick_calls _ _ _ _ _ _ _ _ Ht Hj)
      as [(u' & Hu & Hcu)|(peer' & line & now & sh & -> & Hl)].
    { rewrite <-Hcu in Hp |- *. by apply Hin. }
    pose proof (line_call_Some _ _ _ _ _ _ _ _ Hl) as (_ & _ & Hc & _).
    rewrite Hp in Hc. subst peer'. by rewrite revoked_line in Hl.
Qed.

Lemma run_revoked peer w1 ts w :
  refuses peer (w_reloadable w1) → stays_refused peer ts → do_run w1 ts = Some w →
  refuses peer (w_reloadable w) ∧ only_in_flight peer w1 w.
Proof.
  intros Href Hst.
  apply (run_invariant inner toml_policy sv
    (λ w, refuses peer (w_reloadable w) ∧ only_in_flight peer w1 w) (λ t, stays_refused peer [t])).
  - intros w2 t w3 H2 Ht. by apply tick_revoked.
  - split; [done|]. intros i t Hi _. by eauto.
  - apply Forall_forall. intros t Hin fs rl Hfs. apply Hst.
    apply list_elem_of_singleton in Hfs. by subst t.
Qed.

(** C22: a reload revokes access, and what it does not reach is only what was
    under way.  Take any interleaving, and a reload in it after which the
    allowlist in force does not admit a peer, nor that of any later reload
    of the run.  A line of that peer read after the reload is closed without
    an answer: it draws no nonce, writes no audit entry, counts against no
    rate and starts no verification.  Every verification of the peer that
    there is later was under way when the reload took place: its line was
    read before it, and it goes on under the call it had then, with the
    configuration that was loaded when its line was read. *)
Theorem revocation_effective w0 pre fs post w1 w peer :
  w_tasks w0 = ∅ → do_run w0 (pre ++ [TkReload fs]) = Some w1 → do_run w1 post = Some w →
  refuses peer (w_reloadable w1) → stays_refused peer post →
  (∀ before i line now after w2, post = before ++ TkLine i peer line now :: after →
     do_run w1 before = Some w2 →
     (∀ le, le_reloadable le = w_reloadable w2 →
        handle_line inner sv peer line le (with_metrics (w_shared w2) inc_requests)
        = (CloseSilently, with_metrics (with_metrics (w_shared w2) inc_requests) inc_failures))
     ∧ ∀ w3, do_tick w2 (TkLine i peer line now) = Some w3 →
         w_tasks w3 = w_tasks w2 ∧ sh_nonces (w_shared w3) = sh_nonces (w_shared w2)
         ∧ sh_audit (w_shared w3) = sh_audit (w_shared w2)
         ∧ sh_rate (w_shared w3) = sh_rate (w_shared w2))
  ∧ (∀ i t, w_tasks w !! i = Some t → ca_caller (vt_call t) = peer →
       (∃ t1, w_tasks w1 !! i = Some t1 ∧ vt_call t1 = vt_call t)
       ∧ ∃ before line now after wr sh, pre = before ++ TkLine i peer line now :: after
           ∧ do_run w0 before = Some wr
           ∧ line_call sv (w_reloadable wr) peer line now (w_shared wr) = (Some (vt_call t), sh)
           ∧ ca_reloadable (vt_call t) = w_reloadable wr).
Proof.
  intros H0 H1 H2 Href Hst. split.
  - intros before i line now after w2 -> Hb.
    assert (stays_refused peer before) as Hsb by (intros fs' rl Hin; apply Hst; set_solver).
    destruct (run_revoked peer _ _ _ Href Hsb Hb) as [Hr _]. split.
    + intros le Hle. unfold handle_line. rewrite Hle. unfold refuses in Hr. by rewrite Hr.
    + intros w3 Ht. simpl in Ht. destruct (w_tasks w2 !! i); [done|].
      rewrite (revoked_line _ _ _ _ _ Hr) in Ht. by injection Ht as <-.
  - intros i t Hi Hp. destruct (run_revoked peer _ _ _ Href Hst H2) as [_ Hin].
    destruct (Hin i t Hi Hp) as (t1 & Ht1 & Hc). split; [by eauto|].
    destruct (run_read_from _ _ _ _ _ _ _ _ H0 H1 Ht1)
      as (before & peer' & line & now & after & wr & sh & Hts & Hr & Hl).
    rewrite Hc in Hl.
    pose proof (line_call_Some _ _ _ _ _ _ _ _ Hl) as (_ & Hrl & Hcaller & _).
    rewrite Hp in Hcaller. subst peer'.
    destruct after as [|x after _] using rev_ind.
    { apply app_inj_tail in Hts as [_ Hts]. discriminate Hts. }
    rewrite app_comm_cons, app_assoc in Hts. apply app_inj_tail in Hts as [-> _].
    by eexists before, line, now, after, wr, sh.
Qed.
End Revocation.

(** ** The concrete interleaving of [Interleave] *)

Lemma trio_result_typed s r : @result_from_str demo_wire s = Some r → wf_result r.
Proof. intros [= <-]. apply wf_signed_result. Qed.

Lemma trio_request_typed s req : @request_from_str trio_serde s = Ok req → wire_request req.
Proof.
  simpl. case_decide as Hs; [|done]. intros [= <-]. split.
  - simpl. assert (text 64 s) as H by (set_unfold in Hs; destruct_or! Hs; subst s; literal_text).
    eapply text_string; [exact H|by vm_compute].
  - intros p v uid [= <-] Hv. by vm_compute in Hv.
Qed.

Lemma trio_inner_typed : inner_typed (λ _, "inner").
Proof. intros e. split; [reflexivity|by vm_compute]. Qed.

Lemma trio_registry_typed : registry_typed (sv_registry demo_server).
Proof.
  apply (built_registry_typed sample_configs); [|reflexivity].
  repeat constructor; simpl; first [reflexivity | discriminate | lia | set_solver].
Qed.

Lemma trio_ticks_typed : Forall tick_typed trio_ticks.
Proof.
  assert (∀ n, length n = 32%nat → tick_typed (TkBegin 0 (trio_begin n))) as Hbegin.
  { intros n Hn. split; [reflexivity|]. by intros k m [= <-]. }
  repeat (apply Forall_cons; split; [first [exact I|by vm_compute|by apply Hbegin]|]).
  apply Forall_nil_2.
Qed.

Lemma trio_start_typed : world_typed trio_start.
Proof. split; [apply map_Forall_empty|apply map_Forall_empty|by vm_compute]. Qed.

(** Both answers of the interleaving carry the same evidence; one is allowed. *)
Lemma interleaved_no_replay_witness :
  let history := (nonce_run nonce_store_new
                    (@run_nonce_ops sample_crypto sample_serde demo_wire trio_serde
                       (λ _, "inner") start_policy demo_server trio_start trio_ticks)).1 in
  @evidence_nonce demo_wire trio_ticks 0 = Some (res_nonce signed_result)
  ∧ @evidence_nonce demo_wire trio_ticks 1 = Some (res_nonce signed_result)
  ∧ size (@allowed_on demo_wire (res_nonce signed_result) trio_ticks (w_tasks trio_end)) = 1%nat
  ∧ (size (@allowed_on demo_wire (res_nonce signed_result) trio_ticks (w_tasks trio_end))
     ≤ spends (res_nonce signed_result) history ≤ issues (res_nonce signed_result) history)%nat.
Proof.
  split; [vm_compute; reflexivity|]. split; [vm_compute; reflexivity|].
  split; [vm_compute; reflexivity|].
  apply (@interleaved_no_replay sample_crypto sample_serde demo_wire trio_serde (λ _, "inner")
           start_policy demo_server trio_start trio_ticks trio_end (res_nonce signed_result)).
  - reflexivity.
  - reflexivity.
  - exact trio_runs.
Defined.

Lemma types_preserved_witness : world_typed trio_end.
Proof.
  apply (@types_preserved sample_crypto sample_serde demo_wire trio_serde (λ _, "inner")
           start_policy demo_server trio_result_typed trio_request_typed trio_inner_typed
           trio_registry_typed trio_start trio_ticks).
  - exact trio_start_typed.
  - exact trio_ticks_typed.
  - exact trio_runs.
Defined.

(** The rotation of the interleaving leaves one entry in each file. *)
Definition trio_archive : list byte :=
  @run_archive sample_crypto sample_serde demo_wire trio_serde (λ _, "inner") start_policy
    demo_server trio_start trio_ticks.

Lemma interleaved_audit_complete_witness :
  let audit := guarded (sh_audit (w_shared trio_end)) in
  length (acked_entries (w_tasks trio_end)) = 2%nat
  ∧ length (split_on nl trio_archive) = 2%nat ∧ length (split_on nl (au_file audit)) = 2%nat
  ∧ ∃ ls es, trio_archive ++ au_file audit = unlines ls ∧ @entries_of sample_serde ls ([] ++ es)
      ∧ content <$> es ≡ₚ content <$> acked_entries (w_tasks trio_end)
      ∧ @verify_reader sample_crypto sample_serde (trio_archive ++ au_file audit) true
        = Ok (mk_report
                (Z.of_nat (length (A := AuditEntry) []
                           + length (acked_entries (w_tasks trio_end))))
                (au_prev_hash audit)).
Proof.
  intros audit. split; [vm_compute; reflexivity|]. split; [vm_compute; reflexivity|].
  split; [vm_compute; reflexivity|].
  apply (@interleaved_audit_complete sample_crypto sample_crypto_laws sample_serde
           sample_serde_laws demo_wire trio_serde (λ _, "inner") start_policy demo_server
           trio_result_typed trio_request_typed trio_inner_typed trio_registry_typed trio_start
           trio_ticks trio_end []).
  - reflexivity.
  - exact trio_start_typed.
  - apply log_inv_fresh.
  - exact trio_ticks_typed.
  - exact trio_runs.
  - vm_compute. reflexivity.
Defined.

(** A line of uid 1000 is being verified when a reload takes everybody off the
    list; the next line of uid 1000 gets nowhere, and the first goes on. *)
Definition revoke_fs : Fs :=
  mk_fs (λ path, if bool_decide (path = DEFAULT_ALLOWLIST_PATH) then Ok (start_file 384 [])
                 else start_files path)
    (λ _, Err IoNotFound) (λ _ mode, Ok (start_file mode [])) (λ _, Err IoNotFound).

Definition revoke_pre : list Tick :=
  [TkLine 0 1000 "a" (secs 4); TkBegin 0 (trio_begin (res_nonce signed_result))].
Definition revoke_post : list Tick :=
  [TkReopen revoke_fs; TkLine 1 1000 "b" (secs 5); TkAnswer 0 trio_answer; TkAppend 0 io_fine].

Definition revoked_world : World :=
  default trio_start (trio_run (revoke_pre ++ [TkReload revoke_fs])).
Definition revoked_end : World :=
  default trio_start
    (@run sample_crypto sample_serde demo_wire trio_serde (λ _, "inner") start_policy demo_server
       revoked_world revoke_post).

Lemma revocation_effective_witness :
  w_tasks revoked_end !! 1%nat = None
  ∧ (∃ t1, w_tasks revoked_world !! 0%nat = Some t1
       ∧ match w_tasks revoked_end !! 0%nat with
         | Some t => vt_call t1 = vt_call t ∧ allowed t = true
         | None => False
         end).
Proof.
  assert (match w_tasks revoked_end !! 0%nat with
          | Some t => ca_caller (vt_call t) = 1000 ∧ allowed t = true | None => False end) as Hend
    by (vm_compute; done).
  split; [vm_compute; reflexivity|].
  destruct (w_tasks revoked_end !! 0%nat) as [t|] eqn:Ht; [|destruct Hend].
  destruct (@revocation_effective sample_crypto sample_serde demo_wire trio_serde (λ _, "inner")
              start_policy demo_server trio_start revoke_pre revoke_fs revoke_post revoked_world
              revoked_end 1000) as [_ H].
  - reflexivity.
  - vm_compute. reflexivity.
  - vm_compute. reflexivity.
  - vm_compute. reflexivity.
  - intros fs rl Hin. exfalso. unfold revoke_post in Hin. set_unfold in Hin.
    destruct_or! Hin; discriminate Hin.
  - destruct (H 0%nat t Ht (proj1 Hend)) as [(t1 & Ht1 & Hc) _].
    exists t1. split; [exact Ht1|]. split; [exact Hc|exact (proj2 Hend)].
Defined.

(** A start on a log of one entry. *)
Definition restart_fs : Fs :=
  mk_fs start_files (λ _, Err IoNotFound)
    (λ _ mode, Ok (start_file mode (sample_line ++ [nl]))) (λ _, Err IoNotFound).

Definition restart_env : StartEnv :=
  mk_start_env (se_env start_env) (se_get_user start_env) restart_fs (se_adapters start_env)
    (se_keys start_env) (se_audit_dir start_env) (se_listen start_env) (se_arch start_env)
    (se_notify start_env) (se_watchdog_socket start_env) (se_signals start_env).

Definition restarted : result (Running (Proc := Threads)) StartError :=
  @start_server start_policy start_adapter Threads sample_kernel sample_crypto sample_serde
    sample_config restart_env root_process.

Definition restarted_running : Running (Proc := Threads) :=
  match restarted with
  | Ok rn => rn
  | Err _ => mk_running demo_server demo_reloadable demo_shared Activated root_process
  end.

Definition restarted_end : World :=
  default trio_start
    (@run sample_crypto sample_serde demo_wire trio_serde (λ _, "inner") start_policy
       (rn_server restarted_running) (started_world restarted_running) trio_ticks).

Lemma restarted_Ok : restarted = Ok restarted_running.
Proof.
  assert (match restarted with Ok _ => True | Err _ => False end) as Hok by (vm_compute; exact I).
  unfold restarted_running. by destruct restarted; [|destruct Hok].
Qed.

Lemma restarted_log_verifies_witness :
  let audit := guarded (sh_audit (w_shared restarted_end)) in
  @verify_reader sample_crypto sample_serde
    (@run_archive sample_crypto sample_serde demo_wire trio_serde (λ _, "inner") start_policy
       (rn_server restarted_running) (started_world restarted_running) trio_ticks
     ++ au_file audit) true
  = Ok (mk_report (1 + Z.of_nat (length (acked_entries (w_tasks restarted_end))))
          (au_prev_hash audit)).
Proof.
  apply (@restarted_log_verifies sample_crypto sample_crypto_laws sample_serde
           sample_serde_laws start_policy start_adapter Threads sample_kernel demo_wire trio_serde
           (λ _, "inner") sample_config restart_env root_process restarted_running
           (mk_report 1 (@entry_digest sample_crypto (set_prev_hash sample_entry ZERO_HASH)))
           trio_ticks restarted_end).
  - exact trio_result_typed.
  - exact trio_request_typed.
  - exact trio_inner_typed.
  - exact restarted_Ok.
  - vm_compute. reflexivity.
  - replace (au_file (guarded (sh_audit (rn_shared restarted_running))))
      with (sample_line ++ [nl]) by (vm_compute; reflexivity). exact sample_line_window.
  - exact trio_ticks_typed.
  - vm_compute. reflexivity.
  - vm_compute. reflexivity.
Defined.

Definition restarted_task : VTask :=
  default (mk_vtask (trio_call "a") None PcStart) (w_tasks restarted_end !! 0%nat).

Definition restarted_entry : AuditEntry :=
  match vt_pc restarted_task with PcOver entry _ _ => entry | _ => sample_entry end.

Lemma interleaved_allow_witness :
  ae_decision restarted_entry = "allow"
  ∧ restarted_entry ∈ acked_entries (w_tasks restarted_end)
  ∧ vt_nonce restarted_task = Some (res_nonce signed_result).
Proof.
  destruct (@interleaved_allow sample_crypto sample_crypto_laws sample_serde demo_wire trio_serde
              (λ _, "inner") start_policy start_adapter Threads sample_kernel sample_config
              restart_env root_process restarted_running trio_ticks restarted_end 0 restarted_task
              restarted_entry true (response_allow (Some "a") "fido2"))
    as (_ & H1 & _ & H2 & _).
  - exact restarted_Ok.
  - reflexivity.
  - vm_compute. reflexivity.
  - vm_compute. reflexivity.
  - vm_compute. reflexivity.
  - reflexivity.
  - split; [exact H1|]. split; [exact H2|]. vm_compute. reflexivity.
Defined.
