(* ===== verification/Daemon.v ===== *)
(** * The daemon: the accept loop of [run_server] in
    [crates/ola-core/src/infrastructure/ipc/unix_socket.rs]

    The loop, its client tasks, signals, the drain and the cleanup tasks as a
    labelled step relation.  A task runs until its next line: a line is one
    step, taken under the configuration loaded when the line is read, and what
    others do to the stores while it waits for its adapter is part of its
    inputs (see [Server] and [Interleave]). *)

From S2P Require Import Prelude RustStd Types SecureFs Policy Nonce RateLimit Allowlist.
From S2P Require Import Attestation AuditEntry AuditLog AuditChain Health Json Client AdapterConfig Registry Config Metrics.
From S2P Require Import Privilege Socket Server Startup Decision.
Open Scope Z_scope.

(** ** State *)

(** A member of the [JoinSet]. *)
Inductive Task : Type :=
| TSpawned (creds : option Z)          (* holds a permit, not yet polled *)
| TServing (peer : Z)                  (* in the loop of [handle_client] *)
| TDone                                (* returned, not yet joined *)
| TPanicked.

Inductive Phase : Type :=
| Selecting                            (* in [select!] *)
| Acquiring (creds : option Z)         (* accepted, waiting for a permit *)
| Draining                             (* after SIGINT or SIGTERM *)
| Aborting                             (* the drain time-out has elapsed *)
| Stopped.

(** [d_leaked] counts the connections that panicked or were aborted while the
    gauge of active connections counted them; the code does not keep it. *)
Record Daemon := mk_daemon {
  d_reloadable : ReloadableState;
  d_shared : Shared;
  d_phase : Phase;
  d_permits : nat;
  d_tasks : gmap nat Task;
  d_next : nat;
  d_leaked : nat
}.

Definition daemon_start {Proc} (rn : Running (Proc := Proc)) : Daemon :=
  mk_daemon (rn_reloadable rn) (rn_shared rn) Selecting (Z.to_nat MAX_CONNECTIONS) ∅ 0 0.

(** The state with new stores, phase or tasks. *)
Definition d_with (d : Daemon) (rl : ReloadableState) (sh : Shared) : Daemon :=
  mk_daemon rl sh (d_phase d) (d_permits d) (d_tasks d) (d_next d) (d_leaked d).
Definition d_enter (d : Daemon) (ph : Phase) : Daemon :=
  mk_daemon (d_reloadable d) (d_shared d) ph (d_permits d) (d_tasks d) (d_next d) (d_leaked d).
Definition d_joined (d : Daemon) (i : nat) (sh : Shared) : Daemon :=
  mk_daemon (d_reloadable d) sh (d_phase d) (d_permits d) (delete i (d_tasks d)) (d_next d)
    (d_leaked d).

(** A permit is there: the connection gets a task. *)
Definition d_spawned (d : Daemon) (creds : option Z) (n : nat) : Daemon :=
  mk_daemon (d_reloadable d) (d_shared d) Selecting n
    (<[d_next d := TSpawned creds]> (d_tasks d)) (S (d_next d)) (d_leaked d).

(** What follows when [handle_client] is left with [r] and [sh], or waits on. *)
Definition d_after (d : Daemon) (i : nat) (peer : Z) (r : option (result unit ClientError))
    (sh : Shared) : Daemon :=
  match r with
  | None =>
      mk_daemon (d_reloadable d) sh (d_phase d) (d_permits d) (<[i := TServing peer]> (d_tasks d))
        (d_next d) (d_leaked d)
  | Some r =>
      let sh := with_metrics sh dec_active_connections in
      let sh := match r with Ok _ => sh | Err _ => with_metrics sh inc_failures end in
      mk_daemon (d_reloadable d) sh (d_phase d) (S (d_permits d)) (<[i := TDone]> (d_tasks d))
        (d_next d) (d_leaked d)
  end.

(** The task panics; its permit is dropped, the gauge is not turned back. *)
Definition d_panicked (d : Daemon) (i : nat) (leaked : nat) : Daemon :=
  mk_daemon (d_reloadable d) (d_shared d) (d_phase d) (S (d_permits d))
    (<[i := TPanicked]> (d_tasks d)) (d_next d) leaked.

(** The task is cancelled and joined. *)
Definition d_aborted (d : Daemon) (i : nat) (leaked : nat) : Daemon :=
  mk_daemon (d_reloadable d) (d_shared d) (d_phase d) (S (d_permits d)) (delete i (d_tasks d))
    (d_next d) leaked.

(** ** Steps *)

(** What a step does that can be seen from outside. *)
Inductive Label : Type :=
| LInternal
| LReload (fs : Fs)
| LLine (peer : Z) (line : string) (le : LineEnv) (sent : list Response).

Definition ev_label (peer : Z) (ev : ClientEvent) (sent : list Response) : Label :=
  match ev with EvLine line le => LLine peer line le sent | _ => LInternal end.

(** The configuration a line is handled under is the one in force. *)
Definition ev_current (rl : ReloadableState) (ev : ClientEvent) : Prop :=
  match ev with EvLine _ le => le_reloadable le = rl | _ => True end.

Section Steps.
Context `{C : Crypto} `{SD : AuditSerde} `{W : WireSerde} `{SS : ServerSerde}.
Context (inner : AdapterError → string).
Context (toml_policy : string → option (list RawRule)).
Context (sv : Server).

(** The granularity is that of the accept loop and of whole lines: a line is
    read, handled and answered in one step, what others do to the stores
    meanwhile being part of [LineEnv].  A line that is still under way when a
    signal is handled or its task ends is not a state of this relation;
    [Interleave] cuts a line at its awaits, with reloads and cancellations
    in between. *)
Inductive step (d : Daemon) : Label → Daemon → Prop :=
(** [select!] *)
| step_signal : d_phase d = Selecting → step d LInternal (d_enter d Draining)
| step_hup fs rl sh :
    d_phase d = Selecting →
    reload_state toml_policy fs sv (d_reloadable d) (d_shared d) = (rl, sh) →
    step d (LReload fs) (d_with d rl sh)
| step_accept_failed :
    d_phase d = Selecting →
    step d LInternal (d_with d (d_reloadable d) (with_metrics (d_shared d) inc_failures))
| step_accepted creds : d_phase d = Selecting → step d LInternal (d_enter d (Acquiring creds))
| step_acquired creds n :
    d_phase d = Acquiring creds → d_permits d = S n → step d LInternal (d_spawned d creds n)
(** [join_next], also while draining and after the abort *)
| step_join i :
    d_phase d ∈ [Selecting; Draining; Aborting] → d_tasks d !! i = Some TDone →
    step d LInternal (d_joined d i (d_shared d))
| step_join_panicked i :
    d_phase d ∈ [Selecting; Draining] → d_tasks d !! i = Some TPanicked →
    step d LInternal (d_joined d i (with_metrics (d_shared d) inc_failures))
| step_join_discarded i :
    d_phase d = Aborting → d_tasks d !! i = Some TPanicked →
    step d LInternal (d_joined d i (d_shared d))
(** a client task *)
| step_task_start i creds r sent sh :
    d_phase d ≠ Stopped → d_tasks d !! i = Some (TSpawned creds) →
    handle_client inner sv creds (d_reloadable d) []
      (with_metrics (d_shared d) inc_active_connections) = (r, sent, sh) →
    step d LInternal (d_after d i (default 0 creds) r sh)
| step_task_event i peer ev r sent sh :
    d_phase d ≠ Stopped → d_tasks d !! i = Some (TServing peer) →
    ev_current (d_reloadable d) ev →
    client_loop inner sv peer [ev] (d_shared d) = (r, sent, sh) →
    step d (ev_label peer ev sent) (d_after d i peer r sh)
| step_task_panics i peer :
    d_phase d ≠ Stopped → d_tasks d !! i = Some (TServing peer) →
    step d LInternal (d_panicked d i (S (d_leaked d)))
(** the cleanup tasks of the nonce store and of the rate limiter *)
| step_clean_nonces now :
    step d LInternal
      (d_with d (d_reloadable d) (with_nonces (d_shared d) (cleanup (sh_nonces (d_shared d)) now)))
| step_clean_rates now :
    step d LInternal
      (d_with d (d_reloadable d)
         (with_rate (d_shared d)
            (rate_step RATE_LIMIT_PER_UID (sh_rate (d_shared d)) (OpSweep now)).2))
(** the drain *)
| step_drained : d_phase d = Draining → d_tasks d = ∅ → step d LInternal (d_enter d Stopped)
| step_drain_elapsed : d_phase d = Draining → step d LInternal (d_enter d Aborting)
| step_abort_spawned i creds :
    d_phase d = Aborting → d_tasks d !! i = Some (TSpawned creds) →
    step d LInternal (d_aborted d i (d_leaked d))
| step_abort_serving i peer :
    d_phase d = Aborting → d_tasks d !! i = Some (TServing peer) →
    step d LInternal (d_aborted d i (S (d_leaked d)))
| step_aborted : d_phase d = Aborting → d_tasks d = ∅ → step d LInternal (d_enter d Stopped).

(** Runs with their labels. *)
Inductive steps (d : Daemon) : list Label → Daemon → Prop :=
| steps_refl : steps d [] d
| steps_snoc ls d1 l d2 : steps d ls d1 → step d1 l d2 → steps d (ls ++ [l]) d2.
End Steps.

(** ** Lemmas: what a line does to the shared state *)

(** The parts of the shared state a verification leaves alone. *)
Definition keeps (sh sh' : Shared) : Prop :=
  sh_rate sh' = sh_rate sh
  ∧ ACTIVE_CONNECTIONS (sh_metrics sh') = ACTIVE_CONNECTIONS (sh_metrics sh).

#[global] Instance keeps_preorder : PreOrder keeps.
Proof.
  split; [done|]. intros a b c [H1 H2] [H3 H4]. split; congruence.
Qed.

Section Lines.
Context {C : Crypto} {SD : AuditSerde} {W : WireSerde} {SS : ServerSerde}.
Context (inner : AdapterError → string).

Lemma write_audit_keeps sh entry id env : keeps sh (write_audit_or_error sh entry id env).2.
Proof.
  unfold write_audit_or_error. by destruct (log _ entry _) as [[] ?].
Qed.

Lemma audit_deny_keeps sh entry id reason env : keeps sh (audit_deny sh entry id reason env).2.
Proof.
  unfold audit_deny. pose proof (write_audit_keeps sh entry id env) as H.
  by destruct (write_audit_or_error _ _ _ _) as [[] ?].
Qed.

Lemma deny_keeps sh m entry id reason env :
  keeps sh (audit_deny (with_nonces sh m) entry id reason env).2.
Proof. exact (audit_deny_keeps (with_nonces sh m) entry id reason env). Qed.

Lemma decide_result_keeps sv rl sh caller uid id resolved request result env :
  keeps sh (decide_result sv rl sh caller uid id resolved request result env).2.
Proof.
  unfold decide_result. destruct (consume _ _ _ _) as [[?|?] m]; [|apply deny_keeps].
  destruct (if require_attestation _ then _ else _); [|apply deny_keeps].
  destruct (negb _); [apply deny_keeps|].
  match goal with |- context [write_audit_or_error (with_nonces sh m) ?e ?i ?v] =>
    pose proof (write_audit_keeps (with_nonces sh m) e i v) as H;
    destruct (write_audit_or_error (with_nonces sh m) e i v) as [[] sh'] end; [|done].
  by destruct (evaluate _ _ _).
Qed.

Lemma challenge_adapter_keeps sv rl sh caller uid id resolved nonce env :
  keeps sh (challenge_adapter inner sv rl sh caller uid id resolved nonce env).2.
Proof.
  unfold challenge_adapter, spend.
  match goal with |- context [with_nonces sh ?m] => trans (with_nonces sh m); [done|] end.
  destruct (dispatch_resolved _ _ _ _ _) as [[res|] ?]; [|apply deny_keeps].
  case_bool_decide; [apply deny_keeps|]. destruct (_ <? _); [apply deny_keeps|].
  apply decide_result_keeps.
Qed.

Lemma handle_verify_once_keeps sv rl sh caller uid method id env :
  keeps sh (handle_verify_once inner sv rl sh caller uid method id env).2.
Proof.
  unfold handle_verify_once. destruct (resolve _ _ _); [|apply audit_deny_keeps].
  destruct (generate _ _ _ _) as [[nonce|] nonces]; [|apply deny_keeps].
  etrans; [|apply challenge_adapter_keeps]. done.
Qed.

Lemma handle_request_keeps sv peer req le sh :
  keeps sh (handle_request inner sv peer req le sh).2
  ∧ (sound (sh_nonces sh) → sound (sh_nonces (handle_request inner sv peer req le sh).2)).
Proof.
  unfold handle_request. repeat (case_bool_decide; [done|]).
  case_bool_decide; [|done]. destruct (request_uid _ _) as [uid|]; [|done].
  destruct (request_method _) as [method|]; [|done].
  pose proof (handle_verify_once_keeps sv (le_reloadable le) sh peer uid method (rq_id req)
                (le_verify le)) as Hk.
  pose proof (handle_verify_once_sound inner sv (le_reloadable le) sh peer uid method (rq_id req)
                (le_verify le)) as Hs.
  by destruct (handle_verify_once _ _ _ _ _ _ _ _ _).
Qed.

(** Stores in order. *)
Definition stores_ok (sh : Shared) : Prop := sound (sh_nonces sh) ∧ rl_ok (sh_rate sh).

Lemma rate_ops_ok ops rate :
  rl_ok rate → rl_ok (foldl (λ r op, (rate_step RATE_LIMIT_PER_UID r op).2) rate ops).
Proof.
  revert rate. induction ops as [|op ops IH]; intros rate H; [done|]. simpl.
  by apply IH, rate_step_ok.
Qed.

Lemma handle_line_ok sv peer line le sh :
  stores_ok sh →
  let sh' := (handle_line inner sv peer line le sh).2 in
  stores_ok sh' ∧ ACTIVE_CONNECTIONS (sh_metrics sh') = ACTIVE_CONNECTIONS (sh_metrics sh).
Proof.
  intros [Hn Hr]. unfold handle_line. destruct (is_allowed _ _ _); simpl; [|by split; [split|]].
  pose proof (rate_ops_ok (le_rate_ops le) _ Hr) as Hr1.
  destruct (check _ peer _ _) as [admitted rate] eqn:Hc.
  assert (rl_ok rate) as Hr2.
  { pose proof (check_rl_ok _ peer RATE_LIMIT_PER_UID (le_rate_now le) Hr1) as [H _].
    by rewrite Hc in H. }
  destruct admitted; simpl; [|by split; [split|]].
  destruct (request_from_str line) as [req|]; simpl; [|by split; [split|]].
  destruct (rq_version req =? PROTOCOL_VERSION); simpl; [|by split; [split|]].
  destruct (handle_request_keeps sv peer req le (with_rate sh rate)) as [[K1 K2] K3].
  split; [split|done]; [by apply K3|by rewrite K1].
Qed.

Lemma client_event_ok sv peer ev sh r sent sh' :
  client_loop inner sv peer [ev] sh = (r, sent, sh') → stores_ok sh →
  stores_ok sh' ∧ ACTIVE_CONNECTIONS (sh_metrics sh') = ACTIVE_CONNECTIONS (sh_metrics sh).
Proof.
  intros H Hok. destruct ev as [| | |line le]; simpl in H; try by simplify_eq.
  pose proof (handle_line_ok sv peer line le (with_metrics sh inc_requests) Hok) as Hl.
  destruct (handle_line _ _ _ _ _ _) as [out sh1]. simpl in Hl.
  destruct out; [by simplify_eq..|]. destruct (send _ _) as [[]|]; by simplify_eq.
Qed.

Lemma client_start_ok sv creds rl sh r sent sh' :
  handle_client inner sv creds rl [] sh = (r, sent, sh') → stores_ok sh →
  stores_ok sh' ∧ ACTIVE_CONNECTIONS (sh_metrics sh') = ACTIVE_CONNECTIONS (sh_metrics sh).
Proof.
  unfold handle_client. intros H Hok. destruct creds as [peer|]; [|by simplify_eq].
  destruct (is_allowed _ _ _); by simplify_eq/=.
Qed.
End Lines.

(** ** Lemmas: counting tasks *)

Definition live (t : Task) : bool :=
  match t with TSpawned _ | TServing _ => true | _ => false end.
Definition serving (t : Task) : bool := match t with TServing _ => true | _ => false end.

(** ** The invariant *)

Record daemon_ok (d : Daemon) : Prop := {
  do_permits : (d_permits d + tally live (d_tasks d) = 16)%nat;
  do_gauge :
    Z.of_nat (d_leaked d) + 16 ≤ u64_max →
    ACTIVE_CONNECTIONS (sh_metrics (d_shared d))
    = Z.of_nat (tally serving (d_tasks d) + d_leaked d);
  do_fresh : ∀ i, (d_next d ≤ i)%nat → d_tasks d !! i = None;
  do_stores : stores_ok (d_shared d);
  do_policy : wf_policy (pe_rules (rl_policy_engine (d_reloadable d)));
  do_stopped : d_phase d = Stopped → d_tasks d = ∅
}.

Lemma tally_serving_live m : (tally serving m ≤ tally live m)%nat.
Proof.
  unfold tally. apply map_subseteq_size, map_filter_subseteq_ext. intros i x _. by destruct x.
Qed.

(** New stores that keep the gauge. *)
Lemma daemon_ok_with d rl sh :
  daemon_ok d → stores_ok sh → wf_policy (pe_rules (rl_policy_engine rl)) →
  ACTIVE_CONNECTIONS (sh_metrics sh) = ACTIVE_CONNECTIONS (sh_metrics (d_shared d)) →
  daemon_ok (d_with d rl sh).
Proof. intros [] ? ? Ha. split; simpl; try done. by rewrite Ha. Qed.

Lemma daemon_ok_enter d ph :
  daemon_ok d → (ph = Stopped → d_tasks d = ∅) → daemon_ok (d_enter d ph).
Proof. intros [] H. by split. Qed.

Lemma daemon_ok_joined d i t sh :
  daemon_ok d → d_tasks d !! i = Some t → live t = false → stores_ok sh →
  ACTIVE_CONNECTIONS (sh_metrics sh) = ACTIVE_CONNECTIONS (sh_metrics (d_shared d)) →
  daemon_ok (d_joined d i sh).
Proof.
  intros [H1 H2 H3 H4 H5 H6] Hi Hl Hs Ha.
  pose proof (tally_delete live _ _ _ Hi) as L. pose proof (tally_delete serving _ _ _ Hi) as S.
  rewrite Hl in L. assert (serving t = false) as Ht by (by destruct t). rewrite Ht in S.
  split; simpl; try done.
  - lia.
  - intros Hb. rewrite Ha, H2 by done. simpl in S. by rewrite S.
  - intros j Hj. rewrite lookup_delete_None. auto.
  - intros Hp. by rewrite H6, delete_empty.
Qed.

(** A task that leaves the loop of clients: panicked or aborted. *)
Lemma daemon_ok_lost d i t tasks leaked :
  daemon_ok d → d_tasks d !! i = Some t → live t = true → d_phase d ≠ Stopped →
  tasks = delete i (d_tasks d) ∨ tasks = <[i := TPanicked]> (d_tasks d) →
  leaked = (d_leaked d + (if serving t then 1 else 0))%nat →
  daemon_ok (mk_daemon (d_reloadable d) (d_shared d) (d_phase d) (S (d_permits d)) tasks
               (d_next d) leaked).
Proof.
  intros [H1 H2 H3 H4 H5 H6] Hi Hl Hp Ht ->.
  assert (tally live tasks + 1 = tally live (d_tasks d)
    ∧ tally serving tasks + (if serving t then 1 else 0) = tally serving (d_tasks d))%nat
    as [L S].
  { pose proof (tally_delete live _ _ _ Hi) as L. pose proof (tally_delete serving _ _ _ Hi) as S.
    pose proof (tally_update live _ _ _ TPanicked Hi) as L'.
    pose proof (tally_update serving _ _ _ TPanicked Hi) as S'.
    rewrite Hl in L, L'. simpl in L', S'. destruct Ht as [-> | ->]; lia. }
  split; simpl; try done.
  - lia.
  - intros Hb. rewrite H2 by (destruct (serving t); lia). lia.
  - intros j Hj. destruct Ht as [-> | ->]; [rewrite lookup_delete_None; auto|].
    rewrite lookup_insert_ne; [auto|]. intros ->. rewrite H3 in Hi by done. done.
Qed.

(** A client that goes on or has returned. *)
Lemma daemon_ok_after d i t peer r sh :
  daemon_ok d → d_tasks d !! i = Some t → live t = true → d_phase d ≠ Stopped →
  stores_ok sh →
  (Z.of_nat (d_leaked d) + 16 ≤ u64_max →
   ACTIVE_CONNECTIONS (sh_metrics sh)
   = Z.of_nat (tally serving (delete i (d_tasks d)) + d_leaked d) + 1) →
  daemon_ok (d_after d i peer r sh).
Proof.
  intros [H1 H2 H3 H4 H5 H6] Hi Hl Hp Hs Ha.
  assert (∀ u j, (d_next d ≤ j)%nat → <[i := u]> (d_tasks d) !! j = None) as Hfresh.
  { intros u j Hj. rewrite lookup_insert_ne; [auto|]. intros ->. by rewrite H3 in Hi. }
  assert (∀ f u, tally f (<[i := u]> (d_tasks d))
    = (tally f (delete i (d_tasks d)) + (if f u then 1 else 0))%nat) as Hcount.
  { intros f u. rewrite (tally_delete f (<[i := u]> _) i u) by apply lookup_insert_eq.
    rewrite delete_insert_eq. lia. }
  pose proof (tally_delete live _ _ _ Hi) as L. rewrite Hl in L.
  destruct r as [r|]; [|split; simpl; try done].
  - assert (∀ sh0, ACTIVE_CONNECTIONS (sh_metrics sh0)
        = ACTIVE_CONNECTIONS (dec_active_connections (sh_metrics sh)) → stores_ok sh0 →
      daemon_ok (mk_daemon (d_reloadable d) sh0 (d_phase d) (S (d_permits d))
                   (<[i := TDone]> (d_tasks d)) (d_next d) (d_leaked d))) as Hdone.
    { intros sh0 Hm Hs0. split; simpl; try done; [rewrite Hcount; simpl; lia| |by auto].
      intros Hb. rewrite Hm, dec_active_value, Ha, Hcount by (rewrite ?Ha by done; lia).
      unfold saturating_sub. simpl. lia. }
    destruct r; by apply Hdone.
  - rewrite Hcount. simpl. lia.
  - intros Hb. rewrite Ha, Hcount by done. simpl. lia.
  - by auto.
Qed.

Section Reach.
Context {C : Crypto} {SD : AuditSerde} {W : WireSerde} {SS : ServerSerde}.
Context (inner : AdapterError → string).
Context (toml_policy : string → option (list RawRule)).
Context (sv : Server).

Lemma step_ok d l d' : step inner toml_policy sv d l d' → daemon_ok d → daemon_ok d'.
Proof.
  intros Hst Hok. pose proof Hok as [H1 H2 H3 H4 H5 H6].
  destruct Hst as [Hp|fs rl sh Hp Hr|Hp|creds Hp|creds n Hp Hn|i Hp Hi|i Hp Hi|i Hp Hi
    |i creds r sent sh Hp Hi Hc|i peer ev r sent sh Hp Hi Hcur Hc|i peer Hp Hi|now|now|Hp Ht|Hp
    |i creds Hp Hi|i peer Hp Hi|Hp Ht].
  - by apply daemon_ok_enter.
  - destruct (reload_state_stores _ _ _ _ _ _ _ Hr) as (E1 & E2 & E3).
    apply daemon_ok_with; try done; [split; [rewrite E1|rewrite E2]; apply H4|].
    by apply reload_state_config in Hr as [-> | [_ [? _]]].
  - by apply daemon_ok_with.
  - by apply daemon_ok_enter.
  - split; simpl; try done; rewrite ?tally_insert by auto; simpl; [lia|done|].
    intros j Hj. rewrite lookup_insert_ne by lia. apply H3. lia.
  - by apply (daemon_ok_joined _ _ TDone).
  - by apply (daemon_ok_joined _ _ TPanicked).
  - by apply (daemon_ok_joined _ _ TPanicked).
  - apply client_start_ok in Hc as [Hs Ha]; [|done].
    apply (daemon_ok_after _ _ (TSpawned creds)); try done. intros Hb. rewrite Ha. simpl.
    pose proof (tally_delete serving _ _ _ Hi). pose proof (tally_delete live _ _ _ Hi).
    pose proof (tally_serving_live (delete i (d_tasks d))). simpl in *.
    rewrite H2 by done. unfold wrapping_add_u64. rewrite Z.mod_small; unfold u64_max in *; lia.
  - apply client_event_ok in Hc as [Hs Ha]; [|done].
    apply (daemon_ok_after _ _ (TServing peer)); try done. intros Hb. rewrite Ha, H2 by done.
    pose proof (tally_delete serving _ _ _ Hi). simpl in *. lia.
  - apply (daemon_ok_lost d i (TServing peer)); [done..|by right|simpl; lia].
  - apply daemon_ok_with; try done. split; [apply cleanup_refines, H4|apply H4].
  - apply daemon_ok_with; try done. split; [apply H4|apply rate_step_ok, H4].
  - by apply daemon_ok_enter.
  - by apply daemon_ok_enter.
  - apply (daemon_ok_lost d i (TSpawned creds)); [done..|congruence|by left|simpl; lia].
  - apply (daemon_ok_lost d i (TServing peer)); [done..|congruence|by left|simpl; lia].
  - by apply daemon_ok_enter.
Qed.

Lemma steps_ok d ls d' : steps inner toml_policy sv d ls d' → daemon_ok d → daemon_ok d'.
Proof. induction 1; eauto using step_ok. Qed.

Lemma daemon_start_ok {Proc} (rn : Running (Proc := Proc)) :
  sh_nonces (rn_shared rn) = nonce_store_new → sh_rate (rn_shared rn) = rate_limiter_new →
  sh_metrics (rn_shared rn) = metrics_zero →
  wf_policy (pe_rules (rl_policy_engine (rn_reloadable rn))) → daemon_ok (daemon_start rn).
Proof.
  intros Hn Hr Hm Hp. split; simpl; try done; [by rewrite Hm|].
  split; [rewrite Hn; apply sound_new|]. rewrite Hr. by split; [|simpl; rewrite map_size_empty; lia].
Qed.
End Reach.

Lemma start_server_fresh tp ta {Proc} {K : Kernel Proc} {C : Crypto} {SD : AuditSerde}
    config se (p : Proc) rn :
  start_server tp ta config se p = Ok rn → daemon_ok (daemon_start rn).
Proof.
  intros H. apply start_server_inv in H as
    (owner & reg & rl & at' & lg & l & p' & [_ _ _ H4 _ _ _ _] & ->).
  apply load_Ok in H4 as [_ [? _]]. by apply daemon_start_ok.
Qed.

(** ** Lemmas: lines and configurations along a run *)

Section Runs.
Context {C : Crypto} {SD : AuditSerde} {W : WireSerde} {SS : ServerSerde}.
Context (inner : AdapterError → string).
Context (toml_policy : string → option (list RawRule)).
Context (sv : Server).
Local Abbreviation step := (step inner toml_policy sv).
Local Abbreviation steps := (steps inner toml_policy sv).

(** A line is handled by the loop of its connection, under the configuration
    in force. *)
Lemma step_line d peer line le sent d' :
  step d (LLine peer line le sent) d' →
  le_reloadable le = d_reloadable d
  ∧ ∃ r sh, client_loop inner sv peer [EvLine line le] (d_shared d) = (r, sent, sh).
Proof.
  intros H. inversion H; subst.
  match goal with E : ev_label _ ?ev _ = _ |- _ => destruct ev; simplify_eq/= end. eauto.
Qed.

(** No reload among [ls] succeeded. *)
Definition reloads_failed (ls : list Label) : Prop :=
  ∀ fs rl, LReload fs ∈ ls →
    reload toml_policy fs (sv_getuid sv) (sv_config sv) (sv_owner_policy sv) ≠ Ok rl.

(** [fs] is what the last load before the end of [ls] found: a reload that
    succeeded and after which none did, or the start. *)
Definition loaded_last (start : Fs) (ls : list Label) (fs : Fs) : Prop :=
  (fs = start ∧ reloads_failed ls)
  ∨ ∃ before after, ls = before ++ LReload fs :: after ∧ reloads_failed after
      ∧ ∃ rl, reload toml_policy fs (sv_getuid sv) (sv_config sv) (sv_owner_policy sv) = Ok rl.

Lemma step_reloadable d l d' :
  step d l d' →
  d_reloadable d' = d_reloadable d ∧ reloads_failed [l]
  ∨ ∃ fs, l = LReload fs
      ∧ reload toml_policy fs (sv_getuid sv) (sv_config sv) (sv_owner_policy sv)
        = Ok (d_reloadable d').
Proof.
  assert ((∀ fs, l ≠ LReload fs) → reloads_failed [l]) as Hf.
  { intros Hne fs rl Hin. apply list_elem_of_singleton in Hin. by destruct (Hne fs). }
  intros H. destruct H; try (left; split; [done|by apply Hf]).
  - match goal with E : reload_state _ ?fs _ _ _ = _ |- _ => unfold reload_state in E;
      destruct (AuditLog.reopen _ _ _) as [ro lg];
      destruct (reload _ fs _ _ _) as [new|] eqn:Hr; destruct ro; simplify_eq/= end;
      [right; eauto..|left|left]; (split; [done|]); intros ? ? Hin;
      apply list_elem_of_singleton in Hin; congruence.
  - left. split; [by destruct r|by apply Hf].
  - left. split; [by destruct r|apply Hf]. by destruct ev.
Qed.

(** The configuration in force is that of the last load. *)
Lemma steps_reloadable d ls d' :
  steps d ls d' →
  d_reloadable d' = d_reloadable d ∧ reloads_failed ls
  ∨ ∃ before fs after, ls = before ++ LReload fs :: after ∧ reloads_failed after
      ∧ reload toml_policy fs (sv_getuid sv) (sv_config sv) (sv_owner_policy sv)
        = Ok (d_reloadable d').
Proof.
  induction 1 as [|ls d1 l d2 Hr IH Hs]; [left; split; [done|intros ? ? Hin; set_solver]|].
  assert (∀ k, reloads_failed k → reloads_failed [l] → reloads_failed (k ++ [l])) as Happ.
  { intros k H1 H2 fs rl [?|?]%elem_of_app; eauto. }
  apply step_reloadable in Hs as [[-> Hf] | (fs & -> & E)].
  - destruct IH as [[? ?]|(b & fs & a & -> & ? & ?)]; [left; by auto|right].
    exists b, fs, (a ++ [l]). rewrite <-app_assoc. by auto.
  - right. exists ls, fs, []. split; [done|]. split; [|done]. intros ? ? Hin. set_solver.
Qed.
End Runs.

(** ** The properties of the daemon *)

(** C18: the state of a running daemon, at any moment of any run.  The
    connections that are served and the free permits add up to 16, so there
    are never more than 16 connections; the gauge of active connections is
    the number of those served plus those that were lost to a panic or an
    abort; the nonce store and the rate limiter keep their invariants; the
    policy in force is well formed; and a stopped daemon has no task left
    and all its permits back. *)
Theorem daemon_invariant toml_policy toml_adapter {Proc} {K : Kernel Proc} {C : Crypto}
    {SD : AuditSerde} {W : WireSerde} {SS : ServerSerde} inner config se (p : Proc) rn ls d :
  start_server toml_policy toml_adapter config se p = Ok rn →
  steps inner toml_policy (rn_server rn) (daemon_start rn) ls d →
  (d_permits d + tally live (d_tasks d) = 16)%nat
  ∧ (Z.of_nat (d_leaked d) + 16 ≤ u64_max →
     ACTIVE_CONNECTIONS (sh_metrics (d_shared d))
     = Z.of_nat (tally serving (d_tasks d) + d_leaked d))
  ∧ sound (sh_nonces (d_shared d)) ∧ rl_ok (sh_rate (d_shared d))
  ∧ wf_policy (pe_rules (rl_policy_engine (d_reloadable d)))
  ∧ (d_phase d = Stopped → d_tasks d = ∅ ∧ d_permits d = 16%nat).
Proof.
  intros Hst Hsteps. apply start_server_fresh in Hst.
  destruct (steps_ok _ _ _ _ _ _ Hsteps Hst) as [H1 H2 _ [H3 H4] H5 H6].
  split_and!; try done. intros Hp. split; [by auto|]. rewrite H6 in H1 by done.
  unfold tally in H1. rewrite map_filter_empty, map_size_empty in H1. lia.
Qed.

(** The configuration in force in production, wherever it came from. *)
Lemma production_config toml_policy toml_adapter {Proc} {K : Kernel Proc} {C : Crypto}
    {SD : AuditSerde} {W : WireSerde} {SS : ServerSerde} inner config se (p : Proc) rn ls d :
  start_server toml_policy toml_adapter config se p = Ok rn → is_prod_mode config = true →
  steps inner toml_policy (rn_server rn) (daemon_start rn) ls d →
  ∃ fs me, loaded_last toml_policy (rn_server rn) (se_fs se) ls fs
    ∧ trusted_allowlist fs me config (sv_owner_policy (rn_server rn))
        (rl_allowlist (d_reloadable d))
    ∧ trusted_policy toml_policy fs me config (sv_owner_policy (rn_server rn))
        (rl_policy_engine (d_reloadable d)).
Proof.
  intros Hst Hprod Hs. destruct (started_config _ _ _ _ _ _ Hst Hprod) as (Hcfg & me & Hal & Hpol).
  apply steps_reloadable in Hs as [[-> Hf] | (b & fs & a & -> & Hf & E)].
  - exists (se_fs se), me. split; [by left|done].
  - pose proof E as [Ha Hp]%reload_Ok. rewrite Hcfg in Ha, Hp.
    exists fs, (sv_getuid (rn_server rn)). split; [right; by eauto 10|done].
Qed.


(** ** Shutdown *)

Section Shutdown.
Context {C : Crypto} {SD : AuditSerde} {W : WireSerde} {SS : ServerSerde}.
Context (inner : AdapterError → string).
Context (toml_policy : string → option (list RawRule)).
Context (sv : Server).

Lemma steps_cons d l d1 ls d2 :
  step inner toml_policy sv d l d1 → steps inner toml_policy sv d1 ls d2 →
  steps inner toml_policy sv d (l :: ls) d2.
Proof.
  intros H. induction 1 as [|ls da k db Hs IH Hk].
  - apply (steps_snoc _ _ _ _ [] d); [constructor|done].
  - by apply (steps_snoc _ _ _ _ (l :: ls) da).
Qed.

(** An aborting daemon gets rid of any task in one step. *)
Lemma abort_one d i t :
  d_phase d = Aborting → d_tasks d !! i = Some t →
  ∃ d1, step inner toml_policy sv d LInternal d1 ∧ d_phase d1 = Aborting
    ∧ d_tasks d1 = delete i (d_tasks d).
Proof.
  intros Hp Hi. destruct t as [creds|peer| |].
  - eexists. split; [by eapply step_abort_spawned|done].
  - eexists. split; [by eapply step_abort_serving|done].
  - eexists. split; [eapply step_join; [set_solver|done]|done].
  - eexists. split; [by eapply step_join_discarded|done].
Qed.

Lemma abort_all n : ∀ d, d_phase d = Aborting → size (d_tasks d) = n →
  ∃ d', steps inner toml_policy sv d (replicate (S n) LInternal) d' ∧ d_phase d' = Stopped
    ∧ d_tasks d' = ∅.
Proof.
  induction n as [|n IH]; intros d Hp Hn.
  - apply map_size_empty_inv in Hn. exists (d_enter d Stopped). split; [|done].
    eapply steps_cons; [by eapply step_aborted|constructor].
  - destruct (map_choose (d_tasks d)) as (i & t & Hi); [by intros E; rewrite E in Hn|].
    destruct (abort_one d i t Hp Hi) as (d1 & Hs & Hp1 & Ht).
    destruct (IH d1) as (d' & Hrun & ?); [done| |].
    { rewrite Ht, map_size_delete_Some by eauto. lia. }
    exists d'. split; [|done]. by eapply steps_cons.
Qed.
End Shutdown.

(** C37: a drain always can be finished, whatever the clients do: when the
    drain time-out elapses, aborting and joining each remaining task once
    leads to the stopped daemon, with no task left, and the number of steps
    is that of the tasks plus two. *)
Theorem drain_terminates {C : Crypto} {SD : AuditSerde} {W : WireSerde} {SS : ServerSerde}
    inner toml_policy sv d :
  d_phase d = Draining →
  ∃ d', steps inner toml_policy sv d (replicate (size (d_tasks d) + 2) LInternal) d'
    ∧ d_phase d' = Stopped ∧ d_tasks d' = ∅.
Proof.
  intros Hp. destruct (abort_all inner toml_policy sv (size (d_tasks d)) (d_enter d Aborting))
    as (d' & Hrun & ?); [done..|].
  exists d'. split; [|done].
  replace (size (d_tasks d) + 2)%nat with (S (S (size (d_tasks d)))) by lia.
  eapply steps_cons; [by apply step_drain_elapsed|done].
Qed.

(** C40: a full daemon defers its signals.  While the loop holds an accepted
    connection and waits for a permit, none of the three signal handlers can
    run: until a connection ends, every step leaves the loop waiting for
    that same connection, and the configuration as it is, so neither a
    shutdown nor a reload gets through. *)
Theorem full_daemon_defers_signals {C : Crypto} {SD : AuditSerde} {W : WireSerde}
    {SS : ServerSerde} inner toml_policy sv d l d' creds :
  d_phase d = Acquiring creds → d_permits d = 0%nat →
  step inner toml_policy sv d l d' →
  d_phase d' = Acquiring creds ∧ d_reloadable d' = d_reloadable d
  ∧ (d_permits d' = 0%nat ∨ (tally live (d_tasks d') < tally live (d_tasks d))%nat).
Proof.
  intros Hp Hn Hs. destruct Hs; simpl; try congruence; auto.
  - destruct r; simpl; [|by auto]. split_and!; [done|done|right].
    match goal with E : d_tasks d !! _ = Some _ |- _ => pose proof (tally_update live _ _ _ TDone E) as L end.
    simpl in L. lia.
  - destruct r; simpl; [|by auto]. split_and!; [done|done|right].
    match goal with E : d_tasks d !! _ = Some _ |- _ => pose proof (tally_update live _ _ _ TDone E) as L end.
    simpl in L. lia.
  - split_and!; [done|done|right].
    match goal with E : d_tasks d !! _ = Some _ |- _ =>
      pose proof (tally_update live _ _ _ TPanicked E) as L end. simpl in L. lia.
Qed.

(** ** A concrete run *)

Definition started_running : Running (Proc := Threads) :=
  match started with
  | Ok rn => rn
  | Err _ => mk_running demo_server demo_reloadable demo_shared Activated root_process
  end.

Definition run_sv : Server := rn_server started_running.
Definition run_step := @step sample_crypto sample_serde demo_wire demo_serde (λ _, "inner")
                         start_policy run_sv.
Definition run_steps := @steps sample_crypto sample_serde demo_wire demo_serde (λ _, "inner")
                          start_policy run_sv.

(** A connection of uid 1000, and its line under a configuration. *)
Definition run_le (rl : ReloadableState) : LineEnv :=
  mk_lenv rl [] (secs 5) demo_health true demo_env.
Definition run_start (d : Daemon) :=
  @handle_client sample_crypto sample_serde demo_wire demo_serde (λ _, "inner") run_sv
    (Some 1000) (d_reloadable d) [] (with_metrics (d_shared d) inc_active_connections).
Definition run_line (d : Daemon) :=
  @client_loop sample_crypto sample_serde demo_wire demo_serde (λ _, "inner") run_sv 1000
    [EvLine "request" (run_le (d_reloadable d))] (d_shared d).

Definition run_d1 : Daemon := d_enter (daemon_start started_running) (Acquiring (Some 1000)).
Definition run_d2 : Daemon := d_spawned run_d1 (Some 1000) 15.
Definition run_d3 : Daemon := d_after run_d2 0 1000 (run_start run_d2).1.1 (run_start run_d2).2.
Definition run_d4 : Daemon := d_after run_d3 0 1000 (run_line run_d3).1.1 (run_line run_d3).2.

Lemma started_Ok : started = Ok started_running.
Proof.
  assert (match started with Ok _ => True | Err _ => False end) as Hok by (vm_compute; exact I).
  unfold started_running. by destruct started; [|destruct Hok].
Qed.

Lemma run_to_serving : run_steps (daemon_start started_running) (replicate 3 LInternal) run_d3.
Proof.
  apply (steps_snoc _ _ _ _ [LInternal; LInternal] run_d2);
    [apply (steps_snoc _ _ _ _ [LInternal] run_d1);
       [apply (steps_snoc _ _ _ _ [] (daemon_start started_running)); [constructor|]|]|].
  - by apply step_accepted.
  - by apply (step_acquired _ _ _ _ (Some 1000) 15).
  - apply (step_task_start _ _ _ _ 0 (Some 1000) _ (run_start run_d2).1.2);
      [done|done|]. fold (run_start run_d2). by destruct (run_start run_d2) as [[? ?] ?].
Qed.

Lemma run_line_step d :
  d_phase d ≠ Stopped → d_tasks d !! 0%nat = Some (TServing 1000) →
  run_step d (LLine 1000 "request" (run_le (d_reloadable d)) (run_line d).1.2)
    (d_after d 0 1000 (run_line d).1.1 (run_line d).2).
Proof.
  intros Hp Ht.
  apply (step_task_event _ _ _ _ 0 1000 (EvLine "request" (run_le (d_reloadable d))));
    [done..|]. fold (run_line d). by destruct (run_line d) as [[? ?] ?].
Qed.


Lemma daemon_invariant_witness : (d_permits run_d3 + tally live (d_tasks run_d3) = 16)%nat.
Proof.
  apply (@daemon_invariant start_policy start_adapter Threads sample_kernel sample_crypto
           sample_serde demo_wire demo_serde (λ _, "inner") sample_config start_env root_process
           started_running (replicate 3 LInternal) run_d3).
  - exact started_Ok.
  - exact run_to_serving.
Defined.

Lemma drain_terminates_witness :
  ∃ d', run_steps (d_enter run_d3 Draining) (replicate 3 LInternal) d'
    ∧ d_phase d' = Stopped ∧ d_tasks d' = ∅.
Proof.
  exact (@drain_terminates sample_crypto sample_serde demo_wire demo_serde (λ _, "inner")
           start_policy run_sv (d_enter run_d3 Draining) eq_refl).
Defined.

(** Sixteen connections, and one more that waits. *)
Definition full_d : Daemon :=
  mk_daemon (rn_reloadable started_running) (rn_shared started_running) (Acquiring (Some 1000)) 0
    (list_to_map ((λ i, (i, TServing 1000)) <$> seq 0 16)) 16 0.

Lemma full_daemon_defers_signals_witness :
  let d' := d_after full_d 0 1000 (run_line full_d).1.1 (run_line full_d).2 in
  d_phase d' = Acquiring (Some 1000) ∧ d_reloadable d' = d_reloadable full_d
  ∧ (d_permits d' = 0%nat ∨ (tally live (d_tasks d') < tally live (d_tasks full_d))%nat).
Proof.
  apply (@full_daemon_defers_signals sample_crypto sample_serde demo_wire demo_serde
           (λ _, "inner") start_policy run_sv full_d
           (LLine 1000 "request" (run_le (d_reloadable full_d)) (run_line full_d).1.2)).
  - reflexivity.
  - reflexivity.
  - apply run_line_step; vm_compute; [discriminate|reflexivity].
Defined.
