(* ===== verification/UnixConnect.v ===== *)
(** * A connection with a time-out: [crates/pam-ola/src/unix_connect.rs]

    System calls are inputs.  The state that matters is the descriptor: the
    definitions return, next to their result, how often it was closed. *)

From S2P Require Import Prelude RustStd Systemd.
Open Scope Z_scope.

Definition i32_max : Z := 2147483647.

Inductive ConnectError : Type :=
| CoSocket
| CoInvalidPath
| CoPathTooLong
| CoConnect (errno : Z)
| CoTimedOut
| CoPoll (errno : Z)
| CoGetsockopt (errno : Z)
| CoSoError (errno : Z)
| CoNonblocking.

Definition EINTR : Z := 4.
Definition EINPROGRESS : Z := 115.

(** [unix_addr]: [sun_path] and the length of the address. *)
Definition unix_addr (path : string) : result (list byte * Z) ConnectError :=
  let bytes := bytes_of path in
  let zeroed := replicate SUN_PATH_LEN Ascii.zero in
  if bool_decide (bytes = []) || bool_decide (Ascii.zero ∈ bytes) then Err CoInvalidPath
  else if bool_decide (length zeroed < length bytes + 1)%nat then Err CoPathTooLong
  else Ok (copy_into zeroed bytes, FAMILY_LEN + Z.of_nat (length bytes) + 1).

(** [poll_timeout_ms]; durations are in nanoseconds. *)
Definition poll_timeout_ms (elapsed timeout : Z) : option Z :=
  if timeout <? elapsed then None
  else
  let remaining := timeout - elapsed in
  if remaining =? 0 then None
  else Some (Z.max 1 (Z.min (remaining / 1000000) i32_max)).

(** One turn of the loop of [wait_connected]: the time since its start, what
    [poll] returns for the time-out it is given, and what reading SO_ERROR
    returns. *)
Inductive PollOutcome : Type :=
| PollTimeout
| PollError (errno : Z)
| PollReady.

Record Turn := mk_turn {
  tn_elapsed : Z;
  tn_poll : Z → PollOutcome;
  tn_so_error : result Z Z               (* [Err]: getsockopt fails *)
}.

(** The result, and how often the descriptor was closed; [None] while it
    still waits. *)
Fixpoint wait_connected (timeout : Z) (turns : list Turn)
  : option (result unit ConnectError * nat) :=
  match turns with
  | [] => None
  | t :: turns =>
      match poll_timeout_ms (tn_elapsed t) timeout with
      | None => Some (Err CoTimedOut, 1%nat)
      | Some timeout_ms =>
          match tn_poll t timeout_ms with
          | PollTimeout => Some (Err CoTimedOut, 1%nat)
          | PollError errno =>
              if errno =? EINTR then wait_connected timeout turns
              else Some (Err (CoPoll errno), 1%nat)
          | PollReady =>
              match tn_so_error t with
              | Err errno => Some (Err (CoGetsockopt errno), 1%nat)
              | Ok so_error =>
                  if negb (so_error =? 0) then Some (Err (CoSoError so_error), 1%nat)
                  else Some (Ok tt, 0%nat)
              end
          end
      end
  end.

(** [stream_from_fd]: the stream owns the descriptor and closes it when it is
    dropped on the error path. *)
Definition stream_from_fd (set_nonblocking : bool) : result unit ConnectError * nat :=
  if set_nonblocking then (Ok tt, 0%nat) else (Err CoNonblocking, 1%nat).

Record ConnectIo := mk_connect_io {
  co_socket : bool;
  co_connect : result unit Z;            (* the errno of [connect] *)
  co_turns : list Turn;
  co_blocking : bool                     (* [set_nonblocking(false)] *)
}.

(** Whether a descriptor was opened, and how often it was closed. *)
Definition connect_with_timeout (path : string) (timeout : Z) (io : ConnectIo)
  : option (result unit ConnectError * bool * nat) :=
  if negb (co_socket io) then Some (Err CoSocket, false, 0%nat)
  else
  match unix_addr path with
  | Err e => Some (Err e, true, 1%nat)
  | Ok _ =>
      match co_connect io with
      | Ok _ => let '(r, n) := stream_from_fd (co_blocking io) in Some (r, true, n)
      | Err errno =>
          if negb (errno =? EINPROGRESS) then Some (Err (CoConnect errno), true, 1%nat)
          else
          match wait_connected timeout (co_turns io) with
          | None => None
          | Some (Err e, n) => Some (Err e, true, n)
          | Some (Ok _, n) =>
              let '(r, m) := stream_from_fd (co_blocking io) in Some (r, true, (n + m)%nat)
          end
      end
  end.

(** ** Lemmas *)

Lemma wait_connected_closed timeout turns r n :
  wait_connected timeout turns = Some (r, n) →
  n = match r with Ok _ => 0%nat | Err _ => 1%nat end.
Proof.
  induction turns as [|t turns IH]; simpl; [done|]. intros H.
  destruct (poll_timeout_ms _ _); [|by simplify_eq].
  destruct (tn_poll t z); [by simplify_eq| |].
  - case_match; [by apply IH|by simplify_eq].
  - repeat case_match; by simplify_eq.
Qed.

Lemma wait_connected_Ok timeout turns n :
  wait_connected timeout turns = Some (Ok tt, n) →
  ∃ before t after ms, turns = before ++ t :: after
    ∧ Forall (λ u, ∃ ms, poll_timeout_ms (tn_elapsed u) timeout = Some ms
                         ∧ tn_poll u ms = PollError EINTR) before
    ∧ poll_timeout_ms (tn_elapsed t) timeout = Some ms
    ∧ tn_poll t ms = PollReady ∧ tn_so_error t = Ok 0.
Proof.
  induction turns as [|t turns IH]; simpl; [done|]. intros H.
  destruct (poll_timeout_ms _ _) as [ms|] eqn:Hp; [|done].
  destruct (tn_poll t ms) as [|errno|] eqn:Hpoll; [done| |].
  - destruct (Z.eqb_spec errno EINTR) as [->|]; [|done].
    destruct (IH H) as (before & u & after & ms' & -> & HF & Hu).
    exists (t :: before), u, after, ms'. split; [done|]. split; [|done]. constructor; eauto.
  - destruct (tn_so_error t) as [so_error|] eqn:Hso; [|done].
    destruct (Z.eqb_spec so_error 0) as [->|]; [|done]. by exists [], t, turns, ms.
Qed.

Lemma poll_timeout_ms_spec elapsed timeout ms :
  0 ≤ elapsed →
  poll_timeout_ms elapsed timeout = Some ms ↔
  elapsed < timeout ∧ ms = Z.max 1 (Z.min ((timeout - elapsed) / 1000000) i32_max).
Proof.
  intros He. unfold poll_timeout_ms. destruct (Z.ltb_spec timeout elapsed); [naive_solver lia|].
  destruct (Z.eqb_spec (timeout - elapsed) 0); naive_solver lia.
Qed.

(** ** The properties of connecting *)

(** C36: a connection is open or closed, never in between.  Whatever the system
    calls answer, when connecting fails the socket has been closed exactly
    once if it was opened at all.  When it succeeds the caller gets it open
    and back in blocking mode, for a path that fits a socket address, and
    the kernel has said that the peer is there: [connect] succeeded at once,
    or it was under way and, on a turn of the loop before which only signals
    had interrupted the wait and before the time was up, [poll] found the
    descriptor ready and SO_ERROR was 0. *)
Theorem connect_descriptor_safe path timeout io r opened closed :
  connect_with_timeout path timeout io = Some (r, opened, closed) →
  match r with
  | Ok _ =>
      opened = true ∧ closed = 0%nat ∧ co_blocking io = true
      ∧ (∃ addr, unix_addr path = Ok addr)
      ∧ (co_connect io = Ok tt
         ∨ co_connect io = Err EINPROGRESS
           ∧ ∃ before t after ms, co_turns io = before ++ t :: after
               ∧ Forall (λ u, ∃ ms, poll_timeout_ms (tn_elapsed u) timeout = Some ms
                                    ∧ tn_poll u ms = PollError EINTR) before
               ∧ poll_timeout_ms (tn_elapsed t) timeout = Some ms
               ∧ tn_poll t ms = PollReady ∧ tn_so_error t = Ok 0)
  | Err _ => closed = (if opened then 1 else 0)%nat
  end.
Proof.
  unfold connect_with_timeout, stream_from_fd. intros H.
  destruct (co_socket io); simpl in H; [|by simplify_eq].
  destruct (unix_addr path) as [addr|]; [|by simplify_eq].
  destruct (co_connect io) as [[]|e0].
  { destruct (co_blocking io); simplify_eq; [|done]. split_and!; eauto. }
  destruct (Z.eqb_spec e0 EINPROGRESS) as [He|]; simpl in H; [rewrite He|by simplify_eq].
  destruct (wait_connected timeout (co_turns io)) as [[[[]|e] n]|] eqn:Hw; [..|done];
    pose proof (wait_connected_closed _ _ _ _ Hw) as Hn; simpl in Hn; subst n; [|by simplify_eq].
  destruct (co_blocking io); simplify_eq; [|done]. apply wait_connected_Ok in Hw.
  split_and!; eauto.
Qed.

(** The time-out holds.  Waiting never hands [poll] a time-out longer
    than what is left, up to the rounding to a whole millisecond, nor zero or
    a negative one, which would mean to poll without waiting or for ever;
    and the first turn that starts when the time is up ends the wait,
    however often signals interrupt it. *)
Theorem connect_timeout_bounded timeout turns t :
  Forall (λ t, 0 ≤ tn_elapsed t) (turns ++ [t]) →
  Forall (λ t, ∀ ms, poll_timeout_ms (tn_elapsed t) timeout = Some ms →
                1 ≤ ms ≤ i32_max ∧ (ms - 1) * 1000000 < timeout - tn_elapsed t) (turns ++ [t])
  ∧ (timeout ≤ tn_elapsed t → ∃ r n, wait_connected timeout (turns ++ [t]) = Some (r, n)).
Proof.
  intros Hpos. split.
  - eapply Forall_impl; [exact Hpos|]. simpl. intros u Hu ms.
    rewrite poll_timeout_ms_spec by done. intros [Hlt ->]. unfold i32_max.
    pose proof (Z.mul_div_le (timeout - tn_elapsed u) 1000000 ltac:(lia)). lia.
  - intros Hup. apply Forall_app in Hpos as [Hpos [Ht _]%Forall_cons].
    induction Hpos as [|u turns Hu Hpos IH]; simpl.
    + destruct (poll_timeout_ms (tn_elapsed t) timeout) as [ms|] eqn:E; [|by eauto].
      apply poll_timeout_ms_spec in E; lia.
    + destruct (poll_timeout_ms _ _) as [ms|]; [|by eauto].
      destruct (tn_poll u ms); [by eauto|by case_match; eauto|].
      destruct (tn_so_error u); [case_match|]; eauto.
Qed.

(** The descriptor of a listener that is slow, interrupted once. *)
Definition sample_turns : list Turn :=
  [ mk_turn 0 (λ _, PollError EINTR) (Ok 0);
    mk_turn (millis 40) (λ ms, if 60 <=? ms then PollReady else PollTimeout) (Ok 0) ].
Definition sample_connect : ConnectIo := mk_connect_io true (Err EINPROGRESS) sample_turns true.

Lemma connect_descriptor_safe_witness :
  connect_with_timeout "/run/ola/ola.sock" (millis 100) sample_connect
    = Some (Ok tt, true, 0%nat)
  ∧ ∃ addr, unix_addr "/run/ola/ola.sock" = Ok addr.
Proof.
  assert (connect_with_timeout "/run/ola/ola.sock" (millis 100) sample_connect
          = Some (Ok tt, true, 0%nat)) as H by (vm_compute; reflexivity).
  split; [exact H|].
  destruct (connect_descriptor_safe _ _ _ _ _ _ H) as (_ & _ & _ & Ha & _). exact Ha.
Defined.

Lemma connect_timeout_bounded_witness :
  ∃ r n, wait_connected (millis 100)
           ([mk_turn 0 (λ _, PollError EINTR) (Ok 0)]
            ++ [mk_turn (millis 100) (λ _, PollReady) (Ok 0)]) = Some (r, n).
Proof.
  apply (connect_timeout_bounded (millis 100) [mk_turn 0 (λ _, PollError EINTR) (Ok 0)]
           (mk_turn (millis 100) (λ _, PollReady) (Ok 0))).
  - repeat (apply Forall_cons; split; [vm_compute; discriminate|]). apply Forall_nil_2.
  - reflexivity.
Defined.
