(* ===== verification/Pam.v ===== *)
(** * The PAM module: [crates/pam-ola/src/lib.rs]

    [pam_sm_authenticate] from the module arguments to the PAM code, with the
    socket, PAM's and libc's answers as inputs, and the contract between the
    module and the daemon.  The texts of errors keep the module's own words;
    the text of a wrapped library error after them is left out. *)

From S2P Require Import Prelude RustStd Types SecureFs Policy Nonce RateLimit Allowlist.
From S2P Require Import Attestation AuditEntry AuditLog AuditChain Health Json Client AdapterConfig Registry Config Metrics.
From S2P Require Import Server Decision UnixConnect.
Open Scope Z_scope.

Definition PAM_SUCCESS : Z := 0.
Definition PAM_PERM_DENIED : Z := 7.
Definition PAM_AUTH_ERR : Z := 9.
Definition PAM_USER_UNKNOWN : Z := 10.
Definition PAM_IGNORE : Z := 25.
Definition PAM_DEFAULT_SOCKET_PATH : string := "/run/ola/ola.sock".
Definition PAM_DEFAULT_METHOD : string := "fido2".
Definition DEFAULT_TIMEOUT_MS : Z := 8000.
Definition MIN_TIMEOUT_MS : Z := 100.
Definition MAX_TIMEOUT_MS : Z := 30000.
Definition MAX_METHOD_LEN : nat := 64.
Definition MAX_RESPONSE_LEN : nat := 64 * 1024.

Record PamOlaConfig := mk_pam_config {
  pc_socket_path : string;
  pc_method : string;
  pc_timeout_ms : Z
}.

Definition pam_default : PamOlaConfig :=
  mk_pam_config PAM_DEFAULT_SOCKET_PATH PAM_DEFAULT_METHOD DEFAULT_TIMEOUT_MS.

Inductive AuthOutcome : Type :=
| AoAllow
| AoDeny (reason : string)
| AoError (e : string).

Definition pam_return_for_outcome (o : AuthOutcome) : Z :=
  match o with
  | AoAllow => PAM_SUCCESS
  | AoDeny _ => PAM_PERM_DENIED
  | AoError _ => PAM_AUTH_ERR
  end.

(** [pam_sm_setcred], [pam_sm_acct_mgmt], [pam_sm_open_session],
    [pam_sm_close_session] and [pam_sm_chauthtok]. *)
Definition pam_sm_other : Z := PAM_IGNORE.

(** ** Module arguments *)

Definition validate_method_arg (method : string) : result unit string :=
  if bool_decide (method = EmptyString) then Err "method must not be empty"
  else if bool_decide (trim method ≠ method)
  then Err "method must not contain leading or trailing whitespace"
  else if bool_decide (MAX_METHOD_LEN < String.length method)%nat
  then Err "method must be at most 64 bytes"
  else if negb (forallb name_char (bytes_of method))
  then Err "method must use ASCII letters, digits, '_', '-', or '.'"
  else Ok tt.

Definition timeout_arg_error : string := "timeout_ms must be between 100 and 30000".

(** [arg.strip_prefix(prefix)] *)
Definition strip_prefix (prefix arg : string) : option string :=
  let n := String.length prefix in
  if bool_decide (take n (bytes_of arg) = bytes_of prefix)
  then Some (str_of (drop n (bytes_of arg))) else None.

Definition equals_sign : byte := "="%char.

(** [arg.split_once('=').map_or(arg, |(name, _)| name)] *)
Definition arg_name (arg : string) : string := str_of (take_until equals_sign (bytes_of arg)).

(** One turn of the loop over [argv]. *)
Definition parse_arg (config : PamOlaConfig) (arg : string) : result PamOlaConfig string :=
  match strip_prefix "socket=" arg with
  | Some value => Ok (mk_pam_config value (pc_method config) (pc_timeout_ms config))
  | None =>
      match strip_prefix "method=" arg with
      | Some value =>
          let? _ := validate_method_arg value in
          Ok (mk_pam_config (pc_socket_path config) value (pc_timeout_ms config))
      | None =>
          match strip_prefix "timeout_ms=" arg with
          | Some value =>
              let? timeout_ms := ok_or timeout_arg_error (parse_u64 value) in
              if negb ((MIN_TIMEOUT_MS <=? timeout_ms) && (timeout_ms <=? MAX_TIMEOUT_MS))
              then Err timeout_arg_error
              else Ok (mk_pam_config (pc_socket_path config) (pc_method config) timeout_ms)
          | None => Err ("unknown PAM argument: " +:+ arg_name arg)
          end
      end
  end.

(** The entries of [argv] up to [argc]: a null pointer, or the bytes of a C
    string. *)
Fixpoint parse_args (config : PamOlaConfig) (argv : list (option (list byte)))
  : result PamOlaConfig string :=
  match argv with
  | [] => Ok config
  | None :: argv => parse_args config argv
  | Some bytes :: argv =>
      if negb (utf8_valid bytes) then Err "PAM argument is not utf-8"
      else
      let? config := parse_arg config (str_of bytes) in
      parse_args config argv
  end.

(** [None]: [argc <= 0] or a null [argv]. *)
Definition parse_argv (argv : option (list (option (list byte))))
  : result PamOlaConfig string :=
  match argv with
  | None => Ok pam_default
  | Some argv => parse_args pam_default argv
  end.

(** ** The user *)

(** What [pam_get_user] returned: its code and the string it points to. *)
Definition pam_user (null_handle : bool) (rc : Z) (user : option (list byte)) : option string :=
  if null_handle then None
  else if negb (rc =? PAM_SUCCESS) then None
  else match user with
       | None => None
       | Some bytes => if utf8_valid bytes then Some (str_of bytes) else None
       end.

Definition ERANGE : Z := 34.
Definition MAX_PASSWD_BUF : Z := 1024 * 1024.

(** The loop of [uid_for_user]: [getpw n] is the code of [getpwnam_r] with a
    buffer of [n] bytes and the uid of the entry it found.  The first
    [option] is the fuel. *)
Fixpoint uid_loop (fuel : nat) (getpw : Z → Z * option Z) (buf_len : Z) : option (option Z) :=
  match fuel with
  | O => None
  | S fuel =>
      let '(rc, found) := getpw buf_len in
      if rc =? 0 then Some found
      else if negb (rc =? ERANGE) || (MAX_PASSWD_BUF <=? buf_len) then Some None
      else uid_loop fuel getpw (Z.min (buf_len * 2) MAX_PASSWD_BUF)
  end.

(** Seven buffers, from 16 KiB to 1 MiB, are all there are. *)
Definition uid_for_user (getpw : string → Z → Z * option Z) (user : string) : option Z :=
  if bool_decide (Ascii.zero ∈ bytes_of user) then None
  else default None (uid_loop 7 (getpw user) (16 * 1024)).

(** ** The exchange with the daemon *)

(** What reading the stream byte by byte yields: bytes, then the end of the
    stream or an error. *)
Record ByteStream := mk_stream { bs_bytes : list byte; bs_eof : bool }.

Fixpoint read_line_from (bytes : list byte) (eof : bool) (buf : list byte)
  : result (list byte) string :=
  match bytes with
  | [] => if eof then Ok buf else Err "read failed"
  | b :: bytes =>
      if bool_decide (b = nl) then Ok buf
      else
      let buf := buf ++ [b] in
      if bool_decide (MAX_RESPONSE_LEN < length buf)%nat then Err "response too large"
      else read_line_from bytes eof buf
  end.

Definition read_line (s : ByteStream) : result string string :=
  let? buf := read_line_from (bs_bytes s) (bs_eof s) [] in
  if utf8_valid buf then Ok (str_of buf) else Err "response was not utf-8".

(** [request_id]; [random] is what [getrandom::fill] delivers. *)
Definition request_id (random : option (list byte)) : result string string :=
  let? bytes := ok_or "request id randomness unavailable" random in
  Ok ("pam-" +:+ encode_hex bytes).

Definition pam_params (method : string) (uid : option Z) : Value :=
  match uid with
  | Some uid => VObject [("method", VString method); ("uid", VNumber (PosInt uid))]
  | None => VObject [("method", VString method)]
  end.

Definition pam_request (id : string) (params : Value) : Value :=
  VObject [("version", VNumber (PosInt PROTOCOL_VERSION)); ("id", VString id);
           ("method", VString "verify_once"); ("params", params)].

(** What the socket answers; [pi_stream] may depend on what was written. *)
Record PamIo := mk_pam_io {
  pm_connect : ConnectIo;
  pm_read_timeout : bool;
  pm_write_timeout : bool;
  pm_random : option (list byte);
  pm_write : bool;
  pm_stream : string → ByteStream
}.

Section Pam.
Context `{W : WireSerde}.

Definition field_str (v : Value) (key : string) : option string := get_field v key ≫= Json.as_str.

Definition interpret_response (response_line expected_id : string) : AuthOutcome :=
  match value_from_str (trim response_line) with
  | None => AoError "invalid response json"
  | Some response =>
      if bool_decide ((get_field response "version" ≫= as_u64) ≠ Some PROTOCOL_VERSION)
      then AoError "protocol version mismatch"
      else if bool_decide (field_str response "id" ≠ Some expected_id)
      then AoError "response id mismatch"
      else match field_str response "error" with
           | Some error => AoError error
           | None =>
               match get_field response "result" ≫= λ v, field_str v "decision" with
               | Some decision =>
                   if bool_decide (decision = "allow") then AoAllow
                   else if bool_decide (decision = "deny") then
                     AoDeny (default "denied"
                               (get_field response "result" ≫= λ v, field_str v "deny_reason"))
                   else AoError "missing auth decision"
               | None => AoError "missing auth decision"
               end
           end
  end.

(** The outer [option]: [None] while the connection attempt still waits. *)
Definition authenticate (config : PamOlaConfig) (uid : option Z) (io : PamIo)
  : option AuthOutcome :=
  match connect_with_timeout (pc_socket_path config) (millis (pc_timeout_ms config))
          (pm_connect io) with
  | None => None
  | Some (Err _, _, _) => Some (AoError "connect failed")
  | Some (Ok _, _, _) => Some
      (if negb (pm_read_timeout io) then AoError "set read timeout failed"
       else if negb (pm_write_timeout io) then AoError "set write timeout failed"
       else
       let params := pam_params (pc_method config) uid in
       match request_id (pm_random io) with
       | Err e => AoError e
       | Ok request_id =>
           let request := value_to_string (pam_request request_id params) in
           if negb (pm_write io) then AoError "write failed"
           else match read_line (pm_stream io (request +:+ str_of [nl])) with
                | Err e => AoError e
                | Ok response_line => interpret_response response_line request_id
                end
       end)
  end.

(** One call of the module. *)
Record PamCall := mk_pam_call {
  pa_null_handle : bool;
  pa_argv : option (list (option (list byte)));
  pa_user_rc : Z;
  pa_user : option (list byte);
  pa_getpw : string → Z → Z * option Z;
  pa_io : PamIo
}.

Definition pam_sm_authenticate_inner (c : PamCall) : option Z :=
  match parse_argv (pa_argv c) with
  | Err _ => Some PAM_AUTH_ERR
  | Ok config =>
      match pam_user (pa_null_handle c) (pa_user_rc c) (pa_user c) with
      | None => Some PAM_USER_UNKNOWN
      | Some name =>
          match uid_for_user (pa_getpw c) name with
          | None => Some PAM_USER_UNKNOWN
          | Some uid => pam_return_for_outcome <$> authenticate config (Some uid) (pa_io c)
          end
      end
  end.

(** [panics]: the closure unwinds. *)
Definition pam_sm_authenticate (panics : bool) (c : PamCall) : option Z :=
  if panics then Some PAM_AUTH_ERR else pam_sm_authenticate_inner c.
End Pam.

(** ** Lemmas: arguments *)

(** The module's rules for method names are the daemon's. *)
Lemma validate_method_arg_Ok m : validate_method_arg m = Ok tt ↔ validate_name m true = Ok tt.
Proof.
  unfold validate_method_arg, validate_name, MAX_METHOD_LEN, MAX_NAME_LEN.
  rewrite andb_false_r. repeat case_match; naive_solver.
Qed.

(** What the arguments leave behind. *)
Definition wf_pam (c : PamOlaConfig) : Prop :=
  validate_name (pc_method c) true = Ok tt ∧ MIN_TIMEOUT_MS ≤ pc_timeout_ms c ≤ MAX_TIMEOUT_MS.

Lemma pam_default_wf : wf_pam pam_default.
Proof. split; [by vm_compute|]. unfold MIN_TIMEOUT_MS, MAX_TIMEOUT_MS. simpl. unfold DEFAULT_TIMEOUT_MS. lia. Qed.

Lemma parse_arg_wf c arg c' : wf_pam c → parse_arg c arg = Ok c' → wf_pam c'.
Proof.
  intros [H1 H2] H. unfold parse_arg, ok_or in H.
  destruct (strip_prefix "socket=" arg); [by simplify_eq|].
  destruct (strip_prefix "method=" arg) as [m|].
  { destruct (validate_method_arg m) as [[]|] eqn:E; [|done]. simplify_eq.
    by apply validate_method_arg_Ok in E. }
  destruct (strip_prefix "timeout_ms=" arg) as [v|]; [|done].
  destruct (parse_u64 v) as [t|]; [|done].
  destruct (_ && _) eqn:E; simpl in H; [|done]. simplify_eq. split; [done|]. simpl. lia.
Qed.

Lemma parse_args_wf argv : ∀ c c', wf_pam c → parse_args c argv = Ok c' → wf_pam c'.
Proof.
  induction argv as [|[bytes|] argv IH]; intros c c' Hc H; simpl in H; [by simplify_eq| |by eauto].
  destruct (utf8_valid bytes); simpl in H; [|done].
  destruct (parse_arg c (str_of bytes)) as [c1|] eqn:E; [|done].
  eapply IH; [|done]. by eapply parse_arg_wf.
Qed.

Lemma parse_argv_wf argv c : parse_argv argv = Ok c → wf_pam c.
Proof.
  destruct argv as [argv|]; simpl; intros H; [|simplify_eq; apply pam_default_wf].
  eapply parse_args_wf; [apply pam_default_wf|done].
Qed.

(** ** Lemmas: the password database *)

(** The loop is over after [k] more doublings at the latest. *)
Lemma uid_loop_total k : ∀ fuel getpw len,
  MAX_PASSWD_BUF ≤ len * 2 ^ Z.of_nat k → (k < fuel)%nat → is_Some (uid_loop fuel getpw len).
Proof.
  induction k as [|k IH]; intros [|fuel] getpw len Hl Hf; [lia| |lia|]; simpl;
    destruct (getpw len) as [rc found]; (destruct (rc =? 0); [by eauto|]).
  - destruct (Z.leb_spec MAX_PASSWD_BUF len); [rewrite orb_true_r; by eauto|].
    rewrite Z.mul_1_r in Hl. lia.
  - destruct (_ || _) eqn:E; [by eauto|]. apply IH; [|lia].
    rewrite Nat2Z.inj_succ, Z.pow_succ_r in Hl by lia.
    pose proof (Z.pow_pos_nonneg 2 (Z.of_nat k)). unfold MAX_PASSWD_BUF in *.
    destruct (Z.min_spec (len * 2) (1024 * 1024)) as [[? ->]|[? ->]]; nia.
Qed.

Lemma uid_for_user_fuel getpw : is_Some (uid_loop 7 getpw (16 * 1024)).
Proof. apply (uid_loop_total 6); [by vm_compute|lia]. Qed.

Lemma uid_loop_found fuel getpw uid : ∀ len,
  16 * 1024 ≤ len ≤ MAX_PASSWD_BUF → default None (uid_loop fuel getpw len) = Some uid →
  ∃ len', 16 * 1024 ≤ len' ≤ MAX_PASSWD_BUF ∧ getpw len' = (0, Some uid).
Proof.
  induction fuel as [|fuel IH]; intros len Hl H; [done|].
  simpl in H. destruct (getpw len) as [rc found] eqn:Hg.
  destruct (Z.eqb_spec rc 0) as [->|]; [simpl in H; subst found; by exists len|].
  destruct (_ || _); [done|]. apply (IH (Z.min (len * 2) MAX_PASSWD_BUF)); [|done].
  unfold MAX_PASSWD_BUF in *. lia.
Qed.

(** ** Lemmas: the answer *)

Section Answer.
Context {W : WireSerde}.

(** The response the module takes for an allow. *)
Definition says_allow (response_line expected_id : string) : Prop :=
  ∃ v, value_from_str (trim response_line) = Some v
    ∧ (get_field v "version" ≫= as_u64) = Some 1
    ∧ field_str v "id" = Some expected_id
    ∧ field_str v "error" = None
    ∧ (get_field v "result" ≫= λ r, field_str r "decision") = Some "allow".

Lemma interpret_allow line id : interpret_response line id = AoAllow ↔ says_allow line id.
Proof.
  unfold interpret_response, says_allow, PROTOCOL_VERSION.
  destruct (value_from_str (trim line)) as [v|]; [|by split; [|intros (? & ? & _)]].
  case_bool_decide as H1; [by split; [|intros (? & [= <-] & ? & _)]|].
  case_bool_decide as H2; [by split; [|intros (? & [= <-] & _ & ? & _)]|].
  destruct (field_str v "error") as [e|] eqn:H3;
    [split; [done|intros (? & [= <-] & _ & _ & E & _); congruence]|].
  destruct (get_field v "result" ≫= _) as [dec|] eqn:H4; cycle 1.
  { split; [done|]. intros (? & [= <-] & _ & _ & _ & E). congruence. }
  case_bool_decide as H5.
  - split; [|done]. intros _. exists v. by subst dec.
  - split; [by case_bool_decide|]. intros (? & [= <-] & _ & _ & _ & E). congruence.
Qed.

Lemma pam_code_success o : pam_return_for_outcome o = PAM_SUCCESS ↔ o = AoAllow.
Proof. by destruct o. Qed.
End Answer.

(** Reading stops at the first newline. *)
Lemma read_line_from_app bytes rest eof : ∀ buf,
  no_nl bytes → (length buf + length bytes ≤ MAX_RESPONSE_LEN)%nat →
  read_line_from (bytes ++ nl :: rest) eof buf = Ok (buf ++ bytes).
Proof.
  induction bytes as [|b bytes IH]; intros buf Hn Hl.
  { by rewrite app_nil_r. }
  apply Forall_cons in Hn as [Hb Hn]. simpl app. cbn [read_line_from].
  rewrite bool_decide_eq_false_2 by done.
  rewrite bool_decide_eq_false_2 by (rewrite length_app; simpl in *; lia).
  rewrite IH; [by rewrite <-app_assoc|done|rewrite length_app; simpl in *; lia].
Qed.

(** ** The contract of module and daemon *)

(** What [serde_json] promises both sides: the text of a response is one line
    whose value has the fields of the response, [None] being [null]; the text
    of the module's request reads back as that request. *)
Class ContractLaws (W : WireSerde) (SS : ServerSerde) : Prop := {
  response_text r s :
    response_to_string r = Some s →
    no_nl (bytes_of s) ∧ utf8_valid (bytes_of s) = true
    ∧ ∃ v, value_from_str (trim s) = Some v
        ∧ (get_field v "version" ≫= as_u64) = Some (rs_version r)
        ∧ field_str v "id" = rs_id r ∧ field_str v "error" = rs_error r
        ∧ ∀ key, (get_field v "result" ≫= λ x, field_str x key)
                 = (rs_result r ≫= λ x, field_str x key);
  request_text id method uid :
    is_u32 uid →
    request_from_str (value_to_string (pam_request id (pam_params method (Some uid))))
    = Ok (mk_rq 1 (Some id) "verify_once" (Some (pam_params method (Some uid))))
}.

Section Contract.
Context {C : Crypto} {SD : AuditSerde} {W : WireSerde} {SS : ServerSerde}.
Context {CT : ContractLaws W SS}.
Context (inner : AdapterError → string).

Lemma pam_params_uid method uid :
  is_u32 uid → request_uid 0 (Some (pam_params method (Some uid))) = Ok uid.
Proof.
  intros [_ Hu]. unfold request_uid. simpl.
  destruct (Z.ltb_spec u32_max uid); [lia|done].
Qed.

Lemma pam_params_method method uid :
  validate_name method true = Ok tt →
  request_method (Some (pam_params method (Some uid))) = Ok method.
Proof. intros H. simpl. unfold validate_method_name. by rewrite H. Qed.

(** The module reads the daemon's answer as the daemon meant it. *)
Lemma response_read r s id eof :
  response_to_string r = Some s → (String.length s ≤ MAX_RESPONSE_LEN)%nat →
  read_line (mk_stream (bytes_of s ++ [nl]) eof) = Ok s
  ∧ (says_allow s id ↔ rs_version r = 1 ∧ rs_id r = Some id ∧ rs_error r = None
       ∧ decision_of r = Some "allow").
Proof.
  intros Hs Hl. apply response_text in Hs as (Hn & Hu & v & Hv & H1 & H2 & H3 & H4). split.
  - unfold read_line. simpl. rewrite read_line_from_app; [|done|by rewrite length_bytes_of].
    simpl. by rewrite Hu, str_of_bytes_of.
  - unfold says_allow, decision_of. specialize (H4 "decision"). unfold field_str at 2 in H4. split.
    + intros (v' & E & E1 & E2 & E3 & E4). rewrite Hv in E. injection E as <-.
      split_and!; congruence.
    + intros (E1 & E2 & E3 & E4). exists v. split_and!; congruence.
Qed.

(** A line of the module, handled for a root peer, is a verification of the
    user it names, when the rate limiter lets it in. *)
Lemma pam_line_handled sv le sh id method uid :
  is_u32 uid → validate_name method true = Ok tt →
  let line := value_to_string (pam_request id (pam_params method (Some uid))) in
  let '(admitted, rate) := check (foldl (λ r op, (rate_step RATE_LIMIT_PER_UID r op).2) (sh_rate sh)
                                    (le_rate_ops le)) 0 RATE_LIMIT_PER_UID (le_rate_now le) in
  if admitted
  then let '(resp, sh') := handle_verify_once inner sv (le_reloadable le) (with_rate sh rate) 0 uid
                             method (Some id) (le_verify le) in
       handle_line inner sv 0 line le sh = (Reply resp, sh')
  else ∃ resp sh', handle_line inner sv 0 line le sh = (ReplyAndClose resp, sh').
Proof.
  intros Hu Hm line. pose proof (request_text id method uid Hu) as Hreq. unfold handle_line.
  change (is_allowed (sv_getuid sv) (rl_allowlist (le_reloadable le)) 0) with true.
  destruct (check _ 0 _ _) as [[] rate]; cbn [negb]; [|by eexists _, _].
  destruct (handle_verify_once _ _ _ _ _ _ _ _ _) as [resp sh'] eqn:Hv.
  unfold line. rewrite Hreq. change (negb (rq_version _ =? PROTOCOL_VERSION)) with false.
  unfold handle_request. cbn [rq_method rq_params rq_id].
  rewrite !bool_decide_eq_false_2 by done. rewrite bool_decide_eq_true_2 by done.
  rewrite pam_params_uid, pam_params_method by done. by rewrite Hv.
Qed.

Lemma pam_line_verifies sv le sh sh' id method uid resp :
  is_u32 uid → validate_name method true = Ok tt →
  handle_line inner sv 0
    (value_to_string (pam_request id (pam_params method (Some uid)))) le sh = (Reply resp, sh') →
  ∃ rate, resp = (handle_verify_once inner sv (le_reloadable le) (with_rate sh rate) 0 uid method
                    (Some id) (le_verify le)).1.
Proof.
  intros Hu Hm H. pose proof (pam_line_handled sv le sh id method uid Hu Hm) as Hh. cbv zeta in Hh.
  destruct (check _ 0 _ _) as [[] rate]; [|destruct Hh as (? & ? & Hh); congruence].
  exists rate. destruct (handle_verify_once _ _ _ _ _ _ _ _ _). by rewrite H in Hh; simplify_eq.
Qed.
End Contract.

Lemma pam_codes o :
  pam_return_for_outcome o ∈ [PAM_SUCCESS; PAM_PERM_DENIED; PAM_AUTH_ERR; PAM_USER_UNKNOWN].
Proof. destruct o; set_solver. Qed.

(** A path on which the module gives up early. *)
Ltac closed :=
  split;
  [ split; [done|];
    intros (? & ? & ? & ? & ? & ? & ? & ? & ? & [? ?] & ? & ? & ? & ? & _); congruence
  | intros ? [= <-]; set_solver ].

(** When everything up to the answer went well, the answer decides. *)
Lemma pam_success_reads {W : WireSerde} c cfg name uid random n s :
  let io := pa_io c in
  let id := "pam-" +:+ encode_hex random in
  parse_argv (pa_argv c) = Ok cfg →
  pam_user (pa_null_handle c) (pa_user_rc c) (pa_user c) = Some name →
  uid_for_user (pa_getpw c) name = Some uid →
  connect_with_timeout (pc_socket_path cfg) (millis (pc_timeout_ms cfg)) (pm_connect io)
    = Some (Ok tt, true, n) →
  pm_read_timeout io = true → pm_write_timeout io = true → pm_write io = true →
  pm_random io = Some random →
  read_line (pm_stream io
    (value_to_string (pam_request id (pam_params (pc_method cfg) (Some uid))) +:+ str_of [nl]))
    = Ok s →
  pam_sm_authenticate false c = Some PAM_SUCCESS ↔ says_allow s id.
Proof.
  intros io id Hcfg Hname Huid Hco Hrt Hwt Hw Hr Hread.
  unfold pam_sm_authenticate, pam_sm_authenticate_inner, authenticate, request_id, ok_or.
  rewrite Hcfg, Hname, Huid. fold io. rewrite Hco, Hrt, Hwt, Hr, Hw. cbn [negb]. fold id.
  rewrite Hread. simpl. by rewrite (inj_iff Some), pam_code_success, interpret_allow.
Qed.

(** ** The properties of the module *)

(** C25: the module fails closed.  It returns [PAM_SUCCESS] exactly when it
    did not panic, its arguments parse, PAM and the password database name
    the user, the daemon was reached within the time-out, the request was
    written, and the line read back is a version-1 response to this very
    request, without an error, that says "allow".  Otherwise it returns one
    of the three error codes. *)
Theorem pam_success_iff {W : WireSerde} panics c :
  (pam_sm_authenticate panics c = Some PAM_SUCCESS ↔
   panics = false ∧ ∃ cfg name uid random line,
     parse_argv (pa_argv c) = Ok cfg
     ∧ pam_user (pa_null_handle c) (pa_user_rc c) (pa_user c) = Some name
     ∧ uid_for_user (pa_getpw c) name = Some uid
     ∧ (∃ n, connect_with_timeout (pc_socket_path cfg) (millis (pc_timeout_ms cfg))
               (pm_connect (pa_io c)) = Some (Ok tt, true, n))
     ∧ pm_read_timeout (pa_io c) = true ∧ pm_write_timeout (pa_io c) = true
     ∧ pm_random (pa_io c) = Some random ∧ pm_write (pa_io c) = true
     ∧ let id := "pam-" +:+ encode_hex random in
       read_line (pm_stream (pa_io c)
         (value_to_string (pam_request id (pam_params (pc_method cfg) (Some uid)))
          +:+ str_of [nl])) = Ok line
       ∧ says_allow line id)
  ∧ ∀ code, pam_sm_authenticate panics c = Some code →
      code ∈ [PAM_SUCCESS; PAM_PERM_DENIED; PAM_AUTH_ERR; PAM_USER_UNKNOWN].
Proof.
  unfold pam_sm_authenticate, pam_sm_authenticate_inner, authenticate, request_id, ok_or.
  destruct panics; [closed|].
  destruct (parse_argv (pa_argv c)) as [cfg|]; [|closed].
  destruct (pam_user _ _ _) as [name|]; [|closed].
  destruct (uid_for_user _ _) as [uid|] eqn:Hu; [|closed].
  destruct (connect_with_timeout _ _ _) as [[[[[]|e] opened] n]|] eqn:Hco; simpl; [|closed..].
  assert (opened = true) as ->.
  { unfold connect_with_timeout, stream_from_fd in Hco. repeat case_match; by simplify_eq. }
  destruct (pm_read_timeout (pa_io c)); simpl; [|closed].
  destruct (pm_write_timeout (pa_io c)); simpl; [|closed].
  destruct (pm_random (pa_io c)) as [random|]; simpl; [|closed].
  destruct (pm_write (pa_io c)); simpl; [|closed].
  destruct (read_line _) as [line|e] eqn:Hl; cycle 1.
  { split; [|intros code [= <-]; apply (pam_codes (AoError e))]. split; [done|].
    intros (_ & cfg' & name' & uid' & random' & line & [= <-] & [= <-] & E & _
      & _ & _ & [= <-] & _ & E' & _). simplify_eq. simpl in E'. rewrite Hl in E'. done. }
  split; [|intros code [= <-]; apply pam_codes].
  rewrite (inj_iff Some), pam_code_success, interpret_allow. split.
  - intros H. split; [done|]. exists cfg, name, uid, random, line. split_and!; by eauto.
  - intros (_ & cfg' & name' & uid' & random' & line' & [= <-] & [= <-] & E & _
      & _ & _ & [= <-] & _ & E' & H). simplify_eq. simpl in E'. rewrite Hl in E'.
    by injection E' as <-.
Qed.

(** C24: a login means a grant, and a grant means a login.  Let the module run
    as root, so as the peer 0 of the daemon, and reach it: what it reads back is the daemon's answer,
    on one line, to the line it wrote.  Then it returns [PAM_SUCCESS] if and
    only if the daemon granted a verification of the uid of this very user,
    by the configured method, under the module's random request id. *)
Theorem pam_login_sound {C : Crypto} {SD : AuditSerde} {W : WireSerde} {SS : ServerSerde}
    {CT : ContractLaws W SS} inner c cfg name uid random n sv le sh resp sh' s eof :
  let io := pa_io c in
  let id := "pam-" +:+ encode_hex random in
  let line := value_to_string (pam_request id (pam_params (pc_method cfg) (Some uid))) in
  parse_argv (pa_argv c) = Ok cfg →
  pam_user (pa_null_handle c) (pa_user_rc c) (pa_user c) = Some name →
  uid_for_user (pa_getpw c) name = Some uid → is_u32 uid →
  connect_with_timeout (pc_socket_path cfg) (millis (pc_timeout_ms cfg)) (pm_connect io)
    = Some (Ok tt, true, n) →
  pm_read_timeout io = true → pm_write_timeout io = true → pm_write io = true →
  pm_random io = Some random →
  handle_line inner sv 0 line le sh = (Reply resp, sh') →
  response_to_string resp = Some s → (String.length s ≤ MAX_RESPONSE_LEN)%nat →
  pm_stream io (line +:+ str_of [nl]) = mk_stream (bytes_of s ++ [nl]) eof →
  pam_sm_authenticate false c = Some PAM_SUCCESS ↔
  ∃ resolved nonce result,
    grant sv (le_reloadable le) sh 0 uid (pc_method cfg) (Some id) (le_verify le)
      resolved nonce result.
Proof.
  intros io id line Hcfg Hname Huid Hu32 Hco Hrt Hwt Hw Hr Hline Htext Hlen Hstream.
  destruct (parse_argv_wf _ _ Hcfg) as [Hm _].
  destruct (pam_line_verifies inner _ _ _ _ _ _ _ _ Hu32 Hm Hline) as [rate Hresp].
  destruct (response_read resp s id eof Htext Hlen) as [Hread Hsays].
  rewrite (pam_success_reads c cfg name uid random n s)
    by (done || (fold io id line; by rewrite Hstream)).
  fold id. rewrite Hsays. split.
  - intros (_ & _ & _ & Hd). rewrite Hresp in Hd.
    apply handle_verify_once_allow in Hd as (resolved & nonce & result & Hg).
    exists resolved, nonce, result. by apply (grant_ext _ _ _ (with_rate sh rate)).
  - intros (resolved & nonce & result & Hg).
    apply (grant_ext _ _ (with_rate sh rate)) in Hg; [|done..].
    apply (grant_response inner) in Hg. rewrite Hg in Hresp. by subst resp.
Qed.

(** Whatever the arguments, a configuration the module works with names
    a method the daemon's own rules accept, and a time-out between 100 ms
    and 30 s. *)
Theorem pam_argv_safe argv cfg :
  parse_argv argv = Ok cfg →
  validate_name (pc_method cfg) true = Ok tt ∧ 100 ≤ pc_timeout_ms cfg ≤ 30000
  ∧ ∀ uid, request_method (Some (pam_params (pc_method cfg) (Some uid))) = Ok (pc_method cfg).
Proof.
  intros H. apply parse_argv_wf in H as [H1 H2]. split; [done|]. split; [exact H2|].
  intros uid. by apply pam_params_method.
Qed.

(** Looking up a user terminates after at most seven calls, whatever the
    C library answers, and a uid is only ever one that a call returned for
    this user with success. *)
Theorem uid_lookup_total getpw user :
  is_Some (uid_loop 7 (getpw user) (16 * 1024))
  ∧ ∀ uid, uid_for_user getpw user = Some uid →
      ∃ len, 16 * 1024 ≤ len ≤ MAX_PASSWD_BUF ∧ getpw user len = (0, Some uid).
Proof.
  split; [apply uid_for_user_fuel|]. unfold uid_for_user. intros uid H.
  case_bool_decide; [done|]. eapply uid_loop_found; [|done]. unfold MAX_PASSWD_BUF. lia.
Qed.

(** ** A concrete login *)

(** A text with its length in front, in unary. *)
Definition framed (x : list byte) : list byte :=
  replicate (length x) ("1"%char : byte) ++ (":"%char : byte) :: x.
Definition unframe (bs : list byte) : list byte * list byte :=
  let n := length (take_until ":"%char bs) in
  (take n (drop (S n) bs), drop n (drop (S n) bs)).

Lemma unframe_framed x rest : unframe (framed x ++ rest) = (x, rest).
Proof.
  unfold unframe, framed. rewrite <-app_assoc. simpl app.
  rewrite take_until_app by (apply Forall_replicate; done). rewrite length_replicate.
  assert (drop (S (length x))
    (replicate (length x) ("1"%char : byte) ++ (":"%char : byte) :: x ++ rest) = x ++ rest) as ->.
  { rewrite drop_app, length_replicate, drop_ge by (rewrite length_replicate; lia).
    by replace (S (length x) - length x)%nat with 1%nat by lia. }
  by rewrite take_app_length, drop_app_length.
Qed.

Definition login_random : list byte := replicate 16 "007"%char.
Definition login_id : string := "pam-" +:+ encode_hex login_random.

(** A text format for the module's requests, and for one answer. *)
Definition login_text (id m : string) (uid : Z) : string :=
  str_of (framed (bytes_of id) ++ framed (bytes_of m) ++ display_bytes uid).

Definition login_parse (s : string) : result Request string :=
  let '(id, rest) := unframe (bytes_of s) in
  let '(m, rest) := unframe rest in
  match parse_u32 (str_of rest) with
  | Some uid => Ok (mk_rq 1 (Some (str_of id)) "verify_once"
                      (Some (pam_params (str_of m) (Some uid))))
  | None => Err "no request"
  end.

Lemma login_parse_text id m uid :
  is_u32 uid →
  login_parse (login_text id m uid)
  = Ok (mk_rq 1 (Some id) "verify_once" (Some (pam_params m (Some uid)))).
Proof.
  intros Hu. unfold login_parse, login_text.
  rewrite bytes_of_str_of, unframe_framed, unframe_framed. fold (display_uint uid).
  unfold parse_u32. rewrite (parse_display u32_max uid) by (done || by unfold u32_max, u64_max).
  by rewrite !str_of_bytes_of.
Qed.

Definition login_wire : WireSerde := {|
  request_to_string := @request_to_string demo_wire;
  result_from_str := @result_from_str demo_wire;
  value_from_str := λ s,
    if bool_decide (s = "allowed") then
      Some (VObject [("version", VNumber (PosInt 1)); ("id", VString login_id);
              ("result", VObject [("decision", VString "allow"); ("method", VString "fido2")]);
              ("error", Null)])
    else None;
  value_to_string := λ v,
    match v with
    | VObject [_; (_, VString id); _; (_, VObject [(_, VString m); (_, VNumber (PosInt u))])] =>
        login_text id m u
    | _ => EmptyString
    end
|}.

Definition login_serde : ServerSerde := {|
  request_from_str := login_parse;
  response_to_string := λ r,
    match rs_result r with
    | Some (VObject [(k1, VString d); (k2, VString m)]) =>
        if bool_decide (rs_version r = 1 ∧ rs_id r = Some login_id ∧ rs_error r = None
                        ∧ k1 = "decision" ∧ d = "allow" ∧ k2 = "method" ∧ m = "fido2")
        then Some "allowed" else None
    | _ => None
    end
|}.

Lemma login_laws : ContractLaws login_wire login_serde.
Proof.
  split.
  - intros r s H. cbn in H. destruct (rs_result r) as [v|] eqn:Hr; [|done].
    destruct v as [| | | | |fields]; try done.
    destruct fields as [|[k1 []] [|[k2 []] []]]; try done.
    case_bool_decide as E; [|done]. destruct E as (E1 & E2 & E3 & -> & -> & -> & ->).
    injection H as <-. split; [by apply (bool_decide_unpack _)|]. split; [by vm_compute|].
    eexists. split; [by vm_compute|]. rewrite E1, E2, E3. by split_and!.
  - intros id m uid. exact (login_parse_text id m uid).
Qed.

(** The module of user [alice], against the daemon of [Decision]. *)
Definition login_stream : ByteStream := mk_stream (bytes_of "allowed" ++ [nl]) true.
Definition login_call : PamCall :=
  mk_pam_call false (Some [Some (bytes_of "method=fido2"); None]) PAM_SUCCESS
    (Some (bytes_of "alice"))
    (λ _ len, if len <? 32768 then (ERANGE, None) else (0, Some 1000))
    (mk_pam_io sample_connect true true (Some login_random) true (λ _, login_stream)).

Definition login_config : PamOlaConfig := mk_pam_config PAM_DEFAULT_SOCKET_PATH "fido2" 8000.
Definition login_line : string :=
  @value_to_string login_wire (pam_request login_id (pam_params "fido2" (Some 1000))).
Definition login_handled :=
  @handle_line sample_crypto sample_serde login_wire login_serde (λ _, "inner") demo_server 0
    login_line demo_line_env demo_shared.

Lemma pam_login_sound_witness :
  @pam_sm_authenticate login_wire false login_call = Some PAM_SUCCESS
  ∧ ∃ resolved nonce result,
      @grant sample_crypto sample_serde login_wire demo_server demo_reloadable demo_shared 0 1000
        "fido2" (Some login_id) demo_env resolved nonce result.
Proof.
  assert (@pam_sm_authenticate login_wire false login_call = Some PAM_SUCCESS) as H
    by (vm_compute; reflexivity).
  split; [exact H|].
  apply (@pam_login_sound sample_crypto sample_serde login_wire login_serde login_laws
           (λ _, "inner") login_call login_config "alice" 1000 login_random 0%nat demo_server
           demo_line_env demo_shared (response_allow (Some login_id) "fido2") login_handled.2
           "allowed" true).
  - vm_compute. reflexivity.
  - vm_compute. reflexivity.
  - vm_compute. reflexivity.
  - split; vm_compute; discriminate.
  - vm_compute. reflexivity.
  - reflexivity.
  - reflexivity.
  - reflexivity.
  - reflexivity.
  - vm_compute. reflexivity.
  - vm_compute. reflexivity.
  - apply (bool_decide_unpack _). vm_compute. exact I.
  - reflexivity.
  - exact H.
Defined.

Lemma pam_argv_safe_witness :
  validate_name (pc_method login_config) true = Ok tt
  ∧ 100 ≤ pc_timeout_ms login_config ≤ 30000
  ∧ ∀ uid, request_method (Some (pam_params (pc_method login_config) (Some uid)))
           = Ok (pc_method login_config).
Proof.
  apply (pam_argv_safe (Some [Some (bytes_of "method=fido2"); None])). vm_compute. reflexivity.
Defined.
