(* ===== verification/DemoAdapter.v ===== *)
(** * The demonstration adapter: [crates/ola-adapter-demo-fido2/src/main.rs]

    The other end of the adapter protocol.  Its socket and files are inputs;
    [serde_json] is a parameter. *)

From S2P Require Import Prelude RustStd Types SecureFs Config Privilege Socket Attestation AuditEntry AuditLog Json Client.
Open Scope Z_scope.

Definition DEMO_PROTOCOL_VERSION : Z := 1.
Definition MAX_REQUEST_BYTES : nat := 64 * 1024.

(** [Config]; the confidence is the bits of an [f32]. *)
Record DemoConfig := mk_demo_config {
  dc_socket_path : string;
  dc_key_path : string;
  dc_method : string;
  dc_confidence : Z
}.

Inductive DemoError : Type :=
| DmMissingValue (flag : string)
| DmNotFloat
| DmUnknownArg (arg : string)
| DmConfidenceRange
| DmKeyMetadata
| DmKeySymlink
| DmKeyOpen
| DmKeyNotRegular
| DmKeyMode
| DmKeyRead
| DmKeyLength
| DmParentDir
| DmStaleSocket (e : SocketError)
| DmBind
| DmSetPermissions
| DmClone
| DmRead
| DmTooLarge
| DmNotUtf8
| DmParse
| DmVersion (v : Z)
| DmDeadline
| DmSerialize
| DmWrite
| DmPanic.                              (* the clock is before the epoch *)

(** ** Arguments *)

(** [f32::from_str] is a parameter: the text is not looked into. *)
Section Args.
Context (parse_f32 : string → option Z).

Definition demo_from_env (env : Environment) : DemoConfig :=
  mk_demo_config
    (var_or env "OLA_DEMO_FIDO2_SOCKET" "/tmp/ola-demo-fido2.sock")
    (var_or env "OLA_DEMO_FIDO2_KEY" "/tmp/ola-demo-fido2.key")
    (var_or env "OLA_DEMO_FIDO2_METHOD" "fido2")
    (match env "OLA_DEMO_FIDO2_CONFIDENCE" with
     | EnvSet value => default f32_one (parse_f32 value)
     | _ => f32_one
     end).

(** The loop over the arguments: a configuration, or [None] for [--help],
    which ends the process. *)
Fixpoint demo_parse_args (config : DemoConfig) (args : list string)
  : result (option DemoConfig) DemoError :=
  match args with
  | [] => Ok (Some config)
  | arg :: args =>
      if bool_decide (arg = "--socket") then
        match args with
        | [] => Err (DmMissingValue arg)
        | value :: args =>
            demo_parse_args (mk_demo_config value (dc_key_path config) (dc_method config)
                               (dc_confidence config)) args
        end
      else if bool_decide (arg = "--key") then
        match args with
        | [] => Err (DmMissingValue arg)
        | value :: args =>
            demo_parse_args (mk_demo_config (dc_socket_path config) value (dc_method config)
                               (dc_confidence config)) args
        end
      else if bool_decide (arg = "--method") then
        match args with
        | [] => Err (DmMissingValue arg)
        | value :: args =>
            demo_parse_args (mk_demo_config (dc_socket_path config) (dc_key_path config) value
                               (dc_confidence config)) args
        end
      else if bool_decide (arg = "--confidence") then
        match args with
        | [] => Err (DmMissingValue arg)
        | value :: args =>
            match parse_f32 value with
            | None => Err DmNotFloat
            | Some confidence =>
                demo_parse_args (mk_demo_config (dc_socket_path config) (dc_key_path config)
                                   (dc_method config) confidence) args
            end
        end
      else if bool_decide (arg = "--help" ∨ arg = "-h") then Ok None
      else Err (DmUnknownArg arg)
  end.

Definition from_env_and_args (env : Environment) (args : list string)
  : result (option DemoConfig) DemoError :=
  let? parsed := demo_parse_args (demo_from_env env) args in
  match parsed with
  | None => Ok None
  | Some config =>
      if negb (f32_unit_range (dc_confidence config)) then Err DmConfidenceRange
      else Ok (Some config)
  end.
End Args.

(** ** The key *)

(** [symlink] is what [symlink_metadata] says of the path; [file] the
    descriptor that opening without following links yields. *)
Definition load_key (symlink : option bool) (file : result OpenFile IoKind)
  : result (list byte) DemoError :=
  let? link := ok_or DmKeyMetadata symlink in
  if (link : bool) then Err DmKeySymlink
  else
  let? file := map_err (λ _, DmKeyOpen) file in
  let? stat := ok_or DmKeyMetadata (of_stat file) in
  if negb (Z.land (st_mode stat) S_IFMT =? S_IFREG) then Err DmKeyNotRegular
  else if negb (Z.land (st_mode stat) 63 =? 0) then Err DmKeyMode
  else if negb (of_read_ok file) then Err DmKeyRead
  else
  let data := take 33 (of_data file) in
  if negb (bool_decide (length data = 32%nat)) then Err DmKeyLength else Ok data.

(** ** The evidence *)

Section Evidence.
Context `{C : Crypto}.

Definition demo_method_commitment (method : string) : list byte := sha256 (bytes_of method).

Definition evidence_hash (key nonce : list byte) (uid : Z) (method : string)
    (confidence timestamp_ms : Z) : list byte :=
  hmac_sha256 key
    (nonce ++ le_bytes 4 uid ++ demo_method_commitment method ++ le_bytes 4 confidence
     ++ le_bytes 8 timestamp_ms).
End Evidence.

(** ** One request *)

(** The adapter's own [VerificationResult]: its method is a plain string. *)
Record DemoResult := mk_demo_result {
  dr_version : Z;
  dr_id : list byte;
  dr_confidence : Z;
  dr_method : string;
  dr_timestamp_ms : Z;
  dr_uid : Z;
  dr_nonce : list byte;
  dr_evidence_hash : list byte
}.

(** [serde_json] at the adapter's types. *)
Class DemoSerde := {
  demo_value_from_str : string → option Value;
  request_from_value : Value → option VerificationRequest;
  demo_result_to_string : DemoResult → option string;
  demo_value_to_string : Value → string
}.

(** [read_capped_line]: the bytes the peer sends and whether reading fails
    after them.  The line keeps its newline. *)
Definition upto_newline (bytes : list byte) : list byte :=
  let line := take_until nl bytes in
  if bool_decide (length line < length bytes)%nat then line ++ [nl] else line.

Definition read_capped_line (bytes : list byte) (read_ok : bool)
  : result (option string) DemoError :=
  let visible := take (MAX_REQUEST_BYTES + 1) bytes in
  let buf := upto_newline visible in
  let complete := bool_decide (nl ∈ visible)
                  || bool_decide (length visible = MAX_REQUEST_BYTES + 1)%nat in
  if negb complete && negb read_ok then Err DmRead
  else if bool_decide (buf = []) then Ok None
  else if bool_decide (MAX_REQUEST_BYTES < length buf)%nat then Err DmTooLarge
  else if utf8_valid buf then Ok (Some (str_of buf)) else Err DmNotUtf8.

Section Handle.
Context `{C : Crypto} `{DS : DemoSerde}.

Definition demo_result (config : DemoConfig) (key : list byte) (request : VerificationRequest)
    (timestamp_ms : Z) : DemoResult :=
  mk_demo_result DEMO_PROTOCOL_VERSION (req_id request) (dc_confidence config)
    (dc_method config) timestamp_ms (req_uid request) (req_nonce request)
    (evidence_hash key (req_nonce request) (req_uid request) (dc_method config)
       (dc_confidence config) timestamp_ms).

(** [now_ms]: [expect] panics on a system clock before the epoch. *)
Definition demo_now_ms (t : Z) : result Z DemoError :=
  if t <? 0 then Err DmPanic else Ok (unix_ms t).

(** What one connection meets: whether its descriptor can be duplicated, the
    bytes the peer sends and whether reading fails after them, the two
    readings of the clock, and whether the answer can be written. *)
Record Incoming := mk_incoming {
  in_clone : bool;
  in_bytes : list byte;
  in_read_ok : bool;
  in_now1 : Z;
  in_now2 : Z;
  in_write_ok : bool
}.

(** The line written back, if any. *)
Definition demo_handle_client (config : DemoConfig) (key : list byte) (conn : Incoming)
  : result (option string) DemoError :=
  let write_ok := in_write_ok conn in
  if negb (in_clone conn) then Err DmClone
  else
  let? line := read_capped_line (in_bytes conn) (in_read_ok conn) in
  match line with
  | None => Ok None
  | Some line =>
      if bool_decide (trim line = EmptyString) then Ok None
      else
      let? value := ok_or DmParse (demo_value_from_str (trim line)) in
      if eq_str (get value "method") "ping" then
        if write_ok
        then Ok (Some (demo_value_to_string
                         (VObject [("version", VNumber (PosInt DEMO_PROTOCOL_VERSION));
                                   ("ok", VBool true)])))
        else Err DmWrite
      else
      let? request := ok_or DmParse (request_from_value value) in
      if negb (req_version request =? DEMO_PROTOCOL_VERSION)
      then Err (DmVersion (req_version request))
      else
      let? now := demo_now_ms (in_now1 conn) in
      if req_deadline_ms request <? now then Err DmDeadline
      else
      let? timestamp_ms := demo_now_ms (in_now2 conn) in
      let? text :=
        ok_or DmSerialize (demo_result_to_string (demo_result config key request timestamp_ms)) in
      if write_ok then Ok (Some text) else Err DmWrite
  end.

(** The loop over [listener.incoming()]: what became of each connection, up
    to a panic, which ends the process; [None] is a failed accept. *)
Fixpoint demo_serve (config : DemoConfig) (key : list byte) (incoming : list (option Incoming))
  : list (result (option string) DemoError) :=
  match incoming with
  | [] => []
  | None :: incoming => demo_serve config key incoming
  | Some conn :: incoming =>
      match demo_handle_client config key conn with
      | Err DmPanic => [Err DmPanic]
      | outcome => outcome :: demo_serve config key incoming
      end
  end.
End Handle.

(** ** The path of its socket *)

(** The adapter's own [remove_stale_socket]. *)
Definition demo_remove_stale_socket (lstat : result FileType IoKind)
    (connect : result unit IoKind) (unlink : bool) : result unit SocketError * bool :=
  match lstat with
  | Err IoNotFound => (Ok tt, false)
  | Err e => (Err (SeStat e), false)
  | Ok file_type =>
      if bool_decide (file_type = FtSymlink) then (Err SeSymlink, false)
      else if negb (bool_decide (file_type = FtSocket)) then (Err SeNotSocket, false)
      else
      let stale := match connect with
                   | Ok _ => Err SeInUse
                   | Err IoConnectionRefused => Ok tt
                   | Err IoPermissionDenied => Err SeNotAccessible
                   | Err _ => Ok tt
                   end in
      match stale with
      | Err e => (Err e, false)
      | Ok _ => if unlink then (Ok tt, true) else (Err SeRemove, false)
      end
  end.

(** ** [main] *)

(** What [main] meets before it serves; [di_parent] is whether the directory
    of the socket could be made, [None] if the path has no parent. *)
Record DemoIo := mk_demo_io {
  di_symlink : option bool;
  di_key_file : result OpenFile IoKind;
  di_parent : option bool;
  di_lstat : result FileType IoKind;
  di_connect : result unit IoKind;
  di_unlink : bool;
  di_bind : bool;
  di_chmod : bool
}.

(** [main] up to its loop: [None] when it printed its help. *)
Definition demo_setup (parse_f32 : string → option Z) (env : Environment) (args : list string)
    (io : DemoIo) : result (option (DemoConfig * list byte)) DemoError :=
  let? parsed := from_env_and_args parse_f32 env args in
  match parsed with
  | None => Ok None
  | Some config =>
      let? key := load_key (di_symlink io) (di_key_file io) in
      let? _ := match di_parent io with Some false => Err DmParentDir | _ => Ok tt end in
      let? _ := map_err DmStaleSocket
                  (demo_remove_stale_socket (di_lstat io) (di_connect io) (di_unlink io)).1 in
      let? _ := if di_bind io then Ok tt else Err DmBind in
      let? _ := if di_chmod io then Ok tt else Err DmSetPermissions in
      Ok (Some (config, key))
  end.

(** ** Lemmas *)

Lemma demo_stale_socket_same lstat connect unlink :
  demo_remove_stale_socket lstat connect unlink
  = remove_stale_socket_with lstat connect unlink.
Proof.
  unfold demo_remove_stale_socket, remove_stale_socket_with.
  destruct lstat as [[]|[]]; simpl; try done. by destruct connect as [|[]].
Qed.

#[local] Opaque MAX_REQUEST_BYTES.

Lemma read_capped_line_whole bytes read_ok :
  no_nl bytes → (length bytes + 1 ≤ MAX_REQUEST_BYTES)%nat →
  utf8_valid (bytes ++ [nl]) = true →
  read_capped_line (bytes ++ [nl]) read_ok = Ok (Some (str_of (bytes ++ [nl]))).
Proof.
  intros Hn Hl Hu. unfold read_capped_line, upto_newline.
  rewrite take_ge by (rewrite length_app; simpl; lia).
  rewrite (take_until_app nl bytes []) by done.
  rewrite (bool_decide_eq_true_2 (nl ∈ bytes ++ [nl])) by set_solver. cbn [orb negb andb].
  rewrite (bool_decide_eq_true_2 (length bytes < length (bytes ++ [nl]))%nat)
    by (rewrite length_app; simpl; lia).
  rewrite bool_decide_eq_false_2 by (by destruct bytes).
  rewrite bool_decide_eq_false_2 by (rewrite length_app; simpl; lia).
  by rewrite Hu.
Qed.

(** ** The protocol between daemon and adapter *)

(** What [serde_json] promises the two sides: the text of a request is one
    line, an object without a field [method], that reads back as the request;
    the text of a result reads back with the method the daemon knows by that
    name (a non-finite float would be written as [null]). *)
Class DemoLaws (W : WireSerde) (DS : DemoSerde) : Prop := {
  demo_request_text r s :
    request_to_string r = Some s →
    no_nl (bytes_of s) ∧ utf8_valid (bytes_of s) = true
    ∧ (∃ mid, bytes_of s = ("{"%char : byte) :: mid ++ [("}"%char : byte)])
    ∧ ∃ v, demo_value_from_str s = Some v ∧ get_field v "method" = None
        ∧ request_from_value v = Some r;
  demo_result_text r m t :
    demo_result_to_string r = Some t → deserialize_auth_method (dr_method r) = Ok m →
    f32_is_finite (dr_confidence r) = true →
    result_from_str t
    = Some (mk_result (dr_version r) (dr_id r) (dr_confidence r) m (dr_timestamp_ms r)
              (dr_uid r) (dr_nonce r) (dr_evidence_hash r))
}.

Section Interop.
Context {C : Crypto} {W : WireSerde} {DS : DemoSerde} {DL : DemoLaws W DS}.

(** The adapter takes the daemon's line for the request it is. *)
Lemma demo_takes_request config key request s read_ok now1 now2 write_ok :
  request_to_string request = Some s → (String.length s + 1 ≤ MAX_REQUEST_BYTES)%nat →
  0 ≤ now1 → 0 ≤ now2 →
  demo_handle_client config key (mk_incoming true (bytes_of s ++ [nl]) read_ok now1 now2 write_ok)
  = if negb (req_version request =? DEMO_PROTOCOL_VERSION)
    then Err (DmVersion (req_version request))
    else if req_deadline_ms request <? unix_ms now1 then Err DmDeadline
    else match demo_result_to_string (demo_result config key request (unix_ms now2)) with
         | Some text => if write_ok then Ok (Some text) else Err DmWrite
         | None => Err DmSerialize
         end.
Proof.
  intros Hs Hl Hn1 Hn2. apply demo_request_text in Hs as (Hn & Hu & [mid Hm] & v & Hv & Hno & Hr).
  unfold demo_handle_client. cbn [in_clone in_bytes in_read_ok in_now1 in_now2 in_write_ok negb].
  rewrite read_capped_line_whole;
    [|done|by rewrite length_bytes_of|by eapply utf8_valid_snoc_nl].
  assert (trim (str_of (bytes_of s ++ [nl])) = s) as ->.
  { rewrite Hm, <-app_comm_cons, <-app_assoc. simpl app at 2.
    rewrite trim_line by done. by rewrite <-Hm, str_of_bytes_of. }
  rewrite bool_decide_eq_false_2 by (by intros ->). unfold ok_or. rewrite Hv.
  assert (eq_str (get v "method") "ping" = false) as ->.
  { unfold get. by rewrite Hno. }
  rewrite Hr. destruct (negb _); [done|]. unfold demo_now_ms.
  rewrite !(proj2 (Z.ltb_ge _ 0)) by done. destruct (_ <? _); [done|].
  by destruct (demo_result_to_string _).
Qed.

(** The answer the daemon expects. *)
Definition demo_evidence (config : DemoConfig) (key : list byte) (request : VerificationRequest)
    (m : AuthMethod) (timestamp_ms : Z) : VerificationResult :=
  mk_result DEMO_PROTOCOL_VERSION (req_id request) (dc_confidence config) m timestamp_ms
    (req_uid request) (req_nonce request)
    (evidence_hash key (req_nonce request) (req_uid request) (dc_method config)
       (dc_confidence config) timestamp_ms).

(** The daemon takes the adapter's line for the answer to its request. *)
Lemma demo_answer_checked config key request now m t ex :
  deserialize_auth_method (dc_method config) = Ok m →
  f32_unit_range (dc_confidence config) = true →
  demo_result_to_string (demo_result config key request now) = Some t →
  ex_next ex = Done (Some (Some t)) →
  check_response request ex = Ok (demo_evidence config key request m now).
Proof.
  intros Hm Hc Ht Hex. eapply demo_result_text in Ht; [|done|by apply f32_unit_range_finite].
  unfold check_response. rewrite Hex. simpl. rewrite Ht. simpl.
  by rewrite bool_decide_eq_false_2 by (intros E; by apply E).
Qed.

(** Under a shared key its evidence verifies. *)
Lemma demo_evidence_verifies {CL : CryptoLaws C} config key request m now v name :
  deserialize_auth_method (dc_method config) = Ok m → adapter_keys v !! name = Some key →
  Attestation.verify v name (demo_evidence config key request m now) = Ok tt.
Proof.
  intros Hm Hk. apply attest_verify_Ok. exists key. split; [done|]. simpl.
  unfold evidence_hash, mac_input, demo_method_commitment, method_commitment. simpl.
  by rewrite (deserialize_as_str _ _ Hm).
Qed.
End Interop.

(** C30: daemon and adapter agree on the protocol.  A request of the daemon
    that reaches the demonstration adapter before its deadline is answered;
    the daemon accepts the answer as the answer to this request, and finds
    in it the nonce and the uid it sent, the adapter's method, confidence and
    time; and when both hold the same key, the evidence hash verifies. *)
Theorem demo_adapter_interop {C : Crypto} {CL : CryptoLaws C} {W : WireSerde} {DS : DemoSerde}
    {DL : DemoLaws W DS} config key request s read_ok now1 now2 m t ex :
  request_to_string request = Some s → (String.length s + 1 ≤ MAX_REQUEST_BYTES)%nat →
  req_version request = 1 → 0 ≤ now1 → 0 ≤ now2 → unix_ms now1 ≤ req_deadline_ms request →
  deserialize_auth_method (dc_method config) = Ok m →
  f32_unit_range (dc_confidence config) = true →
  demo_result_to_string (demo_result config key request (unix_ms now2)) = Some t →
  ex_next ex = Done (Some (Some t)) →
  demo_handle_client config key (mk_incoming true (bytes_of s ++ [nl]) read_ok now1 now2 true)
  = Ok (Some t)
  ∧ ∃ result, check_response request ex = Ok result
      ∧ res_nonce result = req_nonce request ∧ res_uid result = req_uid request
      ∧ res_method result = m ∧ res_confidence result = dc_confidence config
      ∧ res_timestamp_ms result = unix_ms now2
      ∧ ∀ v name, adapter_keys v !! name = Some key → Attestation.verify v name result = Ok tt.
Proof.
  intros Hs Hl Hv Hn1 Hn2 Hd Hm Hc Ht Hex. split.
  { erewrite demo_takes_request by done. rewrite Hv. simpl.
    destruct (Z.ltb_spec (req_deadline_ms request) (unix_ms now1)); [lia|]. by rewrite Ht. }
  exists (demo_evidence config key request m (unix_ms now2)).
  split; [by apply (demo_answer_checked config key request (unix_ms now2) m t ex)|].
  split_and!; try done. intros v name. by apply demo_evidence_verifies.
Qed.

(** A key the adapter works with is 32 bytes, the whole of a regular file
    that neither its group nor others can access and that is no symbolic
    link. *)
Lemma load_key_Ok symlink file key :
  load_key symlink file = Ok key →
  symlink = Some false ∧ length key = 32%nat
  ∧ ∃ f stat, file = Ok f ∧ of_stat f = Some stat ∧ of_data f = key
      ∧ Z.land (st_mode stat) S_IFMT = S_IFREG ∧ Z.land (st_mode stat) 63 = 0.
Proof.
  unfold load_key. intros H. peel H as [link|] Hl. destruct link; [discriminate H|].
  peel H as [f|] Hf. peel H as [stat|] Hs.
  destruct (Z.eqb_spec (Z.land (st_mode stat) S_IFMT) S_IFREG) as [Hr|]; [|done].
  destruct (Z.eqb_spec (Z.land (st_mode stat) 63) 0) as [Hp|]; [|done].
  destruct (of_read_ok f); [|done]. cbn [negb] in H.
  case_bool_decide as Hlen; [|done]. apply Ok_inj in H. subst key.
  split; [done|]. split; [done|]. exists f, stat. split_and!; try done.
  rewrite length_take in Hlen. by rewrite take_ge by lia.
Qed.

(** ** The adapter as a whole *)

Section Serving.
Context {C : Crypto} {DS : DemoSerde}.

(** Connections do not disturb each other: the outcomes are those of the
    connections one by one, in order, all of them unless one panics. *)
Lemma demo_serve_each config key incoming :
  ∃ rest, demo_handle_client config key <$> omap id incoming
          = demo_serve config key incoming ++ rest
    ∧ (rest = [] ∨ last (demo_serve config key incoming) = Some (Err DmPanic)).
Proof.
  induction incoming as [|[conn|] incoming (rest & IH & Hlast)].
  { exists []. by split; [|left]. }
  - change (omap id (Some conn :: incoming)) with (conn :: omap id incoming). rewrite fmap_cons.
    cbn [demo_serve].
    assert (∃ rest', demo_handle_client config key conn :: (demo_handle_client config key
        <$> omap id incoming)
        = (demo_handle_client config key conn :: demo_serve config key incoming) ++ rest'
      ∧ (rest' = [] ∨ last (demo_handle_client config key conn :: demo_serve config key incoming)
           = Some (Err DmPanic))) as Hgo.
    { exists rest. split; [by rewrite IH|]. destruct Hlast as [->|Hl]; [by left|right].
      by rewrite last_cons, Hl. }
    destruct (demo_handle_client config key conn) as [o|e]; [done|]. destruct e; try done.
    eexists. split; [done|]. by right.
  - exists rest. by split.
Qed.

(** What an answer of the adapter is: the reply to a ping, or evidence for
    the request that came in, in time. *)
Lemma demo_handle_client_answer config key conn t :
  demo_handle_client config key conn = Ok (Some t) →
  ∃ line value, read_capped_line (in_bytes conn) (in_read_ok conn) = Ok (Some line)
    ∧ demo_value_from_str (trim line) = Some value
    ∧ (eq_str (get value "method") "ping" = true
       ∧ t = demo_value_to_string
               (VObject [("version", VNumber (PosInt DEMO_PROTOCOL_VERSION)); ("ok", VBool true)])
       ∨ ∃ request, request_from_value value = Some request
           ∧ req_version request = DEMO_PROTOCOL_VERSION
           ∧ unix_ms (in_now1 conn) ≤ req_deadline_ms request
           ∧ demo_result_to_string (demo_result config key request (unix_ms (in_now2 conn)))
             = Some t).
Proof.
  unfold demo_handle_client, demo_now_ms. intros H.
  destruct (in_clone conn); cbn [negb] in H; [|done].
  peel H as [o|] Hl. destruct o as [line|]; [|done]. case_bool_decide; [done|]. peel H as [value|] Hv.
  exists line, value. split; [done|]. split; [done|].
  destruct (eq_str _ _) eqn:Hp; [left; destruct (in_write_ok conn); by simplify_eq|right].
  peel H as [request|] Hr. exists request.
  destruct (Z.eqb_spec (req_version request) DEMO_PROTOCOL_VERSION); cbn [negb] in H; [|done].
  destruct (in_now1 conn <? 0); [done|]. destruct (Z.ltb_spec (req_deadline_ms request)
    (unix_ms (in_now1 conn))); [done|]. destruct (in_now2 conn <? 0); [done|].
  peel H as [text|] Ht. destruct (in_write_ok conn); by simplify_eq.
Qed.
End Serving.

(** The reply to a ping: a fixed text, in which nothing depends on the key or
    on what was asked. *)
Definition ping_reply {DS : DemoSerde} : string :=
  demo_value_to_string (VObject [("version", VNumber (PosInt 1)); ("ok", VBool true)]).

(** C29: the adapter vouches only for what it was asked.  When [main] comes to
    its loop, its key is the whole content, 32 bytes, of the file it opened
    at a path that is no symbolic link: a regular file without any
    permission for its group or others.  Its confidence is in the unit
    interval, and it took over no socket path that was in use, a link or
    another file.  Connections are then served one after the other, each on
    its own: a failed accept or request stops nothing, only a clock before
    the epoch does.  Every line the adapter ever writes is the fixed reply to
    a ping, or the evidence, under its key, for the id, nonce and uid of the
    request of version 1 on that very connection, with the configured method
    and confidence and the time of the answer, and the request's deadline had
    not passed when it was looked at. *)
Theorem demo_adapter_sound {C : Crypto} {DS : DemoSerde} parse_f32 env args io config key :
  demo_setup parse_f32 env args io = Ok (Some (config, key)) →
  (di_symlink io = Some false ∧ length key = 32%nat
   ∧ ∃ file stat, di_key_file io = Ok file ∧ of_stat file = Some stat ∧ of_data file = key
       ∧ Z.land (st_mode stat) S_IFMT = S_IFREG ∧ Z.land (st_mode stat) 63 = 0)
  ∧ f32_unit_range (dc_confidence config) = true
  ∧ (di_lstat io = Err IoNotFound ∨ di_lstat io = Ok FtSocket ∧ di_connect io ≠ Ok tt)
  ∧ ∀ incoming,
      (∃ rest, demo_handle_client config key <$> omap id incoming
               = demo_serve config key incoming ++ rest
         ∧ (rest = [] ∨ last (demo_serve config key incoming) = Some (Err DmPanic)))
      ∧ ∀ t, Ok (Some t) ∈ demo_serve config key incoming →
          ∃ conn line value, Some conn ∈ incoming
            ∧ read_capped_line (in_bytes conn) (in_read_ok conn) = Ok (Some line)
            ∧ demo_value_from_str (trim line) = Some value
            ∧ (eq_str (get value "method") "ping" = true ∧ t = ping_reply
               ∨ ∃ request r, request_from_value value = Some request
                   ∧ req_version request = 1
                   ∧ unix_ms (in_now1 conn) ≤ req_deadline_ms request
                   ∧ demo_result_to_string r = Some t
                   ∧ dr_version r = 1
                   ∧ dr_id r = req_id request ∧ dr_nonce r = req_nonce request
                   ∧ dr_uid r = req_uid request ∧ dr_method r = dc_method config
                   ∧ dr_confidence r = dc_confidence config
                   ∧ dr_timestamp_ms r = unix_ms (in_now2 conn)
                   ∧ dr_evidence_hash r
                     = evidence_hash key (dr_nonce r) (dr_uid r) (dr_method r) (dr_confidence r)
                         (dr_timestamp_ms r)).
Proof.
  unfold demo_setup. intros H. peel H as [o|] Hc. destruct o as [c|]; [|done]. peel H as [k|] Hk.
  peel H as [[]|] Hpar. peel H as [[]|] Hst. peel H as [[]|] Hb. peel H as [[]|] Hm.
  injection H as -> ->. apply load_key_Ok in Hk as Hkey. split; [done|]. split.
  { unfold from_env_and_args in Hc. peel Hc as [o|] Hp. destruct o as [c|]; [|done].
    destruct (f32_unit_range (dc_confidence c)) eqn:E; by simplify_eq/=. }
  split.
  { unfold demo_remove_stale_socket in Hst. destruct (di_lstat io) as [[]|[]]; simpl in Hst;
      try done; [right|by left]. split; [done|]. by intros E; rewrite E in Hst. }
  intros incoming. split; [apply demo_serve_each|]. intros t Hin.
  destruct (demo_serve_each config key incoming) as (rest & E & _).
  assert (Ok (Some t) ∈ demo_handle_client config key <$> omap id incoming) as Hin'
    by (rewrite E; apply elem_of_app; by left).
  apply list_elem_of_fmap in Hin' as (conn & Ht & Hconn).
  apply list_elem_of_omap in Hconn as (o & Ho & [= ->]).
  symmetry in Ht. apply demo_handle_client_answer in Ht as (line & value & Hl & Hv & Hcase).
  exists conn, line, value. split_and!; try done.
  destruct Hcase as [[? ->]|(request & Hr & Hv1 & Hd & Ht)]; [by left|right].
  by eexists request, _.
Qed.

(** ** A concrete exchange *)

#[global] Instance request_eq_dec : EqDecision VerificationRequest.
Proof. solve_decision. Defined.
#[global] Instance demo_result_eq_dec : EqDecision DemoResult.
Proof. solve_decision. Defined.

Definition ask_config : DemoConfig := mk_demo_config "/run/demo.sock" "/etc/demo.key" "fido2" f32_one.
Definition ask_request : VerificationRequest :=
  mk_request 1 (replicate 16 "003"%char) 1000 (replicate 32 "004"%char) 5000.
Definition ask_result : DemoResult :=
  @demo_result sample_crypto ask_config sample_key ask_request 2000.

Definition ask_wire : WireSerde := {|
  request_to_string := λ r, if decide (r = ask_request) then Some "{ask}" else None;
  result_from_str := λ s,
    if bool_decide (s = "{answer}") then
      Some (mk_result 1 (dr_id ask_result) f32_one Fido2 2000 1000 (dr_nonce ask_result)
              (dr_evidence_hash ask_result))
    else None;
  value_from_str := λ _, None;
  value_to_string := λ _, EmptyString
|}.

Definition ask_serde : DemoSerde := {|
  demo_value_from_str := λ _, Some (VObject []);
  request_from_value := λ _, Some ask_request;
  demo_result_to_string := λ r, if decide (r = ask_result) then Some "{answer}" else None;
  demo_value_to_string := λ _, EmptyString
|}.

Lemma ask_laws : DemoLaws ask_wire ask_serde.
Proof.
  split.
  - intros r s H. cbn in H. destruct (decide (r = ask_request)) as [->|]; [|done].
    injection H as <-. split; [by apply (bool_decide_unpack _)|]. split; [by vm_compute|].
    split; [by exists (bytes_of "ask")|]. by exists (VObject []).
  - intros r m t H Hm _. cbn in H. destruct (decide (r = ask_result)) as [->|]; [|done].
    injection H as <-. vm_compute in Hm. injection Hm as <-. by vm_compute.
Qed.

Lemma demo_adapter_interop_witness :
  @demo_handle_client sample_crypto ask_serde ask_config sample_key
    (mk_incoming true (bytes_of "{ask}" ++ [nl]) true (millis 1999) (millis 2000) true)
  = Ok (Some "{answer}")
  ∧ ∃ result, @check_response ask_wire ask_request
      (mk_exchange (Done None) (Some 991) (Done true) (Done (Some (Some "{answer}")))) = Ok result
      ∧ @Attestation.verify sample_crypto sample_verifier "fido2" result = Ok tt.
Proof.
  destruct (@demo_adapter_interop sample_crypto sample_crypto_laws ask_wire ask_serde ask_laws
              ask_config sample_key ask_request "{ask}" true (millis 1999) (millis 2000) Fido2 "{answer}"
              (mk_exchange (Done None) (Some 991) (Done true) (Done (Some (Some "{answer}")))))
    as (H1 & result & H2 & _ & _ & _ & _ & _ & H3).
  - vm_compute. reflexivity.
  - apply (bool_decide_unpack _). vm_compute. exact I.
  - reflexivity.
  - vm_compute. discriminate.
  - vm_compute. discriminate.
  - vm_compute. discriminate.
  - vm_compute. reflexivity.
  - vm_compute. reflexivity.
  - vm_compute. reflexivity.
  - reflexivity.
  - split; [exact H1|]. exists result. split; [exact H2|]. apply H3. vm_compute. reflexivity.
Defined.

Definition ask_io : DemoIo :=
  mk_demo_io (Some false)
    (Ok (mk_file (Some (mk_stat (S_IFREG + 384) 32 0)) sample_key true true)) (Some true)
    (Ok FtSocket) (Err IoConnectionRefused) true true true.

(** A failed accept, a request, and a peer that says nothing. *)
Definition ask_incoming : list (option Incoming) :=
  [ None; Some (mk_incoming true (bytes_of "{ask}" ++ [nl]) true (millis 1999) (millis 2000) true);
    Some (mk_incoming true [] true 0 0 true) ].

Lemma demo_adapter_sound_witness :
  @demo_serve sample_crypto ask_serde ask_config sample_key ask_incoming
  = [Ok (Some "{answer}"); Ok None]
  ∧ ∃ file stat, di_key_file ask_io = Ok file ∧ of_stat file = Some stat
      ∧ of_data file = sample_key ∧ Z.land (st_mode stat) 63 = 0.
Proof.
  split; [vm_compute; reflexivity|].
  destruct (@demo_adapter_sound sample_crypto ask_serde (λ _, None) empty_env
              ["--socket"; "/run/demo.sock"; "--key"; "/etc/demo.key"] ask_io ask_config
              sample_key) as ((_ & _ & file & stat & H1 & H2 & H3 & _ & H4) & _).
  - vm_compute. reflexivity.
  - exists file, stat. split; [exact H1|]. split; [exact H2|]. split; [exact H3|exact H4].
Defined.
