(* ===== verification/Login.v ===== *)
(** * A login from end to end

    The PAM module, the daemon and the demonstration adapter on the two
    sockets between them: what the module reads is what the daemon answers to
    the line the module wrote, and what the daemon reads from its adapter is
    what the adapter answers to the line the daemon wrote.  [pam_login_sound]
    says what a login rests on; [login_completes] that nothing more than its
    parts being in order is needed for one. *)

From S2P Require Import Prelude RustStd Types SecureFs Policy Nonce RateLimit Allowlist.
From S2P Require Import Attestation AuditEntry AuditLog AuditChain Health Json Client AdapterConfig Registry Config Metrics.
From S2P Require Import Server Typing Decision UnixConnect Pam DemoAdapter.
Open Scope Z_scope.

(** ** The wires *)

(** [LinesCodec::new_with_max_length] of the daemon's client. *)
Definition MAX_RESPONSE_BYTES : nat := 64 * 1024.

Section Wires.
Context `{C : Crypto} `{SD : AuditSerde} `{W : WireSerde} `{SS : ServerSerde} `{DS : DemoSerde}.
Context (inner : AdapterError → string).

(** What [framed.next] of the daemon yields when the adapter is at the other
    end: its line, if it is not too long, or the end of the stream. *)
Definition adapter_wire (config : DemoConfig) (key : list byte) (now1 now2 : Z)
    (request : VerificationRequest) : Timed (option (option string)) :=
  match request_to_string request with
  | None => Elapsed                                  (* nothing was sent *)
  | Some s =>
      match demo_handle_client config key
              (mk_incoming true (bytes_of s ++ [nl]) true now1 now2 true) with
      | Ok (Some t) =>
          Done (Some (if bool_decide (String.length t ≤ MAX_RESPONSE_BYTES)%nat
                      then Some t else None))
      | _ => Done None
      end
  end.

(** What the module reads when the daemon is at the other end, to which it is
    root. *)
Definition daemon_wire (sv : Server) (le : LineEnv) (sh : Shared) (line : string) : ByteStream :=
  match (handle_line inner sv 0 line le sh).1 with
  | CloseSilently => mk_stream [] true
  | ReplyAndClose r | Reply r =>
      match response_to_string r with
      | Some s => mk_stream (bytes_of s ++ [nl]) true
      | None => mk_stream [] true
      end
  end.
End Wires.

(** ** Parts in order *)

(** The module is configured, the user is known, the socket works. *)
Record module_ready (c : PamCall) (cfg : PamOlaConfig) (uid : Z) (random : list byte) : Prop := {
  mr_args : parse_argv (pa_argv c) = Ok cfg;
  mr_user : ∃ name, pam_user (pa_null_handle c) (pa_user_rc c) (pa_user c) = Some name
              ∧ uid_for_user (pa_getpw c) name = Some uid;
  mr_uid : is_u32 uid;
  mr_connect : ∃ n, connect_with_timeout (pc_socket_path cfg) (millis (pc_timeout_ms cfg))
                      (pm_connect (pa_io c)) = Some (Ok tt, true, n);
  mr_socket : pm_read_timeout (pa_io c) = true ∧ pm_write_timeout (pa_io c) = true
              ∧ pm_write (pa_io c) = true;
  mr_random : pm_random (pa_io c) = Some random ∧ length random = 16%nat
}.

(** The daemon lets root in, knows a live adapter, has room for a nonce that
    nobody else takes away, is in time, and its log is in order and on a disk
    that works; [es] are the entries of the log. *)
Record daemon_ready {C : Crypto} {SD : AuditSerde} (sv : Server) (sh : Shared) (le : LineEnv)
    (method : string) (uid : Z) (resolved : ResolvedAdapter) (nonce : list byte)
    (es : list AuditEntry) : Prop := {
  dy_rate : (check (foldl (λ r op, (rate_step RATE_LIMIT_PER_UID r op).2) (sh_rate sh)
                      (le_rate_ops le)) 0 RATE_LIMIT_PER_UID (le_rate_now le)).1 = true;
  dy_registry : registry_typed (sv_registry sv);
  dy_resolved : resolve (sv_registry sv) (ve_health (le_verify le)) method = Ok resolved;
  dy_up : adapter_down (ve_dispatch_health (le_verify le)) (cl_name (ra_client resolved)) = false;
  dy_permit : ve_permit (le_verify le) = Done true;
  dy_uuid : length (ve_uuid (le_verify le)) = 16%nat;
  dy_store : sound (sh_nonces sh);
  dy_room : (size (pending (guarded (sh_nonces sh))) < 1024)%nat
            ∧ (uid_count (pending (guarded (sh_nonces sh))) uid < 32)%nat;
  dy_draw : ve_rand (le_verify le) 0 = Some nonce ∧ length nonce = 32%nat
            ∧ pending (guarded (sh_nonces sh)) !! nonce = None;
  dy_spared : Forall (spares nonce (ve_generate_now (le_verify le))) (ve_nonce_ops (le_verify le));
  dy_in_time : duration_since (ve_consume_now (le_verify le)) (ve_generate_now (le_verify le))
               ≤ NONCE_TTL;
  dy_deadline : unix_ms (ve_deadline_now (le_verify le))
                ≤ req_deadline_ms (challenge uid nonce resolved (le_verify le));
  dy_log : log_inv (sh_audit sh) es;
  dy_others : Forall readable_append (ve_audit_ops (le_verify le));
  dy_disk : ve_log_io (le_verify le) = mk_log_io true None true
}.

(** The adapter serves the method and answers in time. *)
Record adapter_ready (config : DemoConfig) (now1 now2 : Z) (request : VerificationRequest)
    (m : AuthMethod) : Prop := {
  ar_method : deserialize_auth_method (dc_method config) = Ok m;
  ar_confidence : f32_unit_range (dc_confidence config) = true ∧ is_u32 (dc_confidence config);
  ar_clock : 0 ≤ now1 ∧ 0 ≤ now2;
  ar_deadline : unix_ms now1 ≤ req_deadline_ms request
}.

(** The rule in force accepts evidence of this confidence made at [now]. *)
Record rule_accepts (engine : PolicyEngine) (m : AuthMethod) (rule : PolicyRule)
    (confidence made now : Z) : Prop := {
  pr_policy : wf_policy (pe_rules engine);
  pr_force : in_force (pe_rules engine) m rule;
  pr_past : made ≤ now;
  pr_cap : Z.min (rule_max_age_secs rule) (pe_max_result_age_secs engine) * 1000 ≤ u64_max;
  pr_fresh : now - made ≤ Z.min (rule_max_age_secs rule) (pe_max_result_age_secs engine) * 1000;
  pr_enough : f32_lt confidence (rule_min_confidence rule) = false
}.

(** ** Lemmas *)

Section Complete.
Context {C : Crypto} {CL : CryptoLaws C} {SD : AuditSerde} {SDL : AuditSerdeLaws SD}.
Context {W : WireSerde} {SS : ServerSerde} {CT : ContractLaws W SS}.
Context {DS : DemoSerde} {DL : DemoLaws W DS}.
Context (inner : AdapterError → string).

(** The daemon gets its evidence. *)
Lemma adapter_wire_answers config key now1 now2 request m s t :
  adapter_ready config now1 now2 request m → req_version request = PROTOCOL_VERSION →
  request_to_string request = Some s → (String.length s + 1 ≤ MAX_REQUEST_BYTES)%nat →
  demo_result_to_string (demo_result config key request (unix_ms now2)) = Some t →
  (String.length t ≤ MAX_RESPONSE_BYTES)%nat →
  adapter_wire config key now1 now2 request = Done (Some (Some t)).
Proof.
  intros [Hm [Hc _] [H1 H2] Hd] Hv Hs Hl Ht Hlt. unfold adapter_wire. rewrite Hs.
  erewrite demo_takes_request by done. rewrite Hv. simpl.
  destruct (Z.ltb_spec (req_deadline_ms request) (unix_ms now1)); [lia|].
  by rewrite Ht, bool_decide_eq_true_2.
Qed.

Lemma demo_evidence_wf config key request m now :
  wf_request request → is_u32 (dc_confidence config) → is_u64 now →
  wf_result (demo_evidence config key request m now).
Proof.
  intros (_ & Hid & Hu & Hn & _) Hc Ht. split_and!; try done. apply hmac_length.
Qed.

Lemma rule_accepts_allows engine m rule config key request now made uid method d :
  rule_accepts engine m rule (dc_confidence config) made (unix_ms now) →
  f32_unit_range (dc_confidence config) = true →
  evaluate engine now
    (mk_context uid method request (demo_evidence config key request m made) d) = Allow.
Proof.
  intros [Hwf Hf Hp Hcap Hfr He] Hc. destruct engine as [rs cap].
  apply evaluate_Allow; [done|]. exists rule. split; [done|]. by split_and!.
Qed.

(** The nonce is there when it is to be spent. *)
Lemma daemon_nonce sv sh le method uid resolved nonce es :
  daemon_ready sv sh le method uid resolved nonce es →
  (generate (sh_nonces sh) uid (ve_rand (le_verify le)) (ve_generate_now (le_verify le))).1 = Ok nonce
  ∧ sound (nonces_at_spending sh uid (le_verify le))
  ∧ (consume (nonces_at_spending sh uid (le_verify le)) nonce uid
       (ve_consume_now (le_verify le))).1 = Ok tt.
Proof.
  intros []. destruct dy_room0 as [Hsz Hu], dy_draw0 as (Hr & _ & Hn).
  destruct (generate_progress (sh_nonces sh) uid (ve_rand (le_verify le))
              (ve_generate_now (le_verify le)) 0 nonce) as (m' & Hg & Hp); try done; [lia..|].
  pose proof (generate_refines _ _ _ _ _ _ dy_store0 Hg) as [Hs' _].
  unfold nonces_at_spending. rewrite Hg. simpl. split; [done|].
  split; [by apply nonce_run_sound|].
  eapply consume_waiting; [by apply nonce_run_sound|apply nonce_run_spares|]; try done.
  by rewrite Hp, lookup_insert_eq.
Qed.

(** The entry reaches the log, after what others wrote. *)
Lemma daemon_logs sv sh le method uid resolved nonce es entry :
  daemon_ready sv sh le method uid resolved nonce es →
  wf_entry entry → f32_is_finite (ae_confidence entry) = true →
  (logged sh (le_verify le) entry).1 = Ok tt
  ∧ ∃ es' hash, log_inv (logged sh (le_verify le) entry).2 (es ++ es' ++ [seal entry hash]).
Proof.
  intros [] Hw Hfin. unfold logged, audit_before.
  destruct (audit_run_inv _ _ _ dy_others0 dy_log0) as [es' Hi].
  set (m := audit_run _ _) in *.
  destruct (log_written m _ entry (ve_log_io (le_verify le)) Hi Hw) as (s & _ & _ & _ & _ & _ & Hl);
    [by rewrite dy_disk0..|].
  cbv zeta in Hl. rewrite dy_disk0 in *. cbn [io_sync] in Hl. rewrite Hl. split; [done|].
  exists es', (au_prev_hash (guarded m)). rewrite (app_assoc es). by eapply log_Ok.
Qed.

(** All checks of the daemon pass. *)
Lemma daemon_grants sv sh le cfg_method uid resolved nonce es id config key now1 now2 m rule s t :
  let env := le_verify le in
  let request := challenge uid nonce resolved env in
  daemon_ready sv sh le cfg_method uid resolved nonce es → is_u32 uid → is_opt_string id →
  adapter_ready config now1 now2 request m → ra_method resolved = dc_method config →
  ve_exchange env = mk_exchange (Done None) (Some (cl_expected_uid (ra_client resolved)))
                      (Done true) (adapter_wire config key now1 now2 request) →
  request_to_string request = Some s → (String.length s + 1 ≤ MAX_REQUEST_BYTES)%nat →
  demo_result_to_string (demo_result config key request (unix_ms now2)) = Some t →
  (String.length t ≤ MAX_RESPONSE_BYTES)%nat →
  (require_attestation (sv_config sv) = true →
   adapter_keys (sv_attester sv) !! ra_adapter_name resolved = Some key) →
  rule_accepts (rl_policy_engine (le_reloadable le)) m rule (dc_confidence config)
    (unix_ms now2) (unix_ms (ve_policy_now env)) →
  let entry := from_decision (ve_entry_now env)
    (judged uid nonce resolved (demo_evidence config key request m (unix_ms now2)) (Some Allow) env)
    Allow 0 (Some (ra_adapter_name resolved)) id in
  grant sv (le_reloadable le) sh 0 uid cfg_method id env resolved nonce
    (demo_evidence config key request m (unix_ms now2))
  ∧ ∃ es' hash, log_inv (logged sh env entry).2 (es ++ es' ++ [seal entry hash]).
Proof.
  intros env request Hd Hu Hid Ha Hmeth Hex Hs Hsl Ht Htl Hkey Hrule entry.
  pose proof (adapter_wire_answers _ key _ _ _ _ s t Ha eq_refl Hs Hsl Ht Htl) as Hwire.
  destruct (daemon_nonce _ _ _ _ _ _ _ _ Hd) as (N1 & _ & N3).
  pose proof (resolve_typed _ _ _ _ (dy_registry _ _ _ _ _ _ _ _ Hd) (dy_resolved _ _ _ _ _ _ _ _ Hd))
    as (Tn & Tm & _ & Tt).
  destruct Ha as [Hm [Hc Hcu] _ _].
  assert (wf_entry entry) as Hw.
  { destruct Hd, dy_draw0 as (_ & Hn & _). apply from_decision_wf; try done.
    - by apply (text_string 64).
    - by apply (text_string 64).
    - apply demo_evidence_wf; [|done|apply unix_ms_u64]. split_and!; try done. simpl.
      unfold saturating_add_u64, is_u64. pose proof (unix_ms_u64 (ve_request_now env)) as [? ?].
      destruct Tt. split; [lia|apply Z.le_min_l || lia]. }
  destruct (daemon_logs _ _ _ _ _ _ _ _ entry Hd Hw) as [L1 L2];
    [by apply f32_unit_range_finite|].
  split; [|done]. split; try done.
  - apply Hd.
  - pose proof (dy_up _ _ _ _ _ _ _ _ Hd) as Hup. pose proof (dy_permit _ _ _ _ _ _ _ _ Hd) as Hp.
    fold env in Hup, Hp. unfold dispatch_resolved. rewrite Hup, Hp. fold request. unfold verify. rewrite (proj2 (connect_checked_Ok _ _)) by (by rewrite Hex).
    rewrite Hs, Hex. simpl. apply (demo_answer_checked _ _ _ _ m t); try done.
  - apply Hd.
  - intros Hreq. by apply demo_evidence_verifies; [|apply Hkey].
  - simpl. rewrite (deserialize_as_str _ _ Hm). done.
  - by eapply rule_accepts_allows.
Qed.
End Complete.

(** ** The property *)

(** C6: a login that should succeed does.  Let the PAM module, the daemon and
    the demonstration adapter talk to each other: the module is configured,
    finds its user and reaches the socket; the daemon has not exhausted its
    rate, routes the method to the adapter, whose peer is the configured uid
    and which is not down, has room for one more nonce, which no other
    request spends and no cleanup finds expired, and its log is in order on a
    disk that works; the adapter serves that method under the key the daemon
    has for it; each looks at its clock in time; and the rule in force is
    content with the adapter's confidence and the age of its evidence.  Then
    the module returns [PAM_SUCCESS], the challenge is spent, and the log
    grew, after what others wrote meanwhile, by the allow of this user under
    this request. *)
Theorem login_completes {C : Crypto} {CL : CryptoLaws C} {SD : AuditSerde}
    {SDL : AuditSerdeLaws SD} {W : WireSerde} {SS : ServerSerde} {CT : ContractLaws W SS}
    {DS : DemoSerde} {DL : DemoLaws W DS} inner c cfg uid random sv sh le resolved nonce es
    config key now1 now2 m rule s t text :
  let env := le_verify le in
  let request := challenge uid nonce resolved env in
  let id := "pam-" +:+ encode_hex random in
  let line := value_to_string (pam_request id (pam_params (pc_method cfg) (Some uid))) in
  module_ready c cfg uid random →
  daemon_ready sv sh le (pc_method cfg) uid resolved nonce es →
  adapter_ready config now1 now2 request m →
  rule_accepts (rl_policy_engine (le_reloadable le)) m rule (dc_confidence config)
    (unix_ms now2) (unix_ms (ve_policy_now env)) →
  ra_method resolved = dc_method config →
  (require_attestation (sv_config sv) = true →
   adapter_keys (sv_attester sv) !! ra_adapter_name resolved = Some key) →
  request_to_string request = Some s → (String.length s + 1 ≤ MAX_REQUEST_BYTES)%nat →
  demo_result_to_string (demo_result config key request (unix_ms now2)) = Some t →
  (String.length t ≤ MAX_RESPONSE_BYTES)%nat →
  response_to_string (response_allow (Some id) (ra_method resolved)) = Some text →
  (String.length text ≤ MAX_RESPONSE_LEN)%nat →
  ve_exchange env = mk_exchange (Done None) (Some (cl_expected_uid (ra_client resolved)))
                      (Done true) (adapter_wire config key now1 now2 request) →
  pm_stream (pa_io c) (line +:+ str_of [nl]) = daemon_wire inner sv le sh line →
  pam_sm_authenticate false c = Some PAM_SUCCESS
  ∧ let sh' := (handle_line inner sv 0 line le sh).2 in
    pending (guarded (sh_nonces sh')) !! nonce = None
    ∧ ∃ es' entry, log_inv (sh_audit sh') (es ++ es' ++ [entry])
        ∧ ae_decision entry = "allow" ∧ ae_caller_uid entry = 0 ∧ ae_uid entry = uid
        ∧ ae_request_id entry = Some id ∧ ae_adapter_name entry = Some (ra_adapter_name resolved)
        ∧ ae_method entry = ra_method resolved.
Proof.
  intros env request id line Hmod Hd Ha Hrule Hmeth Hkey Hs Hsl Ht Htl Hx Hxl Hex Hst.
  destruct Hmod as [M1 (name & M2 & M3) M4 [n M5] (M6 & M7 & M8) [M9 M10]].
  destruct (parse_argv_wf _ _ M1) as [Hmn _].
  pose proof (pam_line_handled inner sv le sh id (pc_method cfg) uid M4 Hmn) as Hh.
  pose proof (dy_rate _ _ _ _ _ _ _ _ Hd) as Hrate. cbv zeta in Hh. fold line in Hh.
  destruct (check _ 0 _ _) as [admitted rate]. simpl in Hrate. subst admitted.
  assert (is_opt_string (Some id)) as Hid.
  { apply (text_string (4 + 32)); [|by vm_compute]. apply text_app; [by apply literal_text|].
    pose proof (encode_hex_text random) as Hhex. by rewrite M10 in Hhex. }
  destruct (daemon_grants sv sh le (pc_method cfg) uid resolved nonce es (Some id) config key now1
              now2 m rule s t) as [Hg (es' & hash & Hlog)]; try done.
  apply (grant_ext _ _ (with_rate sh rate)) in Hg; [|done..].
  apply (grant_run inner) in Hg. rewrite Hg in Hh. split.
  - destruct (response_read _ text id true Hx Hxl) as [Hread Hsays].
    apply (pam_success_reads c cfg name uid random n text); try done.
    + fold id line. rewrite Hst. unfold daemon_wire. rewrite Hh. simpl. by rewrite Hx.
    + by apply Hsays.
  - rewrite Hh. split.
    + destruct (daemon_nonce _ _ _ _ _ _ _ _ Hd) as (_ & Hsnd & _).
      by apply (consume_gone _ nonce uid (ve_consume_now env)) in Hsnd as [_ ?].
    + exists es'. eexists. split; [exact Hlog|]. done.
Qed.

(** ** A concrete login *)

(** Alice logs in through the daemon of [Decision] and the adapter of
    [DemoAdapter]; another request writes to the log meanwhile, and the
    cleanup of the nonces runs. *)
Definition whole_resolved : ResolvedAdapter :=
  mk_resolved "key" "fido2" 5000
    (mk_client "key" "/run/ola/key.sock" 991 (millis 5000)).
Definition whole_nonce : list byte := res_nonce signed_result.
Definition whole_request : VerificationRequest :=
  mk_request 1 (res_id signed_result) 1000 whole_nonce 6000.
Definition whole_result : DemoResult :=
  @demo_result sample_crypto ask_config sample_key whole_request 1500.

Definition whole_wire : WireSerde := {|
  request_to_string := λ r, if decide (r = whole_request) then Some "{ask}" else None;
  result_from_str := λ s,
    if decide (s = "{answer}") then
      Some (@demo_evidence sample_crypto ask_config sample_key whole_request Fido2 1500)
    else None;
  value_from_str := @value_from_str login_wire;
  value_to_string := @value_to_string login_wire
|}.

Definition whole_serde : DemoSerde := {|
  demo_value_from_str := λ _, Some (VObject []);
  request_from_value := λ _, Some whole_request;
  demo_result_to_string := λ r, if decide (r = whole_result) then Some "{answer}" else None;
  demo_value_to_string := λ _, EmptyString
|}.

Lemma whole_contract : ContractLaws whole_wire login_serde.
Proof. split; [apply (@response_text _ _ login_laws)|apply (@request_text _ _ login_laws)]. Qed.

Lemma whole_laws : DemoLaws whole_wire whole_serde.
Proof.
  split.
  - intros r s H. cbn in H. destruct (decide (r = whole_request)) as [->|]; [|done].
    injection H as <-. split; [by apply (bool_decide_unpack _)|]. split; [by vm_compute|].
    split; [by exists (bytes_of "ask")|]. by exists (VObject []).
  - intros r m t H Hm _. cbn in H. destruct (decide (r = whole_result)) as [->|]; [|done].
    injection H as <-. vm_compute in Hm. injection Hm as <-. by vm_compute.
Qed.

Definition whole_env : VerifyEnv :=
  mk_venv demo_health (λ _, Some whole_nonce) (secs 5) (res_id signed_result)
    (secs 1) demo_health (Done true)
    (mk_exchange (Done None) (Some 991) (Done true)
       (@adapter_wire sample_crypto whole_wire whole_serde ask_config sample_key (millis 1400)
          (millis 1500) whole_request))
    [OpCleanup (secs 6)] (secs 2) (secs 7) (secs 2) (secs 2) [OpAppend sample_entry io_fine] io_fine.
Definition whole_line_env : LineEnv :=
  mk_lenv demo_reloadable [OpCheck 1001 (secs 4)] (secs 5) demo_health true whole_env.
Definition whole_call : PamCall :=
  mk_pam_call false (Some [Some (bytes_of "method=fido2"); None]) PAM_SUCCESS
    (Some (bytes_of "alice"))
    (λ _ len, if len <? 32768 then (ERANGE, None) else (0, Some 1000))
    (mk_pam_io sample_connect true true (Some login_random) true
       (λ _, @daemon_wire sample_crypto sample_serde whole_wire login_serde (λ _, "inner")
               demo_server whole_line_env demo_shared login_line)).

Lemma whole_module_ready : module_ready whole_call login_config 1000 login_random.
Proof.
  split; try (by vm_compute); [exists "alice"; by vm_compute|exists O; by vm_compute].
Qed.

Lemma whole_daemon_ready :
  @daemon_ready sample_crypto sample_serde demo_server demo_shared whole_line_env "fido2" 1000
    whole_resolved whole_nonce [].
Proof.
  split.
  - vm_compute. reflexivity.
  - apply (built_registry_typed sample_configs); [|reflexivity].
    repeat (apply Forall_cons; split; [apply validate_adapter_config_Ok; vm_compute; reflexivity|]).
    apply Forall_nil_2.
  - vm_compute. reflexivity.
  - vm_compute. reflexivity.
  - reflexivity.
  - reflexivity.
  - apply sound_new.
  - split; apply (bool_decide_unpack _); vm_compute; exact I.
  - done.
  - apply Forall_singleton. vm_compute. reflexivity.
  - vm_compute. discriminate.
  - vm_compute. discriminate.
  - apply log_inv_fresh.
  - apply Forall_singleton. split; [apply wf_sample_entry|]. split; vm_compute; reflexivity.
  - reflexivity.
Qed.

Lemma login_completes_witness :
  @pam_sm_authenticate whole_wire false whole_call = Some PAM_SUCCESS.
Proof.
  refine (proj1 (@login_completes sample_crypto sample_crypto_laws sample_serde sample_serde_laws
           whole_wire login_serde whole_contract whole_serde whole_laws (λ _, "inner") whole_call
           login_config 1000 login_random demo_server demo_shared whole_line_env whole_resolved
           whole_nonce [] ask_config sample_key (millis 1400) (millis 1500) Fido2
           (mk_rule (Some Fido2) f32_one 10 true) "{ask}" "{answer}" "allowed"
           whole_module_ready whole_daemon_ready _ _ _ _ _ _ _ _ _ _ _ _)).
  - split; by vm_compute.
  - split; try (by vm_compute).
    + apply (load_rules_wf sample_raw sample_policy). vm_compute. reflexivity.
    + split; [left|left; reflexivity].
  - reflexivity.
  - intros _. vm_compute. reflexivity.
  - vm_compute. reflexivity.
  - apply (bool_decide_unpack _). vm_compute. exact I.
  - vm_compute. reflexivity.
  - apply (bool_decide_unpack _). vm_compute. exact I.
  - vm_compute. reflexivity.
  - apply (bool_decide_unpack _). vm_compute. exact I.
  - reflexivity.
  - reflexivity.
Defined.
