(* ===== verification/Sha256.v ===== *)
(** * SHA-256 and HMAC

    The functions the class [Crypto] stands for, written out after FIPS 180-4
    and RFC 2104, with the laws the development relies on.  They give the
    class an instance that computes the digests the program computes; the
    digest that the repository records for an audit entry is checked against
    it in [TestsAudit]. *)

From S2P Require Import Prelude RustStd Types Attestation AuditEntry.
Open Scope Z_scope.

Definition word (z : Z) : Z := z mod 2 ^ 32.

Definition rotr (n x : Z) : Z := Z.lor (Z.shiftr x n) (word (Z.shiftl x (32 - n))).

Definition ch (x y z : Z) : Z := Z.lxor (Z.land x y) (Z.land (Z.lxor x (2 ^ 32 - 1)) z).
Definition maj (x y z : Z) : Z :=
  Z.lxor (Z.land x y) (Z.lxor (Z.land x z) (Z.land y z)).

Definition big_sigma0 (x : Z) : Z := Z.lxor (rotr 2 x) (Z.lxor (rotr 13 x) (rotr 22 x)).
Definition big_sigma1 (x : Z) : Z := Z.lxor (rotr 6 x) (Z.lxor (rotr 11 x) (rotr 25 x)).
Definition small_sigma0 (x : Z) : Z :=
  Z.lxor (rotr 7 x) (Z.lxor (rotr 18 x) (Z.shiftr x 3)).
Definition small_sigma1 (x : Z) : Z :=
  Z.lxor (rotr 17 x) (Z.lxor (rotr 19 x) (Z.shiftr x 10)).

(** The greatest [x] below [2 ^ bits] with [acc + x] to the [k] at most [n]. *)
Fixpoint root_from (bits : nat) (k n acc : Z) : Z :=
  match bits with
  | O => acc
  | S bits =>
      let x := acc + 2 ^ Z.of_nat bits in
      root_from bits k n (if x ^ k <=? n then x else acc)
  end.

(** The first 32 bits of the fractional part of the [k]-th root. *)
Definition root_fraction (k n : Z) : Z := word (root_from 40 k (n * 2 ^ (32 * k)) 0).

Definition is_prime (n : Z) : bool := forallb (λ d, negb (n mod d =? 0)) (seqZ 2 (n - 2)).
Definition primes : list Z := List.filter is_prime (seqZ 2 310).

(** From the cube roots of the first 64 primes, and the square roots of the
    first 8. *)
Definition round_constants : list Z := Eval vm_compute in root_fraction 3 <$> primes.
Definition initial_hash : list Z := Eval vm_compute in root_fraction 2 <$> take 8 primes.

Example constants_count : length round_constants = 64%nat ∧ length initial_hash = 8%nat.
Proof. split; reflexivity. Qed.

(** The bits of a number, most significant byte first. *)
Definition be_bytes (n : nat) (z : Z) : list byte := rev (le_bytes n z).

Definition be_word (bs : list byte) : Z := foldl (λ acc b, acc * 256 + bv b) 0 bs.

(** A one bit, zeros up to 8 bytes short of a block, the length in bits. *)
Definition pad (m : list byte) : list byte :=
  let n := Z.of_nat (length m) in
  m ++ [byte_of_Z 128] ++ replicate (Z.to_nat ((55 - n) mod 64)) (byte_of_Z 0)
    ++ be_bytes 8 (8 * n).

(** Cut into pieces of [k]; [fuel] bounds their number. *)
Fixpoint chunks (fuel k : nat) (bs : list byte) : list (list byte) :=
  match fuel, bs with
  | O, _ | _, [] => []
  | S fuel, _ => take k bs :: chunks fuel k (drop k bs)
  end.

(** The message schedule, newest word first; each step looks 2, 7, 15 and 16
    words back. *)
Fixpoint extend (steps : nat) (w : list Z) : list Z :=
  match steps with
  | O => w
  | S steps =>
      let at_ i := default 0 (w !! i) in
      extend steps
        (word (small_sigma1 (at_ 1%nat) + at_ 6%nat + small_sigma0 (at_ 14%nat) + at_ 15%nat)
         :: w)
  end.

Definition schedule (block : list byte) : list Z :=
  rev (extend 48 (rev (be_word <$> chunks 16 4 block))).

Record Working := mk_working { wa : Z; wb : Z; wc : Z; wd : Z; we : Z; wf : Z; wg : Z; wh : Z }.

Definition round (v : Working) (kw : Z * Z) : Working :=
  let t1 := word (wh v + big_sigma1 (we v) + ch (we v) (wf v) (wg v) + kw.1 + kw.2) in
  let t2 := word (big_sigma0 (wa v) + maj (wa v) (wb v) (wc v)) in
  mk_working (word (t1 + t2)) (wa v) (wb v) (wc v) (word (wd v + t1)) (we v) (wf v) (wg v).

Definition words_of (v : Working) : list Z :=
  [wa v; wb v; wc v; wd v; we v; wf v; wg v; wh v].

Definition working_of (h : list Z) : Working :=
  let at_ i := default 0 (h !! i) in
  mk_working (at_ 0%nat) (at_ 1%nat) (at_ 2%nat) (at_ 3%nat)
             (at_ 4%nat) (at_ 5%nat) (at_ 6%nat) (at_ 7%nat).

Definition compress (h : list Z) (block : list byte) : list Z :=
  let v := foldl round (working_of h) (zip round_constants (schedule block)) in
  zip_with (λ a b, word (a + b)) (words_of (working_of h)) (words_of v).

Definition fips_sha256 (m : list byte) : list byte :=
  let blocks := chunks (length m / 64 + 2) 64 (pad m) in
  concat (be_bytes 4 <$> words_of (working_of (foldl compress initial_hash blocks))).

(** RFC 2104 with blocks of 64 bytes. *)
Definition xor_pad (c : Z) (key : list byte) : list byte :=
  (λ b, byte_of_Z (Z.lxor (bv b) c)) <$> (key ++ replicate (64 - length key) (byte_of_Z 0)).

Definition rfc_hmac (key m : list byte) : list byte :=
  let key := if bool_decide (64 < length key)%nat then fips_sha256 key else key in
  fips_sha256 (xor_pad 92 key ++ fips_sha256 (xor_pad 54 key ++ m)).

Definition fips_crypto : Crypto := {|
  sha256 := fips_sha256;
  hmac_sha256 := rfc_hmac;
  ct_eq a b := if bool_decide (a = b) then 1 else 0
|}.

(** ** Laws *)

Lemma concat_be_bytes_length ws :
  length (concat (be_bytes 4 <$> ws)) = (4 * length ws)%nat.
Proof.
  induction ws as [|w ws IH]; [done|].
  change (length (be_bytes 4 w ++ concat (be_bytes 4 <$> ws)) = (4 * S (length ws))%nat).
  rewrite length_app, IH. unfold be_bytes. rewrite length_rev, length_le_bytes. lia.
Qed.

Lemma fips_sha256_length m : length (fips_sha256 m) = 32%nat.
Proof. apply concat_be_bytes_length. Qed.

Lemma fips_crypto_laws : CryptoLaws fips_crypto.
Proof.
  split; [exact fips_sha256_length| |done].
  intros k m. exact (fips_sha256_length (xor_pad 92 _ ++ fips_sha256 (xor_pad 54 _ ++ m))).
Qed.

(** The examples of FIPS 180-4 and the test cases 1, 2 and 6 of RFC 4231. *)
Example fips_vectors :
  encode_hex ∘ fips_sha256 ∘ bytes_of <$>
    [EmptyString; "abc"; "abcdbcdecdefdefgefghfghighijhijkijkljklmklmnlmnomnopnopq"]
  = ["e3b0c44298fc1c149afbf4c8996fb92427ae41e4649b934ca495991b7852b855";
     "ba7816bf8f01cfea414140de5dae2223b00361a396177a9cb410ff61f20015ad";
     "248d6a61d20638b8e5c026930c3e6039a33ce45964ff2167f6ecedd419db06c1"].
Proof. vm_compute. reflexivity. Qed.

Example rfc_vectors :
  encode_hex ∘ uncurry rfc_hmac <$>
    [(replicate 20 (byte_of_Z 11), bytes_of "Hi There");
     (bytes_of "Jefe", bytes_of "what do ya want for nothing?");
     (replicate 131 (byte_of_Z 170),
      bytes_of "Test Using Larger Than Block-Size Key - Hash Key First")]
  = ["b0344c61d8db38535ca8afceaf0bf12b881dc200c9833da726e9376c2e32cff7";
     "5bdcc146bf60754e6a042426089575c75a003f089d2739839dec58b964ec3843";
     "60e431591ee0b67f0d8a26aacbf5b77f8e0bc6213728c5140546040f0ee37f54"].
Proof. vm_compute. reflexivity. Qed.
