(* ===== verification/ErrorText.v ===== *)
(** * The texts of errors

    What [err.to_string()] says of the errors of the components that read
    files, from the [anyhow::bail!], [with_context] and [format!] calls that
    make them.  With a context the text is the outermost one.  The texts of
    the operating system and of the TOML reader are parameters. *)

From S2P Require Import Prelude RustStd Types SecureFs Policy Allowlist Attestation.
From S2P Require Import AuditEntry AuditLog AdapterConfig Registry Config.
Open Scope Z_scope.

(** [str::contains] *)
Fixpoint contains_bytes (needle hay : list byte) : bool :=
  bool_decide (take (length needle) hay = needle)
  || match hay with [] => false | _ :: hay => contains_bytes needle hay end.

Definition contains (s needle : string) : bool :=
  contains_bytes (bytes_of needle) (bytes_of s).

Lemma contains_suffix p s needle :
  contains s needle = true → contains (p +:+ s) needle = true.
Proof.
  unfold contains. rewrite bytes_of_app. intros H. induction (bytes_of p) as [|b r IH]; [done|].
  simpl. by rewrite IH, orb_true_r.
Qed.

(** [[String]::join] *)
Fixpoint join (sep : string) (l : list string) : string :=
  match l with
  | [] => EmptyString
  | [s] => s
  | s :: l => s +:+ sep +:+ join sep l
  end.

(** [{n:o}] and [{n:04o}] of a [u32] that is at most 0o7777. *)
Definition octal_digit (n : Z) : byte := byte_of_Z (48 + n mod 8).

Definition octal4 (n : Z) : list byte :=
  octal_digit <$> [n / 512; n / 64; n / 8; n].

Fixpoint strip_zeros (bs : list byte) : list byte :=
  match bs with
  | [] => []
  | b :: r => if bool_decide (b = "0"%char ∧ r ≠ []) then strip_zeros r else bs
  end.

Definition display_octal (n : Z) : string := str_of (strip_zeros (octal4 n)).
Definition display_octal4 (n : Z) : string := str_of (octal4 n).

Definition format_modes (modes : list Z) : string := join " or " (display_octal4 <$> modes).

Section Texts.
(** [std::io::Error] and [toml::de::Error] *)
Context (io_text : IoKind → string) (toml_text : string).

Definition fs_error_text (e : FsError) : string :=
  match e with
  | OpenFailed label path e =>
      if bool_decide (label = "append log")
      then "Failed to safely open append log at " +:+ path +:+ ": " +:+ io_text e
      else "Failed to safely open " +:+ label +:+ " at " +:+ path
  | FstatFailed => io_text IoOther
  | NotRegular label path => label +:+ " " +:+ path +:+ " must be a regular file"
  | TooLarge label path size max =>
      label +:+ " " +:+ path +:+ " too large: " +:+ display_uint size +:+ " bytes, max "
      +:+ display_uint max
  | WrongSize label path size expected =>
      label +:+ " " +:+ path +:+ " must be exactly " +:+ display_uint expected
      +:+ " bytes, got " +:+ display_uint size
  | WrongMode label path allowed mode =>
      label +:+ " " +:+ path +:+ " must have mode " +:+ format_modes allowed +:+ ", found "
      +:+ display_octal mode
  | GroupWorldWritable label path => label +:+ " " +:+ path +:+ " is group/world writable"
  | BadOwner label path uid =>
      label +:+ " " +:+ path +:+ " must be owned by root or service user. Owner UID: "
      +:+ display_uint uid
  | ReadFailed label path => "Failed to read " +:+ label +:+ " at " +:+ path
  | Grew label path => label +:+ " " +:+ path +:+ " grew while reading"
  | FchmodFailed path => "fchmod append log " +:+ path +:+ " failed: " +:+ io_text IoOther
  end.

(** A bad method is an error of the TOML reader, and only in the chain that
    [{err:#}] prints. *)
Definition policy_error_text (e : PolicyError) : string :=
  match e with
  | PolicyFile e => fs_error_text e
  | PolicyToml | PolicyMethod _ => "Failed to parse policy TOML"
  | InvalidMinConfidence => "Invalid min_confidence: must be between 0.0 and 1.0"
  | Policy.DuplicateMethod m => "duplicate policy rule for method " +:+ Types.as_str m
  | DuplicateWildcard => "duplicate wildcard policy rule"
  end.

Definition policy_error_chain (e : PolicyError) : string :=
  match e with
  | PolicyToml => policy_error_text e +:+ ": " +:+ toml_text
  | PolicyMethod msg => policy_error_text e +:+ ": " +:+ toml_text +:+ msg
  | _ => policy_error_text e
  end.

Definition allowlist_error_text (e : AllowlistError) : string :=
  match e with
  | AllowlistFile e => fs_error_text e
  | InvalidUidOnLine line =>
      "invalid UID on line " +:+ display_uint (Z.of_nat line) +:+ " in allowlist"
  end.

(** The [reason] of [handle_violation]; what [validate_adapter_config] says
    stands after [validation failed: ]. *)
Definition config_violation (v : Violation) : string :=
  match v with
  | EntryUnreadable => "failed reading directory entry: " +:+ io_text IoOther
  | ConfigFile e => fs_error_text e
  | ParseFailed => "parse failed: " +:+ toml_text
  | BadAdapterName e | BadMethodName e => e
  | EmptySocketPath => "socket_path must not be empty"
  | NoMethods => "methods must not be empty"
  | DuplicateMethod method => "duplicate method " +:+ method
  | BadTimeout => "timeout_ms must be between 100 and 30000"
  end.

Definition violation_reason (v : Violation) : string :=
  match v with
  | EntryUnreadable | ConfigFile _ | ParseFailed => config_violation v
  | _ => "validation failed: " +:+ config_violation v
  end.

Definition config_error_text (e : ConfigError) : string :=
  match e with
  | NoConfigDir dir =>
      "adapter config directory " +:+ dir +:+ " does not exist or is not a directory"
  | ConfigDirUnreadable dir => "reading " +:+ dir
  | BadConfig path v => "adapter config " +:+ path +:+ " " +:+ violation_reason v
  | NoConfigs dir => "adapter config directory " +:+ dir +:+ " contains no adapter configs"
  end.

(** [dir] is the directory of the keys. *)
Definition key_error_text (dir : string) (e : KeyError) : string :=
  match e with
  | KeyDirUnreadable => "reading adapter key directory " +:+ dir
  | KeyDirEntry => io_text IoOther
  | InvalidKeyFilename path => "invalid adapter key filename " +:+ path
  | KeyFile e => fs_error_text e
  | MissingKeys names => "missing HMAC key for configured adapter(s): " +:+ join ", " names
  end.

(** [path] is the log's; reading it fails in one of several calls, of which
    the text names the one. *)
Definition audit_error_text (path : string) (e : AuditError) : string :=
  match e with
  | AuditPoisoned => "audit mutex poisoned"
  | AuditTaskFailed => "audit logging task failed"
  | AuditSerialization => "audit serialization failed"
  | AuditWriteFailed => "audit write failed"
  | AuditSyncFailed => "audit sync failed"
  | AuditDirFailed => io_text IoOther
  | AuditOpenFailed e => fs_error_text e
  | AuditReadFailed => "reading audit log " +:+ path
  | AuditNoCompleteEntry =>
      "audit log " +:+ path +:+ " has no complete entry in recovery window"
  | AuditNonUtf8 => "audit log " +:+ path +:+ " has non-utf8 entry"
  | AuditMalformedFinal => "audit log " +:+ path +:+ " has malformed final entry"
  | AuditBadFinalPrev => "audit log " +:+ path +:+ " has invalid final prev_hash"
  | AuditBadFinalHash => "audit log " +:+ path +:+ " has invalid final entry_hash"
  | AuditFinalMismatch =>
      "audit log " +:+ path +:+ " final entry_hash does not match entry"
  end.

Definition verify_error_text (path : string) (e : VerifyError) : string :=
  let at_line line text :=
    "audit log " +:+ path +:+ " line " +:+ display_uint line +:+ text in
  match e with
  | VerifyOpen _ => "opening audit log " +:+ path
  | VerifyFstat => io_text IoOther
  | VerifyNotRegular => "audit log " +:+ path +:+ " must be a regular file"
  | VerifyRead => "reading audit log " +:+ path
  | VerifyIncomplete line => at_line line " is incomplete"
  | VerifyNotUtf8 line => at_line line " is not utf-8"
  | VerifyMalformed line => at_line line " has malformed entry"
  | VerifyBadPrev line => at_line line " has invalid prev_hash"
  | VerifyBadHash line => at_line line " has invalid entry_hash"
  | VerifyPrevMismatch line => at_line line " prev_hash does not match previous entry"
  | VerifyHashMismatch line => at_line line " entry_hash does not match entry"
  end.

Definition registry_error_text (e : RegistryError) : string :=
  match e with
  | RegistryConfig e => config_error_text e
  | DuplicateAdapterName name => "duplicate adapter name " +:+ name
  | DuplicateAdapterMethod method existing new =>
      "duplicate adapter method " +:+ method +:+ " owned by both " +:+ existing +:+ " and "
      +:+ new
  end.
End Texts.

Definition env_error_text (e : EnvError) : string :=
  match e with
  | InvalidRunMode => "Invalid OLA_RUNMODE: must be 'prod' or 'dev'"
  | NotUnsigned name => name +:+ " must be an unsigned integer"
  | NotUtf8 name => name +:+ " must be valid UTF-8"
  | NotPositive name => name +:+ " must be greater than zero"
  | MaxAgeTooLarge =>
      "OLA_MAX_RESULT_AGE_SECS must be <= " +:+ display_uint MAX_RESULT_AGE_SECS_UPPER_BOUND
  end.
