(* ===== verification/JsonText.v ===== *)
(** * JSON texts

    The compact texts serde_json writes and reads, after RFC 8259, as far as
    the unit tests need them: instances of [AuditSerde] and [WireSerde] that
    produce the lines of a real log and a real socket.  Numbers are kept as
    their digits, and are integers in a [Value]; escapes of surrogates are not
    read. *)

From S2P Require Import Prelude RustStd Types SecureFs Attestation AuditEntry AuditLog Json Client.
Open Scope Z_scope.

Inductive Json : Type :=
| JNull
| JBool (b : bool)
| JNum (digits : list byte)
| JStr (s : list byte)
| JArr (vs : list Json)
| JObj (fields : list (list byte * Json)).

(** ** Writing *)

Definition dquote : byte := byte_of_Z 34.
Definition backslash : byte := byte_of_Z 92.

Definition escape_byte (b : byte) : list byte :=
  let v := bv b in
  if v =? 34 then [backslash; dquote]
  else if v =? 92 then [backslash; backslash]
  else if v =? 8 then bytes_of "\b"
  else if v =? 9 then bytes_of "\t"
  else if v =? 10 then bytes_of "\n"
  else if v =? 12 then bytes_of "\f"
  else if v =? 13 then bytes_of "\r"
  else if v <? 32 then bytes_of "\u00" ++ [hex_digit (v / 16); hex_digit (v mod 16)]
  else [b].

Definition print_string (s : list byte) : list byte :=
  dquote :: (s ≫= escape_byte) ++ [dquote].

(** The pieces with commas between them. *)
Fixpoint comma_separated (ps : list (list byte)) : list byte :=
  match ps with
  | [] => []
  | [p] => p
  | p :: ps => p ++ bytes_of "," ++ comma_separated ps
  end.

Fixpoint print (v : Json) : list byte :=
  match v with
  | JNull => bytes_of "null"
  | JBool true => bytes_of "true"
  | JBool false => bytes_of "false"
  | JNum d => d
  | JStr s => print_string s
  | JArr vs => bytes_of "[" ++ comma_separated (print <$> vs) ++ bytes_of "]"
  | JObj fields =>
      bytes_of "{"
      ++ comma_separated ((λ f, print_string f.1 ++ bytes_of ":" ++ print f.2) <$> fields)
      ++ bytes_of "}"
  end.

(** ** Reading *)

Definition is_ws (b : byte) : bool :=
  (bv b =? 32) || (bv b =? 9) || (bv b =? 10) || (bv b =? 13).

Fixpoint skip_ws (bs : list byte) : list byte :=
  match bs with
  | b :: r => if is_ws b then skip_ws r else bs
  | [] => []
  end.

Definition hex_value (b : byte) : option Z :=
  let v := bv b in
  if (48 <=? v) && (v <=? 57) then Some (v - 48)
  else if (97 <=? v) && (v <=? 102) then Some (v - 87)
  else if (65 <=? v) && (v <=? 70) then Some (v - 55)
  else None.

(** The UTF-8 bytes of a code point of at most four hexadecimal digits. *)
Definition utf8_of (c : Z) : option (list byte) :=
  if c <? 128 then Some [byte_of_Z c]
  else if c <? 2048 then Some [byte_of_Z (192 + c / 64); byte_of_Z (128 + c mod 64)]
  else if (55296 <=? c) && (c <? 57344) then None
  else Some [byte_of_Z (224 + c / 4096); byte_of_Z (128 + (c / 64) mod 64);
             byte_of_Z (128 + c mod 64)].

Definition unescape_simple (b : byte) : option byte :=
  let v := bv b in
  if (v =? 34) || (v =? 92) || (v =? 47) then Some b
  else if v =? 98 then Some (byte_of_Z 8)
  else if v =? 116 then Some (byte_of_Z 9)
  else if v =? 110 then Some (byte_of_Z 10)
  else if v =? 102 then Some (byte_of_Z 12)
  else if v =? 114 then Some (byte_of_Z 13)
  else None.

(** The rest of a string after its opening quote. *)
Fixpoint read_string (bs acc : list byte) : option (list byte * list byte) :=
  match bs with
  | [] => None
  | b :: r =>
      if bv b =? 34 then Some (rev acc, r)
      else if bv b <? 32 then None
      else if bv b =? 92 then
        match r with
        | e :: r =>
            if bv e =? 117 then
              match r with
              | h1 :: h2 :: h3 :: h4 :: r =>
                  match hex_value h1, hex_value h2, hex_value h3, hex_value h4 with
                  | Some a, Some b, Some c, Some d =>
                      match utf8_of (((a * 16 + b) * 16 + c) * 16 + d) with
                      | Some u => read_string r (rev u ++ acc)
                      | None => None
                      end
                  | _, _, _, _ => None
                  end
              | _ => None
              end
            else match unescape_simple e with
                 | Some c => read_string r (c :: acc)
                 | None => None
                 end
        | [] => None
        end
      else read_string r (b :: acc)
  end.

Definition is_number_byte (b : byte) : bool :=
  is_ascii_digit b || bool_decide (b ∈ bytes_of "+-.eE").

Fixpoint span_number (bs : list byte) : list byte * list byte :=
  match bs with
  | b :: r =>
      if is_number_byte b then let '(d, r) := span_number r in (b :: d, r) else ([], bs)
  | [] => ([], [])
  end.

(** [word] at the head of [bs], and what follows. *)
Definition literal (word : string) (v : Json) (bs : list byte) : option (Json * list byte) :=
  let w := bytes_of word in
  if bool_decide (take (length w) bs = w) then Some (v, drop (length w) bs) else None.

Fixpoint read_value (fuel : nat) (bs : list byte) : option (Json * list byte) :=
  match fuel with
  | O => None
  | S fuel =>
      match skip_ws bs with
      | [] => None
      | b :: r =>
          let v := bv b in
          if v =? 34 then '(s, r) ← read_string r []; Some (JStr s, r)
          else if v =? 123 then
            match skip_ws r with
            | c :: r' => if bv c =? 125 then Some (JObj [], r') else read_fields fuel r []
            | [] => None
            end
          else if v =? 91 then
            match skip_ws r with
            | c :: r' => if bv c =? 93 then Some (JArr [], r') else read_items fuel r []
            | [] => None
            end
          else if (v =? 45) || is_ascii_digit b then
            let '(d, r) := span_number (b :: r) in Some (JNum d, r)
          else if v =? 110 then literal "null" JNull (b :: r)
          else if v =? 116 then literal "true" (JBool true) (b :: r)
          else if v =? 102 then literal "false" (JBool false) (b :: r)
          else None
      end
  end
with read_fields (fuel : nat) (bs : list byte) (acc : list (list byte * Json))
  : option (Json * list byte) :=
  match fuel with
  | O => None
  | S fuel =>
      match skip_ws bs with
      | q :: r =>
          if negb (bv q =? 34) then None
          else
          '(name, r) ← read_string r [];
          match skip_ws r with
          | c :: r =>
              if negb (bv c =? 58) then None
              else
              '(v, r) ← read_value fuel r;
              match skip_ws r with
              | d :: r =>
                  if bv d =? 125 then Some (JObj (rev ((name, v) :: acc)), r)
                  else if bv d =? 44 then read_fields fuel r ((name, v) :: acc)
                  else None
              | [] => None
              end
          | [] => None
          end
      | [] => None
      end
  end
with read_items (fuel : nat) (bs : list byte) (acc : list Json) : option (Json * list byte) :=
  match fuel with
  | O => None
  | S fuel =>
      '(v, r) ← read_value fuel bs;
      match skip_ws r with
      | d :: r =>
          if bv d =? 93 then Some (JArr (rev (v :: acc)), r)
          else if bv d =? 44 then read_items fuel r (v :: acc)
          else None
      | [] => None
      end
  end.

(** A text is one value; every level and every field takes fuel, and at least
    one byte. *)
Definition parse (s : string) : option Json :=
  let bs := bytes_of s in
  '(v, r) ← read_value (S (length bs)) bs;
  match skip_ws r with [] => Some v | _ => None end.

(** ** Numbers *)

(** The [f32] nearest to [n / d], ties to even. *)
Definition round_ratio (n d e : Z) : Z :=
  let n := if e <? 0 then n * 2 ^ (- e) else n in
  let d := if e <? 0 then d else d * 2 ^ e in
  let q := n / d in
  let r := n mod d in
  if (d <? 2 * r) || ((2 * r =? d) && Z.odd q) then q + 1 else q.

Definition f32_of_ratio (n d : Z) : Z :=
  if n =? 0 then 0
  else
    let guess := Z.max (-149) (Z.log2 n - Z.log2 d - 24) in
    let e := if round_ratio n d guess <? 2 ^ 24 then guess else guess + 1 in
    let m := round_ratio n d e in
    let '(m, e) := if m =? 2 ^ 24 then (2 ^ 23, e + 1) else (m, e) in
    if m <? 2 ^ 23 then m
    else if 254 <? e + 150 then f32_inf
    else (e + 150) * 2 ^ 23 + (m - 2 ^ 23).

(** A JSON number: an optional minus, digits, and fraction and exponent. *)
Fixpoint span_digits (bs : list byte) (acc n : Z) : Z * Z * list byte :=
  match bs with
  | b :: r =>
      if is_ascii_digit b then span_digits r (acc * 10 + (bv b - 48)) (n + 1) else (acc, n, bs)
  | [] => (acc, n, [])
  end.

Definition read_exponent (bs : list byte) : option Z :=
  match bs with
  | [] => Some 0
  | b :: r =>
      if negb ((bv b =? 101) || (bv b =? 69)) then None
      else
        let '(sign, r) := match r with
                          | c :: r' => if bv c =? 45 then (-1, r')
                                       else if bv c =? 43 then (1, r') else (1, r)
                          | [] => (1, [])
                          end in
        let '(e, n, rest) := span_digits r 0 0 in
        if (n =? 0) || negb (bool_decide (rest = [])) then None else Some (sign * e)
  end.

Definition f32_of_number (d : list byte) : option Z :=
  let '(neg, d) := match d with
                   | b :: r => if bv b =? 45 then (true, r) else (false, d)
                   | [] => (false, [])
                   end in
  let '(int, n, r) := span_digits d 0 0 in
  if n =? 0 then None
  else
  let '(m, frac, r) := match r with
                       | b :: r' => if bv b =? 46 then span_digits r' int 0 else (int, 0, r)
                       | [] => (int, 0, [])
                       end in
  e ← read_exponent r;
  let e := e - frac in
  let bits := if e <? 0 then f32_of_ratio m (10 ^ (- e)) else f32_of_ratio (m * 10 ^ e) 1 in
  Some (if neg then bits + 2 ^ 31 else bits).

(** What is printed is read back. *)
Example f32_texts :
  let samples := [1065353216; 1056964608; 1063675494; 1036831949; 1069547520; 2139095039; 1;
                  2147483648; 1266679808; 8388608; 953267991; 925353388; 1510874058] in
  (λ b, f32_of_number (bytes_of (f32_debug b))) <$> samples = Some <$> samples.
Proof. vm_compute. reflexivity. Qed.

(** ** [AuditEntry] *)

Definition json_text (s : string) : Json := JStr (bytes_of s).
Definition json_opt (o : option string) : Json :=
  match o with Some s => json_text s | None => JNull end.
Definition json_uint (n : Z) : Json := JNum (display_bytes n).

Definition json_f32 (b : Z) : Json :=
  if f32_is_finite b then JNum (bytes_of (f32_debug b)) else JNull.

(** [skip_serializing_if = String::is_empty] *)
Definition json_hash (name : string) (h : string) : list (list byte * Json) :=
  if bool_decide (h = EmptyString) then [] else [(bytes_of name, json_text h)].

Definition json_of_entry (e : AuditEntry) : Json :=
  JObj ([(bytes_of "ts_ms", json_uint (ae_ts_ms e));
         (bytes_of "request_id", json_opt (ae_request_id e));
         (bytes_of "caller_uid", json_uint (ae_caller_uid e));
         (bytes_of "uid", json_uint (ae_uid e));
         (bytes_of "adapter_name", json_opt (ae_adapter_name e));
         (bytes_of "method", json_text (ae_method e));
         (bytes_of "decision", json_text (ae_decision e));
         (bytes_of "deny_reason", json_opt (ae_deny_reason e));
         (bytes_of "confidence", json_f32 (ae_confidence e));
         (bytes_of "evidence_hash", json_text (ae_evidence_hash e));
         (bytes_of "nonce_prefix", json_text (ae_nonce_prefix e))]
        ++ json_hash "prev_hash" (ae_prev_hash e) ++ json_hash "entry_hash" (ae_entry_hash e)).

Definition entry_fields : list string :=
  ["ts_ms"; "request_id"; "caller_uid"; "uid"; "adapter_name"; "method"; "decision";
   "deny_reason"; "confidence"; "evidence_hash"; "nonce_prefix"; "prev_hash"; "entry_hash"].

Definition field (fields : list (list byte * Json)) (name : string) : option Json :=
  '(_, (_, v)) ← list_find (λ f, f.1 = bytes_of name) fields; Some v.

Definition as_uint (max : Z) (v : Json) : option Z :=
  match v with JNum d => parse_digits max d 0 | _ => None end.
Definition as_text (v : Json) : option string :=
  match v with JStr s => if utf8_valid s then Some (str_of s) else None | _ => None end.
Definition as_f32 (v : Json) : option Z := match v with JNum d => f32_of_number d | _ => None end.

(** An [Option] that is missing or null is [None]. *)
Definition opt_text (v : option Json) : option (option string) :=
  match v with
  | None | Some JNull => Some None
  | Some v => Some <$> as_text v
  end.

(** [deny_unknown_fields]; a field may not appear twice. *)
Definition entry_of_json (v : Json) : option AuditEntry :=
  match v with
  | JObj fs =>
      if negb (bool_decide (NoDup fs.*1 ∧ fs.*1 ⊆ (bytes_of <$> entry_fields))) then None
      else
      ts_ms ← field fs "ts_ms" ≫= as_uint u64_max;
      request_id ← opt_text (field fs "request_id");
      caller_uid ← field fs "caller_uid" ≫= as_uint u32_max;
      uid ← field fs "uid" ≫= as_uint u32_max;
      adapter_name ← opt_text (field fs "adapter_name");
      method ← field fs "method" ≫= as_text;
      decision ← field fs "decision" ≫= as_text;
      deny_reason ← opt_text (field fs "deny_reason");
      confidence ← field fs "confidence" ≫= as_f32;
      evidence_hash ← field fs "evidence_hash" ≫= as_text;
      nonce_prefix ← field fs "nonce_prefix" ≫= as_text;
      prev_hash ← field fs "prev_hash" ≫= as_text;
      entry_hash ← field fs "entry_hash" ≫= as_text;
      Some (mk_audit_entry ts_ms request_id caller_uid uid adapter_name method decision
              deny_reason confidence evidence_hash nonce_prefix prev_hash entry_hash)
  | _ => None
  end.

Definition json_serde : AuditSerde := {|
  entry_to_string e := Some (str_of (print (json_of_entry e)));
  entry_from_str s := parse s ≫= entry_of_json
|}.

(** ** [serde_json::Value] *)

Definition number_of_digits (d : list byte) : option Number :=
  match d with
  | b :: r =>
      if bv b =? 45 then (λ n, NegInt (- n)) <$> parse_digits (2 ^ 63) r 0
      else PosInt <$> parse_digits u64_max d 0
  | [] => None
  end.

Fixpoint value_of_json (v : Json) : option Value :=
  match v with
  | JNull => Some Null
  | JBool b => Some (VBool b)
  | JNum d => VNumber <$> number_of_digits d
  | JStr s => Some (VString (str_of s))
  | JArr vs => VArray <$> mapM value_of_json vs
  | JObj fs => VObject <$> mapM (λ f, pair (str_of f.1) <$> value_of_json f.2) fs
  end.

Fixpoint json_of_value (v : Value) : Json :=
  match v with
  | Null => JNull
  | VBool b => JBool b
  | VNumber (PosInt n) => json_uint n
  | VNumber (NegInt n) => JNum (bytes_of "-" ++ display_bytes (- n))
  | VNumber (Float _) => JNull
  | VString s => json_text s
  | VArray vs => JArr (json_of_value <$> vs)
  | VObject fs => JObj ((λ f, (bytes_of f.1, json_of_value f.2)) <$> fs)
  end.

(** ** The messages between daemon and adapter *)

Definition json_bytes (bs : list byte) : Json := JArr ((λ b, json_uint (bv b)) <$> bs).

Definition as_bytes (n : nat) (v : Json) : option (list byte) :=
  match v with
  | JArr vs =>
      bs ← mapM (λ v, byte_of_Z <$> as_uint 255 v) vs;
      if bool_decide (length bs = n) then Some bs else None
  | _ => None
  end.

Definition json_of_request (r : VerificationRequest) : Json :=
  JObj [(bytes_of "version", json_uint (req_version r)); (bytes_of "id", json_bytes (req_id r));
        (bytes_of "uid", json_uint (req_uid r)); (bytes_of "nonce", json_bytes (req_nonce r));
        (bytes_of "deadline_ms", json_uint (req_deadline_ms r))].

Definition json_of_result (r : VerificationResult) : Json :=
  JObj [(bytes_of "version", json_uint (res_version r)); (bytes_of "id", json_bytes (res_id r));
        (bytes_of "confidence", json_f32 (res_confidence r));
        (bytes_of "method", json_text (Types.as_str (res_method r)));
        (bytes_of "timestamp_ms", json_uint (res_timestamp_ms r));
        (bytes_of "uid", json_uint (res_uid r)); (bytes_of "nonce", json_bytes (res_nonce r));
        (bytes_of "evidence_hash", json_bytes (res_evidence_hash r))].

Definition result_of_json (v : Json) : option VerificationResult :=
  match v with
  | JObj fs =>
      version ← field fs "version" ≫= as_uint 255;
      id ← field fs "id" ≫= as_bytes 16;
      confidence ← field fs "confidence" ≫= as_f32;
      name ← field fs "method" ≫= as_text;
      method ← match deserialize_auth_method name with Ok m => Some m | Err _ => None end;
      timestamp_ms ← field fs "timestamp_ms" ≫= as_uint u64_max;
      uid ← field fs "uid" ≫= as_uint u32_max;
      nonce ← field fs "nonce" ≫= as_bytes 32;
      evidence_hash ← field fs "evidence_hash" ≫= as_bytes 32;
      Some (mk_result version id confidence method timestamp_ms uid nonce evidence_hash)
  | _ => None
  end.

Definition json_wire : WireSerde := {|
  request_to_string r := Some (str_of (print (json_of_request r)));
  result_from_str s := parse s ≫= result_of_json;
  value_from_str s := parse s ≫= value_of_json;
  value_to_string v := str_of (print (json_of_value v))
|}.
