(* ===== verification/TestBench.v ===== *)
(** * A bench for the unit tests of the repository

    The unit tests of the crates run against a temporary directory, serde_json
    and SHA-256.  Here is what they need of them, by its documented behaviour:
    a disk with regular files, directories, symbolic links and pipes, and
    assertions on results.  SHA-256 is [Sha256], the texts of errors are
    [ErrorText].

    The files [Tests*] hold the unit tests under their own names: the value of
    a test is whether its assertions hold.  Where a test reads a clock or
    draws random bytes it takes them as arguments. *)

From S2P Require Import Prelude RustStd Types SecureFs Attestation.
Open Scope Z_scope.

(** ** Assertions *)

Definition is_ok {A E} (r : result A E) : bool := match r with Ok _ => true | Err _ => false end.
Definition is_err {A E} (r : result A E) : bool := negb (is_ok r).

(** [matches!(r, Err(e))] with [e] satisfying [p], and the same of a value. *)
Definition err_with {A E} (p : E → bool) (r : result A E) : bool :=
  match r with Ok _ => false | Err e => p e end.
Definition ok_with {A E} (p : A → bool) (r : result A E) : bool :=
  match r with Ok a => p a | Err _ => false end.

Definition assert_eq {A} `{EqDecision A} (a b : A) : bool := bool_decide (a = b).

(** A suite of tests whose assertions hold. *)
Definition passes (tests : list bool) : Prop := Forall (λ t, t = true) tests.

Lemma passes_decide tests : forallb id tests = true → passes tests.
Proof.
  intros H. apply Forall_forall. intros t Ht. by apply forallb_forall with (x := t) in H;
    [|apply list_elem_of_In].
Qed.

(** One goal for each test. *)
Ltac suite := unfold passes; repeat (apply Forall_cons; split); [..|apply Forall_nil; done].

(** A text of the sources in which single quotes stand for double ones. *)
Definition quoted (s : string) : string :=
  str_of ((λ b : byte, if bool_decide (b = "'"%char) then byte_of_Z 34 else b) <$> bytes_of s).

(** ** Digests

    Most tests do not depend on what the digests are; they run with this one,
    which is cheap to evaluate. *)

Definition checksum (bs : list byte) : list byte :=
  le_bytes 32 (foldl (λ a b, (a * 31 + bv b) mod 1000003) 7 bs).

Definition bench_crypto : Crypto := {|
  sha256 := checksum;
  hmac_sha256 k m := checksum (k ++ m);
  ct_eq a b := if bool_decide (a = b) then 1 else 0
|}.

Lemma bench_crypto_laws : CryptoLaws bench_crypto.
Proof. split; intros; simpl; unfold checksum; by rewrite ?length_le_bytes. Qed.

(** ** A disk *)

Inductive Node : Type :=
| NFile (mode uid : Z) (data : list byte)
| NDir (mode uid : Z)
| NSymlink
| NFifo (mode uid : Z).

Abbreviation Disk := (gmap string Node).

Definition S_IFDIR : Z := 16384.
Definition S_IFIFO : Z := 4096.

Definition opened (kind mode uid : Z) (data : list byte) (read_ok : bool) : OpenFile :=
  mk_file (Some (mk_stat (Z.lor kind mode) (Z.of_nat (length data)) uid)) data read_ok true.

(** [open] with [O_NOFOLLOW]: a link fails with [ELOOP].  A directory opens
    for reading, but cannot be read; for writing it fails with [EISDIR].  A
    pipe opens once both ends are there. *)
Definition disk_open_read (d : Disk) (path : string) : result OpenFile IoKind :=
  match d !! path with
  | None => Err IoNotFound
  | Some (NFile mode uid data) => Ok (opened S_IFREG mode uid data true)
  | Some (NDir mode uid) => Ok (opened S_IFDIR mode uid [] false)
  | Some NSymlink => Err IoOther
  | Some (NFifo mode uid) => Ok (opened S_IFIFO mode uid [] true)
  end.

Definition disk_open_append (d : Disk) (path : string) : result OpenFile IoKind :=
  match d !! path with
  | None => Err IoNotFound
  | Some (NFile mode uid data) => Ok (opened S_IFREG mode uid data true)
  | Some (NDir _ _) => Err IoOther
  | Some NSymlink => Err IoOther
  | Some (NFifo mode uid) => Ok (opened S_IFIFO mode uid [] true)
  end.

(** The files of a disk as a process of user [me] meets them. *)
Definition disk_fs (me : Z) (d : Disk) : Fs := {|
  fs_open_read := disk_open_read d;
  fs_open_append := disk_open_append d;
  fs_create_append path mode :=
    match d !! path with
    | Some _ => Err IoAlreadyExists
    | None => Ok (opened S_IFREG mode me [] true)
    end;
  fs_reopen_append := disk_open_append d
|}.

(** What [std::fs::write] leaves under the usual umask. *)
Definition written (me : Z) (contents : string) : Node := NFile 420 me (bytes_of contents).

(** [read_dir]: the names of a directory, in the order of [names]. *)
Definition listing (names : list string) : option (list (option DirEntry)) :=
  Some ((λ n, Some (mk_entry (bytes_of n) true)) <$> names).

(** A regular file of the user reads back when size, mode and encoding are
    those asked for. *)
Lemma disk_read me d path mode data spec max :
  d !! path = Some (NFile mode me data) →
  spec_size spec = SizeMax max → spec_owner spec = RootOrCurrent →
  Z.land (Z.lor S_IFREG mode) S_IFMT = S_IFREG →
  mode_ok (spec_mode spec) (Z.land (Z.lor S_IFREG mode) 511) →
  0 ≤ max < u64_max → Z.of_nat (length data) ≤ max → utf8_valid data = true →
  read_secure_to_string (disk_fs me d) me path spec = Ok (str_of data).
Proof.
  intros Hd Hs Ho Hr Hm Hmax Hlen Hu.
  unfold read_secure_to_string, open_secure_read. simpl. unfold disk_open_read. rewrite Hd. simpl.
  unfold validate_open_file. simpl. rewrite Hr, Hs, Ho. simpl.
  rewrite (proj2 (Z.ltb_ge max _)) by lia.
  assert (∀ l, validate_owner me me path l RootOrCurrent = Ok tt) as Hv.
  { intros l. unfold validate_owner. rewrite Z.eqb_refl. by destruct (me =? 0). }
  rewrite Hv.
  assert (match spec_mode spec with
          | ModeExact allowed =>
              if bool_decide (Z.land (Z.lor S_IFREG mode) 511 ∈ allowed) then Ok tt
              else Err (WrongMode (spec_label spec) path allowed (Z.land (Z.lor S_IFREG mode) 511))
          | NotGroupWorldWritable =>
              if negb (Z.land (Z.land (Z.lor S_IFREG mode) 511) 18 =? 0)
              then Err (GroupWorldWritable (spec_label spec) path) else Ok tt
          end = Ok tt) as ->.
  { destruct (spec_mode spec); simpl in Hm; [by rewrite bool_decide_eq_true_2|by rewrite Hm]. }
  unfold saturating_add_u64. rewrite Z.min_l by lia.
  rewrite take_ge by lia. unfold read_to_string. simpl. rewrite Hu. simpl.
  rewrite (proj2 (Z.ltb_ge max _)); [done|].
  assert (String.length (str_of data) = length data) as ->; [|lia].
  rewrite <-(bytes_of_str_of data) at 2. by rewrite length_bytes_of.
Qed.

Lemma disk_append me d path data :
  d !! path = Some (NFile 416 me data) →
  open_secure_append (disk_fs me d) me path 416 RootOrCurrent
  = Ok (opened S_IFREG 416 me data true).
Proof.
  intros Hd. unfold open_secure_append, open_or_create_append. simpl.
  unfold disk_open_append. rewrite Hd. simpl. unfold validate_owner. rewrite Z.eqb_refl.
  by destruct (me =? 0).
Qed.
