(* ===== verification/TestsPolicy.v ===== *)
(** * Unit tests: names and policy

    The tests of core/types/method.rs and result.rs and of core/policy:
    evaluator.rs and parser.rs. *)

From S2P Require Import Prelude RustStd Types SecureFs Policy ErrorText TestBench.
Open Scope Z_scope.

(** ** method.rs *)

Definition accepts_protocol_method_names : bool :=
  forallb (λ method, is_ok (validate_method_name method false))
    ["fido2"; "libfprint"; "custom_a"; "vendor.method-1"].

Definition line_break : string := str_of (bytes_of "line" ++ [nl] ++ bytes_of "break").

Definition rejects_ambiguous_method_names : bool :=
  forallb (λ method, is_err (validate_method_name method false))
    [EmptyString; " fido2"; "fido2 "; "two words"; line_break; "any"].

Definition allows_any_only_for_wildcard_selectors : bool :=
  is_ok (validate_method_name "any" true) && is_err (validate_method_name "any" false).

Definition validates_adapter_names_with_same_token_rules : bool :=
  is_ok (validate_adapter_name "fido2.main-1")
  && is_err (validate_adapter_name "two words")
  && is_err (validate_adapter_name "any").

(** ** result.rs: the string of the JSON text is what the deserializer gets. *)

Definition libfprint_has_no_fingerprint_alias : bool :=
  ok_with (λ m, assert_eq m Libfprint) (deserialize_auth_method "libfprint")
  && is_ok (deserialize_auth_method "fingerprint")
  && ok_with (λ m, assert_eq (as_str m) "fingerprint") (deserialize_auth_method "fingerprint").

Definition name_tests : list bool :=
  [accepts_protocol_method_names; rejects_ambiguous_method_names;
   allows_any_only_for_wildcard_selectors; validates_adapter_names_with_same_token_rules;
   libfprint_has_no_fingerprint_alias].

(** ** evaluator.rs

    The clock is read twice: [clock] by the test, [later] by [evaluate]. *)

Definition f32_0_1 : Z := 1036831949.
Definition f32_0_2 : Z := 1045220557.
Definition f32_0_5 : Z := 1056964608.
Definition f32_0_9 : Z := 1063675494.
Definition f32_1_2 : Z := 1067030938.
Definition f32_1_5 : Z := 1069547520.

Example f32_literals :
  f32_debug <$> [f32_0_1; f32_0_2; f32_0_5; f32_0_9; f32_one; f32_1_2; f32_1_5]
  = ["0.1"; "0.2"; "0.5"; "0.9"; "1.0"; "1.2"; "1.5"].
Proof. vm_compute. reflexivity. Qed.

Definition engine_with_rule_and_global (rule : PolicyRule) (max_result_age_secs : Z)
  : PolicyEngine := mk_engine [rule] max_result_age_secs.

Definition engine_with_rule (rule : PolicyRule) : PolicyEngine :=
  engine_with_rule_and_global rule 30.

(** [[n; len]] *)
Definition bytes_n (n : Z) (len : nat) : list byte := replicate len (byte_of_Z n).

Definition context_with_method (confidence result_uid timestamp_ms : Z) (method : AuthMethod)
  : AuthContext :=
  mk_context 1000 "fido2"
    (mk_request 1 (bytes_n 1 16) 1000 (bytes_n 2 32) (timestamp_ms + 1000))
    (mk_result 1 (bytes_n 1 16) confidence method timestamp_ms result_uid (bytes_n 2 32)
       (bytes_n 3 32))
    None.

Definition context (confidence result_uid timestamp_ms : Z) : AuthContext :=
  context_with_method confidence result_uid timestamp_ms Fido2.

Section Evaluator.
Context (clock later : Z).

Definition now_ms : Z := unix_ms clock.

Definition test_policy_allows_matching_result : bool :=
  let engine := engine_with_rule (mk_rule (Some Fido2) f32_one 30 true) in
  assert_eq (evaluate engine later (context f32_one 1000 now_ms)) Allow.

Definition test_policy_denies_low_confidence : bool :=
  let engine := engine_with_rule (mk_rule None f32_0_9 30 true) in
  match evaluate engine later (context f32_0_2 1000 now_ms) with
  | Deny (ConfidenceTooLow _ _) => true
  | _ => false
  end.

Definition test_policy_denies_uid_substitution : bool :=
  let engine := engine_with_rule (mk_rule (Some Fido2) f32_0_9 30 true) in
  match evaluate engine later (context f32_one 1001 now_ms) with
  | Deny (UidMismatch claimed result_uid) => (claimed =? 1000) && (result_uid =? 1001)
  | _ => false
  end.

Definition too_old_1000 (d : PolicyDecision) : bool :=
  match d with Deny (ResultTooOld _ max_age_ms) => max_age_ms =? 1000 | _ => false end.

Definition test_policy_denies_result_older_than_rule_window : bool :=
  let engine := engine_with_rule (mk_rule (Some Fido2) f32_0_9 1 true) in
  too_old_1000 (evaluate engine later (context f32_one 1000 (saturating_sub now_ms 2000))).

Definition test_policy_global_age_cap_clamps_rule_window : bool :=
  let engine := engine_with_rule_and_global (mk_rule (Some Fido2) f32_0_9 300 true) 1 in
  too_old_1000 (evaluate engine later (context f32_one 1000 (saturating_sub now_ms 2000))).

Definition test_policy_denies_future_timestamp : bool :=
  let engine := engine_with_rule (mk_rule None f32_0_1 30 true) in
  match evaluate engine later (context f32_0_9 1000 (now_ms + 1000)) with
  | Deny (ResultFromFuture _) => true
  | _ => false
  end.

Definition test_policy_denies_overflowing_age_window : bool :=
  let engine :=
    engine_with_rule_and_global (mk_rule (Some Fido2) f32_0_9 u64_max true) u64_max in
  assert_eq (evaluate engine later (context f32_one 1000 now_ms)) (Deny ResultAgeWindowOverflow).

Definition test_policy_denies_invalid_confidence : bool :=
  let engine := engine_with_rule (mk_rule None f32_0_1 30 true) in
  match evaluate engine later (context f32_1_5 1000 now_ms) with
  | Deny (InvalidConfidence _) => true
  | _ => false
  end.

Definition test_policy_other_method_requires_exact_value_match : bool :=
  let engine := engine_with_rule (mk_rule (Some (Other "custom_a")) f32_0_1 30 true) in
  let mismatch := context_with_method f32_0_9 1000 now_ms (Other "custom_b") in
  let match_ctx := context_with_method f32_0_9 1000 now_ms (Other "custom_a") in
  assert_eq (evaluate engine later mismatch) (Deny NoMatchingRule)
  && assert_eq (evaluate engine later match_ctx) Allow.

Definition evaluator_tests : list bool :=
  [test_policy_allows_matching_result; test_policy_denies_low_confidence;
   test_policy_denies_uid_substitution; test_policy_denies_result_older_than_rule_window;
   test_policy_global_age_cap_clamps_rule_window; test_policy_denies_future_timestamp;
   test_policy_denies_overflowing_age_window; test_policy_denies_invalid_confidence;
   test_policy_other_method_requires_exact_value_match].
End Evaluator.

(** ** parser.rs

    [me] runs the test and owns its files; [toml] reads the documents. *)

Definition rule_toml (method : string) (confidence : string) : string :=
  quoted ("[[rules]]
" +:+ method +:+ "min_confidence = " +:+ confidence +:+ "
max_age_secs = 30
require_uid_match = true
").

Definition newline : string := str_of [nl].

Definition specific_and_wildcard : string :=
  newline +:+ rule_toml EmptyString "0.5" +:+ newline +:+ rule_toml "method = 'fido2'
" "1.0".

Definition two_specific : string :=
  newline +:+ rule_toml "method = 'fido2'
" "1.0" +:+ newline +:+ rule_toml "method = 'fido2'
" "0.5".

Definition two_wildcards : string :=
  newline +:+ rule_toml EmptyString "1.0" +:+ newline +:+ rule_toml EmptyString "0.9".

Definition too_confident : string :=
  newline +:+ rule_toml "method = 'fido2'
" "1.2".

Definition two_words : string :=
  newline +:+ rule_toml "method = 'two words'
" "1.0".

Definition one_wildcard : string := newline +:+ rule_toml EmptyString "0.9".

(** What TOML says of the documents. *)
Definition policy_documents : list (string * list RawRule) :=
  [(specific_and_wildcard,
    [mk_raw_rule None f32_0_5 30 true; mk_raw_rule (Some "fido2") f32_one 30 true]);
   (two_specific,
    [mk_raw_rule (Some "fido2") f32_one 30 true; mk_raw_rule (Some "fido2") f32_0_5 30 true]);
   (two_wildcards, [mk_raw_rule None f32_one 30 true; mk_raw_rule None f32_0_9 30 true]);
   (too_confident, [mk_raw_rule (Some "fido2") f32_1_2 30 true]);
   (two_words, [mk_raw_rule (Some "two words") f32_one 30 true]);
   (one_wildcard, [mk_raw_rule None f32_0_9 30 true])].

Section Parser.
Context (me : Z) (toml : string → option (list RawRule)).
Context (io_text : IoKind → string) (toml_text : string).

Definition policy_path : string := "/tmp/policy.toml".

(** [NamedTempFile] creates with mode 0600. *)
Definition write_policy (contents : string) : Disk :=
  {[policy_path := NFile 384 me (bytes_of contents)]}.

(** [PolicyParser::load] *)
Definition load_policy (d : Disk) (path : string) : result PolicyConfig PolicyError :=
  load_with_owner toml (disk_fs me d) me path RootOrCurrent.

Definition policy_err (needle : string) (r : result PolicyConfig PolicyError) : bool :=
  err_with (λ e, contains (policy_error_text io_text e) needle) r.

Definition sorts_specific_rules_before_wildcard : bool :=
  ok_with (λ config,
      match rules config with
      | r0 :: r1 :: _ => negb (is_wildcard r0) && is_wildcard r1
      | _ => false
      end)
    (load_policy (write_policy specific_and_wildcard) policy_path).

Definition rejects_duplicate_method_rules : bool :=
  is_err (load_policy (write_policy two_specific) policy_path).

Definition rejects_duplicate_wildcard_rules : bool :=
  policy_err "duplicate wildcard" (load_policy (write_policy two_wildcards) policy_path).

Definition rejects_min_confidence_outside_unit_range : bool :=
  policy_err "min_confidence" (load_policy (write_policy too_confident) policy_path).

Definition rejects_invalid_method_name : bool :=
  err_with (λ e, contains (policy_error_chain io_text toml_text e) "method")
    (load_policy (write_policy two_words) policy_path).

Definition rejects_world_readable_policy_file : bool :=
  policy_err "mode 0600 or 0640"
    (load_policy {[policy_path := NFile 420 me (bytes_of one_wildcard)]} policy_path).

Definition rejects_symlink_policy_file : bool :=
  let target := "/tmp/dir/target.toml" in
  let link := "/tmp/dir/link.toml" in
  let d : Disk :=
    {[target := NFile 384 me (bytes_of (rule_toml EmptyString "0.9")); link := NSymlink]} in
  policy_err "safely open policy file" (load_policy d link).

Definition parser_tests : list bool :=
  [sorts_specific_rules_before_wildcard; rejects_duplicate_method_rules;
   rejects_duplicate_wildcard_rules; rejects_min_confidence_outside_unit_range;
   rejects_invalid_method_name; rejects_world_readable_policy_file;
   rejects_symlink_policy_file].
End Parser.

(** ** They pass *)

Lemma name_tests_pass : passes name_tests.
Proof. apply passes_decide. vm_compute. reflexivity. Qed.

(** Between the two readings less than a second passes, and the first is at
    least two seconds after the epoch. *)
Definition clocks_ok (clock later : Z) : Prop :=
  2000000000 ≤ clock ≤ later ∧ later ≤ clock + 999000000 ∧ later < 2 ^ 63.

Lemma clocks_ms clock later :
  clocks_ok clock later →
  2000 ≤ now_ms clock ≤ unix_ms later ∧ unix_ms later ≤ now_ms clock + 999.
Proof.
  unfold clocks_ok, now_ms, unix_ms. intros (H1 & H2 & H3). rewrite !Z.max_r by lia.
  change (2 ^ 63) with 9223372036854775808 in H3.
  assert (0 ≤ clock / 1000000 < 18446744073709551616)
    by (split; [apply Z.div_pos; lia|apply Z.div_lt_upper_bound; lia]).
  assert (0 ≤ later / 1000000 < 18446744073709551616)
    by (split; [apply Z.div_pos; lia|apply Z.div_lt_upper_bound; lia]).
  rewrite !Z.mod_small by lia. split; [split|].
  - apply Z.div_le_lower_bound; lia.
  - apply Z.div_le_mono; lia.
  - rewrite <-Z.div_add by lia. apply Z.div_le_mono; lia.
Qed.

(** A single rule that matches judges fresh evidence by its confidence and
    uid alone. *)
Lemma evaluate_fresh r cap later c :
  rule_matches r (ctx_result c) = true →
  res_timestamp_ms (ctx_result c) ≤ unix_ms later ≤ res_timestamp_ms (ctx_result c) + 1000 →
  1 ≤ Z.min (rule_max_age_secs r) cap ≤ 1000000 →
  evaluate (mk_engine [r] cap) later c
  = let conf := res_confidence (ctx_result c) in
    if negb (f32_is_finite conf) || negb (f32_unit_range conf) then Deny (InvalidConfidence conf)
    else if f32_lt conf (rule_min_confidence r)
    then Deny (ConfidenceTooLow conf (rule_min_confidence r))
    else if rule_require_uid_match r
            && negb (res_uid (ctx_result c) =? req_uid (ctx_request c))
    then Deny (UidMismatch (req_uid (ctx_request c)) (res_uid (ctx_result c)))
    else Allow.
Proof.
  intros Hm Ht Ha. unfold evaluate. simpl. rewrite Hm.
  rewrite (proj2 (Z.ltb_ge _ _)) by lia. unfold checked_mul_u64.
  rewrite bool_decide_eq_true_2 by (unfold u64_max; lia).
  by rewrite (proj2 (Z.ltb_ge _ _)) by lia.
Qed.

(** The same rule refuses evidence of two seconds ago if its window is one. *)
Lemma evaluate_stale r cap later c :
  rule_matches r (ctx_result c) = true → Z.min (rule_max_age_secs r) cap = 1 →
  res_timestamp_ms (ctx_result c) + 2000 ≤ unix_ms later →
  too_old_1000 (evaluate (mk_engine [r] cap) later c) = true.
Proof.
  intros Hm Ha Ht. unfold evaluate. simpl. rewrite Hm, Ha.
  rewrite (proj2 (Z.ltb_ge _ _)) by lia. simpl.
  by rewrite (proj2 (Z.ltb_lt _ _)) by lia.
Qed.

Lemma evaluator_tests_pass clock later :
  clocks_ok clock later → passes (evaluator_tests clock later).
Proof.
  intros H%clocks_ms. suite.
  - unfold test_policy_allows_matching_result, engine_with_rule, engine_with_rule_and_global.
    rewrite evaluate_fresh by (simpl; done || lia). reflexivity.
  - unfold test_policy_denies_low_confidence, engine_with_rule, engine_with_rule_and_global.
    rewrite evaluate_fresh by (simpl; done || lia). reflexivity.
  - unfold test_policy_denies_uid_substitution, engine_with_rule, engine_with_rule_and_global.
    rewrite evaluate_fresh by (simpl; done || lia). reflexivity.
  - apply evaluate_stale; simpl; [done..|]. unfold saturating_sub. lia.
  - apply evaluate_stale; simpl; [done..|]. unfold saturating_sub. lia.
  - unfold test_policy_denies_future_timestamp, evaluate. simpl.
    by rewrite (proj2 (Z.ltb_lt _ _)) by lia.
  - unfold test_policy_denies_overflowing_age_window, evaluate. simpl.
    by rewrite (proj2 (Z.ltb_ge _ _)) by lia.
  - unfold test_policy_denies_invalid_confidence, engine_with_rule, engine_with_rule_and_global.
    rewrite evaluate_fresh by (simpl; done || lia). reflexivity.
  - unfold test_policy_other_method_requires_exact_value_match, engine_with_rule,
      engine_with_rule_and_global.
    rewrite (evaluate_fresh _ _ _ (context_with_method _ _ _ (Other "custom_a")))
      by (simpl; done || lia).
    reflexivity.
Qed.

(** What a policy file of the user that is private yields. *)
Lemma load_policy_file me toml contents raw :
  toml contents = Some raw → Z.of_nat (length (bytes_of contents)) ≤ MAX_POLICY_BYTES →
  utf8_valid (bytes_of contents) = true →
  load_policy me toml (write_policy me contents) policy_path = load_rules raw.
Proof.
  intros Ht Hl Hu. unfold load_policy, load_with_owner, read_policy_file.
  rewrite (disk_read me _ _ 384 (bytes_of contents) _ MAX_POLICY_BYTES); try done.
  - simpl. by rewrite str_of_bytes_of, Ht.
  - by vm_compute; left.
Qed.

Lemma parser_tests_pass me toml io_text toml_text :
  Forall (λ d, toml d.1 = Some d.2) policy_documents →
  passes (parser_tests me toml io_text toml_text).
Proof.
  intros H. unfold policy_documents in H. rewrite !Forall_cons in H. cbn [fst snd] in H.
  destruct H as (H1 & H2 & H3 & H4 & H5 & H6 & _). suite.
  - unfold sorts_specific_rules_before_wildcard.
    rewrite (load_policy_file _ _ _ _ H1) by done. reflexivity.
  - unfold rejects_duplicate_method_rules. rewrite (load_policy_file _ _ _ _ H2) by done.
    reflexivity.
  - unfold rejects_duplicate_wildcard_rules. rewrite (load_policy_file _ _ _ _ H3) by done.
    reflexivity.
  - unfold rejects_min_confidence_outside_unit_range.
    rewrite (load_policy_file _ _ _ _ H4) by done. reflexivity.
  - unfold rejects_invalid_method_name. rewrite (load_policy_file _ _ _ _ H5) by done.
    change (contains ("Failed to parse policy TOML" +:+ (": " +:+ (toml_text
      +:+ "method must use ASCII letters, digits, '_', '-', or '.'"))) "method" = true).
    by repeat apply contains_suffix.
  - reflexivity.
  - reflexivity.
Qed.
