(* ===== verification/TestsSecurity.v ===== *)
(** * Unit tests: security

    The tests of security/fs.rs, allowlist.rs, nonce.rs, rate_limit.rs and
    attestation/verifier.rs.  [me] is the user who runs them and owns their
    files; the texts of the operating system are [io_text]. *)

From S2P Require Import Prelude RustStd Types SecureFs Nonce RateLimit Allowlist Attestation.
From S2P Require Import AuditEntry AuditLog ErrorText Sha256 TestBench.
Open Scope Z_scope.

#[local] Existing Instance fips_crypto.

(** ** fs.rs *)

Section Files.
Context (me : Z) (io_text : IoKind → string).

Definition fs_spec (owner : OwnerPolicy) : SecureFileSpec :=
  mk_spec "test file" (SizeMax 1024) (ModeExact [384]) owner.

Definition temp_file : string := "/tmp/file".
Definition private_file : Disk := {[temp_file := NFile 384 me []]}.

Definition owner_policy_accepts_current_uid : bool :=
  is_ok (read_secure_to_string (disk_fs me private_file) me temp_file (fs_spec RootOrCurrent)).

Definition owner_policy_rejects_unlisted_non_root_uid : bool :=
  if me =? 0 then true
  else
  let other_uid := saturating_add_u32 me 10000 in
  err_with (λ e, contains (fs_error_text io_text e) "owned by root or service user")
    (read_secure_to_string (disk_fs me private_file) me temp_file
       (fs_spec (RootOrUid other_uid))).

Definition append_owner_policy_rejects_unlisted_non_root_uid : bool :=
  if me =? 0 then true
  else
  let other_uid := saturating_add_u32 me 10000 in
  err_with (λ e, contains (fs_error_text io_text e) "owned by root or service user")
    (open_secure_append (disk_fs me private_file) me temp_file 416 (RootOrUid other_uid)).

Definition fs_tests : list bool :=
  [owner_policy_accepts_current_uid; owner_policy_rejects_unlisted_non_root_uid;
   append_owner_policy_rejects_unlisted_non_root_uid].

(** ** allowlist.rs *)

Definition create_secure_temp_file (content : string) : Disk :=
  {[temp_file := NFile 384 me (bytes_of content)]}.

Definition test_uids : Z * Z * Z :=
  let base := saturating_add_u32 me 10000 in (base, base + 1, base + 2).

(** [load_from_file], the variant for tests: the list afterwards. *)
Definition load_from_file (a : Allowlist) (d : Disk) (path : string)
  : result unit AllowlistError * Allowlist :=
  load_from_file_with_options (disk_fs me d) me a path false RootOrCurrent.

(** [expect] of the load, then the assertions. *)
Definition after_load (a : Allowlist) (content : string) (asserts : Allowlist → bool) : bool :=
  let '(r, a) := load_from_file a (create_secure_temp_file content) temp_file in
  is_ok r && asserts a.

Definition nl_str : string := str_of [nl].

Definition test_allowlist_valid_uids : bool :=
  let '(u1, u2, u3) := test_uids in
  after_load allowlist_new (display_uint u1 +:+ nl_str +:+ display_uint u2) (λ a,
    is_allowed me a u1 && is_allowed me a u2 && negb (is_allowed me a u3)).

Definition test_allowlist_insecure_permissions : bool :=
  let '(r, _) := load_from_file allowlist_new {[temp_file := NFile 438 me []]} temp_file in
  err_with (λ e, contains (allowlist_error_text io_text e) "must have mode 0600 or 0640") r.

Definition test_allowlist_comments_and_whitespace : bool :=
  let '(u1, u2, u3) := test_uids in
  let content :=
    display_uint u1 +:+ " # Alice" +:+ nl_str +:+ "            # This is a comment" +:+ nl_str
    +:+ "            " +:+ display_uint u2 +:+ nl_str
    +:+ "              " +:+ display_uint u3 +:+ nl_str +:+ "        " in
  let forbidden := u1 + 1000 in
  let forbidden := if forbidden =? me then forbidden + 1 else forbidden in
  after_load allowlist_new content (λ a,
    is_allowed me a u1 && is_allowed me a u2 && is_allowed me a u3
    && negb (is_allowed me a forbidden)).

Definition test_allowlist_always_allows_root : bool := is_allowed me allowlist_new 0.

Definition test_allowlist_always_allows_self : bool := is_allowed me allowlist_new me.

Definition test_load_nonexistent_file : bool :=
  is_err (load_from_file allowlist_new ∅ "/path/that/does/not/exist").1.

Definition test_allowlist_large_file : bool :=
  let content :=
    str_of (concat ((λ i, display_bytes i ++ [nl]) <$> seqZ 10000 10000)) in
  after_load allowlist_new content (λ a,
    is_allowed me a 15000 && negb (is_allowed me a 30000)).

Definition test_allowlist_duplicate_uids : bool :=
  let '(u1, _, _) := test_uids in
  let line := display_uint u1 +:+ nl_str in
  after_load allowlist_new (line +:+ line +:+ line) (λ a, is_allowed me a u1).

Definition test_allowlist_reload_clears_old : bool :=
  let '(u1, u2, _) := test_uids in
  let u_new := u1 + 100 in
  after_load allowlist_new (display_uint u1 +:+ nl_str +:+ display_uint u2) (λ a,
    is_allowed me a u1
    && after_load a (display_uint u_new) (λ a,
         negb (is_allowed me a u1) && is_allowed me a u_new)).

Definition test_allowlist_malformed_lines : bool :=
  let '(u1, u2, u3) := test_uids in
  let content :=
    display_uint u1 +:+ nl_str +:+ "99999999999999999999" +:+ nl_str +:+ display_uint u2
    +:+ nl_str +:+ "foobar" +:+ nl_str +:+ display_uint u3 in
  after_load allowlist_new content (λ a,
    is_allowed me a u1 && is_allowed me a u2 && is_allowed me a u3).

Definition test_allowlist_strict_rejects_malformed_lines : bool :=
  let '(u1, _, _) := test_uids in
  let content := display_uint u1 +:+ nl_str +:+ "not-a-uid" +:+ nl_str in
  err_with (λ e, contains (allowlist_error_text io_text e) "invalid UID on line 2")
    (load_from_file_with_options (disk_fs me (create_secure_temp_file content)) me allowlist_new
       temp_file true RootOrCurrent).1.

Definition test_allowlist_empty_file : bool :=
  after_load allowlist_new EmptyString (λ a, is_allowed me a 0 && is_allowed me a me).

Definition test_allowlist_only_comments : bool :=
  after_load allowlist_new ("# Only comments" +:+ nl_str +:+ "# Nothing else") (λ a,
    is_allowed me a 0).

Definition allowlist_tests : list bool :=
  [test_allowlist_valid_uids; test_allowlist_insecure_permissions;
   test_allowlist_comments_and_whitespace; test_allowlist_always_allows_root;
   test_allowlist_always_allows_self; test_load_nonexistent_file;
   test_allowlist_duplicate_uids; test_allowlist_reload_clears_old;
   test_allowlist_malformed_lines; test_allowlist_strict_rejects_malformed_lines;
   test_allowlist_empty_file; test_allowlist_only_comments].
End Files.

(** ** nonce.rs

    [clock] are the readings of the monotonic clock, [rand] the draws of each
    call of [generate], in turn. *)

Section Nonces.
Context (clock : nat → Z) (rand : nat → draws).

Definition test_generate_and_consume_once : bool :=
  let '(nonce, store) := generate nonce_store_new 1000 (rand 0) (clock 0) in
  match nonce with
  | Err _ => false
  | Ok nonce =>
      let '(first, store) := consume store nonce 1000 (clock 1) in
      let '(second, _) := consume store nonce 1000 (clock 2) in
      is_ok first && assert_eq second (Err NonceNotFound)
  end.

Definition test_consume_uid_mismatch : bool :=
  let '(nonce, store) := generate nonce_store_new 1000 (rand 0) (clock 0) in
  match nonce with
  | Err _ => false
  | Ok nonce => assert_eq (consume store nonce 1001 (clock 1)).1 (Err NonceUidMismatch)
  end.

(** [n] calls that must succeed, from the [i]-th on. *)
Fixpoint generate_n (n i : nat) (store : Mutex NonceState) : option (Mutex NonceState) :=
  match n with
  | O => Some store
  | S n =>
      let '(r, store) := generate store 1000 (rand i) (clock i) in
      if is_ok r then generate_n n (S i) store else None
  end.

Definition test_per_uid_pending_limit : bool :=
  match generate_n MAX_PENDING_NONCES_PER_UID 0 nonce_store_new with
  | None => false
  | Some store =>
      let '(r, store) := generate store 1000 (rand 32) (clock 32) in
      assert_eq r (Err TooManyForUid) && is_ok (generate store 1001 (rand 33) (clock 33)).1
  end.

Definition test_expired_nonce_is_removed_and_rejected : bool :=
  let nonce := replicate 32 (byte_of_Z 4) in
  let uid := 1000 in
  let store := unlock (mk_nonce_state {[nonce := (clock 0 - NONCE_TTL - secs 1, uid)]}
                         {[uid := 1%nat]}) in
  let '(r, store) := consume store nonce uid (clock 1) in
  assert_eq r (Err NonceExpired)
  && match lock store with
     | None => false
     | Some state =>
         negb (bool_decide (is_Some (pending state !! nonce)))
         && negb (bool_decide (is_Some (pending_per_uid state !! uid)))
     end.

Definition test_global_pending_limit_returns_table_full : bool :=
  let insert p i :=
    <[le_bytes 8 (Z.of_nat i) ++ replicate 24 (byte_of_Z 0) := (clock i, Z.of_nat i)]> p in
  let pending := foldl insert ∅ (seq 0 MAX_PENDING_NONCES) in
  assert_eq (generate (unlock (mk_nonce_state pending ∅)) 42 (rand 0) (clock 1024)).1
    (Err TableFull).

Definition nonce_tests : list bool :=
  [test_generate_and_consume_once; test_consume_uid_mismatch; test_per_uid_pending_limit;
   test_expired_nonce_is_removed_and_rejected; test_global_pending_limit_returns_table_full].

(** ** rate_limit.rs *)

Definition test_rate_limit_blocks_after_budget : bool :=
  let '(r1, limiter) := check rate_limiter_new 1000 2 (clock 0) in
  let '(r2, limiter) := check limiter 1000 2 (clock 1) in
  let '(r3, _) := check limiter 1000 2 (clock 2) in
  r1 && r2 && negb r3.

Definition test_cleanup_removes_only_stale_entries : bool :=
  let limits : gmap Z RateEntry :=
    {[1000 := mk_rate_entry (clock 0 - secs 61) 1; 1001 := mk_rate_entry (clock 1) 1]} in
  match lock (cleanup_stale (unlock limits) (clock 2)) with
  | None => false
  | Some limits =>
      negb (bool_decide (is_Some (limits !! 1000))) && bool_decide (is_Some (limits !! 1001))
  end.

Definition test_rejects_new_uid_when_table_is_full : bool :=
  let '(r1, limiter) := check (with_max_tracked_uids 1) 1000 10 (clock 0) in
  let '(r2, _) := check limiter 1001 10 (clock 1) in
  r1 && negb r2.

Definition test_existing_uid_uses_existing_slot_when_table_is_full : bool :=
  let '(r1, limiter) := check (with_max_tracked_uids 1) 1000 2 (clock 0) in
  let '(r2, limiter) := check limiter 1000 2 (clock 1) in
  let '(r3, _) := check limiter 1000 2 (clock 2) in
  r1 && r2 && negb r3.

Definition test_cleanup_frees_slot_before_rejecting_new_uid : bool :=
  let limits : gmap Z RateEntry :=
    {[1000 := mk_rate_entry (clock 0 - STALE_AFTER - secs 1) 1]} in
  (check (mk_rate_limiter (unlock limits) 1) 1001 10 (clock 1)).1.

Definition rate_limit_tests : list bool :=
  [test_rate_limit_blocks_after_budget; test_cleanup_removes_only_stale_entries;
   test_rejects_new_uid_when_table_is_full;
   test_existing_uid_uses_existing_slot_when_table_is_full;
   test_cleanup_frees_slot_before_rejecting_new_uid].
End Nonces.

(** ** attestation/verifier.rs *)

Section Attest.
Context `{C : Crypto} (me : Z) (io_text : IoKind → string).

Definition sample_result : VerificationResult :=
  mk_result 1 (replicate 16 (byte_of_Z 9)) f32_one Fido2 1234 1000 (replicate 32 (byte_of_Z 7))
    (replicate 32 (byte_of_Z 0)).

Definition with_evidence (r : VerificationResult) (hash : list byte) : VerificationResult :=
  mk_result (res_version r) (res_id r) (res_confidence r) (res_method r) (res_timestamp_ms r)
    (res_uid r) (res_nonce r) hash.

Definition test_signed_result (key : list byte) : VerificationResult :=
  let r := sample_result in
  with_evidence r
    (hmac_sha256 key
       (res_nonce r ++ le_bytes 4 (res_uid r) ++ method_commitment (res_method r)
        ++ le_bytes 4 (res_confidence r) ++ le_bytes 8 (res_timestamp_ms r))).

Definition fives : list byte := replicate 32 (byte_of_Z 5).

Definition test_attestation_verifies_valid_hash : bool :=
  is_ok (Attestation.verify (mk_verifier {["fido2" := fives]}) "fido2" (test_signed_result fives)).

Definition test_attestation_rejects_unknown_adapter : bool :=
  assert_eq (Attestation.verify (mk_verifier ∅) "missing" sample_result) (Err UnknownAdapter).

Definition flip_first (bs : list byte) : list byte :=
  match bs with [] => [] | b :: bs => byte_of_Z (Z.lxor (bv b) 1) :: bs end.

Definition test_attestation_rejects_modified_hash : bool :=
  let result := test_signed_result fives in
  assert_eq (Attestation.verify (mk_verifier {["fido2" := fives]}) "fido2"
               (with_evidence result (flip_first (res_evidence_hash result))))
    (Err HashMismatch).

Definition test_require_keys_for_configured_adapters : bool :=
  err_with (λ e, contains (key_error_text io_text "/keys" e) "missing HMAC key"
                 && contains (key_error_text io_text "/keys" e) "pin")
    (require_keys_for_adapters (mk_verifier {["fido2" := fives]}) ["fido2"; "pin"]).

Definition test_custom_methods_have_distinct_commitments : bool :=
  negb (assert_eq (method_commitment (Other "custom_a")) (method_commitment (Other "custom_b"))).

Definition key_path : string := "/keys/adapter.key".

(** [load_key_file], the variant for tests. *)
Definition load_key_file (d : Disk) (path : string) : result (list byte) FsError :=
  load_key_file_with_owner (disk_fs me d) me path RootOrCurrent.

Definition key_err (needle : string) (r : result (list byte) FsError) : bool :=
  err_with (λ e, contains (fs_error_text io_text e) needle) r.

Definition test_key_loader_rejects_symlink : bool :=
  let d : Disk :=
    {["/keys/target.key" := NFile 384 me (replicate 32 (byte_of_Z 7));
      "/keys/link.key" := NSymlink]} in
  key_err "safely open adapter key" (load_key_file d "/keys/link.key").

Definition test_key_loader_rejects_non_regular_file : bool :=
  key_err "regular file" (load_key_file {["/keys" := NDir 448 me]} "/keys").

Definition test_key_loader_rejects_wrong_mode : bool :=
  key_err "mode 0600"
    (load_key_file {[key_path := NFile 416 me (replicate 32 (byte_of_Z 7))]} key_path).

Definition test_key_loader_rejects_wrong_size : bool :=
  key_err "exactly 32 bytes"
    (load_key_file {[key_path := NFile 384 me (replicate 31 (byte_of_Z 7))]} key_path).

Definition evidence_tests : list bool :=
  [test_attestation_verifies_valid_hash; test_attestation_rejects_unknown_adapter;
   test_attestation_rejects_modified_hash].

Definition key_tests : list bool :=
  [test_require_keys_for_configured_adapters; test_key_loader_rejects_symlink;
   test_key_loader_rejects_non_regular_file; test_key_loader_rejects_wrong_mode;
   test_key_loader_rejects_wrong_size].
End Attest.

(** ** They pass *)

Definition bench_clock (i : nat) : Z := secs 1000 + millis (Z.of_nat i).
Definition bench_rand (call i : nat) : option (list byte) :=
  Some (le_bytes 32 (Z.of_nat (16 * call + i))).

Lemma fs_tests_pass io_text : passes (fs_tests 1000 io_text ++ fs_tests 0 io_text).
Proof. apply passes_decide. vm_compute. reflexivity. Qed.

Lemma allowlist_tests_pass io_text :
  passes (allowlist_tests 1000 io_text ++ allowlist_tests 0 io_text).
Proof. apply passes_decide. vm_compute. reflexivity. Qed.

Lemma store_tests_pass :
  passes (nonce_tests bench_clock bench_rand ++ rate_limit_tests bench_clock).
Proof. apply passes_decide. vm_compute. reflexivity. Qed.

Lemma key_tests_pass me io_text : passes (key_tests me io_text).
Proof. apply passes_decide. vm_compute. reflexivity. Qed.

Lemma commitment_test_passes : passes [test_custom_methods_have_distinct_commitments].
Proof. apply passes_decide. vm_compute. reflexivity. Qed.

Lemma render_length uids : (length (bytes_of (render uids)) ≤ 21 * length uids)%nat.
Proof.
  unfold render. rewrite bytes_of_str_of. induction uids as [|u uids IH]; [done|].
  rewrite fmap_cons, concat_cons, !length_app. pose proof (length_display_bytes u).
  change (length [nl]) with 1%nat. change (length (u :: uids)) with (S (length uids)). lia.
Qed.

Lemma render_ascii uids :
  Forall (λ u, 0 ≤ u) uids → Forall (λ b, bv b < 128) (bytes_of (render uids)).
Proof.
  unfold render. rewrite bytes_of_str_of. induction 1 as [|u uids Hu _ IH]; [done|].
  rewrite fmap_cons, concat_cons. apply Forall_app. split; [|done].
  apply Forall_app. split; [|by repeat constructor].
  eapply Forall_impl; [by apply display_bytes_digits|].
  intros b Hb. unfold is_ascii_digit, in_range in Hb. lia.
Qed.

(** A private file that lists uids is read as the round trip of the allowlist
    expects. *)
Lemma uid_file_readable me uids :
  Forall is_u32 uids → Z.of_nat (length uids) ≤ 20000 →
  read_secure_to_string (disk_fs me (create_secure_temp_file me (render uids))) me temp_file
    (allowlist_spec RootOrCurrent) = Ok (render uids).
Proof.
  intros Hu Hn. rewrite <-(str_of_bytes_of (render uids)) at 2.
  apply (disk_read me _ _ 384 _ _ MAX_ALLOWLIST_BYTES); try done.
  - by vm_compute; left.
  - pose proof (render_length uids). unfold MAX_ALLOWLIST_BYTES. lia.
  - apply ascii_utf8, render_ascii. eapply Forall_impl; [exact Hu|]. unfold is_u32. lia.
Qed.

(** The user 30000 is a stranger to the test. *)
Lemma large_file_test_passes me :
  me ≠ 30000 → passes [test_allowlist_large_file me].
Proof.
  intros Hme. suite. unfold test_allowlist_large_file, after_load, load_from_file.
  change (str_of (concat ((λ i, display_bytes i ++ [nl]) <$> seqZ 10000 10000)))
    with (render (seqZ 10000 10000)).
  assert (Forall is_u32 (seqZ 10000 10000)) as Hu.
  { apply Forall_forall. intros u Hu%elem_of_seqZ. unfold is_u32, u32_max. lia. }
  pose proof (allowlist_roundtrip _ _ allowlist_new temp_file false RootOrCurrent _ Hu
                (uid_file_readable me _ Hu ltac:(by rewrite length_seqZ))) as H.
  destruct (load_from_file_with_options _ _ _ _ _ _) as [r a]. destruct H as (-> & _ & H).
  simpl. apply andb_true_iff. split.
  - apply H. right. right. apply elem_of_seqZ. lia.
  - apply negb_true_iff, not_true_iff_false. intros Ha%H.
    destruct Ha as [?|[?|Hin%elem_of_seqZ]]; lia.
Qed.

Lemma flip_first_ne bs : bs ≠ [] → flip_first bs ≠ bs.
Proof.
  destruct bs as [|b bs]; [done|]. intros _ [= E]. apply (f_equal bv) in E. revert E.
  destruct b as [[] [] [] [] [] [] [] []]; vm_compute; done.
Qed.

(** Any digests of 32 bytes and an honest comparison do. *)
Lemma evidence_tests_pass {C : Crypto} {CL : CryptoLaws C} : passes (@evidence_tests C).
Proof.
  suite.
  - unfold test_attestation_verifies_valid_hash, Attestation.verify.
    change (adapter_keys _ !! _) with (Some fives). cbv beta iota delta [ok_or].
    by rewrite ct_eq_spec, bool_decide_eq_true_2.
  - reflexivity.
  - unfold test_attestation_rejects_modified_hash, Attestation.verify.
    change (adapter_keys _ !! _) with (Some fives). cbv beta iota delta [ok_or].
    rewrite ct_eq_spec, bool_decide_eq_false_2; [done|]. intros E. symmetry in E. revert E.
    apply flip_first_ne. intros E.
    apply (f_equal length) in E. unfold test_signed_result in E. cbn [res_evidence_hash] in E.
    by rewrite hmac_length in E.
Qed.
