(* ===== verification/TestsAudit.v ===== *)
(** * Unit tests: the audit log

    The tests of infrastructure/audit: entry.rs, logger.rs, verifier.rs and
    metrics.rs.  Entries are written and read as JSON ([JsonText]). *)

From S2P Require Import Prelude RustStd Types SecureFs Allowlist Attestation AuditEntry AuditLog.
From S2P Require Import Metrics ErrorText Sha256 JsonText TestBench.
Open Scope Z_scope.

#[local] Existing Instance json_serde.

(** ** entry.rs *)

Definition sample_entry : AuditEntry :=
  mk_audit_entry 1 (Some "req-1") 1000 1000 (Some "fido2") "fido2" "allow" None f32_one
    "abc123" "0011223344556677" (str_of (replicate 64 "0"%char)) EmptyString.

Definition hash_payload_v1_has_known_digest {C : Crypto} : bool :=
  assert_eq (hex_sha256 (hash_payload_v1 sample_entry))
    "f0370ed8cca05c9c7c3b7d280627134d3c140413e904e2cef10104bcbecd5521".

Definition entry_hash_is_not_hashed : bool :=
  let before := hash_payload_v1 sample_entry in
  let entry := set_entry_hash sample_entry "changed" in
  assert_eq (hash_payload_v1 entry) before.

Definition with_request_id (e : AuditEntry) (id : option string) : AuditEntry :=
  mk_audit_entry (ae_ts_ms e) id (ae_caller_uid e) (ae_uid e) (ae_adapter_name e) (ae_method e)
    (ae_decision e) (ae_deny_reason e) (ae_confidence e) (ae_evidence_hash e)
    (ae_nonce_prefix e) (ae_prev_hash e) (ae_entry_hash e).

Definition absent_and_empty_optional_strings_differ : bool :=
  let absent := with_request_id sample_entry None in
  let empty := with_request_id sample_entry (Some EmptyString) in
  negb (assert_eq (hash_payload_v1 absent) (hash_payload_v1 empty)).

Definition entry_tests : list bool :=
  [entry_hash_is_not_hashed; absent_and_empty_optional_strings_differ].

(** ** logger.rs

    [dir] is the temporary directory; its parent exists. *)

Section Logger.
Context `{C : Crypto} (me : Z) (io_text : IoKind → string).

Definition log_entry (id : string) : AuditEntry :=
  mk_audit_entry 1 (Some id) 1000 1000 (Some "fido2") "fido2" "allow" None f32_one
    EmptyString EmptyString EmptyString EmptyString.

Definition to_line (e : AuditEntry) : string := default EmptyString (entry_to_string e).

Definition signed_entry_line (id prev_hash : string) : string * string :=
  let entry := set_prev_hash (log_entry id) prev_hash in
  let entry := set_entry_hash entry (hex_sha256 (hash_payload_v1 entry)) in
  (to_line entry, ae_entry_hash entry).

Definition log_path : string := "/tmp/dir/audit.log".

Definition open_log (d : Disk) (path : string) : result AuditLogger AuditError :=
  AuditLog.open (disk_fs me d) me true path RootOrCurrent.

Definition write_log (line : string) : Disk :=
  {[log_path := NFile 416 me (bytes_of line ++ [nl])]}.

(** [open_log_error(line).contains(needle)] *)
Definition open_log_error (line needle : string) : bool :=
  err_with (λ e, contains (audit_error_text io_text log_path e) needle)
    (open_log (write_log line) log_path).

(** [io_text IoOther] is that of [ELOOP] here. *)
Definition test_open_rejects_symlink_log_path : bool :=
  let d : Disk := {["/tmp/dir/real.log" := written me EmptyString; log_path := NSymlink]} in
  err_with (λ e, contains (audit_error_text (λ _, "Too many levels of symbolic links") log_path e)
                   "Too many levels"
                 || contains (audit_error_text io_text log_path e) "symlink")
    (open_log d log_path).

Definition test_open_rejects_directory_log_path : bool :=
  is_err (open_log {[log_path := NDir 493 me]} log_path).

Definition test_open_rejects_fifo_log_path : bool :=
  is_err (open_log {[log_path := NFifo 384 me]} log_path).

(** The mode the file has afterwards is that of the descriptor. *)
Definition test_open_accepts_private_log_mode_and_normalizes_it : bool :=
  let d : Disk := {[log_path := NFile 384 me []]} in
  is_ok (open_log d log_path)
  && ok_with (λ file, match of_stat file with
                      | Some stat => Z.land (st_mode stat) 511 =? 416
                      | None => false
                      end)
       (open_secure_append (disk_fs me d) me log_path 416 RootOrCurrent).

Definition test_open_rejects_world_readable_log_mode : bool :=
  err_with (λ e, contains (audit_error_text io_text log_path e) "mode 0600 or 0640")
    (open_log {[log_path := NFile 420 me []]} log_path).

(** [logger.log(entry).await.expect(..)]: the logger afterwards. *)
Definition log_expect (l : AuditLogger) (e : AuditEntry) : option AuditLogger :=
  match log (lg_state l) e (mk_log_io true None true) with
  | (Ok _, st) => Some (mk_logger (lg_path l) (lg_owner l) st)
  | (Err _, _) => None
  end.

(** What is in the file behind the descriptor. *)
Definition log_file (l : AuditLogger) : string := str_of (au_file (guarded (lg_state l))).

(** [logger.reopen()] after the log was rotated and [replacement] put in its
    place. *)
Definition reopen_at (replacement : Node) (l : AuditLogger)
  : result unit AuditError * AuditLogger :=
  reopen (disk_fs me {[log_path := replacement]}) me l.

Definition expect_ok {A E} (r : result A E) : option A :=
  match r with Ok a => Some a | Err _ => None end.

Definition asserts (o : option bool) : bool := default false o.

Definition test_reopen_writes_to_recreated_log : bool := asserts (
  logger ← expect_ok (open_log ∅ log_path);
  logger ← log_expect logger (log_entry "before");
  let old_log := log_file logger in
  let '(r, logger) := reopen_at (NFile 416 me []) logger in
  _ ← expect_ok r;
  logger ← log_expect logger (log_entry "after");
  let new_log := log_file logger in
  Some (contains old_log "before" && negb (contains old_log "after")
        && contains new_log "after")).

Definition test_reopen_rejects_bad_replacement_mode : bool := asserts (
  logger ← expect_ok (open_log ∅ log_path);
  logger ← log_expect logger (log_entry "before");
  Some (is_err (reopen_at (NFile 420 me []) logger).1)).

(** [value[name]] of a line. *)
Definition line_field (line : string) (name : string) : option Json :=
  match parse line with Some (JObj fields) => field fields name | _ => None end.

(** The assertion [a[x] == b[y]] on two lines that are there. *)
Definition linked (after : option string) (before : option string) : option bool :=
  after ← after; before ← before;
  prev ← line_field after "prev_hash" ≫= as_text;
  hash ← line_field before "entry_hash" ≫= as_text;
  Some (assert_eq prev hash).

Definition test_reopen_keeps_hash_chain_after_late_write : bool := asserts (
  logger ← expect_ok (open_log ∅ log_path);
  logger ← log_expect logger (log_entry "one");
  logger ← log_expect logger (log_entry "two");
  let rotated_log := log_file logger in
  let '(r, logger) := reopen_at (NFile 416 me []) logger in
  _ ← expect_ok r;
  logger ← log_expect logger (log_entry "three");
  let new_log := log_file logger in
  linked (lines new_log !! 0%nat) (lines rotated_log !! 1%nat)).

Definition test_open_recovers_hash_from_existing_log : bool := asserts (
  logger ← expect_ok (open_log ∅ log_path);
  logger ← log_expect logger (log_entry "one");
  logger ← expect_ok (open_log {[log_path := NFile 416 me (bytes_of (log_file logger))]} log_path);
  logger ← log_expect logger (log_entry "two");
  let lines := lines (log_file logger) in
  linked (lines !! 1%nat) (lines !! 0%nat)).

(** The bytes before the position a new file is extended from are zeros. *)
Definition test_open_recovers_hash_from_bounded_tail : bool := asserts (
  let '(line, hash) := signed_entry_line "tail" ZERO_HASH in
  let data := replicate (Z.to_nat (AUDIT_RECOVERY_WINDOW_BYTES + 10)) (byte_of_Z 0)
              ++ nl :: bytes_of line ++ [nl] in
  logger ← expect_ok (open_log {[log_path := NFile 416 me data]} log_path);
  logger ← log_expect logger (log_entry "after");
  after_line ← find (λ line, contains line (quoted "'request_id':'after'"))
                 (lines (log_file logger));
  prev ← line_field after_line "prev_hash" ≫= as_text;
  Some (assert_eq prev hash)).

Definition test_open_rejects_malformed_final_entry : bool :=
  open_log_error "not json" "malformed final entry".

Definition test_open_rejects_missing_final_entry_hash : bool :=
  let entry := set_prev_hash (log_entry "missing-hash") ZERO_HASH in
  open_log_error (to_line entry) "malformed final entry".

Definition capital_as : string := str_of (replicate 64 "A"%char).

Definition test_open_rejects_invalid_final_entry_hash : bool :=
  let entry := set_prev_hash (log_entry "bad-hash") ZERO_HASH in
  let entry := set_entry_hash entry capital_as in
  open_log_error (to_line entry) "invalid final entry_hash".

Definition test_open_rejects_invalid_final_prev_hash : bool :=
  let entry := set_prev_hash (log_entry "bad-prev") capital_as in
  let entry := set_entry_hash entry (hex_sha256 (hash_payload_v1 entry)) in
  open_log_error (to_line entry) "invalid final prev_hash".

(** [value[name] = x]: replaced, or added at the end. *)
Definition set_field (line : string) (name : string) (x : Json) : string :=
  match parse line with
  | Some (JObj fields) =>
      let put f := if bool_decide (f.1 = bytes_of name) then (f.1, x) else f in
      let fields := match field fields name with
                    | Some _ => put <$> fields
                    | None => fields ++ [(bytes_of name, x)]
                    end in
      str_of (print (JObj fields))
  | _ => EmptyString
  end.

Definition test_open_rejects_unknown_final_entry_field : bool :=
  let '(line, _) := signed_entry_line "unknown-field" ZERO_HASH in
  open_log_error (set_field line "extra" (JBool true)) "malformed final entry".

Definition test_open_rejects_final_entry_hash_mismatch : bool :=
  let '(line, _) := signed_entry_line "mismatch" ZERO_HASH in
  let ones := replicate 64 "1"%char in
  open_log_error (set_field line "entry_hash" (JStr ones)) "entry_hash does not match".

Definition test_open_rejects_entry_larger_than_recovery_window : bool :=
  let data := replicate (Z.to_nat (AUDIT_RECOVERY_WINDOW_BYTES + 1)) "a"%char ++ [nl] in
  err_with (λ e, contains (audit_error_text io_text log_path e) "no complete entry")
    (open_log {[log_path := NFile 416 me data]} log_path).

Definition audit_entries_form_hash_chain : bool := asserts (
  logger ← expect_ok (open_log ∅ log_path);
  logger ← log_expect logger (log_entry "one");
  logger ← log_expect logger (log_entry "two");
  let lines := lines (log_file logger) in
  first ← lines !! 0%nat;
  second ← lines !! 1%nat;
  first_hash ← line_field first "entry_hash" ≫= as_text;
  let expected_first := set_prev_hash (log_entry "one") ZERO_HASH in
  first_prev ← line_field first "prev_hash" ≫= as_text;
  second_prev ← line_field second "prev_hash" ≫= as_text;
  second_hash ← line_field second "entry_hash" ≫= as_text;
  Some (assert_eq first_prev ZERO_HASH
        && assert_eq first_hash (hex_sha256 (hash_payload_v1 expected_first))
        && assert_eq second_prev first_hash
        && is_lower_hex_hash first_hash && is_lower_hex_hash second_hash)).

Definition logger_tests : list bool :=
  [test_open_rejects_symlink_log_path; test_open_rejects_directory_log_path;
   test_open_rejects_fifo_log_path; test_open_accepts_private_log_mode_and_normalizes_it;
   test_open_rejects_world_readable_log_mode; test_reopen_writes_to_recreated_log;
   test_reopen_rejects_bad_replacement_mode; test_reopen_keeps_hash_chain_after_late_write;
   test_open_recovers_hash_from_existing_log; test_open_rejects_malformed_final_entry;
   test_open_rejects_missing_final_entry_hash; test_open_rejects_invalid_final_entry_hash;
   test_open_rejects_invalid_final_prev_hash; test_open_rejects_unknown_final_entry_field;
   test_open_rejects_final_entry_hash_mismatch; audit_entries_form_hash_chain].

(** ** verifier.rs *)

Definition chain_entry (id prev_hash : string) : AuditEntry :=
  mk_audit_entry 1 (Some id) 1000 1000 (Some "fido2") "fido2" "allow" None f32_one
    EmptyString EmptyString prev_hash EmptyString.

Definition signed_line (id prev_hash : string) : string * string :=
  let entry := chain_entry id prev_hash in
  let entry := set_entry_hash entry (hex_sha256 (hash_payload_v1 entry)) in
  (to_line entry, ae_entry_hash entry).

Definition verify_text (text : string) : result AuditVerifyReport VerifyError :=
  verify_reader (bytes_of text) true.

Definition verify_err (text needle : string) : bool :=
  err_with (λ e, contains (verify_error_text io_text "audit.log" e) needle) (verify_text text).

Definition newline : string := str_of [nl].

Definition rejects_symlink_path : bool :=
  let d : Disk := {["/tmp/dir/real.log" := written me EmptyString; log_path := NSymlink]} in
  is_err (verify_audit_log (disk_fs me d) log_path).

Definition verifies_empty_log : bool :=
  ok_with (λ report, (rep_entries report =? 0) && assert_eq (rep_last_hash report) ZERO_HASH)
    (verify_text EmptyString).

Definition verifies_valid_chain : bool :=
  let '(line1, hash1) := signed_line "req-1" ZERO_HASH in
  let '(line2, hash2) := signed_line "req-2" hash1 in
  ok_with (λ report, (rep_entries report =? 2) && assert_eq (rep_last_hash report) hash2)
    (verify_text (line1 +:+ newline +:+ line2 +:+ newline)).

Definition rejects_broken_prev_hash : bool :=
  let '(line1, _) := signed_line "req-1" ZERO_HASH in
  let '(line2, _) := signed_line "req-2" ZERO_HASH in
  verify_err (line1 +:+ newline +:+ line2 +:+ newline)
    "line 2 prev_hash does not match previous entry".

(** The replacement in the text is one of the field it hits. *)
Definition rejects_entry_hash_mismatch : bool :=
  let '(line, _) := signed_line "req-1" ZERO_HASH in
  let line := set_field line "decision" (json_text "deny") in
  verify_err (line +:+ newline) "line 1 entry_hash does not match entry".

Definition rejects_malformed_line : bool :=
  verify_err ("{bad}" +:+ newline) "line 1 has malformed entry".

Definition rejects_incomplete_final_entry : bool :=
  let '(line, _) := signed_line "req-1" ZERO_HASH in
  verify_err line "line 1 is incomplete".

Definition verifier_tests : list bool :=
  [rejects_symlink_path; verifies_empty_log; verifies_valid_chain; rejects_broken_prev_hash;
   rejects_entry_hash_mismatch; rejects_malformed_line; rejects_incomplete_final_entry].
End Logger.

(** ** metrics.rs: [m] is what the counters are when the test starts. *)

Section Counters.
Context (m : Metrics).

Definition test_metrics_increment : bool :=
  assert_eq (TOTAL_REQUESTS (inc_requests m)) (TOTAL_REQUESTS m + 1).

Definition test_metrics_active_connections : bool :=
  let before := ACTIVE_CONNECTIONS m in
  let m := inc_active_connections m in
  assert_eq (ACTIVE_CONNECTIONS m) (before + 1)
  && assert_eq (ACTIVE_CONNECTIONS (dec_active_connections m)) before.

Definition test_metrics_active_connections_saturates_at_zero : bool :=
  let m := mk_metrics (TOTAL_REQUESTS m) (REQUEST_FAILURES m) 0 (IDLE_CONNECTION_CLOSES m) in
  assert_eq (ACTIVE_CONNECTIONS (dec_active_connections m)) 0.

Definition metrics_tests : list bool :=
  [test_metrics_increment; test_metrics_active_connections;
   test_metrics_active_connections_saturates_at_zero].
End Counters.

(** ** They pass *)

(** The digest the repository records is the SHA-256 of the payload. *)
Lemma known_digest_passes : passes [@hash_payload_v1_has_known_digest fips_crypto].
Proof. apply passes_decide. vm_compute. reflexivity. Qed.

Lemma entry_tests_pass : passes entry_tests.
Proof. apply passes_decide. vm_compute. reflexivity. Qed.

#[local] Existing Instance bench_crypto.

Lemma audit_tests_pass io_text :
  passes (logger_tests 1000 io_text ++ verifier_tests 1000 io_text).
Proof. apply passes_decide. vm_compute. reflexivity. Qed.

Lemma metrics_tests_pass m :
  0 ≤ TOTAL_REQUESTS m < u64_max → 0 ≤ ACTIVE_CONNECTIONS m < u64_max →
  passes (metrics_tests m).
Proof.
  unfold u64_max. intros Ht Ha. suite.
  - unfold test_metrics_increment, assert_eq. apply bool_decide_eq_true. simpl.
    unfold wrapping_add_u64. rewrite Z.mod_small; lia.
  - unfold test_metrics_active_connections, assert_eq.
    assert (ACTIVE_CONNECTIONS (inc_active_connections m) = ACTIVE_CONNECTIONS m + 1) as E.
    { simpl. unfold wrapping_add_u64. rewrite Z.mod_small; lia. }
    apply andb_true_iff. split; apply bool_decide_eq_true; [done|].
    rewrite dec_active_value by (rewrite E; lia). rewrite E. unfold saturating_sub. lia.
  - reflexivity.
Qed.

Lemma after_first_newline p bs :
  Forall (λ b, b ≠ nl) p → after_newline (p ++ nl :: bs) = bs.
Proof.
  induction 1 as [|b p Hb _ IH]; simpl; [done|]. by rewrite bool_decide_eq_false_2.
Qed.

(** What recovery sees of a log that is longer than its window: what follows
    the first newline of the window. *)
Lemma last_entry_hash_window `{C : Crypto} p q line :
  Z.of_nat (length (q ++ nl :: line)) = AUDIT_RECOVERY_WINDOW_BYTES → p ≠ [] →
  Forall (λ b, b ≠ nl) q →
  last_entry_hash (p ++ q ++ nl :: line) true
  = match last_complete_line line with
    | None => Err AuditNoCompleteEntry
    | Some line =>
        if utf8_valid line then recover_entry_hash (str_of line) else Err AuditNonUtf8
    end.
Proof.
  intros Hl Hp Hq. unfold last_entry_hash. rewrite length_app, Nat2Z.inj_add, Hl. simpl negb.
  assert (1 ≤ Z.of_nat (length p)) by (destruct p; simpl; [done|lia]).
  rewrite (proj2 (Z.eqb_neq _ 0)) by (unfold AUDIT_RECOVERY_WINDOW_BYTES; lia).
  unfold saturating_sub. rewrite Z.add_simpl_r, Z.max_r by lia.
  rewrite (proj2 (Z.eqb_neq _ 0)), Nat2Z.id, drop_app_length by lia. simpl negb.
  rewrite after_first_newline by done. by destruct (last_complete_line line).
Qed.

Lemma oversized_test_passes me io_text :
  passes [test_open_rejects_entry_larger_than_recovery_window me io_text].
Proof.
  suite. unfold test_open_rejects_entry_larger_than_recovery_window, open_log, AuditLog.open.
  cbn [negb]. set (data := replicate _ _ ++ [nl]). cbv zeta.
  rewrite (disk_append me _ _ data) by apply lookup_singleton_eq.
  cbn [map_err of_data of_read_ok opened]. subst data.
  assert (∃ n, Z.to_nat (AUDIT_RECOVERY_WINDOW_BYTES + 1) = (2 + n)%nat
            ∧ Z.of_nat n = AUDIT_RECOVERY_WINDOW_BYTES - 1) as (n & -> & Hn).
  { exists (Z.to_nat (AUDIT_RECOVERY_WINDOW_BYTES - 1)).
    unfold AUDIT_RECOVERY_WINDOW_BYTES. lia. }
  rewrite replicate_add, <-app_assoc, (last_entry_hash_window _ _ []).
  - reflexivity.
  - rewrite length_app, length_replicate. simpl. lia.
  - done.
  - apply Forall_replicate. done.
Qed.

(** The two lines of the test of the bounded tail. *)
Definition tail_line : string := (signed_entry_line "tail" ZERO_HASH).1.
Definition tail_hash : string := (signed_entry_line "tail" ZERO_HASH).2.
Definition after_line : string := to_line (seal (log_entry "after") tail_hash).

Definition line_bytes (s : string) : bool :=
  forallb (λ b, negb (bool_decide (b = nl)) && negb (bool_decide (b = cr))) (bytes_of s).

Lemma line_bytes_spec s : line_bytes s = true → Forall (λ b, b ≠ nl ∧ b ≠ cr) (bytes_of s).
Proof.
  intros H. apply Forall_forall. intros b Hb.
  apply forallb_forall with (x := b) in H; [|by apply list_elem_of_In].
  apply andb_true_iff in H as [H1%negb_true_iff%bool_decide_eq_false
                               H2%negb_true_iff%bool_decide_eq_false]. done.
Qed.

Lemma tail_facts :
  line_bytes tail_line = true ∧ line_bytes after_line = true
  ∧ utf8_valid (bytes_of tail_line) = true
  ∧ last_complete_line (bytes_of tail_line ++ [nl]) = Some (bytes_of tail_line)
  ∧ recover_entry_hash tail_line = Ok tail_hash
  ∧ Z.of_nat (length (bytes_of tail_line)) < 1000
  ∧ contains tail_line (quoted "'request_id':'after'") = false
  ∧ contains after_line (quoted "'request_id':'after'") = true
  ∧ line_field after_line "prev_hash" ≫= as_text = Some tail_hash.
Proof. split_and!; vm_compute; reflexivity. Qed.

Lemma signed_tail : signed_entry_line "tail" ZERO_HASH = (tail_line, tail_hash).
Proof. unfold tail_line, tail_hash. by destruct (signed_entry_line "tail" ZERO_HASH). Qed.

Lemma written_after : str_of (print (json_of_entry (seal (log_entry "after") tail_hash)))
  = after_line.
Proof. reflexivity. Qed.

#[local] Opaque tail_line tail_hash after_line.

Lemma contains_replicate n b c needle :
  b ≠ c → contains_bytes (c :: needle) (replicate n b) = false.
Proof.
  intros Hb. induction n as [|n IH]; [done|]. simpl. rewrite IH, orb_false_r.
  apply bool_decide_eq_false. congruence.
Qed.

Lemma bounded_tail_recovered n line hash :
  Z.of_nat n = AUDIT_RECOVERY_WINDOW_BYTES + 10 → Z.of_nat (length (bytes_of line)) < 1000 →
  last_complete_line (bytes_of line ++ [nl]) = Some (bytes_of line) →
  utf8_valid (bytes_of line) = true → recover_entry_hash line = Ok hash →
  last_entry_hash (replicate n (byte_of_Z 0) ++ nl :: bytes_of line ++ [nl]) true = Ok hash.
Proof.
  intros Hn Hl Hc Hu Hr. unfold AUDIT_RECOVERY_WINDOW_BYTES in Hn.
  replace n with ((length (bytes_of line) + 12) + (n - (length (bytes_of line) + 12)))%nat by lia.
  rewrite replicate_add, <-app_assoc, last_entry_hash_window.
  - by rewrite Hc, Hu, str_of_bytes_of.
  - rewrite !length_app, length_replicate. cbn [length]. rewrite length_app. cbn [length].
    unfold AUDIT_RECOVERY_WINDOW_BYTES. lia.
  - by rewrite Nat.add_comm.
  - by apply Forall_replicate.
Qed.

(** The lines of the log after the entry that follows such a tail. *)
Lemma bounded_tail_lines n line after :
  line_bytes line = true → line_bytes after = true →
  lines (str_of ((replicate n (byte_of_Z 0) ++ nl :: bytes_of line ++ [nl])
                 ++ bytes_of after ++ [nl]))
  = [str_of (replicate n (byte_of_Z 0)); line; after].
Proof.
  intros Hl%line_bytes_spec Ha%line_bytes_spec. rewrite <-app_assoc. cbn [app].
  rewrite <-app_assoc. cbn [app].
  rewrite lines_piece by (by apply Forall_replicate). rewrite !lines_piece by done.
  by rewrite !str_of_bytes_of.
Qed.

Lemma bounded_tail_test_passes me : passes [test_open_recovers_hash_from_bounded_tail me].
Proof.
  destruct tail_facts as (Hl & Ha & Hu & Hc & Hr & Hn & Hct & Hca & Hp).
  suite. unfold test_open_recovers_hash_from_bounded_tail, open_log, AuditLog.open.
  rewrite signed_tail. cbv zeta. cbn [negb].
  assert (∃ n, Z.to_nat (AUDIT_RECOVERY_WINDOW_BYTES + 10) = n
            ∧ Z.of_nat n = AUDIT_RECOVERY_WINDOW_BYTES + 10) as (n & -> & Hz).
  { eexists. split; [done|]. unfold AUDIT_RECOVERY_WINDOW_BYTES. lia. }
  rewrite (disk_append me _ _ (replicate n (byte_of_Z 0) ++ nl :: bytes_of tail_line ++ [nl]))
    by apply lookup_singleton_eq.
  cbn [map_err of_data of_read_ok opened].
  rewrite (bounded_tail_recovered n tail_line tail_hash) by assumption.
  unfold log_expect, log, log_file. cbn [expect_ok asserts mbind option_bind lg_state lock unlock
    poisoned guarded negb io_task io_write io_sync au_file au_prev_hash entry_to_string json_serde].
  rewrite written_after.
  cbn [lg_state unlock guarded au_file]. rewrite bounded_tail_lines by assumption. cbn [find].
  rewrite Hct, Hca. unfold contains at 1. rewrite bytes_of_str_of.
  change (bytes_of (quoted _)) with (dquote :: bytes_of "request_id" ++ [dquote; ":"%char; dquote]
    ++ bytes_of "after" ++ [dquote]).
  rewrite contains_replicate by done. cbn [mbind option_bind]. rewrite Hp.
  cbn [mbind option_bind]. unfold assert_eq. by rewrite bool_decide_eq_true_2.
Qed.
