(* ===== verification/TestsAdapters.v ===== *)
(** * Unit tests: adapters

    The tests of adapters: health.rs, client.rs, config_loader.rs and
    registry.rs.  [me] runs the tests and owns their files. *)

From S2P Require Import Prelude RustStd Types SecureFs Attestation Health Json Client AdapterConfig.
From S2P Require Import Registry ErrorText TestBench.
Open Scope Z_scope.

(** ** health.rs *)

Definition health_requires_success_before_degraded (now : Z) : bool :=
  let health := new_health Down now in
  let health1 := record_probe health false now in
  let health2 := record_probe health1 true now in
  let health3 := record_probe health2 false now in
  let health4 := record_probe health3 false now in
  let health5 := record_probe health4 false now in
  assert_eq (status health1) Down && assert_eq (status health2) Up
  && assert_eq (status health3) Degraded && assert_eq (status health4) Degraded
  && assert_eq (status health5) Down.

(** ** client.rs

    The adapter at the other end of the socket is what [Exchange] says of it;
    [to_string] is [serde_json::to_string] of its answer. *)

Section ClientTests.
Context `{W : WireSerde} (me : Z) (to_string : VerificationResult → string).

Definition ones : list byte := replicate 16 (byte_of_Z 1).
Definition nines : list byte := replicate 16 (byte_of_Z 9).

Definition client_request : VerificationRequest :=
  mk_request Client.PROTOCOL_VERSION ones 1000 (replicate 32 (byte_of_Z 2)) 9999.

Definition result_with (id : list byte) (version : Z) : VerificationResult :=
  mk_result version id f32_one Fido2 1234 1000 (replicate 32 (byte_of_Z 2))
    (replicate 32 (byte_of_Z 3)).

Definition test_client (expected_uid : Z) : AdapterClient :=
  mk_client "adapter_a" "/tmp/dir/adapter.sock" expected_uid (secs 1).

Definition serve_response (result : VerificationResult) : Exchange :=
  mk_exchange (Done None) (Some me) (Done true) (Done (Some (Some (to_string result)))).

(** [expect_err] of a call, and what was sent before it failed. *)
Definition verify_err (c : AdapterClient) (ex : Exchange) (p : AdapterError → bool) : bool :=
  err_with p (Client.verify c client_request ex).1.

Definition test_verify_rejects_version_mismatch : bool :=
  verify_err (test_client me) (serve_response (result_with ones 2))
    (λ e, assert_eq e (VersionMismatch 2)).

Definition test_verify_rejects_response_id_mismatch : bool :=
  verify_err (test_client me) (serve_response (result_with nines 1))
    (λ e, assert_eq e IdMismatch).

(** The other end accepts and closes.  That nothing was sent is not asserted
    by the test, but by its name. *)
Definition test_verify_rejects_wrong_adapter_uid_before_sending_nonce : bool :=
  let actual_uid := me in
  let wrong_uid := saturating_add_u32 actual_uid 1 in
  let ex := mk_exchange (Done None) (Some actual_uid) (Done true) (Done None) in
  verify_err (test_client wrong_uid) ex
    (λ e, match e with
          | PeerUidMismatch expected got => (expected =? wrong_uid) && (got =? actual_uid)
          | _ => false
          end)
  && assert_eq (Client.verify (test_client wrong_uid) client_request ex).2 [].

(** The answer comes after the deadline of the request; how long the wait
    took is the timer's. *)
Definition test_verify_uses_one_deadline_for_request : bool :=
  let c := mk_client "adapter_a" "/tmp/dir/adapter.sock" me (millis 100) in
  verify_err c (mk_exchange (Done None) (Some me) (Done true) Elapsed)
    (λ e, assert_eq e Timeout).

Definition client_tests : list bool :=
  [test_verify_rejects_version_mismatch; test_verify_rejects_response_id_mismatch;
   test_verify_rejects_wrong_adapter_uid_before_sending_nonce;
   test_verify_uses_one_deadline_for_request].
End ClientTests.

(** ** config_loader.rs

    [write_config] and what TOML says of the document it writes. *)

Definition config_toml (methods timeout_ms : string) : string :=
  quoted ("
name = 'adapter_a'
socket_path = '/tmp/adapter_a.sock'
expected_uid = 1000
methods = " +:+ methods +:+ "
timeout_ms = " +:+ timeout_ms +:+ "
").

Definition config_of (name : string) (methods : list string) (timeout_ms : Z) : AdapterConfig :=
  mk_config name ("/tmp/" +:+ name +:+ ".sock") 1000 methods timeout_ms.

(** [write_config] of registry.rs *)
Definition registry_toml (name methods : string) : string :=
  quoted ("name = '" +:+ name +:+ "'
socket_path = '/tmp/" +:+ name +:+ ".sock'
expected_uid = 1000
methods = [" +:+ methods +:+ "]
timeout_ms = 1000
").

Definition adapter_documents : list (string * AdapterConfig) :=
  [(config_toml "['fido2']" "1000", config_of "adapter_a" ["fido2"] 1000);
   (config_toml "['pin']" "1000", config_of "adapter_a" ["pin"] 1000);
   (registry_toml "adapter_a" "'fido2'", config_of "adapter_a" ["fido2"] 1000);
   (registry_toml "adapter_b" "'fido2'", config_of "adapter_b" ["fido2"] 1000);
   (registry_toml "adapter_a" "'pin'", config_of "adapter_a" ["pin"] 1000);
   (registry_toml "adapter_b" "'pin'", config_of "adapter_b" ["pin"] 1000)].

(** A reader of these documents. *)
Definition toml_table {A} (documents : list (string * A)) (s : string) : option A :=
  '(_, (_, a)) ← list_find (λ d, d.1 = s) documents; Some a.

Section Configs.
Context (me : Z) (toml : string → option AdapterConfig).
Context (io_text : IoKind → string) (toml_text : string).

Definition temp_dir : string := "/tmp/dir".

(** [load_adapter_configs] of a directory with the files [names]. *)
Definition load_dir (d : Disk) (names : list string) (strict : bool)
  : result (list AdapterConfig) ConfigError :=
  load_adapter_configs toml (disk_fs me d) me temp_dir RootOrCurrent true (listing names) strict.

Definition load_err (needle : string) (r : result (list AdapterConfig) ConfigError) : bool :=
  err_with (λ e, contains (config_error_text io_text toml_text e) needle) r.

Definition test_rejects_symlink_config : bool :=
  let d : Disk :=
    {["/tmp/dir/real.conf" := written me (config_toml "['fido2']" "1000");
      "/tmp/dir/link.toml" := NSymlink]} in
  load_err "safely open adapter config" (load_dir d ["real.conf"; "link.toml"] true).

Definition test_rejects_world_writable_config : bool :=
  let d : Disk :=
    {["/tmp/dir/bad.toml" := NFile 438 me (bytes_of (config_toml "['fido2']" "1000"))]} in
  load_err "group/world writable" (load_dir d ["bad.toml"] true).

(** The configuration the document describes is rejected with a text. *)
Definition invalid_config (cfg : AdapterConfig) (needle : string) : bool :=
  err_with (λ v, contains (config_violation io_text toml_text v) needle)
    (validate_adapter_config cfg).

Definition test_rejects_empty_methods : bool :=
  invalid_config (mk_config "adapter_a" "/tmp/adapter_a.sock" 1000 [] 1000)
    "methods must not be empty".

Definition test_rejects_invalid_adapter_name : bool :=
  invalid_config (mk_config "bad name" "/tmp/adapter_a.sock" 1000 ["fido2"] 1000) "adapter name".

Definition large_config : Disk :=
  {["/tmp/dir/large.toml"
    := NFile 420 me (replicate (Z.to_nat (MAX_ADAPTER_CONFIG_BYTES + 1)) "x"%char)]}.

Definition test_rejects_large_config_file : bool :=
  load_err "too large" (load_dir large_config ["large.toml"] true).

Definition test_rejects_empty_method_entry : bool :=
  invalid_config (mk_config "adapter_a" "/tmp/adapter_a.sock" 1000 [" "] 1000)
    "leading or trailing whitespace".

Definition test_rejects_reserved_any_method : bool :=
  invalid_config (mk_config "adapter_a" "/tmp/adapter_a.sock" 1000 ["any"] 1000) "reserved".

Definition test_rejects_timeout_too_low : bool :=
  invalid_config (mk_config "adapter_a" "/tmp/adapter_a.sock" 1000 ["fido2"] 50)
    "timeout_ms must be between 100 and 30000".

(** A file others may write to, and a good one. *)
Definition bad_and_good : Disk :=
  {["/tmp/dir/bad.toml" := NFile 438 me (bytes_of (config_toml "['fido2']" "1000"));
    "/tmp/dir/good.toml" := written me (config_toml "['pin']" "1000")]}.

Definition test_dev_mode_skips_bad_file_and_loads_good : bool :=
  ok_with (λ loaded, match loaded with
                     | [c] => assert_eq (ac_methods c) ["pin"]
                     | _ => false
                     end)
    (load_dir bad_and_good ["bad.toml"; "good.toml"] false).

Definition test_prod_mode_requires_config_directory_and_files : bool :=
  load_err "does not exist"
    (load_adapter_configs toml (disk_fs me ∅) me "/tmp/dir/missing" RootOrCurrent false None true)
  && load_err "contains no adapter configs"
       (load_adapter_configs toml (disk_fs me ∅) me "/tmp/dir/empty" RootOrCurrent true
          (listing []) true).

Definition test_prod_mode_fails_on_any_bad_file : bool :=
  load_err "group/world writable" (load_dir bad_and_good ["bad.toml"; "good.toml"] true).

Definition config_tests : list bool :=
  [test_rejects_symlink_config; test_rejects_world_writable_config; test_rejects_empty_methods;
   test_rejects_invalid_adapter_name; test_rejects_empty_method_entry;
   test_rejects_reserved_any_method; test_rejects_timeout_too_low;
   test_dev_mode_skips_bad_file_and_loads_good;
   test_prod_mode_requires_config_directory_and_files; test_prod_mode_fails_on_any_bad_file].

(** ** registry.rs *)

(** [load_from_dir] of a directory with the configurations [files], at [now];
    the monitor has marked every adapter as down and probed none. *)
Definition load_registry (files : list (string * string)) (now : Z)
  : result (AdapterRegistry * Mutex (gmap string AdapterHealth)) RegistryError :=
  let d : Disk :=
    list_to_map ((λ f, ("/tmp/dir/" +:+ f.1, NFile 420 me (bytes_of f.2))) <$> files) in
  let? registry :=
    load_from_dir_with_owner toml (disk_fs me d) me temp_dir true (listing files.*1) true
      RootOrCurrent in
  Ok (registry, initial_health (rg_adapter_names registry) now).

Definition mark_adapter (health : Mutex (gmap string AdapterHealth)) (name : string)
    (st : HealthStatus) (now : Z) : Mutex (gmap string AdapterHealth) :=
  match lock health with
  | None => health
  | Some map =>
      unlock (<[name := mk_health st 0 now (if bool_decide (st = Up) then Some now else None)]>
                map)
  end.

Context (now : Z).

Definition rejects_duplicate_method_ownership : bool :=
  err_with (λ e, contains (registry_error_text io_text toml_text e)
                   "duplicate adapter method fido2")
    (load_registry [("a.toml", registry_toml "adapter_a" "'fido2'");
                    ("b.toml", registry_toml "adapter_b" "'fido2'")] now).

Definition rejects_duplicate_adapter_names : bool :=
  err_with (λ e, contains (registry_error_text io_text toml_text e)
                   "duplicate adapter name adapter_a")
    (load_registry [("a.toml", registry_toml "adapter_a" "'fido2'");
                    ("b.toml", registry_toml "adapter_a" "'pin'")] now).

Definition resolves_any_once_with_timeout : bool :=
  ok_with (λ loaded,
      let '(registry, health) := loaded in
      let health := mark_adapter health "adapter_a" Up now in
      let health := mark_adapter health "adapter_b" Up now in
      ok_with (λ resolved, assert_eq (ra_method resolved) "fido2"
                           && assert_eq (ra_adapter_name resolved) "adapter_a"
                           && (ra_timeout_ms resolved =? 1000))
        (resolve registry health "any"))
    (load_registry [("b.toml", registry_toml "adapter_b" "'pin'");
                    ("a.toml", registry_toml "adapter_a" "'fido2'")] now).

Definition methods_start_unavailable_until_health_succeeds : bool :=
  ok_with (λ loaded,
      let '(registry, health) := loaded in
      let up := mark_adapter health "adapter_a" Up now in
      assert_eq (available_methods registry health) []
      && is_err (resolve registry health "any")
      && assert_eq (available_methods registry up) ["fido2"]
      && ok_with (λ resolved, assert_eq (ra_method resolved) "fido2") (resolve registry up "any"))
    (load_registry [("a.toml", registry_toml "adapter_a" "'fido2'")] now).

(** The permit and the exchange do not matter. *)
Definition dispatch_rejects_until_health_succeeds `{W : WireSerde} (permit : Timed bool)
    (ex : Exchange) : bool :=
  ok_with (λ loaded,
      let '(registry, health) := loaded in
      ok_with (λ resolved,
          err_with (λ e, match e with
                         | AdapterDown name => assert_eq name "adapter_a"
                         | _ => false
                         end)
            (dispatch_resolved health resolved
               (mk_request 1 ones 1000 (replicate 32 (byte_of_Z 2)) 9999) permit ex).1)
        (resolve registry health "fido2"))
    (load_registry [("a.toml", registry_toml "adapter_a" "'fido2'")] now).

Definition registry_tests : list bool :=
  [rejects_duplicate_method_ownership; rejects_duplicate_adapter_names;
   resolves_any_once_with_timeout; methods_start_unavailable_until_health_succeeds].
End Configs.

(** ** They pass *)

Lemma health_test_passes now : passes [health_requires_success_before_degraded now].
Proof. apply passes_decide. reflexivity. Qed.

(** Whatever writes the request and reads back the two answers, for every user
    but the one whose uid the next would not fit. *)
Lemma client_tests_pass `{W : WireSerde} me to_string json :
  0 ≤ me < u32_max →
  request_to_string client_request = Some json →
  result_from_str (to_string (result_with ones 2)) = Some (result_with ones 2) →
  result_from_str (to_string (result_with nines 1)) = Some (result_with nines 1) →
  passes (client_tests me to_string).
Proof.
  intros Hme Hj H2 H9.
  assert (∀ ex, ex_connect ex = Done None → ex_peer_uid ex = Some me → ex_send ex = Done true →
    (Client.verify (test_client me) client_request ex).1
    = check_response client_request ex) as Hv.
  { intros ex Hc Hu Hs. unfold Client.verify.
    rewrite (proj2 (connect_checked_Ok (test_client me) ex)) by done. rewrite Hj, Hs. done. }
  suite.
  - unfold test_verify_rejects_version_mismatch, verify_err. rewrite Hv by done.
    unfold check_response. cbn [await serve_response ex_next ok_or]. by rewrite H2.
  - unfold test_verify_rejects_response_id_mismatch, verify_err. rewrite Hv by done.
    unfold check_response. cbn [await serve_response ex_next ok_or]. by rewrite H9.
  - unfold test_verify_rejects_wrong_adapter_uid_before_sending_nonce, verify_err, Client.verify,
      connect_checked. cbn [await ex_connect ex_peer_uid ok_or cl_expected_uid test_client].
    assert (saturating_add_u32 me 1 = me + 1) as -> by (unfold saturating_add_u32; lia).
    rewrite (proj2 (Z.eqb_neq me (me + 1))) by lia. simpl. by rewrite !Z.eqb_refl.
  - unfold test_verify_uses_one_deadline_for_request, verify_err, Client.verify.
    rewrite (proj2 (connect_checked_Ok _ _)) by done. by rewrite Hj.
Qed.

Lemma adapter_tests_pass io_text toml_text :
  let toml := toml_table adapter_documents in
  passes (config_tests 1000 toml io_text toml_text
          ++ registry_tests 1000 toml io_text toml_text 0).
Proof. apply passes_decide. vm_compute. reflexivity. Qed.

Lemma dispatch_test_passes `{W : WireSerde} permit ex :
  passes [dispatch_rejects_until_health_succeeds 1000 (toml_table adapter_documents) 0 permit ex].
Proof. apply passes_decide. vm_compute. reflexivity. Qed.

Lemma large_config_refused me :
  read_secure_to_string (disk_fs me (large_config me)) me "/tmp/dir/large.toml"
    (config_spec RootOrCurrent)
  = Err (TooLarge "adapter config" "/tmp/dir/large.toml" 65537 65536).
Proof.
  assert (∃ n, Z.to_nat (MAX_ADAPTER_CONFIG_BYTES + 1) = n ∧ Z.of_nat n = 65537) as (n & En & Hn).
  { eexists. split; [done|]. unfold MAX_ADAPTER_CONFIG_BYTES. lia. }
  unfold large_config. rewrite En. clear En.
  unfold read_secure_to_string, open_secure_read. cbn [disk_fs fs_open_read].
  unfold disk_open_read. rewrite lookup_singleton_eq. cbn [map_err].
  unfold validate_open_file, opened. rewrite length_replicate, Hn. reflexivity.
Qed.

Lemma large_config_test_passes me toml io_text toml_text :
  passes [test_rejects_large_config_file me toml io_text toml_text].
Proof.
  suite. unfold test_rejects_large_config_file, load_err, load_dir, load_adapter_configs.
  cbn [negb listing ok_or fmap list_fmap load_entries].
  unfold load_entry. cbn [de_name].
  change (entry_path temp_dir (bytes_of "large.toml")) with "/tmp/dir/large.toml".
  rewrite large_config_refused. reflexivity.
Qed.
