(* ===== verification/TestsEnds.v ===== *)
(** * Unit tests: configuration, systemd, PAM module, demonstration adapter

    The tests of config.rs and ipc/systemd.rs, of crates/pam-ola (lib.rs and
    unix_connect.rs) and of crates/ola-adapter-demo-fido2. *)

From S2P Require Import Prelude RustStd Types SecureFs Attestation AuditEntry AuditLog Json Client.
From S2P Require Import Config Systemd Socket Server UnixConnect Pam DemoAdapter.
From S2P Require Import ErrorText Sha256 JsonText TestBench.
Open Scope Z_scope.

(** ** config.rs: the guards on the environment *)

Definition OLA_ENV_KEYS : list string :=
  ["OLA_RUNMODE"; "OLA_SOCKET_PATH"; "OLA_DRAIN_SECS"; "OLA_SHUTDOWN_TIMEOUT";
   "OLA_CLIENT_IDLE_TIMEOUT_SECS"; "OLA_ALLOWLIST_PATH"; "OLA_ADAPTERS_DIR"; "OLA_POLICY_PATH";
   "OLA_AUDIT_LOG_PATH"; "OLA_ADAPTER_KEYS_DIR"; "OLA_MAX_RESULT_AGE_SECS";
   "OLA_REQUIRE_ATTESTATION"].

Abbreviation Environ := (string → EnvVar) (only parsing).

Record EnvGuard := mk_guard { eg_key : string; eg_old_value : option string }.

(** [env::set_var] and [env::remove_var] *)
Definition put_var (key : string) (value : option string) (env : Environ) : Environ :=
  λ k, if bool_decide (k = key)
       then match value with Some v => EnvSet v | None => NotPresent end
       else env k.

(** [env::var(key).ok()] *)
Definition var_ok (v : EnvVar) : option string := match v with EnvSet s => Some s | _ => None end.

Definition guard_set (key value : string) (env : Environ) : EnvGuard * Environ :=
  (mk_guard key (var_ok (env key)), put_var key (Some value) env).

Definition guard_remove (key : string) (env : Environ) : EnvGuard * Environ :=
  (mk_guard key (var_ok (env key)), put_var key None env).

Definition guard_drop (env : Environ) (g : EnvGuard) : Environ :=
  put_var (eg_key g) (eg_old_value g) env.

Fixpoint remove_all (keys : list string) (env : Environ) : list EnvGuard * Environ :=
  match keys with
  | [] => ([], env)
  | key :: keys =>
      let '(g, env) := guard_remove key env in
      let '(gs, env) := remove_all keys env in (g :: gs, env)
  end.

Definition clean_ola_env (env : Environ) : list EnvGuard * Environ :=
  remove_all OLA_ENV_KEYS env.

(** Several [EnvGuard::set] in a row. *)
Fixpoint set_all (vars : list (string * string)) (env : Environ) : list EnvGuard * Environ :=
  match vars with
  | [] => ([], env)
  | (key, value) :: vars =>
      let '(g, env) := guard_set key value env in
      let '(gs, env) := set_all vars env in (g :: gs, env)
  end.

(** The variables during a test, and after it: the guards on single variables
    go in the reverse of their order, then the vector of the others from its
    first. *)
Definition env_during (vars : list (string * string)) (env : Environ) : Environ :=
  (set_all vars (clean_ola_env env).2).2.

Definition env_after (vars : list (string * string)) (env : Environ) : Environ :=
  let '(cleaned, env) := clean_ola_env env in
  let '(guards, env) := set_all vars env in
  foldl guard_drop (foldl guard_drop env (rev guards)) cleaned.

(** ** config.rs: [env] is the environment the tests find. *)

Section Environment.
Context (env : Environ).

Definition config_with (vars : list (string * string)) : result Config EnvError :=
  from_env (env_during vars env).

Definition config_err (needle : string) (r : result Config EnvError) : bool :=
  err_with (λ e, contains (env_error_text e) needle) r.

Definition test_config_defaults : bool :=
  ok_with (λ config,
      assert_eq (socket_path config) DEFAULT_SOCKET_PATH
      && assert_eq (run_mode config) "prod"
      && assert_eq (drain_secs config) DEFAULT_DRAIN_SECS
      && assert_eq (client_idle_timeout_secs config) DEFAULT_CLIENT_IDLE_TIMEOUT_SECS
      && assert_eq (allowlist_path config) DEFAULT_ALLOWLIST_PATH)
    (config_with []).

Definition test_config_custom_values : bool :=
  ok_with (λ config,
      assert_eq (socket_path config) "/tmp/test.sock"
      && assert_eq (run_mode config) "dev"
      && assert_eq (drain_secs config) 10
      && assert_eq (client_idle_timeout_secs config) 9
      && assert_eq (allowlist_path config) "/tmp/allowlist")
    (config_with [("OLA_RUNMODE", "dev"); ("OLA_SOCKET_PATH", "/tmp/test.sock");
                  ("OLA_DRAIN_SECS", "10"); ("OLA_ALLOWLIST_PATH", "/tmp/allowlist");
                  ("OLA_CLIENT_IDLE_TIMEOUT_SECS", "9")]).

Definition test_config_invalid_runmode : bool :=
  config_err "Invalid OLA_RUNMODE" (config_with [("OLA_RUNMODE", "invalid")]).

Definition test_config_backward_compat_shutdown_timeout : bool :=
  ok_with (λ config, assert_eq (drain_secs config) 7)
    (config_with [("OLA_RUNMODE", "prod"); ("OLA_SHUTDOWN_TIMEOUT", "7")]).

Definition test_config_drain_secs_priority : bool :=
  ok_with (λ config, assert_eq (drain_secs config) 5)
    (config_with [("OLA_RUNMODE", "prod"); ("OLA_DRAIN_SECS", "5");
                  ("OLA_SHUTDOWN_TIMEOUT", "10")]).

Definition test_config_invalid_drain_secs : bool :=
  config_err "OLA_DRAIN_SECS"
    (config_with [("OLA_RUNMODE", "prod"); ("OLA_DRAIN_SECS", "not_a_number")]).

Definition test_config_invalid_client_idle_timeout_secs : bool :=
  config_err "OLA_CLIENT_IDLE_TIMEOUT_SECS"
    (config_with [("OLA_RUNMODE", "prod"); ("OLA_CLIENT_IDLE_TIMEOUT_SECS", "0")]).

Definition test_config_invalid_max_result_age_secs : bool :=
  config_err "OLA_MAX_RESULT_AGE_SECS"
    (config_with [("OLA_RUNMODE", "prod"); ("OLA_MAX_RESULT_AGE_SECS", "not_a_number")]).

Definition test_config_helpers : bool :=
  ok_with (λ config, assert_eq (run_mode config) "dev" && negb (is_prod_mode config))
    (config_with [("OLA_RUNMODE", "dev")]).

Definition env_tests : list bool :=
  [test_config_defaults; test_config_custom_values; test_config_invalid_runmode;
   test_config_backward_compat_shutdown_timeout; test_config_drain_secs_priority;
   test_config_invalid_drain_secs; test_config_invalid_client_idle_timeout_secs;
   test_config_invalid_max_result_age_secs; test_config_helpers].
End Environment.

(** ** systemd.rs *)

Definition notify_addr_supports_abstract_socket : bool :=
  ok_with (λ '(sun_path, len),
      assert_eq (sun_path !! 0%nat) (Some (byte_of_Z 0))
      && assert_eq (sun_path !! 1%nat) (Some "o"%char)
      && (len =? FAMILY_LEN + 1 + Z.of_nat (String.length "ola-notify")))
    (notify_addr "@ola-notify").

Definition notify_addr_supports_path_socket : bool :=
  ok_with (λ '(sun_path, len),
      assert_eq (sun_path !! 0%nat) (Some "/"%char)
      && (len =? FAMILY_LEN + Z.of_nat (String.length "/run/systemd/notify") + 1))
    (notify_addr "/run/systemd/notify").

Definition systemd_tests : list bool :=
  [notify_addr_supports_abstract_socket; notify_addr_supports_path_socket].

(** ** pam-ola: lib.rs *)

(** [parse_args] of the tests: an argument vector of C strings. *)
Definition pam_args (args : list string) : result PamOlaConfig string :=
  parse_argv (Some ((λ a, Some (bytes_of a)) <$> args)).

Definition argv_overrides_defaults : bool :=
  ok_with (λ config, assert_eq (pc_socket_path config) "/tmp/ola-test.sock"
                     && assert_eq (pc_method config) "pin"
                     && (pc_timeout_ms config =? 123))
    (pam_args ["socket=/tmp/ola-test.sock"; "method=pin"; "timeout_ms=123"]).

Definition is_ascii_hexdigit (b : byte) : bool :=
  is_ascii_digit b || in_range 97 102 b || in_range 65 70 b.

(** [random1] and [random2] are what the two calls draw. *)
Definition request_ids_are_random_hex (random1 random2 : list byte) : bool :=
  match request_id (Some random1), request_id (Some random2) with
  | Ok first, Ok second =>
      assert_eq (take 4 (bytes_of first)) (bytes_of "pam-")
      && assert_eq (String.length first) 36%nat
      && forallb is_ascii_hexdigit (drop 4 (bytes_of first))
      && negb (assert_eq first second)
  | _, _ => false
  end.

Definition argv_accepts_defaults_without_args : bool :=
  ok_with (λ config, assert_eq (pc_socket_path config) PAM_DEFAULT_SOCKET_PATH
                     && assert_eq (pc_method config) PAM_DEFAULT_METHOD
                     && (pc_timeout_ms config =? DEFAULT_TIMEOUT_MS))
    (parse_argv None).

Definition argv_rejects_invalid_method : bool := is_err (pam_args ["method=two words"]).

Definition argv_rejects_invalid_timeout : bool :=
  forallb (λ arg, is_err (pam_args [arg]))
    ["timeout_ms=nope"; "timeout_ms=99"; "timeout_ms=30001"].

Definition argv_rejects_unknown_arg : bool :=
  err_with (λ e, assert_eq e "unknown PAM argument: socket_path")
    (pam_args ["socket_path=/tmp/ola.sock"]).

#[global] Instance AuthOutcome_eq_dec : EqDecision AuthOutcome.
Proof. solve_decision. Defined.

Section Module.
Context `{W : WireSerde}.

Definition response_allow_maps_to_allow : bool :=
  let response :=
    quoted "{'version':1,'id':'x','result':{'decision':'allow'},'error':null}" in
  assert_eq (interpret_response response "x") AoAllow.

Definition response_deny_maps_to_deny : bool :=
  let response :=
    quoted "{'version':1,'id':'x','result':{'decision':'deny','deny_reason':'low'},'error':null}" in
  assert_eq (interpret_response response "x") (AoDeny "low").

Definition response_rejects_version_mismatch : bool :=
  let response :=
    quoted "{'version':2,'id':'x','result':{'decision':'allow'},'error':null}" in
  assert_eq (interpret_response response "x") (AoError "protocol version mismatch").

Definition response_rejects_id_mismatch : bool :=
  let response :=
    quoted "{'version':1,'id':'other','result':{'decision':'allow'},'error':null}" in
  assert_eq (interpret_response response "x") (AoError "response id mismatch").

Definition pam_return_codes_keep_deny_and_error_distinct : bool :=
  (pam_return_for_outcome AoAllow =? PAM_SUCCESS)
  && (pam_return_for_outcome (AoDeny "low") =? PAM_PERM_DENIED)
  && (pam_return_for_outcome (AoError "socket") =? PAM_AUTH_ERR).

(** A null handle and no arguments, whatever the rest of the system says. *)
Definition pam_authenticate_fails_closed_without_user (rc : Z) (user : option (list byte))
    (getpw : string → Z → Z * option Z) (io : PamIo) : bool :=
  assert_eq (pam_sm_authenticate false (mk_pam_call true None rc user getpw io))
    (Some PAM_USER_UNKNOWN).

(** The thread at the other end: the assertions on the line it reads, and its
    answer. *)
Definition server_asserts (line : string) : bool :=
  match read_line (mk_stream (bytes_of line) true) with
  | Err _ => false
  | Ok line =>
      match value_from_str line with
      | None => false
      | Some req =>
          eq_str (get req "method") "verify_once"
          && eq_str (get (get req "params") "method") "fido2"
          && eq_uint (get (get req "params") "uid") 1000
      end
  end.

Definition server_answer (line : string) : ByteStream :=
  match value_from_str (trim line) with
  | None => mk_stream [] true
  | Some req =>
      mk_stream (bytes_of (quoted "{'version':1,'id':" +:+ value_to_string (get req "id")
                           +:+ quoted ",'result':{'decision':'allow','method':'fido2'},'error':null}")
                 ++ [nl]) true
  end.

Definition sent_line (random : list byte) : string :=
  value_to_string (pam_request ("pam-" +:+ encode_hex random) (pam_params "fido2" (Some 1000)))
  +:+ str_of [nl].

Definition authenticate_sends_verify_once (random : list byte) : bool :=
  let config := mk_pam_config "/tmp/dir/core.sock" "fido2" 1000 in
  let io := mk_pam_io (mk_connect_io true (Ok tt) [] true) true true (Some random) true
              server_answer in
  assert_eq (authenticate config (Some 1000) io) (Some AoAllow)
  && server_asserts (sent_line random).

Definition module_tests (random : list byte) : list bool :=
  [response_allow_maps_to_allow; response_deny_maps_to_deny; response_rejects_version_mismatch;
   response_rejects_id_mismatch; pam_return_codes_keep_deny_and_error_distinct;
   authenticate_sends_verify_once random].
End Module.

Definition argv_tests : list bool :=
  [argv_overrides_defaults; argv_accepts_defaults_without_args; argv_rejects_invalid_method;
   argv_rejects_invalid_timeout; argv_rejects_unknown_arg].

(** ** pam-ola: unix_connect.rs *)

Definition bad_path : string := str_of (bytes_of "bad" ++ [Ascii.zero] ++ bytes_of "path").

Definition unix_addr_rejects_invalid_paths : bool :=
  is_err (unix_addr EmptyString) && is_err (unix_addr bad_path).

(** [passed] is the time from the test's reading of the clock to the call's. *)
Definition poll_timeout_uses_remaining_deadline (passed : Z) : bool :=
  match poll_timeout_ms (millis 50 + passed) (millis 100) with
  | Some timeout_ms => (1 <=? timeout_ms) && (timeout_ms <=? 50)
  | None => false
  end
  && bool_decide (poll_timeout_ms (millis 100 + passed) (millis 1) = None).

(** ** ola-adapter-demo-fido2 *)

Section Demo.
Context `{C : Crypto}.

Definition method_commitments_match_core_contract : bool :=
  let expected := sha256 (bytes_of "fido2") in
  assert_eq (demo_method_commitment "fido2") expected
  && negb (assert_eq (demo_method_commitment "custom_a") (demo_method_commitment "custom_b")).

Definition evidence_hash_changes_when_uid_changes : bool :=
  let key := replicate 32 (byte_of_Z 7) in
  let nonce := replicate 32 (byte_of_Z 9) in
  let a := evidence_hash key nonce 1000 "fido2" f32_one 1234 in
  let b := evidence_hash key nonce 1001 "fido2" f32_one 1234 in
  negb (assert_eq a b).
End Demo.

Definition key_error_says (path : string) (e : DemoError) : string :=
  match e with
  | DmKeySymlink => "key " +:+ path +:+ " must not be a symlink"
  | DmKeyMetadata => "reading key metadata " +:+ path
  | DmKeyOpen => "opening key " +:+ path
  | DmKeyNotRegular => "key " +:+ path +:+ " must be a regular file"
  | DmKeyMode => "key " +:+ path +:+ " must not be group/world accessible"
  | DmKeyRead => "reading key " +:+ path
  | _ => "key " +:+ path +:+ " must be exactly 32 bytes"
  end.

(** [symlink_metadata] of the link says so; it is not opened. *)
Definition load_key_rejects_symlink (me : Z) : bool :=
  let d : Disk :=
    {["/tmp/dir/key" := NFile 384 me (replicate 32 (byte_of_Z 1)); "/tmp/dir/link" := NSymlink]} in
  let is_symlink path := match d !! path with
                         | Some NSymlink => Some true
                         | Some _ => Some false
                         | None => None
                         end in
  err_with (λ e, contains (key_error_says "/tmp/dir/link" e) "symlink")
    (load_key (is_symlink "/tmp/dir/link") (disk_open_read d "/tmp/dir/link")).

Definition stale_error_says (path : string) (io_text : IoKind → string) (e : SocketError)
  : string :=
  match e with
  | SeStat _ => "checking " +:+ path
  | SeSymlink => "socket path " +:+ path +:+ " is a symlink"
  | SeNotSocket => "socket path " +:+ path +:+ " exists but is not a Unix socket"
  | SeInUse => "socket path " +:+ path +:+ " is already in use"
  | SeNotAccessible =>
      "socket path " +:+ path +:+ " is not accessible: " +:+ io_text IoPermissionDenied
  | _ => "removing stale socket " +:+ path
  end.

(** A listener is bound: the path is a socket and connecting succeeds. *)
Definition remove_stale_socket_refuses_active_listener (io_text : IoKind → string)
    (unlink : bool) : bool :=
  let '(r, removed) := demo_remove_stale_socket (Ok FtSocket) (Ok tt) unlink in
  err_with (λ e, contains (stale_error_says "/tmp/dir/adapter.sock" io_text e) "already in use") r
  && negb removed.

(** ** They pass *)

(** A guard puts back what it found, unless that was no text. *)
Lemma guard_set_drop key value env env' :
  env key ≠ NotUnicode → (∀ k, env' k = put_var key (Some value) env k) →
  ∀ k, guard_drop env' (guard_set key value env).1 k = env k.
Proof.
  intros Hu He k. unfold guard_drop, guard_set, put_var in *. cbn [fst eg_key eg_old_value].
  specialize (He k). case_bool_decide; [subst k|done]. by destruct (env key).
Qed.

Lemma set_all_drop vars : ∀ env,
  (∀ k, env k ≠ NotUnicode) →
  ∀ k, foldl guard_drop (set_all vars env).2 (rev (set_all vars env).1) k = env k.
Proof.
  induction vars as [|[key value] vars IH]; intros env Hu k; [done|]. simpl.
  specialize (IH (put_var key (Some value) env)).
  destruct (set_all vars (put_var key (Some value) env)) as [gs env2]. simpl in *.
  rewrite foldl_snoc. apply guard_set_drop with (value := value); [done|]. intros k'. apply IH.
  intros k2. unfold put_var. by case_bool_decide.
Qed.

Lemma remove_all_spec keys : NoDup keys → ∀ env,
  (remove_all keys env).1 = (λ k, mk_guard k (var_ok (env k))) <$> keys
  ∧ ∀ k, (remove_all keys env).2 k = if bool_decide (k ∈ keys) then NotPresent else env k.
Proof.
  induction 1 as [|key keys Hk _ IH]; intros env; [done|]. simpl.
  destruct (IH (put_var key None env)) as [H1 H2].
  destruct (remove_all keys (put_var key None env)) as [gs env2]. simpl in *. subst gs. split.
  - f_equal. apply list_fmap_ext. intros i x Hx%list_elem_of_lookup_2. unfold put_var.
    rewrite bool_decide_eq_false_2; [done|]. by intros ->.
  - intros k. rewrite H2. unfold put_var. repeat case_bool_decide; set_solver.
Qed.

Lemma drop_all_spec (old : string → option string) keys : ∀ env k,
  foldl guard_drop env ((λ k, mk_guard k (old k)) <$> keys) k
  = if bool_decide (k ∈ keys)
    then match old k with Some v => EnvSet v | None => NotPresent end else env k.
Proof.
  induction keys as [|key keys IH]; intros env k; [done|]. simpl. rewrite IH.
  unfold guard_drop, put_var. simpl. repeat case_bool_decide; set_solver.
Qed.

(** The tests leave the environment as they found it, if its variables are
    texts. *)
Lemma env_restored vars env :
  (∀ k, env k ≠ NotUnicode) → ∀ k, env_after vars env k = env k.
Proof.
  intros Hu k. unfold env_after, clean_ola_env.
  destruct (remove_all_spec OLA_ENV_KEYS ltac:(vm_compute; repeat constructor; set_solver) env)
    as [H1 H2].
  destruct (remove_all OLA_ENV_KEYS env) as [cleaned env1]. cbn [fst snd] in *.
  subst cleaned.
  assert (∀ k, env1 k ≠ NotUnicode) as Hu1 by (intros k'; rewrite H2; by case_bool_decide).
  pose proof (set_all_drop vars env1 Hu1) as H3.
  destruct (set_all vars env1) as [gs env2]. cbn [fst snd] in *.
  rewrite (drop_all_spec (λ k, var_ok (env k))), H3, H2.
  case_bool_decide; [|done]. specialize (Hu k). by destruct (env k).
Qed.

Lemma env_tests_pass env : passes (env_tests env).
Proof. apply passes_decide. vm_compute. reflexivity. Qed.

Lemma plain_tests_pass :
  passes (systemd_tests ++ argv_tests ++ [unix_addr_rejects_invalid_paths]).
Proof. apply passes_decide. vm_compute. reflexivity. Qed.

Lemma module_tests_pass : passes (@module_tests json_wire (le_bytes 16 123456789)).
Proof. apply passes_decide. vm_compute. reflexivity. Qed.

Lemma null_handle_test_passes `{W : WireSerde} rc user getpw io :
  passes [pam_authenticate_fails_closed_without_user rc user getpw io].
Proof. apply passes_decide. reflexivity. Qed.

Lemma demo_tests_pass me io_text unlink :
  passes [@method_commitments_match_core_contract fips_crypto;
          @evidence_hash_changes_when_uid_changes fips_crypto; load_key_rejects_symlink me;
          remove_stale_socket_refuses_active_listener io_text unlink].
Proof. apply passes_decide. vm_compute. reflexivity. Qed.

Lemma poll_test_passes passed :
  0 ≤ passed < millis 50 → passes [poll_timeout_uses_remaining_deadline passed].
Proof.
  intros Hp. suite. unfold poll_timeout_uses_remaining_deadline, poll_timeout_ms, millis in *.
  rewrite (proj2 (Z.ltb_ge _ _)), (proj2 (Z.eqb_neq _ 0)), (proj2 (Z.ltb_lt _ _)) by lia.
  assert ((100 * 1000000 - (50 * 1000000 + passed)) / 1000000 ≤ 50) as Hq.
  { apply Z.div_le_upper_bound; lia. }
  apply andb_true_iff. split; [|done]. apply andb_true_iff.
  split; apply Z.leb_le; [|apply Z.max_lub; [done|]; etrans; [apply Z.le_min_l|exact Hq]].
  apply Z.le_max_l.
Qed.

(** Hexadecimal text: two digits for a byte. *)
Lemma encode_hex_digits bs :
  length (bytes_of (encode_hex bs)) = (2 * length bs)%nat
  ∧ forallb is_ascii_hexdigit (bytes_of (encode_hex bs)) = true.
Proof.
  unfold encode_hex. rewrite bytes_of_str_of.
  induction bs as [|b bs [IH1 IH2]]; [done|]. rewrite fmap_cons, concat_cons.
  destruct (shiftr_land b) as [-> ->], (nibbles b) as [Hd Hm].
  apply hex_digit_lower in Hd, Hm. split; [simpl in *; lia|].
  cbn [app forallb]. rewrite IH2. unfold is_ascii_hexdigit, is_ascii_digit.
  by rewrite Hd, Hm.
Qed.

Lemma request_id_test_passes random1 random2 :
  length random1 = 16%nat → random1 ≠ random2 →
  passes [request_ids_are_random_hex random1 random2].
Proof.
  intros Hl Hne. suite. unfold request_ids_are_random_hex, request_id. cbn [ok_or].
  destruct (encode_hex_digits random1) as [Hlen Hd].
  rewrite bytes_of_app. cbn [drop take bytes_of app].
  rewrite !andb_true_iff. split_and!.
  - reflexivity.
  - apply bool_decide_eq_true. rewrite <-length_bytes_of, bytes_of_app, length_app, Hlen, Hl. done.
  - exact Hd.
  - apply negb_true_iff, bool_decide_eq_false. intros E%(f_equal bytes_of).
    rewrite !bytes_of_app in E. apply app_inv_head in E. apply Hne, encode_hex_inj.
    apply (f_equal str_of) in E. by rewrite !str_of_bytes_of in E.
Qed.
