(* ===== verification/Tests.v ===== *)
(** * The unit tests of the repository

    The unit tests in the source files of the crates, on the definitions of
    the development; those of [unix_socket_tests.rs], which drive the daemon
    over sockets, and [test_metrics_log_doesnt_panic], which only prints, are
    not among them.  [surrounded_tests] pass in all surroundings (user, clock,
    counters, environment, random draws, TOML reader, texts of the operating
    system) that [surroundings_ok] describes.  [fixed_tests] run at chosen
    ones, and the tests of the log there with a checksum in place of SHA-256,
    on which they do not depend. *)

From S2P Require Import Prelude RustStd Types SecureFs Policy Nonce RateLimit Allowlist Attestation.
From S2P Require Import AuditEntry AuditLog Health Json Client AdapterConfig Registry Config Metrics.
From S2P Require Import Systemd UnixConnect Pam DemoAdapter.
From S2P Require Import ErrorText Sha256 JsonText TestBench.
From S2P Require Import TestsPolicy TestsSecurity TestsAudit TestsAdapters TestsEnds.
Open Scope Z_scope.

(** What the tests find when they run. *)
Record Surroundings := mk_surroundings {
  su_me : Z;                                    (* the user *)
  su_clock : Z; su_later : Z;                   (* two readings of the system clock *)
  su_passed : Z;                                (* between two monotonic readings *)
  su_metrics : Metrics;
  su_env : string → EnvVar;
  su_random1 : list byte; su_random2 : list byte;
  su_policy : string → option (list RawRule);   (* TOML *)
  su_io_text : IoKind → string; su_toml_text : string;
  su_pam_rc : Z; su_pam_user : option (list byte); su_getpw : string → Z → Z * option Z;
  su_pam_io : PamIo
}.

(** The clock does not stand still for a second, counters do not overflow,
    random draws differ, TOML is TOML; the user is not one of the strangers of
    the tests. *)
Record surroundings_ok (s : Surroundings) : Prop := {
  so_me : 0 ≤ su_me s < u32_max ∧ su_me s ≠ 30000;
  so_clock : clocks_ok (su_clock s) (su_later s);
  so_passed : 0 ≤ su_passed s < millis 50;
  so_metrics : 0 ≤ TOTAL_REQUESTS (su_metrics s) < u64_max
               ∧ 0 ≤ ACTIVE_CONNECTIONS (su_metrics s) < u64_max;
  so_random : length (su_random1 s) = 16%nat ∧ su_random1 s ≠ su_random2 s;
  so_policy : Forall (λ d, su_policy s d.1 = Some d.2) policy_documents
}.

Definition result_text (r : VerificationResult) : string := str_of (print (json_of_result r)).

(** Tests that depend on nothing, or run at chosen surroundings: as the user
    1000 (and as root, where that makes a difference), with clocks that
    advance by milliseconds and random draws that count. *)
Definition fixed_tests (io_text : IoKind → string) (toml_text : string) : list bool :=
  name_tests
  ++ (fs_tests 1000 io_text ++ fs_tests 0 io_text)
  ++ (allowlist_tests 1000 io_text ++ allowlist_tests 0 io_text)
  ++ (nonce_tests bench_clock bench_rand ++ rate_limit_tests bench_clock)
  ++ [@test_custom_methods_have_distinct_commitments fips_crypto]
  ++ [@hash_payload_v1_has_known_digest fips_crypto] ++ entry_tests
  ++ (@logger_tests bench_crypto 1000 io_text ++ @verifier_tests bench_crypto 1000 io_text)
  ++ (config_tests 1000 (toml_table adapter_documents) io_text toml_text
      ++ registry_tests 1000 (toml_table adapter_documents) io_text toml_text 0)
  ++ [@dispatch_rejects_until_health_succeeds 1000 (toml_table adapter_documents) 0 json_wire
        (Done true) (mk_exchange Elapsed None Elapsed Elapsed)]
  ++ (systemd_tests ++ argv_tests ++ [unix_addr_rejects_invalid_paths])
  ++ @module_tests json_wire (le_bytes 16 123456789).

(** Tests at the surroundings [s]. *)
Definition surrounded_tests (s : Surroundings) : list bool :=
  evaluator_tests (su_clock s) (su_later s)
  ++ parser_tests (su_me s) (su_policy s) (su_io_text s) (su_toml_text s)
  ++ [test_allowlist_large_file (su_me s)]
  ++ @evidence_tests fips_crypto
  ++ key_tests (su_me s) (su_io_text s)
  ++ [@test_open_rejects_entry_larger_than_recovery_window bench_crypto (su_me s) (su_io_text s)]
  ++ [@test_open_recovers_hash_from_bounded_tail bench_crypto (su_me s)]
  ++ metrics_tests (su_metrics s)
  ++ [health_requires_success_before_degraded (su_clock s)]
  ++ @client_tests json_wire (su_me s) result_text
  ++ [test_rejects_large_config_file (su_me s) (toml_table adapter_documents) (su_io_text s)
        (su_toml_text s)]
  ++ env_tests (su_env s)
  ++ [request_ids_are_random_hex (su_random1 s) (su_random2 s)]
  ++ [@pam_authenticate_fails_closed_without_user json_wire (su_pam_rc s) (su_pam_user s)
        (su_getpw s) (su_pam_io s)]
  ++ [poll_timeout_uses_remaining_deadline (su_passed s)]
  ++ [@method_commitments_match_core_contract fips_crypto;
      @evidence_hash_changes_when_uid_changes fips_crypto; load_key_rejects_symlink (su_me s);
      remove_stale_socket_refuses_active_listener (su_io_text s) true].

Lemma passes_app l k : passes l → passes k → passes (l ++ k).
Proof. apply Forall_app_2. Qed.

(** The texts of the answers are read back. *)
Lemma client_texts_pass me :
  0 ≤ me < u32_max → passes (@client_tests json_wire me result_text).
Proof.
  intros Hme. eapply (client_tests_pass (W := json_wire)); [done|reflexivity|..].
  - vm_compute. reflexivity.
  - vm_compute. reflexivity.
Qed.

(** The first part of a suite. *)
Ltac part H := refine (passes_app _ _ H _).

Lemma fixed_tests_pass io_text toml_text : passes (fixed_tests io_text toml_text).
Proof.
  part name_tests_pass.
  part (fs_tests_pass io_text).
  part (allowlist_tests_pass io_text).
  part store_tests_pass.
  part commitment_test_passes.
  part known_digest_passes.
  part entry_tests_pass.
  part (audit_tests_pass io_text).
  part (adapter_tests_pass io_text toml_text).
  part (dispatch_test_passes (W := json_wire) (Done true)
          (mk_exchange Elapsed None Elapsed Elapsed)).
  part plain_tests_pass.
  exact module_tests_pass.
Qed.

(** The model agrees with the program on what these tests observe: names and
    policy, secure files, allowlist, nonces, rate limits, attestation, audit
    entries, log and verifier, metrics, adapter health, client, configuration
    and registry, configuration, systemd, PAM module, demonstration adapter;
    among them the SHA-256 digest the repository records for the hashed
    payload of an audit entry. *)
Theorem unit_tests_pass s :
  surroundings_ok s →
  passes (fixed_tests (su_io_text s) (su_toml_text s)) ∧ passes (surrounded_tests s).
Proof.
  intros [[Hme Hne] Hc Hp [Hm1 Hm2] [Hr1 Hr2] Ht]. split; [apply fixed_tests_pass|].
  part (evaluator_tests_pass _ _ Hc).
  part (parser_tests_pass (su_me s) _ (su_io_text s) (su_toml_text s) Ht).
  part (large_file_test_passes _ Hne).
  part (evidence_tests_pass (CL := fips_crypto_laws)).
  part (key_tests_pass (su_me s) (su_io_text s)).
  part (oversized_test_passes (su_me s) (su_io_text s)).
  part (bounded_tail_test_passes (su_me s)).
  part (metrics_tests_pass _ Hm1 Hm2).
  part (health_test_passes (su_clock s)).
  part (client_texts_pass _ Hme).
  part (large_config_test_passes (su_me s) (toml_table adapter_documents) (su_io_text s)
          (su_toml_text s)).
  part (env_tests_pass (su_env s)).
  part (request_id_test_passes _ _ Hr1 Hr2).
  part (null_handle_test_passes (W := json_wire) (su_pam_rc s) (su_pam_user s) (su_getpw s)
          (su_pam_io s)).
  part (poll_test_passes _ Hp).
  exact (demo_tests_pass (su_me s) (su_io_text s) true).
Qed.

Definition sample_surroundings : Surroundings :=
  mk_surroundings 1000 (secs 1700000000) (secs 1700000000 + millis 3) (millis 1)
    (mk_metrics 5 0 2 1) (λ _, NotPresent) (le_bytes 16 1) (le_bytes 16 2)
    (toml_table policy_documents) (λ _, "error") "TOML parse error: " 0 None
    (λ _ _, (0, None))
    (mk_pam_io sample_connect true true None true (λ _, mk_stream [] true)).

Lemma unit_tests_pass_witness :
  passes (fixed_tests (λ _, "error") "TOML parse error: ")
  ∧ passes (surrounded_tests sample_surroundings).
Proof.
  apply (unit_tests_pass sample_surroundings). split; simpl.
  - unfold u32_max. lia.
  - unfold clocks_ok, secs, millis. lia.
  - unfold millis. lia.
  - unfold u64_max. lia.
  - split; [reflexivity|]. vm_compute. discriminate.
  - unfold policy_documents. repeat apply Forall_cons_2; [vm_compute; reflexivity..|].
    apply Forall_nil_2.
Defined.
