(* ===== verification/Main.v ===== *)
(** * The entry point: [crates/ola-core/src/main.rs]

    The command line and the two things the program does with it: check an
    audit log, or serve.  [harden_umask] has no state in the model; logging
    is left out. *)

From S2P Require Import Prelude RustStd Types SecureFs Policy Nonce RateLimit Allowlist.
From S2P Require Import Attestation AuditEntry AuditLog AuditChain Health Json Client AdapterConfig Registry Config Metrics.
From S2P Require Import Privilege Socket Server Startup.
Open Scope Z_scope.

(** An [OsString] is its bytes.  [Err tt] is the usage error. *)
Definition parse_audit_verify_path (args : list (list byte))
  : result (option (list byte)) unit :=
  match args with
  | [] => Ok None
  | first :: args =>
      if negb (bool_decide (first = bytes_of "audit")) then Err tt
      else match args with
           | [] => Err tt
           | subcommand :: args =>
               if negb (bool_decide (subcommand = bytes_of "verify")) then Err tt
               else match args with
                    | [] => Err tt
                    | path :: args =>
                        match args with [] => Ok (Some path) | _ :: _ => Err tt end
                    end
           end
  end.

Inductive MainError : Type :=
| MUsage
| MVerify (e : VerifyError)
| MConfig (e : EnvError)
| MStart (e : StartError).

Section Main.
Context (toml_policy : string → option (list RawRule)).
Context (toml_adapter : string → option AdapterConfig).
Context {Proc : Type} `{K : Kernel Proc} `{C : Crypto} `{SD : AuditSerde}.

(** [serve], up to the accept loop. *)
Definition serve (se : StartEnv) (p : Proc) : result (Running (Proc := Proc)) MainError :=
  let? config := map_err MConfig (from_env (se_env se)) in
  map_err MStart (start_server toml_policy toml_adapter config se p).

(** What the process ends up doing: it reports on a log, or it serves. *)
Definition main (args : list (list byte)) (se : StartEnv) (p : Proc)
  : result (AuditVerifyReport + Running (Proc := Proc)) MainError :=
  let? path := map_err (λ _, MUsage) (parse_audit_verify_path args) in
  match path with
  | Some path =>
      let? report := map_err MVerify (verify_audit_log (se_fs se) (str_of path)) in
      Ok (inl report)
  | None =>
      let? rn := serve se p in
      Ok (inr rn)
  end.
End Main.

(** ** Lemmas *)

Lemma parse_audit_verify_path_Ok args o :
  parse_audit_verify_path args = Ok o ↔
  args = [] ∧ o = None
  ∨ ∃ path, args = [bytes_of "audit"; bytes_of "verify"; path] ∧ o = Some path.
Proof.
  unfold parse_audit_verify_path. destruct args as [|a [|b [|path [|? ?]]]];
    repeat (case_bool_decide; simpl); naive_solver.
Qed.

Lemma from_env_prod env c :
  from_env env = Ok c → env "OLA_RUNMODE" = NotPresent → is_prod_mode c = true.
Proof.
  unfold from_env, var_or. intros H E. rewrite E in H.
  rewrite bool_decide_eq_true_2 in H by (left; done). simpl in H.
  destruct (parse_env_u64_with_fallback env _ _ _); [|done].
  destruct (parse_env_nonzero_u64 env _ _); [|done].
  destruct (parse_env_u64 env "OLA_MAX_RESULT_AGE_SECS" _); [|done].
  destruct (_ <? _); [done|]. by injection H as <-.
Qed.

(** Secure unless told otherwise: a daemon started without arguments and
    without OLA_RUNMODE serves only in production mode, with attestation, with
    the allowlist of a hardened file, and only files of root or the service
    user were trusted. *)
Theorem default_daemon_secure toml_policy toml_adapter {Proc} {K : Kernel Proc} {C : Crypto}
    {SD : AuditSerde} args se (p : Proc) rn :
  main toml_policy toml_adapter args se p = Ok (inr rn) →
  se_env se "OLA_RUNMODE" = NotPresent →
  args = []
  ∧ is_prod_mode (sv_config (rn_server rn)) = true
  ∧ require_attestation (sv_config (rn_server rn)) = true
  ∧ (∃ u, se_get_user se (service_user_name (se_env se)) = Some u
          ∧ sv_owner_policy (rn_server rn) = RootOrUid (us_uid u))
  ∧ trusted_allowlist (se_fs se) (c_ruid (creds p)) (sv_config (rn_server rn))
      (sv_owner_policy (rn_server rn)) (rl_allowlist (rn_reloadable rn)).
Proof.
  unfold main, serve. intros H Hmode. peel H as [o|] Ha.
  apply parse_audit_verify_path_Ok in Ha as [[-> ->] | (path & _ & ->)];
    [|by destruct (verify_audit_log _ _); simplify_eq].
  destruct (from_env (se_env se)) as [config|] eqn:Hc; simpl in H; [|done].
  destruct (start_server _ _ _ _ _) as [rn'|] eqn:Hs; simplify_eq/=.
  apply from_env_prod in Hc; [|done]. apply start_server_inv in Hs as
    (owner & reg & rl & at' & lg & l & p' & [H1 H2 _ H4 _ _ _ _] & ->). simpl.
  apply load_Ok in H4 as [Hal _]. apply secure_owner_policy_Ok in H2.
  rewrite Hc, orb_true_r in H2. split_and!; try done; [|by auto].
  unfold validate_attestation_mode in H1. rewrite Hc in H1.
  by destruct (require_attestation config).
Qed.
